(* ===== verification/_CoqProject ===== *)
-Q . S2P
Prelude.v
GoSort.v
GoStd.v
Kube.v
Fixtures.v
State.v
Heap.v
Keys.v
Domain.v
Api.v
DeepCopy.v
Plugin.v
Cycle.v
Lifecycle.v
Janitor.v
Recovery.v
Protocol.v
Restart.v
Skew.v
Enqueue.v
Webhook.v
Observer.v
Wiring.v
Wakeup.v
SelfCert.v
Rotation.v
Loops.v
Factory.v
Startup.v
