(* ===== verification/Prelude.v ===== *)
(** * Verification of the ServiceSpread scheduler

    The repository is a kube-scheduler plugin that spreads the pods of a service
    over nodes: at most [maxPodsPerNode] pods of a service on a node, and counts
    over the service's stable domain that differ by at most [maxSkew].  A webhook
    admits the policies, an observer exports metrics.  This library models the Go
    code of cmd/, internal/, apis/ and api/ and proves what it does.

    ** The program and the files

    - [Prelude]: panics ([go]) and error pairs ([res]), wrapping machine integers,
      Go map reads, counting over maps, enumerations of a map in an arbitrary order.
    - [GoSort], [GoStd]: the standard-library routines the source calls, written
      out: [sort.SliceStable] with its blocks, rotations and in-place merges and an
      index-based [less], strings, JSON, SHA-256, hex, base64, [fmt] verbs.
    - [Kube]: the Kubernetes objects as records; the library functions on them are
      the class [KubeLib] with the documented laws [KubeLibLaws].  [Fixtures] has an
      instance and small objects for the witnesses.
    - [State] (internal/spread/state.go): [spreadState], the snapshot of counted
      pods with its two counter maps, and the reservation overlay; one definition
      per locked operation, [sstep] their step relation.
    - [Heap] (state.go, and the clones of plugin.go): the same snapshot operations on
      a store of shared map objects, with the triples [hspec] and the footprints
      [ext]; it refines the values of [State].  [DeepCopy] (the generated
      zz_generated.deepcopy.go files) uses the same store and a second one for the
      backing arrays of slices; the copies of library types are the interface
      [DeepCopier] with its laws.
    - [Keys] (keys.go): quota and scheduling keys, the canonical domain spec and its
      hash.  [Domain] (domain.go): the stable domain of a pod.
    - [Api] (api/v1alpha1/types.go, apis/config/v1alpha1): the policy object, the
      plugin arguments, their defaults, validation and decoding.
    - [Plugin] (plugin.go, and the owner chain of plugins_api.go): PreFilter, Filter,
      PreScore, Score, Reserve, Unreserve, PostBind over the cycle state, which is
      the class [CycleStore] with laws.
    - [Cycle]: the extension points composed as the framework calls them; which nodes
      it looks at and which of the best it takes is arbitrary.
    - [Lifecycle] (lifecycle.go, [onPodEvent] of plugins_api.go): pod events as lists
      of critical sections, janitor and reconciler passes, the verification source.
    - [Janitor] (lifecycle.go, [janitorOnce]): the janitor's pass from one critical
      section to the next, [jstep]; [jpc] says where it is.  [Recovery]: what one pass
      and one reconcile tick make of an arbitrary state.
    - [Protocol]: the composition.  A [cluster] is the counting state, the pods
      bound, the pods in flight between Reserve and binding, the pods that are gone
      and the place the janitor is at; [cstep] interleaves Reserve, binding,
      Unreserve, PostBind, pod deletion, the critical sections of events, of the
      janitor and of the reconciler.  Three flags restrict a run: the janitor is patient,
      lists are complete, events are timely.
    - [Restart]: the protocol with restarts of the process, which forget the counts and
      the reservations; the flag of a run says whether the bound pods were delivered
      since.
    - [Skew]: the same steps with a log of the Reserves, for the bound on how far two
      nodes can drift apart.
    - [Enqueue] (enqueue.go): the queueing hints.  [Wakeup]: the hints against
      PreFilter, over a [world] of counts, policies, owners and nodes that events change.
    - [Webhook] (internal/webhook: naming.go, config.go, validation.go,
      policy_webhook.go): policy names, configuration source, static validation,
      overlap check, handlers.
    - [Observer] (replicatarget.go): targets, aggregation, capacity deficit, export.
    - [Wiring] (plugins_api.go, [RunObserverLoop], [EventsToRegister]): the pod
      informer's handlers, the policy reader, one export cycle, the registrations.
    - [SelfCert] (selfcert.go): the serving certificate; cryptography and the API
      server are the classes [Crypto] and [CertAPI] with laws.  [Rotation] is the
      same pass one API call at a time ([pass_step]), for passes that overlap.
    - [Loops] (the goroutines of lifecycle.go, replicatarget.go and selfcert.go): the
      select loops as functions of what wakes them, a tick or the end of the context.
    - [Factory] (plugins_api.go, [New] and [depsFromHandle]): how the plugin is put
      together from the framework's handle, and which loops it starts.
    - [Startup] (cmd/webhook/main.go, cmd/scheduler/main.go, wire.go, the scheme
      registrations): the binaries as sequences of calls that may fail or exit.

    PreFilter reads the state through [effCount] and leaves its findings in the
    cycle state; Filter and Score only read those; Reserve recomputes the domain and
    checks again inside the lock ([TryReserveChecked]).  Bound pods reach the
    snapshot through [onPodEvent], which also releases the reservation it makes
    redundant.  The janitor and the reconciler repair the state from the pod lister.

    ** What the theorems show

    - Sharing: a snapshot that was published never changes, although its maps are
      heap objects: no write, at any moment, goes to a map older than the operation
      that makes it; and every clone and deep copy is independent of its original.
    - Counting: the counters of every reachable state are the numbers of counted
      pods, effective counts are exact below the int32 limit, a reservation hands
      over to its count without losing or doubling a seat, the event handlers refine
      the informer's cache, the reconciler does not change what complete events have
      built, one janitor pass does exactly what it should, and a pass and a tick
      repair any state.
    - Scheduling: PreFilter, Reserve, policy resolution and the stable domain equal
      declarative specifications on every branch; Filter and Reserve agree on an
      unchanged cluster; scores are in range and ordered; a whole cycle places the pod
      on a node with the fewest pods, and maxSkew alone never leaves a pod without a
      node; an event whose hint skips a pending pod does not change PreFilter's answer.
    - The hard cap holds through every interleaving, the janitor's critical sections
      included, as long as the janitor's scan meets no expired in-flight pod, rebuild
      lists are complete, and no event from before a pod's binding is processed after
      the pod was counted and its reservation released; without any of the three a run
      that breaks it is given ([janitor_breaks_cap], [stale_rebuild_breaks_cap],
      [late_event_breaks_cap]).  It also holds across restarts and failovers if Reserve waits for the handlers to count
      the bound pods; the source waits for the informer's cache only, and a run that
      breaks the cap that way is given.
    - The skew bound: under the same three conditions two nodes of a domain never differ
      by more than maxSkew, plus the pods that have left the emptier one, plus the pods
      between the two halves of their event; the last term is necessary
      ([handover_breaks_skew]), and so are timely events ([late_event_breaks_skew]).  From any
      moment on, nodes that have joined and a maxSkew that has been lowered do not make
      a difference grow beyond what it was.
    - Keys: what the hash and the keys depend on and what they identify.
    - Webhook: exact validation and handlers, fail-closed configuration, and that
      admitted policies are unambiguous for the plugin.
    - Observer: one cycle shows every service's counts; the target chain.
    - Certificates: when a pass issues, what it publishes, and that it settles; one
      call at a time a pass is the same function; overlapping passes have one writer
      once a Secret exists, whichever calls fail or lose their answer, as long as no
      read of the Secret does ([failed_reads_race]); two replicas on a fresh cluster
      need not agree.
    - Loops and start-up: the loops terminate and do not panic, an orphaned
      reservation is dropped at the first tick after its TTL, the rotator keeps the
      Secret healthy; the factory and the binaries do what they should on every
      failure, and a broken client makes the plugin reject, never guess.
    - Behaviour that differs from the comments is stated as theorems too: nil policy
      panics, wrap-around, order-dependent hashes, an empty selector term that matches
      every node, torn reads, missed wake-ups, late events, a gauge that is never reset,
      an ambiguity the webhook lets through.

    ** Bounds

    Loops are structural on the slice, the string, the enumeration of a map or the
    list of wake-ups.  Three things have fuel: [run_pass], the number of API calls, of
    which six are enough ([pass_refines_ensure]); [run_janitor], the number of critical
    sections, four for each reservation and three more ([janitor_thread_refines_pass]);
    and the loops of [SliceStable], whose fuel lemmas in [GoSort] show that the fuel it
    passes them is enough.  int32 and int64 arithmetic wraps; [fits], [small] and
    [room] state that the numbers of pods stay below the int32 limit.  A [range]
    over a map is a fold over an enumeration, and the theorems that mention
    [enumerates] hold for every order.  [SliceStable] is exact at every length.
    [insertion_sort] is what [sort.Slice] runs on at most 12 elements; beyond that the
    model is exact where the order is total (see [GoSort]).

    ** Assumptions and what is not modelled

    The protocol assumes that every counted pod was placed by this scheduler, that the
    caps of a service's policies have a bound, that labels do not change and UIDs are
    not reused, that Reserve is called for no bound or gone pod and Unreserve for no bound
    one, that a list the janitor or the reconciler uses names every bound pod when it is
    read and when it is used, and that events are timely ([event_ok]): an object without
    a node, of a pod bound by now, is processed while its reservation stands. [Restart] assumes that bindings
    of the old process that still take effect do so by the time the new one starts.
    [Skew] compares nodes that stay in the domain; [Wakeup] assumes that counted
    pods were not relabelled. The clock is an argument. Concurrency is at the
    granularity of critical sections, and of API calls for the rotators. Outside
    [Heap] the snapshot is a value, which [Heap] justifies for readers at any
    moment; a slice's backing array is a list, except in [DeepCopy]. In [Rotation]
    every API call is answered, fails without effect, or is carried out with its answer
    lost ([answer]); [lost_answer_strands_bundle] says what becomes of a lost one. Not modelled:
    the insides of informers, clients, the manager and the ticker, metrics other
    than as a log, command-line parsing, TLS and HTTP options, the scheduler's own
    command, deployment manifests.

    ** Order of work

    Modelled in this order: state, keys and domain, plugin, lifecycle, protocol, then
    hints, webhook, observer, wiring, certificates, then the shared store, deep
    copies, loops, overlapping rotations, factory and start-up, then the merges of
    [sort.SliceStable], the interleaved janitor, the skew bound, wake-ups, whole cycles,
    recovery and restarts.  PreFilter's reads need no finer steps: its theorem holds for
    any counts the loop may see, and Reserve's for any cycle state.  What is left
    unmapped of the source are interfaces, compile-time assertions, metric
    registrations and comments. *)

From Stdlib Require Import ZArith Lia.
From stdpp Require Export base tactics option list gmap strings pretty sorting.

Open Scope Z_scope.

Declare Scope go_scope.
Delimit Scope go_scope with go.
Open Scope go_scope.

(** ** Go computations

    [go A] is a computation that returns an [A] or panics (a nil dereference);
    [res A] is the usual [(A, error)] result pair of which exactly one side is
    meaningful. *)

Inductive go (A : Type) : Type :=
| Val (a : A)
| Panic.
Arguments Val {A} a.
Arguments Panic {A}.

Inductive res (A : Type) : Type :=
| Ok (a : A)
| Err (msg : string).
Arguments Ok {A} a.
Arguments Err {A} msg.

#[export] Instance go_mret : MRet go := fun A a => Val a.
#[export] Instance go_mbind : MBind go :=
  fun A B f m => match m with Val a => f a | Panic => Panic end.

#[export] Instance res_mret : MRet res := fun A a => Ok a.
#[export] Instance res_mbind : MBind res :=
  fun A B f m => match m with Ok a => f a | Err e => Err e end.

#[export] Instance res_eq_dec {A} `{EqDecision A} : EqDecision (res A).
Proof. solve_decision. Defined.
#[export] Instance go_eq_dec {A} `{EqDecision A} : EqDecision (go A).
Proof. solve_decision. Defined.

(** ** Machine integers

    [int32] and [int64] values are integers kept in range; every arithmetic
    operation of the source is followed by the wrap of its width. *)

Definition wrap (w : Z) (z : Z) : Z := (z + 2 ^ (w - 1)) mod 2 ^ w - 2 ^ (w - 1).
Definition wrap32 (z : Z) : Z := wrap 32 z.
Definition wrap64 (z : Z) : Z := wrap 64 z.

Definition max_int32 : Z := 2147483647.
Definition max_int64 : Z := 9223372036854775807.

Notation "x ⊞ y" := (wrap32 (x + y)) (at level 50, left associativity) : go_scope.
Notation "x ⊟ y" := (wrap32 (x - y)) (at level 50, left associativity) : go_scope.

Definition in_int32 (z : Z) : Prop := - 2147483648 <= z <= max_int32.
Definition in_int64 (z : Z) : Prop := - 9223372036854775808 <= z <= max_int64.

Lemma wrap32_id z : in_int32 z -> wrap32 z = z.
Proof.
  unfold in_int32, max_int32, wrap32, wrap. intros H. change (2 ^ (32 - 1)) with 2147483648.
  change (2 ^ 32) with 4294967296. rewrite Z.mod_small; lia.
Qed.

Lemma wrap64_id z : in_int64 z -> wrap64 z = z.
Proof.
  unfold in_int64, max_int64, wrap64, wrap. intros H.
  change (2 ^ (64 - 1)) with 9223372036854775808.
  change (2 ^ 64) with 18446744073709551616. rewrite Z.mod_small; lia.
Qed.

Lemma wrap32_range z : in_int32 (wrap32 z).
Proof.
  unfold in_int32, max_int32, wrap32, wrap. change (2 ^ (32 - 1)) with 2147483648.
  change (2 ^ 32) with 4294967296.
  pose proof (Z.mod_pos_bound (z + 2147483648) 4294967296). lia.
Qed.

Lemma wrap_wrap_add w a b : 0 < w -> wrap w (wrap w a + b) = wrap w (a + b).
Proof.
  unfold wrap. intros Hw. assert (0 < 2 ^ w) by (apply Z.pow_pos_nonneg; lia).
  f_equal.
  replace ((a + 2 ^ (w - 1)) mod 2 ^ w - 2 ^ (w - 1) + b + 2 ^ (w - 1))
    with ((a + 2 ^ (w - 1)) mod 2 ^ w + b) by lia.
  rewrite Z.add_mod_idemp_l by lia. f_equal. lia.
Qed.

Lemma wrap32_add a b : wrap32 (wrap32 a + b) = wrap32 (a + b).
Proof. apply wrap_wrap_add. lia. Qed.

Lemma wrap_mod w a : 0 < w -> wrap w a mod 2 ^ w = a mod 2 ^ w.
Proof.
  unfold wrap. intros Hw. assert (0 < 2 ^ w) by (apply Z.pow_pos_nonneg; lia).
  rewrite Zminus_mod_idemp_l. f_equal. lia.
Qed.

Lemma wrap_cong w a b : a mod 2 ^ w = b mod 2 ^ w -> wrap w a = wrap w b.
Proof.
  unfold wrap. intros Hab. f_equal. rewrite Zplus_mod, Hab, <- Zplus_mod. done.
Qed.

(** Inner wraps do not matter: only the last one does. *)
Lemma wrap64_mul_add a b c : wrap64 (wrap64 (wrap64 a * b) + c) = wrap64 (a * b + c).
Proof.
  unfold wrap64. rewrite wrap_wrap_add by lia. apply wrap_cong.
  rewrite Zplus_mod, (Zmult_mod (wrap 64 a)), wrap_mod, <- Zmult_mod, <- Zplus_mod by lia. done.
Qed.

Lemma wrap64_opp a : wrap64 (- wrap64 a) = wrap64 (- a).
Proof.
  unfold wrap64. apply wrap_cong. rewrite <- (Z.sub_0_l (wrap 64 a)), Zminus_mod, wrap_mod by lia.
  rewrite <- Zminus_mod. done.
Qed.

Create HintDb go discriminated.
Create Rewrite HintDb go.
#[export] Hint Rewrite wrap32_add : go.
#[export] Hint Resolve wrap32_range : go.

(** [int_small] discharges the "no overflow" side conditions. *)
Ltac int_small :=
  rewrite ?wrap32_id in * by (unfold in_int32, max_int32 in *; lia).

(** Closed decidable propositions by evaluation. *)
Ltac by_decide :=
  match goal with |- ?P => refine (bool_decide_eq_true_1 P _); vm_compute; reflexivity end.

(** Case analysis on the scrutinee of a [match] in the goal or a hypothesis,
    remembering its equation. *)
Ltac case_go :=
  match goal with
  | H : context [ match ?x with _ => _ end ] |- _ => destruct x eqn:?; simplify_eq/=
  | |- context [ match ?x with _ => _ end ] => destruct x eqn:?; simplify_eq/=
  end.

(** ** Go maps

    [m[k]] on a missing key (or a nil map) is the zero value. *)

Definition map_get {V} (d : V) (m : gmap string V) (k : string) : V := default d (m !! k).

(** ** Counting the entries of a map *)

Section count_if.
Context {K : Type} `{Countable K} {V : Type}.
Implicit Types (m : gmap K V) (p : V -> bool).

Definition b2z (b : bool) : Z := if b then 1 else 0.

Definition count_if (p : V -> bool) (m : gmap K V) : Z :=
  map_fold (fun _ v n => b2z (p v) + n) 0 m.

Lemma count_if_empty p : count_if p ∅ = 0.
Proof. apply map_fold_empty. Qed.

Lemma count_if_insert p m k v :
  m !! k = None -> count_if p (<[k:=v]> m) = b2z (p v) + count_if p m.
Proof. intros Hk. unfold count_if. rewrite map_fold_insert_L; [done| |done]. intros; lia. Qed.

Lemma count_if_delete p m k v :
  m !! k = Some v -> count_if p m = b2z (p v) + count_if p (delete k m).
Proof.
  intros Hk. rewrite <- (insert_delete_id m k v Hk) at 1.
  apply count_if_insert. apply lookup_delete_eq.
Qed.

Lemma count_if_delete_None p m k : m !! k = None -> count_if p (delete k m) = count_if p m.
Proof. intros Hk. by rewrite delete_id. Qed.

Lemma count_if_replace p m k v w :
  m !! k = Some v -> count_if p (<[k:=w]> m) = count_if p m - b2z (p v) + b2z (p w).
Proof.
  intros Hk. rewrite (count_if_delete p m k v Hk).
  rewrite <- insert_delete_eq, count_if_insert by apply lookup_delete_eq. lia.
Qed.

Lemma count_if_nonneg p m : 0 <= count_if p m.
Proof.
  induction m as [|k v m Hk IH] using map_ind; [by rewrite count_if_empty|].
  rewrite count_if_insert by done. destruct (p v); simpl; lia.
Qed.

Lemma count_if_size p m : count_if p m <= Z.of_nat (size m).
Proof.
  induction m as [|k v m Hk IH] using map_ind; [by rewrite count_if_empty|].
  rewrite count_if_insert, map_size_insert_None by done. destruct (p v); simpl; lia.
Qed.

Lemma count_if_ext p q m :
  (forall k v, m !! k = Some v -> p v = q v) -> count_if p m = count_if q m.
Proof.
  induction m as [|k v m Hk IH] using map_ind; intros Hpq; [by rewrite !count_if_empty|].
  rewrite !count_if_insert by done. rewrite (Hpq k v) by apply lookup_insert_eq.
  rewrite IH; [done|]. intros k' v' Hk'. apply (Hpq k').
  rewrite lookup_insert_ne; [done|]. intros ->. congruence.
Qed.

Lemma count_if_pos p m k v : m !! k = Some v -> p v = true -> 0 < count_if p m.
Proof.
  intros Hk Hp. rewrite (count_if_delete p m k v Hk), Hp.
  pose proof (count_if_nonneg p (delete k m)). simpl. lia.
Qed.

Lemma count_if_zero p m : (forall k v, m !! k = Some v -> p v = false) -> count_if p m = 0.
Proof.
  intros Hp. rewrite (count_if_ext p (fun _ => false) m) by done.
  induction m as [|k v m Hk IH] using map_ind; [apply count_if_empty|].
  rewrite count_if_insert by done. simpl. rewrite IH; [done|].
  intros k' v' Hk'. apply (Hp k'). rewrite lookup_insert_ne; [done|]. intros ->. congruence.
Qed.

Lemma count_if_subseteq p m1 m2 : m1 ⊆ m2 -> count_if p m1 <= count_if p m2.
Proof.
  revert m2. induction m1 as [|k v m1 Hk IH] using map_ind; intros m2 Hsub.
  - rewrite count_if_empty. apply count_if_nonneg.
  - assert (Hk2 : m2 !! k = Some v) by (eapply lookup_weaken; [apply lookup_insert_eq|done]).
    rewrite count_if_insert, (count_if_delete p m2 k v Hk2) by done.
    assert (Hd : m1 ⊆ delete k m2); [|specialize (IH _ Hd); lia].
    apply map_subseteq_spec. intros k' v' Hk'. assert (k' <> k) by (intros ->; congruence).
    rewrite lookup_delete_ne by done. eapply lookup_weaken; [|done]. by rewrite lookup_insert_ne.
Qed.

End count_if.

(** If every counted entry of [m] is a counted entry of [a] or of [b] under the same
    key, [m] counts at most as much as both. *)
Lemma count_if_cover {K} `{Countable K} {V A B} (p : V -> bool) (pa : A -> bool) (pb : B -> bool)
    (m : gmap K V) (a : gmap K A) (b : gmap K B) :
  (forall k v, m !! k = Some v -> p v = true ->
     (exists x, a !! k = Some x /\ pa x = true) \/ (exists y, b !! k = Some y /\ pb y = true)) ->
  count_if p m <= count_if pa a + count_if pb b.
Proof.
  revert a b. induction m as [|k v m Hk IH] using map_ind; intros a b Hc.
  - rewrite count_if_empty. pose proof (count_if_nonneg pa a). pose proof (count_if_nonneg pb b). lia.
  - rewrite count_if_insert by done.
    assert (Hdel : forall {V'} (q : V' -> bool) (x : gmap K V'), count_if q (delete k x) <= count_if q x).
    { intros V' q x. apply count_if_subseteq, delete_subseteq. }
    assert (IH' : count_if p m <= count_if pa (delete k a) + count_if pb (delete k b)).
    { apply IH. intros k' v' Hk' Hp. assert (k' <> k) by (intros ->; congruence).
      rewrite !lookup_delete_ne by done. apply (Hc k' v'); [by rewrite lookup_insert_ne|done]. }
    pose proof (Hdel _ pa a) as Ha. pose proof (Hdel _ pb b) as Hb.
    destruct (p v) eqn:Hp; simpl; [|lia].
    destruct (Hc k v (lookup_insert_eq _ _ _) Hp) as [(x & Hx & Hpx)|(y & Hy & Hpy)].
    + rewrite (count_if_delete pa a k x Hx), Hpx. simpl. lia.
    + rewrite (count_if_delete pb b k y Hy), Hpy. simpl. lia.
Qed.

(** Two maps whose selected keys all occur in a list: together they select no more
    than its length, up to the keys that both select. *)
Definition count_both {K} `{Countable K} {A B} (pa : A -> bool) (pb : B -> bool)
    (a : gmap K A) (b : gmap K B) : Z := count_if (fun xy => pa xy.1 && pb xy.2) (map_zip a b).

Lemma count_both_log {K} `{Countable K} {A B} (pa : A -> bool) (pb : B -> bool) l (a : gmap K A) (b : gmap K B) :
  (forall k x, a !! k = Some x -> pa x = true -> k ∈ l) ->
  (forall k y, b !! k = Some y -> pb y = true -> k ∈ l) ->
  count_if pa a + count_if pb b <= Z.of_nat (length l) + count_both pa pb a b.
Proof.
  unfold count_both. revert a b. induction l as [|k l IH]; intros a b Ha Hb.
  { assert (Hza : count_if pa a = 0).
    { apply count_if_zero. intros k x Hx. destruct (pa x) eqn:E; [|done]. by destruct (not_elem_of_nil k (Ha k x Hx E)). }
    assert (Hzb : count_if pb b = 0).
    { apply count_if_zero. intros k y Hy. destruct (pb y) eqn:E; [|done]. by destruct (not_elem_of_nil k (Hb k y Hy E)). }
    rewrite Hza, Hzb. apply count_if_nonneg. }
  assert (Hz : map_zip (delete k a) (delete k b) = delete k (map_zip a b)).
  { apply map_eq. intros i. destruct (decide (k = i)) as [<-|Hne].
    - by rewrite map_lookup_zip_with, !lookup_delete_eq.
    - by rewrite lookup_delete_ne, !map_lookup_zip_with, !lookup_delete_ne. }
  specialize (IH (delete k a) (delete k b)). rewrite Hz in IH.
  assert (Hlen : Z.of_nat (length (k :: l)) = 1 + Z.of_nat (length l)) by (simpl; lia). rewrite Hlen. clear Hlen.
  assert (Hrest : count_if pa (delete k a) + count_if pb (delete k b) <=
                  Z.of_nat (length l) + count_if (fun xy => pa xy.1 && pb xy.2) (delete k (map_zip a b))).
  { apply IH; intros i x [Hne Hx]%lookup_delete_Some Hp;
      [apply Ha in Hx|apply Hb in Hx]; try done; apply elem_of_cons in Hx as [->|?]; done. }
  assert (Hak : count_if pa a = match a !! k with Some x => b2z (pa x) | None => 0 end + count_if pa (delete k a)).
  { destruct (a !! k) as [x|] eqn:E; [by apply count_if_delete|by rewrite count_if_delete_None]. }
  assert (Hbk : count_if pb b = match b !! k with Some y => b2z (pb y) | None => 0 end + count_if pb (delete k b)).
  { destruct (b !! k) as [y|] eqn:E; [by apply count_if_delete|by rewrite count_if_delete_None]. }
  destruct (a !! k) as [x|] eqn:Ea; [destruct (b !! k) as [y|] eqn:Eb|].
  - rewrite (count_if_delete _ (map_zip a b) k (x, y)) by (apply map_lookup_zip_with_Some; eauto).
    simpl. destruct (pa x), (pb y); simpl in *; lia.
  - rewrite (count_if_delete_None _ (map_zip a b)) in Hrest by (rewrite map_lookup_zip_with, Ea; simpl; by rewrite Eb).
    destruct (pa x); simpl in *; lia.
  - rewrite (count_if_delete_None _ (map_zip a b)) in Hrest by (by rewrite map_lookup_zip_with, Ea).
    destruct (b !! k) as [y|]; [destruct (pb y)|]; simpl in *; lia.
Qed.

#[export] Hint Rewrite @count_if_empty : go.
#[export] Hint Resolve count_if_nonneg count_if_size : go.

(** Folding over the entries of a map in any order: the Go [range] loops visit
    the entries in an unspecified order, so a loop is modelled over an
    enumeration and shown independent of it. *)

Definition enumerates {K V} `{Countable K} (l : list (K * V)) (m : gmap K V) : Prop :=
  l ≡ₚ map_to_list m.

Lemma enumerates_refl {K V} `{Countable K} (m : gmap K V) : enumerates (map_to_list m) m.
Proof. by unfold enumerates. Qed.

#[export] Hint Resolve enumerates_refl : go.

Lemma enumerates_ind {K V B} `{Countable K} (f : B -> K * V -> B) :
  forall (P : gmap K V -> B -> Prop) (b : B),
  P ∅ b ->
  (forall m k v a, m !! k = None -> P m a -> P (<[k:=v]> m) (f a (k, v))) ->
  forall m l, enumerates l m -> P m (foldl f b l).
Proof.
  intros P b H0 HS m l. revert m.
  induction l as [|[k v] l IH] using rev_ind; intros m Hl; unfold enumerates in Hl.
  - apply Permutation_nil_l, eq_sym, map_to_list_empty_iff in Hl. by subst.
  - assert (Hnd : NoDup (l ++ [(k, v)]).*1).
    { rewrite Hl. apply NoDup_fst_map_to_list. }
    assert (Hk : m !! k = Some v).
    { apply elem_of_map_to_list. rewrite <- Hl. set_solver. }
    rewrite foldl_app. simpl. rewrite <- (insert_delete_id m k v Hk).
    apply HS; [apply lookup_delete_eq|]. apply IH. unfold enumerates.
    apply (Permutation_cons_inv (a := (k, v))).
    rewrite (map_to_list_delete m k v Hk), <- Hl. apply Permutation_cons_append.
Qed.
