(* ===== verification/GoSort.v ===== *)
(** * Go's [sort] package, as the source uses it

    [sort.Slice] and [sort.SliceStable] take an index-based [less i j] that is
    evaluated while the slice is being permuted in place.  What [less] reads
    matters: [sortReqs] reads the slice itself, [sortTols] and [sortTermSlice]
    read a side array that is not permuted along.  Both uses are covered by one
    definition whose [less] takes the current slice.

    [SliceStable] is the library's algorithm at every length: insertion sort of
    blocks of 20, then rounds of in-place merges by rotation ([symMerge]).  For
    [sort.Slice] the model is [insertion_sort], which it runs on at most 12
    elements; the source uses it with a [less] that reads the slice and orders its
    elements totally, where every correct sort gives the same list
    ([insertion_sort_canonical]).

    Loops whose bounds shrink by halving or subtraction have fuel; the [_fuel]
    lemmas show that the fuel they are started with is enough. *)

From S2P Require Import Prelude.
From Stdlib Require Import Permutation Sorted.

(** ** Definitions *)

Section sort_defs.
Context {A : Type}.

(** [data.Swap(j, j-1)], written at index [j'] = [j-1]. *)
Definition swap_at (j : nat) (l : list A) : list A :=
  match l !! j, l !! S j with
  | Some x, Some y => <[j := y]> (<[S j := x]> l)
  | _, _ => l
  end.

(** [for j := i; j > 0 && less(j, j-1); j-- { Swap(j, j-1) }] *)
Fixpoint sift_down (less : list A -> nat -> nat -> bool) (j : nat) (l : list A) : list A :=
  match j with
  | O => l
  | S j' => if less l (S j') j' then sift_down less j' (swap_at j' l) else l
  end.

(** [for i := 1; i < n; i++ { sift_down i }] *)
Definition insertion_sort (less : list A -> nat -> nat -> bool) (l : list A) : list A :=
  foldl (fun l i => sift_down less i l) l (seq 1 (length l - 1)).

(** [insertionSort_func(data, a, b)]; [sift_from a k] sifts down from [a + k]. *)
Fixpoint sift_from (less : list A -> nat -> nat -> bool) (a k : nat) (l : list A) : list A :=
  match k with
  | O => l
  | S k' => if less l (a + S k')%nat (a + k')%nat then sift_from less a k' (swap_at (a + k') l) else l
  end.

Definition insertionSort (less : list A -> nat -> nat -> bool) (a b : nat) (l : list A) : list A :=
  foldl (fun l k => sift_from less a k l) l (seq 1 (b - a - 1)).

(** [data.Swap(i, j)] *)
Definition swap (i j : nat) (l : list A) : list A :=
  match l !! i, l !! j with
  | Some x, Some y => <[i := y]> (<[j := x]> l)
  | _, _ => l
  end.

(** [for i < j { h := (i+j)>>1; if p(h) { i = h+1 } else { j = h } }] *)
Fixpoint bisect (fuel : nat) (p : nat -> bool) (i j : nat) : nat :=
  match fuel with
  | O => i
  | S fuel =>
    if (i <? j)%nat then
      let h := ((i + j) / 2)%nat in
      if p h then bisect fuel p (h + 1) j else bisect fuel p i h
    else i
  end.

Definition swapRange (a b n : nat) (l : list A) : list A :=
  foldl (fun l i => swap (a + i) (b + i) l) l (seq 0 n).

(** The loop of [rotate_func]; [m] is fixed. *)
Fixpoint rotate_loop (fuel m i j : nat) (l : list A) : list A :=
  match fuel with
  | O => l
  | S fuel =>
    if (i =? j)%nat then swapRange (m - i) m i l
    else if (j <? i)%nat then rotate_loop fuel m (i - j) j (swapRange (m - i) m j l)
    else rotate_loop fuel m i (j - i) (swapRange (m - i) (m + j - i) i l)
  end.

Definition rotate (a m b : nat) (l : list A) : list A := rotate_loop (b - a) m (m - a) (b - m) l.

(** The part of [symMerge_func] before its recursive calls: [start], [mid], [end]
    and the slice after the rotation. *)
Definition sym_split (less : list A -> nat -> nat -> bool) (a m b : nat) (l : list A)
    : nat * nat * nat * list A :=
  let mid := ((a + b) / 2)%nat in
  let n := (mid + m)%nat in
  let '(start, r) := if (mid <? m)%nat then ((n - b)%nat, mid) else (a, m) in
  let p := (n - 1)%nat in
  let start := bisect (r - start) (fun c => negb (less l (p - c)%nat c)) start r in
  let end_ := (n - start)%nat in
  (start, mid, end_, if (start <? m)%nat && (m <? end_)%nat then rotate start m end_ l else l).

(** [symMerge_func(data, a, m, b)] *)
Fixpoint symMerge (fuel : nat) (less : list A -> nat -> nat -> bool) (a m b : nat) (l : list A) : list A :=
  match fuel with
  | O => l
  | S fuel =>
    if (m - a =? 1)%nat then
      let i := bisect (b - m) (fun h => less l h a) m b in
      foldl (fun l k => swap k (k + 1) l) l (seq a (i - 1 - a))
    else if (b - m =? 1)%nat then
      let i := bisect (m - a) (fun h => negb (less l m h)) a m in
      foldl (fun l k => swap k (k - 1) l) l (rev (seq (i + 1) (m - i)))
    else
      let '(start, mid, end_, l) := sym_split less a m b l in
      let l := if (a <? start)%nat && (start <? mid)%nat then symMerge fuel less a start mid l else l in
      if (mid <? end_)%nat && (end_ <? b)%nat then symMerge fuel less mid end_ b l else l
  end.

Definition sym_merge (less : list A -> nat -> nat -> bool) (a m b : nat) (l : list A) : list A :=
  symMerge (b - a) less a m b l.

(** The blocks of [stable_func], and one round of merges of neighbours. *)
Definition stable_blocks (less : list A -> nat -> nat -> bool) (bs n : nat) (l : list A) : list A :=
  insertionSort less (bs * (n / bs)) n
    (foldl (fun l i => insertionSort less (bs * i) (bs * i + bs) l) l (seq 0 (n / bs))).

Definition merge_round (less : list A -> nat -> nat -> bool) (bs n : nat) (l : list A) : list A :=
  let w := (2 * bs)%nat in
  let l := foldl (fun l i => sym_merge less (w * i) (w * i + bs) (w * i + w) l) l (seq 0 (n / w)) in
  let a := (w * (n / w))%nat in
  if (a + bs <? n)%nat then sym_merge less a (a + bs) n l else l.

Fixpoint merge_rounds (fuel : nat) (less : list A -> nat -> nat -> bool) (bs n : nat) (l : list A) : list A :=
  match fuel with
  | O => l
  | S fuel => if (bs <? n)%nat then merge_rounds fuel less (2 * bs) n (merge_round less bs n l) else l
  end.

Definition SliceStable (less : list A -> nat -> nat -> bool) (l : list A) : list A :=
  let n := length l in merge_rounds n less 20 n (stable_blocks less 20 n l).

(** The two ways the source builds [less]: from the elements currently at the
    two indices, or from an array captured before the sort started. *)
Definition less_live (lt : A -> A -> bool) (l : list A) (i j : nat) : bool :=
  match l !! i, l !! j with Some x, Some y => lt x y | _, _ => false end.

Definition less_captured {C : Type} (lt : C -> C -> bool) (canonical : list C)
    (l : list A) (i j : nat) : bool :=
  match canonical !! i, canonical !! j with Some x, Some y => lt x y | _, _ => false end.

End sort_defs.

(** ** Any [less]: the result is a permutation of the input *)

Section permutation.
Context {A : Type}.
Implicit Types (l : list A) (less : list A -> nat -> nat -> bool).

Lemma swap_at_app l1 x y l2 : swap_at (length l1) (l1 ++ x :: y :: l2) = l1 ++ y :: x :: l2.
Proof.
  unfold swap_at. rewrite list_lookup_middle by done.
  rewrite (cons_middle x l1 (y :: l2)), (app_assoc l1 [x]).
  rewrite list_lookup_middle by (rewrite length_app; simpl; lia).
  rewrite <- (app_assoc l1 [x]). simpl.
  rewrite (insert_app_r_alt l1) by lia. replace (S (length l1) - length l1)%nat with 1%nat by lia.
  rewrite (insert_app_r_alt l1) by lia. by rewrite Nat.sub_diag.
Qed.

Lemma lookup_two_split j l x y :
  l !! j = Some x -> l !! S j = Some y ->
  exists l1 l2, l = l1 ++ x :: y :: l2 /\ length l1 = j.
Proof.
  intros Hx Hy. exists (take j l), (drop (S (S j)) l). split.
  - rewrite <- (take_drop_middle l j x Hx) at 1. f_equal. f_equal.
    by rewrite (drop_S l y).
  - apply length_take_le. apply lookup_lt_Some in Hx. lia.
Qed.

Lemma swap_at_perm j l : swap_at j l ≡ₚ l.
Proof.
  unfold swap_at.
  destruct (l !! j) as [x|] eqn:Hx; [|done]. destruct (l !! S j) as [y|] eqn:Hy; [|done].
  destruct (lookup_two_split j l x y Hx Hy) as (l1 & l2 & -> & <-).
  pose proof (swap_at_app l1 x y l2) as Hs. unfold swap_at in Hs. rewrite Hx, Hy in Hs.
  rewrite Hs. apply Permutation_app_head, perm_swap.
Qed.

Lemma sift_down_perm less j l : sift_down less j l ≡ₚ l.
Proof.
  revert l. induction j as [|j IH]; intros l; simpl; [done|].
  destruct (less l (S j) j); [|done]. by rewrite IH, swap_at_perm.
Qed.

Lemma insertion_sort_perm less l : insertion_sort less l ≡ₚ l.
Proof.
  unfold insertion_sort. generalize (seq 1 (length l - 1)). intros ks.
  revert l. induction ks as [|i ks IH]; intros l; simpl; [done|].
  by rewrite IH, sift_down_perm.
Qed.

Lemma foldl_perm {B} (f : list A -> B -> list A) bs l :
  (forall l b, f l b ≡ₚ l) -> foldl f l bs ≡ₚ l.
Proof. intros Hf. revert l. induction bs as [|b bs IH]; intros l; simpl; [done|]. by rewrite IH, Hf. Qed.

Lemma swap_perm i j l : swap i j l ≡ₚ l.
Proof.
  unfold swap. destruct (l !! i) as [x|] eqn:Hx; [|done]. destruct (l !! j) as [y|] eqn:Hy; [|done].
  apply Permutation_inj. split; [by rewrite !length_insert|].
  exists (fun k => if decide (k = i) then j else if decide (k = j) then i else k). split.
  - intros k1 k2. repeat case_decide; subst; congruence.
  - intros k. destruct (decide (k = i)) as [->|Hi].
    + rewrite list_lookup_insert_eq by (rewrite length_insert; by eapply lookup_lt_Some). done.
    + rewrite list_lookup_insert_ne by done. destruct (decide (k = j)) as [->|Hj].
      * rewrite list_lookup_insert_eq by (by eapply lookup_lt_Some). done.
      * by rewrite list_lookup_insert_ne.
Qed.

Lemma sift_from_perm less a k l : sift_from less a k l ≡ₚ l.
Proof.
  revert l. induction k as [|k IH]; intros l; simpl; [done|].
  destruct (less _ _ _); [|done]. by rewrite IH, swap_at_perm.
Qed.

Lemma insertionSort_perm less a b l : insertionSort less a b l ≡ₚ l.
Proof. apply foldl_perm. intros. apply sift_from_perm. Qed.

Lemma swapRange_perm a b n l : swapRange a b n l ≡ₚ l.
Proof. apply foldl_perm. intros. apply swap_perm. Qed.

Lemma rotate_loop_perm fuel m i j l : rotate_loop fuel m i j l ≡ₚ l.
Proof.
  revert i j l. induction fuel as [|fuel IH]; intros i j l; simpl; [done|].
  destruct (i =? j)%nat; [apply swapRange_perm|].
  destruct (j <? i)%nat; by rewrite IH, swapRange_perm.
Qed.

Lemma sym_split_perm less a m b l : (sym_split less a m b l).2 ≡ₚ l.
Proof.
  unfold sym_split. destruct (if _ : bool then _ else _) as [st r]. simpl.
  destruct (_ && _); [apply rotate_loop_perm|done].
Qed.

Lemma symMerge_perm fuel less a m b l : symMerge fuel less a m b l ≡ₚ l.
Proof.
  revert a m b l. induction fuel as [|fuel IH]; intros a m b l; simpl; [done|].
  destruct (m - a =? 1)%nat; [apply foldl_perm; intros; apply swap_perm|].
  destruct (b - m =? 1)%nat; [apply foldl_perm; intros; apply swap_perm|].
  pose proof (sym_split_perm less a m b l) as Hs.
  destruct (sym_split less a m b l) as [[[start mid] end_] l']. simpl in Hs.
  destruct (_ && _), (_ && _); by rewrite ?IH.
Qed.

Lemma merge_round_perm less bs n l : merge_round less bs n l ≡ₚ l.
Proof.
  unfold merge_round, sym_merge. cbv zeta.
  set (l' := foldl _ _ _). assert (Hl : l' ≡ₚ l) by (apply foldl_perm; intros; apply symMerge_perm).
  destruct (_ <? n)%nat; [by rewrite symMerge_perm|done].
Qed.

Lemma merge_rounds_perm fuel less bs n l : merge_rounds fuel less bs n l ≡ₚ l.
Proof.
  revert bs l. induction fuel as [|fuel IH]; intros bs l; simpl; [done|].
  destruct (bs <? n)%nat; [|done]. by rewrite IH, merge_round_perm.
Qed.

Lemma stable_blocks_perm less bs n l : stable_blocks less bs n l ≡ₚ l.
Proof. unfold stable_blocks. rewrite insertionSort_perm. apply foldl_perm. intros. apply insertionSort_perm. Qed.

Lemma SliceStable_perm less l : SliceStable less l ≡ₚ l.
Proof. unfold SliceStable. by rewrite merge_rounds_perm, stable_blocks_perm. Qed.

Lemma insertion_sort_length less l : length (insertion_sort less l) = length l.
Proof. by rewrite insertion_sort_perm. Qed.

End permutation.

(** ** A [less] that reads the slice and orders it: the sorted list *)

Section live.
Context {A : Type} (lt : A -> A -> bool).
Implicit Types (l p q t : list A).

(** The sorted prefix is kept reversed: inserting from the right end of the
    prefix is inserting from the head. *)
Fixpoint ins_rev (x : A) (q : list A) : list A :=
  match q with
  | [] => [x]
  | y :: q' => if lt x y then y :: ins_rev x q' else x :: q
  end.

Lemma sift_down_live p x t :
  sift_down (less_live lt) (length p) (p ++ x :: t) = rev (ins_rev x (rev p)) ++ t.
Proof.
  revert t. induction p as [|y p IH] using rev_ind; intros t; [done|].
  rewrite length_app, Nat.add_comm. simpl. unfold less_live at 1.
  rewrite list_lookup_middle by (rewrite length_app; simpl; lia).
  rewrite <- app_assoc. simpl. rewrite list_lookup_middle by done.
  rewrite rev_app_distr. simpl. destruct (lt x y) eqn:Hxy; simpl.
  - rewrite swap_at_app, IH, <- app_assoc. done.
  - rewrite rev_involutive, <- !app_assoc. done.
Qed.

Lemma insertion_fold p t :
  foldl (fun l i => sift_down (less_live lt) i l) (p ++ t) (seq (length p) (length t))
  = rev (foldl (fun q x => ins_rev x q) (rev p) t).
Proof.
  revert p. induction t as [|x t IH]; intros p; simpl.
  - by rewrite app_nil_r, rev_involutive.
  - rewrite sift_down_live. set (p' := rev (ins_rev x (rev p))).
    assert (Hlen : length p' = S (length p)).
    { unfold p'. rewrite length_rev, <- (length_rev p). generalize (rev p). clear.
      induction l as [|y l IH]; simpl; [done|]. destruct (lt x y); simpl; lia. }
    rewrite <- Hlen, IH. unfold p'. by rewrite rev_involutive.
Qed.

Lemma insertion_sort_live l :
  insertion_sort (less_live lt) l = rev (foldl (fun q x => ins_rev x q) [] l).
Proof.
  unfold insertion_sort. destruct l as [|x t]; [done|].
  simpl. rewrite Nat.sub_0_r. apply (insertion_fold [x] t).
Qed.

(** [le] is the total preorder [lt] is the strict part of. *)
Context (le : relation A) `{!RelDecision le, !Transitive le, !Total le}.
Context (lt_le : forall x y, lt x y = bool_decide (~ le y x)).

Lemma StronglySorted_snoc (R : relation A) l x :
  StronglySorted R l -> Forall (fun y => R y x) l -> StronglySorted R (l ++ [x]).
Proof.
  induction 1 as [|y l Hl IH Hy]; simpl; intros Hx; [repeat constructor|].
  apply Forall_cons in Hx as [Hyx Hx].
  constructor; [by apply IH|]. apply Forall_app; auto.
Qed.

Lemma StronglySorted_rev (R : relation A) l :
  StronglySorted (flip R) l -> StronglySorted R (rev l).
Proof.
  induction 1 as [|y l Hl IH Hy]; simpl; [constructor|].
  apply StronglySorted_snoc; [done|]. rewrite rev_alt. by apply Forall_reverse.
Qed.

Lemma Forall_ins_rev (P : A -> Prop) x q : P x -> Forall P q -> Forall P (ins_rev x q).
Proof.
  intros Hx. induction 1 as [|y q Hy Hq IH]; simpl; [by constructor|].
  destruct (lt x y); auto.
Qed.

Lemma ins_rev_sorted x q :
  StronglySorted (flip le) q -> StronglySorted (flip le) (ins_rev x q).
Proof using Type*.
  induction 1 as [|y q Hq IH Hy]; simpl; [repeat constructor|].
  rewrite lt_le. case_bool_decide as Hyx; simpl.
  - constructor; [done|]. apply Forall_ins_rev; [|done].
    unfold flip. destruct (total le x y); tauto.
  - constructor; [by constructor|].
    constructor; [done|]. eapply Forall_impl; [exact Hy|]. unfold flip.
    intros z Hz. by trans y.
Qed.

Lemma insertion_sort_sorted l : StronglySorted le (insertion_sort (less_live lt) l).
Proof using Type*.
  rewrite insertion_sort_live. apply StronglySorted_rev.
  assert (forall q, StronglySorted (flip le) q ->
    StronglySorted (flip le) (foldl (fun q x => ins_rev x q) q l)) as H.
  { induction l as [|x l IH]; intros q Hq; simpl; [done|]. by apply IH, ins_rev_sorted. }
  apply H. constructor.
Qed.

(** Two enumerations of the same elements sort to the same list, as long as
    elements the order cannot tell apart are equal. *)
Lemma insertion_sort_canonical l1 l2 :
  (forall x y, x ∈ l1 -> y ∈ l1 -> le x y -> le y x -> x = y) ->
  l1 ≡ₚ l2 ->
  insertion_sort (less_live lt) l1 = insertion_sort (less_live lt) l2.
Proof using Type*.
  intros Hinj Hp.
  eapply StronglySorted_unique_strong; [|apply insertion_sort_sorted..|].
  - intros x y Hx Hy. apply Hinj.
    + by rewrite insertion_sort_perm in Hx.
    + rewrite insertion_sort_perm in Hy. by rewrite Hp.
  - by rewrite !insertion_sort_perm.
Qed.

End live.

(** ** The fuel is enough *)

Lemma half_spec n : (2 * (n / 2) <= n < 2 * (n / 2) + 2)%nat.
Proof. pose proof (Nat.div_mod_eq n 2). pose proof (Nat.mod_upper_bound n 2). lia. Qed.

Lemma bisect_fuel p f1 f2 i j : (j - i <= f1)%nat -> (j - i <= f2)%nat -> bisect f1 p i j = bisect f2 p i j.
Proof.
  revert f2 i j. induction f1 as [|f1 IH]; intros [|f2] i j H1 H2; cbn [bisect]; try done.
  1,2: destruct (Nat.ltb_spec i j); [lia|done].
  destruct (Nat.ltb_spec i j) as [Hlt|]; [|done].
  pose proof (half_spec (i + j)).
  destruct (p _); apply IH; lia.
Qed.

(** When the loop ends the interval is empty: the result does not depend on the fuel and lies in it. *)
Lemma bisect_range p f i j : (i <= j)%nat -> (i <= bisect f p i j <= j)%nat.
Proof.
  revert i j. induction f as [|f IH]; intros i j Hij; cbn [bisect]; [lia|].
  destruct (Nat.ltb_spec i j); [|lia].
  pose proof (half_spec (i + j)).
  destruct (p _); [specialize (IH ((i + j) / 2 + 1)%nat j)|specialize (IH i ((i + j) / 2)%nat)]; lia.
Qed.

Lemma rotate_fuel {A} f1 f2 m i j (l : list A) :
  (0 < i)%nat -> (0 < j)%nat -> (i + j <= f1)%nat -> (i + j <= f2)%nat ->
  rotate_loop f1 m i j l = rotate_loop f2 m i j l.
Proof.
  revert f2 i j l. induction f1 as [|f1 IH]; intros [|f2] i j l Hi Hj H1 H2; simpl; try lia.
  destruct (Nat.eqb_spec i j); [done|]. destruct (Nat.ltb_spec j i); apply IH; lia.
Qed.

Lemma sym_split_range {A} less a m b (l : list A) start mid end_ l' :
  (a < m < b)%nat -> sym_split less a m b l = (start, mid, end_, l') ->
  (mid = (a + b) / 2 /\ a <= start <= mid /\ mid <= end_ <= b)%nat.
Proof.
  intros Hm. unfold sym_split. set (md := ((a + b) / 2)%nat).
  assert (Hmd : (a <= md /\ 2 * md <= a + b < 2 * md + 2)%nat).
  { pose proof (half_spec (a + b)). unfold md. lia. }
  destruct (Nat.ltb_spec md m) as [Hlt|Hge]; cbv zeta; intros E; injection E as <- <- <- _.
  - match goal with |- context [bisect ?f ?p ?i ?j] => pose proof (bisect_range p f i j) end. lia.
  - match goal with |- context [bisect ?f ?p ?i ?j] => pose proof (bisect_range p f i j) end. lia.
Qed.

Lemma symMerge_fuel {A} less f1 f2 a m b (l : list A) :
  (a < m < b)%nat -> (b - a <= f1)%nat -> (b - a <= f2)%nat ->
  symMerge f1 less a m b l = symMerge f2 less a m b l.
Proof.
  revert f2 a m b l. induction f1 as [|f1 IH]; intros [|f2] a m b l Hm H1 H2; simpl; try lia.
  destruct (m - a =? 1)%nat; [done|]. destruct (b - m =? 1)%nat; [done|].
  destruct (sym_split less a m b l) as [[[start mid] end_] l'] eqn:E.
  apply sym_split_range in E as (Hmid & Hs & He); [|done].
  assert (Hmd : (a < mid < b)%nat).
  { pose proof (half_spec (a + b)). lia. }
  destruct (Nat.ltb_spec a start), (Nat.ltb_spec start mid); simpl;
    (destruct (Nat.ltb_spec mid end_), (Nat.ltb_spec end_ b); simpl);
    rewrite ?(IH f2 a start mid) by lia; try done; apply IH; lia.
Qed.

Lemma merge_rounds_fuel {A} less f1 f2 bs n (l : list A) :
  (0 < bs)%nat -> (n - bs <= f1)%nat -> (n - bs <= f2)%nat ->
  merge_rounds f1 less bs n l = merge_rounds f2 less bs n l.
Proof.
  revert f2 bs l. induction f1 as [|f1 IH]; intros [|f2] bs l Hb H1 H2; simpl; try done.
  1,2: destruct (Nat.ltb_spec bs n); [lia|done].
  destruct (bs <? n)%nat; [|done]. apply IH; lia.
Qed.

(** ** Short slices *)

Lemma sift_from_0 {A} less k (l : list A) : sift_from less 0 k l = sift_down less k l.
Proof. revert l. induction k as [|k IH]; intros l; simpl; [done|]. destruct (less _ _ _); [apply IH|done]. Qed.

Lemma insertionSort_whole {A} less (l : list A) : insertionSort less 0 (length l) l = insertion_sort less l.
Proof.
  unfold insertionSort, insertion_sort. rewrite Nat.sub_0_r. generalize (seq 1 (length l - 1)). intros ks.
  revert l. induction ks as [|k ks IH]; intros l; simpl; [done|]. rewrite sift_from_0. apply IH.
Qed.

Lemma SliceStable_short {A} less (l : list A) :
  (length l <= 20)%nat -> SliceStable less l = insertion_sort less l.
Proof.
  intros Hl. unfold SliceStable. rewrite <- insertionSort_whole. generalize (length l) at 1. intros fuel.
  replace (stable_blocks less 20 (length l) l) with (insertionSort less 0 (length l) l).
  { destruct fuel; simpl; [done|]. destruct (Nat.ltb_spec 20 (length l)); [lia|done]. }
  unfold stable_blocks. destruct (decide (length l = 20%nat)) as [->|Hne]; [done|].
  by rewrite (Nat.div_small (length l) 20) by lia.
Qed.

(** ** A map over the slice commutes with the sort *)

Section fmap.
Context {A B : Type} (f : A -> B) (lessA : list A -> nat -> nat -> bool) (lessB : list B -> nat -> nat -> bool).
Hypothesis less_f : forall l i j, lessA l i j = lessB (f <$> l) i j.

Lemma foldl_fmap_comm {K} (gA : list A -> K -> list A) (gB : list B -> K -> list B) ks l :
  (forall l k, f <$> gA l k = gB (f <$> l) k) -> f <$> foldl gA l ks = foldl gB (f <$> l) ks.
Proof. intros Hg. revert l. induction ks as [|k ks IH]; intros l; simpl; [done|]. by rewrite IH, Hg. Qed.

Lemma swap_fmap i j l : f <$> swap i j l = swap i j (f <$> l).
Proof.
  unfold swap. rewrite !list_lookup_fmap. destruct (l !! i), (l !! j); simpl; try done.
  by rewrite !list_fmap_insert.
Qed.

Lemma sift_from_fmap a k l : f <$> sift_from lessA a k l = sift_from lessB a k (f <$> l).
Proof using less_f.
  revert l. induction k as [|k IH]; intros l; simpl; [done|]. rewrite less_f.
  destruct (lessB _ _ _); [|done]. rewrite IH. f_equal. apply (swap_fmap _ (S (a + k))).
Qed.

Lemma insertionSort_fmap a b l : f <$> insertionSort lessA a b l = insertionSort lessB a b (f <$> l).
Proof using less_f. apply foldl_fmap_comm. intros. apply sift_from_fmap. Qed.

Lemma swapRange_fmap a b n l : f <$> swapRange a b n l = swapRange a b n (f <$> l).
Proof. apply foldl_fmap_comm. intros. apply swap_fmap. Qed.

Lemma rotate_loop_fmap fuel m i j l : f <$> rotate_loop fuel m i j l = rotate_loop fuel m i j (f <$> l).
Proof.
  revert i j l. induction fuel as [|fuel IH]; intros i j l; simpl; [done|].
  destruct (i =? j)%nat; [apply swapRange_fmap|].
  destruct (j <? i)%nat; by rewrite IH, swapRange_fmap.
Qed.

Lemma bisect_ext fuel p q i j : (forall h, p h = q h) -> bisect fuel p i j = bisect fuel q i j.
Proof.
  intros Hp. revert i j. induction fuel as [|fuel IH]; intros i j; simpl; [done|].
  rewrite Hp. destruct (i <? j)%nat; [|done]. destruct (q _); apply IH.
Qed.

Lemma sym_split_fmap a m b l :
  let '(start, mid, end_, l') := sym_split lessA a m b l in
  sym_split lessB a m b (f <$> l) = (start, mid, end_, f <$> l').
Proof using less_f.
  unfold sym_split. destruct (if _ : bool then _ else _) as [st r]. cbv zeta beta iota.
  rewrite (bisect_ext _ _ (fun c => negb (lessA l ((a + b) / 2 + m - 1 - c) c))) by (intros; by rewrite less_f).
  f_equal. destruct (_ && _); [|done]. symmetry. apply rotate_loop_fmap.
Qed.

Lemma symMerge_fmap fuel a m b l : f <$> symMerge fuel lessA a m b l = symMerge fuel lessB a m b (f <$> l).
Proof using less_f.
  revert a m b l. induction fuel as [|fuel IH]; intros a m b l; simpl; [done|].
  destruct (m - a =? 1)%nat.
  { rewrite (bisect_ext _ (fun h => lessA l h a) (fun h => lessB (f <$> l) h a)) by (intros; apply less_f).
    apply foldl_fmap_comm. intros. apply swap_fmap. }
  destruct (b - m =? 1)%nat.
  { rewrite (bisect_ext _ (fun h => negb (lessA l m h)) (fun h => negb (lessB (f <$> l) m h)))
      by (intros; by rewrite less_f). apply foldl_fmap_comm. intros. apply swap_fmap. }
  pose proof (sym_split_fmap a m b l) as Hs.
  destruct (sym_split lessA a m b l) as [[[start mid] end_] l']. rewrite Hs.
  destruct (_ && _), (_ && _); by rewrite ?IH.
Qed.

Lemma merge_round_fmap bs n l : f <$> merge_round lessA bs n l = merge_round lessB bs n (f <$> l).
Proof using less_f.
  unfold merge_round, sym_merge. cbv zeta.
  destruct (_ <? n)%nat; rewrite ?symMerge_fmap; f_equal; (apply foldl_fmap_comm; intros; apply symMerge_fmap).
Qed.

Lemma merge_rounds_fmap fuel bs n l : f <$> merge_rounds fuel lessA bs n l = merge_rounds fuel lessB bs n (f <$> l).
Proof using less_f.
  revert bs l. induction fuel as [|fuel IH]; intros bs l; cbn [merge_rounds]; [done|].
  destruct (bs <? n)%nat; [|done]. by rewrite IH, merge_round_fmap.
Qed.

Lemma stable_blocks_fmap bs n l : f <$> stable_blocks lessA bs n l = stable_blocks lessB bs n (f <$> l).
Proof using less_f.
  unfold stable_blocks. rewrite insertionSort_fmap. f_equal. apply foldl_fmap_comm. intros. apply insertionSort_fmap.
Qed.

Lemma SliceStable_fmap l : f <$> SliceStable lessA l = SliceStable lessB (f <$> l).
Proof using less_f. unfold SliceStable. cbv zeta. by rewrite length_fmap, merge_rounds_fmap, stable_blocks_fmap. Qed.
End fmap.

(** ** [less] on a captured array only sees indices *)

Lemma SliceStable_captured_fmap {A B C} (f : A -> B) (lt : C -> C -> bool) canonical (l : list A) :
  f <$> SliceStable (less_captured lt canonical) l = SliceStable (less_captured lt canonical) (f <$> l).
Proof. by apply SliceStable_fmap. Qed.

(** Up to two elements the captured array is still in step with the slice, so
    both orders of the input give the same list of keys. *)
Lemma captured_pair_canonical {C} (lt : C -> C -> bool) (le : relation C)
    `{!RelDecision le, !Total le, !AntiSymm (=) le} (l1 l2 : list C) :
  (forall x y, lt x y = bool_decide (~ le y x)) ->
  l1 ≡ₚ l2 -> (length l1 <= 2)%nat ->
  SliceStable (less_captured lt l1) l1 = SliceStable (less_captured lt l2) l2.
Proof.
  intros Hlt Hp Hlen. rewrite !SliceStable_short by (rewrite <- ?Hp; lia). destruct l1 as [|x [|y [|z l1]]]; simpl in Hlen; [| | |lia].
  - apply Permutation_nil_l in Hp. by subst.
  - apply Permutation_singleton_l in Hp. by subst.
  - apply Permutation_length_2_inv in Hp as [-> | ->]; [done|].
    unfold insertion_sort, less_captured. simpl. rewrite !Hlt.
    case_bool_decide as H1; case_bool_decide as H2; unfold swap_at; simpl; try done.
    + destruct (total le x y); tauto.
    + by rewrite (anti_symm le x y H1 H2).
Qed.

(** ** Lexicographic orders *)

Section lex.
Context {A B : Type} (f : A -> B) (R1 : relation B) (R2 : relation A).

Definition lex (x y : A) : Prop := (R1 (f x) (f y) /\ f x <> f y) \/ (f x = f y /\ R2 x y).

#[export] Instance lex_dec `{EqDecision B, !RelDecision R1, !RelDecision R2} : RelDecision lex.
Proof. unfold RelDecision, lex. intros. apply _. Defined.

#[export] Instance lex_total `{EqDecision B, !Total R1, !Total R2} : Total lex.
Proof.
  intros x y. unfold lex. destruct (decide (f x = f y)) as [He|He].
  - destruct (total R2 x y); auto.
  - destruct (total R1 (f x) (f y)); auto.
Qed.

#[export] Instance lex_trans `{!Transitive R1, !AntiSymm (=) R1, !Transitive R2} : Transitive lex.
Proof.
  intros x y z [[H1 N1]|[E1 H1]] [[H2 N2]|[E2 H2]]; unfold lex.
  - left. split; [by trans (f y)|]. intros E. rewrite E in H1. by apply N1, (anti_symm R1); rewrite ?E.
  - left. by rewrite <- E2.
  - left. by rewrite E1.
  - right. split; [congruence|by trans y].
Qed.
End lex.
