(* ===== verification/GoStd.v ===== *)
(** * The other standard-library functions the source calls

    [strings.Join], [Index], [LastIndex] (of one byte), slicing, [TrimSpace];
    [encoding/json.Marshal] on strings, slices, string maps and structs;
    [crypto/sha256.Sum256]; [encoding/hex.EncodeToString];
    [encoding/base64.StdEncoding].  A Go string is a byte sequence, which is what
    [string] is. *)

From S2P Require Import Prelude GoSort.
From Stdlib Require Import Ascii.

Abbreviation byte_val := N_of_ascii.

(** ** [strings] *)

Fixpoint strings_Join (vs : list string) (sep : string) : string :=
  match vs with
  | [] => ""
  | [v] => v
  | v :: vs' => v +:+ sep +:+ strings_Join vs' sep
  end.

(** [strings.Index(s, c)] for a one-byte [c]: [-1] when absent. *)
Fixpoint strings_Index (s : string) (c : ascii) : Z :=
  match s with
  | EmptyString => -1
  | String d s' =>
    if ascii_dec d c then 0
    else let i := strings_Index s' c in if i <? 0 then -1 else i + 1
  end.

Fixpoint strings_LastIndex (s : string) (c : ascii) : Z :=
  match s with
  | EmptyString => -1
  | String d s' =>
    let i := strings_LastIndex s' c in
    if i <? 0 then (if ascii_dec d c then 0 else -1) else i + 1
  end.

Definition str_len (s : string) : Z := Z.of_nat (String.length s).

(** [s[:n]] and [s[n:]], for [n] within the string. *)
Definition slice_to (s : string) (n : Z) : string := String.substring 0 (Z.to_nat n) s.
Definition slice_from (s : string) (n : Z) : string :=
  String.substring (Z.to_nat n) (String.length s - Z.to_nat n) s.

(** [strings.TrimSpace]: [unicode.IsSpace] on UTF-8.  [space_prefix] drops one
    leading white-space rune, if there is one. *)
Definition ascii_space (b : N) : bool := (((9 <=? b) && (b <=? 13)) || (b =? 32))%N.

Definition space3 (a b c : N) : bool :=
  ((a =? 225) && (b =? 154) && (c =? 128) ||            (* U+1680 *)
   (a =? 226) && (b =? 128) &&
     ((128 <=? c) && (c <=? 138) || (c =? 168) || (c =? 169) || (c =? 175)) ||
   (a =? 226) && (b =? 129) && (c =? 159) ||            (* U+205F *)
   (a =? 227) && (b =? 128) && (c =? 128))%N.           (* U+3000 *)

Definition space2 (a b : N) : bool := ((a =? 194) && ((b =? 133) || (b =? 160)))%N.

(** [s] itself when it does not start with white space. *)
Fixpoint trim_left (s : list N) : list N :=
  match s with
  | a :: s1 =>
    if ascii_space a then trim_left s1 else
    match s1 with
    | b :: s2 =>
      if space2 a b then trim_left s2 else
      match s2 with
      | c :: s3 => if space3 a b c then trim_left s3 else s
      | [] => s
      end
    | [] => s
    end
  | [] => s
  end.

(** The same on the reversed string, the bytes of a rune reversed. *)
Fixpoint trim_right_rev (s : list N) : list N :=
  match s with
  | a :: s1 =>
    if ascii_space a then trim_right_rev s1 else
    match s1 with
    | b :: s2 =>
      if space2 b a then trim_right_rev s2 else
      match s2 with
      | c :: s3 => if space3 c b a then trim_right_rev s3 else s
      | [] => s
      end
    | [] => s
    end
  | [] => s
  end.

Definition to_bytes (s : string) : list N := byte_val <$> String.list_ascii_of_string s.
Definition of_bytes (l : list N) : string := String.string_of_list_ascii (ascii_of_N <$> l).

Definition strings_TrimSpace (s : string) : string :=
  of_bytes (rev (trim_right_rev (rev (trim_left (to_bytes s))))).

(** ** [encoding/hex] *)

Definition hex_digit (n : N) : ascii :=
  ascii_of_N (if (n <? 10)%N then (48 + n)%N else (87 + n)%N).

Fixpoint hex_EncodeToString (bs : list N) : string :=
  match bs with
  | [] => ""
  | b :: bs' =>
    String (hex_digit (N.shiftr b 4)) (String (hex_digit (N.land b 15)) (hex_EncodeToString bs'))
  end.

(** ** [encoding/base64.StdEncoding] *)

Definition b64_char (n : N) : ascii :=
  ascii_of_N (if (n <? 26)%N then (65 + n)%N else if (n <? 52)%N then (71 + n)%N
              else if (n <? 62)%N then (n - 4)%N else if (n =? 62)%N then 43%N else 47%N).

Fixpoint b64_bytes (bs : list N) : string :=
  match bs with
  | a :: b :: c :: bs' =>
    String (b64_char (a / 4)) (String (b64_char (a mod 4 * 16 + b / 16))
      (String (b64_char (b mod 16 * 4 + c / 64)) (String (b64_char (c mod 64)) (b64_bytes bs'))))%N
  | [a; b] =>
    String (b64_char (a / 4)) (String (b64_char (a mod 4 * 16 + b / 16))
      (String (b64_char (b mod 16 * 4)) "="))%N
  | [a] => String (b64_char (a / 4)) (String (b64_char (a mod 4 * 16)) "==")%N
  | [] => ""
  end.

Definition base64_EncodeToString (s : string) : string := b64_bytes (to_bytes s).

(** ** [encoding/json.Marshal] *)

Definition dquote : ascii := "034".
Definition backslash : ascii := "092".
Definition nul : ascii := "000".
Definition slash : ascii := "/".
Definition equals : ascii := "=".

(** The [%q] verb: exact on ASCII; bytes above 127 are kept (printable runes). *)
Definition quote_char (c : ascii) : string :=
  let b := byte_val c in
  if (b =? 34)%N || (b =? 92)%N then String backslash (String c "")
  else if (b =? 7)%N then String backslash "a"
  else if (b =? 8)%N then String backslash "b"
  else if (b =? 9)%N then String backslash "t"
  else if (b =? 10)%N then String backslash "n"
  else if (b =? 11)%N then String backslash "v"
  else if (b =? 12)%N then String backslash "f"
  else if (b =? 13)%N then String backslash "r"
  else if (b <? 32)%N || (b =? 127)%N
  then String backslash (String "x" (String (hex_digit (N.shiftr b 4))
                                       (String (hex_digit (N.land b 15)) "")))
  else String c "".

Fixpoint quote_body (s : string) : string :=
  match s with
  | EmptyString => ""
  | String c s' => quote_char c +:+ quote_body s'
  end.

Definition fmt_q (s : string) : string := String dquote (quote_body s +:+ String dquote "").

(** The [%d] verb. *)
Definition fmt_d (z : Z) : string := pretty z.

(** ** [time.Duration.String] *)

(** [fmtFrac]: the fraction of [v / 10^prec] without trailing zeros, with its
    point, and the integer part. *)
Fixpoint frac_digits (prec : nat) (v : Z) (acc : string) : string * Z :=
  match prec with
  | O => (acc, v)
  | S prec' =>
    let digit := v mod 10 in
    let acc := if decide (acc = "" /\ digit = 0) then "" else fmt_d digit +:+ acc in
    frac_digits prec' (v / 10) acc
  end.

Definition fmtFrac (v : Z) (prec : nat) : string * Z :=
  let '(f, u) := frac_digits prec v "" in
  (if decide (f = "") then "" else "." +:+ f, u).

Definition fmt_units (u : Z) (prec : nat) (unit : string) : string :=
  let '(f, i) := fmtFrac u prec in fmt_d i +:+ f +:+ unit.

Definition fmt_hms (u : Z) : string :=
  let '(f, secs) := fmtFrac u 9 in
  let s := fmt_d (secs mod 60) +:+ f +:+ "s" in
  let mins := secs / 60 in
  if mins >? 0 then
    let s := fmt_d (mins mod 60) +:+ "m" +:+ s in
    let hours := mins / 60 in
    if hours >? 0 then fmt_d hours +:+ "h" +:+ s else s
  else s.

Definition micro_sign : string := String "194" (String "181" "").

Definition fmt_Duration (d : Z) : string :=
  let u := Z.abs d in
  (if d <? 0 then "-" else "") +:+
  (if u =? 0 then "0s"
   else if u <? 1000 then fmt_units u 0 "ns"
   else if u <? 1000000 then fmt_units u 3 (micro_sign +:+ "s")
   else if u <? 1000000000 then fmt_units u 6 "ms"
   else fmt_hms u).

Definition esc_u00 (b : N) : string :=
  String backslash ("u00" +:+ String (hex_digit (N.shiftr b 4)) (String (hex_digit (N.land b 15)) "")).

(** One byte below 0x80, HTML escaping on (the default of [Marshal]). *)
Definition esc_ascii (c : ascii) : string :=
  let b := byte_val c in
  if ((b =? 34) || (b =? 92))%N then String backslash (String c "")
  else if (b =? 8)%N then String backslash "b"
  else if (b =? 12)%N then String backslash "f"
  else if (b =? 10)%N then String backslash "n"
  else if (b =? 13)%N then String backslash "r"
  else if (b =? 9)%N then String backslash "t"
  else if ((b <? 32) || (b =? 60) || (b =? 62) || (b =? 38))%N then esc_u00 b
  else String c "".

Definition in_rng (lo hi : N) (c : ascii) : bool := ((lo <=? byte_val c) && (byte_val c <=? hi))%N.
Definition cont (c : ascii) : bool := in_rng 128 191 c.

(** Well-formed UTF-8 sequences of 2, 3 and 4 bytes ([utf8.DecodeRuneInString]). *)
Definition utf8_2 (a b : ascii) : bool := in_rng 194 223 a && cont b.
Definition utf8_3 (a b c : ascii) : bool :=
  (in_rng 224 224 a && in_rng 160 191 b ||
   (in_rng 225 236 a || in_rng 238 239 a) && cont b ||
   in_rng 237 237 a && in_rng 128 159 b) && cont c.
Definition utf8_4 (a b c d : ascii) : bool :=
  (in_rng 240 240 a && in_rng 144 191 b || in_rng 241 243 a && cont b ||
   in_rng 244 244 a && in_rng 128 143 b) && cont c && cont d.

Definition esc_bad : string := String backslash "ufffd".

(** U+2028 and U+2029 (E2 80 A8, E2 80 A9) are escaped, every other valid
    sequence is copied. *)
Definition esc_3 (a b c : ascii) : string :=
  if ((byte_val a =? 226) && (byte_val b =? 128) && (byte_val c =? 168))%N
  then String backslash "u2028"
  else if ((byte_val a =? 226) && (byte_val b =? 128) && (byte_val c =? 169))%N
  then String backslash "u2029"
  else String a (String b (String c "")).

Fixpoint json_escape (s : string) : string :=
  match s with
  | EmptyString => ""
  | String a s1 =>
    if (byte_val a <? 128)%N then esc_ascii a +:+ json_escape s1 else
    match s1 with
    | EmptyString => esc_bad
    | String b s2 =>
      if utf8_2 a b then String a (String b (json_escape s2)) else
      match s2 with
      | EmptyString => esc_bad +:+ json_escape s1
      | String c s3 =>
        if utf8_3 a b c then esc_3 a b c +:+ json_escape s3 else
        match s3 with
        | EmptyString => esc_bad +:+ json_escape s1
        | String d s4 =>
          if utf8_4 a b c d
          then String a (String b (String c (String d (json_escape s4))))
          else esc_bad +:+ json_escape s1
        end
      end
    end
  end.

Definition json_string (s : string) : string :=
  String dquote (json_escape s +:+ String dquote "").

Definition json_array (vs : list string) : string := "[" +:+ strings_Join vs "," +:+ "]".

(** Struct fields and map entries, each a name and a rendered value. *)
Definition json_object (fs : list (string * string)) : string :=
  "{" +:+ strings_Join ((fun '(k, v) => json_string k +:+ ":" +:+ v) <$> fs) "," +:+ "}".

(** A [map[string]string] is written with its keys in increasing byte order. *)
Definition str_ltb (a b : string) : bool := String.ltb a b.

Definition sort_strings (l : list string) : list string :=
  insertion_sort (less_live str_ltb) l.

Definition json_string_map (m : gmap string string) : string :=
  json_object ((fun k => (k, json_string (map_get "" m k))) <$>
               sort_strings (map_to_list m).*1).

(** ** [crypto/sha256] *)

Module Sha256.

Definition mask32 : N := 4294967295.
Definition add32 (a b : N) : N := N.land (a + b) mask32.
Definition rotr (x k : N) : N :=
  N.lor (N.shiftr x k) (N.land (N.shiftl x (32 - k)) mask32).
Definition not32 (x : N) : N := N.lxor x mask32.

Definition Ch (x y z : N) : N := N.lxor (N.land x y) (N.land (not32 x) z).
Definition Maj (x y z : N) : N := N.lxor (N.lxor (N.land x y) (N.land x z)) (N.land y z).
Definition Sigma0 (x : N) : N := N.lxor (N.lxor (rotr x 2) (rotr x 13)) (rotr x 22).
Definition Sigma1 (x : N) : N := N.lxor (N.lxor (rotr x 6) (rotr x 11)) (rotr x 25).
Definition sigma0 (x : N) : N := N.lxor (N.lxor (rotr x 7) (rotr x 18)) (N.shiftr x 3).
Definition sigma1 (x : N) : N := N.lxor (N.lxor (rotr x 17) (rotr x 19)) (N.shiftr x 10).

(** The round constants and the initial state: the first 32 bits of the fractional
    parts of the cube roots of the first 64 primes and of the square roots of the
    first eight. *)
Definition is_prime (n : nat) : bool :=
  forallb (fun d => negb (Nat.eqb (n mod d) 0)) (seq 2 (n - 2)).
Definition first_primes : list N :=
  Eval vm_compute in N.of_nat <$> List.filter is_prime (seq 2 310).

(** The integer cube root, one bit at a time from bit 34 down. *)
Definition cbrt (n : N) : N :=
  foldl (fun r b => let r' := N.lor r (N.shiftl 1 b) in if (r' * r' * r' <=? n)%N then r' else r)
        0%N (N.of_nat <$> rev (seq 0 35)).

Definition K : list N :=
  Eval vm_compute in (fun p => N.land (cbrt (N.shiftl p 96)) mask32) <$> first_primes.

Record state := St { sa : N; sb : N; sc : N; sd : N; se : N; sf : N; sg : N; sh : N }.

Definition sqrt_bits (i : nat) : N :=
  N.land (N.sqrt (N.shiftl (nth i first_primes 0%N) 64)) mask32.

Definition init : state :=
  Eval vm_compute in
  St (sqrt_bits 0) (sqrt_bits 1) (sqrt_bits 2) (sqrt_bits 3)
     (sqrt_bits 4) (sqrt_bits 5) (sqrt_bits 6) (sqrt_bits 7).

Definition round (k w : N) (s : state) : state :=
  let t1 := add32 (add32 (add32 (add32 (sh s) (Sigma1 (se s))) (Ch (se s) (sf s) (sg s))) k) w in
  let t2 := add32 (Sigma0 (sa s)) (Maj (sa s) (sb s) (sc s)) in
  St (add32 t1 t2) (sa s) (sb s) (sc s) (add32 (sd s) t1) (se s) (sf s) (sg s).

(** The message schedule as a sliding window of the last sixteen words. *)
Fixpoint rounds (ks : list N) (w : list N) (s : state) : state :=
  match ks with
  | [] => s
  | k :: ks' =>
    let w0 := nth 0 w 0%N in
    let w16 := add32 (add32 (sigma1 (nth 14 w 0%N)) (nth 9 w 0%N))
                     (add32 (sigma0 (nth 1 w 0%N)) w0) in
    rounds ks' (tail w ++ [w16]) (round k w0 s)
  end.

Definition add_state (s t : state) : state :=
  St (add32 (sa s) (sa t)) (add32 (sb s) (sb t)) (add32 (sc s) (sc t)) (add32 (sd s) (sd t))
     (add32 (se s) (se t)) (add32 (sf s) (sf t)) (add32 (sg s) (sg t)) (add32 (sh s) (sh t)).

Fixpoint words (bs : list N) : list N :=
  match bs with
  | a :: b :: c :: d :: bs' =>
    (N.shiftl a 24 + N.shiftl b 16 + N.shiftl c 8 + d)%N :: words bs'
  | _ => []
  end.

Fixpoint blocks (fuel : nat) (ws : list N) (s : state) : state :=
  match fuel, ws with
  | S fuel', _ :: _ =>
    blocks fuel' (drop 16 ws) (add_state s (rounds K (take 16 ws) s))
  | _, _ => s
  end.

Fixpoint be_bytes (n : nat) (x : N) : list N :=
  match n with
  | O => []
  | S n' => N.land (N.shiftr x (8 * N.of_nat n')) 255 :: be_bytes n' x
  end.

(** [0x80], zeros up to 56 modulo 64, the length in bits on eight bytes. *)
Definition pad (bs : list N) : list N :=
  let len := length bs in
  bs ++ 128%N :: replicate ((119 - len mod 64) mod 64) 0%N ++ be_bytes 8 (8 * N.of_nat len).

Definition Sum256 (bs : list N) : list N :=
  let ws := words (pad bs) in
  let s := blocks (length ws) ws init in
  be_bytes 4 (sa s) ++ be_bytes 4 (sb s) ++ be_bytes 4 (sc s) ++ be_bytes 4 (sd s) ++
  be_bytes 4 (se s) ++ be_bytes 4 (sf s) ++ be_bytes 4 (sg s) ++ be_bytes 4 (sh s).

End Sha256.

(** [hex.EncodeToString(sha256.Sum256(b)[:])[:12]] *)
Definition sha12 (s : string) : string :=
  slice_to (hex_EncodeToString (Sha256.Sum256 (to_bytes s))) 12.

(** ** Lemmas *)

Lemma str_length_app a b : String.length (a +:+ b) = (String.length a + String.length b)%nat.
Proof. induction a; simpl; auto. Qed.

Lemma str_app_assoc a b c : (a +:+ b) +:+ c = a +:+ (b +:+ c).
Proof. induction a as [|x a IH]; [done|]. change (String x ((a +:+ b) +:+ c) = String x (a +:+ (b +:+ c))). by rewrite IH. Qed.

Lemma str_app_nil_r a : a +:+ "" = a.
Proof. induction a as [|x a IH]; [done|]. change (String x (a +:+ "") = String x a). by rewrite IH. Qed.

Lemma str_app_cons x a b : String x a +:+ b = String x (a +:+ b).
Proof. done. Qed.

(** Equal-length prefixes or suffixes can be split off. *)
Lemma str_app_inj_l a b c d :
  String.length a = String.length b -> a +:+ c = b +:+ d -> a = b /\ c = d.
Proof.
  revert b. induction a as [|x a IH]; intros [|y b] Hlen H; [done|done|done|].
  injection Hlen as Hlen. rewrite !str_app_cons in H. injection H as -> H.
  by destruct (IH b Hlen H) as [-> ->].
Qed.

Lemma str_app_inj_r a b c d :
  String.length c = String.length d -> a +:+ c = b +:+ d -> a = b /\ c = d.
Proof.
  intros Hlen H. apply str_app_inj_l; [|done].
  assert (String.length (a +:+ c) = String.length (b +:+ d)) as Hl by by rewrite H.
  rewrite !str_length_app in Hl. lia.
Qed.

Lemma substring_prefix a b : String.substring 0 (String.length a) (a +:+ b) = a.
Proof.
  induction a as [|x a IH]; [by destruct b|].
  rewrite str_app_cons. simpl. by rewrite IH.
Qed.

Lemma substring_all a : String.substring 0 (String.length a) a = a.
Proof. rewrite <- (str_app_nil_r a) at 2. apply substring_prefix. Qed.

Lemma substring_suffix a b :
  String.substring (String.length a) (String.length b) (a +:+ b) = b.
Proof.
  induction a as [|x a IH]; [apply substring_all|].
  rewrite str_app_cons. simpl. exact IH.
Qed.

Lemma slice_to_app a b : slice_to (a +:+ b) (str_len a) = a.
Proof. unfold slice_to, str_len. rewrite Nat2Z.id. apply substring_prefix. Qed.

Lemma slice_from_app a b : slice_from (a +:+ b) (str_len a) = b.
Proof.
  unfold slice_from, str_len. rewrite Nat2Z.id, str_length_app.
  replace (_ + _ - _)%nat with (String.length b) by lia. apply substring_suffix.
Qed.

(** [c] does not occur in [s]. *)
Fixpoint no_char (c : ascii) (s : string) : bool :=
  match s with
  | EmptyString => true
  | String d s' => negb (bool_decide (d = c)) && no_char c s'
  end.

Lemma no_char_app c a b : no_char c (a +:+ b) = no_char c a && no_char c b.
Proof.
  induction a as [|x a IH]; [done|]. rewrite str_app_cons. simpl. rewrite IH. apply andb_assoc.
Qed.

Lemma Index_app_char c a b : no_char c a -> strings_Index (a +:+ String c b) c = str_len a.
Proof.
  unfold str_len. induction a as [|x a IH]; intros Ha.
  - simpl. by destruct (ascii_dec c c).
  - rewrite str_app_cons. simpl in *. destruct (ascii_dec x c) as [->|Hne].
    + by rewrite bool_decide_eq_true_2 in Ha.
    + rewrite IH by (by destruct (bool_decide (x = c))).
      destruct (Z.ltb_spec (Z.of_nat (String.length a)) 0); lia.
Qed.

Lemma Index_in_prefix c a b : ~ no_char c a -> 0 <= strings_Index (a +:+ b) c < str_len a.
Proof.
  unfold str_len. induction a as [|x a IH]; intros Ha; [by destruct Ha|].
  rewrite str_app_cons. simpl in *. destruct (ascii_dec x c) as [->|Hne]; [lia|].
  rewrite bool_decide_eq_false_2 in Ha by done. specialize (IH Ha).
  destruct (Z.ltb_spec (strings_Index (a +:+ b) c) 0); lia.
Qed.

Lemma LastIndex_nonneg c b : ~ no_char c b -> 0 <= strings_LastIndex b c.
Proof.
  induction b as [|x b IH]; intros Hb; [by destruct Hb|]. simpl in *.
  destruct (Z.ltb_spec (strings_LastIndex b c) 0); [|lia]. destruct (ascii_dec x c) as [->|Hne]; [done|].
  rewrite bool_decide_eq_false_2 in Hb by done. specialize (IH Hb). lia.
Qed.

Lemma LastIndex_in_suffix c a b : ~ no_char c b -> str_len a <= strings_LastIndex (a +:+ b) c.
Proof.
  unfold str_len. intros Hb. induction a as [|x a IH]; [by apply LastIndex_nonneg|].
  rewrite str_app_cons. simpl. destruct (Z.ltb_spec (strings_LastIndex (a +:+ b) c) 0); lia.
Qed.

Lemma substring_le n m s : (String.length (String.substring n m s) <= m)%nat /\ (String.length (String.substring n m s) <= String.length s - n)%nat.
Proof.
  revert n m. induction s as [|x s IH]; intros n m; [destruct n, m; simpl; lia|].
  destruct n as [|n]; [destruct m as [|m]; simpl; [lia|]; destruct (IH 0%nat m); lia|]. simpl. apply IH.
Qed.

Lemma LastIndex_none c b : no_char c b -> strings_LastIndex b c = -1.
Proof.
  induction b as [|x b IH]; intros Hb; [done|]. simpl in *.
  destruct (bool_decide (x = c)) eqn:Hx; [done|]. apply bool_decide_eq_false in Hx.
  rewrite IH by done. simpl. by destruct (ascii_dec x c).
Qed.

Lemma LastIndex_app_char c a b :
  no_char c b -> strings_LastIndex (a +:+ String c b) c = str_len a.
Proof.
  unfold str_len. intros Hb. induction a as [|x a IH].
  - simpl. rewrite LastIndex_none by done. simpl. by destruct (ascii_dec c c).
  - rewrite str_app_cons. simpl. rewrite IH.
    destruct (Z.ltb_spec (Z.of_nat (String.length a)) 0); lia.
Qed.

Lemma str_split_first c a b a' b' :
  no_char c a -> no_char c a' -> a +:+ String c b = a' +:+ String c b' -> a = a' /\ b = b'.
Proof.
  intros Ha Ha' H. assert (str_len a = str_len a') as Hl.
  { rewrite <- (Index_app_char c a b), <- (Index_app_char c a' b') by done. by rewrite H. }
  apply str_app_inj_l in H as [-> H]; [|unfold str_len in Hl; lia]. by injection H as ->.
Qed.

Lemma hex_length bs : String.length (hex_EncodeToString bs) = (2 * length bs)%nat.
Proof. induction bs as [|b bs IH]; [done|]. simpl. rewrite IH. lia. Qed.

Lemma substring_length n k s :
  (n + k <= String.length s)%nat -> String.length (String.substring n k s) = k.
Proof.
  revert n k. induction s as [|x s IH]; intros [|n] [|k]; simpl; intros H; try done; try lia.
  - rewrite IH; simpl; lia.
  - apply (IH n 0%nat). lia.
  - apply IH. lia.
Qed.

Lemma be_bytes_length n x : length (Sha256.be_bytes n x) = n.
Proof. induction n; simpl; auto. Qed.

Lemma Sum256_length bs : length (Sha256.Sum256 bs) = 32%nat.
Proof. unfold Sha256.Sum256. by rewrite !length_app, !be_bytes_length. Qed.

Lemma Sum256_bytes bs : Forall (fun b => (b < 256)%N) (Sha256.Sum256 bs).
Proof.
  assert (Hbe : forall n x, Forall (fun b => (b < 256)%N) (Sha256.be_bytes n x)).
  { induction n as [|n IH]; intros x; simpl; constructor; [|done].
    change 255%N with (N.ones 8). rewrite N.land_ones. by apply N.mod_lt. }
  unfold Sha256.Sum256. by repeat (apply Forall_app; split).
Qed.

(** Two digits for a byte, and only that byte. *)
Lemma hex_digit_inj m n : (m < 16)%N -> (n < 16)%N -> hex_digit m = hex_digit n -> m = n.
Proof.
  intros Hm Hn Heq. apply (f_equal N_of_ascii) in Heq. unfold hex_digit in Heq.
  rewrite !N_ascii_embedding in Heq by (destruct (m <? 10)%N, (n <? 10)%N; lia).
  destruct (N.ltb_spec m 10), (N.ltb_spec n 10); lia.
Qed.

Lemma hex_inj bs bs' :
  Forall (fun b => (b < 256)%N) bs -> Forall (fun b => (b < 256)%N) bs' ->
  hex_EncodeToString bs = hex_EncodeToString bs' -> bs = bs'.
Proof.
  assert (Hd : forall b, (b < 256)%N -> (N.shiftr b 4 < 16)%N /\ (N.land b 15 < 16)%N /\
                 b = (N.shiftr b 4 * 16 + N.land b 15)%N).
  { intros b Hb. change 15%N with (N.ones 4). rewrite N.land_ones, N.shiftr_div_pow2. change (2 ^ 4)%N with 16%N.
    pose proof (N.div_mod b 16 ltac:(done)) as Hdm. pose proof (N.mod_lt b 16 ltac:(done)) as Hm.
    split; [apply N.Div0.div_lt_upper_bound; lia|]. split; [done|lia]. }
  intros Hb. revert bs'. induction Hb as [|b bs Hlt _ IH]; intros [|b' bs'] Hb' Heq; try done.
  apply Forall_cons in Hb' as [Hlt' Hb']. cbn [hex_EncodeToString] in Heq. injection Heq as H1 H2 H3.
  destruct (Hd b Hlt) as (? & ? & ->), (Hd b' Hlt') as (? & ? & ->).
  f_equal; [|by apply IH]. f_equal; [f_equal|]; by apply hex_digit_inj.
Qed.

Lemma hex_take n bs : String.substring 0 (2 * n) (hex_EncodeToString bs) = hex_EncodeToString (take n bs).
Proof.
  revert bs. induction n as [|n IH]; intros [|b bs]; try done.
  replace (2 * S n)%nat with (S (S (2 * n))) by lia. cbn [hex_EncodeToString String.substring take]. by rewrite IH.
Qed.

(** The first six bytes of the hash, in hexadecimal. *)
Lemma sha12_bytes s : sha12 s = hex_EncodeToString (take 6 (Sha256.Sum256 (to_bytes s))).
Proof. unfold sha12, slice_to. apply (hex_take 6). Qed.

Lemma sha12_length s : String.length (sha12 s) = 12%nat.
Proof.
  unfold sha12, slice_to. apply substring_length. rewrite hex_length, Sum256_length. simpl. lia.
Qed.

(** Sorting strings forgets the order of the input. *)
Lemma sort_strings_perm l : sort_strings l ≡ₚ l.
Proof. apply insertion_sort_perm. Qed.

Lemma str_ltb_le a b : str_ltb a b = bool_decide (~ String.le b a).
Proof.
  case_bool_decide as H; revert H; unfold str_ltb, String.le, String.ltb, String.leb;
    rewrite (String.compare_antisym a b); destruct (String.compare b a); simpl; tauto.
Qed.

Lemma sort_strings_canonical l1 l2 : l1 ≡ₚ l2 -> sort_strings l1 = sort_strings l2.
Proof.
  apply (insertion_sort_canonical str_ltb String.le str_ltb_le).
  intros x y _ _. apply (anti_symm String.le).
Qed.

(** ** JSON strings can be read back *)

Fixpoint is_ascii (s : string) : bool :=
  match s with
  | EmptyString => true
  | String c s' => (byte_val c <? 128)%N && is_ascii s'
  end.

Definition hex_value (c : ascii) : N :=
  if (byte_val c <? 58)%N then (byte_val c - 48)%N else (byte_val c - 87)%N.

(** The inverse of [esc_ascii] on the front of a string; [None] at the closing quote. *)
Definition unescape_one (s : string) : option (ascii * string) :=
  match s with
  | EmptyString => None
  | String a t =>
    if (byte_val a =? 34)%N then None
    else if negb (byte_val a =? 92)%N then Some (a, t)
    else
      match t with
      | String b t1 =>
        if (byte_val b =? 98)%N then Some ("008"%char, t1)
        else if (byte_val b =? 102)%N then Some ("012"%char, t1)
        else if (byte_val b =? 110)%N then Some ("010"%char, t1)
        else if (byte_val b =? 114)%N then Some ("013"%char, t1)
        else if (byte_val b =? 116)%N then Some ("009"%char, t1)
        else if (byte_val b =? 117)%N then
          match t1 with
          | String _ (String _ (String h (String l t2))) =>
            Some (ascii_of_N (hex_value h * 16 + hex_value l), t2)
          | _ => None
          end
        else Some (b, t1)
      | EmptyString => None
      end
  end.

Lemma unescape_esc c t : (byte_val c < 128)%N -> unescape_one (esc_ascii c +:+ t) = Some (c, t).
Proof.
  intros Hc. destruct c as [b0 b1 b2 b3 b4 b5 b6 b7].
  destruct b7; [exfalso; destruct b0, b1, b2, b3, b4, b5, b6; vm_compute in Hc; discriminate Hc|].
  destruct b0, b1, b2, b3, b4, b5, b6; reflexivity.
Qed.

Lemma json_escape_cons c s :
  (byte_val c < 128)%N -> json_escape (String c s) = esc_ascii c +:+ json_escape s.
Proof. intros Hc. cbn [json_escape]. apply N.ltb_lt in Hc. by rewrite Hc. Qed.

Lemma json_escape_inj s s' t t' :
  is_ascii s -> is_ascii s' ->
  json_escape s +:+ String dquote t = json_escape s' +:+ String dquote t' -> s = s' /\ t = t'.
Proof.
  revert s'. induction s as [|c s IH]; intros [|c' s'] Hs Hs' Heq.
  - by injection Heq as ->.
  - exfalso. apply andb_prop_elim in Hs' as [Hc _]. apply Is_true_true, N.ltb_lt in Hc.
    rewrite (json_escape_cons c' s' Hc), str_app_assoc in Heq.
    apply (f_equal unescape_one) in Heq. by rewrite unescape_esc in Heq.
  - exfalso. apply andb_prop_elim in Hs as [Hc _]. apply Is_true_true, N.ltb_lt in Hc.
    rewrite (json_escape_cons c s Hc), str_app_assoc in Heq.
    apply (f_equal unescape_one) in Heq. by rewrite unescape_esc in Heq.
  - apply andb_prop_elim in Hs as [Hc Hs], Hs' as [Hc' Hs'].
    apply Is_true_true, N.ltb_lt in Hc, Hc'.
    rewrite (json_escape_cons c s Hc), (json_escape_cons c' s' Hc'), !str_app_assoc in Heq.
    apply (f_equal unescape_one) in Heq. rewrite !unescape_esc in Heq by done.
    injection Heq as -> Heq. by destruct (IH s' Hs Hs' Heq) as [-> ->].
Qed.

(** A JSON array of ASCII strings determines the strings. *)
Lemma json_array_inj (vs vs' : list string) :
  Forall is_ascii vs -> Forall is_ascii vs' -> length vs = length vs' ->
  json_array (json_string <$> vs) = json_array (json_string <$> vs') -> vs = vs'.
Proof.
  intros Hv Hv' Hlen Heq. unfold json_array in Heq. apply (inj (String.append "[")) in Heq.
  revert vs' Hv' Hlen Heq. induction Hv as [|v vs Ha Hv IH]; intros [|v' vs'] Hv' Hlen Heq; try done.
  apply Forall_cons in Hv' as [Ha' Hv']. injection Hlen as Hlen.
  rewrite !fmap_cons in Heq. destruct vs as [|w vs], vs' as [|w' vs']; try done.
  - cbn [strings_Join fmap list_fmap] in Heq. unfold json_string in Heq.
    rewrite !str_app_cons in Heq. injection Heq as Heq. rewrite !str_app_assoc, !str_app_cons in Heq.
    by apply json_escape_inj in Heq as [-> _].
  - rewrite !fmap_cons in Heq, IH. cbn [strings_Join] in Heq. unfold json_string at 1 3 in Heq.
    rewrite !str_app_cons in Heq. injection Heq as Heq. rewrite !str_app_assoc, !str_app_cons in Heq.
    apply json_escape_inj in Heq as [-> Heq]; [|done..]. f_equal. apply IH; [done|done|].
    rewrite !fmap_cons. simpl in Heq. apply (inj (String.append ",")). rewrite !str_app_assoc in Heq.
    exact Heq.
Qed.

(** ** base64 *)

Definition b64_val (c : ascii) : N :=
  (let n := byte_val c in
   if n =? 43 then 62 else if n =? 47 then 63 else if n <? 58 then n + 4
   else if n <? 91 then n - 65 else n - 71)%N.

(** The inverse of [b64_bytes]. *)
Fixpoint b64_decode (s : string) : list N :=
  match s with
  | String p (String q (String r (String t s'))) =>
    (let a := b64_val p * 4 + b64_val q / 16 in
     let b := b64_val q mod 16 * 16 + b64_val r / 4 in
     let c := b64_val r mod 4 * 64 + b64_val t in
     if byte_val r =? 61 then [a] else if byte_val t =? 61 then [a; b] else a :: b :: c :: b64_decode s')%N
  | _ => []
  end.

Lemma N_below (n : nat) (x : N) : (x < N.of_nat n)%N -> x ∈ (N.of_nat <$> seq 0 n).
Proof.
  intros Hx. apply list_elem_of_fmap. exists (N.to_nat x). split; [lia|].
  apply elem_of_seq. lia.
Qed.

Lemma b64_char_spec n :
  (n < 64)%N ->
  (b64_val (b64_char n) = n /\ (byte_val (b64_char n) =? 61) = false)%N /\ is_ascii (String (b64_char n) "").
Proof.
  intros Hn. apply (N_below 64) in Hn. revert n Hn. apply Forall_forall.
  by_decide.
Qed.

(** Arithmetic on quotients and remainders. *)
Ltac divlia := zify; Z.to_euclidean_division_equations; lia.

Ltac b64_step x :=
  let Hv := fresh "Hv" in let He := fresh "He" in
  destruct (b64_char_spec x) as [[Hv He] _]; [divlia|]; rewrite ?Hv, ?He; clear Hv He.

Lemma b64_decode_bytes bs : Forall (fun b => (b < 256)%N) bs -> b64_decode (b64_bytes bs) = bs.
Proof.
  induction bs as [bs IH] using (induction_ltof1 _ length). intros Hbs.
  destruct bs as [|a [|b [|c bs]]]; [done|..]; rewrite ?Forall_cons in Hbs; destruct_and? Hbs;
    cbn [b64_bytes b64_decode].
  - b64_step (a / 4)%N. b64_step (a mod 4 * 16)%N. cbn -[N.div N.modulo N.add N.mul]. f_equal. divlia.
  - b64_step (a / 4)%N. b64_step (a mod 4 * 16 + b / 16)%N. b64_step (b mod 16 * 4)%N.
    cbn -[N.div N.modulo N.add N.mul]. f_equal; [|f_equal]; divlia.
  - b64_step (a / 4)%N. b64_step (a mod 4 * 16 + b / 16)%N. b64_step (b mod 16 * 4 + c / 64)%N.
    b64_step (c mod 64)%N. rewrite IH; [|unfold ltof; simpl; lia|done].
    f_equal; [|f_equal; [|f_equal]]; divlia.
Qed.

Lemma base64_inj : Inj (=) (=) base64_EncodeToString.
Proof.
  intros s s' Heq. unfold base64_EncodeToString in Heq. apply (f_equal b64_decode) in Heq.
  assert (Hb : forall s, Forall (fun b => (b < 256)%N) (to_bytes s)).
  { intros s0. unfold to_bytes. apply Forall_fmap, Forall_forall. intros c _. apply N_ascii_bounded. }
  rewrite !b64_decode_bytes in Heq by done. unfold to_bytes in Heq.
  assert (Hinv : forall s, of_bytes (byte_val <$> String.list_ascii_of_string s) = s).
  { intros s0. unfold of_bytes. rewrite <- list_fmap_compose, (list_fmap_ext _ id), list_fmap_id.
    - apply String.string_of_list_ascii_of_string.
    - intros; apply ascii_N_embedding. }
  by rewrite <- (Hinv s), <- (Hinv s'), Heq.
Qed.

Lemma base64_ascii s : is_ascii (base64_EncodeToString s).
Proof.
  unfold base64_EncodeToString. assert (Hb : Forall (fun b => (b < 256)%N) (to_bytes s)).
  { unfold to_bytes. apply Forall_fmap, Forall_forall. intros c _. apply N_ascii_bounded. }
  revert Hb. generalize (to_bytes s). clear s. intros bs.
  induction bs as [bs IH] using (induction_ltof1 _ length). intros Hbs.
  assert (Hc : forall x, (x < 64)%N -> (byte_val (b64_char x) <? 128)%N).
  { intros x Hx. destruct (b64_char_spec x Hx) as [_ Ha]. simpl in Ha. by apply andb_prop_elim in Ha as [Ha _]. }
  destruct bs as [|a [|b [|c bs]]]; [done|..]; rewrite ?Forall_cons in Hbs; destruct_and? Hbs;
    cbn [b64_bytes is_ascii]; rewrite ?andb_True; repeat split; try (apply Hc; divlia); try done.
  apply IH; [unfold ltof; simpl; lia|done].
Qed.
