(* ===== verification/Kube.v ===== *)
(** * The Kubernetes objects the source reads

    Plain records with the fields of [k8s.io/api] and of the scheduler framework
    that the source reads.  The functions of those packages are not modelled:
    they are the operations of the class [KubeLib], and what the source relies on
    about them is the class [KubeLibLaws]. *)

From S2P Require Import Prelude.

(** ** [k8s.io/api/core/v1] *)

Record NodeSelectorRequirement := Requirement {
  req_Key : string;
  req_Operator : string;
  req_Values : list string;
}.

Record NodeSelectorTerm := Term {
  MatchExpressions : list NodeSelectorRequirement;
  MatchFields : list NodeSelectorRequirement;
}.

(** [NodeSelector], the value of [requiredDuringSchedulingIgnoredDuringExecution]. *)
Record NodeSelector := MkNodeSelector { NodeSelectorTerms : list NodeSelectorTerm }.
Record NodeAffinity := MkNodeAffinity { RequiredDuringScheduling : option NodeSelector }.
Record Affinity := MkAffinity { aff_NodeAffinity : option NodeAffinity }.

Record Toleration := MkToleration {
  tol_Key : string;
  tol_Operator : string;
  tol_Value : string;
  tol_Effect : string;
  tol_TolerationSeconds : option Z;
}.

Record Taint := MkTaint { taint_Key : string; taint_Value : string; taint_Effect : string }.

Record OwnerReference := MkOwnerReference {
  owner_Kind : string;
  owner_Name : string;
  owner_Controller : option bool;
}.

(** A nil map is [None]; lookups and ranges treat it as empty. *)
Abbreviation string_map := (gmap string string).

Record PodSpec := MkPodSpec {
  spec_SchedulerName : string;
  spec_NodeName : string;
  spec_NodeSelector : option string_map;
  spec_Affinity : option Affinity;
  spec_Tolerations : list Toleration;
}.

Record Pod := MkPod {
  pod_UID : string;
  pod_Name : string;
  pod_Namespace : string;
  pod_Labels : string_map;
  pod_OwnerReferences : list OwnerReference;
  pod_Spec : PodSpec;
  pod_Phase : string;
}.

Record Node := MkNode {
  node_Name : string;
  node_Labels : string_map;
  node_Taints : list Taint;
  node_Unschedulable : bool;
  node_Conditions : list (string * string);
}.

Definition PodPending : string := "Pending".
Definition PodRunning : string := "Running".
Definition TaintEffectNoSchedule : string := "NoSchedule".
Definition TaintEffectNoExecute : string := "NoExecute".
Definition NodeSelectorOpIn : string := "In".
Definition NodeSelectorOpNotIn : string := "NotIn".
Definition NodeSelectorOpExists : string := "Exists".
Definition NodeSelectorOpDoesNotExist : string := "DoesNotExist".
Definition NodeSelectorOpGt : string := "Gt".
Definition NodeSelectorOpLt : string := "Lt".

#[export] Instance Requirement_eq_dec : EqDecision NodeSelectorRequirement.
Proof. solve_decision. Defined.
#[export] Instance Toleration_eq_dec : EqDecision Toleration.
Proof. solve_decision. Defined.
#[export] Instance Taint_eq_dec : EqDecision Taint.
Proof. solve_decision. Defined.

(** ** The scheduler framework *)

Inductive Code := Success | Error | Unschedulable | UnschedulableAndUnresolvable.

Record Status := NewStatus { st_Code : Code; st_Message : string }.

#[export] Instance Code_eq_dec : EqDecision Code.
Proof. solve_decision. Defined.
#[export] Instance Status_eq_dec : EqDecision Status.
Proof. solve_decision. Defined.

Definition success : Status := NewStatus Success "".

Inductive QueueingHint := QueueSkip | QueueAfterBackoff.

#[export] Instance QueueingHint_eq_dec : EqDecision QueueingHint.
Proof. solve_decision. Defined.

(** ** Functions of other packages *)

Class KubeLib := {
  (** [k8s.io/kubernetes/pkg/util/node.IsNodeReady] *)
  IsNodeReady : Node -> bool;
  (** [component-helpers/scheduling/corev1.FindMatchingUntoleratedTaint] *)
  FindMatchingUntoleratedTaint : list Taint -> list Toleration -> (Taint -> bool) -> option Taint;
  (** [v1.Toleration.ToleratesTaint] *)
  ToleratesTaint : Toleration -> Taint -> bool;
  (** [apimachinery/pkg/util/validation.IsQualifiedName]: the error messages *)
  IsQualifiedName : string -> list string;
  (** [framework.MaxNodeScore] *)
  MaxNodeScore : Z;
}.

Class KubeLibLaws `{KubeLib} : Prop := {
  FindTaint_some taints tols f t :
    FindMatchingUntoleratedTaint taints tols f = Some t ->
    t ∈ taints /\ f t = true /\ forall tol, tol ∈ tols -> ToleratesTaint tol t = false;
  FindTaint_none taints tols f t :
    FindMatchingUntoleratedTaint taints tols f = None ->
    t ∈ taints -> f t = true -> exists tol, tol ∈ tols /\ ToleratesTaint tol t = true;
  MaxNodeScore_range : 0 < MaxNodeScore <= 100;
}.
