(* ===== verification/Fixtures.v ===== *)
(** * Concrete objects for the witnesses

    An instance of [KubeLib] that satisfies its laws, and small pods and nodes in
    the style of the repository's unit tests ([domNode], [schedPod]). *)

From S2P Require Import Prelude GoStd Kube.

Definition fx_ready (n : Node) : bool :=
  bool_decide (("Ready", "True") ∈ node_Conditions n).

Definition fx_tolerates (tol : Toleration) (t : Taint) : bool :=
  (bool_decide (tol_Effect tol = "") || bool_decide (tol_Effect tol = taint_Effect t)) &&
  (bool_decide (tol_Key tol = "") || bool_decide (tol_Key tol = taint_Key t)) &&
  (bool_decide (tol_Operator tol = "Exists") ||
   (bool_decide (tol_Operator tol = "") || bool_decide (tol_Operator tol = "Equal")) &&
   bool_decide (tol_Value tol = taint_Value t)).

Definition fx_find_taint (taints : list Taint) (tols : list Toleration) (f : Taint -> bool)
    : option Taint :=
  List.find (fun t => f t && negb (existsb (fun tol => fx_tolerates tol t) tols)) taints.

Definition fx_qualified_name (s : string) : list string :=
  if bool_decide (s = "bad key") then ["name part must consist of alphanumeric characters"] else [].

#[export] Instance fx_lib : KubeLib := {|
  IsNodeReady := fx_ready;
  FindMatchingUntoleratedTaint := fx_find_taint;
  ToleratesTaint := fx_tolerates;
  IsQualifiedName := fx_qualified_name;
  MaxNodeScore := 100;
|}.

#[export] Instance fx_laws : KubeLibLaws.
Proof.
  split; simpl.
  - intros taints tols f t H. unfold fx_find_taint in H. apply List.find_some in H as [Hin Hf].
    apply andb_true_iff in Hf as [Hft Htol]. apply negb_true_iff in Htol.
    split; [by apply list_elem_of_In|]. split; [done|]. intros tol Hin'.
    destruct (fx_tolerates tol t) eqn:E; [|done].
    assert (existsb (fun tol => fx_tolerates tol t) tols = true); [|congruence].
    apply existsb_exists. exists tol. by rewrite <- list_elem_of_In.
  - intros taints tols f t H Hin Hf. unfold fx_find_taint in H.
    pose proof (List.find_none _ _ H t) as Hn. rewrite <- list_elem_of_In in Hn.
    specialize (Hn Hin). simpl in Hn. rewrite Hf in Hn. simpl in Hn. apply negb_false_iff in Hn.
    apply existsb_exists in Hn as (tol & Ht & Hok). exists tol. by rewrite list_elem_of_In.
  - lia.
Qed.

Definition fx_node (name : string) (lbls : string_map) : Node :=
  MkNode name lbls [] false [("Ready", "True")].

Definition fx_rs_owner : OwnerReference := MkOwnerReference "ReplicaSet" "rs" (Some true).

Definition fx_spec (node : string) : PodSpec :=
  MkPodSpec "service-spread-scheduler" node None None [].

Definition fx_pod (uid node value phase : string) : Pod :=
  MkPod uid uid "ns" (<["svc" := value]> ∅) [fx_rs_owner] (fx_spec node) phase.
