(* ===== verification/State.v ===== *)
(** * Counting state: snapshot and reservations (internal/spread/state.go)

    The immutable per-node count snapshot, the reservation overlay and the
    operations on them.  Every operation that takes [spreadState.mu] is one
    atomic step on [spreadState]; [effCount] loads the snapshot before it takes
    the lock and is therefore also given in two steps ([overlay] of a snapshot
    loaded earlier). *)

From S2P Require Import Prelude.

(** ** Data *)

Record podRef := PodRef {
  ref_QuotaKey : string;
  ref_SchedKey : string;
  ref_NodeName : string;
}.

Record snapshot := Snapshot {
  pods : gmap string podRef;
  nodeQuota : gmap string (gmap string Z);
  nodeDomain : gmap string (gmap string Z);
}.

Inductive resvPhase := resvReserved | resvBoundObs.

Record reservation := Reservation {
  rv_UID : string;
  rv_QuotaKey : string;
  rv_SchedKey : string;
  rv_NodeName : string;
  rv_Phase : resvPhase;
  rv_Since : Z;
}.

Record spreadState := SpreadState {
  snap : snapshot;
  resv : gmap string reservation;
}.

(** The lock-held view handed to an admission check. *)
Record reserveGuard := ReserveGuard {
  g_snap : snapshot;
  g_resv : gmap string reservation;
}.

#[export] Instance podRef_eq_dec : EqDecision podRef.
Proof. solve_decision. Defined.
#[export] Instance resvPhase_eq_dec : EqDecision resvPhase.
Proof. solve_decision. Defined.
#[export] Instance reservation_eq_dec : EqDecision reservation.
Proof. solve_decision. Defined.
#[export] Instance snapshot_eq_dec : EqDecision snapshot.
Proof. solve_decision. Defined.
#[export] Instance spreadState_eq_dec : EqDecision spreadState.
Proof. solve_decision. Defined.

Definition emptySnapshot : snapshot := Snapshot ∅ ∅ ∅.
Definition newSpreadState : spreadState := SpreadState emptySnapshot ∅.

(** ** Counters *)

Abbreviation counters := (gmap string (gmap string Z)).

(** [m[outer][inner]++], creating the inner map on first use. *)
Definition incMap (m : counters) (outer inner : string) : counters :=
  let row := default ∅ (m !! outer) in
  <[outer := <[inner := map_get 0 row inner ⊞ 1]> row]> m.

(** [m[outer][inner]--], dropping the entry at 1 and the row when it empties. *)
Definition decMap (m : counters) (outer inner : string) : counters :=
  match m !! outer with
  | None => m
  | Some row =>
    if map_get 0 row inner <=? 1 then
      let row' := delete inner row in
      if decide (row' = ∅) then delete outer m else <[outer := row']> m
    else <[outer := <[inner := map_get 0 row inner ⊟ 1]> row]> m
  end.

Definition unapplyCount (sn : snapshot) (uid : string) : snapshot :=
  match pods sn !! uid with
  | None => sn
  | Some old =>
    Snapshot (delete uid (pods sn))
             (decMap (nodeQuota sn) (ref_NodeName old) (ref_QuotaKey old))
             (decMap (nodeDomain sn) (ref_NodeName old) (ref_SchedKey old))
  end.

Definition applyCount (sn : snapshot) (uid : string) (ref : podRef) : snapshot :=
  let sn := match pods sn !! uid with Some _ => unapplyCount sn uid | None => sn end in
  Snapshot (<[uid := ref]> (pods sn))
           (incMap (nodeQuota sn) (ref_NodeName ref) (ref_QuotaKey ref))
           (incMap (nodeDomain sn) (ref_NodeName ref) (ref_SchedKey ref)).

Definition row_count (m : counters) (node key : string) : Z :=
  match m !! node with Some row => map_get 0 row key | None => 0 end.

(** [(quotaN, domainN)] of one node. *)
Definition count (sn : snapshot) (node quotaKey schedKey : string) : Z * Z :=
  (row_count (nodeQuota sn) node quotaKey, row_count (nodeDomain sn) node schedKey).

(** ** Effective counts *)

(** The loop over the reservations, from the snapshot's counts. *)
Definition overlay_step (node schedKey quotaKey : string) (r : reservation) (acc : Z * Z) : Z * Z :=
  let '(domainN, quotaN) := acc in
  if decide (rv_NodeName r = node) then
    let quotaN := if decide (rv_QuotaKey r = quotaKey) then quotaN ⊞ 1 else quotaN in
    let domainN := if decide (rv_SchedKey r = schedKey) then domainN ⊞ 1 else domainN in
    (domainN, quotaN)
  else (domainN, quotaN).

Definition overlay (sn : snapshot) (rs : gmap string reservation)
    (node schedKey quotaKey : string) : Z * Z :=
  let '(quotaN, domainN) := count sn node quotaKey schedKey in
  foldl (fun acc '(_, r) => overlay_step node schedKey quotaKey r acc)
        (domainN, quotaN) (map_to_list rs).

(** [spreadState.effCount]: [(domainN, quotaN)]. *)
Definition effCount (s : spreadState) (node schedKey quotaKey : string) : Z * Z :=
  overlay (snap s) (resv s) node schedKey quotaKey.

(** [reserveGuard.EffCount] *)
Definition EffCount (g : reserveGuard) (node schedKey quotaKey : string) : Z * Z :=
  overlay (g_snap g) (g_resv g) node schedKey quotaKey.

(** ** Reservations *)

Definition guard_of (s : spreadState) : reserveGuard := ReserveGuard (snap s) (resv s).

(** The critical section of Reserve; [now] is the clock reading.  [admits] runs
    under the lock and may panic. *)
Definition TryReserveChecked (now : Z) (s : spreadState) (uid : string) (ref : podRef)
    (admits : reserveGuard -> go bool) : go (bool * spreadState) :=
  match resv s !! uid with
  | Some _ => Val (false, s)
  | None =>
    ok ← admits (guard_of s);
    if ok : bool then
      Val (true, SpreadState (snap s)
                   (<[uid := Reservation uid (ref_QuotaKey ref) (ref_SchedKey ref)
                               (ref_NodeName ref) resvReserved now]> (resv s)))
    else Val (false, s)
  end.

Definition TryReserve (now : Z) (s : spreadState) (uid : string) (ref : podRef)
    (admits : Z -> Z -> bool) : go (bool * spreadState) :=
  TryReserveChecked now s uid ref (fun g =>
    let '(domainN, quotaN) :=
      EffCount g (ref_NodeName ref) (ref_SchedKey ref) (ref_QuotaKey ref) in
    Val (admits domainN quotaN)).

Definition Unreserve (s : spreadState) (uid : string) : spreadState :=
  match resv s !! uid with
  | Some r => if decide (rv_Phase r = resvReserved)
              then SpreadState (snap s) (delete uid (resv s)) else s
  | None => s
  end.

Definition set_phase (ph : resvPhase) (r : reservation) : reservation :=
  Reservation (rv_UID r) (rv_QuotaKey r) (rv_SchedKey r) (rv_NodeName r) ph (rv_Since r).

Definition MarkBound (s : spreadState) (uid : string) : spreadState :=
  match resv s !! uid with
  | Some r => if decide (rv_Phase r = resvReserved)
              then SpreadState (snap s) (<[uid := set_phase resvBoundObs r]> (resv s)) else s
  | None => s
  end.

Definition releaseIfObserved (s : spreadState) (uid : string) : spreadState :=
  match resv s !! uid with
  | None => s
  | Some r =>
    match pods (snap s) !! uid with
    | Some ref => if decide (ref_NodeName ref = rv_NodeName r)
                  then SpreadState (snap s) (delete uid (resv s)) else s
    | None => s
    end
  end.

Definition reservationsLen (s : spreadState) : Z := Z.of_nat (size (resv s)).

Definition ReservationCounts (s : spreadState) : gmap string Z :=
  foldl (fun out '(_, r) => <[rv_QuotaKey r := map_get 0 out (rv_QuotaKey r) ⊞ 1]> out)
        ∅ (map_to_list (resv s)).

(** [None] stands for the [(-1, false)] of the source. *)
Definition reservationPhase (s : spreadState) (uid : string) : option resvPhase :=
  rv_Phase <$> resv s !! uid.

(** ** Snapshot maintenance *)

(** The copies are values here: [clone] rebuilds the three maps entry by entry. *)
Definition clone_map {V} (m : gmap string V) : gmap string V :=
  map_fold (fun k v c => <[k := v]> c) ∅ m.

Definition clone (sn : snapshot) : snapshot :=
  Snapshot (clone_map (pods sn))
           (map_fold (fun n row c => <[n := clone_map row]> c) ∅ (nodeQuota sn))
           (map_fold (fun n row c => <[n := clone_map row]> c) ∅ (nodeDomain sn)).

Definition upsertCount (s : spreadState) (uid : string) (ref : podRef) : spreadState :=
  SpreadState (applyCount (clone (snap s)) uid ref) (resv s).

Definition removeCount (s : spreadState) (uid : string) : spreadState :=
  SpreadState (unapplyCount (clone (snap s)) uid) (resv s).

(** The loop of [rebuild] over an enumeration of the given counts. *)
Definition rebuild_from (l : list (string * podRef)) : snapshot :=
  foldl (fun next '(uid, ref) => applyCount next uid ref) emptySnapshot l.

Definition rebuild (s : spreadState) (ps : gmap string podRef) : spreadState :=
  SpreadState (rebuild_from (map_to_list ps)) (resv s).

(** ** Counters: what increments and decrements do to every cell *)

Lemma row_count_incMap m o i n k :
  row_count (incMap m o i) n k =
  if decide (n = o /\ k = i) then row_count m o i ⊞ 1 else row_count m n k.
Proof.
  unfold row_count, incMap, map_get. destruct (decide (n = o)) as [->|Hn].
  - rewrite lookup_insert_eq. destruct (decide (k = i)) as [->|Hk].
    + rewrite lookup_insert_eq, decide_True by done. by destruct (m !! o).
    + rewrite lookup_insert_ne, decide_False by naive_solver. by destruct (m !! o).
  - rewrite lookup_insert_ne, decide_False by naive_solver. done.
Qed.

Lemma row_count_decMap m o i n k :
  row_count (decMap m o i) n k =
  if decide (n = o /\ k = i)
  then (if row_count m o i <=? 1 then 0 else row_count m o i ⊟ 1)
  else row_count m n k.
Proof.
  unfold decMap. destruct (m !! o) as [row|] eqn:Ho.
  - assert (Hrow : row_count m o i = map_get 0 row i) by (unfold row_count; by rewrite Ho).
    rewrite Hrow. unfold row_count. destruct (map_get 0 row i <=? 1).
    + destruct (decide (delete i row = ∅)) as [He|He].
      * destruct (decide (n = o)) as [->|Hn].
        -- rewrite lookup_delete_eq, Ho. destruct (decide (k = i)) as [->|Hk].
           ++ by rewrite decide_True.
           ++ rewrite decide_False by naive_solver. unfold map_get.
              rewrite <- (lookup_delete_ne row i k) by done. by rewrite He, lookup_empty.
        -- rewrite lookup_delete_ne, decide_False by naive_solver. done.
      * destruct (decide (n = o)) as [->|Hn].
        -- rewrite lookup_insert_eq, Ho. unfold map_get. destruct (decide (k = i)) as [->|Hk].
           ++ by rewrite decide_True, lookup_delete_eq by done.
           ++ rewrite decide_False by naive_solver. by rewrite lookup_delete_ne.
        -- rewrite lookup_insert_ne, decide_False by naive_solver. done.
    + destruct (decide (n = o)) as [->|Hn].
      * rewrite lookup_insert_eq, Ho. unfold map_get. destruct (decide (k = i)) as [->|Hk].
        -- by rewrite decide_True, lookup_insert_eq by done.
        -- rewrite decide_False by naive_solver. by rewrite lookup_insert_ne.
      * rewrite lookup_insert_ne, decide_False by naive_solver. done.
  - unfold row_count. destruct (decide (n = o /\ k = i)) as [[-> ->]|]; by rewrite ?Ho.
Qed.

(** A row is never empty and never holds a zero: the counters are a function of
    what they count ([canonical_unique]). *)
Definition canonical (m : counters) : Prop :=
  forall n row, m !! n = Some row -> row <> ∅ /\ forall k c, row !! k = Some c -> 0 < c.

Lemma canonical_row_nonneg m n k : canonical m -> 0 <= row_count m n k.
Proof.
  intros Hc. unfold row_count, map_get. destruct (m !! n) as [row|] eqn:Hn; [|lia].
  destruct (row !! k) as [c|] eqn:Hk; simpl; [|lia]. destruct (Hc n row Hn) as [_ Hp].
  specialize (Hp k c Hk). lia.
Qed.

Lemma canonical_row_lookup m n row k :
  canonical m -> m !! n = Some row ->
  row !! k = if decide (row_count m n k = 0) then None else Some (row_count m n k).
Proof.
  intros Hc Hn. destruct (Hc n row Hn) as [_ Hp]. unfold row_count, map_get. rewrite Hn.
  destruct (row !! k) as [c|] eqn:Hk; simpl; [|done]. specialize (Hp k c Hk).
  rewrite decide_False by lia. done.
Qed.

Lemma canonical_row_some m n :
  canonical m -> is_Some (m !! n) <-> exists k, row_count m n k <> 0.
Proof.
  intros Hc. split.
  - intros [row Hn]. destruct (Hc n row Hn) as [Hne Hp].
    apply map_choose in Hne as (k & c & Hk). exists k. unfold row_count, map_get.
    rewrite Hn, Hk. simpl. specialize (Hp k c Hk). lia.
  - intros [k Hk]. unfold row_count in Hk. destruct (m !! n); [by eexists|done].
Qed.

Lemma canonical_unique m1 m2 :
  canonical m1 -> canonical m2 ->
  (forall n k, row_count m1 n k = row_count m2 n k) -> m1 = m2.
Proof.
  intros H1 H2 Heq. apply map_eq. intros n.
  destruct (m1 !! n) as [r1|] eqn:E1.
  - assert (is_Some (m2 !! n)) as [r2 E2].
    { apply (canonical_row_some m2 n H2). setoid_rewrite <- Heq.
      apply (canonical_row_some m1 n H1). by eexists. }
    rewrite E2. f_equal. apply map_eq. intros k.
    by rewrite (canonical_row_lookup m1 n r1 k H1 E1), (canonical_row_lookup m2 n r2 k H2 E2), Heq.
  - destruct (m2 !! n) as [r2|] eqn:E2; [|done].
    assert (is_Some (m1 !! n)) as [r1 ?]; [|congruence].
    apply (canonical_row_some m1 n H1). setoid_rewrite Heq.
    apply (canonical_row_some m2 n H2). by eexists.
Qed.

Lemma incMap_canonical m o i :
  canonical m -> row_count m o i < max_int32 -> canonical (incMap m o i).
Proof.
  intros Hc Hlt n row. unfold incMap.
  assert (Hcell : map_get 0 (default ∅ (m !! o)) i = row_count m o i).
  { unfold row_count, map_get. by destruct (m !! o). }
  pose proof (canonical_row_nonneg m o i Hc). rewrite Hcell.
  assert (Hw : row_count m o i ⊞ 1 = row_count m o i + 1) by (int_small; lia). rewrite Hw.
  destruct (decide (o = n)) as [->|Hn].
  - rewrite lookup_insert_eq. intros [= <-]. split; [apply insert_non_empty|].
    intros k c. destruct (decide (i = k)) as [->|Hk].
    + rewrite lookup_insert_eq. intros [= <-]. lia.
    + rewrite lookup_insert_ne by done. destruct (m !! n) as [r|] eqn:Hm; simpl; [|done].
      by apply (Hc n r).
  - rewrite lookup_insert_ne by done. apply Hc.
Qed.

Lemma decMap_canonical m o i :
  canonical m -> row_count m o i <= max_int32 -> canonical (decMap m o i).
Proof.
  intros Hc Hle. unfold decMap. destruct (m !! o) as [r|] eqn:Ho; [|done].
  assert (Hcell : map_get 0 r i = row_count m o i) by (unfold row_count; by rewrite Ho).
  rewrite Hcell. destruct (Hc o r Ho) as [_ Hp].
  destruct (Z.leb_spec (row_count m o i) 1) as [Hi|Hi];
    [destruct (decide (delete i r = ∅)) as [He|He]|]; intros n row.
  - intros [_ Hn]%lookup_delete_Some. by apply (Hc n row).
  - intros [[<- <-]|[_ Hn]]%lookup_insert_Some; [|by apply (Hc n row)].
    split; [done|]. intros k c [_ Hk]%lookup_delete_Some. by apply (Hp k).
  - intros [[<- <-]|[_ Hn]]%lookup_insert_Some; [|by apply (Hc n row)].
    split; [apply insert_non_empty|].
    intros k c [[<- <-]|[_ Hk]]%lookup_insert_Some; [int_small; lia|by apply (Hp k)].
Qed.

(** ** The snapshot invariant: the counters count the pods *)

Definition ref_at (key : podRef -> string) (n k : string) (r : podRef) : bool :=
  bool_decide (ref_NodeName r = n /\ key r = k).

Definition resv_at (key : reservation -> string) (n k : string) (r : reservation) : bool :=
  bool_decide (rv_NodeName r = n /\ key r = k).

Record counts_exact (key : podRef -> string) (m : counters) (ps : gmap string podRef) : Prop := {
  ce_count : forall n k, row_count m n k = count_if (ref_at key n k) ps;
  ce_canonical : canonical m;
}.

Record snap_wf (sn : snapshot) : Prop := {
  wf_quota : counts_exact ref_QuotaKey (nodeQuota sn) (pods sn);
  wf_domain : counts_exact ref_SchedKey (nodeDomain sn) (pods sn);
}.

Definition fits {K V} `{Countable K} (m : gmap K V) : Prop := Z.of_nat (size m) < max_int32.

Lemma counts_exact_empty key : counts_exact key ∅ ∅.
Proof. split; [intros; by rewrite count_if_empty|done]. Qed.

Lemma emptySnapshot_wf : snap_wf emptySnapshot.
Proof. split; apply counts_exact_empty. Qed.

Lemma incMap_exact key m ps uid ref :
  counts_exact key m ps -> ps !! uid = None -> fits ps ->
  counts_exact key (incMap m (ref_NodeName ref) (key ref)) (<[uid := ref]> ps).
Proof.
  intros [Hx Hc] Hu Hf. unfold fits in Hf.
  pose proof (count_if_size (ref_at key (ref_NodeName ref) (key ref)) ps).
  pose proof (count_if_nonneg (ref_at key (ref_NodeName ref) (key ref)) ps).
  split; [|apply incMap_canonical; [done|rewrite Hx; lia]].
  intros n k. rewrite row_count_incMap, count_if_insert by done. rewrite !Hx.
  unfold ref_at at 3. destruct (decide (n = ref_NodeName ref /\ k = key ref)) as [[-> ->]|Hne].
  - rewrite bool_decide_eq_true_2 by done. simpl. int_small. lia.
  - rewrite bool_decide_eq_false_2 by naive_solver. simpl. lia.
Qed.

Lemma decMap_exact key m ps uid old :
  counts_exact key m ps -> ps !! uid = Some old -> fits ps ->
  counts_exact key (decMap m (ref_NodeName old) (key old)) (delete uid ps).
Proof.
  intros [Hx Hc] Hu Hf. unfold fits in Hf.
  pose proof (count_if_size (ref_at key (ref_NodeName old) (key old)) ps) as Hsz.
  split; [|apply decMap_canonical; [done|rewrite Hx; lia]].
  intros n k. rewrite row_count_decMap, !Hx.
  pose proof (count_if_delete (ref_at key n k) ps uid old Hu) as Hd.
  pose proof (count_if_nonneg (ref_at key n k) (delete uid ps)).
  unfold ref_at at 2 in Hd.
  destruct (decide (n = ref_NodeName old /\ k = key old)) as [[-> ->]|Hne].
  - rewrite bool_decide_eq_true_2 in Hd by done. simpl in Hd.
    destruct (Z.leb_spec (count_if (ref_at key (ref_NodeName old) (key old)) ps) 1); [lia|].
    int_small. lia.
  - rewrite bool_decide_eq_false_2 in Hd by naive_solver. simpl in Hd. lia.
Qed.

Lemma pods_unapplyCount sn uid : pods (unapplyCount sn uid) = delete uid (pods sn).
Proof.
  unfold unapplyCount. destruct (pods sn !! uid) eqn:Hu; simpl; [done|]. by rewrite delete_id.
Qed.

Lemma pods_applyCount sn uid ref : pods (applyCount sn uid ref) = <[uid := ref]> (pods sn).
Proof.
  unfold applyCount. simpl. destruct (pods sn !! uid) eqn:Hu; [|done].
  by rewrite pods_unapplyCount, insert_delete_eq.
Qed.

Lemma unapplyCount_wf sn uid : snap_wf sn -> fits (pods sn) -> snap_wf (unapplyCount sn uid).
Proof.
  intros [Hq Hd] Hf. unfold unapplyCount. destruct (pods sn !! uid) as [old|] eqn:Hu; [|done].
  split; simpl; by apply decMap_exact.
Qed.

Lemma fits_delete {V} (m : gmap string V) k : fits m -> fits (delete k m).
Proof.
  unfold fits. rewrite map_size_delete. destruct (m !! k); simpl; lia.
Qed.

Lemma applyCount_wf sn uid ref :
  snap_wf sn -> fits (pods sn) -> snap_wf (applyCount sn uid ref).
Proof.
  intros Hwf Hf. unfold applyCount.
  destruct (pods sn !! uid) as [old|] eqn:Hu.
  - pose proof (unapplyCount_wf sn uid Hwf Hf) as [Hq Hd].
    assert (pods (unapplyCount sn uid) !! uid = None)
      by (rewrite pods_unapplyCount; apply lookup_delete_eq).
    assert (fits (pods (unapplyCount sn uid)))
      by (rewrite pods_unapplyCount; by apply fits_delete).
    split; simpl; by apply incMap_exact.
  - destruct Hwf as [Hq Hd]. split; simpl; by apply incMap_exact.
Qed.

(** Well-formed snapshots of the same pods are equal. *)
Lemma snap_wf_unique s1 s2 : snap_wf s1 -> snap_wf s2 -> pods s1 = pods s2 -> s1 = s2.
Proof.
  intros [[Hq1 Cq1] [Hd1 Cd1]] [[Hq2 Cq2] [Hd2 Cd2]] Hp.
  destruct s1 as [p1 q1 d1], s2 as [p2 q2 d2]; simpl in *. subst p2. f_equal.
  - apply canonical_unique; [done..|]. intros. by rewrite Hq1, Hq2.
  - apply canonical_unique; [done..|]. intros. by rewrite Hd1, Hd2.
Qed.

Lemma clone_map_id {V} (m : gmap string V) : clone_map m = m.
Proof.
  unfold clone_map. induction m as [|k v m Hk IH] using map_ind; [apply map_fold_empty|].
  rewrite map_fold_insert_L; [by rewrite IH| |done].
  intros. apply insert_insert_ne. done.
Qed.

Lemma clone_rows_id {V} (m : gmap string (gmap string V)) :
  map_fold (fun n row c => <[n := clone_map row]> c) ∅ m = m.
Proof.
  induction m as [|k v m Hk IH] using map_ind; [apply map_fold_empty|].
  rewrite map_fold_insert_L; [by rewrite IH, clone_map_id| |done].
  intros. apply insert_insert_ne. done.
Qed.

Lemma clone_id sn : clone sn = sn.
Proof. unfold clone. rewrite clone_map_id, !clone_rows_id. by destruct sn. Qed.

#[export] Hint Rewrite clone_id pods_applyCount pods_unapplyCount : go.
#[export] Hint Resolve emptySnapshot_wf applyCount_wf unapplyCount_wf fits_delete : go.

(** ** Rebuild: independent of the order the counts are visited in *)

Lemma rebuild_from_spec ps l :
  enumerates l ps -> fits ps -> snap_wf (rebuild_from l) /\ pods (rebuild_from l) = ps.
Proof.
  unfold rebuild_from. intros Hl Hf.
  apply (enumerates_ind (fun next '(uid, ref) => applyCount next uid ref)
           (fun m sn => fits m -> snap_wf sn /\ pods sn = m) emptySnapshot); [|..|done|done].
  - intros _. split; auto with go.
  - intros m k v sn Hk IH Hfit.
    assert (fits m) as Hfm by (unfold fits in *; rewrite map_size_insert_None in Hfit by done; lia).
    destruct (IH Hfm) as [Hwf Hp]. split.
    + apply applyCount_wf; [done|]. by rewrite Hp.
    + by rewrite pods_applyCount, Hp.
Qed.

Lemma rebuild_from_order l1 l2 ps :
  enumerates l1 ps -> enumerates l2 ps -> fits ps -> rebuild_from l1 = rebuild_from l2.
Proof.
  intros H1 H2 Hf.
  destruct (rebuild_from_spec ps l1 H1 Hf) as [W1 P1].
  destruct (rebuild_from_spec ps l2 H2 Hf) as [W2 P2].
  apply snap_wf_unique; congruence.
Qed.

Lemma rebuild_pods s ps : fits ps -> pods (snap (rebuild s ps)) = ps.
Proof. intros Hf. apply (rebuild_from_spec ps (map_to_list ps)); auto with go. Qed.

Lemma rebuild_wf s ps : fits ps -> snap_wf (snap (rebuild s ps)).
Proof. intros Hf. apply (rebuild_from_spec ps (map_to_list ps)); auto with go. Qed.

(** ** Effective counts are snapshot counts plus reservation counts *)

Definition quota_on (s : spreadState) (n q : string) : Z :=
  count_if (ref_at ref_QuotaKey n q) (pods (snap s)) +
  count_if (resv_at rv_QuotaKey n q) (resv s).

Definition domain_on (s : spreadState) (n d : string) : Z :=
  count_if (ref_at ref_SchedKey n d) (pods (snap s)) +
  count_if (resv_at rv_SchedKey n d) (resv s).

(** No int32 overflow: fewer than 2^31 - 1 pods and reservations together. *)
Definition small (s : spreadState) : Prop :=
  Z.of_nat (size (pods (snap s))) + Z.of_nat (size (resv s)) < max_int32.

Lemma small_fits s : small s -> fits (pods (snap s)).
Proof. unfold small, fits. lia. Qed.

Lemma overlay_step_spec n d q r a b :
  in_int32 a -> in_int32 b -> a < max_int32 -> b < max_int32 ->
  overlay_step n d q r (a, b)
  = (b2z (resv_at rv_SchedKey n d r) + a, b2z (resv_at rv_QuotaKey n q r) + b).
Proof.
  unfold overlay_step, resv_at, in_int32, max_int32. intros.
  destruct (decide (rv_NodeName r = n)) as [->|Hn].
  - f_equal; case_bool_decide as Hk; case_decide; try tauto; simpl; int_small; lia.
  - rewrite !bool_decide_eq_false_2 by tauto. done.
Qed.

(** The reservation loop in any order. *)
Lemma overlay_loop (rs : gmap string reservation) l n d q a b :
  enumerates l rs -> 0 <= a -> 0 <= b ->
  a + Z.of_nat (size rs) < max_int32 -> b + Z.of_nat (size rs) < max_int32 ->
  foldl (fun acc '(_, r) => overlay_step n d q r acc) (a, b) l
  = (a + count_if (resv_at rv_SchedKey n d) rs, b + count_if (resv_at rv_QuotaKey n q) rs).
Proof.
  intros Hl Ha Hb.
  apply (enumerates_ind (fun acc '(_, r) => overlay_step n d q r acc)
    (fun m acc => a + Z.of_nat (size m) < max_int32 -> b + Z.of_nat (size m) < max_int32 ->
      acc = (a + count_if (resv_at rv_SchedKey n d) m,
             b + count_if (resv_at rv_QuotaKey n q) m)) (a, b)); [..|done].
  - intros _ _. rewrite !count_if_empty. f_equal; lia.
  - intros m k r acc Hk IH Hsa Hsb. rewrite map_size_insert_None in Hsa, Hsb by done.
    rewrite IH by lia.
    pose proof (count_if_size (resv_at rv_SchedKey n d) m).
    pose proof (count_if_size (resv_at rv_QuotaKey n q) m).
    pose proof (count_if_nonneg (resv_at rv_SchedKey n d) m).
    pose proof (count_if_nonneg (resv_at rv_QuotaKey n q) m).
    rewrite overlay_step_spec by (unfold in_int32, max_int32 in *; lia).
    rewrite !count_if_insert by done. f_equal; lia.
Qed.

(** A read that loads [sn] first and the reservations later. *)
Lemma overlay_spec sn rs n d q :
  snap_wf sn -> Z.of_nat (size (pods sn)) + Z.of_nat (size rs) < max_int32 ->
  overlay sn rs n d q
  = (count_if (ref_at ref_SchedKey n d) (pods sn) + count_if (resv_at rv_SchedKey n d) rs,
     count_if (ref_at ref_QuotaKey n q) (pods sn) + count_if (resv_at rv_QuotaKey n q) rs).
Proof.
  intros [[Hq _] [Hd _]] Hs. unfold overlay, count. rewrite Hq, Hd.
  pose proof (count_if_size (ref_at ref_SchedKey n d) (pods sn)).
  pose proof (count_if_size (ref_at ref_QuotaKey n q) (pods sn)).
  apply (overlay_loop rs (map_to_list rs)); auto with go; try done; lia.
Qed.

Lemma effCount_spec s n d q :
  snap_wf (snap s) -> small s -> effCount s n d q = (domain_on s n d, quota_on s n q).
Proof. intros Hwf Hs. by apply overlay_spec. Qed.

Lemma EffCount_spec s n d q :
  snap_wf (snap s) -> small s ->
  EffCount (guard_of s) n d q = (domain_on s n d, quota_on s n q).
Proof. intros Hwf Hs. by apply overlay_spec. Qed.

Lemma quota_on_range s n q : small s -> 0 <= quota_on s n q < max_int32.
Proof.
  unfold small, quota_on. intros Hs.
  pose proof (count_if_size (ref_at ref_QuotaKey n q) (pods (snap s))).
  pose proof (count_if_size (resv_at rv_QuotaKey n q) (resv s)).
  pose proof (count_if_nonneg (ref_at ref_QuotaKey n q) (pods (snap s))).
  pose proof (count_if_nonneg (resv_at rv_QuotaKey n q) (resv s)). lia.
Qed.

Lemma domain_on_range s n d : small s -> 0 <= domain_on s n d < max_int32.
Proof.
  unfold small, domain_on. intros Hs.
  pose proof (count_if_size (ref_at ref_SchedKey n d) (pods (snap s))).
  pose proof (count_if_size (resv_at rv_SchedKey n d) (resv s)).
  pose proof (count_if_nonneg (ref_at ref_SchedKey n d) (pods (snap s))).
  pose proof (count_if_nonneg (resv_at rv_SchedKey n d) (resv s)). lia.
Qed.

(** ** The state machine

    One rule per locked operation.  [admits] is arbitrary: what a caller checks
    does not matter for the shape of the state. *)

Inductive sstep : spreadState -> spreadState -> Prop :=
| ss_reserve now uid ref admits ok s s' :
    TryReserveChecked now s uid ref admits = Val (ok, s') -> sstep s s'
| ss_unreserve uid s : sstep s (Unreserve s uid)
| ss_mark uid s : sstep s (MarkBound s uid)
| ss_release uid s : sstep s (releaseIfObserved s uid)
| ss_upsert uid ref s : fits (pods (snap s)) -> sstep s (upsertCount s uid ref)
| ss_remove uid s : fits (pods (snap s)) -> sstep s (removeCount s uid)
| ss_rebuild ps s : fits ps -> sstep s (rebuild s ps)
| ss_drop uid s : sstep s (SpreadState (snap s) (delete uid (resv s))).

Record state_wf (s : spreadState) : Prop := {
  sw_snap : snap_wf (snap s);
  sw_uid : forall uid r, resv s !! uid = Some r -> rv_UID r = uid;
}.

Definition reachable (s : spreadState) : Prop := rtc sstep newSpreadState s.

Lemma sstep_wf s s' : sstep s s' -> state_wf s -> state_wf s'.
Proof.
  intros Hst Hwf. pose proof (sw_snap _ Hwf) as Hw. pose proof (sw_uid _ Hwf) as Hu.
  destruct Hst as [now uid ref admits ok s s' Hr|uid s|uid s|uid s
    |uid ref s Hf|uid s Hf|ps s Hf|uid s].
  - unfold TryReserveChecked in Hr. destruct (resv s !! uid) eqn:E; [by injection Hr as <- <-|].
    destruct (admits (guard_of s)) as [[]|]; simpl in Hr; simplify_eq; [|done].
    split; simpl; [done|]. intros u r [[<- <-]|[_ ?]]%lookup_insert_Some; [done|eauto].
  - unfold Unreserve. destruct (resv s !! uid) as [r|] eqn:E; [|done].
    case_decide; [|done]. split; simpl; [done|]. intros u r' [_ ?]%lookup_delete_Some. eauto.
  - unfold MarkBound. destruct (resv s !! uid) as [r|] eqn:E; [|done].
    case_decide; [|done]. split; simpl; [done|].
    intros u r' [[<- <-]|[_ ?]]%lookup_insert_Some; [exact (Hu uid r E)|eauto].
  - unfold releaseIfObserved. destruct (resv s !! uid) as [r|] eqn:E; [|done].
    destruct (pods (snap s) !! uid); [|done]. case_decide; [|done].
    split; simpl; [done|]. intros u r' [_ ?]%lookup_delete_Some. eauto.
  - split; simpl; [|done]. rewrite clone_id. auto with go.
  - split; simpl; [|done]. rewrite clone_id. auto with go.
  - split; [by apply rebuild_wf|done].
  - split; simpl; [done|]. intros u r' [_ ?]%lookup_delete_Some. eauto.
Qed.

Lemma reachable_wf s : reachable s -> state_wf s.
Proof.
  intros H. unfold reachable in H.
  assert (state_wf newSpreadState) as H0 by (split; simpl; [auto with go|done]).
  revert H0. induction H; [done|]. intros. apply IHrtc. eapply sstep_wf; eauto.
Qed.

(** ** Reservation bookkeeping *)

Lemma ReservationCounts_loop (rs : gmap string reservation) l q :
  enumerates l rs -> fits rs ->
  map_get 0 (foldl (fun out '(_, r) =>
    <[rv_QuotaKey r := map_get 0 out (rv_QuotaKey r) ⊞ 1]> out) ∅ l) q
  = count_if (fun r => bool_decide (rv_QuotaKey r = q)) rs.
Proof.
  intros Hl Hf. revert q.
  apply (enumerates_ind (fun (out : gmap string Z) '(_, r) =>
      <[rv_QuotaKey r := map_get 0 out (rv_QuotaKey r) ⊞ 1]> out)
    (fun m out => fits m -> forall q,
      map_get 0 out q = count_if (fun r => bool_decide (rv_QuotaKey r = q)) m) ∅);
    [..|done|done].
  - intros _ q. rewrite count_if_empty. done.
  - intros m k r out Hk IH Hfit q. unfold fits in *. rewrite map_size_insert_None in Hfit by done.
    rewrite count_if_insert by done. unfold map_get in *.
    pose proof (count_if_size (fun r' => bool_decide (rv_QuotaKey r' = rv_QuotaKey r)) m).
    pose proof (count_if_nonneg (fun r' => bool_decide (rv_QuotaKey r' = rv_QuotaKey r)) m).
    destruct (decide (rv_QuotaKey r = q)) as [<-|Hne].
    + rewrite lookup_insert_eq, bool_decide_eq_true_2, IH by (done || lia). simpl. int_small. lia.
    + rewrite lookup_insert_ne, bool_decide_eq_false_2, IH by (done || lia). simpl. lia.
Qed.

Lemma quota_on_insert s n q uid r :
  resv s !! uid = None ->
  quota_on (SpreadState (snap s) (<[uid := r]> (resv s))) n q
  = quota_on s n q + b2z (resv_at rv_QuotaKey n q r).
Proof. intros Hu. unfold quota_on. simpl. rewrite count_if_insert by done. lia. Qed.

Lemma domain_on_insert s n d uid r :
  resv s !! uid = None ->
  domain_on (SpreadState (snap s) (<[uid := r]> (resv s))) n d
  = domain_on s n d + b2z (resv_at rv_SchedKey n d r).
Proof. intros Hu. unfold domain_on. simpl. rewrite count_if_insert by done. lia. Qed.

Lemma pods_snap_size s uid ref :
  fits (pods (snap s)) -> Z.of_nat (size (pods (snap (upsertCount s uid ref)))) <= max_int32.
Proof.
  unfold fits. intros Hf. unfold upsertCount. cbn [snap]. rewrite clone_id, pods_applyCount, map_size_insert.
  destruct (_ !! _); simpl; lia.
Qed.

(** A step adds at most one counted pod; a rebuild brings a count that fits. *)
Lemma sstep_size s s' : sstep s s' -> fits (pods (snap s)) -> state_wf s -> Z.of_nat (size (pods (snap s'))) <= max_int32.
Proof.
  intros Hst Hf Hw. assert (H0 : Z.of_nat (size (pods (snap s))) <= max_int32) by (unfold fits in Hf; lia).
  destruct Hst as [now uid ref admits ok s s' Hr|uid s|uid s|uid s|uid ref s _|uid s _|ps s Hps|uid s]; simpl.
  - unfold TryReserveChecked in Hr. destruct (resv s !! uid); [by injection Hr as <- <-|].
    by destruct (admits (guard_of s)) as [[]|]; simpl in Hr; simplify_eq.
  - unfold Unreserve. by repeat case_match.
  - unfold MarkBound. by repeat case_match.
  - unfold releaseIfObserved. by repeat case_match.
  - by apply pods_snap_size.
  - change (pods (snap (removeCount s uid))) with (pods (unapplyCount (clone (snap s)) uid)).
    rewrite clone_id, pods_unapplyCount, map_size_delete. destruct (_ !! _); simpl; lia.
  - destruct (rebuild_from_spec ps _ (enumerates_refl ps) Hps) as [_ ->]. unfold fits in Hps. lia.
  - done.
Qed.

(** ** Properties *)

(** C9: in every state reachable by the locked operations, the per-node
    counters of the snapshot equal, cell by cell, the number of counted pods on
    that node with that quota key (respectively scheduling key), and no row is
    empty and no cell is zero or negative. *)
Theorem reachable_counters_exact s n k :
  reachable s ->
  row_count (nodeQuota (snap s)) n k = count_if (ref_at ref_QuotaKey n k) (pods (snap s)) /\
  row_count (nodeDomain (snap s)) n k = count_if (ref_at ref_SchedKey n k) (pods (snap s)) /\
  canonical (nodeQuota (snap s)) /\ canonical (nodeDomain (snap s)).
Proof. intros Hr. by destruct (reachable_wf s Hr) as [[[Hq Cq] [Hd Cd]] _]. Qed.

Definition ex_ref : podRef := PodRef "q" "q/d" "n1".
Definition ex_state : spreadState :=
  removeCount (upsertCount (upsertCount newSpreadState "u1" ex_ref) "u2" ex_ref) "u1".

Lemma ex_state_reachable : reachable ex_state.
Proof.
  eapply rtc_l; [apply (ss_upsert "u1" ex_ref); vm_compute; reflexivity|].
  eapply rtc_l; [apply (ss_upsert "u2" ex_ref); vm_compute; reflexivity|].
  eapply rtc_l; [apply (ss_remove "u1"); vm_compute; reflexivity|]. apply rtc_refl.
Qed.

Lemma cell_range key (m : counters) (ps : gmap string podRef) n row k c :
  counts_exact key m ps -> Z.of_nat (size ps) <= max_int32 -> m !! n = Some row -> row !! k = Some c -> 1 <= c <= max_int32.
Proof.
  intros [Hc Hcan] Hs Hn Hk. destruct (Hcan n row Hn) as [_ Hp]. specialize (Hp k c Hk).
  assert (c = count_if (ref_at key n k) ps) as ->.
  { rewrite <- Hc. unfold row_count, map_get. by rewrite Hn, Hk. }
  pose proof (count_if_size (ref_at key n k) ps). lia.
Qed.

(** C26: the operations keep the state well typed: from a well-formed state whose pods fit int32, every operation leads
    to a well-formed state - each reservation is filed under its own UID, no row is empty - in which every stored
    counter is a positive int32, so no increment has wrapped. *)
Theorem operations_keep_types s s' :
  state_wf s -> fits (pods (snap s)) -> sstep s s' ->
  state_wf s' /\
  forall m, m = nodeQuota (snap s') \/ m = nodeDomain (snap s') ->
    forall n row, m !! n = Some row -> row <> ∅ /\ forall k c, row !! k = Some c -> 1 <= c <= max_int32.
Proof.
  intros Hw Hf Hst. pose proof (sstep_wf _ _ Hst Hw) as Hw'. split; [done|].
  assert (Hs : Z.of_nat (size (pods (snap s'))) <= max_int32) by exact (sstep_size _ _ Hst Hf Hw).
  destruct (sw_snap _ Hw') as [Hq Hd]. intros m [->| ->] n row Hn.
  - split; [by apply (ce_canonical _ _ _ Hq n row Hn)|]. intros k c Hk. exact (cell_range _ _ _ _ _ _ _ Hq Hs Hn Hk).
  - split; [by apply (ce_canonical _ _ _ Hd n row Hn)|]. intros k c Hk. exact (cell_range _ _ _ _ _ _ _ Hd Hs Hn Hk).
Qed.

Lemma operations_keep_types_witness :
  state_wf (upsertCount ex_state "u3" ex_ref) /\ row_count (nodeQuota (snap (upsertCount ex_state "u3" ex_ref))) "n1" "q" = 2.
Proof.
  split; [|vm_compute; reflexivity].
  apply (operations_keep_types ex_state); [apply reachable_wf, ex_state_reachable|vm_compute; reflexivity|].
  apply ss_upsert. vm_compute. reflexivity.
Defined.

Lemma reachable_counters_exact_witness :
  reachable ex_state /\ row_count (nodeQuota (snap ex_state)) "n1" "q" = 1 /\
  (row_count (nodeQuota (snap ex_state)) "n1" "q"
   = count_if (ref_at ref_QuotaKey "n1" "q") (pods (snap ex_state)) /\
   row_count (nodeDomain (snap ex_state)) "n1" "q"
   = count_if (ref_at ref_SchedKey "n1" "q") (pods (snap ex_state)) /\
   canonical (nodeQuota (snap ex_state)) /\ canonical (nodeDomain (snap ex_state))).
Proof.
  split; [apply ex_state_reachable|]. split; [vm_compute; reflexivity|].
  apply (reachable_counters_exact ex_state "n1" "q" ex_state_reachable).
Defined.

(** [rebuild] gives the same snapshot whatever order the map of counts is
    visited in, that snapshot holds exactly the given pods with exact counters,
    reservations are untouched, and rebuilding a drift-free state from its own
    pods changes nothing. *)
Theorem rebuild_order_independent s ps l :
  enumerates l ps -> fits ps ->
  rebuild s ps = SpreadState (rebuild_from l) (resv s) /\
  pods (snap (rebuild s ps)) = ps /\ snap_wf (snap (rebuild s ps)) /\
  resv (rebuild s ps) = resv s /\
  (state_wf s -> ps = pods (snap s) -> rebuild s ps = s).
Proof.
  intros Hl Hf. split_and!; [..|intros Hs ->].
  - unfold rebuild. f_equal. apply (rebuild_from_order _ _ ps); auto with go.
  - by apply rebuild_pods.
  - by apply rebuild_wf.
  - done.
  - destruct s as [sn rs]. unfold rebuild. f_equal.
    apply snap_wf_unique; [by apply (rebuild_wf (SpreadState sn rs))|apply Hs|].
    by apply (rebuild_pods (SpreadState sn rs)).
Qed.

Definition ex_pods : gmap string podRef :=
  <["u1" := ex_ref]> (<["u2" := PodRef "q" "q/e" "n2"]> ∅).

Lemma rebuild_order_independent_witness :
  rebuild newSpreadState ex_pods =
    SpreadState (rebuild_from (reverse (map_to_list ex_pods))) ∅ /\
  row_count (nodeQuota (snap (rebuild newSpreadState ex_pods))) "n2" "q" = 1.
Proof.
  split; [|vm_compute; reflexivity].
  apply (rebuild_order_independent newSpreadState ex_pods (reverse (map_to_list ex_pods))).
  - unfold enumerates. apply reverse_Permutation.
  - vm_compute. reflexivity.
Defined.

(** C25: below the int32 limit the effective count of a node, read by Filter or
    inside the Reserve critical section, is exactly the counted pods plus the
    live reservations on that node, for both keys, and it does not depend on the
    order the reservation map is visited in. *)
Theorem effCount_exact s n d q l :
  reachable s -> small s -> enumerates l (resv s) ->
  effCount s n d q = (domain_on s n d, quota_on s n q) /\
  EffCount (guard_of s) n d q = (domain_on s n d, quota_on s n q) /\
  (let '(quotaN, domainN) := count (snap s) n q d in
   foldl (fun acc '(_, r) => overlay_step n d q r acc) (domainN, quotaN) l)
  = (domain_on s n d, quota_on s n q).
Proof.
  intros Hr Hs Hl. destruct (reachable_wf s Hr) as [Hw _].
  split_and!; [by apply effCount_spec|by apply EffCount_spec|].
  destruct Hw as [[Hq _] [Hd _]]. unfold count. rewrite Hq, Hd. unfold small in Hs.
  pose proof (count_if_size (ref_at ref_SchedKey n d) (pods (snap s))).
  pose proof (count_if_size (ref_at ref_QuotaKey n q) (pods (snap s))).
  apply (overlay_loop (resv s)); auto with go; lia.
Qed.

Definition ex_state2 : spreadState :=
  SpreadState (snap ex_state)
    (<["u3" := Reservation "u3" "q" "q/d" "n1" resvReserved 5]> ∅).

Lemma effCount_exact_witness :
  effCount ex_state2 "n1" "q/d" "q" = (2, 2) /\
  effCount ex_state2 "n1" "q/d" "q" = (domain_on ex_state2 "n1" "q/d", quota_on ex_state2 "n1" "q").
Proof.
  split; [vm_compute; reflexivity|].
  apply (effCount_exact ex_state2 "n1" "q/d" "q" (map_to_list (resv ex_state2))).
  - eapply rtc_r; [apply ex_state_reachable|].
    apply (ss_reserve 5 "u3" ex_ref (fun _ => Val true) true). vm_compute. reflexivity.
  - vm_compute. reflexivity.
  - unfold enumerates. reflexivity.
Defined.

(** [TryReserve] is refused for a UID that already holds a reservation and
    when the check fails, without touching the state; when it succeeds the check
    held of the effective counts, and the only change is one more seat for the
    reserved node: exactly +1 for its own two keys and no change for any other
    node or key. *)
Theorem TryReserve_contract now s uid ref admits ok s' :
  reachable s -> small s ->
  TryReserve now s uid ref admits = Val (ok, s') ->
  let n := ref_NodeName ref in
  if ok : bool then
    resv s !! uid = None /\
    admits (domain_on s n (ref_SchedKey ref)) (quota_on s n (ref_QuotaKey ref)) = true /\
    snap s' = snap s /\ reservationPhase s' uid = Some resvReserved /\
    (forall m q, quota_on s' m q =
       quota_on s m q + (if decide (m = n /\ q = ref_QuotaKey ref) then 1 else 0)) /\
    (forall m d, domain_on s' m d =
       domain_on s m d + (if decide (m = n /\ d = ref_SchedKey ref) then 1 else 0))
  else s' = s.
Proof.
  intros Hr Hs H n. destruct (reachable_wf s Hr) as [Hw _].
  unfold TryReserve, TryReserveChecked in H.
  destruct (resv s !! uid) as [r|] eqn:Hu; [by injection H as <- <-|].
  rewrite EffCount_spec in H by done. simpl in H.
  destruct (admits _ _) eqn:Ha; injection H as <- <-; [|done].
  split_and!; [done..| |intros m q|intros m d].
  - unfold reservationPhase. simpl. by rewrite lookup_insert_eq.
  - rewrite quota_on_insert by done. f_equal. unfold resv_at, b2z. simpl.
    case_bool_decide; case_decide; naive_solver.
  - rewrite domain_on_insert by done. f_equal. unfold resv_at, b2z. simpl.
    case_bool_decide; case_decide; naive_solver.
Qed.

Definition ex_state3 : spreadState :=
  SpreadState (snap ex_state)
    (<["u9" := Reservation "u9" "q" "q/d" "n1" resvReserved 7]> ∅).

Lemma TryReserve_contract_witness :
  TryReserve 7 ex_state "u9" ex_ref (fun _ q => q + 1 <=? 2) = Val (true, ex_state3) /\
  quota_on ex_state3 "n1" "q" = quota_on ex_state "n1" "q" + 1.
Proof.
  assert (TryReserve 7 ex_state "u9" ex_ref (fun _ q => q + 1 <=? 2) = Val (true, ex_state3)) as H
    by (vm_compute; reflexivity).
  split; [exact H|].
  destruct (TryReserve_contract 7 ex_state "u9" ex_ref _ true ex_state3 ex_state_reachable
              ltac:(vm_compute; reflexivity) H) as (_ & _ & _ & _ & Hq & _).
  exact (Hq "n1" "q").
Defined.

(** A reservation whose binding was reported (phase BoundObs) survives every
    operation except the one that has seen the pod counted on the reserved node
    and the explicit drop of the delete event and the janitor; [Unreserve] frees
    a seat only while the phase is Reserved. *)
Theorem boundobs_release_verified s s' uid r :
  sstep s s' -> resv s !! uid = Some r -> rv_Phase r = resvBoundObs -> resv s' !! uid = None ->
  (exists ref, pods (snap s) !! uid = Some ref /\ ref_NodeName ref = rv_NodeName r) \/
  s' = SpreadState (snap s) (delete uid (resv s)).
Proof.
  intros Hst Hu Hp Hn. destruct Hst as [now u ref admits ok s s' Hr|u s|u s|u s
    |u ref s Hf|u s Hf|ps s Hf|u s]; simpl in *; try congruence.
  - unfold TryReserveChecked in Hr. destruct (resv s !! u) eqn:E; [congruence|].
    destruct (admits (guard_of s)) as [[]|]; simpl in Hr; simplify_eq.
    simpl in Hn. apply lookup_insert_None in Hn as [? _]. congruence.
  - unfold Unreserve in Hn. destruct (resv s !! u) as [r'|] eqn:E; [|congruence].
    case_decide; simpl in Hn; [|congruence].
    apply lookup_delete_None in Hn as [->|?]; congruence.
  - unfold MarkBound in Hn. destruct (resv s !! u) as [r'|] eqn:E; [|congruence].
    case_decide; simpl in Hn; [|congruence].
    apply lookup_insert_None in Hn as [? _]. congruence.
  - unfold releaseIfObserved in Hn |- *. destruct (resv s !! u) as [r'|] eqn:E; [|congruence].
    destruct (pods (snap s) !! u) as [ref|] eqn:Eu; [|congruence].
    case_decide; simpl in Hn; [|congruence].
    apply lookup_delete_None in Hn as [->|?]; [|congruence].
    left. exists ref. split; congruence.
  - apply lookup_delete_None in Hn as [->|?]; [by right|congruence].
Qed.

Definition ex_bound : spreadState :=
  SpreadState (applyCount emptySnapshot "u" ex_ref)
    (<["u" := Reservation "u" "q" "q/d" "n1" resvBoundObs 0]> ∅).

Lemma boundobs_release_verified_witness :
  (exists ref, pods (snap ex_bound) !! "u" = Some ref /\ ref_NodeName ref = "n1") \/
  releaseIfObserved ex_bound "u" = SpreadState (snap ex_bound) (delete "u" (resv ex_bound)).
Proof.
  apply (boundobs_release_verified ex_bound (releaseIfObserved ex_bound "u") "u"
           (Reservation "u" "q" "q/d" "n1" resvBoundObs 0)).
  - apply ss_release.
  - vm_compute. reflexivity.
  - reflexivity.
  - vm_compute. reflexivity.
Defined.
