(* ===== verification/Heap.v ===== *)
(** * The snapshot as a shared store (internal/spread/state.go, plugin.go)

    [State] treats a snapshot as a value.  Here its maps live at locations of a
    heap, as the Go maps do: [clone] allocates, the counters are updated in place,
    and a reader may hold the pointer of an old snapshot while newer ones are built.
    The theorem shows that this representation refines the values of [State], and,
    with a ghost bound on writes (the seal), that no published map is ever written. *)

From S2P Require Import Prelude State.

(** ** The heap *)

Abbreviation loc := positive.

(** A map object: of pod references, of counts, of pointers to count maps, or a
    set of strings; or a variable of type [bool]. *)
Inductive cell :=
| CPods (m : gmap string podRef)
| CRow (m : gmap string Z)
| CNodes (m : gmap string loc)
| CSet (m : gset string)
| CBool (b : bool).

Record heap := Heap { h_next : loc; h_cells : gmap loc cell }.
Definition empty_heap : heap := Heap 1 ∅.

(** Computations on the heap; [Panic] is a write to a nil map. *)
Definition hM (A : Type) : Type := heap -> go (A * heap).

#[export] Instance hM_ret : MRet hM := fun A a h => Val (a, h).
#[export] Instance hM_bind : MBind hM :=
  fun A B f m h => match m h with Val (a, h') => f a h' | Panic => Panic end.

(** The heap after an allocation, and after a write. *)
Definition grow (h : heap) (c : cell) : heap :=
  Heap (Pos.succ (h_next h)) (<[h_next h := c]> (h_cells h)).
Definition upd (h : heap) (l : loc) (c : cell) : heap := Heap (h_next h) (<[l := c]> (h_cells h)).

Definition make (c : cell) : hM loc := fun h => Val (h_next h, grow h c).

(** Reading a missing or nil map gives an empty one. *)
Definition pods_of_loc (h : heap) (l : loc) : gmap string podRef :=
  match h_cells h !! l with Some (CPods m) => m | _ => ∅ end.
Definition row_of_loc (h : heap) (l : loc) : gmap string Z :=
  match h_cells h !! l with Some (CRow m) => m | _ => ∅ end.
Definition nodes_of_loc (h : heap) (l : loc) : gmap string loc :=
  match h_cells h !! l with Some (CNodes m) => m | _ => ∅ end.
Definition set_of_loc (h : heap) (l : loc) : gset string :=
  match h_cells h !! l with Some (CSet m) => m | _ => ∅ end.

Definition load {A} (f : heap -> loc -> A) (l : loc) : hM A := fun h => Val (f h l, h).

(** A ghost bound: maps below the seal must not be written any more, and a write to
    one fails.  The program has no such bound, [unsealed] is its semantics; a run
    that returns under a higher seal has written, at any moment, only above it. *)
Class Seal := seal : loc.
Definition unsealed : Seal := 1%positive.

Section operations.
Context {sl : Seal}.

(** An update in place of the map at [l]. *)
Definition hstore (l : loc) (f : cell -> option cell) : hM unit := fun h =>
  if decide (l < seal)%positive then Panic
  else match h_cells h !! l ≫= f with
       | Some c => Val (tt, upd h l c)
       | None => Panic
       end.

Definition on_pods (f : gmap string podRef -> gmap string podRef) (c : cell) : option cell :=
  match c with CPods m => Some (CPods (f m)) | _ => None end.
Definition on_row (f : gmap string Z -> gmap string Z) (c : cell) : option cell :=
  match c with CRow m => Some (CRow (f m)) | _ => None end.
Definition on_nodes (f : gmap string loc -> gmap string loc) (c : cell) : option cell :=
  match c with CNodes m => Some (CNodes (f m)) | _ => None end.
Definition on_set (f : gset string -> gset string) (c : cell) : option cell :=
  match c with CSet m => Some (CSet (f m)) | _ => None end.

(** [for k, v := range m { body }] over an enumeration of the map. *)
Fixpoint range {A} (body : A -> hM unit) (l : list A) : hM unit :=
  match l with
  | [] => mret tt
  | x :: l' => body x ≫= fun _ => range body l'
  end.

(** ** state.go on the heap *)

Record hsnapshot := HSnap { hs_pods : loc; hs_nodeQuota : loc; hs_nodeDomain : loc }.

(** [cm := make(...); for k, v := range m { cm[k] = v }] *)
Definition copy_row (m : loc) : hM loc :=
  cm ← make (CRow ∅);
  row ← load row_of_loc m;
  _ ← range (fun '(k, v) => hstore cm (on_row <[k := v]>)) (map_to_list row);
  mret cm.

Definition copy_nodes (src dst : loc) : hM unit :=
  nm ← load nodes_of_loc src;
  range (fun '(n, m) => cm ← copy_row m; hstore dst (on_nodes <[n := cm]>)) (map_to_list nm).

(** [&snapshot{pods: make(...), nodeQuota: make(...), nodeDomain: make(...)}] *)
Definition hnew : hM hsnapshot :=
  cp ← make (CPods ∅); cq ← make (CNodes ∅); cd ← make (CNodes ∅); mret (HSnap cp cq cd).

Definition hclone (s : hsnapshot) : hM hsnapshot :=
  c ← hnew;
  ps ← load pods_of_loc (hs_pods s);
  _ ← range (fun '(k, v) => hstore (hs_pods c) (on_pods <[k := v]>)) (map_to_list ps);
  _ ← copy_nodes (hs_nodeQuota s) (hs_nodeQuota c);
  _ ← copy_nodes (hs_nodeDomain s) (hs_nodeDomain c);
  mret c.

Definition hincMap (m : loc) (outer inner : string) : hM unit :=
  nm ← load nodes_of_loc m;
  _ ← (match nm !! outer with
       | Some _ => mret tt
       | None => r ← make (CRow ∅); hstore m (on_nodes <[outer := r]>)
       end : hM unit);
  nm ← load nodes_of_loc m;
  match nm !! outer with
  | Some r => hstore r (on_row (fun row => <[inner := map_get 0 row inner ⊞ 1]> row))
  | None => fun _ => Panic
  end.

Definition hdecMap (m : loc) (outer inner : string) : hM unit :=
  nm ← load nodes_of_loc m;
  match nm !! outer with
  | None => mret tt
  | Some r =>
    row ← load row_of_loc r;
    if map_get 0 row inner <=? 1 then
      _ ← hstore r (on_row (delete inner));
      row ← load row_of_loc r;
      if decide ((row : gmap string Z) = ∅) then hstore m (on_nodes (delete outer)) else mret tt
    else hstore r (on_row (fun row => <[inner := map_get 0 row inner ⊟ 1]> row))
  end.

Definition hunapplyCount (s : hsnapshot) (uid : string) : hM unit :=
  ps ← load pods_of_loc (hs_pods s);
  match (ps : gmap string podRef) !! uid with
  | None => mret tt
  | Some old =>
    _ ← hstore (hs_pods s) (on_pods (delete uid));
    _ ← hdecMap (hs_nodeQuota s) (ref_NodeName old) (ref_QuotaKey old);
    hdecMap (hs_nodeDomain s) (ref_NodeName old) (ref_SchedKey old)
  end.

Definition happlyCount (s : hsnapshot) (uid : string) (ref : podRef) : hM unit :=
  ps ← load pods_of_loc (hs_pods s);
  _ ← (match (ps : gmap string podRef) !! uid with Some _ => hunapplyCount s uid | None => mret tt end);
  _ ← hstore (hs_pods s) (on_pods <[uid := ref]>);
  _ ← hincMap (hs_nodeQuota s) (ref_NodeName ref) (ref_QuotaKey ref);
  hincMap (hs_nodeDomain s) (ref_NodeName ref) (ref_SchedKey ref).

(** The operations on the published pointer: each returns the pointer it stores. *)
Inductive count_op :=
| op_upsert (uid : string) (ref : podRef)
| op_remove (uid : string)
| op_rebuild (ps : gmap string podRef).

Definition hrun_op (o : count_op) (s : hsnapshot) : hM hsnapshot :=
  match o with
  | op_upsert uid ref => next ← hclone s; _ ← happlyCount next uid ref; mret next
  | op_remove uid => next ← hclone s; _ ← hunapplyCount next uid; mret next
  | op_rebuild ps =>
    next ← hnew; _ ← range (fun '(uid, ref) => happlyCount next uid ref) (map_to_list ps); mret next
  end.

(** All the pointers published by a run, oldest first. *)
Fixpoint hrun (ops : list count_op) (s : hsnapshot) : hM (list hsnapshot) :=
  match ops with
  | [] => mret [s]
  | o :: ops => next ← hrun_op o s; rest ← hrun ops next; mret (s :: rest)
  end.

End operations.

(** The same run where each operation finds everything sealed that was allocated
    before it began, the published snapshots among it. *)
Fixpoint hrun_sealed (ops : list count_op) (s : hsnapshot) : hM (list hsnapshot) :=
  match ops with
  | [] => mret [s]
  | o :: ops =>
    next ← (fun h => hrun_op (sl := h_next h) o s h); rest ← hrun_sealed ops next; mret (s :: rest)
  end.

(** What a reader of the pointer sees: [snapshot.count] on the heap. *)
Definition hcount (h : heap) (s : hsnapshot) (node quotaKey schedKey : string) : Z * Z :=
  let one m key := match nodes_of_loc h m !! node with
                   | Some r => map_get 0 (row_of_loc h r) key
                   | None => 0
                   end in
  (one (hs_nodeQuota s) quotaKey, one (hs_nodeDomain s) schedKey).

(** ** Total correctness triples *)

(** [m] terminates on [h] without panic, in a state that satisfies [Q]. *)
Definition hspec {A} (m : hM A) (h : heap) (Q : A -> heap -> Prop) : Prop :=
  exists a h', m h = Val (a, h') /\ Q a h'.

Lemma hspec_ret {A} (a : A) h (Q : A -> heap -> Prop) : Q a h -> hspec (mret a) h Q.
Proof. intros HQ. by exists a, h. Qed.

Lemma hspec_bind {A B} (m : hM A) (f : A -> hM B) h Q :
  hspec m h (fun a h' => hspec (f a) h' Q) -> hspec (m ≫= f) h Q.
Proof.
  intros (a & h1 & Hm & b & h2 & Hf & HQ). exists b, h2. split; [|done].
  unfold mbind, hM_bind. by rewrite Hm.
Qed.

Lemma hspec_mono {A} (m : hM A) h (P Q : A -> heap -> Prop) :
  hspec m h P -> (forall a h', P a h' -> Q a h') -> hspec m h Q.
Proof. intros (a & h' & Hm & HP) HPQ. exists a, h'. auto. Qed.

Lemma hspec_load {A} (f : heap -> loc -> A) l h (Q : A -> heap -> Prop) : Q (f h l) h -> hspec (load f l) h Q.
Proof. intros HQ. by exists (f h l), h. Qed.

Lemma hspec_make c h (Q : loc -> heap -> Prop) :
  Q (h_next h) (grow h c) -> hspec (make c) h Q.
Proof. intros HQ. by eexists _, _. Qed.

Lemma hspec_store {sl : Seal} l f c c' h (Q : unit -> heap -> Prop) :
  h_cells h !! l = Some c -> (seal <= l)%positive -> f c = Some c' -> Q tt (upd h l c') -> hspec (hstore l f) h Q.
Proof.
  intros Hl Hs Hf HQ. exists tt, (upd h l c'). split; [|done]. unfold hstore.
  rewrite decide_False by lia. by rewrite Hl; simpl; rewrite Hf.
Qed.

(** One step of a program. *)
Ltac hstep := apply hspec_bind; first [apply hspec_make | apply hspec_load | idtac].
(** Use the triple [H] for the next command; what follows gets its postcondition. *)
Tactic Notation "hcall" uconstr(H) := eapply hspec_mono; [eapply H|]; cbv beta.

(** ** Footprints *)

(** From [h] to [h'] only locations of [F] and new ones have changed; [F'] is [F]
    with some of the new ones, all allocated. *)
Record ext (F : gset loc) (h : heap) (F' : gset loc) (h' : heap) : Prop := {
  ext_next : (h_next h <= h_next h')%positive;
  ext_frame : forall l, (l < h_next h)%positive -> l ∉ F -> h_cells h' !! l = h_cells h !! l;
  ext_new : forall l, l ∈ F' -> l ∈ F \/ (h_next h <= l)%positive;
  ext_below : forall l, l ∈ F' -> (l < h_next h')%positive;
}.

Definition below (F : gset loc) (h : heap) : Prop := forall l, l ∈ F -> (l < h_next h)%positive.

Lemma ext_refl F h : below F h -> ext F h F h.
Proof. intros Hb. split; auto. lia. Qed.

Lemma ext_trans F1 h1 F2 h2 F3 h3 : ext F1 h1 F2 h2 -> ext F2 h2 F3 h3 -> ext F1 h1 F3 h3.
Proof.
  intros [N1 Fr1 W1 B1] [N2 Fr2 W2 B2]. split; [lia| | |done].
  - intros l Hl Hn. rewrite Fr2; [by apply Fr1|lia|]. intros Hin. destruct (W1 l Hin); [done|lia].
  - intros l Hl. destruct (W2 l Hl) as [H2|H2]; [by apply W1|right; lia].
Qed.

(** A footprint that the computation does not own. *)
Lemma ext_keep F h F' h' G :
  ext F h F' h' -> below G h -> G ## F ->
  (forall l, l ∈ G -> h_cells h' !! l = h_cells h !! l) /\ G ## F' /\ below G h'.
Proof.
  intros [N Fr W B] HG Hd. split; [|split].
  - intros l Hl. apply Fr; [by apply HG|set_solver].
  - intros l Hl Hl'. destruct (W l Hl') as [?|?]; [set_solver|]. specialize (HG l Hl). lia.
  - intros l Hl. specialize (HG l Hl). lia.
Qed.

Lemma ext_union F h F' h' G :
  ext F h F' h' -> below G h -> ext (F ∪ G) h (F' ∪ G) h'.
Proof.
  intros [N Fr W B] HG. split; [done| | |].
  - intros l Hl Hn. apply Fr; [done|set_solver].
  - intros l [Hl|Hl]%elem_of_union; [destruct (W l Hl); [left; set_solver|by right]|left; set_solver].
  - intros l [Hl|Hl]%elem_of_union; [by apply B|]. specialize (HG l Hl). lia.
Qed.

Lemma ext_upd F h l c : below F h -> l ∈ F -> ext F h F (upd h l c).
Proof.
  intros Hb Hl. split; simpl; [lia| |auto|done].
  intros l' _ Hn. rewrite lookup_insert_ne; [done|]. intros ->. done.
Qed.

Lemma ext_make F h c :
  below F h -> ext F h (F ∪ {[h_next h]}) (grow h c).
Proof.
  intros Hb. split; simpl; [lia| | |].
  - intros l Hl _. rewrite lookup_insert_ne; [done|]. lia.
  - intros l [Hl|Hl]%elem_of_union; [by left|right]. set_solver by lia.
  - intros l [Hl|Hl]%elem_of_union; [specialize (Hb l Hl); lia|]. assert (l = h_next h) by set_solver. lia.
Qed.

(** What an operation may write: its footprint and what it allocates. *)
Definition writable {sl : Seal} (F : gset loc) (h : heap) : Prop :=
  (seal <= h_next h)%positive /\ forall l, l ∈ F -> (seal <= l)%positive.

Lemma writable_ext {sl : Seal} F h F' h' : writable F h -> ext F h F' h' -> writable F' h'.
Proof.
  intros [Hn HF] [N _ W _]. split; [lia|]. intros l Hl. destruct (W l Hl) as [Hl'|Hl']; [by apply HF|lia].
Qed.

Lemma writable_sub {sl : Seal} F F0 h : writable F h -> F0 ⊆ F -> writable F0 h.
Proof. intros [Hn HF] Hsub. split; [done|]. intros l Hl. apply HF. set_solver. Qed.

Lemma writable_unsealed F h : writable (sl := unsealed) F h.
Proof. split; [|intros l _]; apply Pos.le_1_l. Qed.

(** ** Representation predicates *)

(** [l] holds an outer map with contents [c], whose rows are at distinct locations
    of their own; all of it lies in [F]. *)
Definition nodes_at (h : heap) (l : loc) (c : counters) (F : gset loc) : Prop :=
  exists nm, h_cells h !! l = Some (CNodes nm) /\ l ∈ F /\
    (forall n1 n2 r, nm !! n1 = Some r -> nm !! n2 = Some r -> n1 = n2) /\
    forall n, match nm !! n with
              | Some r => r ∈ F /\ r <> l /\ exists row, h_cells h !! r = Some (CRow row) /\ c !! n = Some row
              | None => c !! n = None
              end.

Record snap_at (h : heap) (s : hsnapshot) (sn : snapshot) (F : gset loc) : Prop := {
  sa_below : below F h;
  sa_pods : h_cells h !! hs_pods s = Some (CPods (pods sn));
  sa_split : exists Fq Fd, nodes_at h (hs_nodeQuota s) (nodeQuota sn) Fq /\
    nodes_at h (hs_nodeDomain s) (nodeDomain sn) Fd /\
    Fq ## Fd /\ hs_pods s ∉ Fq /\ hs_pods s ∉ Fd /\ F = {[hs_pods s]} ∪ (Fq ∪ Fd);
}.

Lemma nodes_at_frame h h' l c F :
  nodes_at h l c F -> (forall x, x ∈ F -> h_cells h' !! x = h_cells h !! x) -> nodes_at h' l c F.
Proof.
  intros (nm & Hl & HF & Hinj & Hn) Hfr. exists nm. rewrite (Hfr l HF). split_and!; [done..|].
  intros n. specialize (Hn n). destruct (nm !! n) as [r|]; [|done].
  destruct Hn as (Hr & Hne & row & Hrow & Hc). rewrite (Hfr r Hr). eauto.
Qed.

Lemma snap_at_frame h h' s sn F :
  snap_at h s sn F -> (forall x, x ∈ F -> h_cells h' !! x = h_cells h !! x) -> below F h' -> snap_at h' s sn F.
Proof.
  intros [Hb Hp (Fq & Fd & Hq & Hd & Hdis & H1 & H2 & ->)] Hfr Hb'. split; [done| |].
  - rewrite Hfr; [done|set_solver].
  - exists Fq, Fd. split_and!; try done; eapply nodes_at_frame; try done; intros x Hx; apply Hfr; set_solver.
Qed.

(** In-place update of one row. *)
Lemma nodes_at_row h l nm c F n r row' :
  nodes_at h l c F -> h_cells h !! l = Some (CNodes nm) -> nm !! n = Some r ->
  nodes_at (upd h r (CRow row')) l (<[n := row']> c) F.
Proof.
  intros (nm' & Hl & HF & Hinj & Hn) Hl' Hr. assert (nm' = nm) as -> by congruence.
  pose proof (Hn n) as Hnn. rewrite Hr in Hnn. destruct Hnn as (HrF & Hrl & row0 & Hrow0 & Hc0).
  exists nm. split_and!; [simpl; by rewrite lookup_insert_ne|done|done|].
  intros n'. specialize (Hn n'). destruct (nm !! n') as [r'|] eqn:Hn'.
  - destruct Hn as (Hr'F & Hr'l & row1 & Hrow1 & Hc1). split; [done|]. split; [done|]. simpl.
    destruct (decide (n = n')) as [<-|Hne].
    + simplify_eq. exists row'. by rewrite !lookup_insert_eq.
    + exists row1. rewrite !lookup_insert_ne; [done|done|]. intros <-. by apply Hne, (Hinj n n' r).
  - rewrite lookup_insert_ne; [done|]. intros <-. congruence.
Qed.

(** A new key with a row from outside the footprint. *)
Lemma nodes_at_insert h l nm c F n r row :
  nodes_at h l c F -> h_cells h !! l = Some (CNodes nm) ->
  h_cells h !! r = Some (CRow row) -> r ∉ F ->
  nodes_at (upd h l (CNodes (<[n := r]> nm))) l (<[n := row]> c) (F ∪ {[r]}).
Proof.
  intros (nm' & Hl & HF & Hinj & Hn) Hl' Hr HrF. assert (nm' = nm) as -> by congruence.
  assert (Hne : l <> r) by (intros <-; congruence).
  exists (<[n := r]> nm). split_and!; [simpl; by rewrite lookup_insert_eq|set_solver| |].
  - intros n1 n2 r0 [[<- <-]|[Hn1 H1]]%lookup_insert_Some [[<- H2]|[Hn2 H2]]%lookup_insert_Some;
      try done; try (by eapply Hinj).
    + specialize (Hn n2). rewrite H2 in Hn. by destruct Hn.
    + subst r0. specialize (Hn n1). rewrite H1 in Hn. by destruct Hn.
  - intros n'. simpl. destruct (decide (n = n')) as [<-|Hne'].
    + rewrite !lookup_insert_eq. split; [set_solver|]. split; [done|]. exists row.
      by rewrite lookup_insert_ne.
    + rewrite !lookup_insert_ne by done. specialize (Hn n'). destruct (nm !! n') as [r'|]; [|done].
      destruct Hn as (? & ? & row1 & ? & ?). split; [set_solver|]. split; [done|].
      exists row1. by rewrite lookup_insert_ne.
Qed.

Lemma nodes_at_delete h l nm c F n :
  nodes_at h l c F -> h_cells h !! l = Some (CNodes nm) ->
  nodes_at (upd h l (CNodes (delete n nm))) l (delete n c) F.
Proof.
  intros (nm' & Hl & HF & Hinj & Hn) Hl'. assert (nm' = nm) as -> by congruence.
  exists (delete n nm). split_and!; [simpl; by rewrite lookup_insert_eq|done| |].
  - intros n1 n2 r [_ H1]%lookup_delete_Some [_ H2]%lookup_delete_Some. by eapply Hinj.
  - intros n'. simpl. destruct (decide (n = n')) as [<-|Hne']; [by rewrite !lookup_delete_eq|].
    rewrite !lookup_delete_ne by done. specialize (Hn n'). destruct (nm !! n') as [r'|]; [|done].
    destruct Hn as (? & ? & row1 & ? & ?). split; [done|]. split; [done|].
    exists row1. by rewrite lookup_insert_ne.
Qed.

(** ** Loops *)

Lemma hspec_range {A} (body : A -> hM unit) (I : list A -> heap -> Prop) l h :
  I [] h ->
  (forall pre x rest h', l = pre ++ x :: rest -> I pre h' ->
     hspec (body x) h' (fun _ h'' => I (pre ++ [x]) h'')) ->
  hspec (range body l) h (fun _ h' => I l h').
Proof.
  intros H0 HS.
  enough (Hg : forall rest pre h', l = pre ++ rest -> I pre h' -> hspec (range body rest) h' (fun _ h'' => I l h''))
    by (by apply (Hg l [])).
  induction rest as [|x rest IH]; intros pre h' Hl HI; simpl.
  - apply hspec_ret. by rewrite Hl, app_nil_r.
  - apply hspec_bind. apply (hspec_mono _ _ (fun _ h'' => I (pre ++ [x]) h'')); [by eapply HS|]. intros _ h'' HI'.
    apply (IH (pre ++ [x])); [by rewrite <- app_assoc|done].
Qed.

(** The map a loop of assignments builds. *)
Definition fill {V W} (g : V -> W) (l : list (string * V)) : gmap string W :=
  foldl (fun m '(k, v) => <[k := g v]> m) ∅ l.

Lemma fill_snoc {V W} (g : V -> W) l k v : fill g (l ++ [(k, v)]) = <[k := g v]> (fill g l).
Proof. unfold fill. by rewrite foldl_app. Qed.

Lemma fill_all {V W} (g : V -> W) (m : gmap string V) : fill g (map_to_list m) = g <$> m.
Proof.
  apply (enumerates_ind (fun acc '(k, v) => <[k := g v]> acc) (fun m b => b = g <$> m));
    [by rewrite fmap_empty| |apply enumerates_refl].
  intros m' b k v _ ->. by rewrite fmap_insert.
Qed.

Lemma upd_grow h c c' : upd (grow h c) (h_next h) c' = grow h c'.
Proof. unfold upd, grow. simpl. by rewrite insert_insert_eq. Qed.

Section specs.
Context {sl : Seal}.

Lemma copy_row_spec m row h :
  h_cells h !! m = Some (CRow row) -> (m < h_next h)%positive -> (seal <= h_next h)%positive ->
  hspec (copy_row m) h (fun cm h' => cm = h_next h /\ h' = grow h (CRow row)).
Proof.
  intros Hm Hlt Hw. unfold copy_row. hstep. hstep.
  assert (row_of_loc (grow h (CRow ∅)) m = row) as ->
    by (unfold row_of_loc; simpl; rewrite lookup_insert_ne by lia; by rewrite Hm).
  apply hspec_bind.
  hcall (hspec_range _ (fun pre h' => h' = grow h (CRow (fill id pre)))); [done| |].
  - intros pre [k v] rest h' _ ->. eapply hspec_store; [by simpl; rewrite lookup_insert_eq|done|done|].
    by rewrite upd_grow, fill_snoc.
  - intros _ h' ->. apply hspec_ret. by rewrite fill_all, map_fmap_id.
Qed.

(** ** The maps of a snapshot *)

(** What an operation on the map at [l] does to its contents [c]. *)
Definition nodes_post (l : loc) (c : counters) (F : gset loc) (h : heap) : unit -> heap -> Prop :=
  fun _ h' => exists F', nodes_at h' l c F' /\ ext F h F' h'.

Lemma nodes_at_rows h l c F nm :
  nodes_at h l c F -> h_cells h !! l = Some (CNodes nm) -> row_of_loc h <$> nm = c.
Proof.
  intros (nm' & Hl & _ & _ & Hn) Hl'. assert (nm' = nm) as -> by congruence.
  apply map_eq. intros n. rewrite lookup_fmap. specialize (Hn n). destruct (nm !! n) as [r|]; simpl; [|done].
  destruct Hn as (_ & _ & row & Hrow & ->). unfold row_of_loc. by rewrite Hrow.
Qed.

Lemma nodes_at_load h l c F : nodes_at h l c F -> exists nm, h_cells h !! l = Some (CNodes nm) /\ nodes_of_loc h l = nm.
Proof. intros (nm & Hl & _). exists nm. split; [done|]. unfold nodes_of_loc. by rewrite Hl. Qed.

Lemma nodes_at_in h l c F : nodes_at h l c F -> l ∈ F.
Proof. by intros (? & _ & ? & _). Qed.

Lemma nodes_at_grow h l c F cl : nodes_at h l c F -> below F h -> nodes_at (grow h cl) l c F.
Proof.
  intros Hn Hb. apply (nodes_at_frame h); [done|]. intros x Hx. simpl. rewrite lookup_insert_ne; [done|].
  specialize (Hb x Hx). lia.
Qed.

Lemma below_ext F h F' h' : ext F h F' h' -> below F' h'.
Proof. by intros [_ _ _ ?]. Qed.

(** A row allocated just before it is stored under [n]. *)
Lemma store_fresh_row l n row c F h :
  nodes_at h l c F -> below F h -> writable F h ->
  hspec (hstore l (on_nodes <[n := h_next h]>)) (grow h (CRow row))
        (fun _ h' => (exists nm, h_cells h' !! l = Some (CNodes (<[n := h_next h]> nm))) /\
                     nodes_at h' l (<[n := row]> c) (F ∪ {[h_next h]}) /\ ext F h (F ∪ {[h_next h]}) h').
Proof.
  intros Hn Hb [_ Hw]. pose proof (nodes_at_grow _ _ _ _ (CRow row) Hn Hb) as Hg.
  destruct (nodes_at_load _ _ _ _ Hg) as (nm & Hl & _).
  eapply hspec_store; [done|by apply Hw, (nodes_at_in _ _ _ _ Hn)|done|]. split; [|split].
  - exists nm. simpl. by rewrite lookup_insert_eq.
  - eapply nodes_at_insert; [done..| |]; [simpl; by rewrite lookup_insert_eq|].
    intros Hin. specialize (Hb _ Hin). lia.
  - eapply ext_trans; [by apply ext_make|]. apply ext_upd; [by eapply below_ext, ext_make|].
    destruct Hn as (? & _ & Hin & _). set_solver.
Qed.

Lemma copy_nodes_spec src dst c G F h :
  nodes_at h src c G -> below G h -> G ## F ->
  nodes_at h dst ∅ F -> below F h -> writable F h ->
  hspec (copy_nodes src dst) h (nodes_post dst c F h).
Proof.
  intros Hsrc HG Hdis Hdst HF Hw. destruct (nodes_at_load _ _ _ _ Hsrc) as (nm & Hl & Hnm).
  unfold copy_nodes. hstep. rewrite Hnm.
  hcall (hspec_range _ (fun pre => nodes_post dst (fill (row_of_loc h) pre) F h tt)).
  - exists F. split; [done|]. by apply ext_refl.
  - intros pre [n m] rest h1 Hpre (F1 & Hd1 & He1).
    assert (Hin : nm !! n = Some m) by (apply elem_of_map_to_list; rewrite Hpre; set_solver).
    destruct Hsrc as (nm' & Hl' & _ & _ & Hn). assert (nm' = nm) as -> by congruence.
    specialize (Hn n). rewrite Hin in Hn. destruct Hn as (HmG & _ & row & Hrow & _).
    assert (Hrow1 : h_cells h1 !! m = Some (CRow row)).
    { rewrite (ext_frame _ _ _ _ He1); [done|by apply HG|set_solver]. }
    pose proof (writable_ext _ _ _ _ Hw He1) as Hw1.
    apply hspec_bind. hcall copy_row_spec; [done| |by destruct Hw1|].
    + pose proof (ext_next _ _ _ _ He1). specialize (HG m HmG). lia.
    + intros cm h2 [-> ->]. hcall store_fresh_row; [done|by eapply below_ext|done|].
      intros [] h3 (_ & Hn3 & He3). eexists. rewrite fill_snoc. split; [|by eapply ext_trans].
      unfold row_of_loc at 1. by rewrite Hrow.
  - intros [] h' (F' & Hd & He). rewrite fill_all, (nodes_at_rows _ _ _ _ _ Hsrc Hl) in Hd.
    by exists F'.
Qed.

Lemma hincMap_spec l c F outer inner h :
  nodes_at h l c F -> below F h -> writable F h ->
  hspec (hincMap l outer inner) h (nodes_post l (incMap c outer inner) F h).
Proof.
  intros Hn Hb Hw. unfold hincMap. hstep. apply hspec_bind.
  apply (hspec_mono _ _ (fun _ h1 => exists F1 nm r c1, nodes_at h1 l c1 F1 /\ ext F h F1 h1 /\
    h_cells h1 !! l = Some (CNodes nm) /\ nm !! outer = Some r /\ c1 = <[outer := default ∅ (c !! outer)]> c)).
  - destruct (nodes_at_load _ _ _ _ Hn) as (nm & Hl & ->). destruct (nm !! outer) as [r|] eqn:Hr.
    + apply hspec_ret. exists F, nm, r, c. split_and!; [done|by apply ext_refl|done|done|].
      destruct Hn as (nm' & Hl' & _ & _ & Hn). assert (nm' = nm) as -> by congruence.
      specialize (Hn outer). rewrite Hr in Hn. destruct Hn as (_ & _ & row & _ & Hc).
      rewrite Hc. simpl. by rewrite insert_id.
    + hstep. hcall store_fresh_row; [done|done|done|]. intros [] h1 ((nm1 & Hl1) & Hn1 & He1).
      eexists _, _, (h_next h), _. split_and!; [done|done|done|by rewrite lookup_insert_eq|].
      destruct Hn as (nm' & Hl' & _ & _ & Hn). assert (nm' = nm) as -> by congruence.
      specialize (Hn outer). rewrite Hr in Hn. by rewrite Hn.
  - intros [] h1 (F1 & nm & r & c1 & Hn1 & He1 & Hl1 & Hr & ->). hstep.
    assert (nodes_of_loc h1 l = nm) as -> by (unfold nodes_of_loc; by rewrite Hl1). rewrite Hr.
    pose proof Hn1 as (nm' & Hl' & _ & _ & Hrow). assert (nm' = nm) as -> by congruence.
    specialize (Hrow outer). rewrite Hr in Hrow. destruct Hrow as (HrF & _ & row & Hrow & Hc).
    rewrite lookup_insert_eq in Hc. injection Hc as Hc.
    eapply hspec_store; [done|by apply (proj2 (writable_ext _ _ _ _ Hw He1))|done|]. exists F1. split.
    + unfold incMap. rewrite Hc. rewrite Hc in Hn1. rewrite <- (insert_insert_eq c outer _ row).
      by eapply nodes_at_row.
    + eapply ext_trans; [done|]. apply ext_upd; [by eapply below_ext|done].
Qed.

Lemma hdecMap_spec l c F outer inner h :
  nodes_at h l c F -> below F h -> writable F h ->
  hspec (hdecMap l outer inner) h (nodes_post l (decMap c outer inner) F h).
Proof.
  intros Hn Hb [_ Hw]. pose proof Hn as (nm & Hl & HlF & _ & Hrow). specialize (Hrow outer).
  unfold hdecMap, decMap. hstep.
  assert (nodes_of_loc h l = nm) as -> by (unfold nodes_of_loc; by rewrite Hl).
  destruct (nm !! outer) as [r|] eqn:Hr.
  2: { rewrite Hrow. apply hspec_ret. exists F. split; [done|by apply ext_refl]. }
  destruct Hrow as (HrF & Hrl & row & Hrow & ->). hstep.
  assert (row_of_loc h r = row) as -> by (unfold row_of_loc; by rewrite Hrow).
  destruct (map_get 0 row inner <=? 1).
  - apply hspec_bind. eapply hspec_store; [done|by apply Hw|done|]. hstep.
    assert (row_of_loc (upd h r (CRow (delete inner row))) r = delete inner row) as ->
      by (unfold row_of_loc, upd; simpl; by rewrite lookup_insert_eq).
    pose proof (nodes_at_row _ _ _ _ _ _ _ (delete inner row) Hn Hl Hr) as Hn1.
    assert (He1 : ext F h F (upd h r (CRow (delete inner row)))) by by apply ext_upd.
    destruct (decide (delete inner row = ∅)).
    + assert (Hl1 : h_cells (upd h r (CRow (delete inner row))) !! l = Some (CNodes nm))
        by (simpl; by rewrite lookup_insert_ne).
      eapply hspec_store; [done|by apply Hw|done|]. exists F. split.
      * rewrite <- (delete_insert_eq c outer (delete inner row)). by eapply nodes_at_delete.
      * eapply ext_trans; [done|]. by apply ext_upd.
    + apply hspec_ret. by exists F.
  - eapply hspec_store; [done|by apply Hw|done|]. exists F. split; [by eapply nodes_at_row|by apply ext_upd].
Qed.

(** ** Snapshots *)

Definition snap_post (s : hsnapshot) (sn : snapshot) (F : gset loc) (h : heap) : unit -> heap -> Prop :=
  fun _ h' => exists F', snap_at h' s sn F' /\ ext F h F' h'.

Lemma snap_seq (m : hM unit) (k : hM unit) s sn1 sn2 F h :
  writable F h -> hspec m h (snap_post s sn1 F h) ->
  (forall h1 F1, snap_at h1 s sn1 F1 -> ext F h F1 h1 -> writable F1 h1 -> hspec k h1 (snap_post s sn2 F1 h1)) ->
  hspec (m ≫= fun _ => k) h (snap_post s sn2 F h).
Proof.
  intros Hw Hm Hk. apply hspec_bind. hcall Hm. intros [] h1 (F1 & Hs1 & He1).
  hcall (Hk h1 F1 Hs1 He1 (writable_ext _ _ _ _ Hw He1)). intros [] h2 (F2 & Hs2 & He2). exists F2. split; [done|by eapply ext_trans].
Qed.

Lemma store_pods s sn F h f :
  snap_at h s sn F -> writable F h ->
  hspec (hstore (hs_pods s) (on_pods f)) h (snap_post s (Snapshot (f (pods sn)) (nodeQuota sn) (nodeDomain sn)) F h).
Proof.
  intros [Hb Hp (Fq & Fd & Hq & Hd & Hdis & H1 & H2 & ->)] [_ Hw].
  eapply hspec_store; [done|apply Hw; set_solver|done|]. eexists. split; [|by apply ext_upd; [done|set_solver]].
  split; [done|simpl; by rewrite lookup_insert_eq|]. exists Fq, Fd.
  split_and!; try done; (eapply nodes_at_frame; [done|]); intros x Hx; simpl;
    rewrite lookup_insert_ne; try done; intros <-; done.
Qed.

(** An operation on one of the outer maps leaves the rest of the snapshot alone. *)
Lemma lift_quota (op : loc -> hM unit) c s sn F h :
  (forall F0, F0 ⊆ F -> below F0 h -> writable F0 h -> nodes_at h (hs_nodeQuota s) (nodeQuota sn) F0 ->
     hspec (op (hs_nodeQuota s)) h (nodes_post (hs_nodeQuota s) c F0 h)) ->
  snap_at h s sn F -> writable F h ->
  hspec (op (hs_nodeQuota s)) h (snap_post s (Snapshot (pods sn) c (nodeDomain sn)) F h).
Proof.
  intros Hop [Hb Hp (Fq & Fd & Hq & Hd & Hdis & H1 & H2 & ->)] Hw.
  assert (Hbq : below Fq h) by (intros x Hx; apply Hb; set_solver).
  assert (Hbr : below ({[hs_pods s]} ∪ Fd) h) by (intros x Hx; apply Hb; set_solver).
  hcall (Hop Fq); [set_solver|done|eapply writable_sub; [done|set_solver]|done|]. intros [] h' (Fq' & Hq' & He).
  destruct (ext_keep _ _ _ _ ({[hs_pods s]} ∪ Fd) He) as (Hfr & Hdis' & Hbr'); [done|set_solver|].
  pose proof (ext_union _ _ _ _ _ He Hbr) as Hu.
  exists (Fq' ∪ ({[hs_pods s]} ∪ Fd)). split.
  - split; [by eapply below_ext|rewrite Hfr; [done|set_solver]|].
    exists Fq', Fd. split_and!; [done| |set_solver|set_solver|done|set_solver].
    eapply nodes_at_frame; [done|]. intros x Hx. apply Hfr. set_solver.
  - replace ({[hs_pods s]} ∪ (Fq ∪ Fd)) with (Fq ∪ ({[hs_pods s]} ∪ Fd)) by set_solver. done.
Qed.

Lemma lift_domain (op : loc -> hM unit) c s sn F h :
  (forall F0, F0 ⊆ F -> below F0 h -> writable F0 h -> nodes_at h (hs_nodeDomain s) (nodeDomain sn) F0 ->
     hspec (op (hs_nodeDomain s)) h (nodes_post (hs_nodeDomain s) c F0 h)) ->
  snap_at h s sn F -> writable F h ->
  hspec (op (hs_nodeDomain s)) h (snap_post s (Snapshot (pods sn) (nodeQuota sn) c) F h).
Proof.
  intros Hop [Hb Hp (Fq & Fd & Hq & Hd & Hdis & H1 & H2 & ->)] Hw.
  assert (Hbd : below Fd h) by (intros x Hx; apply Hb; set_solver).
  assert (Hbr : below ({[hs_pods s]} ∪ Fq) h) by (intros x Hx; apply Hb; set_solver).
  hcall (Hop Fd); [set_solver|done|eapply writable_sub; [done|set_solver]|done|]. intros [] h' (Fd' & Hd' & He).
  destruct (ext_keep _ _ _ _ ({[hs_pods s]} ∪ Fq) He) as (Hfr & Hdis' & Hbr'); [done|set_solver|].
  pose proof (ext_union _ _ _ _ _ He Hbr) as Hu.
  exists (Fd' ∪ ({[hs_pods s]} ∪ Fq)). split.
  - split; [by eapply below_ext|rewrite Hfr; [done|set_solver]|].
    exists Fq, Fd'. split_and!; [|done|set_solver|done|set_solver|set_solver].
    eapply nodes_at_frame; [done|]. intros x Hx. apply Hfr. set_solver.
  - replace ({[hs_pods s]} ∪ (Fq ∪ Fd)) with (Fd ∪ ({[hs_pods s]} ∪ Fq)) by set_solver. done.
Qed.

Lemma snap_at_pods h s sn F : snap_at h s sn F -> pods_of_loc h (hs_pods s) = pods sn.
Proof. intros [_ Hp _]. unfold pods_of_loc. by rewrite Hp. Qed.

Lemma snap_refl s sn F h : snap_at h s sn F -> snap_post s sn F h tt h.
Proof. intros Hs. exists F. split; [done|]. apply ext_refl, Hs. Qed.

Lemma hunapplyCount_spec s sn F uid h :
  snap_at h s sn F -> writable F h -> hspec (hunapplyCount s uid) h (snap_post s (unapplyCount sn uid) F h).
Proof.
  intros Hs Hw. unfold hunapplyCount, unapplyCount. hstep. rewrite (snap_at_pods _ _ _ _ Hs).
  destruct (pods sn !! uid) as [old|]; [|by apply hspec_ret, snap_refl].
  eapply snap_seq; [done|by apply store_pods|]. intros h1 F1 Hs1 He1 Hw1.
  eapply snap_seq; [done| |].
  - eapply (lift_quota (fun l => hdecMap l (ref_NodeName old) (ref_QuotaKey old))); [|done|done]. intros F0 _ Hb0 Hw0 Hn0. by apply hdecMap_spec.
  - intros h2 F2 Hs2 He2 Hw2. simpl in Hs2. eapply (lift_domain (fun l => hdecMap l (ref_NodeName old) (ref_SchedKey old)) _ _ (Snapshot _ _ _)); [|done|done].
    intros F0 _ Hb0 Hw0 Hn0. by apply hdecMap_spec.
Qed.

Lemma happlyCount_spec s sn F uid ref h :
  snap_at h s sn F -> writable F h -> hspec (happlyCount s uid ref) h (snap_post s (applyCount sn uid ref) F h).
Proof.
  intros Hs Hw. unfold happlyCount, applyCount. hstep. rewrite (snap_at_pods _ _ _ _ Hs).
  eapply (snap_seq _ _ _ (match pods sn !! uid with Some _ => unapplyCount sn uid | None => sn end)); [done| |].
  { destruct (pods sn !! uid); [by apply hunapplyCount_spec|by apply hspec_ret, snap_refl]. }
  intros h1 F1 Hs1 He1 Hw1.
  eapply snap_seq; [done|by apply store_pods|]. intros h2 F2 Hs2 He2 Hw2.
  eapply snap_seq; [done| |].
  - eapply (lift_quota (fun l => hincMap l (ref_NodeName ref) (ref_QuotaKey ref))); [|done|done]. intros F0 _ Hb0 Hw0 Hn0. by apply hincMap_spec.
  - intros h3 F3 Hs3 He3 Hw3. simpl in Hs3. eapply (lift_domain (fun l => hincMap l (ref_NodeName ref) (ref_SchedKey ref)) _ _ (Snapshot _ _ _)); [|done|done].
    intros F0 _ Hb0 Hw0 Hn0. by apply hincMap_spec.
Qed.

Lemma nodes_at_new h l : h_cells h !! l = Some (CNodes ∅) -> nodes_at h l ∅ {[l]}.
Proof.
  intros Hl. exists ∅. split_and!; [done|set_solver|by intros n1 n2 r Hr; rewrite lookup_empty in Hr|].
  intros n. by rewrite !lookup_empty.
Qed.

Definition fresh_snap (sn : snapshot) (h : heap) : hsnapshot -> heap -> Prop :=
  fun s h' => exists F', snap_at h' s sn F' /\ ext ∅ h F' h'.

(** A new snapshot owns only new locations. *)
Lemma hnew_spec h : hspec hnew h (fresh_snap emptySnapshot h).
Proof.
  unfold hnew. do 3 hstep. apply hspec_ret. set (p := h_next h).
  exists ({[p]} ∪ ({[Pos.succ p]} ∪ {[Pos.succ (Pos.succ p)]})).
  assert (Hne : p <> Pos.succ p /\ p <> Pos.succ (Pos.succ p) /\ Pos.succ p <> Pos.succ (Pos.succ p)) by lia.
  assert (Hin : forall l : loc, l ∈ ({[p]} ∪ ({[Pos.succ p]} ∪ {[Pos.succ (Pos.succ p)]}) : gset loc) ->
                  (p <= l < Pos.succ (Pos.succ (Pos.succ p)))%positive).
  { intros l. rewrite !elem_of_union, !elem_of_singleton. intros [->|[->| ->]]; lia. }
  split; [split|split]; simpl; fold p.
  - intros l Hl. simpl. fold p. by apply Hin.
  - rewrite !lookup_insert_ne by lia. by rewrite lookup_insert_eq.
  - exists {[Pos.succ p]}, {[Pos.succ (Pos.succ p)]}.
    split_and!; [| |set_solver by lia|set_solver by lia|set_solver by lia|done]; apply nodes_at_new; simpl; fold p.
    + rewrite lookup_insert_ne by lia. by rewrite lookup_insert_eq.
    + by rewrite lookup_insert_eq.
  - lia.
  - intros l Hl _. rewrite !lookup_insert_ne; [done|lia..].
  - intros l Hl. right. by apply Hin.
  - intros l Hl. by apply Hin.
Qed.

(** A map of a snapshot that a computation does not own. *)
Lemma source_kept (q : hsnapshot -> loc) (f : snapshot -> counters) s sn F h F1 F' h' :
  (q = hs_nodeQuota /\ f = nodeQuota \/ q = hs_nodeDomain /\ f = nodeDomain) ->
  snap_at h s sn F -> F ## F1 -> ext F1 h F' h' ->
  exists G, nodes_at h' (q s) (f sn) G /\ below G h' /\ G ## F'.
Proof.
  intros Hqf Hs Hdis He.
  destruct (ext_keep _ _ _ _ F He) as (Hfr & Hdis' & Hb); [apply Hs|done|].
  destruct (snap_at_frame _ _ _ _ _ Hs Hfr Hb) as [_ _ (Fq & Fd & Hq & Hd & _ & _ & _ & ->)].
  destruct Hqf as [[-> ->]|[-> ->]]; [exists Fq|exists Fd]; (split; [done|]);
    (split; [intros x Hx; apply Hb; set_solver|set_solver]).
Qed.

Lemma clone_fill s c sn F F1 h1 :
  snap_at h1 s sn F -> snap_at h1 c emptySnapshot F1 -> F ## F1 -> writable F1 h1 ->
  hspec (range (fun '(k, v) => hstore (hs_pods c) (on_pods <[k := v]>)) (map_to_list (pods sn)) ≫= fun _ =>
    copy_nodes (hs_nodeQuota s) (hs_nodeQuota c) ≫= fun _ => copy_nodes (hs_nodeDomain s) (hs_nodeDomain c))
    h1 (snap_post c sn F1 h1).
Proof.
  intros Hs Hc1 Hdis Hw. eapply (snap_seq _ _ _ (Snapshot (pods sn) ∅ ∅)); [done| |].
  - hcall (hspec_range _ (fun pre => snap_post c (Snapshot (fill id pre) ∅ ∅) F1 h1 tt)).
    + by apply (snap_refl _ emptySnapshot).
    + intros pre [k v] rest h' _ (F' & Hc & He). hcall store_pods; [done|by eapply writable_ext|].
      intros [] h'' (F'' & Hc' & He'). exists F''. rewrite fill_snoc. split; [done|by eapply ext_trans].
    + intros [] h' Hp. by rewrite fill_all, map_fmap_id in Hp.
  - intros h2 F2 Hc2 He2 Hw2. eapply (snap_seq _ _ _ (Snapshot (pods sn) (nodeQuota sn) ∅)); [done| |].
    + eapply (lift_quota (fun l => copy_nodes (hs_nodeQuota s) l) _ _ (Snapshot _ _ _)); [|done|done].
      intros F0 HF0 Hb0 Hw0 Hn0.
      destruct (source_kept hs_nodeQuota nodeQuota _ _ _ _ _ _ _ (or_introl (conj eq_refl eq_refl)) Hs Hdis He2)
        as (G & HG & HGb & HGd).
      eapply copy_nodes_spec; [done..|set_solver|done|done|done].
    + intros h3 F3 Hc3 He3 Hw3. pose proof (ext_trans _ _ _ _ _ _ He2 He3) as He.
      destruct (source_kept hs_nodeDomain nodeDomain _ _ _ _ _ _ _ (or_intror (conj eq_refl eq_refl)) Hs Hdis He)
        as (G & HG & HGb & HGd).
      destruct sn as [ps nq nd]. eapply (lift_domain (fun l => copy_nodes (hs_nodeDomain s) l) _ _ (Snapshot _ _ _)); [|done|done].
      intros F0 HF0 Hb0 Hw0 Hn0. eapply copy_nodes_spec; [done..|set_solver|done|done|done].
Qed.

Lemma fresh_writable F h h' : (seal <= h_next h)%positive -> ext ∅ h F h' -> writable F h'.
Proof. intros Hw. apply writable_ext. split; [done|]. intros l Hl. set_solver. Qed.

(** The clone is a new snapshot with the contents of the old one. *)
Lemma hclone_spec s sn F h :
  snap_at h s sn F -> (seal <= h_next h)%positive -> hspec (hclone s) h (fresh_snap sn h).
Proof.
  intros Hs Hw. unfold hclone. apply hspec_bind. hcall hnew_spec. intros c h1 (F1 & Hc1 & He1).
  destruct (ext_keep _ _ _ _ F He1) as (Hfr & Hdis & Hb); [apply Hs|set_solver|].
  pose proof (snap_at_frame _ _ _ _ _ Hs Hfr Hb) as Hs1.
  hstep. rewrite (snap_at_pods _ _ _ _ Hs1).
  destruct (clone_fill _ _ _ _ _ _ Hs1 Hc1 Hdis (fresh_writable _ _ _ Hw He1)) as ([] & h2 & Hrun & F2 & Hc2 & He2).
  exists c, h2. split; [|exists F2; split; [done|by eapply ext_trans]].
  revert Hrun. unfold mbind, hM_bind. destruct (range _ _ h1) as [[[] h3]|]; [|done].
  destruct (copy_nodes _ _ h3) as [[[] h4]|]; [|done]. by intros ->.
Qed.

(** ** The published pointer *)

Definition run_op (o : count_op) (s : spreadState) : spreadState :=
  match o with
  | op_upsert uid ref => upsertCount s uid ref
  | op_remove uid => removeCount s uid
  | op_rebuild ps => rebuild s ps
  end.

(** The values of [State] after each prefix of the operations. *)
Fixpoint run_states (ops : list count_op) (s : spreadState) : list spreadState :=
  s :: match ops with [] => [] | o :: ops => run_states ops (run_op o s) end.

Lemma fresh_then (m : hM hsnapshot) (k : hsnapshot -> hM unit) sn1 sn2 h :
  (seal <= h_next h)%positive -> hspec m h (fresh_snap sn1 h) ->
  (forall s h1 F1, snap_at h1 s sn1 F1 -> writable F1 h1 -> hspec (k s) h1 (snap_post s sn2 F1 h1)) ->
  hspec (s ← m; _ ← k s; mret s) h (fresh_snap sn2 h).
Proof.
  intros Hw Hm Hk. apply hspec_bind. hcall Hm. intros s h1 (F1 & Hs1 & He1).
  apply hspec_bind. hcall (Hk s h1 F1 Hs1 (fresh_writable _ _ _ Hw He1)). intros [] h2 (F2 & Hs2 & He2).
  apply hspec_ret. exists F2. split; [done|by eapply ext_trans].
Qed.

Lemma hrun_op_spec o s t F h :
  snap_at h s (snap t) F -> (seal <= h_next h)%positive -> hspec (hrun_op o s) h (fresh_snap (snap (run_op o t)) h).
Proof.
  intros Hs Hw. destruct o as [uid ref|uid|ps]; simpl.
  - rewrite clone_id. eapply (fresh_then _ (fun next => happlyCount next uid ref)); [done|by eapply hclone_spec|]. intros. by apply happlyCount_spec.
  - rewrite clone_id. eapply (fresh_then _ (fun next => hunapplyCount next uid)); [done|by eapply hclone_spec|]. intros. by apply hunapplyCount_spec.
  - eapply (fresh_then hnew (fun next => range (fun '(uid, ref) => happlyCount next uid ref) (map_to_list ps)));
      [done|apply hnew_spec|]. intros c h1 F1 Hc Hwc.
    hcall (hspec_range _ (fun pre => snap_post c (rebuild_from pre) F1 h1 tt)).
    + by apply snap_refl.
    + intros pre [uid ref] rest h' _ (F' & Hc' & He'). hcall happlyCount_spec; [done|by eapply writable_ext|].
      intros [] h'' (F'' & Hc'' & He''). exists F''. split; [|by eapply ext_trans].
      unfold rebuild_from. by rewrite foldl_app.
    + by intros [] h'.
Qed.

End specs.

(** ** The seal does not change a run that returns *)

Definition hle {A} (m1 m2 : hM A) : Prop := forall h x, m1 h = Val x -> m2 h = Val x.

Lemma hle_refl {A} (m : hM A) : hle m m.
Proof. by intros h x. Qed.

Lemma hle_bind {A B} (m1 m2 : hM A) (f1 f2 : A -> hM B) :
  hle m1 m2 -> (forall a, hle (f1 a) (f2 a)) -> hle (m1 ≫= f1) (m2 ≫= f2).
Proof.
  intros Hm Hf h x. unfold mbind, hM_bind. destruct (m1 h) as [[a h1]|] eqn:E; [|done].
  rewrite (Hm _ _ E). apply Hf.
Qed.

Lemma hle_range {A} (b1 b2 : A -> hM unit) l : (forall a, hle (b1 a) (b2 a)) -> hle (range b1 l) (range b2 l).
Proof. intros Hb. induction l; simpl; [apply hle_refl|by apply hle_bind]. Qed.

Lemma hle_store sl l f : hle (hstore (sl := sl) l f) (hstore (sl := unsealed) l f).
Proof.
  intros h x. unfold hstore. rewrite (decide_False (P := (l < @seal unsealed)%positive)) by (unfold seal, unsealed; lia).
  by destruct (decide _).
Qed.

Ltac hle := repeat first
  [ apply hle_refl | apply hle_store | apply hle_bind; [|intros ?] | apply hle_range; intros ? | case_match ].

Lemma hle_run_op sl o s : hle (hrun_op (sl := sl) o s) (hrun_op (sl := unsealed) o s).
Proof.
  unfold hrun_op, happlyCount, hunapplyCount, hclone, copy_nodes, copy_row, hincMap, hdecMap. hle.
Qed.

Lemma hle_run ops : forall s, hle (hrun_sealed ops s) (hrun (sl := unsealed) ops s).
Proof.
  induction ops as [|o ops IH]; intros s; simpl; [apply hle_refl|]. apply hle_bind.
  - intros h x. apply hle_run_op.
  - intros s'. apply hle_bind; [apply IH|]. intros ?. apply hle_refl.
Qed.

#[export] Existing Instance unsealed.

(** What a snapshot pointer must denote for a reader. *)
Definition denotes (h : heap) (p : hsnapshot) (t : spreadState) : Prop :=
  pods_of_loc h (hs_pods p) = pods (snap t) /\
  forall node quotaKey schedKey, hcount h p node quotaKey schedKey = count (snap t) node quotaKey schedKey.

Lemma nodes_at_count h l c F n k :
  nodes_at h l c F ->
  match nodes_of_loc h l !! n with Some r => map_get 0 (row_of_loc h r) k | None => 0 end = row_count c n k.
Proof.
  intros (nm & Hl & _ & _ & Hn). unfold nodes_of_loc, row_count. rewrite Hl. specialize (Hn n).
  destruct (nm !! n) as [r|]; [|by rewrite Hn].
  destruct Hn as (_ & _ & row & Hrow & ->). unfold row_of_loc. by rewrite Hrow.
Qed.

Lemma snap_at_denotes h s t F : snap_at h s (snap t) F -> denotes h s t.
Proof.
  intros Hs. split; [by eapply snap_at_pods|]. intros node qk sk.
  destruct Hs as [_ _ (Fq & Fd & Hq & Hd & _)]. unfold hcount, count. cbv zeta.
  by rewrite (nodes_at_count _ _ _ _ _ _ Hq), (nodes_at_count _ _ _ _ _ _ Hd).
Qed.

Lemma hrun_spec ops : forall s t F h,
  snap_at h s (snap t) F ->
  hspec (hrun_sealed ops s) h (fun ptrs h' =>
    Forall2 (fun p t => exists Fp, snap_at h' p (snap t) Fp) ptrs (run_states ops t) /\
    exists F', ext ∅ h F' h').
Proof.
  induction ops as [|o ops IH]; intros s t F h Hs; simpl.
  - apply hspec_ret. split; [by repeat constructor; exists F|]. exists ∅. apply ext_refl. intros l Hl. set_solver.
  - apply hspec_bind. hcall (hrun_op_spec (sl := h_next h)); [done|done|]. intros s1 h1 (F1 & Hs1 & He1).
    apply hspec_bind. hcall IH; [done|]. intros ptrs h2 (Hptrs & F2 & He2). apply hspec_ret.
    assert (He : ext ∅ h F2 h2).
    { destruct He1 as [N1 Fr1 _ _], He2 as [N2 Fr2 W2 B2]. split; [lia| | |done].
      - intros l Hl Hn. rewrite Fr2; [by apply Fr1|lia|set_solver].
      - intros l Hl. destruct (W2 l Hl); [set_solver|right; lia]. }
    split; [|by exists F2]. constructor; [|done]. exists F.
    destruct (ext_keep _ _ _ _ F He) as (Hfr & _ & Hb); [apply Hs|set_solver|].
    by eapply snap_at_frame.
Qed.

(** C7: the snapshot maps are heap objects that clone copies and the counters update in place; for every sequence
    of upsertCount, removeCount and rebuild the run does not panic, and at its end each pointer that was ever
    published still denotes, map by map and count by count, the value the abstract state had when it was published.
    The run is the same when every operation finds all maps sealed that existed before it began: not even in the
    middle of an operation is a published map written, so a reader without the lock never sees a later update. *)
Theorem published_snapshots_immutable ops :
  exists s0 h0 ptrs h, hnew empty_heap = Val (s0, h0) /\ hrun ops s0 h0 = Val (ptrs, h) /\
    hrun_sealed ops s0 h0 = Val (ptrs, h) /\ Forall2 (denotes h) ptrs (run_states ops newSpreadState).
Proof.
  destruct (hnew_spec empty_heap) as (s0 & h0 & Hnew & F0 & Hs0 & _).
  destruct (hrun_spec ops s0 newSpreadState F0 h0 Hs0) as (ptrs & h & Hrun & Hall & _).
  exists s0, h0, ptrs, h. split_and!; [done|by apply hle_run|done|]. eapply Forall2_impl; [done|].
  intros p t [Fp Hp]. by eapply snap_at_denotes.
Qed.

(** ** CycleState data (plugin.go) *)

(** The same map on fresh cells; a set of strings this time. *)
Definition copy_set (m : loc) : hM loc :=
  cm ← make (CSet ∅);
  ks ← load set_of_loc m;
  _ ← range (fun k => hstore cm (on_set (fun s => {[k]} ∪ s))) (elements ks);
  mret cm.

(** [preFilterState] with its policy pointer and its three maps by reference. *)
Record hpreFilterState := HPreFilterState {
  hpf_quotaKey : string;
  hpf_schedKey : string;
  hpf_policy : option loc;
  hpf_domainSet : loc;
  hpf_minCount : Z;
  hpf_effDomain : loc;
  hpf_effQuota : loc;
}.

(** [preFilterState.Clone]: the struct is copied, then each map is rebuilt. *)
Definition preFilterState_Clone (s : hpreFilterState) : hM hpreFilterState :=
  ds ← copy_set (hpf_domainSet s);
  ed ← copy_row (hpf_effDomain s);
  eq ← copy_row (hpf_effQuota s);
  mret (HPreFilterState (hpf_quotaKey s) (hpf_schedKey s) (hpf_policy s) ds (hpf_minCount s) ed eq).

Record hpreScoreState := HPreScoreState { hps_skip : bool; hps_cmin : Z; hps_cmax : Z }.
Definition preScoreState_Clone (s : hpreScoreState) : hpreScoreState :=
  HPreScoreState (hps_skip s) (hps_cmin s) (hps_cmax s).

(** The values the maps of a state hold. *)
Definition pf_holds (h : heap) (s : hpreFilterState) (dom : gset string) (ed eq : gmap string Z) : Prop :=
  h_cells h !! hpf_domainSet s = Some (CSet dom) /\
  h_cells h !! hpf_effDomain s = Some (CRow ed) /\ h_cells h !! hpf_effQuota s = Some (CRow eq).

Definition pf_below (h : heap) (s : hpreFilterState) : Prop :=
  (hpf_domainSet s < h_next h /\ hpf_effDomain s < h_next h /\ hpf_effQuota s < h_next h)%positive.

Lemma copy_set_spec m ks h :
  h_cells h !! m = Some (CSet ks) -> (m < h_next h)%positive ->
  hspec (copy_set m) h (fun cm h' => cm = h_next h /\ h' = grow h (CSet ks)).
Proof.
  intros Hm Hlt. unfold copy_set. hstep. hstep.
  assert (set_of_loc (grow h (CSet ∅)) m = ks) as ->
    by (unfold set_of_loc; simpl; rewrite lookup_insert_ne by lia; by rewrite Hm).
  apply hspec_bind.
  hcall (hspec_range _ (fun pre h' => h' = grow h (CSet (list_to_set pre)))); [done| |].
  - intros pre k rest h' _ ->. eapply hspec_store; [by simpl; rewrite lookup_insert_eq|apply Pos.le_1_l|done|].
    rewrite upd_grow. do 2 f_equal. set_solver.
  - intros [] h' ->. apply hspec_ret. by rewrite list_to_set_elements_L.
Qed.

Definition pf_locs (s : hpreFilterState) : list loc := [hpf_domainSet s; hpf_effDomain s; hpf_effQuota s].

Lemma pf_holds_upd h s dom ed eq l c :
  l ∉ pf_locs s -> pf_holds h s dom ed eq -> pf_holds (upd h l c) s dom ed eq.
Proof.
  unfold pf_locs, pf_holds, upd. rewrite !not_elem_of_cons. intros (H1 & H2 & H3 & _) Hh. simpl.
  by rewrite !lookup_insert_ne.
Qed.

(** PreFilterState.Clone gives a state with the same keys, counts, sets and the same policy pointer whose three
    maps are new objects: after the clone, whatever either holder writes into its own maps, the other still reads the
    values of the moment of the clone. *)
Theorem preFilterState_Clone_independent h s dom ed eq :
  pf_below h s -> pf_holds h s dom ed eq ->
  hspec (preFilterState_Clone s) h (fun c h' =>
    (hpf_quotaKey c, hpf_schedKey c, hpf_policy c, hpf_minCount c) =
      (hpf_quotaKey s, hpf_schedKey s, hpf_policy s, hpf_minCount s) /\
    pf_holds h' s dom ed eq /\ pf_holds h' c dom ed eq /\ NoDup (pf_locs c) /\
    (forall l cl, l ∈ pf_locs c -> pf_holds (upd h' l cl) s dom ed eq) /\
    (forall l cl, l ∈ pf_locs s -> pf_holds (upd h' l cl) c dom ed eq)).
Proof.
  intros (Hb1 & Hb2 & Hb3) (H1 & H2 & H3). unfold preFilterState_Clone.
  apply hspec_bind. hcall copy_set_spec; [done..|]. intros c1 h1 [-> ->].
  apply hspec_bind. hcall copy_row_spec; [|simpl; lia|apply Pos.le_1_l|].
  { simpl. rewrite lookup_insert_ne by lia. done. }
  intros c2 h2 [-> ->]. apply hspec_bind. hcall copy_row_spec; [|simpl; lia|apply Pos.le_1_l|].
  { simpl. rewrite !lookup_insert_ne by lia. done. }
  intros c3 h3 [-> ->]. apply hspec_ret. simpl. set (n := h_next h) in *.
  match goal with |- _ /\ pf_holds ?h' s _ _ _ /\ pf_holds _ ?c _ _ _ /\ _ =>
    assert (Hs : pf_holds h' s dom ed eq); [|assert (Hc : pf_holds h' c dom ed eq)] end.
  - unfold pf_holds. simpl. fold n. rewrite !lookup_insert_ne by lia. done.
  - unfold pf_holds. simpl. fold n. rewrite lookup_insert_eq. rewrite !lookup_insert_ne by lia.
    rewrite lookup_insert_eq. rewrite lookup_insert_ne by lia. by rewrite lookup_insert_eq.
  - split_and!; [done..| | |].
    + unfold pf_locs. simpl. rewrite !NoDup_cons, !not_elem_of_cons. split_and!; try apply not_elem_of_nil; try lia. apply NoDup_nil_2.
    + intros l cl Hl. apply pf_holds_upd; [|done]. unfold pf_locs in *. simpl in Hl.
      rewrite !not_elem_of_cons. rewrite !elem_of_cons in Hl.
      destruct Hl as [->|[->|[->|Hl%elem_of_nil]]]; [| | |done]; split_and!; try apply not_elem_of_nil; lia.
    + intros l cl Hl. apply pf_holds_upd; [|done]. unfold pf_locs in *. simpl.
      rewrite !not_elem_of_cons. rewrite !elem_of_cons in Hl.
      destruct Hl as [->|[->|[->|Hl%elem_of_nil]]]; [| | |done]; split_and!; try apply not_elem_of_nil; lia.
Qed.

Lemma preFilterState_Clone_independent_witness :
  let h := Heap 4 (<[1%positive := CSet {["n1"]}]> (<[2%positive := CRow {["n1" := 2]}]> {[3%positive := CRow {["n1" := 1]}]})) in
  let s := HPreFilterState "q" "s" None 1 2 2 3 in
  exists c h', preFilterState_Clone s h = Val (c, h') /\ pf_holds h' c {["n1"]} {["n1" := 2]} {["n1" := 1]}.
Proof.
  cbv zeta.
  destruct (preFilterState_Clone_independent
    (Heap 4 (<[1%positive := CSet {["n1"]}]> (<[2%positive := CRow {["n1" := 2]}]> {[3%positive := CRow {["n1" := 1]}]})))
    (HPreFilterState "q" "s" None 1 2 2 3) {["n1"]} {["n1" := 2]} {["n1" := 1]})
    as (c & h' & Hrun & _ & _ & Hc & _); [unfold pf_below; simpl; lia|by split_and!|].
  by exists c, h'.
Defined.
