(* ===== verification/Keys.v ===== *)
(** * Service keys and the scheduling-domain hash (internal/spread/keys.go)

    [QuotaKey], [SchedKey], the canonical [domainSpec] of a pod and its
    [DomainHash], and [PodRefFor].  The hash is computed, not assumed: the
    canonical form is rendered to JSON and hashed with SHA-256.

    Lengths: [sortReqs] is exact up to 12 requirements per term (and beyond that
    whenever no two requirements tie), [sortTols] and [sortTermSlice] up to 20
    elements; see [GoSort]. *)

From S2P Require Import Prelude GoSort GoStd Kube State.

(** ** Keys *)

Definition QuotaKey (namespace schedulerName labelKey labelValue : string) : string :=
  namespace +:+ "/" +:+ schedulerName +:+ "/" +:+ labelKey +:+ "=" +:+ labelValue.

Definition SchedKey (quotaKey domainHash : string) : string := quotaKey +:+ "/" +:+ domainHash.

Definition HashChars : Z := 12.

(** ** The canonical form *)

Record normRequirement := NormRequirement {
  nr_Key : string;
  nr_Operator : string;
  nr_Values : list string;
}.

Record normToleration := NormToleration {
  nt_Key : string;
  nt_Operator : string;
  nt_Value : string;
  nt_Effect : string;
  nt_TolerationSeconds : option Z;
}.

(** [ds_RequiredAffinity] is [None] for a nil slice (no affinity) and [Some []]
    for the empty one.  [AddedAffinity] is never set and, being [omitempty],
    never printed. *)
Record domainSpec := DomainSpec {
  ds_NodeSelector : gmap string string;
  ds_RequiredAffinity : option (list (list normRequirement));
  ds_Tolerations : list normToleration;
}.

#[export] Instance normRequirement_eq_dec : EqDecision normRequirement.
Proof. solve_decision. Defined.
#[export] Instance normToleration_eq_dec : EqDecision normToleration.
Proof. solve_decision. Defined.

(** *** [json.Marshal] of the canonical types *)

Definition marshal_req (r : normRequirement) : string :=
  json_object ([("key", json_string (nr_Key r)); ("operator", json_string (nr_Operator r))] ++
    match nr_Values r with
    | [] => []
    | vs => [("values", json_array (json_string <$> vs))]
    end).

Definition marshal_reqs (t : list normRequirement) : string := json_array (marshal_req <$> t).

Definition marshal_tol (t : normToleration) : string :=
  json_object ([("key", json_string (nt_Key t)); ("operator", json_string (nt_Operator t));
                ("value", json_string (nt_Value t)); ("effect", json_string (nt_Effect t))] ++
    match nt_TolerationSeconds t with
    | None => []
    | Some n => [("tolerationSeconds", pretty n)]
    end).

(** The [omitempty] field: absent when there are no tolerations. *)
Definition tols_field (ts : list normToleration) : list (string * string) :=
  match ts with [] => [] | _ => [("tolerations", json_array (marshal_tol <$> ts))] end.

Definition marshal_spec (d : domainSpec) : string :=
  json_object ([("nodeSelector", json_string_map (ds_NodeSelector d));
                ("requiredAffinity",
                  match ds_RequiredAffinity d with
                  | None => "null"
                  | Some ts => json_array (marshal_reqs <$> ts)
                  end)] ++
    tols_field (ds_Tolerations d)).

(** *** Sorting *)

Definition sortedCopy (vs : list string) : list string :=
  match vs with [] => [] | _ => sort_strings vs end.

Definition joinValues (vs : list string) : string := strings_Join vs (String nul "").

Definition req_less (a b : normRequirement) : bool :=
  if decide (nr_Key a <> nr_Key b) then str_ltb (nr_Key a) (nr_Key b)
  else if decide (nr_Operator a <> nr_Operator b) then str_ltb (nr_Operator a) (nr_Operator b)
  else str_ltb (joinValues (nr_Values a)) (joinValues (nr_Values b)).

(** [less] reads the slice being sorted. *)
Definition sortReqs (reqs : list normRequirement) : list normRequirement :=
  insertion_sort (less_live req_less) reqs.

(** [less] reads [canonical], which is filled before the sort and not permuted
    along with the slice. *)
Definition sortTermSlice (terms : list (list normRequirement)) : list (list normRequirement) :=
  let canonical := marshal_reqs <$> terms in
  SliceStable (less_captured str_ltb canonical) terms.

Definition sortTols (tols : list normToleration) : list normToleration :=
  let canonical := marshal_tol <$> tols in
  SliceStable (less_captured str_ltb canonical) tols.

(** *** [DomainHash] *)

Definition norm_req (r : NodeSelectorRequirement) : normRequirement :=
  NormRequirement (req_Key r) (req_Operator r) (sortedCopy (req_Values r)).

(** One iteration of the loop over the terms. *)
Definition norm_term (term : NodeSelectorTerm) : list normRequirement :=
  let reqs := (norm_req <$> MatchExpressions term) ++ (norm_req <$> MatchFields term) in
  match reqs with
  | [] => []
  | _ => sortReqs reqs
  end.

Definition required_terms (spec : PodSpec) : option (list NodeSelectorTerm) :=
  match spec_Affinity spec with
  | Some (MkAffinity (Some (MkNodeAffinity (Some sel)))) => Some (NodeSelectorTerms sel)
  | _ => None
  end.

Definition norm_tol (t : Toleration) : normToleration :=
  NormToleration (tol_Key t) (tol_Operator t) (tol_Value t) (tol_Effect t)
                 (tol_TolerationSeconds t).

Definition domain_spec (spec : PodSpec) : domainSpec :=
  DomainSpec (default ∅ (spec_NodeSelector spec))
             ((fun terms => sortTermSlice (norm_term <$> terms)) <$> required_terms spec)
             (sortTols (norm_tol <$> spec_Tolerations spec)).

(** [json.Marshal] of a [domainSpec] has no failing case: the error branch of the
    source is unreachable. *)
Definition DomainHash (pod : Pod) : string := sha12 (marshal_spec (domain_spec (pod_Spec pod))).

Definition PodRefFor (pod : Pod) (schedulerName serviceLabelKey : string) : res podRef :=
  match pod_Labels pod !! serviceLabelKey with
  | None =>
    Err ("pod " +:+ pod_Namespace pod +:+ "/" +:+ pod_Name pod +:+
         " misses required service label " +:+ fmt_q serviceLabelKey)
  | Some value =>
    let quota := QuotaKey (pod_Namespace pod) schedulerName serviceLabelKey value in
    Ok (PodRef quota (SchedKey quota (DomainHash pod)) (spec_NodeName (pod_Spec pod)))
  end.

(** ** Lemmas *)

Definition str_le : relation string := String.le.

Definition req_le : relation normRequirement :=
  lex nr_Key String.le (lex nr_Operator String.le
    (fun a b => String.le (joinValues (nr_Values a)) (joinValues (nr_Values b)))).

#[export] Instance joined_le_dec : RelDecision
  (fun a b => String.le (joinValues (nr_Values a)) (joinValues (nr_Values b))).
Proof. intros a b. apply _. Defined.
#[export] Instance joined_le_trans : Transitive
  (fun a b => String.le (joinValues (nr_Values a)) (joinValues (nr_Values b))).
Proof. intros a b c. apply transitivity. Qed.
#[export] Instance joined_le_total : Total
  (fun a b => String.le (joinValues (nr_Values a)) (joinValues (nr_Values b))).
Proof. intros a b. apply (total String.le). Qed.

#[export] Instance req_le_dec : RelDecision req_le.
Proof. apply _. Defined.
#[export] Instance req_le_trans : Transitive req_le.
Proof. apply _. Qed.
#[export] Instance req_le_total : Total req_le.
Proof. apply _. Qed.

Lemma lex_neq {A B} (f : A -> B) R1 R2 x y : f x <> f y -> lex f R1 R2 x y <-> R1 (f x) (f y).
Proof. unfold lex. tauto. Qed.

Lemma lex_eq {A B} (f : A -> B) R1 R2 x y : f x = f y -> lex f R1 R2 x y <-> R2 x y.
Proof. unfold lex. tauto. Qed.

Lemma req_less_le a b : req_less a b = bool_decide (~ req_le b a).
Proof.
  unfold req_less, req_le. rewrite !str_ltb_le.
  case_decide as Hk; [|case_decide as Ho];
    apply bool_decide_ext.
  - rewrite lex_neq by congruence. done.
  - rewrite lex_eq, lex_neq by congruence. done.
  - rewrite lex_eq, lex_eq by congruence. done.
Qed.

(** The requirements of a term can be told apart by what [sortReqs] compares. *)
Definition distinguishable (l : list normRequirement) : Prop :=
  forall x y, x ∈ l -> y ∈ l -> req_le x y -> req_le y x -> x = y.

Definition normed (term : NodeSelectorTerm) : list normRequirement :=
  norm_req <$> (MatchExpressions term ++ MatchFields term).

Lemma norm_term_normed term : norm_term term = sortReqs (normed term).
Proof. unfold norm_term, normed. rewrite <- fmap_app. by destruct (norm_req <$> _). Qed.

(** Same requirements in any order, each with its values in any order. *)
Definition term_equiv (t1 t2 : NodeSelectorTerm) : Prop :=
  normed t1 ≡ₚ normed t2 /\ distinguishable (normed t1).

Lemma norm_term_equiv t1 t2 : term_equiv t1 t2 -> norm_term t1 = norm_term t2.
Proof.
  intros [Hp Hd]. rewrite !norm_term_normed.
  apply (insertion_sort_canonical req_less req_le req_less_le); done.
Qed.

Lemma norm_req_values k o vs vs' :
  vs ≡ₚ vs' -> norm_req (Requirement k o vs) = norm_req (Requirement k o vs').
Proof.
  intros Hp. unfold norm_req. simpl. f_equal. unfold sortedCopy.
  destruct vs as [|v vs].
  - apply Permutation_nil_l in Hp. by subst.
  - destruct vs' as [|v' vs']; [by apply Permutation_nil_r in Hp|]. by apply sort_strings_canonical.
Qed.

(** The marshalled list of sorted tolerations (terms) is a function of the
    marshalled elements. *)
Lemma marshal_sortTols tols :
  marshal_tol <$> sortTols tols =
  SliceStable (less_captured str_ltb (marshal_tol <$> tols)) (marshal_tol <$> tols).
Proof. apply SliceStable_captured_fmap. Qed.

Lemma marshal_sortTerms ts :
  marshal_reqs <$> sortTermSlice ts =
  SliceStable (less_captured str_ltb (marshal_reqs <$> ts)) (marshal_reqs <$> ts).
Proof. apply SliceStable_captured_fmap. Qed.

Lemma captured_strings_canonical (l1 l2 : list string) :
  l1 ≡ₚ l2 -> (length l1 <= 2)%nat ->
  SliceStable (less_captured str_ltb l1) l1 = SliceStable (less_captured str_ltb l2) l2.
Proof. apply (captured_pair_canonical str_ltb String.le). apply str_ltb_le. Qed.

Lemma tols_field_marshal ts1 ts2 :
  marshal_tol <$> ts1 = marshal_tol <$> ts2 -> tols_field ts1 = tols_field ts2.
Proof.
  destruct ts1, ts2; intros H; try discriminate; [done|]. unfold tols_field. by rewrite H.
Qed.

(** [required_terms] of two pods: both absent, or the same terms up to order. *)
Definition terms_equiv (o1 o2 : option (list NodeSelectorTerm)) : Prop :=
  match o1, o2 with
  | None, None => True
  | Some l1, Some l2 =>
    exists l, l1 ≡ₚ l /\ Forall2 term_equiv l l2 /\ (length l1 <= 2 \/ l1 = l)%nat
  | _, _ => False
  end.

Lemma norm_terms_equiv l l2 : Forall2 term_equiv l l2 -> norm_term <$> l = norm_term <$> l2.
Proof. induction 1 as [|t t2 l l2 Ht Hl IH]; [done|]. by rewrite !fmap_cons, IH, (norm_term_equiv t t2). Qed.

Lemma marshal_terms_equiv o1 o2 :
  terms_equiv o1 o2 ->
  (fun ts => marshal_reqs <$> sortTermSlice (norm_term <$> ts)) <$> o1
  = (fun ts => marshal_reqs <$> sortTermSlice (norm_term <$> ts)) <$> o2.
Proof.
  destruct o1 as [l1|], o2 as [l2|]; try done.
  intros (l & Hp & Hf & Hlen). apply (f_equal Some). cbv beta. rewrite <- (norm_terms_equiv l l2 Hf), !marshal_sortTerms.
  destruct Hlen as [Hlen | ->]; [|done].
  apply captured_strings_canonical; [by rewrite Hp|]. by rewrite !length_fmap.
Qed.

Definition marshal_lists (ts : list (list normRequirement)) : list string := marshal_reqs <$> ts.

Lemma marshal_spec_equiv d1 d2 :
  ds_NodeSelector d1 = ds_NodeSelector d2 ->
  marshal_lists <$> ds_RequiredAffinity d1 = marshal_lists <$> ds_RequiredAffinity d2 ->
  marshal_tol <$> ds_Tolerations d1 = marshal_tol <$> ds_Tolerations d2 ->
  marshal_spec d1 = marshal_spec d2.
Proof.
  intros Hn Ha Ht. unfold marshal_spec. rewrite Hn, (tols_field_marshal _ _ Ht).
  destruct (ds_RequiredAffinity d1), (ds_RequiredAffinity d2); try done.
  apply (inj Some) in Ha. unfold marshal_lists in Ha. by rewrite Ha.
Qed.

Lemma SchedKey_inj q1 h1 q2 h2 :
  String.length h1 = String.length h2 -> SchedKey q1 h1 = SchedKey q2 h2 -> q1 = q2 /\ h1 = h2.
Proof.
  unfold SchedKey. intros Hl H. apply str_app_inj_r in H as [-> H].
  - by apply (inj (String.append "/")) in H as ->.
  - rewrite !str_length_app. lia.
Qed.

Lemma DomainHash_length pod : String.length (DomainHash pod) = 12%nat.
Proof. apply sha12_length. Qed.

Lemma QuotaKey_inj sched key ns1 v1 ns2 v2 :
  no_char slash ns1 -> no_char slash ns2 ->
  QuotaKey ns1 sched key v1 = QuotaKey ns2 sched key v2 -> ns1 = ns2 /\ v1 = v2.
Proof.
  unfold QuotaKey. intros H1 H2 H. apply (str_split_first slash) in H as [-> H]; [|done..].
  split; [done|]. apply (inj (String.append sched)) in H.
  apply (inj (String.append "/")) in H. apply (inj (String.append key)) in H.
  by apply (inj (String.append "=")) in H.
Qed.

Lemma PodRefFor_quota p1 p2 sched key r1 r2 :
  no_char slash (pod_Namespace p1) -> no_char slash (pod_Namespace p2) ->
  PodRefFor p1 sched key = Ok r1 -> PodRefFor p2 sched key = Ok r2 ->
  ref_QuotaKey r1 = ref_QuotaKey r2 <->
  pod_Namespace p1 = pod_Namespace p2 /\ pod_Labels p1 !! key = pod_Labels p2 !! key.
Proof.
  intros Hn1 Hn2 H1 H2. unfold PodRefFor in H1, H2.
  destruct (pod_Labels p1 !! key) as [v1|] eqn:E1; [|done].
  destruct (pod_Labels p2 !! key) as [v2|] eqn:E2; [|done].
  injection H1 as <-. injection H2 as <-. simpl. split.
  - intros H. by apply QuotaKey_inj in H as [-> ->].
  - intros [Hns Hv]. injection Hv as ->. by rewrite Hns.
Qed.

Lemma PodRefFor_sched p1 p2 sched key r1 r2 :
  PodRefFor p1 sched key = Ok r1 -> PodRefFor p2 sched key = Ok r2 ->
  ref_SchedKey r1 = ref_SchedKey r2 <->
  ref_QuotaKey r1 = ref_QuotaKey r2 /\ DomainHash p1 = DomainHash p2.
Proof.
  intros H1 H2. unfold PodRefFor in H1, H2.
  destruct (pod_Labels p1 !! key) as [v1|]; [|done]. destruct (pod_Labels p2 !! key) as [v2|]; [|done].
  injection H1 as <-. injection H2 as <-. simpl. split; [|by intros [-> ->]].
  intros H. apply SchedKey_inj in H; [done|]. by rewrite !DomainHash_length.
Qed.

(** ** Properties *)

(** C21: [DomainHash] does not depend on the order of the node selector, of the
    values of a requirement, of the requirements of a term (as long as no two of
    them tie), nor on nil against empty node selectors, and not on the order of
    terms or tolerations when there are at most two of them. *)
Theorem DomainHash_order_independent p1 p2 :
  default ∅ (spec_NodeSelector (pod_Spec p1)) = default ∅ (spec_NodeSelector (pod_Spec p2)) ->
  terms_equiv (required_terms (pod_Spec p1)) (required_terms (pod_Spec p2)) ->
  spec_Tolerations (pod_Spec p1) ≡ₚ spec_Tolerations (pod_Spec p2) ->
  (length (spec_Tolerations (pod_Spec p1)) <= 2)%nat ->
  DomainHash p1 = DomainHash p2.
Proof.
  intros Hsel Hterms Htol Hlen. unfold DomainHash. f_equal. apply marshal_spec_equiv; simpl.
  - exact Hsel.
  - rewrite <- !option_fmap_compose. exact (marshal_terms_equiv _ _ Hterms).
  - rewrite !marshal_sortTols. apply captured_strings_canonical.
    + by rewrite Htol.
    + by rewrite !length_fmap.
Qed.

Definition ex_spec (tols : list Toleration) (terms : list NodeSelectorTerm) : PodSpec :=
  MkPodSpec "service-spread-scheduler" "" (Some (<["zone" := "z1"]> ∅))
    (Some (MkAffinity (Some (MkNodeAffinity (Some (MkNodeSelector terms)))))) tols.

Definition ex_pod (sp : PodSpec) : Pod :=
  MkPod "uid-1" "p" "ns1" (<["svc" := "alpha"]> ∅) [] sp PodPending.

Definition ex_tol (k : string) : Toleration := MkToleration k "Exists" "" "NoSchedule" None.

Definition ex_term (vs : list string) : NodeSelectorTerm :=
  Term [Requirement "k" "In" vs] [].

Lemma DomainHash_order_independent_witness :
  DomainHash (ex_pod (ex_spec [ex_tol "a"; ex_tol "b"] [ex_term ["x"; "y"]])) =
  DomainHash (ex_pod (ex_spec [ex_tol "b"; ex_tol "a"] [ex_term ["y"; "x"]])).
Proof.
  apply DomainHash_order_independent.
  - reflexivity.
  - exists [ex_term ["x"; "y"]]. split; [reflexivity|]. split; [|right; reflexivity].
    constructor; [|constructor]. split; [reflexivity|].
    intros x y Hx Hy _ _. apply list_elem_of_singleton in Hx, Hy. by subst.
  - apply Permutation_swap.
  - simpl. lia.
Defined.

(** With three tolerations the hash does depend on their order: the two pods
    below have the same tolerations, in different orders, and different hashes
    (hence different scheduling keys and separate skew domains). *)
Theorem DomainHash_toleration_order :
  exists p1 p2,
    spec_Tolerations (pod_Spec p1) ≡ₚ spec_Tolerations (pod_Spec p2) /\
    spec_NodeSelector (pod_Spec p1) = spec_NodeSelector (pod_Spec p2) /\
    spec_Affinity (pod_Spec p1) = spec_Affinity (pod_Spec p2) /\
    pod_Labels p1 = pod_Labels p2 /\ pod_Namespace p1 = pod_Namespace p2 /\
    DomainHash p1 <> DomainHash p2 /\
    PodRefFor p1 "s" "svc" <> PodRefFor p2 "s" "svc".
Proof.
  exists (ex_pod (ex_spec [ex_tol "a"; ex_tol "b"; ex_tol "c"] [])),
         (ex_pod (ex_spec [ex_tol "c"; ex_tol "a"; ex_tol "b"] [])).
  split_and!; try reflexivity.
  - simpl. apply (Permutation_app_comm [ex_tol "a"; ex_tol "b"] [ex_tol "c"]).
  - vm_compute. discriminate.
  - vm_compute. discriminate.
Qed.

(** C22: the keys identify what they should: a pod has keys exactly when it carries the
    service label, and is an error otherwise; for namespaces without a slash, two
    pods get the same quota key exactly when they are in the same namespace with
    the same service label value, and the same scheduling key exactly when in
    addition their domain hashes agree; the node is the pod's own. *)
Theorem PodRefFor_identifies p1 p2 sched key :
  no_char slash (pod_Namespace p1) -> no_char slash (pod_Namespace p2) ->
  ((exists r, PodRefFor p1 sched key = Ok r) <-> is_Some (pod_Labels p1 !! key)) /\
  ((exists e, PodRefFor p1 sched key = Err e) <-> pod_Labels p1 !! key = None) /\
  forall r1 r2, PodRefFor p1 sched key = Ok r1 -> PodRefFor p2 sched key = Ok r2 ->
    let same_service := pod_Namespace p1 = pod_Namespace p2 /\
                        pod_Labels p1 !! key = pod_Labels p2 !! key in
    (ref_QuotaKey r1 = ref_QuotaKey r2 <-> same_service) /\
    (ref_SchedKey r1 = ref_SchedKey r2 <-> same_service /\ DomainHash p1 = DomainHash p2) /\
    ref_NodeName r1 = spec_NodeName (pod_Spec p1).
Proof.
  intros Hn1 Hn2. split; [|split].
  - unfold PodRefFor. destruct (pod_Labels p1 !! key); (split; [|by eauto]); [by eauto|by intros [? ?]].
  - unfold PodRefFor. destruct (pod_Labels p1 !! key); (split; [|by eauto]); [by intros [? ?]|done].
  - intros r1 r2 H1 H2 same. unfold same.
    rewrite (PodRefFor_sched p1 p2 sched key r1 r2 H1 H2), (PodRefFor_quota p1 p2 sched key r1 r2) by done.
    split; [done|]. split; [done|]. unfold PodRefFor in H1.
    destruct (pod_Labels p1 !! key); [|done]. by injection H1 as <-.
Qed.

Lemma PodRefFor_identifies_witness :
  exists r1 r2,
    PodRefFor (ex_pod (ex_spec [] [])) "s" "svc" = Ok r1 /\
    PodRefFor (ex_pod (ex_spec [ex_tol "a"] [])) "s" "svc" = Ok r2 /\
    ref_QuotaKey r1 = ref_QuotaKey r2.
Proof.
  eexists _, _. split; [reflexivity|]. split; [reflexivity|].
  refine (proj2 (proj1 (proj2 (proj2 (PodRefFor_identifies (ex_pod (ex_spec [] [])) (ex_pod (ex_spec [ex_tol "a"] []))
    "s" "svc" I I)) _ _ eq_refl eq_refl)) _).
  split; reflexivity.
Defined.
