(* ===== verification/Domain.v ===== *)
(** * Stable spread domain (internal/spread/domain.go)

    Which nodes belong to the stable domain of a pod: Ready, schedulable, node
    selector, required node affinity and NoSchedule/NoExecute taints. *)

From S2P Require Import Prelude GoStd Kube Fixtures.
From Stdlib Require Import Ascii.

(** ** Definitions *)

(** [s[i] - '0'] of the digit loop. *)
Fixpoint atoi64_loop (s : string) (n : Z) : option Z :=
  match s with
  | EmptyString => Some n
  | String c s' =>
    let b := byte_val c in
    if ((b <? 48) || (57 <? b))%N then None
    else atoi64_loop s' (wrap64 (wrap64 (n * 10) + Z.of_N (b - 48)))
  end.

Definition atoi64 (s : string) : Z * bool :=
  match s with
  | EmptyString => (0, false)
  | String c s' =>
    let neg := bool_decide (c = "-"%char) in
    if neg && bool_decide (s' = EmptyString) then (0, false) else
    match atoi64_loop (if neg then s' else s) 0 with
    | None => (0, false)
    | Some n => (if neg then wrap64 (- n) else n, true)
    end
  end.

Fixpoint contains (vs : list string) (s : string) : bool :=
  match vs with
  | [] => false
  | v :: vs' => if decide (v = s) then true else contains vs' s
  end.

Definition requirementHolds (r : NodeSelectorRequirement) (value : string) : bool :=
  let present := negb (bool_decide (value = "")) in
  let op := req_Operator r in
  if decide (op = NodeSelectorOpIn) then present && contains (req_Values r) value
  else if decide (op = NodeSelectorOpNotIn) then negb (contains (req_Values r) value)
  else if decide (op = NodeSelectorOpExists) then present
  else if decide (op = NodeSelectorOpDoesNotExist) then negb present
  else if decide (op = NodeSelectorOpGt \/ op = NodeSelectorOpLt) then
    match req_Values r with
    | [lim_s] =>
      if negb present then false else
      let '(n, ok) := atoi64 value in
      let '(lim, ok2) := atoi64 lim_s in
      if negb ok || negb ok2 then false
      else if decide (op = NodeSelectorOpGt) then n >? lim else n <? lim
    | _ => false
    end
  else false.

Definition matchNodeSelectorTerm (term : NodeSelectorTerm) (node : Node) : bool :=
  forallb (fun r => requirementHolds r (map_get "" (node_Labels node) (req_Key r)))
          (MatchExpressions term) &&
  forallb (fun r => requirementHolds r
             (if decide (req_Key r = "metadata.name") then node_Name node else ""))
          (MatchFields term).

Definition required_selector (spec : PodSpec) : option NodeSelector :=
  match spec_Affinity spec with
  | Some (MkAffinity (Some (MkNodeAffinity (Some sel)))) => Some sel
  | _ => None
  end.

Definition matchesNodeSelector (spec : PodSpec) (node : Node) : bool :=
  forallb (fun '(k, v) => bool_decide (map_get "" (node_Labels node) k = v))
          (map_to_list (default ∅ (spec_NodeSelector spec))) &&
  match required_selector spec with
  | Some sel =>
    match NodeSelectorTerms sel with
    | [] => false
    | terms => existsb (fun term => matchNodeSelectorTerm term node) terms
    end
  | None => true
  end.

Section domain.
Context `{KubeLib}.

Definition gating_taint (t : Taint) : bool :=
  bool_decide (taint_Effect t = TaintEffectNoSchedule) ||
  bool_decide (taint_Effect t = TaintEffectNoExecute).

(** A nil node pointer is [None].  Only the pod's spec is read. *)
Definition nodeInStableDomain (spec : PodSpec) (node : option Node) : bool :=
  match node with
  | None => false
  | Some node =>
    if negb (IsNodeReady node) || node_Unschedulable node then false
    else if negb (matchesNodeSelector spec node) then false
    else match FindMatchingUntoleratedTaint (node_Taints node) (spec_Tolerations spec) gating_taint with
         | Some _ => false
         | None => true
         end
  end.

(** [NodeReader.List()] is the list of node pointers or an error. *)
Definition domain_step (spec : PodSpec) (domain : gset string) (n : option Node) : gset string :=
  match n with
  | Some node => if nodeInStableDomain spec n then domain ∪ {[ node_Name node ]} else domain
  | None => domain
  end.

Definition computeStableDomain (spec : PodSpec) (nodes : res (list (option Node))) : gset string :=
  match nodes with
  | Err _ => ∅
  | Ok l => foldl (domain_step spec) ∅ l
  end.

Definition domainNodes (domain : gset string) : list string := elements domain.

End domain.

(** ** Reference semantics *)

(** The integer a string denotes in decimal, unbounded. *)
Fixpoint digits_value (s : string) (n : Z) : option Z :=
  match s with
  | EmptyString => Some n
  | String c s' =>
    let b := byte_val c in
    if ((48 <=? b) && (b <=? 57))%N then digits_value s' (n * 10 + Z.of_N (b - 48)) else None
  end.

Definition decimal_value (s : string) : option Z :=
  match s with
  | EmptyString => None
  | String c s' =>
    if decide (c = "-"%char)
    then (if decide (s' = EmptyString) then None else Z.opp <$> digits_value s' 0)
    else digits_value s 0
  end.

(** What a requirement demands of an optional value ([None]: the key is absent). *)
Definition requires (r : NodeSelectorRequirement) (v : option string) : Prop :=
  let op := req_Operator r in
  (op = NodeSelectorOpIn /\ exists x, v = Some x /\ x ∈ req_Values r) \/
  (op = NodeSelectorOpNotIn /\ forall x, v = Some x -> x ∉ req_Values r) \/
  (op = NodeSelectorOpExists /\ v <> None) \/
  (op = NodeSelectorOpDoesNotExist /\ v = None) \/
  ((op = NodeSelectorOpGt \/ op = NodeSelectorOpLt) /\
   exists x lim_s n lim, v = Some x /\ req_Values r = [lim_s] /\
     decimal_value x = Some n /\ decimal_value lim_s = Some lim /\
     (if decide (op = NodeSelectorOpGt) then lim < n else n < lim)).

Definition field_value (node : Node) (key : string) : option string :=
  if decide (key = "metadata.name") then Some (node_Name node) else None.

(** A term without requirements selects nothing. *)
Definition selects (term : NodeSelectorTerm) (node : Node) : Prop :=
  MatchExpressions term ++ MatchFields term <> [] /\
  (forall r, r ∈ MatchExpressions term -> requires r (node_Labels node !! req_Key r)) /\
  (forall r, r ∈ MatchFields term -> requires r (field_value node (req_Key r))).

Definition selector_accepts (spec : PodSpec) (node : Node) : Prop :=
  (forall k v, default ∅ (spec_NodeSelector spec) !! k = Some v -> node_Labels node !! k = Some v) /\
  (forall sel, required_selector spec = Some sel ->
     exists term, term ∈ NodeSelectorTerms sel /\ selects term node).

(** The inputs on which [""] and "absent" cannot be confused and numbers fit. *)
Definition fits64 (s : string) : Prop := forall z, decimal_value s = Some z -> in_int64 z.

Definition compares (r : NodeSelectorRequirement) : Prop :=
  req_Operator r = NodeSelectorOpGt \/ req_Operator r = NodeSelectorOpLt.

Record plain_req (r : NodeSelectorRequirement) : Prop := {
  plain_values : "" ∉ req_Values r;
  plain_limits : compares r -> forall v, v ∈ req_Values r -> fits64 v;
}.

Record plain_node (node : Node) : Prop := {
  plain_labels : forall k v, node_Labels node !! k = Some v -> v <> "";
  plain_name : node_Name node <> "";
}.

Record plain_spec (spec : PodSpec) : Prop := {
  plain_selector : forall k v, default ∅ (spec_NodeSelector spec) !! k = Some v -> v <> "";
  plain_terms : forall sel term, required_selector spec = Some sel -> term ∈ NodeSelectorTerms sel ->
    MatchExpressions term ++ MatchFields term <> [] /\
    forall r, r ∈ MatchExpressions term ++ MatchFields term -> plain_req r;
}.

(** What the node has under the keys that the spec compares. *)
Definition plain_numbers (spec : PodSpec) (node : Node) : Prop :=
  forall sel term r v, required_selector spec = Some sel -> term ∈ NodeSelectorTerms sel -> compares r ->
    r ∈ MatchExpressions term /\ node_Labels node !! req_Key r = Some v \/
    r ∈ MatchFields term /\ field_value node (req_Key r) = Some v -> fits64 v.

(** ** Lemmas *)

Lemma atoi64_loop_spec s n : atoi64_loop s (wrap64 n) = wrap64 <$> digits_value s n.
Proof.
  revert n. induction s as [|c s IH]; intros n; simpl; [done|].
  destruct ((byte_val c <? 48) || (57 <? byte_val c))%N eqn:E.
  - rewrite orb_true_iff, !N.ltb_lt in E.
    rewrite (proj2 (andb_false_iff _ _)); [done|]. rewrite !N.leb_gt. lia.
  - rewrite orb_false_iff, !N.ltb_ge in E.
    rewrite (proj2 (andb_true_iff _ _)) by (rewrite !N.leb_le; lia).
    rewrite <- IH. f_equal. apply wrap64_mul_add.
Qed.

Lemma atoi64_spec s :
  atoi64 s = match decimal_value s with Some z => (wrap64 z, true) | None => (0, false) end.
Proof.
  destruct s as [|c s']; [done|]. unfold atoi64, decimal_value.
  destruct (decide (c = "-"%char)) as [Hc|Hc].
  - rewrite (bool_decide_eq_true_2 _ Hc). simpl. case_bool_decide; [by rewrite decide_True|].
    rewrite decide_False by done. change 0 with (wrap64 0) at 1. rewrite atoi64_loop_spec.
    destruct (digits_value s' 0); simpl; [|done]. by rewrite wrap64_opp.
  - rewrite (bool_decide_eq_false_2 _ Hc). simpl andb. cbv iota.
    change 0 with (wrap64 0) at 1. rewrite atoi64_loop_spec. by destruct (digits_value _ 0).
Qed.

Lemma contains_spec vs s : contains vs s = bool_decide (s ∈ vs).
Proof.
  induction vs as [|v vs IH]; cbn [contains].
  - done.
  - destruct (decide (v = s)) as [Hv|Hv].
    + symmetry. apply bool_decide_eq_true. subst. apply elem_of_cons; by left.
    + rewrite IH. apply bool_decide_ext. rewrite elem_of_cons. naive_solver.
Qed.

Lemma forallb_elem {A} (f : A -> bool) l : forallb f l = true <-> forall x, x ∈ l -> f x = true.
Proof. rewrite forallb_forall. by setoid_rewrite list_elem_of_In. Qed.

Lemma existsb_elem {A} (f : A -> bool) l : existsb f l = true <-> exists x, x ∈ l /\ f x = true.
Proof. rewrite existsb_exists. by setoid_rewrite list_elem_of_In. Qed.

Lemma fits64_value s z : fits64 s -> decimal_value s = Some z -> atoi64 s = (z, true).
Proof. intros Hf Hz. rewrite atoi64_spec, Hz, wrap64_id; [done|]. by apply Hf. Qed.

Lemma requires_op r v o : req_Operator r = o ->
  requires r v <->
  if decide (o = NodeSelectorOpIn) then exists x, v = Some x /\ x ∈ req_Values r
  else if decide (o = NodeSelectorOpNotIn) then forall x, v = Some x -> x ∉ req_Values r
  else if decide (o = NodeSelectorOpExists) then v <> None
  else if decide (o = NodeSelectorOpDoesNotExist) then v = None
  else (o = NodeSelectorOpGt \/ o = NodeSelectorOpLt) /\
       exists x lim_s n lim, v = Some x /\ req_Values r = [lim_s] /\
         decimal_value x = Some n /\ decimal_value lim_s = Some lim /\
         (if decide (o = NodeSelectorOpGt) then lim < n else n < lim).
Proof.
  intros <-. unfold requires. cbv zeta. generalize (req_Operator r) as o. intros o.
  destruct (decide (o = NodeSelectorOpIn)) as [->|H1];
    [|destruct (decide (o = NodeSelectorOpNotIn)) as [->|H2];
      [|destruct (decide (o = NodeSelectorOpExists)) as [->|H3];
        [|destruct (decide (o = NodeSelectorOpDoesNotExist)) as [->|H4]]]].
  5: { tauto. }
  all: split; [|tauto].
  all: intros [[Ho H]|[[Ho H]|[[Ho H]|[[Ho H]|[[Ho|Ho] H]]]]]; try done.
Qed.

Lemma compares_spec r (v : option string) o :
  (forall x, v = Some x -> x <> "" /\ (compares r -> fits64 x)) -> plain_req r ->
  req_Operator r = o -> (o = NodeSelectorOpGt \/ o = NodeSelectorOpLt) ->
  match req_Values r with
  | [lim_s] =>
    if negb (negb (bool_decide (default "" v = ""))) then false else
    let '(n, ok) := atoi64 (default "" v) in
    let '(lim, ok2) := atoi64 lim_s in
    if negb ok || negb ok2 then false
    else if decide (o = NodeSelectorOpGt) then n >? lim else n <? lim
  | _ => false
  end = true <->
  exists x lim_s n lim, v = Some x /\ req_Values r = [lim_s] /\
    decimal_value x = Some n /\ decimal_value lim_s = Some lim /\
    (if decide (o = NodeSelectorOpGt) then lim < n else n < lim).
Proof.
  intros Hv [_ Hl] Hop Ho. assert (Hcmp : compares r) by (unfold compares; by rewrite Hop).
  specialize (Hl Hcmp). destruct (req_Values r) as [|lim_s [|? ?]]; [naive_solver| |naive_solver].
  specialize (Hl lim_s ltac:(set_solver)).
  destruct v as [x|]; simpl default; [|by naive_solver].
  destruct (Hv x eq_refl) as [Hne Hx]. specialize (Hx Hcmp). rewrite bool_decide_eq_false_2 by done. simpl negb. cbv iota.
  destruct (decimal_value x) as [n|] eqn:En.
  2: { rewrite atoi64_spec, En. destruct (atoi64 lim_s). simpl. naive_solver. }
  rewrite (fits64_value x n) by done. destruct (decimal_value lim_s) as [lim|] eqn:El.
  2: { rewrite atoi64_spec, El. simpl. naive_solver. }
  rewrite (fits64_value lim_s lim) by done. simpl.
  transitivity (if decide (o = NodeSelectorOpGt) then lim < n else n < lim).
  - case_decide; [rewrite Z.gtb_lt|rewrite Z.ltb_lt]; done.
  - split; [intros H; exists x, lim_s, n, lim; done|].
    intros (x' & l' & n' & lim' & ? & ? & ? & ? & H). by simplify_eq.
Qed.

Lemma requirementHolds_spec r v :
  (forall x, v = Some x -> x <> "" /\ (compares r -> fits64 x)) -> plain_req r ->
  requirementHolds r (default "" v) = true <-> requires r v.
Proof.
  intros Hv Hr. rewrite (requires_op r v _ eq_refl). unfold requirementHolds.
  assert (Hp : bool_decide (default "" v = "") = true <-> v = None).
  { rewrite bool_decide_eq_true. destruct v as [x|]; simpl; [|done]. naive_solver. }
  rewrite contains_spec. set (o := req_Operator r).
  destruct (decide (o = NodeSelectorOpIn)) as [H1|H1];
    [|destruct (decide (o = NodeSelectorOpNotIn)) as [H2|H2];
      [|destruct (decide (o = NodeSelectorOpExists)) as [H3|H3];
        [|destruct (decide (o = NodeSelectorOpDoesNotExist)) as [H4|H4]]]].
  - rewrite andb_true_iff, bool_decide_eq_true. destruct v as [x|]; simpl default in *.
    + rewrite bool_decide_eq_false_2 by (by apply Hv). naive_solver.
    + rewrite bool_decide_eq_true_2 by done. simpl. naive_solver.
  - rewrite negb_true_iff, bool_decide_eq_false. destruct v as [x|]; simpl default.
    + naive_solver.
    + split; [done|]. intros _. apply Hr.
  - rewrite negb_true_iff. rewrite <- not_true_iff_false, Hp. done.
  - by rewrite negb_involutive, Hp.
  - destruct (decide (o = NodeSelectorOpGt \/ o = NodeSelectorOpLt)) as [H5|H5].
    + rewrite (compares_spec r v o Hv Hr eq_refl H5). naive_solver.
    + naive_solver.
Qed.

Lemma matchNodeSelectorTerm_spec spec sel term node :
  plain_node node -> plain_spec spec -> plain_numbers spec node ->
  required_selector spec = Some sel -> term ∈ NodeSelectorTerms sel ->
  matchNodeSelectorTerm term node = true <-> selects term node.
Proof.
  intros [Hl Hn] [_ Ht] Hnum Hsel Hterm. destruct (Ht sel term Hsel Hterm) as [Hne Hr].
  unfold matchNodeSelectorTerm, selects. rewrite andb_true_iff, !forallb_elem.
  assert (He : forall r, r ∈ MatchExpressions term ->
    requirementHolds r (map_get "" (node_Labels node) (req_Key r)) = true <-> requires r (node_Labels node !! req_Key r)).
  { intros r Hin. apply requirementHolds_spec; [|apply Hr; set_solver]. intros x Hx.
    split; [by eapply Hl|]. intros Hc. eapply (Hnum sel term r x); auto. }
  assert (Hf : forall r, r ∈ MatchFields term ->
    requirementHolds r (if decide (req_Key r = "metadata.name") then node_Name node else "") = true <->
    requires r (field_value node (req_Key r))).
  { intros r Hin. rewrite <- requirementHolds_spec; [| |apply Hr; set_solver].
    - unfold field_value. by case_decide.
    - intros x Hx. split; [|intros Hc; eapply (Hnum sel term r x); auto].
      unfold field_value in Hx. case_decide; naive_solver. }
  split.
  - intros [H1 H2]. split; [done|]. split; intros r Hin; [by apply He, H1|by apply Hf, H2].
  - intros (_ & H1 & H2). split; intros r Hin; [by apply He, H1|by apply Hf, H2].
Qed.

Lemma matchesNodeSelector_spec spec node :
  plain_node node -> plain_spec spec -> plain_numbers spec node ->
  matchesNodeSelector spec node = true <-> selector_accepts spec node.
Proof.
  intros Hn Hp Hnum. pose proof Hp as [Hs _]. unfold matchesNodeSelector, selector_accepts.
  rewrite andb_true_iff, forallb_elem. f_equiv.
  - split.
    + intros H k v Hk. specialize (H (k, v)). simpl in H. rewrite elem_of_map_to_list in H.
      specialize (H Hk). apply bool_decide_eq_true in H. unfold map_get in H.
      pose proof (Hs k v Hk). destruct (node_Labels node !! k); simpl in H; congruence.
    + intros H [k v] Hk. apply elem_of_map_to_list in Hk. apply bool_decide_eq_true.
      unfold map_get. by rewrite (H k v Hk).
  - destruct (required_selector spec) as [sel|] eqn:Esel; [|naive_solver].
    transitivity (existsb (fun t => matchNodeSelectorTerm t node) (NodeSelectorTerms sel) = true).
    { by destruct (NodeSelectorTerms sel). }
    rewrite existsb_elem. split.
    + intros (t & Hin & Hm) ? [= <-]. exists t. split; [done|].
      by apply (matchNodeSelectorTerm_spec spec sel) in Hm.
    + intros H. destruct (H sel eq_refl) as (t & Hin & Hm). exists t. split; [done|].
      by apply (matchNodeSelectorTerm_spec spec sel).
Qed.

Lemma untolerated_spec `{KubeLibLaws} (node : Node) (spec : PodSpec) :
  match FindMatchingUntoleratedTaint (node_Taints node) (spec_Tolerations spec) gating_taint with
  | Some _ => false
  | None => true
  end = true <->
  forall t, t ∈ node_Taints node ->
    taint_Effect t = TaintEffectNoSchedule \/ taint_Effect t = TaintEffectNoExecute ->
    exists tol, tol ∈ spec_Tolerations spec /\ ToleratesTaint tol t = true.
Proof.
  assert (Hg : forall t, gating_taint t = true <->
    taint_Effect t = TaintEffectNoSchedule \/ taint_Effect t = TaintEffectNoExecute).
  { intros t. unfold gating_taint. by rewrite orb_true_iff, !bool_decide_eq_true. }
  destruct (FindMatchingUntoleratedTaint _ _ _) as [t|] eqn:E.
  - apply FindTaint_some in E as (Hin & Hf & Hno). split; [done|]. intros Hall.
    destruct (Hall t Hin) as (tol & Ht & Htol); [by apply Hg|]. rewrite Hno in Htol; done.
  - split; [|done]. intros _ t Hin Hf. apply (FindTaint_none _ _ gating_taint t E Hin). by apply Hg.
Qed.

(** Ready, schedulable, selected and with every gating taint tolerated. *)
Definition eligible `{KubeLib} (spec : PodSpec) (node : Node) : Prop :=
  IsNodeReady node = true /\ node_Unschedulable node = false /\ selector_accepts spec node /\
  forall t, t ∈ node_Taints node ->
    taint_Effect t = TaintEffectNoSchedule \/ taint_Effect t = TaintEffectNoExecute ->
    exists tol, tol ∈ spec_Tolerations spec /\ ToleratesTaint tol t = true.

Lemma nodeInStableDomain_spec `{KubeLibLaws} spec node :
  plain_node node -> plain_spec spec -> plain_numbers spec node ->
  nodeInStableDomain spec (Some node) = true <-> eligible spec node.
Proof.
  intros Hn Hs Hnum. unfold nodeInStableDomain, eligible.
  destruct (IsNodeReady node), (node_Unschedulable node); simpl; try naive_solver.
  rewrite <- (matchesNodeSelector_spec spec node) by done.
  rewrite <- untolerated_spec. destruct (matchesNodeSelector spec node); simpl; naive_solver.
Qed.

Lemma computeStableDomain_elem `{KubeLib} spec l name :
  name ∈ computeStableDomain spec (Ok l) <->
  exists node, Some node ∈ l /\ node_Name node = name /\ nodeInStableDomain spec (Some node) = true.
Proof.
  simpl. induction l as [|n l IH] using rev_ind.
  - simpl. split; [set_solver|]. intros (node & Hin & _). by apply not_elem_of_nil in Hin.
  - rewrite foldl_app. simpl. set (d := foldl _ _ _) in *.
    assert (Hs : name ∈ domain_step spec d n <-> name ∈ d \/
      exists node, n = Some node /\ node_Name node = name /\ nodeInStableDomain spec n = true).
    { unfold domain_step. destruct n as [node|]; [|naive_solver].
      destruct (nodeInStableDomain spec (Some node)) eqn:E; [|naive_solver].
      rewrite elem_of_union, elem_of_singleton. naive_solver. }
    rewrite Hs, IH. setoid_rewrite elem_of_app. setoid_rewrite list_elem_of_singleton. naive_solver.
Qed.

(** ** Theorems *)

(** C20: the stable domain of a pod is the set of the names of the nodes that are
    Ready, schedulable, selected by nodeSelector and required affinity and whose
    NoSchedule and NoExecute taints are all tolerated, in the usual meaning of
    selectors (an absent key is not a key with an empty value), whenever no label
    or selector value is empty, every selector term has a requirement, and the
    numbers that Gt and Lt compare, decimal with an optional minus, fit 64 bits; the
    order of the node list does not matter and a listing error yields the empty
    domain.  What happens otherwise: [empty_term_matches_every_node] (the comment at
    keys.go:109 says no node), [empty_label_is_absent], [atoi64_wraps]. *)
Theorem computeStableDomain_exact `{KubeLibLaws} spec l :
  plain_spec spec -> (forall node, Some node ∈ l -> plain_node node /\ plain_numbers spec node) ->
  (forall name, name ∈ computeStableDomain spec (Ok l) <->
     exists node, Some node ∈ l /\ node_Name node = name /\ eligible spec node) /\
  (forall l', l' ≡ₚ l -> computeStableDomain spec (Ok l') = computeStableDomain spec (Ok l)) /\
  (forall e, computeStableDomain spec (Err e) = ∅).
Proof.
  intros Hs Hn. split; [|split; [|done]].
  - intros name. rewrite computeStableDomain_elem. f_equiv. intros node.
    split; intros (Hin & Hname & He); (split; [done|]; split; [done|]);
      by apply (nodeInStableDomain_spec spec node (proj1 (Hn node Hin)) Hs (proj2 (Hn node Hin))).
  - intros l' Hl. apply set_eq. intros name. rewrite !computeStableDomain_elem. by setoid_rewrite Hl.
Qed.

Definition ex_dom_spec : PodSpec :=
  MkPodSpec "s" "" (Some (<["disk" := "ssd"]> ∅))
    (Some (MkAffinity (Some (MkNodeAffinity (Some (MkNodeSelector
       [Term [Requirement "cpu" NodeSelectorOpGt ["4"]] []]))))))
    [MkToleration "k" "Exists" "" "" None].

Definition ex_dom_node (name cpu effect : string) : Node :=
  MkNode name (<["disk" := "ssd"]> (<["cpu" := cpu]> ∅)) [MkTaint "k" "v" effect] false
    [("Ready", "True")].

Definition ex_dom_nodes : list (option Node) :=
  [Some (ex_dom_node "a" "8" "NoSchedule"); None; Some (ex_dom_node "b" "2" "NoExecute")].

Lemma fits64_short s z : decimal_value s = Some z -> in_int64 z -> fits64 s.
Proof. intros Hd Hz z'. rewrite Hd. by intros [= <-]. Qed.

Lemma ex_dom_plain name cpu e z :
  decimal_value cpu = Some z -> in_int64 z -> name <> "" ->
  plain_node (ex_dom_node name cpu e) /\ plain_numbers ex_dom_spec (ex_dom_node name cpu e).
Proof.
  intros Hc Hz Hne. split.
  - split; [|done]. intros k v Hk. simpl in Hk.
    apply lookup_insert_Some in Hk as [[_ <-]|[_ Hk]]; [done|].
    apply lookup_insert_Some in Hk as [[_ <-]|[_ Hk]]; [|by rewrite lookup_empty in Hk].
    by intros ->.
  - intros sel term r v [= <-] Hterm _ [[Hr Hv]|[Hr _]]; apply list_elem_of_singleton in Hterm as ->; simpl in Hr;
      [|by apply elem_of_nil in Hr].
    apply list_elem_of_singleton in Hr as ->. simpl in Hv.
    rewrite lookup_insert_ne, lookup_insert_eq in Hv by done. injection Hv as <-. by apply (fits64_short _ z).
Qed.

Lemma computeStableDomain_exact_witness :
  "a" ∈ computeStableDomain ex_dom_spec (Ok ex_dom_nodes) /\
  "b" ∉ computeStableDomain ex_dom_spec (Ok ex_dom_nodes) /\
  exists node, Some node ∈ ex_dom_nodes /\ node_Name node = "a" /\ eligible ex_dom_spec node.
Proof.
  assert (Ha : "a" ∈ computeStableDomain ex_dom_spec (Ok ex_dom_nodes))
    by (by_decide).
  split; [exact Ha|]. split; [by_decide|].
  refine (proj1 (proj1 (computeStableDomain_exact ex_dom_spec ex_dom_nodes _ _) "a") Ha).
  - split.
    + intros k v Hk. change (<["disk" := "ssd"]> (∅ : string_map) !! k = Some v) in Hk.
      apply lookup_insert_Some in Hk as [[_ <-]|[_ Hk]]; [discriminate|].
      rewrite lookup_empty in Hk; discriminate Hk.
    + intros sel term [= <-] Hin. simpl in Hin. apply list_elem_of_singleton in Hin as ->. split; [discriminate|].
      intros r Hr. simpl in Hr. apply list_elem_of_singleton in Hr as ->. split; simpl; [set_solver|].
      intros _ v Hv. apply list_elem_of_singleton in Hv as ->. apply (fits64_short _ 4); [reflexivity|]. unfold in_int64, max_int64. lia.
  - intros node Hin. unfold ex_dom_nodes in Hin.
    apply elem_of_cons in Hin as [Hin|Hin]; [|apply elem_of_cons in Hin as [Hin|Hin]];
      [| |apply list_elem_of_singleton in Hin].
    + injection Hin as ->. apply (ex_dom_plain _ _ _ 8); [reflexivity|unfold in_int64, max_int64; lia|discriminate].
    + discriminate Hin.
    + injection Hin as ->. apply (ex_dom_plain _ _ _ 2); [reflexivity|unfold in_int64, max_int64; lia|discriminate].
Defined.

(** [atoi64] accepts exactly the decimal integers and returns the value modulo
    2^64: within 64 bits it is the value, beyond it the comparison is made on the
    wrapped number (2^64 + 1 is read as 1 and is not greater than 4). *)
Theorem atoi64_wraps :
  (forall s, atoi64 s =
     match decimal_value s with Some z => (wrap64 z, true) | None => (0, false) end) /\
  decimal_value "18446744073709551617" = Some 18446744073709551617 /\
  requirementHolds (Requirement "cpu" NodeSelectorOpGt ["4"]) "18446744073709551617" = false.
Proof. split; [exact atoi64_spec|done]. Qed.

(** A term without requirements matches every node, so one such term makes the
    required affinity accept them all; the comment at keys.go:109 says that it matches
    none, as in Kubernetes. *)
Theorem empty_term_matches_every_node sel spec node :
  required_selector spec = Some sel -> Term [] [] ∈ NodeSelectorTerms sel ->
  spec_NodeSelector spec = None -> matchesNodeSelector spec node = true.
Proof.
  intros Hsel Hin Hns. unfold matchesNodeSelector. rewrite Hsel, Hns. simpl default. rewrite map_to_list_empty.
  assert (He : existsb (fun t => matchNodeSelectorTerm t node) (NodeSelectorTerms sel) = true).
  { apply existsb_elem. by exists (Term [] []). }
  by destruct (NodeSelectorTerms sel).
Qed.

Lemma empty_term_matches_every_node_witness :
  matchesNodeSelector (MkPodSpec "" "" None (Some (MkAffinity (Some (MkNodeAffinity (Some (MkNodeSelector [Term [] []])))))) [])
    (ex_dom_node "a" "8" "NoSchedule") = true.
Proof.
  apply (empty_term_matches_every_node (MkNodeSelector [Term [] []])); [reflexivity|left|reflexivity].
Defined.

Definition set_labels (node : Node) (m : string_map) : Node :=
  MkNode (node_Name node) m (node_Taints node) (node_Unschedulable node) (node_Conditions node).

(** A label that is present with an empty value is treated as absent: the node
    matches exactly the same selectors without it, and so it is rejected by an
    [Exists] requirement on that key, and a node without the key is accepted by a
    nodeSelector that asks for the empty value. *)
Theorem empty_label_is_absent spec node m k :
  matchesNodeSelector spec (set_labels node (<[k := ""]> m)) =
    matchesNodeSelector spec (set_labels node (delete k m)) /\
  requirementHolds (Requirement k NodeSelectorOpExists [])
    (map_get "" (node_Labels (set_labels node (<[k := ""]> m))) k) = false /\
  matchesNodeSelector (MkPodSpec "" "" (Some {[ k := "" ]}) None [])
    (set_labels node (delete k m)) = true.
Proof.
  assert (Hget : forall k', map_get "" (<[k := ""]> m) k' = map_get "" (delete k m) k').
  { intros k'. unfold map_get. destruct (decide (k' = k)) as [->|Hk].
    - by rewrite lookup_insert_eq, lookup_delete_eq.
    - by rewrite lookup_insert_ne, lookup_delete_ne. }
  assert (Hterm : forall t, matchNodeSelectorTerm t (set_labels node (<[k := ""]> m)) =
                            matchNodeSelectorTerm t (set_labels node (delete k m))).
  { intros t. unfold matchNodeSelectorTerm. simpl. f_equal.
    induction (MatchExpressions t) as [|r rs IH]; simpl; [done|]. by rewrite Hget, IH. }
  split; [|split].
  - unfold matchesNodeSelector. f_equal.
    + induction (map_to_list _) as [|[k' v'] l IH]; [done|]. cbn [forallb]. rewrite IH. f_equal.
      simpl. by rewrite Hget.
    + destruct (required_selector spec) as [sel|]; [|done].
      destruct (NodeSelectorTerms sel) as [|t ts]; [done|]. cbn [existsb]. rewrite Hterm. f_equal.
      induction ts as [|t' ts IH]; [done|]. cbn [existsb]. by rewrite Hterm, IH.
  - simpl. unfold map_get. by rewrite lookup_insert_eq.
  - unfold matchesNodeSelector. simpl default. rewrite map_to_list_singleton. simpl.
    unfold map_get. by rewrite lookup_delete_eq.
Qed.
