(* ===== verification/Api.v ===== *)
(** * The API types: ServiceSpreadPolicy and ServiceSpreadArgs

    The policy CRD (api/v1alpha1/types.go) and the plugin arguments
    (apis/config/v1alpha1/{types,args}.go): data, defaulting, validation and the
    strict decoding of the plugin's configuration. *)

From S2P Require Import Prelude GoStd Kube Fixtures.

(** ** ServiceSpreadPolicy *)

Record LabelSelectorRequirement := MkLabelReq {
  lr_Key : string;
  lr_Operator : string;
  lr_Values : list string;
}.

(** A nil [matchLabels] map is the empty map: only its length and its entries are
    read. *)
Record LabelSelector := MkSelector {
  sel_MatchLabels : string_map;
  sel_MatchExpressions : list LabelSelectorRequirement;
}.

Record ServiceSpreadPolicySpec := PolicySpec {
  SchedulerName : string;
  ServiceSelector : LabelSelector;
  MaxSkew : Z;
  MaxPodsPerNode : Z;
}.

Record ServiceSpreadPolicy := Policy {
  pol_Name : string;
  pol_Namespace : string;
  pol_Spec : ServiceSpreadPolicySpec;
}.

#[export] Instance LabelSelectorRequirement_eq_dec : EqDecision LabelSelectorRequirement.
Proof. solve_decision. Defined.
#[export] Instance LabelSelector_eq_dec : EqDecision LabelSelector.
Proof. solve_decision. Defined.
#[export] Instance PolicySpec_eq_dec : EqDecision ServiceSpreadPolicySpec.
Proof. solve_decision. Defined.
#[export] Instance Policy_eq_dec : EqDecision ServiceSpreadPolicy.
Proof. solve_decision. Defined.

Definition PolicyNamePrefix : string := "ssp-".

(** ** ServiceSpreadArgs *)

(** Durations are [int64] nanoseconds. *)
Definition Second : Z := 1000000000.
Definition Minute : Z := 60 * Second.
Definition Hour : Z := 60 * Minute.

Record ServiceSpreadArgs := MkArgs {
  args_APIVersion : string;
  args_Kind : string;
  ServiceLabelKey : string;
  RequirePolicy : option bool;
  ManagedSchedulerName : string;
  FallbackCacheTTL : Z;
  ReservationTTL : Z;
  ReconcilePeriod : Z;
  ExportNodePods : option bool;
  ExportTargetDetail : option bool;
}.

#[export] Instance Args_eq_dec : EqDecision ServiceSpreadArgs.
Proof. solve_decision. Defined.

Definition ArgsKind : string := "ServiceSpreadArgs".
Definition ArgsGroupVersion : string := "config.scheduling.soyup.top/v1alpha1".
Definition DefaultManagedSchedulerName : string := "service-spread-scheduler".
Definition DefaultFallbackCacheTTL : Z := 10 * Minute.
Definition DefaultReservationTTL : Z := 5 * Minute.
Definition DefaultReconcilePeriod : Z := 10 * Minute.

Definition SetDefaults_ServiceSpreadArgs (a : ServiceSpreadArgs) : ServiceSpreadArgs :=
  {| args_APIVersion := args_APIVersion a;
     args_Kind := args_Kind a;
     ServiceLabelKey := ServiceLabelKey a;
     RequirePolicy := match RequirePolicy a with None => Some true | b => b end;
     ManagedSchedulerName := if decide (ManagedSchedulerName a = "")
                             then DefaultManagedSchedulerName else ManagedSchedulerName a;
     FallbackCacheTTL := if decide (FallbackCacheTTL a = 0)
                         then DefaultFallbackCacheTTL else FallbackCacheTTL a;
     ReservationTTL := if decide (ReservationTTL a = 0)
                       then DefaultReservationTTL else ReservationTTL a;
     ReconcilePeriod := if decide (ReconcilePeriod a = 0)
                        then DefaultReconcilePeriod else ReconcilePeriod a;
     ExportNodePods := match ExportNodePods a with None => Some false | b => b end;
     ExportTargetDetail := match ExportTargetDetail a with None => Some false | b => b end |}.

Section validate.
Context `{KubeLib}.

(** [name_errors] is the check shared by the two name fields: required, then a
    qualified name. *)
Definition name_errors (field required value : string) : list string :=
  if decide (value = "") then [required]
  else match IsQualifiedName value with
       | [] => []
       | msg => [field +:+ ": " +:+ strings_Join msg ", "]
       end.

Definition duration_error (nd : string * Z) : list string :=
  if (nd.2 <? 0) || (nd.2 >? 24 * Hour)
  then [nd.1 +:+ " must be between 0 and 24h, got " +:+ fmt_Duration nd.2] else [].

(** The three durations of the range loop, as the map the source builds. *)
Definition duration_fields (a : ServiceSpreadArgs) : gmap string Z :=
  <["fallbackCacheTTL" := FallbackCacheTTL a]>
    (<["reservationTTL" := ReservationTTL a]>
       (<["reconcilePeriod" := ReconcilePeriod a]> ∅)).

(** [durs] is the order in which the loop visits the map.  [None] is a nil error. *)
Definition validate_in_order (durs : list (string * Z)) (a : ServiceSpreadArgs) : option string :=
  let errs :=
    name_errors "serviceLabelKey" "serviceLabelKey is required" (ServiceLabelKey a) ++
    name_errors "managedSchedulerName" "managedSchedulerName is required (after defaulting)"
      (ManagedSchedulerName a) ++
    concat (duration_error <$> durs) in
  match errs with
  | [] => None
  | _ => Some ("invalid ServiceSpreadArgs: " +:+ strings_Join errs "; ")
  end.

Definition ValidateServiceSpreadArgs (a : ServiceSpreadArgs) : option string :=
  validate_in_order (map_to_list (duration_fields a)) a.

(** ** Decoding *)

(** The [runtime.Object] handed to the factory: nil, the typed arguments, raw JSON,
    or an object of another type (its [%T]). *)
Inductive config_object :=
| ObjNil
| ObjArgs (a : ServiceSpreadArgs)
| ObjUnknown (raw : string)
| ObjOther (type_name : string).

(** [Decode] is the strict JSON decoding of the raw payload into the struct. *)
Definition DecodeServiceSpreadArgs (Decode : string -> res ServiceSpreadArgs)
    (obj : config_object) : res ServiceSpreadArgs :=
  args ←
    match obj with
    | ObjNil => Err ("ServiceSpread plugin requires pluginConfig args (missing pluginConfig entry for "
                     +:+ fmt_q DefaultManagedSchedulerName +:+ ")")
    | ObjArgs t => Ok t
    | ObjUnknown raw =>
      match Decode raw with
      | Err e => Err ("decoding ServiceSpreadArgs: " +:+ e +:+ " (unknown fields are rejected)")
      | Ok a => Ok a
      end
    | ObjOther ty => Err ("unsupported pluginConfig args type " +:+ ty)
    end;
  if decide (args_APIVersion args <> "" /\ args_APIVersion args <> ArgsGroupVersion)
  then Err ("ServiceSpreadArgs apiVersion " +:+ fmt_q (args_APIVersion args) +:+
            " is not supported (expected " +:+ fmt_q ArgsGroupVersion +:+ ")")
  else if decide (args_Kind args <> "" /\ args_Kind args <> ArgsKind)
  then Err ("ServiceSpreadArgs kind " +:+ fmt_q (args_Kind args) +:+
            " is not supported (expected " +:+ fmt_q ArgsKind +:+ ")")
  else
    let args := SetDefaults_ServiceSpreadArgs args in
    match ValidateServiceSpreadArgs args with
    | Some e => Err e
    | None => Ok args
    end.

End validate.

(** ** Specifications *)

Definition duration_ok (d : Z) : Prop := 0 <= d <= 24 * Hour.

Record valid_args `{KubeLib} (a : ServiceSpreadArgs) : Prop := {
  valid_key : ServiceLabelKey a <> "" /\ IsQualifiedName (ServiceLabelKey a) = [];
  valid_sched : ManagedSchedulerName a <> "" /\ IsQualifiedName (ManagedSchedulerName a) = [];
  valid_durations : duration_ok (FallbackCacheTTL a) /\ duration_ok (ReservationTTL a) /\
                    duration_ok (ReconcilePeriod a);
}.

(** The arguments an object carries before the checks, when it carries any. *)
Definition payload (Decode : string -> res ServiceSpreadArgs) (obj : config_object)
    : option ServiceSpreadArgs :=
  match obj with
  | ObjArgs a => Some a
  | ObjUnknown raw => match Decode raw with Ok a => Some a | Err _ => None end
  | _ => None
  end.

Definition type_meta_ok (a : ServiceSpreadArgs) : Prop :=
  (args_APIVersion a = "" \/ args_APIVersion a = ArgsGroupVersion) /\
  (args_Kind a = "" \/ args_Kind a = ArgsKind).

(** ** Lemmas *)

Lemma name_errors_nil `{KubeLib} f req v :
  name_errors f req v = [] <-> v <> "" /\ IsQualifiedName v = [].
Proof. unfold name_errors. case_decide; [naive_solver|]. destruct (IsQualifiedName v); naive_solver. Qed.

Lemma duration_error_nil nd : duration_error nd = [] <-> duration_ok nd.2.
Proof.
  unfold duration_error, duration_ok. destruct (nd.2 <? 0) eqn:E1, (nd.2 >? 24 * Hour) eqn:E2; simpl;
    rewrite Z.gtb_ltb in E2; split; (done || lia).
Qed.

Lemma concat_nil_Forall {A} (ls : list (list A)) : concat ls = [] <-> Forall (fun l => l = []) ls.
Proof.
  induction ls as [|l ls IH]; simpl; [done|]. rewrite Forall_cons, <- IH. split.
  - intros H. by apply app_eq_nil in H.
  - by intros [-> ->].
Qed.

Lemma duration_fields_elem a l nd : enumerates l (duration_fields a) ->
  nd ∈ l <-> nd = ("fallbackCacheTTL", FallbackCacheTTL a) \/
             nd = ("reservationTTL", ReservationTTL a) \/ nd = ("reconcilePeriod", ReconcilePeriod a).
Proof.
  intros ->. unfold duration_fields. rewrite !map_to_list_insert by done.
  rewrite map_to_list_empty, !elem_of_cons. split; [|tauto].
  intros [?|[?|[?|H]]]; auto. by apply not_elem_of_nil in H.
Qed.

Lemma validate_in_order_None `{KubeLib} l a : enumerates l (duration_fields a) ->
  validate_in_order l a = None <-> valid_args a.
Proof.
  intros Hl. transitivity
    (name_errors "serviceLabelKey" "serviceLabelKey is required" (ServiceLabelKey a) = [] /\
     name_errors "managedSchedulerName" "managedSchedulerName is required (after defaulting)"
       (ManagedSchedulerName a) = [] /\ Forall (fun nd => duration_error nd = []) l).
  - assert (Hc : concat (duration_error <$> l) = [] <-> Forall (fun nd => duration_error nd = []) l)
      by (by rewrite concat_nil_Forall, Forall_fmap).
    unfold validate_in_order. rewrite <- Hc.
    set (e1 := name_errors _ _ _). set (e2 := name_errors _ _ _). set (e3 := concat _).
    destruct e1, e2, e3; simpl; naive_solver.
  - rewrite !name_errors_nil, Forall_forall. setoid_rewrite duration_error_nil.
    setoid_rewrite (duration_fields_elem a l _ Hl). split.
    + intros (Hk & Hm & Hd). split; [done|done|].
      pose proof (Hd _ (or_introl eq_refl)). pose proof (Hd _ (or_intror (or_introl eq_refl))).
      pose proof (Hd _ (or_intror (or_intror eq_refl))). done.
    + intros [Hk Hm (H1 & H2 & H3)]. split; [done|]. split; [done|]. naive_solver.
Qed.

Lemma SetDefaults_idempotent a :
  SetDefaults_ServiceSpreadArgs (SetDefaults_ServiceSpreadArgs a) = SetDefaults_ServiceSpreadArgs a.
Proof.
  destruct a as [? ? ? [] n f r p [] []]; unfold SetDefaults_ServiceSpreadArgs; simpl; f_equal;
    repeat case_decide; done.
Qed.

Lemma Decode_ok `{KubeLib} dec obj a :
  DecodeServiceSpreadArgs dec obj = Ok a <->
  exists raw, payload dec obj = Some raw /\ type_meta_ok raw /\
    a = SetDefaults_ServiceSpreadArgs raw /\ valid_args a.
Proof.
  assert (Hraw : forall raw,
    (if decide (args_APIVersion raw <> "" /\ args_APIVersion raw <> ArgsGroupVersion)
     then false else
       bool_decide (~ (args_Kind raw <> "" /\ args_Kind raw <> ArgsKind))) = true <-> type_meta_ok raw).
  { intros raw. unfold type_meta_ok.
    destruct (decide (args_APIVersion raw = "")), (decide (args_APIVersion raw = ArgsGroupVersion)),
      (decide (args_Kind raw = "")), (decide (args_Kind raw = ArgsKind));
      case_decide; try case_bool_decide; naive_solver. }
  assert (Htail : forall raw,
    match ValidateServiceSpreadArgs (SetDefaults_ServiceSpreadArgs raw) with
    | Some e => Err e | None => Ok (SetDefaults_ServiceSpreadArgs raw) end = Ok a <->
    a = SetDefaults_ServiceSpreadArgs raw /\ valid_args a).
  { intros raw. pose proof (validate_in_order_None _ _
      (enumerates_refl (duration_fields (SetDefaults_ServiceSpreadArgs raw)))) as Hv.
    unfold ValidateServiceSpreadArgs. destruct (validate_in_order _ _); naive_solver. }
  assert (Hgo : forall raw, payload dec obj = Some raw ->
    (DecodeServiceSpreadArgs dec obj = Ok a <->
     type_meta_ok raw /\ a = SetDefaults_ServiceSpreadArgs raw /\ valid_args a)).
  { intros raw Hp. rewrite <- Htail, <- Hraw.
    destruct obj as [|t|r|ty]; simpl in Hp; try done; unfold DecodeServiceSpreadArgs.
    - simplify_eq. simpl. repeat case_decide; try case_bool_decide; naive_solver.
    - destruct (dec r); simplify_eq. simpl. repeat case_decide; try case_bool_decide; naive_solver. }
  split.
  - intros HD. destruct (payload dec obj) as [raw|] eqn:Hp.
    + exists raw. split; [done|]. by apply Hgo.
    + exfalso. destruct obj as [|t|r|ty]; simpl in Hp; try done. unfold DecodeServiceSpreadArgs in HD.
      by destruct (dec r).
  - intros (raw & Hp & Hx). by apply (Hgo raw).
Qed.

(** ** Theorems *)

(** C39: [DecodeServiceSpreadArgs] returns [a] if and only if the object carries
    arguments of this group, version and kind (or none), [a] is what defaulting makes
    of them, and [a] is valid: the label key and scheduler name are non-empty
    qualified names and no duration is negative or above 24h.  In what it returns every
    duration is positive (0 selects the default), the optional switches are set, and
    decoding it again changes nothing. *)
Theorem DecodeServiceSpreadArgs_exact `{KubeLib} dec obj a :
  (DecodeServiceSpreadArgs dec obj = Ok a <->
   exists raw, payload dec obj = Some raw /\ type_meta_ok raw /\
     a = SetDefaults_ServiceSpreadArgs raw /\ valid_args a) /\
  (DecodeServiceSpreadArgs dec obj = Ok a ->
   0 < FallbackCacheTTL a <= 24 * Hour /\ 0 < ReservationTTL a <= 24 * Hour /\
   0 < ReconcilePeriod a <= 24 * Hour /\
   is_Some (RequirePolicy a) /\ is_Some (ExportNodePods a) /\ is_Some (ExportTargetDetail a) /\
   DecodeServiceSpreadArgs dec (ObjArgs a) = Ok a).
Proof.
  split; [apply Decode_ok|]. intros HD. pose proof (proj1 (Decode_ok _ _ _) HD) as (raw & Hp & Hm & -> & Hv).
  destruct Hv as [Hk Hs (H1 & H2 & H3)] eqn:Ev. unfold duration_ok in *.
  assert (FallbackCacheTTL (SetDefaults_ServiceSpreadArgs raw) <> 0 /\
          ReservationTTL (SetDefaults_ServiceSpreadArgs raw) <> 0 /\
          ReconcilePeriod (SetDefaults_ServiceSpreadArgs raw) <> 0) as (N1 & N2 & N3).
  { simpl. repeat case_decide; done. }
  repeat (split; [lia|]). repeat (split; [simpl; case_match; by eexists|]).
  apply Decode_ok. exists (SetDefaults_ServiceSpreadArgs raw).
  split; [done|]. split; [exact Hm|]. by rewrite SetDefaults_idempotent.
Qed.

Definition ex_args : ServiceSpreadArgs := MkArgs "" "" "svc" None "" 0 Minute 0 None (Some true).
Definition ex_args_decoder (raw : string) : res ServiceSpreadArgs :=
  if decide (raw = "{}") then Ok ex_args else Err "EOF".

Lemma DecodeServiceSpreadArgs_exact_witness :
  let a := SetDefaults_ServiceSpreadArgs ex_args in
  ReservationTTL a = Minute /\ 0 < ReconcilePeriod a <= 24 * Hour /\ is_Some (RequirePolicy a).
Proof.
  intros a. assert (Hd : DecodeServiceSpreadArgs ex_args_decoder (ObjUnknown "{}") = Ok a)
    by (vm_compute; reflexivity).
  destruct (proj2 (DecodeServiceSpreadArgs_exact ex_args_decoder (ObjUnknown "{}") a) Hd)
    as (_ & _ & Hp & Hr & _).
  split; [reflexivity|]. split; [exact Hp|exact Hr].
Defined.

(** Whether the validation accepts does not depend on the order in which it
    visits the durations (a map range loop), it accepts exactly the valid
    arguments, and a rejection reports at least every invalid field. *)
Theorem Validate_order_independent `{KubeLib} l a : enumerates l (duration_fields a) ->
  (validate_in_order l a = None <-> ValidateServiceSpreadArgs a = None) /\
  (ValidateServiceSpreadArgs a = None <-> valid_args a) /\
  (forall nd, nd ∈ l -> ~ duration_ok nd.2 -> exists e pre post,
     validate_in_order l a = Some ("invalid ServiceSpreadArgs: " +:+ strings_Join e "; ") /\
     e = pre ++ (nd.1 +:+ " must be between 0 and 24h, got " +:+ fmt_Duration nd.2) :: post).
Proof.
  intros Hl. unfold ValidateServiceSpreadArgs. rewrite (validate_in_order_None l a Hl).
  rewrite (validate_in_order_None _ a (enumerates_refl _)). split; [done|]. split; [done|].
  intros nd Hin Hbad. apply list_elem_of_split in Hin as (l1 & l2 & ->).
  unfold validate_in_order. rewrite fmap_app, fmap_cons, concat_app. simpl concat.
  assert (Hd : duration_error nd = [nd.1 +:+ " must be between 0 and 24h, got " +:+ fmt_Duration nd.2]).
  { unfold duration_error, duration_ok in *.
    destruct (nd.2 <? 0) eqn:E1, (nd.2 >? 24 * Hour) eqn:E2; simpl; try done.
    rewrite Z.gtb_ltb in E2. lia. }
  rewrite Hd. set (e1 := name_errors _ _ _). set (e2 := name_errors _ _ _).
  exists (e1 ++ e2 ++ concat (duration_error <$> l1) ++
          (nd.1 +:+ " must be between 0 and 24h, got " +:+ fmt_Duration nd.2) ::
          concat (duration_error <$> l2)),
    (e1 ++ e2 ++ concat (duration_error <$> l1)), (concat (duration_error <$> l2)).
  split; [|by rewrite <- !app_assoc]. cbn [app].
  destruct (e1 ++ e2 ++ _ ++ _ :: _) eqn:E; [|by rewrite <- E].
  apply app_eq_nil in E as [_ E]. apply app_eq_nil in E as [_ E]. by apply app_eq_nil in E as [_ ?].
Qed.

Lemma Validate_order_independent_witness :
  let a := MkArgs "" "" "svc" None "s" (25 * Hour) 0 (-1) None None in
  let l := [("reconcilePeriod", -1); ("fallbackCacheTTL", 25 * Hour); ("reservationTTL", 0)] in
  ValidateServiceSpreadArgs a <> None /\
  (validate_in_order l a = None <-> ValidateServiceSpreadArgs a = None).
Proof.
  intros a l. split; [vm_compute; discriminate|].
  refine (proj1 (Validate_order_independent l a _)).
  apply (perm_trans (l' := map_to_list (duration_fields a))); [|reflexivity].
  by_decide.
Defined.
