(* ===== verification/DeepCopy.v ===== *)
(** * The generated deep copies (zz_generated.deepcopy.go of both API packages)

    Structs with pointers into the heap of [Heap].  [DeepCopyInto] copies the struct,
    then gives the copy new objects wherever the original has a pointer; the copies of
    the Kubernetes types inside are apimachinery's and are parameters with the law
    that they are deep.  The Items of a policy list are a slice of structs: its backing
    array is an object of a store of its own, written in place. *)

From S2P Require Import Prelude State Api Heap.

(** ** [ServiceSpreadArgs] *)

Record hArgs := HArgs {
  ha_APIVersion : string;
  ha_Kind : string;
  ha_ServiceLabelKey : string;
  ha_RequirePolicy : option loc;
  ha_ManagedSchedulerName : string;
  ha_FallbackCacheTTL : Z;
  ha_ReservationTTL : Z;
  ha_ReconcilePeriod : Z;
  ha_ExportNodePods : option loc;
  ha_ExportTargetDetail : option loc;
}.

Definition on_bool (f : bool -> bool) (c : cell) : option cell :=
  match c with CBool b => Some (CBool (f b)) | _ => None end.

(** [if p != nil { *out = new(bool); **out = **p }]; reading through a pointer to
    something else cannot happen. *)
Definition copy_bool (p : option loc) : hM (option loc) :=
  match p with
  | None => mret None
  | Some l => fun h =>
    match h_cells h !! l with
    | Some (CBool b) =>
      (n ← make (CBool false);
       _ ← hstore n (on_bool (fun _ => b));
       mret (Some n)) h
    | _ => Panic
    end
  end.

(** [DeepCopyInto], with [out] as the result. *)
Definition Args_DeepCopyInto (a : hArgs) : hM hArgs :=
  rp ← copy_bool (ha_RequirePolicy a);
  np ← copy_bool (ha_ExportNodePods a);
  td ← copy_bool (ha_ExportTargetDetail a);
  mret (HArgs (ha_APIVersion a) (ha_Kind a) (ha_ServiceLabelKey a) rp (ha_ManagedSchedulerName a)
          (ha_FallbackCacheTTL a) (ha_ReservationTTL a) (ha_ReconcilePeriod a) np td).

(** [DeepCopy] of a pointer (and [DeepCopyObject], whose nil result is a nil
    interface): nil is copied to nil. *)
Definition nil_or_copy {A} (into : A -> hM A) (p : option A) : hM (option A) :=
  match p with
  | None => mret None
  | Some a => out ← into a; mret (Some out)
  end.

Definition Args_DeepCopy : option hArgs -> hM (option hArgs) := nil_or_copy Args_DeepCopyInto.

(** What the struct stands for, and the objects it reaches. *)
Definition ptr_at (h : heap) (p : option loc) (v : option bool) : Prop :=
  match p, v with
  | None, None => True
  | Some l, Some b => h_cells h !! l = Some (CBool b)
  | _, _ => False
  end.

Definition ptr_locs (p : option loc) : gset loc := match p with Some l => {[l]} | None => ∅ end.

Record args_at (h : heap) (ha : hArgs) (a : ServiceSpreadArgs) : Prop := {
  aa_flat : (ha_APIVersion ha, ha_Kind ha, ha_ServiceLabelKey ha, ha_ManagedSchedulerName ha,
             ha_FallbackCacheTTL ha, ha_ReservationTTL ha, ha_ReconcilePeriod ha) =
            (args_APIVersion a, args_Kind a, ServiceLabelKey a, ManagedSchedulerName a,
             FallbackCacheTTL a, ReservationTTL a, ReconcilePeriod a);
  aa_RequirePolicy : ptr_at h (ha_RequirePolicy ha) (RequirePolicy a);
  aa_ExportNodePods : ptr_at h (ha_ExportNodePods ha) (ExportNodePods a);
  aa_ExportTargetDetail : ptr_at h (ha_ExportTargetDetail ha) (ExportTargetDetail a);
}.

Definition args_locs (ha : hArgs) : gset loc :=
  ptr_locs (ha_RequirePolicy ha) ∪ ptr_locs (ha_ExportNodePods ha) ∪ ptr_locs (ha_ExportTargetDetail ha).

(** ** Lemmas *)

(** A result that owns only new objects. *)
Definition fresh_at {A} (P : heap -> A -> gset loc -> Prop) (h : heap) : A -> heap -> Prop :=
  fun a h' => exists F, P h' a F /\ ext ∅ h F h'.

Lemma fresh_bind {A B} (m : hM A) (k : A -> hM B) (P : heap -> A -> gset loc -> Prop) (Q : heap -> B -> gset loc -> Prop) h :
  hspec m h (fresh_at P h) ->
  (forall a h1 F1, P h1 a F1 -> ext ∅ h F1 h1 ->
     hspec (k a) h1 (fun b h2 => exists F2, Q h2 b F2 /\ ext F1 h1 F2 h2)) ->
  hspec (m ≫= k) h (fresh_at Q h).
Proof.
  intros Hm Hk. apply hspec_bind. hcall Hm. intros a h1 (F1 & Ha & He1). hcall (Hk a h1 F1 Ha He1).
  intros b h2 (F2 & Hb & He2). exists F2. split; [done|by eapply ext_trans].
Qed.

Lemma ptr_at_frame h h' p v : ptr_at h p v -> (forall l, l ∈ ptr_locs p -> h_cells h' !! l = h_cells h !! l) -> ptr_at h' p v.
Proof. destruct p as [l|], v as [b|]; simpl; try done. intros Hl Hf. rewrite Hf; [done|set_solver]. Qed.

Lemma ext_fresh h F h' G :
  ext ∅ h F h' -> below G h -> (forall l, l ∈ G -> h_cells h' !! l = h_cells h !! l) /\ G ## F /\ below G h'.
Proof. intros He HG. apply (ext_keep ∅ h F h' G); [done|done|set_solver]. Qed.

Lemma copy_bool_spec p v h :
  ptr_at h p v -> hspec (copy_bool p) h (fresh_at (fun h' q F => ptr_at h' q v /\ F = ptr_locs q) h).
Proof.
  unfold copy_bool, fresh_at. destruct p as [l|], v as [b|]; simpl; try done.
  - intros Hl. unfold hspec. rewrite Hl. fold (hspec (n ← make (CBool false); _ ← hstore n (on_bool (fun _ => b)); mret (Some n)) h).
    hstep. apply hspec_bind. eapply hspec_store; [simpl; by rewrite lookup_insert_eq|apply Pos.le_1_l|done|].
    rewrite upd_grow. apply hspec_ret. eexists. split; [split; [simpl; by rewrite lookup_insert_eq|done]|]. simpl.
    replace {[h_next h]} with (∅ ∪ {[h_next h]} : gset loc) by set_solver. apply ext_make. intros x Hx. set_solver.
  - intros _. apply hspec_ret. exists ∅. split; [done|]. apply ext_refl. intros x Hx. set_solver.
Qed.

Lemma args_at_frame h h' ha a :
  args_at h ha a -> (forall l, l ∈ args_locs ha -> h_cells h' !! l = h_cells h !! l) -> args_at h' ha a.
Proof.
  intros [Hf H1 H2 H3] Hfr. unfold args_locs in Hfr.
  split; [done|..]; (eapply ptr_at_frame; [done|]); intros l Hl; apply Hfr; set_solver.
Qed.

Lemma args_at_upd h ha a l cl : args_at h ha a -> l ∉ args_locs ha -> args_at (upd h l cl) ha a.
Proof.
  intros Ha Hl. eapply args_at_frame; [done|]. intros x Hx. simpl. rewrite lookup_insert_ne; [done|]. by intros ->.
Qed.

(** ServiceSpreadArgs.DeepCopyInto is deep: the copy stands for the same arguments, the original still does, and the
    two share no object, so that setting an optional switch through one is never seen through the other; the
    original may even alias its own switches. *)
Theorem Args_DeepCopy_independent h ha a :
  args_at h ha a -> below (args_locs ha) h ->
  hspec (Args_DeepCopyInto ha) h (fun c h' =>
    args_at h' c a /\ args_at h' ha a /\ args_locs c ## args_locs ha /\
    (forall l cl, l ∈ args_locs c -> args_at (upd h' l cl) ha a) /\
    (forall l cl, l ∈ args_locs ha -> args_at (upd h' l cl) c a)).
Proof.
  intros Ha Hb. unfold Args_DeepCopyInto.
  apply hspec_bind. hcall copy_bool_spec; [apply Ha|]. intros rp h1 (F1 & [Hrp ->] & He1).
  destruct (ext_fresh _ _ _ _ He1 Hb) as (Hf1 & Hd1 & Hb1). pose proof (args_at_frame _ _ _ _ Ha Hf1) as Ha1.
  apply hspec_bind. hcall copy_bool_spec; [apply Ha1|]. intros np h2 (F2 & [Hnp ->] & He2).
  assert (Hb1' : below (args_locs ha ∪ ptr_locs rp) h1).
  { intros l [Hl|Hl]%elem_of_union; [by apply Hb1|by apply (below_ext _ _ _ _ He1)]. }
  destruct (ext_fresh _ _ _ _ He2 Hb1') as (Hf2 & Hd2 & Hb2).
  assert (Ha2 : args_at h2 ha a) by (apply (args_at_frame _ _ _ _ Ha1); intros l Hl; apply Hf2; set_solver).
  apply hspec_bind. hcall copy_bool_spec; [apply Ha2|]. intros td h3 (F3 & [Htd ->] & He3).
  assert (Hb2' : below (args_locs ha ∪ ptr_locs rp ∪ ptr_locs np) h2).
  { intros l [Hl|Hl]%elem_of_union; [by apply Hb2|by apply (below_ext _ _ _ _ He2)]. }
  destruct (ext_fresh _ _ _ _ He3 Hb2') as (Hf3 & Hd3 & _).
  assert (Ha3 : args_at h3 ha a) by (apply (args_at_frame _ _ _ _ Ha2); intros l Hl; apply Hf3; set_solver).
  apply hspec_ret. match goal with |- args_at _ ?c _ /\ _ =>
    assert (Hc : args_at h3 c a); [|assert (Hdis : args_locs c ## args_locs ha) by (unfold args_locs at 1; simpl; set_solver)] end.
  { split; simpl; [apply Ha| | |done].
    - eapply ptr_at_frame; [done|]. intros l Hl. rewrite Hf3 by set_solver. apply Hf2. set_solver.
    - eapply ptr_at_frame; [done|]. intros l Hl. apply Hf3. set_solver. }
  split_and!; [done..| |]; intros l cl Hl; (apply args_at_upd; [done|]); set_solver.
Qed.

Definition ex_hargs : hArgs := HArgs "" "" "svc" (Some 1%positive) "s" 1 2 3 None (Some 1%positive).

Lemma Args_DeepCopy_independent_witness :
  exists c h', Args_DeepCopyInto ex_hargs (Heap 2 {[1%positive := CBool true]}) = Val (c, h') /\
    args_at h' c (MkArgs "" "" "svc" (Some true) "s" 1 2 3 None (Some true)) /\ args_locs c ## args_locs ex_hargs.
Proof.
  destruct (Args_DeepCopy_independent (Heap 2 {[1%positive := CBool true]}) ex_hargs
              (MkArgs "" "" "svc" (Some true) "s" 1 2 3 None (Some true))) as (c & h' & Hrun & Hc & _ & Hd & _).
  - by split.
  - intros l Hl. assert (l = 1%positive) as -> by (unfold args_locs, ex_hargs in Hl; simpl in Hl; set_solver). done.
  - exists c, h'. split; [exact Hrun|]. split; [exact Hc|exact Hd].
Defined.

(** ** Deep copies as an interface *)

(** A type whose values of shape [A] stand for a [V] and own a set of objects. *)
Class DeepCopier (A V : Type) := {
  holds : heap -> A -> V -> gset loc -> Prop;
  deep_copy : A -> hM A;
}.

Class DeepCopierLaws (A V : Type) `{DeepCopier A V} : Prop := {
  holds_frame h h' (a : A) (v : V) F :
    holds h a v F -> (forall l, l ∈ F -> h_cells h' !! l = h_cells h !! l) -> holds h' a v F;
  deep_copy_fresh h (a : A) (v : V) F :
    holds h a v F -> below F h -> hspec (deep_copy a) h (fresh_at (fun h' c F' => holds h' c v F') h);
}.

(** What the laws give to a user of a copy. *)
Definition independent {A V} `{DeepCopier A V} (a : A) (v : V) (F : gset loc) (c : A) (h' : heap) : Prop :=
  exists F', holds h' c v F' /\ holds h' a v F /\ F' ## F /\
    (forall l cl, l ∈ F' -> holds (upd h' l cl) a v F) /\ (forall l cl, l ∈ F -> holds (upd h' l cl) c v F').

Lemma deep_copy_independent {A V} `{DeepCopierLaws A V} h (a : A) (v : V) F :
  holds h a v F -> below F h -> hspec (deep_copy a) h (independent a v F).
Proof.
  intros Ha Hb. hcall deep_copy_fresh; [done..|]. intros c h' (F' & Hc & He).
  destruct (ext_fresh _ _ _ _ He Hb) as (Hf & Hd & _).
  assert (Ha' : holds h' a v F) by (by eapply holds_frame).
  assert (Hupd : forall (x : A) G l cl, holds h' x v G -> l ∉ G -> holds (upd h' l cl) x v G).
  { intros x G l cl Hx Hl. eapply holds_frame; [done|]. intros y Hy. simpl. rewrite lookup_insert_ne; [done|]. by intros ->. }
  exists F'. split_and!; [done|done|set_solver| |]; intros l cl Hl; apply Hupd; try done; set_solver.
Qed.

Lemma ext_seq h F1 h1 F2 h2 : ext ∅ h F1 h1 -> ext ∅ h1 F2 h2 -> ext ∅ h (F1 ∪ F2) h2.
Proof.
  intros He1 He2. eapply ext_trans; [done|].
  pose proof (ext_union _ _ _ _ _ He2 (below_ext _ _ _ _ He1)) as Hu.
  by replace (F1 ∪ F2) with (F2 ∪ F1) by set_solver; replace F1 with (∅ ∪ F1) at 1 by set_solver.
Qed.

(** Two copies in sequence. *)
Lemma fresh_pair {A B C VA VB} `{DeepCopierLaws A VA, DeepCopierLaws B VB} (mk : A -> B -> C)
    (P : heap -> C -> gset loc -> Prop) h a b (va : VA) (vb : VB) Fa Fb :
  holds h a va Fa -> holds h b vb Fb -> below Fa h -> below Fb h ->
  (forall h' a' b' Fa' Fb', holds h' a' va Fa' -> holds h' b' vb Fb' -> Fa' ## Fb' -> P h' (mk a' b') (Fa' ∪ Fb')) ->
  hspec (a' ← deep_copy a; b' ← deep_copy b; mret (mk a' b')) h (fresh_at P h).
Proof.
  intros Ha Hb HFa HFb HP. apply hspec_bind. hcall deep_copy_fresh; [done|done|]. intros a' h1 (F1 & Ha' & He1).
  destruct (ext_fresh _ _ _ _ He1 HFb) as (Hf1 & _ & Hb1).
  apply hspec_bind. hcall (deep_copy_fresh (A := B)); [by eapply holds_frame|done|]. intros b' h2 (F2 & Hb' & He2).
  pose proof (below_ext _ _ _ _ He1) as Hbl1. destruct (ext_fresh _ _ _ _ He2 Hbl1) as (Hf2 & Hd2 & _).
  apply hspec_ret. exists (F1 ∪ F2). split; [apply HP; [by eapply holds_frame|done|set_solver]|].
  by eapply ext_seq.
Qed.

Section policy.
(** [metav1.ObjectMeta], [metav1.LabelSelector], [metav1.ListMeta] and their generated copies. *)
Context {ObjectMeta ObjectMetaV Selector ListMeta ListMetaV : Type}.
Context `{!DeepCopier ObjectMeta ObjectMetaV, !DeepCopierLaws ObjectMeta ObjectMetaV}.
Context `{!DeepCopier Selector LabelSelector, !DeepCopierLaws Selector LabelSelector}.
Context `{!DeepCopier ListMeta ListMetaV, !DeepCopierLaws ListMeta ListMetaV}.

Record hSpec := HSpec {
  hs_SchedulerName : string;
  hs_ServiceSelector : Selector;
  hs_MaxSkew : Z;
  hs_MaxPodsPerNode : Z;
}.

Record hPolicy := HPolicy { hp_TypeMeta : string * string; hp_ObjectMeta : ObjectMeta; hp_Spec : hSpec }.

(** A slice of policies: the backing array, where the slice begins and its length. *)
Record hSlice := HSlice { sl_array : loc; sl_off : nat; sl_len : nat }.

(** [None] is a nil slice. *)
Record hPolicyList := HPolicyList {
  hl_TypeMeta : string * string;
  hl_ListMeta : ListMeta;
  hl_Items : option hSlice;
}.

Definition Spec_DeepCopyInto (s : hSpec) : hM hSpec :=
  sel ← deep_copy (hs_ServiceSelector s);
  mret (HSpec (hs_SchedulerName s) sel (hs_MaxSkew s) (hs_MaxPodsPerNode s)).

Definition spec_holds (h : heap) (s : hSpec) (v : ServiceSpreadPolicySpec) (F : gset loc) : Prop :=
  holds h (hs_ServiceSelector s) (ServiceSelector v) F /\ hs_SchedulerName s = SchedulerName v /\
  hs_MaxSkew s = MaxSkew v /\ hs_MaxPodsPerNode s = MaxPodsPerNode v.

#[export] Instance spec_copier : DeepCopier hSpec ServiceSpreadPolicySpec := {|
  holds := spec_holds; deep_copy := Spec_DeepCopyInto |}.

#[export] Instance spec_laws : DeepCopierLaws hSpec ServiceSpreadPolicySpec.
Proof.
  split; simpl.
  - intros h h' a v F (Hs & Hr) Hf. split; [by eapply holds_frame|done].
  - intros h a v F (Hs & Hr) Hb. unfold Spec_DeepCopyInto. apply hspec_bind. hcall deep_copy_fresh; [done|done|].
    intros sel h1 (F1 & Hs1 & He1). apply hspec_ret. exists F1. split; [by split|done].
Qed.

Definition Policy_DeepCopyInto (p : hPolicy) : hM hPolicy :=
  m ← deep_copy (hp_ObjectMeta p);
  s ← Spec_DeepCopyInto (hp_Spec p);
  mret (HPolicy (hp_TypeMeta p) m s).

Definition policy_value : Type := (string * string) * ObjectMetaV * ServiceSpreadPolicySpec.

Definition policy_holds (h : heap) (p : hPolicy) (v : policy_value) (F : gset loc) : Prop :=
  exists Fm Fs, hp_TypeMeta p = v.1.1 /\ holds h (hp_ObjectMeta p) v.1.2 Fm /\ holds h (hp_Spec p) v.2 Fs /\ F = Fm ∪ Fs.

#[export] Instance policy_copier : DeepCopier hPolicy policy_value := {|
  holds := policy_holds; deep_copy := Policy_DeepCopyInto |}.

#[export] Instance policy_laws : DeepCopierLaws hPolicy policy_value.
Proof.
  split.
  - intros h h' a v F (Fm & Fs & Ht & Hm & Hs & ->) Hf. exists Fm, Fs.
    split_and!; [done|eapply holds_frame; [done|]|eapply holds_frame; [done|]|done]; intros l Hl; apply Hf; set_solver.
  - intros h a v F (Fm & Fs & Ht & Hm & Hs & ->) Hb. simpl. unfold Policy_DeepCopyInto.
    pose proof (fresh_pair (A := ObjectMeta) (B := hSpec) (C := hPolicy) (VA := ObjectMetaV) (VB := ServiceSpreadPolicySpec)) as Hpair.
    apply (Hpair (HPolicy (hp_TypeMeta a)) (fun h' c F => policy_holds h' c v F) h (hp_ObjectMeta a) (hp_Spec a) v.1.2 v.2 Fm Fs); try done.
    + intros x Hx. apply Hb. set_solver.
    + intros x Hx. apply Hb. set_solver.
    + intros h' m' s' Fm' Fs' Hm' Hs' _. exists Fm', Fs'. by split_and!.
Qed.

Definition policy_frame h h' p v F : policy_holds h p v F -> (forall l, l ∈ F -> h_cells h' !! l = h_cells h !! l) ->
  policy_holds h' p v F := holds_frame (A := hPolicy) (V := policy_value) h h' p v F.
Definition policy_fresh h p v F : policy_holds h p v F -> below F h ->
  hspec (Policy_DeepCopyInto p) h (fresh_at (fun h' c F' => policy_holds h' c v F') h) :=
  deep_copy_fresh (A := hPolicy) (V := policy_value) h p v F.

Fixpoint items_hold (h : heap) (l : list hPolicy) (vs : list policy_value) (F : gset loc) : Prop :=
  match l, vs with
  | [], [] => F = ∅
  | p :: l, v :: vs => exists Fp Fl, policy_holds h p v Fp /\ items_hold h l vs Fl /\ F = Fp ∪ Fl
  | _, _ => False
  end.

Lemma items_frame h h' l vs F :
  items_hold h l vs F -> (forall x, x ∈ F -> h_cells h' !! x = h_cells h !! x) -> items_hold h' l vs F.
Proof.
  revert vs F. induction l as [|p l IH]; intros [|v vs] F; simpl; try done.
  intros (Fp & Fl & Hp & Hl & ->) Hf. exists Fp, Fl. split_and!; [|apply IH; [done|]|done].
  - apply (policy_frame h); [done|]. intros x Hx. apply Hf. set_solver.
  - intros x Hx. apply Hf. set_solver.
Qed.

(** ** Slices *)

(** The heap and the backing arrays of the slices of policies. *)
Record memory := Memory {
  st_heap : heap;
  st_arrays : gmap loc (list hPolicy);
  st_next : loc;
}.

Definition aM (A : Type) : Type := memory -> go (A * memory).

#[export] Instance aM_ret : MRet aM := fun A a st => Val (a, st).
#[export] Instance aM_bind : MBind aM :=
  fun A B f m st => match m st with Val (a, st) => f a st | Panic => Panic end.

(** A computation that touches no array. *)
Definition lift {A} (m : hM A) : aM A := fun st =>
  match m (st_heap st) with
  | Val (a, h) => Val (a, Memory h (st_arrays st) (st_next st))
  | Panic => Panic
  end.

(** [make([]ServiceSpreadPolicy, n)]; [zero] is the zero policy. *)
Variable zero : hPolicy.

Definition make_slice (n : nat) : aM hSlice := fun st =>
  Val (HSlice (st_next st) 0 n,
       Memory (st_heap st) (<[st_next st := replicate n zero]> (st_arrays st)) (Pos.succ (st_next st))).

(** [s[i]]; an index out of range panics. *)
Definition elem (sl : hSlice) (i : nat) : aM hPolicy := fun st =>
  match st_arrays st !! sl_array sl with
  | Some arr => if decide (i < sl_len sl)%nat then
                  match arr !! (sl_off sl + i)%nat with Some p => Val (p, st) | None => Panic end
                else Panic
  | None => Panic
  end.

(** [s[i] = p] *)
Definition set_elem (sl : hSlice) (i : nat) (p : hPolicy) : aM () := fun st =>
  match st_arrays st !! sl_array sl with
  | Some arr =>
    if decide (i < sl_len sl)%nat then
      Val (tt, Memory (st_heap st) (<[sl_array sl := <[(sl_off sl + i)%nat := p]> arr]> (st_arrays st)) (st_next st))
    else Panic
  | None => Panic
  end.

(** The loop over the items, from [i] on: each is copied into the new array in place. *)
Fixpoint copy_items (src dst : hSlice) (i n : nat) : aM () :=
  match n with
  | O => mret tt
  | S n =>
    p ← elem src i;
    p' ← lift (Policy_DeepCopyInto p);
    _ ← set_elem dst i p';
    copy_items src dst (S i) n
  end.

Definition PolicyList_DeepCopyInto (p : hPolicyList) : aM hPolicyList :=
  m ← lift (deep_copy (hl_ListMeta p));
  match hl_Items p with
  | None => mret (HPolicyList (hl_TypeMeta p) m None)
  | Some items =>
    out ← make_slice (sl_len items);
    _ ← copy_items items out 0 (sl_len items);
    mret (HPolicyList (hl_TypeMeta p) m (Some out))
  end.

Definition Spec_DeepCopy : option hSpec -> hM (option hSpec) := nil_or_copy Spec_DeepCopyInto.
Definition Policy_DeepCopy : option hPolicy -> hM (option hPolicy) := nil_or_copy Policy_DeepCopyInto.
Definition PolicyList_DeepCopy (p : option hPolicyList) : aM (option hPolicyList) :=
  match p with
  | None => mret None
  | Some p => out ← PolicyList_DeepCopyInto p; mret (Some out)
  end.

(** ** What a list stands for *)

Definition list_value : Type := (string * string) * ListMetaV * option (list policy_value).

(** The elements a slice shows. *)
Definition slice_elems (st : memory) (sl : hSlice) : option (list hPolicy) :=
  arr ← st_arrays st !! sl_array sl;
  if decide (sl_off sl + sl_len sl <= length arr)%nat then Some (take (sl_len sl) (drop (sl_off sl) arr)) else None.

(** The list owns the heap objects [F] and the arrays [A]; a nil slice has none. *)
Definition list_holds (st : memory) (p : hPolicyList) (v : list_value) (F A : gset loc) : Prop :=
  exists Fm Fi, hl_TypeMeta p = v.1.1 /\ holds (st_heap st) (hl_ListMeta p) v.1.2 Fm /\
    match hl_Items p, v.2 with
    | None, None => Fi = ∅ /\ A = ∅
    | Some sl, Some vs =>
      A = {[sl_array sl]} /\ exists items, slice_elems st sl = Some items /\ items_hold (st_heap st) items vs Fi
    | _, _ => False
    end /\ F = Fm ∪ Fi.

(** Everything the list reaches is allocated. *)
Definition allocated (st : memory) (F A : gset loc) : Prop :=
  below F (st_heap st) /\ forall a, a ∈ A -> (a < st_next st)%positive.

(** Writes through a heap object and through an element of an array. *)
Definition write_object (st : memory) (x : loc) (c : cell) : memory :=
  Memory (upd (st_heap st) x c) (st_arrays st) (st_next st).
Definition write_array (st : memory) (a : loc) (items : list hPolicy) : memory :=
  Memory (st_heap st) (<[a := items]> (st_arrays st)) (st_next st).

(** ** Lemmas on slices *)

Lemma list_holds_frame st st' p v F A :
  list_holds st p v F A -> (forall l, l ∈ F -> h_cells (st_heap st') !! l = h_cells (st_heap st) !! l) ->
  (forall a, a ∈ A -> st_arrays st' !! a = st_arrays st !! a) -> list_holds st' p v F A.
Proof.
  intros (Fm & Fi & Ht & Hm & Hi & ->) Hf Ha. exists Fm, Fi. split; [done|].
  split; [eapply holds_frame; [done|]; intros l Hl; apply Hf; set_solver|]. split; [|done].
  destruct (hl_Items p) as [sl|], v.2 as [vs|]; try done. destruct Hi as (-> & items & Hs & Hi).
  split; [done|]. exists items. split.
  - unfold slice_elems. rewrite Ha by set_solver. exact Hs.
  - eapply items_frame; [done|]. intros l Hl. apply Hf. set_solver.
Qed.

Lemma lift_spec {A} (m : hM A) (Q : A -> heap -> Prop) st :
  hspec m (st_heap st) Q -> exists a h, lift m st = Val (a, Memory h (st_arrays st) (st_next st)) /\ Q a h.
Proof. intros (a & h & Hm & HQ). exists a, h. unfold lift. by rewrite Hm. Qed.

Lemma aM_bind_val {A B} (m : aM A) (k : A -> aM B) st a st' : m st = Val (a, st') -> (m ≫= k) st = k a st'.
Proof. unfold mbind, aM_bind. by intros ->. Qed.

Lemma insert_middle {A} (l1 l2 : list A) x y : <[length l1 := y]> (l1 ++ x :: l2) = l1 ++ y :: l2.
Proof. induction l1 as [|z l1 IH]; simpl; [done|by rewrite IH]. Qed.

(** The loop: [copied] has been copied, [l] is left, and the new array has room for it. *)
Lemma copy_items_spec src dst arr l : forall i st copied rest vs F,
  st_arrays st !! sl_array src = Some arr -> sl_array src <> sl_array dst ->
  (sl_off src + (i + length l) <= length arr)%nat -> (i + length l)%nat = sl_len src ->
  take (length l) (drop (sl_off src + i) arr) = l ->
  st_arrays st !! sl_array dst = Some (copied ++ rest) -> length copied = i -> length rest = length l ->
  sl_off dst = 0%nat -> sl_len dst = sl_len src ->
  items_hold (st_heap st) l vs F -> below F (st_heap st) ->
  exists l' F' h', copy_items src dst i (length l) st =
      Val (tt, Memory h' (<[sl_array dst := copied ++ l']> (st_arrays st)) (st_next st)) /\
    length l' = length l /\ items_hold h' l' vs F' /\ ext ∅ (st_heap st) F' h'.
Proof.
  induction l as [|p l IH]; intros i st copied rest vs F Harr Hne Hle Hlen Htake Hdst Hci Hri Ho Hsl Hv Hb.
  - destruct vs; [|done]. destruct rest; [|done]. simpl in Hv. subst F. exists [], ∅, (st_heap st).
    rewrite app_nil_r in Hdst |- *. rewrite insert_id by done. split; [by destruct st|]. split; [done|]. split; [done|].
    apply ext_refl. intros x Hx. set_solver.
  - destruct vs as [|v vs]; [done|]. destruct Hv as (Fp & Fl & Hp & Hl & ->). destruct rest as [|r0 rest]; [done|].
    simpl length in *. cbn [copy_items].
    assert (Hsrc : drop (sl_off src + i) arr = p :: drop (sl_off src + S i) arr /\
                   take (length l) (drop (sl_off src + S i) arr) = l).
    { destruct (drop (sl_off src + i) arr) as [|q tl] eqn:Ed; [done|]. simpl in Htake. injection Htake as -> Hl'.
      replace (sl_off src + S i)%nat with (1 + (sl_off src + i))%nat by lia.
      rewrite Nat.add_comm, <- drop_drop, Ed. by rewrite skipn_cons, drop_0. }
    destruct Hsrc as [Hd Htl].
    assert (Hat : arr !! (sl_off src + i)%nat = Some p) by (rewrite <- (Nat.add_0_r (sl_off src + i)), <- lookup_drop, Hd; done).
    erewrite aM_bind_val; [|unfold elem; rewrite Harr, decide_True, Hat by lia; done].
    assert (HbFp : below Fp (st_heap st)) by (intros x Hx; apply Hb; set_solver).
    destruct (lift_spec _ _ st (policy_fresh _ p v Fp Hp HbFp))
      as (p' & h1 & Hrun & F1 & Hp' & He1).
    erewrite aM_bind_val by exact Hrun.
    erewrite aM_bind_val; [|unfold set_elem; simpl; rewrite Hdst, decide_True by lia; done].
    rewrite Ho, Nat.add_0_l, <- Hci, insert_middle.
    destruct (ext_fresh _ _ _ Fl He1) as (Hf1 & _ & Hb1); [intros x Hx; apply Hb; set_solver|].
    match goal with |- context [copy_items src dst _ _ ?s1] =>
      destruct (IH (S (length copied)) s1 (copied ++ [p']) rest vs Fl) as (l' & F2 & h2 & Hrun2 & Hlen2 & Hl2 & He2) end;
      simpl; rewrite ?lookup_insert_eq, ?length_app, ?insert_insert_eq in *; simpl; try lia; try done.
    + by rewrite lookup_insert_ne.
    + rewrite <- Htl at 2. f_equal. f_equal. lia.
    + by rewrite <- app_assoc.
    + by eapply items_frame.
    + exists (p' :: l'), (F1 ∪ F2), h2. rewrite Hrun2. rewrite <- app_assoc. simpl. rewrite insert_insert_eq.
      split; [done|]. split; [lia|].
      destruct (ext_fresh _ _ _ _ He2 (below_ext _ _ _ _ He1)) as (Hf2 & _ & _).
      split; [exists F1, F2; split_and!; [by apply (policy_frame h1)|done|done]|by eapply ext_seq].
Qed.

(** A copy that is new, and an original that is as before. *)
Lemma PolicyList_copy st l v F A :
  list_holds st l v F A -> allocated st F A ->
  exists c st' F' A', PolicyList_DeepCopyInto l st = Val (c, st') /\
    list_holds st' c v F' A' /\ list_holds st' l v F A /\ F' ## F /\ A' ## A.
Proof.
  intros Hl [HbF HbA]. pose proof Hl as (Fm & Fi & Ht & Hm & Hi & EF). unfold PolicyList_DeepCopyInto.
  assert (HbFm : below Fm (st_heap st)) by (intros x Hx; apply HbF; set_solver).
  destruct (lift_spec _ _ st (deep_copy_fresh _ _ _ _ Hm HbFm)) as (m & h1 & Hrun & F1 & Hm1 & He1).
  erewrite aM_bind_val by exact Hrun.
  destruct (ext_fresh _ _ _ F He1 HbF) as (Hf1 & Hd1 & Hb1).
  destruct (hl_Items l) as [sl|] eqn:El, v.2 as [vs|] eqn:Ev; try done.
  - destruct Hi as (-> & items & Hs & Hi). unfold slice_elems in Hs.
    destruct (st_arrays st !! sl_array sl) as [arr|] eqn:Earr; [|done]. simpl in Hs.
    destruct (decide _) as [Hle|]; [|done]. injection Hs as Hs.
    assert (Hlen : length items = sl_len sl) by (rewrite <- Hs, length_take, length_drop; lia).
    assert (Hne : sl_array sl <> st_next st) by (intros E; specialize (HbA (sl_array sl)); set_solver by lia).
    assert (Hi1 : items_hold h1 items vs Fi) by (eapply items_frame; [done|]; intros x Hx; apply Hf1; set_solver).
    assert (HbFi : below Fi h1) by (intros x Hx; apply Hb1; set_solver).
    erewrite aM_bind_val by done. rewrite <- Hlen.
    destruct (copy_items_spec sl (HSlice (st_next st) 0 (length items)) arr items 0
      (Memory h1 (<[st_next st := replicate (length items) zero]> (st_arrays st)) (Pos.succ (st_next st)))
      [] (replicate (length items) zero) vs Fi) as (l' & F2 & h2 & Hrun2 & Hlen2 & Hl2 & He2);
      simpl; rewrite ?lookup_insert_eq, ?length_replicate, ?Nat.add_0_r in *; try done; try lia.
    { by rewrite lookup_insert_ne. }
    { by rewrite Hlen, Hs. }
    simpl in Hrun2. erewrite aM_bind_val by exact Hrun2.
    destruct (ext_fresh _ _ _ _ He2 (below_ext _ _ _ _ He1)) as (Hf2 & _ & _).
    destruct (ext_fresh _ _ _ F He2 Hb1) as (Hf2' & Hd2 & _).
    do 2 eexists. exists (F1 ∪ F2), {[st_next st]}. split; [done|]. split_and!; [| |set_solver..].
    + exists F1, F2. simpl. rewrite Ev. split; [done|]. split; [by eapply holds_frame|]. split; [|done]. split; [done|].
      exists l'. split; [|done]. unfold slice_elems. simpl. rewrite lookup_insert_eq. simpl.
      rewrite decide_True by lia. by rewrite drop_0, <- Hlen2, firstn_all.
    + eapply list_holds_frame; [exact Hl| |]; simpl.
      * intros x Hx. rewrite Hf2' by done. by apply Hf1.
      * intros a Ha. rewrite insert_insert_eq, lookup_insert_ne by set_solver. done.
  - destruct Hi as [-> ->]. do 2 eexists. exists F1, ∅. split; [done|]. split_and!; [| |set_solver..].
    + exists F1, ∅. simpl. rewrite Ev. split_and!; [done..|set_solver].
    + eapply list_holds_frame; [exact Hl|done|done].
Qed.

(** C40: a ServiceSpreadPolicyList is copied deeply, item by item into a new array, given that the metadata and
    selector types inside are: the copy stands for the same list, nil or not, the original is unchanged, the two share
    neither an object nor a backing array, and whatever is written through an object or an element of the one is not
    seen in the other - so callers may default or mutate lists they take from a shared cache. *)
Theorem PolicyList_DeepCopy_independent st (l : hPolicyList) v F A :
  list_holds st l v F A -> allocated st F A ->
  exists c st' F' A', PolicyList_DeepCopyInto l st = Val (c, st') /\
    list_holds st' c v F' A' /\ list_holds st' l v F A /\ F' ## F /\ A' ## A /\
    (forall x cl, x ∈ F' -> list_holds (write_object st' x cl) l v F A) /\
    (forall x cl, x ∈ F -> list_holds (write_object st' x cl) c v F' A') /\
    (forall a items, a ∈ A' -> list_holds (write_array st' a items) l v F A) /\
    (forall a items, a ∈ A -> list_holds (write_array st' a items) c v F' A').
Proof.
  intros Hl Hal. destruct (PolicyList_copy st l v F A Hl Hal) as (c & st' & F' & A' & Hrun & Hc & Hl' & HF & HA).
  exists c, st', F', A'. do 5 (split; [done|]).
  split_and!; intros x y Hx; (eapply list_holds_frame; [done|..]); simpl; intros z Hz; try done;
    (rewrite lookup_insert_ne; [done|]); intros ->; set_solver.
Qed.

End policy.

(** ** A concrete instance: the selector is a pointer to its label map, the metadata is empty *)

#[export] Instance toy_selector : DeepCopier loc LabelSelector := {|
  holds h l v F := exists row, h_cells h !! l = Some (CRow row) /\ F = {[l]} /\ v = MkSelector (pretty <$> row) [];
  deep_copy := copy_row |}.

#[export] Instance toy_selector_laws : DeepCopierLaws loc LabelSelector.
Proof.
  split; simpl.
  - intros h h' l v F (row & Hl & -> & ->) Hf. exists row. rewrite Hf; [done|set_solver].
  - intros h l v F (row & Hl & -> & ->) Hb. hcall copy_row_spec; [done|apply Hb; set_solver|apply Pos.le_1_l|].
    intros cm h' [-> ->]. exists {[h_next h]}. split; [exists row; split_and!; [simpl; by rewrite lookup_insert_eq|done|done]|].
    replace {[h_next h]} with (∅ ∪ {[h_next h]} : gset loc) by set_solver. apply ext_make. intros x Hx. set_solver.
Qed.

#[export] Instance toy_meta : DeepCopier () () := {| holds h _ _ F := F = ∅; deep_copy _ := mret tt |}.

#[export] Instance toy_meta_laws : DeepCopierLaws () ().
Proof.
  split; simpl; [done|]. intros h _ _ F -> _. apply hspec_ret. exists ∅. split; [done|]. apply ext_refl. intros x Hx. set_solver.
Qed.

Definition ex_row : gmap string Z := {["app" := 1]}.
Definition ex_items : list (hPolicy (ObjectMeta := ()) (Selector := loc)) :=
  [HPolicy ("", "") () (HSpec "s" 1%positive 1 2)].
Definition ex_hlist : hPolicyList (ListMeta := ()) := HPolicyList ("", "") () (Some (HSlice 1%positive 0 1)).
Definition ex_memory : memory := Memory (Heap 2 {[1%positive := CRow ex_row]}) {[1%positive := ex_items]} 2.
Definition ex_list_value : list_value :=
  (("", ""), (), Some [(("", ""), (), PolicySpec "s" (MkSelector (pretty <$> ex_row) []) 1 2)]).
Definition ex_zero : hPolicy := HPolicy ("", "") () (HSpec "" 1%positive 0 0).

Lemma PolicyList_DeepCopy_independent_witness :
  exists c st' F' A', PolicyList_DeepCopyInto ex_zero ex_hlist ex_memory = Val (c, st') /\
    list_holds st' c ex_list_value F' A' /\ F' ## {[1%positive]} /\ A' ## {[1%positive]}.
Proof.
  destruct (PolicyList_DeepCopy_independent ex_zero ex_memory ex_hlist ex_list_value {[1%positive]} {[1%positive]})
    as (c & st' & F' & A' & Hrun & Hc & _ & Hd & Ha & _).
  - exists ∅, {[1%positive]}. split_and!; [reflexivity|reflexivity| |set_solver]. split; [reflexivity|].
    exists ex_items. split; [reflexivity|].
    exists {[1%positive]}, ∅. split_and!; [|reflexivity|set_solver].
    exists ∅, {[1%positive]}. split_and!; [reflexivity|reflexivity| |set_solver].
    split_and!; [|reflexivity..]. exists ex_row. split_and!; [reflexivity|reflexivity|reflexivity].
  - split; intros x Hx; assert (x = 1%positive) as -> by set_solver; done.
  - exists c, st', F', A'. split; [exact Hrun|]. split; [exact Hc|]. split; [exact Hd|exact Ha].
Defined.
