(* ===== verification/Plugin.v ===== *)
(** * The scheduler plugin (internal/spread/plugin.go, plugins_api.go)

    PreFilter, Filter, PreScore, Score, Reserve, Unreserve and PostBind, the
    resolution of the policy and of the owner chain.  The plugin's dependencies are
    arguments: the policy lister, the owner reader, the node lister's answer and
    the counting state.  The framework's [CycleState] is the interface
    [CycleStore]; the Prometheus counters are a log of increments. *)

From S2P Require Import Prelude GoStd Kube Fixtures State Keys Domain Api.

Definition Name : string := "ServiceSpread".

(** ** The data kept in the cycle state *)

Record preFilterState := PreFilterState {
  pf_quotaKey : string;
  pf_schedKey : string;
  pf_policy : option ServiceSpreadPolicy;
  pf_domainSet : gset string;
  pf_minCount : Z;
  pf_effDomain : gmap string Z;
  pf_effQuota : gmap string Z;
}.

Record preScoreState := PreScoreState { ps_skip : bool; ps_cmin : Z; ps_cmax : Z }.

(** A [framework.StateData] is one of the plugin's two pointer types, possibly nil,
    or data of another plugin. *)
Inductive StateData :=
| DPreFilter (s : option preFilterState)
| DPreScore (s : option preScoreState)
| DOther.

Definition preFilterStateKey : string := Name +:+ "/preFilter".
Definition preScoreStateKey : string := Name +:+ "/preScore".

(** [framework.CycleState]: [Read] fails on an absent key. *)
Class CycleStore (C : Type) := {
  Read : C -> string -> option StateData;
  Write : C -> string -> StateData -> C;
}.

Class CycleStoreLaws (C : Type) `{CycleStore C} : Prop := {
  Read_Write_eq c k d : Read (Write c k d) k = Some d;
  Read_Write_ne c k k' d : k <> k' -> Read (Write c k d) k' = Read c k';
}.

(** ** Dependencies *)

(** The counter increments a call makes, in order. *)
Inductive metric :=
| filterRejections (reason : string)
| policyResolutionFailures (reason : string).

#[export] Instance metric_eq_dec : EqDecision metric.
Proof. solve_decision. Defined.

Record pluginDeps := MkDeps {
  d_policies : string -> res (list ServiceSpreadPolicy);
  d_owners : string -> string -> list OwnerReference -> bool;
  d_nodes : res (list (option Node));
  d_synced : option bool;
}.

Record ServiceSpread := MkPlugin { pl_args : ServiceSpreadArgs; pl_deps : pluginDeps }.

Definition NewWithDeps (args : ServiceSpreadArgs) (deps : pluginDeps) : res ServiceSpread :=
  if decide (ServiceLabelKey args = "") then Err (Name +:+ ": serviceLabelKey is required")
  else
    let args := if decide (ManagedSchedulerName args = "")
                then {| args_APIVersion := args_APIVersion args; args_Kind := args_Kind args;
                        ServiceLabelKey := ServiceLabelKey args;
                        RequirePolicy := RequirePolicy args;
                        ManagedSchedulerName := DefaultManagedSchedulerName;
                        FallbackCacheTTL := FallbackCacheTTL args;
                        ReservationTTL := ReservationTTL args;
                        ReconcilePeriod := ReconcilePeriod args;
                        ExportNodePods := ExportNodePods args;
                        ExportTargetDetail := ExportTargetDetail args |}
                else args in
    let deps := match d_synced deps with
                | None => MkDeps (d_policies deps) (d_owners deps) (d_nodes deps) (Some true)
                | Some _ => deps
                end in
    Ok (MkPlugin args deps).

(** [deps.synced()]; a nil function would panic and is excluded by [NewWithDeps]. *)
Definition synced (deps : pluginDeps) : go bool :=
  match d_synced deps with Some b => Val b | None => Panic end.

(** ** Owner chain *)

Fixpoint controllerRef (refs : list OwnerReference) (kind : string) : option OwnerReference :=
  match refs with
  | [] => None
  | r :: refs' =>
    if decide (owner_Kind r = kind /\ owner_Controller r = Some true) then Some r
    else controllerRef refs' kind
  end.

(** The two listers: the owner references of a ReplicaSet, and whether a Deployment
    exists, by namespace and name. *)
Record rsOwnerReader := RSOwnerReader {
  rs_Get : string -> string -> option (list OwnerReference);
  dep_Get : string -> string -> bool;
}.

Definition OwnedByDeployment (r : rsOwnerReader) (podUID namespace : string)
    (podOwnerRefs : list OwnerReference) : bool :=
  match controllerRef podOwnerRefs "ReplicaSet" with
  | None => false
  | Some rsRef =>
    match rs_Get r namespace (owner_Name rsRef) with
    | None => false
    | Some rsOwners =>
      match controllerRef rsOwners "Deployment" with
      | None => false
      | Some depRef => dep_Get r namespace (owner_Name depRef)
      end
    end
  end.

(** ** Policy resolution *)

Definition selectorMatchesService (sel : LabelSelector) (serviceLabelKey labelValue : string) : bool :=
  if negb (bool_decide (sel_MatchExpressions sel = [])) ||
     negb (bool_decide (size (sel_MatchLabels sel) = 1%nat)) then false
  else bool_decide (sel_MatchLabels sel !! serviceLabelKey = Some labelValue).

Definition policy_matches (args : ServiceSpreadArgs) (labelValue : string)
    (p : ServiceSpreadPolicy) : bool :=
  if decide (SchedulerName (pol_Spec p) <> ManagedSchedulerName args) then false
  else selectorMatchesService (ServiceSelector (pol_Spec p)) (ServiceLabelKey args) labelValue.

(** [(policy, status, counters)]; [(None, None)] is the [nil, nil] of the source. *)
Definition resolvePolicy (pl : ServiceSpread) (namespace labelValue : string)
    : option ServiceSpreadPolicy * option Status * list metric :=
  match d_policies (pl_deps pl) namespace with
  | Err e => (None, Some (NewStatus Error ("listing ServiceSpreadPolicies: " +:+ e)),
              [policyResolutionFailures "PolicyListError"])
  | Ok policies =>
    let matches := List.filter (policy_matches (pl_args pl) labelValue) policies in
    let requirePolicy := default true (RequirePolicy (pl_args pl)) in
    match matches with
    | [] =>
      if requirePolicy
      then (None, Some (NewStatus UnschedulableAndUnresolvable
                          ("ServiceSpreadPolicyNotFound: no policy selects this service in namespace "
                           +:+ namespace)),
            [policyResolutionFailures "ServiceSpreadPolicyNotFound"])
      else (None, None, [])
    | [p] => (Some p, None, [])
    | _ => (None, Some (NewStatus UnschedulableAndUnresolvable
                          ("AmbiguousServiceSpreadPolicy: " +:+ fmt_d (Z.of_nat (length matches))
                           +:+ " policies select this service")),
            [policyResolutionFailures "AmbiguousServiceSpreadPolicy"])
    end
  end.

(** ** Minimum over a domain *)

(** One iteration of [if min < 0 || d < min { min = d }]. *)
Definition min_step (min d : Z) : Z := if (min <? 0) || (d <? min) then d else min.
Definition max_step (max d : Z) : Z := if d >? max then d else max.

(** ** Handlers *)

Section handlers.
Context `{KubeLib} {C : Type} `{CycleStore C}.
Implicit Types (pl : ServiceSpread) (c : C).

Definition getPreFilterState c : preFilterState + Status :=
  match Read c preFilterStateKey with
  | None => inr (NewStatus Error "reading preFilterState")
  | Some (DPreFilter (Some s)) => inl s
  | Some _ => inr (NewStatus Error "invalid preFilterState")
  end.

(** The state of the counting loop: [minCount], [effDomain], [effQuota]. *)
Definition count_step (eff : string -> Z * Z)
    (acc : Z * gmap string Z * gmap string Z) (node : string) : Z * gmap string Z * gmap string Z :=
  let '(minCount, effDomain, effQuota) := acc in
  let '(domainN, quotaN) := eff node in
  (min_step minCount domainN, <[node := domainN]> effDomain, <[node := quotaN]> effQuota).

Definition count_loop (eff : string -> Z * Z) (nodes : list string) :=
  foldl (count_step eff) (-1, ∅, ∅) nodes.

(** [eff] is [deps.state.effCount] as each call of the loop sees it: the shared
    state may change between two iterations ([effCount s] when it does not). *)
Definition PreFilter pl (eff : string -> string -> string -> Z * Z) c (pod : Pod)
    : go (Status * C * list metric) :=
  is_synced ← synced (pl_deps pl);
  Val (
  if negb is_synced then (NewStatus Unschedulable "CacheNotSynced", c, [])
  else if decide (spec_SchedulerName (pod_Spec pod) <> ManagedSchedulerName (pl_args pl))
  then (success, c, [])
  else
  match pod_Labels pod !! ServiceLabelKey (pl_args pl) with
  | None =>
    (NewStatus UnschedulableAndUnresolvable
       ("MissingRequiredServiceLabel: pod misses required label " +:+ ServiceLabelKey (pl_args pl)),
     c, [policyResolutionFailures "MissingRequiredServiceLabel"])
  | Some labelValue =>
    if negb (d_owners (pl_deps pl) (pod_UID pod) (pod_Namespace pod) (pod_OwnerReferences pod))
    then (NewStatus UnschedulableAndUnresolvable
            "UnsupportedWorkloadOwner: pod must be owned by a Deployment via a ReplicaSet",
          c, [policyResolutionFailures "UnsupportedWorkloadOwner"])
    else
    match resolvePolicy pl (pod_Namespace pod) labelValue with
    | (_, Some st, log) => (st, c, log)
    | (policy, None, log) =>
      let domainSet := computeStableDomain (pod_Spec pod) (d_nodes (pl_deps pl)) in
      if decide (domainSet = ∅) then (NewStatus Unschedulable "EmptySpreadDomain", c, log)
      else
        let quotaKey := QuotaKey (pod_Namespace pod) (ManagedSchedulerName (pl_args pl))
                                 (ServiceLabelKey (pl_args pl)) labelValue in
        let schedKey := SchedKey quotaKey (DomainHash pod) in
        let '(minCount, effDomain, effQuota) :=
          count_loop (fun node => eff node schedKey quotaKey) (elements domainSet) in
        (success,
         Write c preFilterStateKey
           (DPreFilter (Some (PreFilterState quotaKey schedKey policy domainSet
                                             minCount effDomain effQuota))),
         log)
    end
  end).

(** [node] is [nodeInfo.Node()].  Reading a nil policy panics. *)
Definition Filter c (node : option Node) : go (Status * list metric) :=
  match getPreFilterState c with
  | inr st => Val (st, [])
  | inl state =>
    match node with
    | None => Val (NewStatus Error "node not found", [])
    | Some node =>
      let name := node_Name node in
      if negb (bool_decide (name ∈ pf_domainSet state))
      then Val (NewStatus Unschedulable ("NodeOutsideSpreadDomain: node=" +:+ name),
                [filterRejections "ServiceSpreadConstraint"])
      else
        let quota := map_get 0 (pf_effQuota state) name ⊞ 1 in
        match pf_policy state with
        | None => Panic
        | Some policy =>
          if quota >? MaxPodsPerNode (pol_Spec policy)
          then Val (NewStatus Unschedulable
                 ("MaxPodsPerNodeExceeded: node=" +:+ name +:+ " quota=" +:+
                  fmt_d (map_get 0 (pf_effQuota state) name) +:+ "/" +:+ fmt_d quota +:+
                  " limit=" +:+ fmt_d (MaxPodsPerNode (pol_Spec policy))),
               [filterRejections "ServiceSpreadConstraint"])
          else
            let count := map_get 0 (pf_effDomain state) name in
            let skew := count ⊞ 1 ⊟ pf_minCount state in
            if skew >? MaxSkew (pol_Spec policy)
            then Val (NewStatus Unschedulable
                   ("MaxSkewExceeded: node=" +:+ name +:+ " count=" +:+ fmt_d count +:+
                    " min=" +:+ fmt_d (pf_minCount state) +:+ " skew=" +:+ fmt_d skew +:+
                    " maxSkew=" +:+ fmt_d (MaxSkew (pol_Spec policy))),
                 [filterRejections "ServiceSpreadConstraint"])
            else Val (success, [])
        end
    end
  end.

Definition extrema_step (state : preFilterState) (acc : Z * Z) (n : Node) : Z * Z :=
  let c := map_get 0 (pf_effDomain state) (node_Name n) in
  (min_step acc.1 c, max_step acc.2 c).

Definition PreScore c (nodes : list Node) : Status * C :=
  match getPreFilterState c with
  | inr st => (st, c)
  | inl state =>
    match nodes with
    | [] => (NewStatus Unschedulable "no feasible nodes", c)
    | _ =>
      let '(cmin, cmax) := foldl (extrema_step state) (-1, -1) nodes in
      (success, Write c preScoreStateKey
                  (DPreScore (Some (PreScoreState (bool_decide (cmin = cmax)) cmin cmax))))
    end
  end.

(** Division by zero and the nil pointer panic. *)
Definition Score c (nodeName : string) : go (Z * Status) :=
  match getPreFilterState c with
  | inr st => Val (0, st)
  | inl state =>
    match Read c preScoreStateKey with
    | None => Val (0, NewStatus Error "reading preScoreState")
    | Some (DPreScore None) => Panic
    | Some (DPreScore (Some ss)) =>
      if ps_skip ss then Val (0, success)
      else
        let count := map_get 0 (pf_effDomain state) nodeName in
        let den := ps_cmax ss ⊟ ps_cmin ss ⊞ 1 in
        if decide (den = 0) then Panic
        else Val (Z.quot (wrap64 ((ps_cmax ss ⊟ count) * MaxNodeScore)) den, success)
    | Some _ => Val (0, NewStatus Error "invalid preScoreState")
    end
  end.

(** The minimum of [Reserve] over the domain, in the order of the range loop. *)
Definition reserve_min (eff : string -> Z) (nodeName : string) (domainN : Z) (nodes : list string) : Z :=
  foldl (fun min n => min_step min (if decide (n = nodeName) then domainN else eff n)) (-1) nodes.

(** The admission check that runs under the lock. *)
Definition reserve_admit (state : preFilterState) (nodeName : string) (nodes : list string)
    (g : reserveGuard) : go bool :=
  let '(domainN, quotaN) := EffCount g nodeName (pf_schedKey state) (pf_quotaKey state) in
  match pf_policy state with
  | None => Panic
  | Some policy =>
    if quotaN ⊞ 1 >? MaxPodsPerNode (pol_Spec policy) then Val false
    else
      let min := reserve_min (fun n => (EffCount g n (pf_schedKey state) (pf_quotaKey state)).1)
                             nodeName domainN nodes in
      Val (domainN ⊞ 1 ⊟ min <=? MaxSkew (pol_Spec policy))
  end.

Definition Reserve (now : Z) pl (s : spreadState) c (pod : Pod) (nodeName : string)
    : go (Status * spreadState) :=
  match getPreFilterState c with
  | inr st => Val (st, s)
  | inl state =>
    let domain := computeStableDomain (pod_Spec pod) (d_nodes (pl_deps pl)) in
    if negb (bool_decide (nodeName ∈ domain))
    then Val (NewStatus Unschedulable
                ("ReserveRevalidationFailed: node=" +:+ nodeName +:+ " left the spread domain"), s)
    else
      r ← TryReserveChecked now s (pod_UID pod)
            (PodRef (pf_quotaKey state) (pf_schedKey state) nodeName)
            (reserve_admit state nodeName (elements domain));
      let '(ok, s') := r : bool * spreadState in
      if negb ok
      then Val (NewStatus Unschedulable
                  ("ReserveRevalidationFailed: node=" +:+ nodeName +:+ " quota/skew recheck failed"), s')
      else Val (success, s')
  end.

Definition pl_Unreserve (s : spreadState) (pod : Pod) : spreadState := Unreserve s (pod_UID pod).

Definition PostBind (s : spreadState) (pod : Pod) : spreadState := MarkBound s (pod_UID pod).

End handlers.

(** ** Specifications *)

Definition is_min {A} (f : A -> Z) (l : list A) (m : Z) : Prop :=
  (exists x, x ∈ l /\ f x = m) /\ forall x, x ∈ l -> m <= f x.
Definition is_max {A} (f : A -> Z) (l : list A) (m : Z) : Prop :=
  (exists x, x ∈ l /\ f x = m) /\ forall x, x ∈ l -> f x <= m.

(** One more pod of the service on [node] keeps the cap and the skew against every
    node of the domain. *)
Definition admissible (s : spreadState) (policy : ServiceSpreadPolicy) (qk sk : string)
    (domain : gset string) (node : string) : Prop :=
  quota_on s node qk + 1 <= MaxPodsPerNode (pol_Spec policy) /\
  forall n, n ∈ domain -> domain_on s node sk + 1 - domain_on s n sk <= MaxSkew (pol_Spec policy).

(** ** Lemmas: the extrema loops *)

Lemma min_loop {A} (f : A -> Z) l :
  l <> [] -> (forall x, x ∈ l -> 0 <= f x) ->
  is_min f l (foldl (fun m x => min_step m (f x)) (-1) l).
Proof.
  induction l as [|y l IH] using rev_ind; [done|]. intros _ Hpos. rewrite foldl_app. simpl.
  destruct (decide (l = [])) as [->|Hl].
  - simpl. split; [exists y; split; [set_solver|done]|]. intros x Hx.
    apply list_elem_of_singleton in Hx as ->. unfold min_step. simpl. lia.
  - destruct (IH Hl) as [(x & Hx & Hm) Hle]; [intros x Hx; apply Hpos; set_solver|].
    set (m := foldl _ _ _) in *. assert (0 <= m) by (rewrite <- Hm; apply Hpos; set_solver).
    assert (Hstep : min_step m (f y) = Z.min m (f y)).
    { unfold min_step. destruct (Z.ltb_spec m 0), (Z.ltb_spec (f y) m); simpl; lia. }
    rewrite Hstep. split.
    + destruct (Z.min_spec m (f y)) as [[_ ->]|[_ ->]]; [exists x|exists y]; set_solver.
    + intros z Hz. apply elem_of_app in Hz as [Hz|Hz].
      * specialize (Hle z Hz). lia.
      * apply list_elem_of_singleton in Hz as ->. lia.
Qed.

Lemma max_loop {A} (f : A -> Z) l :
  l <> [] -> (forall x, x ∈ l -> 0 <= f x) ->
  is_max f l (foldl (fun m x => max_step m (f x)) (-1) l).
Proof.
  induction l as [|y l IH] using rev_ind; [done|]. intros _ Hpos. rewrite foldl_app. simpl.
  assert (Hstep : forall m, max_step m (f y) = Z.max m (f y)).
  { intros m. unfold max_step. rewrite Z.gtb_ltb. destruct (Z.ltb_spec m (f y)); lia. }
  assert (Hy : 0 <= f y) by (apply Hpos; set_solver).
  rewrite Hstep. destruct (decide (l = [])) as [->|Hl].
  - simpl. split; [exists y; split; [set_solver|lia]|]. intros x Hx.
    apply list_elem_of_singleton in Hx as ->. lia.
  - destruct (IH Hl) as [(x & Hx & Hm) Hle]; [intros x Hx; apply Hpos; set_solver|].
    set (m := foldl _ _ _) in *. split.
    + destruct (Z.max_spec m (f y)) as [[_ ->]|[_ ->]]; [exists y|exists x]; set_solver.
    + intros z Hz. apply elem_of_app in Hz as [Hz|Hz].
      * specialize (Hle z Hz). lia.
      * apply list_elem_of_singleton in Hz as ->. lia.
Qed.

Lemma is_min_unique {A} (f : A -> Z) l l' m m' :
  l ≡ₚ l' -> is_min f l m -> is_min f l' m' -> m = m'.
Proof.
  intros Hl [(x & Hx & <-) H1] [(y & Hy & <-) H2].
  specialize (H1 y ltac:(by rewrite Hl)). specialize (H2 x ltac:(by rewrite <- Hl)). lia.
Qed.

Lemma is_min_ext {A} (f g : A -> Z) l m :
  (forall x, x ∈ l -> f x = g x) -> is_min f l m -> is_min g l m.
Proof.
  intros Heq [(x & Hx & <-) H]. split; [exists x; by rewrite <- Heq|].
  intros y Hy. rewrite <- Heq by done. auto.
Qed.

Lemma count_loop_spec (eff : string -> Z * Z) l m D Q :
  count_loop eff l = (m, D, Q) ->
  m = foldl (fun m x => min_step m (eff x).1) (-1) l /\
  (forall n, D !! n = if decide (n ∈ l) then Some (eff n).1 else None) /\
  (forall n, Q !! n = if decide (n ∈ l) then Some (eff n).2 else None).
Proof.
  revert m D Q. induction l as [|y l IH] using rev_ind; intros m D Q.
  - intros [= <- <- <-]. split; [done|].
    split; intros n; (rewrite decide_False by (by apply not_elem_of_nil)); apply lookup_empty.
  - unfold count_loop. rewrite !foldl_app. simpl. fold (count_loop eff l).
    destruct (count_loop eff l) as [[m0 D0] Q0]. destruct (IH m0 D0 Q0 eq_refl) as (-> & HD & HQ).
    unfold count_step. destruct (eff y) as [d q] eqn:Ey. intros [= <- <- <-].
    split; [done|]. split; intros n; (destruct (decide (y = n)) as [<-|Hn];
      [rewrite lookup_insert_eq, decide_True by set_solver; by rewrite Ey
      |rewrite lookup_insert_ne by done]).
    + rewrite HD. apply decide_ext. set_solver.
    + rewrite HQ. apply decide_ext. set_solver.
Qed.

(** ** Lemmas: the admission check *)

Lemma reserve_min_foldl (eff : string -> Z) nodeName domainN l :
  reserve_min eff nodeName domainN l =
  foldl (fun m n => min_step m (if decide (n = nodeName) then domainN else eff n)) (-1) l.
Proof. done. Qed.

Lemma reserve_admit_spec state policy s nodeName l :
  snap_wf (snap s) -> small s -> pf_policy state = Some policy -> nodeName ∈ l ->
  exists b, reserve_admit state nodeName l (guard_of s) = Val b /\
    (b = true <->
     quota_on s nodeName (pf_quotaKey state) + 1 <= MaxPodsPerNode (pol_Spec policy) /\
     forall n, n ∈ l -> domain_on s nodeName (pf_schedKey state) + 1 -
                        domain_on s n (pf_schedKey state) <= MaxSkew (pol_Spec policy)).
Proof.
  intros Hw Hs Hp Hin. unfold reserve_admit. rewrite EffCount_spec, Hp by done.
  set (sk := pf_schedKey state). set (qk := pf_quotaKey state).
  pose proof (quota_on_range s nodeName qk Hs) as Hq.
  pose proof (domain_on_range s nodeName sk Hs) as Hd. rewrite Z.gtb_ltb.
  assert (Hq1 : quota_on s nodeName qk ⊞ 1 = quota_on s nodeName qk + 1) by (int_small; lia).
  rewrite Hq1. destruct (Z.ltb_spec (MaxPodsPerNode (pol_Spec policy)) (quota_on s nodeName qk + 1)).
  { exists false. split; [done|]. split; [done|]. lia. }
  eexists. split; [done|]. rewrite Z.leb_le.
  destruct (min_loop (fun n => if decide (n = nodeName) then domain_on s nodeName sk
                               else (EffCount (guard_of s) n sk qk).1) l) as [(x & Hx & Hm) Hle].
  { intros ->. by apply not_elem_of_nil in Hin. }
  { intros x _. destruct (decide (x = nodeName)); [lia|]. rewrite EffCount_spec by done. apply (domain_on_range s x sk Hs). }
  assert (Heff : forall y, (if decide (y = nodeName) then domain_on s nodeName sk
                   else (EffCount (guard_of s) y sk qk).1) = domain_on s y sk).
  { intros y. destruct (decide (y = nodeName)) as [->|]; [done|]. by rewrite EffCount_spec. }
  rewrite reserve_min_foldl. set (m := foldl _ _ _) in *. rewrite Heff in Hm.
  pose proof (domain_on_range s x sk Hs).
  assert (Hw1 : domain_on s nodeName sk ⊞ 1 ⊟ m = domain_on s nodeName sk + 1 - m).
  { rewrite (wrap32_id (_ + 1)), wrap32_id; unfold in_int32, max_int32 in *; lia. }
  rewrite Hw1. split.
  - intros Hsk. split; [lia|]. intros n Hn. specialize (Hle n Hn). rewrite Heff in Hle. lia.
  - intros [_ Hall]. specialize (Hall x Hx). lia.
Qed.

Lemma domain_elements (d : gset string) n : n ∈ elements d <-> n ∈ d.
Proof. apply elem_of_elements. Qed.

Section handler_lemmas.
Context `{KubeLib} {C : Type} `{CycleStore C}.

Definition new_resv (now : Z) (pod : Pod) (state : preFilterState) (nodeName : string) : reservation :=
  Reservation (pod_UID pod) (pf_quotaKey state) (pf_schedKey state) nodeName resvReserved now.

(** What [Reserve] does once the cycle state holds a policy. *)
Lemma Reserve_cases now pl s (c : C) pod nodeName state policy :
  snap_wf (snap s) -> small s ->
  getPreFilterState c = inl state -> pf_policy state = Some policy ->
  let domain := computeStableDomain (pod_Spec pod) (d_nodes (pl_deps pl)) in
  let ok := nodeName ∈ domain /\ resv s !! pod_UID pod = None /\
            admissible s policy (pf_quotaKey state) (pf_schedKey state) domain nodeName in
  (ok /\ Reserve now pl s c pod nodeName =
           Val (success, SpreadState (snap s) (<[pod_UID pod := new_resv now pod state nodeName]> (resv s)))) \/
  (~ ok /\ exists st, Reserve now pl s c pod nodeName = Val (st, s) /\ st_Code st = Unschedulable).
Proof.
  intros Hw Hs Hst Hp domain ok. unfold Reserve. rewrite Hst. fold domain.
  destruct (decide (nodeName ∈ domain)) as [Hin|Hin].
  2: { right. split; [by intros [? _]|]. rewrite bool_decide_eq_false_2 by done. by eexists. }
  rewrite bool_decide_eq_true_2 by done. simpl negb. cbv iota. unfold TryReserveChecked.
  destruct (resv s !! pod_UID pod) as [r|] eqn:Hr.
  { right. split; [by intros (_ & ? & _)|]. by eexists. }
  destruct (reserve_admit_spec state policy s nodeName (elements domain) Hw Hs Hp) as (b & Hb & Hok).
  { by apply domain_elements. }
  rewrite Hb. simpl. destruct b.
  - left. split; [|done]. split; [done|]. split; [done|]. destruct Hok as [Hok _].
    destruct (Hok eq_refl) as [Hq Hd]. split; [done|]. intros n Hn. apply Hd. by apply domain_elements.
  - right. split; [|by eexists]. intros (_ & _ & Hq & Hd). assert (false = true); [|done].
    apply Hok. split; [done|]. intros n Hn. apply Hd. by apply domain_elements.
Qed.

End handler_lemmas.

(** ** Lemmas: policy resolution *)

(** The policy of a service: the managed scheduler and exactly the label. *)
Definition selects_service (args : ServiceSpreadArgs) (labelValue : string)
    (p : ServiceSpreadPolicy) : Prop :=
  SchedulerName (pol_Spec p) = ManagedSchedulerName args /\
  sel_MatchExpressions (ServiceSelector (pol_Spec p)) = [] /\
  sel_MatchLabels (ServiceSelector (pol_Spec p)) = {[ ServiceLabelKey args := labelValue ]}.

Lemma singleton_map_spec (m : string_map) k v :
  size m = 1%nat /\ m !! k = Some v <-> m = {[ k := v ]}.
Proof.
  split.
  - intros [Hs Hk]. rewrite <- (insert_delete_id m k v Hk).
    assert (delete k m = ∅) as ->; [|apply insert_empty].
    apply map_size_empty_inv. rewrite map_size_delete, Hk. lia.
  - intros ->. by rewrite map_size_singleton, lookup_singleton_eq.
Qed.

Lemma policy_matches_spec args v p : policy_matches args v p = true <-> selects_service args v p.
Proof.
  unfold policy_matches, selects_service, selectorMatchesService.
  rewrite <- singleton_map_spec. set (sel := ServiceSelector (pol_Spec p)).
  destruct (decide (SchedulerName (pol_Spec p) <> ManagedSchedulerName args)) as [Hn|Hn];
    [naive_solver|]. apply dec_stable in Hn.
  destruct (bool_decide (sel_MatchExpressions sel = [])) eqn:E1; simpl.
  - apply bool_decide_eq_true in E1.
    destruct (bool_decide (size (sel_MatchLabels sel) = 1%nat)) eqn:E2; simpl.
    + apply bool_decide_eq_true in E2. rewrite bool_decide_eq_true. naive_solver.
    + apply bool_decide_eq_false in E2. naive_solver.
  - apply bool_decide_eq_false in E1. naive_solver.
Qed.

(** Exactly one policy of the list selects the service, at one position. *)
Definition unique_policy (args : ServiceSpreadArgs) (v : string)
    (ps : list ServiceSpreadPolicy) (p : ServiceSpreadPolicy) : Prop :=
  exists l1 l2, ps = l1 ++ p :: l2 /\ selects_service args v p /\
    forall q, q ∈ l1 ++ l2 -> ~ selects_service args v q.

Lemma filter_none args v ps :
  (forall q, q ∈ ps -> ~ selects_service args v q) -> List.filter (policy_matches args v) ps = [].
Proof.
  induction ps as [|q ps IH]; [done|]. intros Hno. cbn [List.filter].
  destruct (policy_matches args v q) eqn:E.
  - apply policy_matches_spec in E. exfalso. apply (Hno q); set_solver.
  - apply IH. intros q' Hq'. apply Hno. set_solver.
Qed.

Lemma filter_one args v ps p :
  List.filter (policy_matches args v) ps = [p] <-> unique_policy args v ps p.
Proof.
  split.
  - induction ps as [|q ps IH]; [done|]. cbn [List.filter].
    destruct (policy_matches args v q) eqn:E.
    + intros [= -> Hf]. exists [], ps. split; [done|]. split; [by apply policy_matches_spec|].
      intros q Hq Hs. apply policy_matches_spec in Hs. apply list_elem_of_In in Hq.
      assert (In q (List.filter (policy_matches args v) ps)) by (by apply List.filter_In).
      rewrite Hf in *. done.
    + intros Hf. destruct (IH Hf) as (l1 & l2 & -> & Hs & Hno). exists (q :: l1), l2.
      split; [done|]. split; [done|]. intros q' Hq'. simpl in Hq'.
      apply elem_of_cons in Hq' as [->|Hq']; [|by apply Hno].
      intros Hs'. apply policy_matches_spec in Hs'. congruence.
  - intros (l1 & l2 & -> & Hs & Hno). rewrite List.filter_app. cbn [List.filter].
    rewrite (proj2 (policy_matches_spec _ _ _) Hs).
    rewrite !filter_none; [done| |]; intros q Hq; apply Hno; set_solver.
Qed.

Lemma filter_nil args v ps :
  List.filter (policy_matches args v) ps = [] -> forall q, q ∈ ps -> ~ selects_service args v q.
Proof.
  intros Hf q Hq Hs. apply policy_matches_spec in Hs. apply list_elem_of_In in Hq.
  assert (In q (List.filter (policy_matches args v) ps)) by (by apply List.filter_In).
  rewrite Hf in *. done.
Qed.

Lemma filter_two args v ps p1 p2 l :
  List.filter (policy_matches args v) ps = p1 :: p2 :: l ->
  exists i j, i <> j /\ ps !! i = Some p1 /\ ps !! j = Some p2 /\
    selects_service args v p1 /\ selects_service args v p2.
Proof.
  revert p1 p2 l. induction ps as [|q ps IH]; [done|]. intros p1 p2 l. cbn [List.filter].
  destruct (policy_matches args v q) eqn:E.
  - intros [= -> Hf]. assert (Hin : In p2 (List.filter (policy_matches args v) ps)).
    { rewrite Hf. by left. }
    apply List.filter_In in Hin as [Hin H2]. apply list_elem_of_In in Hin.
    apply list_elem_of_lookup in Hin as [j Hj].
    exists 0%nat, (S j). by rewrite <- !policy_matches_spec.
  - intros Hf. destruct (IH _ _ _ Hf) as (i & j & Hij & Hi & Hj & H1 & H2).
    exists (S i), (S j). split; [congruence|]. done.
Qed.

Lemma filter_ambiguous args v ps i j p1 p2 :
  ps !! i = Some p1 -> ps !! j = Some p2 -> i <> j -> selects_service args v p1 -> selects_service args v p2 ->
  exists q1 q2 l, List.filter (policy_matches args v) ps = q1 :: q2 :: l.
Proof.
  intros Hi Hj Hij H1 H2. destruct (List.filter (policy_matches args v) ps) as [|q1 [|q2 l]] eqn:Hf; [| |by eauto].
  - destruct (filter_nil args v ps Hf p1); [by eapply list_elem_of_lookup_2|done].
  - apply filter_one in Hf as (l1 & l2 & -> & _ & Hno).
    assert (Hat : forall k p, (l1 ++ q1 :: l2) !! k = Some p -> selects_service args v p -> k = length l1).
    { intros k p Hk Hs. destruct (decide (k = length l1)) as [|Hne]; [done|]. destruct (Hno p); [|done].
      apply elem_of_app. apply lookup_app_Some in Hk as [Hk|[Hle Hk]]; [left; by eapply list_elem_of_lookup_2|right].
      apply lookup_cons_Some in Hk as [[? _]|[_ Hk]]; [lia|]. by eapply list_elem_of_lookup_2. }
    rewrite (Hat i p1), (Hat j p2) in Hij by done. done.
Qed.

Lemma resolvePolicy_some pl ns v p log :
  resolvePolicy pl ns v = (Some p, None, log) <->
  log = [] /\ exists ps, d_policies (pl_deps pl) ns = Ok ps /\ unique_policy (pl_args pl) v ps p.
Proof.
  unfold resolvePolicy. destruct (d_policies (pl_deps pl) ns) as [ps|e]; [|naive_solver].
  transitivity (log = [] /\ List.filter (policy_matches (pl_args pl) v) ps = [p]).
  - destruct (List.filter _ ps) as [|p' [|p'' l]]; [destruct (default _ _)|..]; naive_solver.
  - rewrite filter_one. naive_solver.
Qed.

Lemma resolvePolicy_none pl ns v log :
  resolvePolicy pl ns v = (None, None, log) <->
  log = [] /\ RequirePolicy (pl_args pl) = Some false /\
  exists ps, d_policies (pl_deps pl) ns = Ok ps /\
    forall q, q ∈ ps -> ~ selects_service (pl_args pl) v q.
Proof.
  unfold resolvePolicy. destruct (d_policies (pl_deps pl) ns) as [ps|e]; [|naive_solver].
  transitivity (log = [] /\ RequirePolicy (pl_args pl) = Some false /\
                List.filter (policy_matches (pl_args pl) v) ps = []).
  - destruct (RequirePolicy (pl_args pl)) as [[]|], (List.filter _ ps) as [|p' [|p'' l]]; simpl;
      naive_solver.
  - assert (List.filter (policy_matches (pl_args pl) v) ps = [] <->
            forall q, q ∈ ps -> ~ selects_service (pl_args pl) v q) as ->; [|naive_solver].
    split; [apply filter_nil|apply filter_none].
Qed.

(** ** Lemmas: PreFilter and Filter *)

Section prefilter.
Context `{KubeLib} {C : Type} `{CycleStoreLaws C}.
Implicit Types (pl : ServiceSpread) (c : C).

(** The pod passes every check before the counting loop. *)
Definition placeable pl pod (v : string) (policy : option ServiceSpreadPolicy) : Prop :=
  pod_Labels pod !! ServiceLabelKey (pl_args pl) = Some v /\
  d_owners (pl_deps pl) (pod_UID pod) (pod_Namespace pod) (pod_OwnerReferences pod) = true /\
  resolvePolicy pl (pod_Namespace pod) v = (policy, None, []) /\
  computeStableDomain (pod_Spec pod) (d_nodes (pl_deps pl)) <> ∅.

(** What the stored state says about the pod, for the counts [eff] it has seen. *)
Definition describes pl (eff : string -> string -> string -> Z * Z) pod v policy
    (st : preFilterState) : Prop :=
  let qk := QuotaKey (pod_Namespace pod) (ManagedSchedulerName (pl_args pl))
                     (ServiceLabelKey (pl_args pl)) v in
  let sk := SchedKey qk (DomainHash pod) in
  pf_quotaKey st = qk /\ pf_schedKey st = sk /\ pf_policy st = policy /\
  pf_domainSet st = computeStableDomain (pod_Spec pod) (d_nodes (pl_deps pl)) /\
  pf_minCount st = foldl (fun m n => min_step m (eff n sk qk).1) (-1) (elements (pf_domainSet st)) /\
  (forall n, pf_effDomain st !! n = if decide (n ∈ pf_domainSet st) then Some (eff n sk qk).1 else None) /\
  (forall n, pf_effQuota st !! n = if decide (n ∈ pf_domainSet st) then Some (eff n sk qk).2 else None).

Lemma getPreFilterState_Write c st :
  getPreFilterState (Write c preFilterStateKey (DPreFilter (Some st))) = inl st.
Proof. unfold getPreFilterState. by rewrite Read_Write_eq. Qed.

Lemma resolvePolicy_log pl ns v p log : resolvePolicy pl ns v = (p, None, log) -> log = [].
Proof. destruct p; intros Hr; [apply resolvePolicy_some in Hr|apply resolvePolicy_none in Hr]; tauto. Qed.

Lemma PreFilter_cases pl eff c pod :
  d_synced (pl_deps pl) = Some true ->
  spec_SchedulerName (pod_Spec pod) = ManagedSchedulerName (pl_args pl) ->
  (exists v policy st, placeable pl pod v policy /\ describes pl eff pod v policy st /\
     PreFilter pl eff c pod = Val (success, Write c preFilterStateKey (DPreFilter (Some st)), [])) \/
  (exists st log, (forall v policy, ~ placeable pl pod v policy) /\
     PreFilter pl eff c pod = Val (st, c, log) /\ st_Code st <> Success).
Proof.
  intros Hsync Hname. unfold PreFilter, synced. rewrite Hsync. simpl. unfold placeable.
  rewrite decide_False by (intros Hne; by apply Hne).
  destruct (pod_Labels pod !! _) as [v|] eqn:Hv;
    [|right; do 2 eexists; split; [by intros v' p' (Hv' & _)|done]].
  destruct (d_owners _ _ _ _) eqn:Ho; simpl;
    [|right; do 2 eexists; split; [by intros v' p' (_ & Ho' & _)|done]].
  destruct (resolvePolicy pl (pod_Namespace pod) v) as [[policy [st|]] log] eqn:Hr.
  { right. exists st, log. split; [intros v' p' (Hv' & _ & Hr' & _); congruence|]. split; [done|].
    revert Hr. unfold resolvePolicy. repeat case_match; naive_solver. }
  pose proof (resolvePolicy_log _ _ _ _ _ Hr) as ->.
  destruct (decide (computeStableDomain (pod_Spec pod) (d_nodes (pl_deps pl)) = ∅)) as [He|He].
  { right. do 2 eexists. split; [intros v' p' (_ & _ & _ & Hne); by apply Hne|]. done. }
  left. set (qk := QuotaKey _ _ _ _). set (sk := SchedKey _ _).
  destruct (count_loop _ _) as [[m D] Q] eqn:Hc.
  apply count_loop_spec in Hc as (Hm & HD & HQ).
  exists v, policy. eexists. split; [done|]. split; [|done].
  split_and!; simpl; try done; intros n.
  - rewrite HD. apply decide_ext, domain_elements.
  - rewrite HQ. apply decide_ext, domain_elements.
Qed.

Lemma describes_min pl eff pod v policy st :
  describes pl eff pod v policy st -> pf_domainSet st <> ∅ ->
  (forall n, 0 <= (eff n (pf_schedKey st) (pf_quotaKey st)).1) ->
  is_min (fun n => (eff n (pf_schedKey st) (pf_quotaKey st)).1) (elements (pf_domainSet st))
         (pf_minCount st).
Proof.
  intros (Hq & Hs & _ & _ & Hm & _) Hne Hpos. rewrite Hm, Hs, Hq. rewrite Hs, Hq in Hpos.
  apply (min_loop (fun n => (eff n _ _).1)); [|intros x _; apply Hpos].
  intros He. apply Hne, leibniz_equiv, elements_empty_iff, He.
Qed.

(** What [Filter] answers for a node of the domain, when no addition overflows. *)
Lemma Filter_cases c state policy node q d :
  getPreFilterState c = inl state -> pf_policy state = Some policy ->
  node_Name node ∈ pf_domainSet state ->
  map_get 0 (pf_effQuota state) (node_Name node) = q ->
  map_get 0 (pf_effDomain state) (node_Name node) = d ->
  0 <= q < max_int32 -> 0 <= d < max_int32 -> 0 <= pf_minCount state <= d ->
  exists st log, Filter c (Some node) = Val (st, log) /\
    ((st = success /\ log = []) \/
     (st_Code st = Unschedulable /\ log = [filterRejections "ServiceSpreadConstraint"])) /\
    (st = success <-> q + 1 <= MaxPodsPerNode (pol_Spec policy) /\
                      d + 1 - pf_minCount state <= MaxSkew (pol_Spec policy)).
Proof.
  intros Hst Hp Hin Hq Hd Hq' Hd' Hm. unfold Filter. rewrite Hst, Hp.
  rewrite bool_decide_eq_true_2 by done. simpl negb. cbv iota. rewrite Hq, Hd.
  assert (q ⊞ 1 = q + 1) as -> by (int_small; lia).
  assert (d ⊞ 1 ⊟ pf_minCount state = d + 1 - pf_minCount state) as ->.
  { rewrite (wrap32_id (_ + 1)), wrap32_id; unfold in_int32, max_int32 in *; lia. }
  rewrite !Z.gtb_ltb. destruct (Z.ltb_spec (MaxPodsPerNode (pol_Spec policy)) (q + 1)).
  { do 2 eexists. split; [done|]. split; [by right|]. split; [done|]. lia. }
  destruct (Z.ltb_spec (MaxSkew (pol_Spec policy)) (d + 1 - pf_minCount state)).
  { do 2 eexists. split; [done|]. split; [by right|]. split; [done|]. lia. }
  do 2 eexists. split; [done|]. split; [by left|]. split; [done|]. done.
Qed.

(** [Filter] on a state that describes the counts of [s]: success is admissibility. *)
Lemma describes_Filter pl s pod v policy state c node :
  snap_wf (snap s) -> small s -> describes pl (effCount s) pod v (Some policy) state ->
  pf_domainSet state <> ∅ -> getPreFilterState c = inl state ->
  exists stf logf, Filter c (Some node) = Val (stf, logf) /\
    (st_Code stf = Success <-> node_Name node ∈ pf_domainSet state /\
       admissible s policy (pf_quotaKey state) (pf_schedKey state) (pf_domainSet state) (node_Name node)).
Proof.
  intros Hw Hs Hde Hne Hst. pose proof Hde as (Hqk & Hsk & Hpol & _ & _ & HD & HQ).
  rewrite <- Hsk, <- ?Hqk in HD. rewrite <- Hsk, <- ?Hqk in HQ.
  destruct (describes_min pl (effCount s) pod v (Some policy) state Hde Hne) as [(x & Hx & Hm) Hle].
  { intros n. rewrite effCount_spec by done. apply (domain_on_range s n _ Hs). }
  rewrite effCount_spec in Hm by done. simpl in Hm. apply domain_elements in Hx.
  set (sk := pf_schedKey state) in *. set (qk := pf_quotaKey state) in *.
  assert (Hle' : forall n, n ∈ pf_domainSet state -> pf_minCount state <= domain_on s n sk).
  { intros n Hn. specialize (Hle n). rewrite effCount_spec in Hle by done.
    apply Hle. by apply domain_elements. }
  destruct (decide (node_Name node ∈ pf_domainSet state)) as [Hin|Hin].
  2: { eexists _, _. unfold Filter. rewrite Hst, bool_decide_eq_false_2 by done. naive_solver. }
  pose proof (domain_on_range s x sk Hs). specialize (Hle' (node_Name node) Hin) as Hnode.
  destruct (Filter_cases c state policy node (quota_on s (node_Name node) qk)
              (domain_on s (node_Name node) sk) Hst Hpol Hin) as (stf & logf & HF & Hor & Hiff).
  - unfold map_get. by rewrite HQ, decide_True, effCount_spec by done.
  - unfold map_get. by rewrite HD, decide_True, effCount_spec by done.
  - apply (quota_on_range s _ _ Hs).
  - apply (domain_on_range s _ _ Hs).
  - lia.
  - exists stf, logf. split; [exact HF|]. transitivity (stf = success).
    { destruct Hor as [[-> _]|[Hun _]]; [done|]. rewrite Hun. split; [done|]. by intros ->. }
    rewrite Hiff. unfold admissible. split.
    + intros [Hq Hd]. split; [done|]. split; [done|]. intros n Hn. specialize (Hle' n Hn). lia.
    + intros (_ & Hq & Hd). split; [done|]. specialize (Hd x Hx). lia.
Qed.

End prefilter.

(** ** Lemmas: scoring *)

Lemma extrema_loop state l a b :
  foldl (extrema_step state) (a, b) l =
  (foldl (fun m n => min_step m (map_get 0 (pf_effDomain state) (node_Name n))) a l,
   foldl (fun m n => max_step m (map_get 0 (pf_effDomain state) (node_Name n))) b l).
Proof. revert a b. induction l as [|n l IH]; intros a b; simpl; [done|]. apply IH. Qed.

(** After [PreScore] every scored node gets the quotient of the source, without
    overflow or division by zero. *)
Lemma PreScore_Score `{KubeLibLaws} {C : Type} `{CycleStoreLaws C} (c : C) state nodes :
  getPreFilterState c = inl state -> nodes <> [] ->
  let count n := map_get 0 (pf_effDomain state) (node_Name n) in
  (forall n, n ∈ nodes -> 0 <= count n < max_int32) ->
  exists cmin cmax c', is_min count nodes cmin /\ is_max count nodes cmax /\
    PreScore c nodes = (success, c') /\ getPreFilterState c' = inl state /\
    forall n, n ∈ nodes -> Score c' (node_Name n) =
      Val (if decide (cmin = cmax) then 0 else (cmax - count n) * MaxNodeScore / (cmax - cmin + 1), success).
Proof.
  intros Hst Hne count Hrange. unfold PreScore. rewrite Hst.
  destruct nodes as [|n0 nodes']; [done|]. set (nodes := n0 :: nodes') in *.
  rewrite extrema_loop. fold count.
  assert (Hlo : is_min count nodes (foldl (fun m n => min_step m (count n)) (-1) nodes))
    by (apply min_loop; [done|]; intros y Hy; by apply Hrange).
  assert (Hhi : is_max count nodes (foldl (fun m n => max_step m (count n)) (-1) nodes))
    by (apply max_loop; [done|]; intros y Hy; by apply Hrange).
  set (cmin := foldl _ _ _) in *. set (cmax := foldl (fun m n => max_step _ _) _ _) in *.
  exists cmin, cmax. eexists. split; [exact Hlo|]. split; [exact Hhi|]. split; [done|].
  assert (Hst' : forall d, getPreFilterState (Write c preScoreStateKey d) = inl state).
  { intros d. unfold getPreFilterState. rewrite Read_Write_ne by done. exact Hst. }
  split; [apply Hst'|]. pose proof MaxNodeScore_range as HM.
  destruct Hlo as [(x & Hx & Hmin) Hlo], Hhi as [(y & Hy & Hmax) Hhi].
  pose proof (Hrange x Hx). pose proof (Hrange y Hy).
  intros n Hn. pose proof (Hrange n Hn). pose proof (Hlo n Hn). pose proof (Hhi n Hn).
  unfold Score. rewrite Hst', Read_Write_eq. simpl.
  destruct (decide (cmin = cmax)) as [He|He]; [by rewrite bool_decide_eq_true_2|].
  rewrite bool_decide_eq_false_2 by done. fold (count n).
  assert (E1 : cmax ⊟ cmin ⊞ 1 = cmax - cmin + 1).
  { rewrite (wrap32_id (cmax - cmin)), wrap32_id; unfold in_int32, max_int32 in *; lia. }
  assert (E2 : wrap64 ((cmax ⊟ count n) * MaxNodeScore) = (cmax - count n) * MaxNodeScore).
  { rewrite wrap32_id by (unfold in_int32, max_int32 in *; lia).
    apply wrap64_id. unfold in_int64, max_int64, max_int32 in *. nia. }
  rewrite E1, E2, decide_False by lia. by rewrite Z.quot_div_nonneg by nia.
Qed.

(** ** Theorems *)

(** A cycle state for the witnesses: a finite map. *)
#[export] Instance fx_store : CycleStore (gmap string StateData) := {|
  Read c k := c !! k;
  Write c k d := <[k := d]> c;
|}.

#[export] Instance fx_store_laws : CycleStoreLaws (gmap string StateData).
Proof.
  split; simpl; intros.
  - apply lookup_insert_eq.
  - by apply lookup_insert_ne.
Qed.

Definition ex_cargs (require : bool) : ServiceSpreadArgs :=
  MkArgs "" "" "svc" (Some require) DefaultManagedSchedulerName Minute Minute Minute None None.
Definition ex_policy : ServiceSpreadPolicy :=
  Policy "ssp-x" "ns" (PolicySpec DefaultManagedSchedulerName (MkSelector {[ "svc" := "app" ]} []) 1 2).
Definition ex_deps (ps : list ServiceSpreadPolicy) : pluginDeps :=
  MkDeps (fun _ => Ok ps) (fun _ _ _ => true) (Ok [Some (fx_node "n1" ∅); Some (fx_node "n2" ∅)])
         (Some true).
Definition ex_plugin (require : bool) (ps : list ServiceSpreadPolicy) : ServiceSpread :=
  MkPlugin (ex_cargs require) (ex_deps ps).
Definition ex_new_pod : Pod := fx_pod "u9" "" "app" "Pending".
Definition ex_quotaKey : string := QuotaKey "ns" DefaultManagedSchedulerName "svc" "app".
Definition ex_schedKey : string := SchedKey ex_quotaKey (DomainHash ex_new_pod).
Definition ex_counted : spreadState :=
  upsertCount newSpreadState "u1" (PodRef ex_quotaKey ex_schedKey "n1").
Definition ex_pf (policy : option ServiceSpreadPolicy) : preFilterState :=
  PreFilterState ex_quotaKey ex_schedKey policy
    {["n1"; "n2"]} 0 (<["n1" := 1]> {["n2" := 0]}) (<["n1" := 1]> {["n2" := 0]}).
Definition ex_cycle (policy : option ServiceSpreadPolicy) : gmap string StateData :=
  {[ preFilterStateKey := DPreFilter (Some (ex_pf policy)) ]}.

Lemma ex_counted_reachable : reachable ex_counted.
Proof. eapply rtc_l; [|apply rtc_refl]. apply ss_upsert. vm_compute. reflexivity. Qed.

(** C4: [Reserve] is exact.  It succeeds if and only if the node is still in the
    pod's stable domain, the pod holds no reservation yet, one more pod of the
    service fits the per-node cap and the new count exceeds no other domain
    node's count by more than maxSkew, all on the counts (snapshot and
    reservations) of that instant.  On success the only change is the pod's new
    reservation and the cap and the skew bound hold in the new state; otherwise the
    state is unchanged and the pod is Unschedulable. *)
Theorem Reserve_exact `{KubeLib} {C : Type} `{CycleStore C} now pl s (c : C) pod nodeName state policy :
  reachable s -> small s ->
  getPreFilterState c = inl state -> pf_policy state = Some policy ->
  let domain := computeStableDomain (pod_Spec pod) (d_nodes (pl_deps pl)) in
  exists st s', Reserve now pl s c pod nodeName = Val (st, s') /\
    (st_Code st = Success <-> nodeName ∈ domain /\ resv s !! pod_UID pod = None /\
       admissible s policy (pf_quotaKey state) (pf_schedKey state) domain nodeName) /\
    (st_Code st = Success ->
       s' = SpreadState (snap s) (<[pod_UID pod := new_resv now pod state nodeName]> (resv s)) /\
       quota_on s' nodeName (pf_quotaKey state) <= MaxPodsPerNode (pol_Spec policy) /\
       forall n, n ∈ domain -> domain_on s' nodeName (pf_schedKey state) -
                               domain_on s' n (pf_schedKey state) <= MaxSkew (pol_Spec policy)) /\
    (st_Code st <> Success -> s' = s /\ st_Code st = Unschedulable).
Proof.
  intros Hr Hs Hst Hp domain. destruct (reachable_wf s Hr) as [Hw _].
  destruct (Reserve_cases now pl s c pod nodeName state policy Hw Hs Hst Hp)
    as [[(Hin & Hu & Hq & Hd) HR]|[Hno (st & HR & Hst')]]; subst domain.
  - do 2 eexists. split; [exact HR|]. split; [done|]. split; [|done]. intros _. split; [done|].
    split.
    + rewrite quota_on_insert by done. unfold resv_at, b2z. case_bool_decide; lia.
    + intros n Hn. rewrite !domain_on_insert by done. specialize (Hd n Hn).
      unfold resv_at, b2z. simpl. rewrite bool_decide_eq_true_2 by done. case_bool_decide; lia.
  - exists st, s. split; [exact HR|]. rewrite Hst'. split; [|done]. naive_solver.
Qed.

Lemma Reserve_exact_witness :
  exists st s', Reserve 7 (ex_plugin true [ex_policy]) ex_counted (ex_cycle (Some ex_policy))
                  ex_new_pod "n2" = Val (st, s') /\
    st_Code st = Success /\ quota_on s' "n2" ex_quotaKey <= 2.
Proof.
  destruct (Reserve_exact 7 (ex_plugin true [ex_policy]) ex_counted (ex_cycle (Some ex_policy))
              ex_new_pod "n2" _ ex_policy ex_counted_reachable
              ltac:(vm_compute; reflexivity) eq_refl eq_refl) as (st & s' & HR & _ & Hok & _).
  exists st, s'. split; [exact HR|].
  assert (Hc : st_Code st = Success).
  { assert (Hv : Reserve 7 (ex_plugin true [ex_policy]) ex_counted (ex_cycle (Some ex_policy))
                   ex_new_pod "n2" = Val (success, SpreadState (snap ex_counted)
       {[ "u9" := Reservation "u9" ex_quotaKey ex_schedKey "n2" resvReserved 7 ]}))
      by (vm_compute; reflexivity).
    rewrite HR in Hv. by injection Hv as -> _. }
  split; [exact Hc|]. exact (proj1 (proj2 (Hok Hc))).
Defined.

Lemma effCount_nonneg s : reachable s -> small s -> forall n sk qk, 0 <= (effCount s n sk qk).1.
Proof.
  intros Hr Hs n sk qk. destruct (reachable_wf s Hr) as [Hw _]. rewrite effCount_spec by done.
  apply (domain_on_range s n sk Hs).
Qed.

(** C5: [PreFilter] is exact and never panics on a plugin built by [NewWithDeps].
    Before the caches are synced it answers CacheNotSynced; a pod of another
    scheduler passes untouched.  Otherwise it succeeds if and only if the pod
    carries the service label, is owned by a Deployment, its policy resolves and
    its stable domain is not empty, and then the cycle state holds the pod's two
    keys, the policy, the domain, the counts seen for exactly the domain's nodes
    and their minimum (in any iteration order), and every other key is untouched. *)
Theorem PreFilter_exact `{KubeLib} {C : Type} `{CycleStoreLaws C} args deps pl eff (c : C) pod :
  NewWithDeps args deps = Ok pl ->
  (forall n sk qk, 0 <= (eff n sk qk).1) ->
  exists st c' log, PreFilter pl eff c pod = Val (st, c', log) /\
  (d_synced (pl_deps pl) = Some false -> st = NewStatus Unschedulable "CacheNotSynced" /\ c' = c) /\
  (d_synced (pl_deps pl) = Some true ->
   spec_SchedulerName (pod_Spec pod) <> ManagedSchedulerName (pl_args pl) -> st = success /\ c' = c) /\
  (d_synced (pl_deps pl) = Some true ->
   spec_SchedulerName (pod_Spec pod) = ManagedSchedulerName (pl_args pl) ->
   (st_Code st = Success <-> exists v policy, placeable pl pod v policy) /\
   (st_Code st <> Success -> c' = c) /\
   (st_Code st = Success -> exists v policy state,
      placeable pl pod v policy /\ describes pl eff pod v policy state /\
      getPreFilterState c' = inl state /\
      (forall l, l ≡ₚ elements (pf_domainSet state) ->
         is_min (fun n => (eff n (pf_schedKey state) (pf_quotaKey state)).1) l (pf_minCount state)) /\
      (forall k, k <> preFilterStateKey -> Read c' k = Read c k))).
Proof.
  intros Hnew Hpos.
  assert (Hsync : exists b, d_synced (pl_deps pl) = Some b).
  { unfold NewWithDeps in Hnew. case_decide; [done|]. injection Hnew as <-. simpl.
    destruct (d_synced deps) as [b|] eqn:E; eexists; [exact E|done]. }
  destruct Hsync as [[] Hsync].
  2: { unfold PreFilter, synced. rewrite Hsync. simpl. do 3 eexists. split; [done|]. naive_solver. }
  destruct (decide (spec_SchedulerName (pod_Spec pod) = ManagedSchedulerName (pl_args pl))) as [Hn|Hn].
  2: { unfold PreFilter, synced. rewrite Hsync. simpl. rewrite decide_True by done.
       do 3 eexists. split; [done|]. naive_solver. }
  destruct (PreFilter_cases pl eff c pod Hsync Hn)
    as [(v & policy & state & Hpl & Hde & HP)|(st & log & Hno & HP & Hst)].
  - do 3 eexists. split; [exact HP|]. rewrite Hsync. split; [done|]. split; [done|]. intros _ _.
    split; [naive_solver|]. split; [done|]. intros _. exists v, policy, state.
    split; [done|]. split; [done|]. split; [apply getPreFilterState_Write|]. split.
    + intros l Hl. assert (Hne : pf_domainSet state <> ∅).
      { destruct Hde as (_ & _ & _ & -> & _). by destruct Hpl as (_ & _ & _ & ?). }
      destruct (describes_min pl eff pod v policy state Hde Hne) as [(x & Hx & Hm) Hle]; [auto|].
      split; [exists x; by rewrite Hl|]. intros y. rewrite Hl. apply Hle.
    + intros k Hk. by apply Read_Write_ne.
  - do 3 eexists. split; [exact HP|]. rewrite Hsync. split; [done|]. split; [done|]. intros _ _.
    split; [|done]. split; [done|]. naive_solver.
Qed.

Lemma PreFilter_exact_witness :
  exists st c' log,
    PreFilter (ex_plugin true [ex_policy]) (effCount ex_counted) (∅ : gmap string StateData)
              ex_new_pod = Val (st, c', log) /\
    (st_Code st <> Success -> c' = ∅).
Proof.
  destruct (PreFilter_exact (ex_cargs true) (ex_deps [ex_policy]) (ex_plugin true [ex_policy])
              (effCount ex_counted) (∅ : gmap string StateData) ex_new_pod eq_refl
              ltac:(apply effCount_nonneg; [apply ex_counted_reachable|vm_compute; reflexivity]))
    as (st & c' & log & HP & _ & _ & Hm).
  exists st, c', log. split; [exact HP|]. exact (proj1 (proj2 (Hm eq_refl eq_refl))).
Defined.

Lemma ex_PreFilter :
  PreFilter (ex_plugin true [ex_policy]) (effCount ex_counted) (∅ : gmap string StateData) ex_new_pod
  = Val (success, ex_cycle (Some ex_policy), []).
Proof. vm_compute. reflexivity. Qed.

Lemma ex_PreFilter_nil :
  PreFilter (ex_plugin false []) (effCount ex_counted) (∅ : gmap string StateData) ex_new_pod
  = Val (success, ex_cycle None, []).
Proof. vm_compute. reflexivity. Qed.

(** C8: on an unchanged cluster [Filter] and [Reserve] agree.  If [PreFilter] has
    stored the pod's state from the counts of [s] and [Reserve] runs on the same
    counts and nodes, for a pod without reservation, then for every node [Reserve]
    succeeds if and only if [Filter] does: no node that passes the filter is
    refused, and none that fails it is admitted. *)
Theorem Filter_Reserve_agree `{KubeLib} {C : Type} `{CycleStoreLaws C} now args deps pl s (c : C) pod
    c' log v policy node :
  reachable s -> small s -> NewWithDeps args deps = Ok pl ->
  d_synced (pl_deps pl) = Some true ->
  spec_SchedulerName (pod_Spec pod) = ManagedSchedulerName (pl_args pl) ->
  placeable pl pod v (Some policy) -> resv s !! pod_UID pod = None ->
  PreFilter pl (effCount s) c pod = Val (success, c', log) ->
  exists stf logf str s', Filter c' (Some node) = Val (stf, logf) /\
    Reserve now pl s c' pod (node_Name node) = Val (str, s') /\
    (st_Code stf = Success <-> st_Code str = Success).
Proof.
  intros Hr Hs Hnew Hsync Hn Hpl Hu HP. destruct (reachable_wf s Hr) as [Hw _].
  destruct (PreFilter_cases pl (effCount s) c pod Hsync Hn)
    as [(v' & policy' & state & Hpl' & Hde & HP')|(st & l & Hno & _)]; [|by apply Hno in Hpl].
  assert (policy' = Some policy) as ->.
  { destruct Hpl as (E1 & _ & E2 & _), Hpl' as (E1' & _ & E2' & _). congruence. }
  rewrite HP' in HP. injection HP as <- <-.
  set (c' := Write _ _ _). assert (Hst : getPreFilterState c' = inl state) by apply getPreFilterState_Write.
  pose proof Hde as (_ & _ & Hpol & Hdom & _).
  assert (Hne : pf_domainSet state <> ∅) by (rewrite Hdom; by destruct Hpl as (_ & _ & _ & ?)).
  destruct (describes_Filter pl s pod v' policy state c' node Hw Hs Hde Hne Hst) as (stf & logf & HF & Hiff).
  exists stf, logf. destruct (Reserve_cases now pl s c' pod (node_Name node) state policy Hw Hs Hst Hpol)
    as [[(Hin & _ & Ha) HR]|[Hno' (st & HR & Hst')]]; rewrite <- Hdom in *.
  - do 2 eexists. split; [exact HF|]. split; [exact HR|]. rewrite Hiff. done.
  - do 2 eexists. split; [exact HF|]. split; [exact HR|]. rewrite Hiff, Hst'. split; [|done].
    intros [Hin Ha]. by destruct Hno'.
Qed.

Lemma Filter_Reserve_agree_witness :
  exists stf logf str s', Filter (ex_cycle (Some ex_policy)) (Some (fx_node "n1" ∅)) = Val (stf, logf) /\
    Reserve 7 (ex_plugin true [ex_policy]) ex_counted (ex_cycle (Some ex_policy)) ex_new_pod "n1"
      = Val (str, s') /\
    (st_Code stf = Success <-> st_Code str = Success).
Proof.
  refine (Filter_Reserve_agree 7 (ex_cargs true) (ex_deps [ex_policy]) (ex_plugin true [ex_policy])
           ex_counted ∅ ex_new_pod (ex_cycle (Some ex_policy)) [] "app" ex_policy (fx_node "n1" ∅)
           ex_counted_reachable _ eq_refl eq_refl eq_refl _ eq_refl ex_PreFilter).
  - vm_compute. reflexivity.
  - split; [reflexivity|]. split; [reflexivity|]. split; [vm_compute; reflexivity|]. by_decide.
Defined.

(** With [requirePolicy] off, a pod whose service has no policy passes
    [PreFilter] with a nil policy in the cycle state; [Filter] then panics on every
    node of the pod's stable domain, and so does [Reserve]. *)
Theorem nil_policy_panics `{KubeLib} {C : Type} `{CycleStoreLaws C} now args deps pl s (c : C) pod v ps node :
  NewWithDeps args deps = Ok pl -> d_synced (pl_deps pl) = Some true ->
  spec_SchedulerName (pod_Spec pod) = ManagedSchedulerName (pl_args pl) ->
  pod_Labels pod !! ServiceLabelKey (pl_args pl) = Some v ->
  d_owners (pl_deps pl) (pod_UID pod) (pod_Namespace pod) (pod_OwnerReferences pod) = true ->
  RequirePolicy (pl_args pl) = Some false ->
  d_policies (pl_deps pl) (pod_Namespace pod) = Ok ps ->
  (forall p, p ∈ ps -> ~ selects_service (pl_args pl) v p) ->
  node_Name node ∈ computeStableDomain (pod_Spec pod) (d_nodes (pl_deps pl)) ->
  resv s !! pod_UID pod = None ->
  exists c', PreFilter pl (effCount s) c pod = Val (success, c', []) /\
    Filter c' (Some node) = Panic /\ Reserve now pl s c' pod (node_Name node) = Panic.
Proof.
  intros Hnew Hsync Hn Hv Ho Hreq Hps Hno Hin Hu.
  assert (Hpl : placeable pl pod v None).
  { split; [done|]. split; [done|]. split; [|set_solver]. apply resolvePolicy_none.
    split; [done|]. split; [done|]. by exists ps. }
  destruct (PreFilter_cases pl (effCount s) c pod Hsync Hn)
    as [(v' & policy & state & Hpl' & Hde & HP)|(st & l & Hx & _)]; [|by apply Hx in Hpl].
  assert (policy = None) as ->.
  { destruct Hpl as (E1 & _ & E2 & _), Hpl' as (E1' & _ & E2' & _). congruence. }
  destruct Hde as (_ & _ & Hpol & Hdom & _). eexists. split; [exact HP|].
  unfold Filter, Reserve. rewrite getPreFilterState_Write, Hdom.
  rewrite bool_decide_eq_true_2 by done. simpl negb. cbv iota. unfold TryReserveChecked.
  rewrite Hu, Hpol. split; [done|]. unfold reserve_admit. rewrite Hpol.
  by destruct (EffCount _ _ _ _).
Qed.

Lemma nil_policy_panics_witness :
  exists c' : gmap string StateData,
    PreFilter (ex_plugin false []) (effCount ex_counted) ∅ ex_new_pod = Val (success, c', []) /\
    Filter c' (Some (fx_node "n1" ∅)) = Panic /\
    Reserve 7 (ex_plugin false []) ex_counted c' ex_new_pod "n1" = Panic.
Proof.
  refine (nil_policy_panics 7 (ex_cargs false) (ex_deps []) (ex_plugin false []) ex_counted ∅ ex_new_pod
           "app" [] (fx_node "n1" ∅) eq_refl eq_refl eq_refl eq_refl eq_refl eq_refl eq_refl _ _ eq_refl).
  - intros p Hp. by apply not_elem_of_nil in Hp.
  - by_decide.
Defined.

(** A larger count scores strictly less while the divisor is at most the scale. *)
Lemma score_strict M cmax d a b :
  0 < d <= M -> a < b -> b <= cmax -> (cmax - b) * M / d < (cmax - a) * M / d.
Proof.
  intros Hd Hab Hb. apply Z.le_succ_l. unfold Z.succ.
  replace ((cmax - b) * M / d + 1) with (((cmax - b) * M + 1 * d) / d) by (rewrite Z.div_add by lia; lia).
  apply Z.div_le_mono; nia.
Qed.

(** C24: scoring is exact on the feasible nodes.  After a successful [PreScore],
    [Score] succeeds without overflow or division by zero for every scored node,
    and the score is the integer part of (max - count) * MaxNodeScore / (max - min + 1)
    for the smallest and the largest count of the feasible nodes.  So it lies between
    0 and MaxNodeScore, a node with fewer pods of the service never scores less than
    one with more, and strictly more whenever the counts differ by less than
    MaxNodeScore over all nodes; a node with the largest count scores 0; and the stored
    state of [PreFilter] is untouched. *)
Theorem Score_contract `{KubeLibLaws} {C : Type} `{CycleStoreLaws C} (c : C) state nodes st c' :
  getPreFilterState c = inl state -> nodes <> [] ->
  let count n := map_get 0 (pf_effDomain state) (node_Name n) in
  (forall n, n ∈ nodes -> 0 <= count n < max_int32) ->
  PreScore c nodes = (st, c') ->
  st = success /\ getPreFilterState c' = inl state /\
  exists (lo hi : Z) (score : Node -> Z),
    (exists n, n ∈ nodes /\ count n = lo) /\ (exists n, n ∈ nodes /\ count n = hi) /\
    forall n, n ∈ nodes ->
      lo <= count n <= hi /\
      Score c' (node_Name n) = Val (score n, success) /\ 0 <= score n <= MaxNodeScore /\
      score n * (hi - lo + 1) <= (hi - count n) * MaxNodeScore < (score n + 1) * (hi - lo + 1) /\
      (forall m, m ∈ nodes -> count n <= count m -> score m <= score n) /\
      (hi - lo < MaxNodeScore -> forall m, m ∈ nodes -> count n < count m -> score m < score n) /\
      ((forall m, m ∈ nodes -> count m <= count n) -> score n = 0).
Proof.
  intros Hst Hne count Hrange HP.
  destruct (PreScore_Score c state nodes Hst Hne Hrange)
    as (cmin & cmax & c2 & [(x & Hx & Hmin) Hlo] & [(y & Hy & Hmax) Hhi] & HP' & Hst' & Hsc).
  rewrite HP' in HP. injection HP as <- <-. split; [done|]. split; [done|].
  change (count x = cmin) in Hmin. change (count y = cmax) in Hmax.
  set (score n := (cmax - count n) * MaxNodeScore / (cmax - cmin + 1)).
  exists cmin, cmax, score. split; [by exists x|]. split; [by exists y|].
  pose proof MaxNodeScore_range as HM. intros n Hn.
  assert (Hb : forall m, m ∈ nodes -> cmin <= count m <= cmax) by (intros m Hm; split; [by apply Hlo|by apply Hhi]).
  pose proof (Hb n Hn) as Hbn. split; [done|]. split.
  { rewrite Hsc by done. fold (count n). unfold score. destruct (decide (cmin = cmax)) as [He|He]; [|done].
    replace (cmax - count n) with 0 by lia. by rewrite Z.mul_0_l, Z.div_0_l by lia. }
  assert (Hdiv : score n * (cmax - cmin + 1) <= (cmax - count n) * MaxNodeScore < (score n + 1) * (cmax - cmin + 1)).
  { unfold score. pose proof (Z.mul_div_le ((cmax - count n) * MaxNodeScore) (cmax - cmin + 1)).
    pose proof (Z.mul_succ_div_gt ((cmax - count n) * MaxNodeScore) (cmax - cmin + 1)). lia. }
  split; [split; [apply Z.div_pos; nia|apply Z.div_le_upper_bound; nia]|]. split; [done|]. split; [|split].
  - intros m Hm Hle. apply Z.div_le_mono; [lia|]. nia.
  - intros Hw m Hm Hlt. apply score_strict; try done; specialize (Hb m Hm); lia.
  - intros Hall. unfold score. assert (count n = cmax) as -> by (specialize (Hall y Hy); lia). by rewrite Z.sub_diag.
Qed.

Definition ex_feasible : list Node := [fx_node "n1" ∅; fx_node "n2" ∅].

Lemma Score_contract_witness :
  let c' := (PreScore (ex_cycle (Some ex_policy)) ex_feasible).2 in
  Score c' "n2" = Val (50, success) /\
  exists score : Node -> Z, 0 <= score (fx_node "n2" ∅) <= 100 /\
    Score c' "n2" = Val (score (fx_node "n2" ∅), success).
Proof.
  intros c'. split; [vm_compute; reflexivity|].
  assert (H1 : getPreFilterState (ex_cycle (Some ex_policy)) = inl (ex_pf (Some ex_policy))) by reflexivity.
  assert (H2 : forall n, n ∈ ex_feasible ->
    0 <= map_get 0 (pf_effDomain (ex_pf (Some ex_policy))) (node_Name n) < max_int32).
  { intros n Hn. apply elem_of_cons in Hn as [->|Hn]; [by_decide|].
    apply list_elem_of_singleton in Hn as ->. by_decide. }
  assert (H3 : PreScore (ex_cycle (Some ex_policy)) ex_feasible = (success, c')) by (vm_compute; reflexivity).
  assert (H0 : ex_feasible <> []) by discriminate.
  destruct (Score_contract (ex_cycle (Some ex_policy)) (ex_pf (Some ex_policy)) ex_feasible success c'
              H1 H0 H2 H3) as (_ & _ & lo & hi & score & _ & _ & Hs).
  exists score. destruct (Hs (fx_node "n2" ∅)) as (_ & HS & Hr & _).
  - apply elem_of_cons; right; apply list_elem_of_singleton; reflexivity.
  - split; [exact Hr|exact HS].
Defined.

(** C23: policy resolution is exact, on every branch.  A listing error is an Error.
    Otherwise, of the policies of the namespace's list that name the managed scheduler
    and select exactly the service label with the pod's value: exactly one is returned,
    without a status; two or more are rejected as Ambiguous; none is rejected as
    NotFound, except with [requirePolicy] off, when neither a policy nor a status is
    returned.  Rejections are UnschedulableAndUnresolvable, carry no policy, and
    increment their own counter once; nothing else is counted. *)
Theorem resolvePolicy_exact pl ns v :
  (forall e, d_policies (pl_deps pl) ns = Err e ->
     exists msg, resolvePolicy pl ns v =
       (None, Some (NewStatus Error msg), [policyResolutionFailures "PolicyListError"])) /\
  forall ps, d_policies (pl_deps pl) ns = Ok ps ->
    let selected := selects_service (pl_args pl) v in
    (forall p, unique_policy (pl_args pl) v ps p <-> resolvePolicy pl ns v = (Some p, None, [])) /\
    (forall i j p1 p2, ps !! i = Some p1 -> ps !! j = Some p2 -> i <> j -> selected p1 -> selected p2 ->
       exists msg, resolvePolicy pl ns v =
         (None, Some (NewStatus UnschedulableAndUnresolvable msg), [policyResolutionFailures "AmbiguousServiceSpreadPolicy"])) /\
    ((forall p, p ∈ ps -> ~ selected p) -> RequirePolicy (pl_args pl) <> Some false ->
       exists msg, resolvePolicy pl ns v =
         (None, Some (NewStatus UnschedulableAndUnresolvable msg), [policyResolutionFailures "ServiceSpreadPolicyNotFound"])) /\
    ((forall p, p ∈ ps -> ~ selected p) -> RequirePolicy (pl_args pl) = Some false ->
       resolvePolicy pl ns v = (None, None, [])).
Proof.
  split.
  - intros e He. unfold resolvePolicy. rewrite He. by eexists.
  - intros ps Hps selected. split; [|split; [|split]].
    + intros p. rewrite resolvePolicy_some, Hps. naive_solver.
    + intros i j p1 p2 Hi Hj Hij H1 H2. unfold resolvePolicy. rewrite Hps.
      destruct (filter_ambiguous (pl_args pl) v ps i j p1 p2 Hi Hj Hij H1 H2) as (q1 & q2 & l & ->). by eexists.
    + intros Hno Hreq. unfold resolvePolicy. rewrite Hps, filter_none by done.
      destruct (RequirePolicy (pl_args pl)) as [[]|]; [by eexists|done|by eexists].
    + intros Hno Hreq. unfold resolvePolicy. rewrite Hps, filter_none by done. by rewrite Hreq.
Qed.

Lemma resolvePolicy_exact_witness :
  resolvePolicy (ex_plugin true [ex_policy]) "ns" "app" = (Some ex_policy, None, []) /\
  unique_policy (ex_cargs true) "app" [ex_policy] ex_policy.
Proof.
  assert (H : resolvePolicy (ex_plugin true [ex_policy]) "ns" "app" = (Some ex_policy, None, []))
    by (vm_compute; reflexivity).
  split; [exact H|].
  apply (proj2 (resolvePolicy_exact (ex_plugin true [ex_policy]) "ns" "app") [ex_policy] eq_refl). exact H.
Defined.

(** The first controlling reference of a kind. *)
Definition first_controller (refs : list OwnerReference) (kind : string) (r : OwnerReference) : Prop :=
  exists l1 l2, refs = l1 ++ r :: l2 /\ owner_Kind r = kind /\ owner_Controller r = Some true /\
    forall r', r' ∈ l1 -> ~ (owner_Kind r' = kind /\ owner_Controller r' = Some true).

Lemma controllerRef_spec refs kind r :
  controllerRef refs kind = Some r <-> first_controller refs kind r.
Proof.
  split.
  - induction refs as [|x refs IH]; [done|]. cbn [controllerRef].
    destruct (decide (owner_Kind x = kind /\ owner_Controller x = Some true)) as [[H1 H2]|Hx].
    + intros [= ->]. exists [], refs. split; [done|]. split; [done|]. split; [done|].
      intros r' Hr'. by apply not_elem_of_nil in Hr'.
    + intros Hr. destruct (IH Hr) as (l1 & l2 & -> & H1 & H2 & Hno). exists (x :: l1), l2.
      split; [done|]. split; [done|]. split; [done|]. intros r' Hr'.
      apply elem_of_cons in Hr' as [->|Hr']; [done|by apply Hno].
  - intros (l1 & l2 & -> & H1 & H2 & Hno). induction l1 as [|x l1 IH]; cbn [controllerRef app].
    + by rewrite decide_True.
    + rewrite decide_False by (apply Hno; set_solver). apply IH. intros r' Hr'. apply Hno. set_solver.
Qed.

(** The owner chain is exact: a pod is owned by a Deployment if and only if
    its first controlling ReplicaSet reference names a ReplicaSet of its namespace
    whose first controlling Deployment reference names a Deployment of that
    namespace; the pod's UID is not looked at. *)
Theorem OwnedByDeployment_exact r uid ns refs :
  OwnedByDeployment r uid ns refs = true <->
  exists rsRef rsOwners depRef, first_controller refs "ReplicaSet" rsRef /\
    rs_Get r ns (owner_Name rsRef) = Some rsOwners /\
    first_controller rsOwners "Deployment" depRef /\ dep_Get r ns (owner_Name depRef) = true.
Proof.
  setoid_rewrite <- controllerRef_spec. unfold OwnedByDeployment.
  destruct (controllerRef refs "ReplicaSet") as [rsRef|]; [|naive_solver].
  destruct (rs_Get r ns (owner_Name rsRef)) as [rsOwners|] eqn:E; [|naive_solver].
  destruct (controllerRef rsOwners "Deployment") as [depRef|] eqn:E2; [|naive_solver]. split.
  - intros Hd. by exists rsRef, rsOwners, depRef.
  - intros (r1 & r2 & r3 & [= <-] & Hg & Hc & Hd). congruence.
Qed.
