(* ===== verification/Cycle.v ===== *)
(** * A scheduling cycle (internal/spread/plugin.go)

    The extension points in the order the framework calls them: PreFilter, Filter on
    the nodes it looks at, PreScore and Score on those that passed, and Reserve on a
    node with the best score.  The framework itself is not modelled: which nodes it
    looks at and which of the best nodes it takes is arbitrary. *)

From S2P Require Import Prelude GoStd Kube Fixtures State Keys Domain Api Plugin.

Section cycle.
Context `{KubeLib} {C : Type} `{CycleStore C}.

Definition passes (c : C) (n : Node) : bool :=
  match Filter c (Some n) with
  | Val (st, _) => bool_decide (st_Code st = Success)
  | Panic => false
  end.

Definition feasible (c : C) (nodes : list Node) : list Node := List.filter (passes c) nodes.

(** The node has the fewest pods of the scheduling key in the domain. *)
Definition least (s : spreadState) (domain : gset string) (sk n : string) : Prop :=
  forall m, m ∈ domain -> domain_on s n sk <= domain_on s m sk.

Definition within (s : spreadState) (domain : gset string) (sk : string) (w : Z) : Prop :=
  forall a b, a ∈ domain -> b ∈ domain -> domain_on s a sk - domain_on s b sk <= w.

End cycle.

(** ** Lemmas *)

Section lemmas.
Context `{KubeLibLaws} {C : Type} `{CycleStoreLaws C}.
Context (pl : ServiceSpread) (s : spreadState) (pod : Pod) (v : string) (policy : ServiceSpreadPolicy).
Context (state : preFilterState) (c : C).
Hypotheses (Hw : snap_wf (snap s)) (Hs : small s)
  (Hde : describes pl (effCount s) pod v (Some policy) state)
  (Hne : pf_domainSet state <> ∅) (Hst : getPreFilterState c = inl state).

Local Abbreviation qk := (pf_quotaKey state).
Local Abbreviation sk := (pf_schedKey state).
Local Abbreviation dom := (pf_domainSet state).

Lemma passes_spec node :
  passes c node = true <-> node_Name node ∈ dom /\ admissible s policy qk sk dom (node_Name node).
Proof.
  destruct (describes_Filter pl s pod v policy state c node Hw Hs Hde Hne Hst) as (st & log & HF & Hiff).
  unfold passes. rewrite HF, bool_decide_eq_true. exact Hiff.
Qed.

Lemma feasible_spec nodes node :
  node ∈ feasible c nodes <->
  node ∈ nodes /\ node_Name node ∈ dom /\ admissible s policy qk sk dom (node_Name node).
Proof. unfold feasible. by rewrite list_elem_of_In, List.filter_In, <- list_elem_of_In, passes_spec. Qed.

Lemma seen_count n : n ∈ dom -> map_get 0 (pf_effDomain state) n = domain_on s n sk.
Proof.
  intros Hn. pose proof Hde as (Hqk & Hsk & _ & _ & _ & HD & _).
  unfold map_get. rewrite HD, decide_True by done. rewrite <- Hsk, <- Hqk. by rewrite effCount_spec.
Qed.

(** The best scored of the feasible nodes have the fewest pods among them. *)
Lemma best_is_least_feasible nodes :
  MaxSkew (pol_Spec policy) <= MaxNodeScore -> feasible c nodes <> [] ->
  exists c' score, PreScore c (feasible c nodes) = (success, c') /\ getPreFilterState c' = inl state /\
    (forall n, n ∈ feasible c nodes -> Score c' (node_Name n) = Val (score n, success)) /\
    forall n, n ∈ feasible c nodes -> (forall o, o ∈ feasible c nodes -> score o <= score n) ->
    forall o, o ∈ feasible c nodes -> domain_on s (node_Name n) sk <= domain_on s (node_Name o) sk.
Proof.
  intros HM Hf.
  assert (Hin : forall n, n ∈ feasible c nodes -> node_Name n ∈ dom) by (intros n Hn; by apply feasible_spec in Hn as (_ & ? & _)).
  assert (Hr : forall n, n ∈ feasible c nodes -> 0 <= map_get 0 (pf_effDomain state) (node_Name n) < max_int32).
  { intros n Hn. rewrite seen_count by auto. apply (domain_on_range s _ _ Hs). }
  destruct (PreScore_Score c state _ Hst Hf Hr)
    as (cmin & cmax & c' & [(x & Hx & Hmin) Hlo] & [(y & Hy & Hmax) Hhi] & HP & Hst' & Hsc).
  do 2 eexists. split; [exact HP|]. split; [exact Hst'|]. split; [exact Hsc|].
  intros n Hn Hbest o Ho. specialize (Hbest o Ho). simpl in Hbest, Hlo, Hhi, Hmin, Hmax.
  pose proof (Hlo n Hn) as Hn1. pose proof (Hhi n Hn) as Hn2. pose proof (Hlo o Ho) as Ho1. pose proof (Hhi o Ho) as Ho2.
  rewrite seen_count in Hn1, Hn2 by auto. rewrite seen_count in Ho1, Ho2 by auto.
  rewrite !seen_count in Hbest by auto. rewrite seen_count in Hmin, Hmax by auto.
  destruct (decide (cmin = cmax)) as [|Hne']; [lia|].
  destruct (Z.le_gt_cases (domain_on s (node_Name n) sk) (domain_on s (node_Name o) sk)) as [?|Hgt]; [done|].
  apply feasible_spec in Hy as (_ & _ & _ & Hsk). pose proof (Hsk (node_Name x) (Hin x Hx)).
  pose proof (score_strict MaxNodeScore cmax (cmax - cmin + 1) (domain_on s (node_Name o) sk)
    (domain_on s (node_Name n) sk)). lia.
Qed.

(** A least node with room for one more pod is admissible. *)
Lemma least_admissible n :
  1 <= MaxSkew (pol_Spec policy) -> n ∈ dom -> least s dom sk n ->
  quota_on s n qk + 1 <= MaxPodsPerNode (pol_Spec policy) -> admissible s policy qk sk dom n.
Proof. intros Hm Hn Hl Hq. split; [done|]. intros m Hm'. specialize (Hl m Hm'). lia. Qed.

(** A pod on a least node does not spread the domain beyond what it was, or 1. *)
Lemma least_keeps_within n w r :
  resv s !! pod_UID pod = None -> least s dom sk n -> 1 <= w -> rv_SchedKey r = sk -> rv_NodeName r = n ->
  within s dom sk w -> within (SpreadState (snap s) (<[pod_UID pod := r]> (resv s))) dom sk w.
Proof.
  intros Hu Hl Hw1 Hk Hn Hold a b Ha Hb. rewrite !domain_on_insert by done.
  specialize (Hold a b Ha Hb). specialize (Hl b Hb). unfold resv_at, b2z. rewrite Hk, Hn.
  repeat case_bool_decide; naive_solver lia.
Qed.

End lemmas.

(** ** Theorem *)

(** C6: a scheduling cycle makes progress and balances.  On an unchanged cluster and
    with a maxSkew between 1 and MaxNodeScore, if some node the framework looks at
    has the fewest pods of the domain and its cap leaves room, then the skew does
    not stand in the way: nodes pass Filter, PreScore and Score succeed on all of
    them, every node with the best score has the fewest pods of the whole domain,
    and Reserve takes it; the new reservation keeps the differences between the
    domain's nodes within any bound of at least 1 that they were within before. *)
Theorem cycle_progress `{KubeLibLaws} {C : Type} `{CycleStoreLaws C} now args deps pl s (c : C) pod
    c1 log v policy nodes best :
  reachable s -> small s -> NewWithDeps args deps = Ok pl -> d_synced (pl_deps pl) = Some true ->
  spec_SchedulerName (pod_Spec pod) = ManagedSchedulerName (pl_args pl) ->
  placeable pl pod v (Some policy) -> resv s !! pod_UID pod = None ->
  1 <= MaxSkew (pol_Spec policy) <= MaxNodeScore ->
  PreFilter pl (effCount s) c pod = Val (success, c1, log) ->
  let domain := computeStableDomain (pod_Spec pod) (d_nodes (pl_deps pl)) in
  let qk := QuotaKey (pod_Namespace pod) (ManagedSchedulerName (pl_args pl)) (ServiceLabelKey (pl_args pl)) v in
  let sk := SchedKey qk (DomainHash pod) in
  best ∈ nodes -> node_Name best ∈ domain -> least s domain sk (node_Name best) ->
  quota_on s (node_Name best) qk + 1 <= MaxPodsPerNode (pol_Spec policy) ->
  best ∈ feasible c1 nodes /\
  exists c2 score, PreScore c1 (feasible c1 nodes) = (success, c2) /\
    (forall n, n ∈ feasible c1 nodes -> Score c2 (node_Name n) = Val (score n, success)) /\
    forall n, n ∈ feasible c1 nodes -> (forall o, o ∈ feasible c1 nodes -> score o <= score n) ->
      least s domain sk (node_Name n) /\
      exists s', Reserve now pl s c2 pod (node_Name n) = Val (success, s') /\
        forall w, 1 <= w -> within s domain sk w -> within s' domain sk w.
Proof.
  intros Hr Hs Hnew Hsync Hname Hpl Hu HM HP domain qk sk Hb Hbd Hleast Hroom.
  destruct (reachable_wf s Hr) as [Hw _]. destruct HM as [HM1 HM].
  destruct (PreFilter_cases pl (effCount s) c pod Hsync Hname)
    as [(v' & policy' & state & Hpl' & Hde & HP')|(st & l & Hno & _)]; [|by apply Hno in Hpl].
  assert (v' = v /\ policy' = Some policy) as [-> ->].
  { destruct Hpl as (E1 & _ & E2 & _), Hpl' as (E1' & _ & E2' & _). rewrite E1 in E1'. injection E1' as <-.
    rewrite E2 in E2'. by injection E2' as <-. }
  rewrite HP' in HP. injection HP as <- _.
  set (c1 := Write _ _ _). assert (Hst : getPreFilterState c1 = inl state) by apply getPreFilterState_Write.
  pose proof Hde as (Hqk & Hsk & Hpol & Hdom & _). pose proof Hdom as Hdom'.
  fold qk in Hqk, Hsk. fold sk in Hsk. fold domain in Hdom.
  assert (Hne : pf_domainSet state <> ∅) by (rewrite Hdom; by destruct Hpl as (_ & _ & _ & ?)).
  clearbody sk. clearbody qk domain. subst qk sk domain.
  assert (Hfeas : best ∈ feasible c1 nodes).
  { apply (feasible_spec pl s pod v policy state c1 Hw Hs Hde Hne Hst).
    split; [done|]. split; [done|]. by apply least_admissible. }
  split; [done|].
  destruct (best_is_least_feasible pl s pod v policy state c1 Hw Hs Hde Hne Hst nodes)
    as (c2 & score & HPS & Hst2 & Hsc & Hbest); [done|by intros E; rewrite E in Hfeas; apply not_elem_of_nil in Hfeas|].
  exists c2, score. split; [done|]. split; [done|]. intros n Hn Hmax.
  assert (Hl : least s (pf_domainSet state) (pf_schedKey state) (node_Name n)).
  { intros m Hm. etransitivity; [by apply (Hbest n Hn Hmax best)|by apply Hleast]. }
  split; [done|].
  apply (feasible_spec pl s pod v policy state c1 Hw Hs Hde Hne Hst) in Hn as (_ & Hnd & Hadm).
  destruct (Reserve_cases now pl s c2 pod (node_Name n) state policy Hw Hs Hst2 Hpol) as [[_ HR]|[Hno _]].
  - eexists. split; [exact HR|]. intros w Hw1 Hold. by apply (least_keeps_within s pod state (node_Name n)).
  - exfalso. apply Hno. rewrite <- Hdom'. done.
Qed.

(** Node n1 has a pod of the service, n2 has none. *)
Lemma cycle_progress_witness :
  exists s', Reserve 7 (ex_plugin true [ex_policy]) ex_counted
               (PreScore (ex_cycle (Some ex_policy)) [fx_node "n2" ∅]).2 ex_new_pod "n2" = Val (success, s').
Proof.
  assert (Hd : computeStableDomain (pod_Spec ex_new_pod) (d_nodes (ex_deps [ex_policy])) = {["n1"; "n2"]})
    by by_decide.
  assert (Hf : feasible (ex_cycle (Some ex_policy)) ex_feasible = [fx_node "n2" ∅]) by (vm_compute; reflexivity).
  destruct (cycle_progress 7 (ex_cargs true) (ex_deps [ex_policy]) (ex_plugin true [ex_policy]) ex_counted
              (∅ : gmap string StateData) ex_new_pod (ex_cycle (Some ex_policy)) [] "app" ex_policy
              ex_feasible (fx_node "n2" ∅)) as (_ & c2 & score & HP & _ & Hb);
    try reflexivity.
  - apply ex_counted_reachable.
  - split; [reflexivity|]. split; [reflexivity|]. split; [vm_compute; reflexivity|]. by_decide.
  - vm_compute. split; discriminate.
  - apply list_elem_of_further. apply list_elem_of_here.
  - by_decide.
  - vm_compute. discriminate.
  - rewrite Hf in HP, Hb. destruct (Hb (fx_node "n2" ∅)) as (_ & s' & HR & _).
    + apply list_elem_of_here.
    + intros o Ho. apply list_elem_of_singleton in Ho as ->. apply Z.le_refl.
    + rewrite HP. exists s'. exact HR.
Defined.

(** The scale matters: with counts further apart than MaxNodeScore the integer
    division lets an empty node and a node with a pod tie. *)
Theorem scores_tie_beyond_scale :
  let pf := PreFilterState ex_quotaKey ex_schedKey (Some ex_policy) {["n1"; "n2"; "n3"]} 0
              (<["n1" := 0]> (<["n2" := 1]> {["n3" := 200]})) ∅ in
  let c : gmap string StateData := {[ preFilterStateKey := DPreFilter (Some pf) ]} in
  let c' := (PreScore c [fx_node "n1" ∅; fx_node "n2" ∅; fx_node "n3" ∅]).2 in
  Score c' "n1" = Val (99, success) /\ Score c' "n2" = Val (99, success).
Proof. vm_compute. done. Qed.
