(* ===== verification/Lifecycle.v ===== *)
(** * Pod events, janitor and reconciler (internal/spread/lifecycle.go, plugins_api.go)

    How the counting state follows the cluster.  An operation that takes the lock
    several times is given as the list of its critical sections, so that other
    operations can be interleaved between them; its sequential run is [run]. *)

From S2P Require Import Prelude GoStd Kube Fixtures State Keys Domain Api.

(** One critical section. *)
Abbreviation action := (spreadState -> spreadState).

Definition run (acts : list action) (s : spreadState) : spreadState :=
  foldl (fun s (a : action) => a s) s acts.

(** ** Events *)

Definition countablePod (pod : Pod) : bool :=
  negb (bool_decide (spec_NodeName (pod_Spec pod) = "")) &&
  (bool_decide (pod_Phase pod = PodPending) || bool_decide (pod_Phase pod = PodRunning)).

Definition OnPodAddOrUpdate (pod : Pod) (ref : podRef) : list action :=
  [ (fun s => if countablePod pod then upsertCount s (pod_UID pod) ref
              else removeCount s (pod_UID pod));
    (fun s => releaseIfObserved s (pod_UID pod)) ].

(** [delete(e.state.resv, uid)] under the lock. *)
Definition drop_reservation (uid : string) (s : spreadState) : spreadState :=
  SpreadState (snap s) (delete uid (resv s)).

Definition OnPodDelete (uid : string) : list action :=
  [ (fun s => removeCount s uid); drop_reservation uid ].

Definition zero_ref : podRef := PodRef "" "" "".

Definition onPodEvent (args : ServiceSpreadArgs) (pod : Pod) : list action :=
  if decide (spec_SchedulerName (pod_Spec pod) = ManagedSchedulerName args) then
    match PodRefFor pod (ManagedSchedulerName args) (ServiceLabelKey args) with
    | Ok ref => OnPodAddOrUpdate pod ref
    | Err _ => OnPodAddOrUpdate pod zero_ref
    end
  else OnPodAddOrUpdate pod zero_ref.

(** ** The verification source *)

(** [listerPodSource.ListCountable] over the lister's answer. *)
Definition list_step (managedSched serviceLabelKey : string)
    (out : gmap string podRef) (pod : Pod) : gmap string podRef :=
  if decide (spec_SchedulerName (pod_Spec pod) <> managedSched) then out
  else if negb (countablePod pod) then out
  else match PodRefFor pod managedSched serviceLabelKey with
       | Err _ => out
       | Ok ref => <[pod_UID pod := ref]> out
       end.

Definition ListCountable (managedSched serviceLabelKey : string) (pods : res (list Pod))
    : res (gmap string podRef) :=
  match pods with
  | Err e => Err e
  | Ok all => Ok (foldl (list_step managedSched serviceLabelKey) ∅ all)
  end.

(** ** Janitor *)

(** [ttl/4] truncates toward zero. *)
Definition janitorTick (ttl : Z) : Z :=
  if ttl <? 5 * Second then ttl
  else if Z.quot ttl 4 <? 5 * Second then 5 * Second
  else Z.quot ttl 4.

(** [time.Time.Sub] saturates at the ends of int64. *)
Definition time_Sub (t u : Z) : Z := Z.max (-9223372036854775808) (Z.min max_int64 (t - u)).

Definition is_expired (now ttl : Z) (r : reservation) : bool := time_Sub now (rv_Since r) >=? ttl.

Definition expired_uids (now ttl : Z) (l : list (string * reservation)) : list string :=
  (List.filter (fun '(_, r) => is_expired now ttl r) l).*1.

Definition releaseUnverified (s : spreadState) (uid : string) : spreadState :=
  match resv s !! uid with
  | Some _ => SpreadState (snap s) (delete uid (resv s))
  | None => s
  end.

(** One iteration over the expired UIDs, run without interleaving: the new state
    and the alerts raised so far. *)
Definition janitor_step (counts : gmap string podRef) (acc : spreadState * list string)
    (uid : string) : spreadState * list string :=
  let '(s, alerts) := acc in
  match resv s !! uid with
  | None => (s, alerts)
  | Some r =>
    let expectedNode := rv_NodeName r in
    match counts !! uid with
    | Some ref =>
      if decide (ref_NodeName ref <> expectedNode) then (releaseUnverified s uid, alerts)
      else
        let s := releaseIfObserved (rebuild s counts) uid in
        match reservationPhase s uid with
        | Some _ => (s, alerts ++ [uid])
        | None => (s, alerts)
        end
    | None => (releaseUnverified s uid, alerts)
    end
  end.

(** One pass; [l] is the order in which the range loop visits the reservations. *)
Definition janitor_pass (now ttl : Z) (src : res (gmap string podRef))
    (l : list (string * reservation)) (s : spreadState) : spreadState * list string :=
  let expired := expired_uids now ttl l in
  match expired with
  | [] => (s, [])
  | _ =>
    match src with
    | Err _ => (s, expired)
    | Ok counts => foldl (janitor_step counts) (s, []) expired
    end
  end.

Definition janitorOnce (now ttl : Z) (src : res (gmap string podRef)) (s : spreadState)
    : spreadState * list string :=
  janitor_pass now ttl src (map_to_list (resv s)) s.

(** One tick of [RunReconciler]. *)
Definition reconcile_tick (src : res (gmap string podRef)) (s : spreadState) : spreadState :=
  match src with
  | Ok counts => rebuild s counts
  | Err _ => s
  end.

(** The durations [StartLifecycleLoops] starts its loops with: [(ttl, period)]. *)
Definition StartLifecycleLoops (ttl period : Z) : Z * Z :=
  (if ttl <=? 0 then DefaultReservationTTL else ttl,
   if period <=? 0 then DefaultReconcilePeriod else period).

(** ** Specifications *)

(** A pod that takes a seat: it has a node and has not finished. *)
Definition occupies (pod : Pod) : Prop :=
  spec_NodeName (pod_Spec pod) <> "" /\ (pod_Phase pod = "Pending" \/ pod_Phase pod = "Running").

Lemma countablePod_spec pod : countablePod pod = true <-> occupies pod.
Proof.
  unfold countablePod, occupies, PodPending, PodRunning.
  by rewrite andb_true_iff, orb_true_iff, negb_true_iff, bool_decide_eq_false, !bool_decide_eq_true.
Qed.

(** The snapshot that counts exactly [ps]; [fits] makes it unique. *)
Definition with_pods (ps : gmap string podRef) (rs : gmap string reservation) : spreadState :=
  SpreadState (rebuild_from (map_to_list ps)) rs.

(** The seat of a reservation is visible in the counts. *)
Definition observed (ps : gmap string podRef) (uid : string) (r : reservation) : bool :=
  match ps !! uid with
  | Some ref => bool_decide (ref_NodeName ref = rv_NodeName r)
  | None => false
  end.

Definition release_resv (ps : gmap string podRef) (rs : gmap string reservation) (uid : string)
    : gmap string reservation :=
  match rs !! uid with
  | Some r => if observed ps uid r then delete uid rs else rs
  | None => rs
  end.

(** ** Lemmas: the counting state as its two maps *)

Lemma state_is_with_pods s :
  snap_wf (snap s) -> fits (pods (snap s)) -> s = with_pods (pods (snap s)) (resv s).
Proof.
  intros Hw Hf. destruct s as [sn rs]. unfold with_pods. simpl in *. f_equal.
  destruct (rebuild_from_spec (pods sn) _ (enumerates_refl _) Hf) as [Hw' Hp].
  by apply snap_wf_unique.
Qed.

Lemma with_pods_pods ps rs : fits ps -> pods (snap (with_pods ps rs)) = ps.
Proof. intros Hf. by apply (rebuild_from_spec ps _ (enumerates_refl _) Hf). Qed.

Lemma with_pods_wf ps rs : fits ps -> snap_wf (snap (with_pods ps rs)).
Proof. intros Hf. by apply (rebuild_from_spec ps _ (enumerates_refl _) Hf). Qed.

Lemma rebuild_with_pods ps rs counts : rebuild (with_pods ps rs) counts = with_pods counts rs.
Proof. done. Qed.

Lemma rebuild_is_with_pods s counts : rebuild s counts = with_pods counts (resv s).
Proof. done. Qed.

Lemma fits_empty : fits (∅ : gmap string podRef).
Proof. unfold fits. by rewrite map_size_empty. Qed.

Lemma fits_insert (ps : gmap string podRef) uid ref :
  Z.of_nat (size ps) + 1 < max_int32 -> fits (<[uid := ref]> ps).
Proof. unfold fits. intros Hs. rewrite map_size_insert. destruct (ps !! uid); simpl; lia. Qed.

Lemma upsertCount_with_pods ps rs uid ref :
  fits ps -> fits (<[uid := ref]> ps) ->
  upsertCount (with_pods ps rs) uid ref = with_pods (<[uid := ref]> ps) rs.
Proof.
  intros Hf Hf'. unfold upsertCount. rewrite clone_id. unfold with_pods at 3. simpl. f_equal.
  destruct (rebuild_from_spec ps _ (enumerates_refl _) Hf) as [Hw Hp].
  destruct (rebuild_from_spec _ _ (enumerates_refl (<[uid := ref]> ps)) Hf') as [Hw' Hp'].
  apply snap_wf_unique; [|done|by rewrite pods_applyCount, Hp', Hp].
  apply applyCount_wf; [done|]. by rewrite Hp.
Qed.

Lemma removeCount_with_pods ps rs uid :
  fits ps -> removeCount (with_pods ps rs) uid = with_pods (delete uid ps) rs.
Proof.
  intros Hf. unfold removeCount. rewrite clone_id. unfold with_pods at 3. simpl. f_equal.
  destruct (rebuild_from_spec ps _ (enumerates_refl _) Hf) as [Hw Hp].
  destruct (rebuild_from_spec _ _ (enumerates_refl (delete uid ps)) (fits_delete _ uid Hf)) as [Hw' Hp'].
  apply snap_wf_unique; [|done|by rewrite pods_unapplyCount, Hp', Hp].
  apply unapplyCount_wf; [done|]. by rewrite Hp.
Qed.

Lemma releaseIfObserved_with_pods ps rs uid :
  fits ps -> releaseIfObserved (with_pods ps rs) uid = with_pods ps (release_resv ps rs uid).
Proof.
  intros Hf. unfold releaseIfObserved, release_resv, observed. rewrite with_pods_pods by done.
  simpl. destruct (rs !! uid) as [r|]; [|done]. destruct (ps !! uid) as [ref|]; [|done].
  case_decide as Hn; [by rewrite bool_decide_eq_true_2|by rewrite bool_decide_eq_false_2].
Qed.

Lemma releaseUnverified_with_pods ps rs uid :
  releaseUnverified (with_pods ps rs) uid = with_pods ps (delete uid rs).
Proof.
  unfold releaseUnverified. simpl. destruct (rs !! uid) eqn:E; [done|]. by rewrite delete_id.
Qed.

#[export] Hint Rewrite rebuild_with_pods releaseUnverified_with_pods : go.

Lemma OnPodAddOrUpdate_with_pods pod ref ps rs :
  fits ps -> fits (<[pod_UID pod := ref]> ps) ->
  let ps' := if countablePod pod then <[pod_UID pod := ref]> ps else delete (pod_UID pod) ps in
  run (OnPodAddOrUpdate pod ref) (with_pods ps rs) = with_pods ps' (release_resv ps' rs (pod_UID pod)).
Proof.
  intros Hf Hf' ps'. unfold ps', run, OnPodAddOrUpdate. cbn [foldl]. destruct (countablePod pod).
  - by rewrite upsertCount_with_pods, releaseIfObserved_with_pods.
  - rewrite removeCount_with_pods, releaseIfObserved_with_pods; auto with go.
Qed.

(** The effective counts as a function of the two maps. *)
Lemma quota_on_with_pods ps rs n q : fits ps ->
  quota_on (with_pods ps rs) n q =
  count_if (ref_at ref_QuotaKey n q) ps + count_if (resv_at rv_QuotaKey n q) rs.
Proof. intros Hf. unfold quota_on. by rewrite with_pods_pods. Qed.

Lemma domain_on_with_pods ps rs n d : fits ps ->
  domain_on (with_pods ps rs) n d =
  count_if (ref_at ref_SchedKey n d) ps + count_if (resv_at rv_SchedKey n d) rs.
Proof. intros Hf. unfold domain_on. by rewrite with_pods_pods. Qed.

Lemma release_resv_observed ps rs uid r :
  rs !! uid = Some r -> observed ps uid r = true -> release_resv ps rs uid = delete uid rs.
Proof. intros Hr Ho. unfold release_resv. by rewrite Hr, Ho. Qed.

Lemma release_resv_none ps rs uid : rs !! uid = None -> release_resv ps rs uid = rs.
Proof. intros Hr. unfold release_resv. by rewrite Hr. Qed.

(** ** Lemmas: the janitor *)

Definition seat_observed (counts : gmap string podRef) (rs : gmap string reservation) (uid : string) : bool :=
  match rs !! uid with Some r => observed counts uid r | None => false end.

Lemma janitor_step_with_pods counts ps rs al uid :
  fits counts ->
  janitor_step counts (with_pods ps rs, al) uid =
  (with_pods (if seat_observed counts rs uid then counts else ps) (delete uid rs), al).
Proof.
  intros Hf. unfold janitor_step, seat_observed. simpl resv.
  destruct (rs !! uid) as [r|] eqn:Hr; [|by rewrite delete_id]. unfold observed.
  destruct (counts !! uid) as [ref|] eqn:Hc; [|by rewrite releaseUnverified_with_pods].
  destruct (decide (ref_NodeName ref <> rv_NodeName r)) as [Hn|Hn].
  - by rewrite releaseUnverified_with_pods, bool_decide_eq_false_2.
  - apply dec_stable in Hn. rewrite rebuild_with_pods, releaseIfObserved_with_pods by done.
    rewrite (release_resv_observed _ _ _ r) by (done || (unfold observed; rewrite Hc;
      by apply bool_decide_eq_true_2)).
    unfold reservationPhase. simpl resv. rewrite lookup_delete_eq. simpl.
    by rewrite bool_decide_eq_true_2.
Qed.

Lemma janitor_fold counts l ps rs al :
  fits counts -> NoDup l ->
  foldl (janitor_step counts) (with_pods ps rs, al) l =
  (with_pods (if existsb (seat_observed counts rs) l then counts else ps)
             (filter (fun kr => kr.1 ∉ l) rs), al).
Proof.
  intros Hf. revert ps rs. induction l as [|u l IH]; intros ps rs Hnd.
  - simpl. do 2 f_equal. symmetry. apply map_filter_id. intros. apply not_elem_of_nil.
  - apply NoDup_cons in Hnd as [Hu Hnd]. cbn [foldl]. rewrite janitor_step_with_pods, IH by done.
    assert (Hex : existsb (seat_observed counts (delete u rs)) l = existsb (seat_observed counts rs) l).
    { clear IH Hnd. induction l as [|v l IH]; [done|]. cbn [existsb].
      apply not_elem_of_cons in Hu as [Hne Hu]. rewrite IH by done. f_equal.
      unfold seat_observed. by rewrite lookup_delete_ne. }
    rewrite Hex. cbn [existsb]. f_equal. f_equal.
    + by destruct (seat_observed counts rs u), (existsb (seat_observed counts rs) l).
    + apply map_eq. intros v. apply option_eq. intros r. rewrite !map_lookup_filter_Some. simpl.
      rewrite lookup_delete_Some, not_elem_of_cons. naive_solver.
Qed.

Lemma expired_elem now ttl l rs uid :
  enumerates l rs ->
  uid ∈ expired_uids now ttl l <-> exists r, rs !! uid = Some r /\ is_expired now ttl r = true.
Proof.
  intros Hl. unfold expired_uids. rewrite list_elem_of_fmap. split.
  - intros ([u r] & -> & Hin). apply list_elem_of_In, List.filter_In in Hin as [Hin He].
    exists r. split; [|done]. apply elem_of_map_to_list. rewrite <- Hl. by apply list_elem_of_In.
  - intros (r & Hr & He). exists (uid, r). split; [done|].
    apply list_elem_of_In, List.filter_In. split; [|done]. apply list_elem_of_In.
    rewrite Hl. by apply elem_of_map_to_list.
Qed.

Lemma NoDup_expired now ttl l rs : enumerates l rs -> NoDup (expired_uids now ttl l).
Proof.
  intros Hl. assert (Hnd : NoDup l.*1) by (rewrite Hl; apply NoDup_fst_map_to_list).
  clear Hl. unfold expired_uids. induction l as [|[u r] l IH]; [constructor|].
  rewrite fmap_cons in Hnd. apply NoDup_cons in Hnd as [Hu Hnd]. cbn [List.filter].
  destruct (is_expired now ttl r); [|by apply IH]. rewrite fmap_cons. apply NoDup_cons.
  split; [|by apply IH]. intros Hin. apply Hu. simpl in *.
  apply list_elem_of_fmap in Hin as ([v r'] & -> & Hin). apply list_elem_of_fmap.
  exists (v, r'). split; [done|]. apply list_elem_of_In. by apply list_elem_of_In, List.filter_In in Hin as [? _].
Qed.

Lemma janitor_pass_ok now ttl counts l ps rs :
  fits counts -> enumerates l rs ->
  janitor_pass now ttl (Ok counts) l (with_pods ps rs) =
  (with_pods (if existsb (seat_observed counts rs) (expired_uids now ttl l) then counts else ps)
             (filter (fun kr => is_expired now ttl kr.2 = false) rs), []).
Proof.
  intros Hf Hl.
  assert (Hfil : filter (fun kr : string * reservation => kr.1 ∉ expired_uids now ttl l) rs =
                 filter (fun kr : string * reservation => is_expired now ttl kr.2 = false) rs).
  { apply map_filter_ext. intros u r Hu. simpl. rewrite (expired_elem now ttl l rs u Hl).
    destruct (is_expired now ttl r) eqn:E; (split; [intros Hx|discriminate || intros _]); try done.
    - exfalso. apply Hx. by exists r.
    - intros (r' & Hr' & He). congruence. }
  rewrite <- Hfil. unfold janitor_pass. rewrite <- janitor_fold by eauto using NoDup_expired.
  by destruct (expired_uids now ttl l).
Qed.

(** ** Lemmas: events and the reconciler *)

Definition event_pods (ps : gmap string podRef) (pr : Pod * podRef) : gmap string podRef :=
  if countablePod pr.1 then <[pod_UID pr.1 := pr.2]> ps else delete (pod_UID pr.1) ps.

Definition list_pods (out : gmap string podRef) (pr : Pod * podRef) : gmap string podRef :=
  if countablePod pr.1 then <[pod_UID pr.1 := pr.2]> out else out.

Lemma event_list_agree (l : list (Pod * podRef)) ps out :
  NoDup (pod_UID ∘ fst <$> l) ->
  (forall uid, uid ∉ (pod_UID ∘ fst <$> l) -> ps !! uid = out !! uid) ->
  (forall uid, uid ∈ (pod_UID ∘ fst <$> l) -> out !! uid = None) ->
  foldl event_pods ps l = foldl list_pods out l.
Proof.
  revert ps out. induction l as [|[pod ref] l IH]; intros ps out Hnd Hps Hout.
  - simpl. apply map_eq. intros uid. apply Hps, not_elem_of_nil.
  - rewrite fmap_cons in *. simpl in Hnd, Hps, Hout. apply NoDup_cons in Hnd as [Hu Hnd]. cbn [foldl].
    apply IH; [done| |].
    + intros uid Hn. unfold event_pods, list_pods. simpl.
      destruct (decide (uid = pod_UID pod)) as [->|Hne].
      * destruct (countablePod pod); [by rewrite !lookup_insert_eq|].
        rewrite lookup_delete_eq, Hout; [done|]. apply elem_of_cons. by left.
      * destruct (countablePod pod);
          [rewrite !lookup_insert_ne by done|rewrite lookup_delete_ne by done];
          apply Hps; rewrite not_elem_of_cons; done.
    + intros uid Hin. unfold list_pods. simpl.
      assert (uid <> pod_UID pod) by (by intros ->).
      destruct (countablePod pod); [rewrite lookup_insert_ne by done|];
        apply Hout, elem_of_cons; by right.
Qed.

Lemma size_event_pods ps pr : (size (event_pods ps pr) <= S (size ps))%nat.
Proof.
  unfold event_pods. destruct (countablePod _).
  - rewrite map_size_insert. destruct (ps !! _); simpl; lia.
  - rewrite map_size_delete. destruct (ps !! _); simpl; lia.
Qed.

Lemma run_app acts1 acts2 s : run (acts1 ++ acts2) s = run acts2 (run acts1 s).
Proof. unfold run. apply foldl_app. Qed.

Lemma onPodEvent_managed args pod ref :
  spec_SchedulerName (pod_Spec pod) = ManagedSchedulerName args ->
  PodRefFor pod (ManagedSchedulerName args) (ServiceLabelKey args) = Ok ref ->
  onPodEvent args pod = OnPodAddOrUpdate pod ref.
Proof. intros Hn Hr. unfold onPodEvent. by rewrite decide_True, Hr. Qed.

(** The events of a list of managed, labelled pods. *)
Lemma run_events (args : ServiceSpreadArgs) (l : list (Pod * podRef)) ps rs :
  Z.of_nat (size ps) + Z.of_nat (length l) < max_int32 ->
  Forall (fun pr => spec_SchedulerName (pod_Spec pr.1) = ManagedSchedulerName args /\
                    PodRefFor pr.1 (ManagedSchedulerName args) (ServiceLabelKey args) = Ok pr.2) l ->
  exists rs', run (concat (onPodEvent args ∘ fst <$> l)) (with_pods ps rs) =
              with_pods (foldl event_pods ps l) rs'.
Proof.
  revert ps rs. induction l as [|[pod ref] l IH]; intros ps rs Hs Hl; [by exists rs|].
  apply Forall_cons in Hl as [[Hn Href] Hl]. rewrite fmap_cons. cbn [concat]. rewrite run_app.
  simpl in Hs, Hn, Href. 
  change ((onPodEvent args ∘ fst) (pod, ref)) with (onPodEvent args pod).
  rewrite (onPodEvent_managed args pod ref) by done.
  rewrite OnPodAddOrUpdate_with_pods; [|unfold fits; lia|apply fits_insert; lia].
  apply IH; [|done]. pose proof (size_event_pods ps (pod, ref)) as Hz.
  unfold event_pods in Hz. simpl in Hz. lia.
Qed.

Lemma run_steps_reachable pod ref s :
  reachable s -> Z.of_nat (size (pods (snap s))) + 1 < max_int32 ->
  reachable (run (OnPodAddOrUpdate pod ref) s).
Proof.
  intros Hr Hs. unfold run, OnPodAddOrUpdate. cbn [foldl].
  eapply rtc_r; [|apply ss_release]. destruct (countablePod pod).
  - eapply rtc_r; [exact Hr|]. apply ss_upsert. unfold fits. lia.
  - eapply rtc_r; [exact Hr|]. apply ss_remove. unfold fits. lia.
Qed.

Lemma lookup_release_resv ps rs uid u :
  release_resv ps rs uid !! u =
  match rs !! u with
  | Some r => if decide (u = uid /\ observed ps uid r = true) then None else Some r
  | None => None
  end.
Proof.
  unfold release_resv. destruct (decide (u = uid)) as [->|Hu].
  - destruct (rs !! uid) as [r|] eqn:Hr; [|done]. destruct (observed ps uid r) eqn:Ho.
    + by rewrite lookup_delete_eq, decide_True.
    + rewrite decide_False by naive_solver. done.
  - assert (E : (match rs !! uid with
        | Some r => if observed ps uid r then delete uid rs else rs | None => rs end) !! u = rs !! u).
    { destruct (rs !! uid) as [r|]; [|done]. destruct (observed ps uid r); [|done].
      by rewrite lookup_delete_ne. }
    rewrite E. destruct (rs !! u); [|done]. rewrite decide_False by naive_solver. done.
Qed.

Lemma ListCountable_lookup sched key l uid ref :
  NoDup (pod_UID <$> l) ->
  foldl (list_step sched key) ∅ l !! uid = Some ref <->
  exists pod, pod ∈ l /\ pod_UID pod = uid /\ spec_SchedulerName (pod_Spec pod) = sched /\
    countablePod pod = true /\ PodRefFor pod sched key = Ok ref.
Proof.
  revert uid ref. induction l as [|p l IH] using rev_ind; intros uid ref Hnd.
  - simpl. split; [by rewrite lookup_empty|]. intros (pod & Hin & _). by apply not_elem_of_nil in Hin.
  - rewrite fmap_app in Hnd. apply NoDup_app in Hnd as (Hnd & Hdis & _). assert (IH' := fun u r => IH u r Hnd). clear IH. rename IH' into IH.
    rewrite foldl_app. cbn [foldl]. set (out := foldl _ _ _) in *.
    assert (Hlast : forall r, (exists pod, pod ∈ l ++ [p] /\ pod_UID pod = uid /\
        spec_SchedulerName (pod_Spec pod) = sched /\ countablePod pod = true /\
        PodRefFor pod sched key = Ok r) <->
      out !! uid = Some r \/ (pod_UID p = uid /\ spec_SchedulerName (pod_Spec p) = sched /\
        countablePod p = true /\ PodRefFor p sched key = Ok r)).
    { intros r. rewrite IH. setoid_rewrite elem_of_app. setoid_rewrite list_elem_of_singleton.
      split.
      - intros (pod & [Hin| ->] & Hx); [left; by exists pod|by right].
      - intros [(pod & Hin & Hx)|Hx]; [exists pod; split; [by left|done]|exists p; split; [by right|done]]. }
    rewrite Hlast. unfold list_step.
    destruct (decide (spec_SchedulerName (pod_Spec p) <> sched)) as [Hs|Hs]; [intuition congruence|].
    apply dec_stable in Hs. destruct (countablePod p) eqn:Hc; cbn [negb]; [|intuition congruence].
    destruct (PodRefFor p sched key) as [rp|] eqn:Hp; [|intuition congruence].
    rewrite lookup_insert_Some. destruct (decide (pod_UID p = uid)) as [Hu|Hu]; [|intuition congruence].
    assert (out !! uid = None) as ->; [|intuition congruence].
    destruct (out !! uid) as [r|] eqn:Ho; [|done]. apply IH in Ho as (pod & Hin & Hpu & _).
    exfalso. apply (Hdis (pod_UID pod)); [by apply list_elem_of_fmap_2|]. simpl.
    apply list_elem_of_singleton. congruence.
Qed.

(** ** Theorems *)

(** The event of a managed, labelled pod.  A pod that is Pending or Running and
    has a node is counted at that node under its own keys, any other pod is not
    counted; the pod's reservation is released exactly when the pod is now counted
    on the reserved node, and no other pod or reservation is touched. *)
Theorem onPodEvent_exact args pod ref s :
  reachable s -> Z.of_nat (size (pods (snap s))) + 1 < max_int32 ->
  spec_SchedulerName (pod_Spec pod) = ManagedSchedulerName args ->
  PodRefFor pod (ManagedSchedulerName args) (ServiceLabelKey args) = Ok ref ->
  let s' := run (onPodEvent args pod) s in
  reachable s' /\
  (occupies pod -> pods (snap s') = <[pod_UID pod := ref]> (pods (snap s))) /\
  (~ occupies pod -> pods (snap s') = delete (pod_UID pod) (pods (snap s))) /\
  (forall u r, resv s' !! u = Some r <->
     resv s !! u = Some r /\
     ~ (u = pod_UID pod /\ occupies pod /\ spec_NodeName (pod_Spec pod) = rv_NodeName r)).
Proof.
  intros Hr Hs Hn Href s'. unfold s'. rewrite (onPodEvent_managed args pod ref) by done.
  split; [by apply run_steps_reachable|]. destruct (reachable_wf s Hr) as [Hw _].
  assert (Hf : fits (pods (snap s))) by (unfold fits; lia).
  set (ps' := if countablePod pod then <[pod_UID pod := ref]> (pods (snap s))
              else delete (pod_UID pod) (pods (snap s))).
  assert (Hf' : fits ps').
  { unfold ps'. destruct (countablePod pod); [by apply fits_insert|by apply fits_delete]. }
  assert (Erun : run (OnPodAddOrUpdate pod ref) s =
                 with_pods ps' (release_resv ps' (resv s) (pod_UID pod))).
  { rewrite (state_is_with_pods s Hw Hf) at 1. apply OnPodAddOrUpdate_with_pods; [done|].
    by apply fits_insert. }
  rewrite Erun.
  rewrite with_pods_pods by done. rewrite <- countablePod_spec.
  split; [by unfold ps'; intros ->|]. split; [by unfold ps'; destruct (countablePod pod)|].
  intros u r. simpl. rewrite lookup_release_resv.
  assert (Hnode : ref_NodeName ref = spec_NodeName (pod_Spec pod)).
  { unfold PodRefFor in Href. destruct (pod_Labels pod !! _); [|done]. by injection Href as <-. }
  assert (Hobs : forall x, observed ps' (pod_UID pod) x = true <->
            countablePod pod = true /\ spec_NodeName (pod_Spec pod) = rv_NodeName x).
  { intros x. unfold observed, ps'. destruct (countablePod pod).
    - rewrite lookup_insert_eq, bool_decide_eq_true, Hnode. naive_solver.
    - rewrite lookup_delete_eq. naive_solver. }
  rewrite <- countablePod_spec, <- Hobs. destruct (resv s !! u) as [x|]; [|naive_solver].
  destruct (decide (u = pod_UID pod /\ observed ps' (pod_UID pod) x = true)); naive_solver.
Qed.

Definition ex_args_l : ServiceSpreadArgs :=
  MkArgs "" "" "svc" None DefaultManagedSchedulerName Minute Minute Minute None None.
Definition ex_bound_pod : Pod := fx_pod "u" "n1" "app" "Pending".
Definition ex_bound_ref : podRef :=
  match PodRefFor ex_bound_pod DefaultManagedSchedulerName "svc" with Ok r => r | Err _ => zero_ref end.
Definition ex_reserved_resv : reservation :=
  Reservation "u" (ref_QuotaKey ex_bound_ref) (ref_SchedKey ex_bound_ref) "n1" resvReserved 0.
Definition ex_reserved : spreadState := SpreadState emptySnapshot (<["u" := ex_reserved_resv]> ∅).

Lemma ex_reserved_reachable : reachable ex_reserved.
Proof.
  eapply rtc_l; [|apply rtc_refl].
  apply (ss_reserve 0 "u" ex_bound_ref (fun _ => Val true) true). vm_compute. reflexivity.
Qed.

Lemma onPodEvent_exact_witness :
  let s' := run (onPodEvent ex_args_l ex_bound_pod) ex_reserved in
  pods (snap s') = <["u" := ex_bound_ref]> ∅ /\ resv s' !! "u" = None.
Proof.
  assert (Ho : occupies ex_bound_pod) by (apply countablePod_spec; vm_compute; reflexivity).
  destruct (onPodEvent_exact ex_args_l ex_bound_pod ex_bound_ref ex_reserved ex_reserved_reachable
              ltac:(vm_compute; reflexivity) eq_refl ltac:(vm_compute; reflexivity)) as (_ & Hp & _ & Hr).
  split; [exact (Hp Ho)|]. apply eq_None_not_Some. intros [r Hu].
  apply Hr in Hu as [Hu Hno]. apply Hno. split; [reflexivity|]. split; [exact Ho|].
  unfold ex_reserved in Hu. cbn [resv] in Hu. rewrite lookup_insert_eq in Hu. by injection Hu as <-.
Defined.

(** C10: handing a seat over from the reservation to the count neither loses nor
    duplicates it.  When a pod that holds a reservation is first observed bound to
    the reserved node, the effective counts of every node and key are the same
    before and after the event and at most one higher (never lower) between its two
    critical sections; processing the event again, or PostBind before or after it,
    makes no difference to the result. *)
Theorem handover_conserves pod ref s r :
  reachable s -> Z.of_nat (size (pods (snap s))) + 1 < max_int32 ->
  countablePod pod = true -> resv s !! pod_UID pod = Some r -> pods (snap s) !! pod_UID pod = None ->
  ref = PodRef (rv_QuotaKey r) (rv_SchedKey r) (rv_NodeName r) ->
  let s1 := upsertCount s (pod_UID pod) ref in
  let s2 := run (OnPodAddOrUpdate pod ref) s in
  (forall n q, quota_on s2 n q = quota_on s n q /\ quota_on s n q <= quota_on s1 n q <= quota_on s n q + 1) /\
  (forall n d, domain_on s2 n d = domain_on s n d /\
     domain_on s n d <= domain_on s1 n d <= domain_on s n d + 1) /\
  run (OnPodAddOrUpdate pod ref) s2 = s2 /\
  run (OnPodAddOrUpdate pod ref) (MarkBound s (pod_UID pod)) = s2 /\ MarkBound s2 (pod_UID pod) = s2.
Proof.
  intros Hr Hs Hc Hu Hp Href s1 s2. destruct (reachable_wf s Hr) as [Hw _].
  assert (Hf : fits (pods (snap s))) by (unfold fits; lia).
  set (uid := pod_UID pod) in *. set (ps := pods (snap s)) in *. set (rs := resv s) in *.
  assert (Hf' : fits (<[uid := ref]> ps)) by (by apply fits_insert).
  assert (Es : s = with_pods ps rs) by (by apply state_is_with_pods).
  assert (Hobs : forall r', rv_NodeName r' = rv_NodeName r -> observed (<[uid := ref]> ps) uid r' = true).
  { intros r' Hn. unfold observed. rewrite lookup_insert_eq. apply bool_decide_eq_true. by rewrite Href, Hn. }
  assert (E1 : s1 = with_pods (<[uid := ref]> ps) rs) by (unfold s1; by rewrite Es, upsertCount_with_pods).
  assert (Hevent : forall rs' r', rs' !! uid = Some r' -> rv_NodeName r' = rv_NodeName r ->
    run (OnPodAddOrUpdate pod ref) (with_pods ps rs') = with_pods (<[uid := ref]> ps) (delete uid rs')).
  { intros rs' r' Hu' Hn. rewrite OnPodAddOrUpdate_with_pods by done. rewrite Hc. fold uid.
    by rewrite (release_resv_observed _ _ _ r') by auto. }
  assert (E2 : s2 = with_pods (<[uid := ref]> ps) (delete uid rs)) by (unfold s2; rewrite Es; by apply (Hevent rs r)).
  assert (Eq : forall n q, ref_at ref_QuotaKey n q ref = resv_at rv_QuotaKey n q r) by (by rewrite Href).
  assert (Ed : forall n d, ref_at ref_SchedKey n d ref = resv_at rv_SchedKey n d r) by (by rewrite Href).
  split; [|split; [|split; [|split]]].
  - intros n q. rewrite E1, E2, Es, !quota_on_with_pods by done.
    rewrite !count_if_insert, (count_if_delete _ rs uid r), Eq by done.
    unfold b2z. destruct (resv_at _ _ _ r); lia.
  - intros n d. rewrite E1, E2, Es, !domain_on_with_pods by done.
    rewrite !count_if_insert, (count_if_delete _ rs uid r), Ed by done.
    unfold b2z. destruct (resv_at _ _ _ r); lia.
  - rewrite E2, OnPodAddOrUpdate_with_pods; fold uid; rewrite ?insert_insert_eq; try done.
    rewrite Hc, release_resv_none by apply lookup_delete_eq. by rewrite ?insert_insert_eq.
  - rewrite E2. unfold MarkBound. fold rs. rewrite Hu. case_decide; [|rewrite Es; by apply (Hevent rs r)].
    assert (Em : SpreadState (snap s) (<[uid := set_phase resvBoundObs r]> rs) =
                 with_pods ps (<[uid := set_phase resvBoundObs r]> rs)).
    { unfold with_pods. f_equal. change (snap s = snap (with_pods ps rs)). by rewrite <- Es. }
    rewrite Em, (Hevent _ (set_phase resvBoundObs r)) by (done || apply lookup_insert_eq).
    by rewrite delete_insert_eq.
  - rewrite E2. unfold MarkBound. simpl. by rewrite lookup_delete_eq.
Qed.

Lemma handover_conserves_witness :
  let s2 := run (OnPodAddOrUpdate ex_bound_pod ex_bound_ref) ex_reserved in
  quota_on s2 "n1" (ref_QuotaKey ex_bound_ref) = 1 /\
  quota_on s2 "n1" (ref_QuotaKey ex_bound_ref) = quota_on ex_reserved "n1" (ref_QuotaKey ex_bound_ref).
Proof.
  destruct (handover_conserves ex_bound_pod ex_bound_ref ex_reserved ex_reserved_resv
              ex_reserved_reachable ltac:(vm_compute; reflexivity)
              eq_refl eq_refl eq_refl ltac:(vm_compute; reflexivity)) as (Hq & _).
  split; [vm_compute; reflexivity|]. exact (proj1 (Hq "n1" (ref_QuotaKey ex_bound_ref))).
Defined.

(** C11: one janitor pass, run on an otherwise idle state, in any order of its range
    loop.  When the source fails, nothing changes and exactly the expired UIDs are
    alerted; otherwise no alert is raised, exactly the expired reservations are gone,
    and the snapshot is the listed counts if some expired reservation's pod is
    listed on the reserved node and unchanged if not. *)
Theorem janitor_pass_exact now ttl l s :
  reachable s -> fits (pods (snap s)) -> enumerates l (resv s) ->
  (forall e, exists alerts, janitor_pass now ttl (Err e) l s = (s, alerts) /\
     forall uid, uid ∈ alerts <-> exists r, resv s !! uid = Some r /\ is_expired now ttl r = true) /\
  (forall counts, fits counts -> exists s',
     janitor_pass now ttl (Ok counts) l s = (s', []) /\
     janitorOnce now ttl (Ok counts) s = (s', []) /\
     (forall uid r, resv s' !! uid = Some r <-> resv s !! uid = Some r /\ is_expired now ttl r = false) /\
     ((exists uid r, resv s !! uid = Some r /\ is_expired now ttl r = true /\ observed counts uid r = true) ->
        pods (snap s') = counts) /\
     ((forall uid r, resv s !! uid = Some r -> is_expired now ttl r = true -> observed counts uid r = false) ->
        snap s' = snap s)).
Proof.
  intros Hr Hf Hl. destruct (reachable_wf s Hr) as [Hw _]. split.
  - intros e. exists (expired_uids now ttl l). split.
    + unfold janitor_pass. by destruct (expired_uids now ttl l).
    + intros uid. by apply expired_elem.
  - intros counts Hfc. pose proof (state_is_with_pods s Hw Hf) as Es.
    set (ps := pods (snap s)) in *. set (rs := resv s) in *.
    assert (Hex : forall l', enumerates l' rs ->
      existsb (seat_observed counts rs) (expired_uids now ttl l') = true <->
      exists uid r, rs !! uid = Some r /\ is_expired now ttl r = true /\ observed counts uid r = true).
    { intros l' Hl'. rewrite existsb_elem. setoid_rewrite (expired_elem now ttl l' rs _ Hl').
      unfold seat_observed. split.
      - intros (uid & (r & Hu & He) & Ho). rewrite Hu in Ho. by exists uid, r.
      - intros (uid & r & Hu & He & Ho). exists uid. rewrite Hu. by split; [exists r|]. }
    assert (Hsame : existsb (seat_observed counts rs) (expired_uids now ttl l) =
                    existsb (seat_observed counts rs) (expired_uids now ttl (map_to_list rs))).
    { apply eq_true_iff_eq. rewrite !Hex by auto with go. done. }
    eexists. split; [rewrite Es; by apply janitor_pass_ok|]. split.
    { unfold janitorOnce. fold rs. rewrite Es, Hsame. apply janitor_pass_ok; auto with go. }
    split; [|split].
    + intros uid r. simpl. rewrite map_lookup_filter_Some. done.
    + intros Hsome. rewrite (proj2 (Hex l Hl) Hsome). by apply with_pods_pods.
    + intros Hnone. destruct (existsb _ _) eqn:E; [|by rewrite Es].
      apply (Hex l Hl) in E as (uid & r & Hu & He & Ho). rewrite (Hnone uid r Hu He) in Ho. done.
Qed.

Lemma janitor_pass_exact_witness :
  exists s', janitorOnce (5 * Minute) (5 * Minute) (Ok ∅) ex_reserved = (s', []) /\
    (forall uid r, resv s' !! uid = Some r <->
       resv ex_reserved !! uid = Some r /\ is_expired (5 * Minute) (5 * Minute) r = false).
Proof.
  destruct (janitor_pass_exact (5 * Minute) (5 * Minute) (map_to_list (resv ex_reserved)) ex_reserved
              ex_reserved_reachable ltac:(vm_compute; reflexivity) (enumerates_refl _)) as [_ Hok].
  destruct (Hok ∅ fits_empty) as (s' & _ & HJ & Hs & _).
  exists s'. split; [exact HJ|exact Hs].
Defined.

(** The janitor frees the seat of a pod that is still being scheduled.  A
    reservation in phase Reserved whose pod is not bound anywhere (so the source
    does not list it) is dropped by the first pass after the TTL, although neither
    Unreserve nor a binding has ended its scheduling cycle: the node's effective
    count falls by one. *)
Theorem janitor_drops_unbound now ttl counts s uid r :
  reachable s -> fits (pods (snap s)) -> fits counts ->
  resv s !! uid = Some r -> rv_Phase r = resvReserved -> is_expired now ttl r = true ->
  (forall u r', resv s !! u = Some r' -> is_expired now ttl r' = true -> u = uid) ->
  counts !! uid = None ->
  let s' := (janitorOnce now ttl (Ok counts) s).1 in
  resv s' !! uid = None /\ snap s' = snap s /\
  quota_on s' (rv_NodeName r) (rv_QuotaKey r) = quota_on s (rv_NodeName r) (rv_QuotaKey r) - 1.
Proof.
  intros Hr Hf Hfc Hu Hph He Honly Hc s'. destruct (reachable_wf s Hr) as [Hw _].
  assert (E : s' = SpreadState (snap s) (delete uid (resv s))).
  { unfold s', janitorOnce. pose proof (state_is_with_pods s Hw Hf) as Es.
    set (ps := pods (snap s)) in *. set (rs := resv s) in *. rewrite Es.
    rewrite janitor_pass_ok by auto with go. simpl fst.
    destruct (existsb _ _) eqn:Hex.
    - apply existsb_elem in Hex as (u & Hin & Ho).
      apply (expired_elem now ttl _ rs u (enumerates_refl rs)) in Hin as (r' & Hu' & He').
      assert (u = uid) as -> by eauto. unfold seat_observed, observed in Ho.
      rewrite Hu', Hc in Ho. done.
    - unfold with_pods. simpl. f_equal. apply map_eq. intros u. apply option_eq. intros r'.
      rewrite map_lookup_filter_Some, lookup_delete_Some. simpl.
      destruct (is_expired now ttl r') eqn:E; naive_solver congruence. }
  rewrite E. simpl. split; [apply lookup_delete_eq|]. split; [done|]. unfold quota_on. simpl.
  rewrite (count_if_delete _ (resv s) uid r Hu). unfold resv_at at 2, b2z.
  rewrite bool_decide_eq_true_2 by done. lia.
Qed.

Lemma janitor_drops_unbound_witness :
  let s' := (janitorOnce (5 * Minute) (5 * Minute) (Ok ∅) ex_reserved).1 in
  quota_on ex_reserved "n1" (ref_QuotaKey ex_bound_ref) = 1 /\ resv s' !! "u" = None.
Proof.
  split; [vm_compute; reflexivity|].
  refine (proj1 (janitor_drops_unbound (5 * Minute) (5 * Minute) ∅ ex_reserved "u" ex_reserved_resv
           ex_reserved_reachable _ _ eq_refl eq_refl _ _ eq_refl)).
  - vm_compute. reflexivity.
  - exact fits_empty.
  - vm_compute. reflexivity.
  - intros u r' Hu _. unfold ex_reserved in Hu. cbn [resv] in Hu. apply lookup_insert_Some in Hu as [[<- _]|[_ Hu]]; [reflexivity|].
    rewrite lookup_empty in Hu. discriminate Hu.
Defined.

(** The verification source lists exactly the pods the event path counts: for
    a pod list without duplicate UIDs, [ListCountable] maps a UID to a ref if and
    only if a managed, seat-taking pod of that UID carries the service label and the
    ref is [PodRefFor]; a lister error is passed on. *)
Theorem ListCountable_exact sched key l :
  NoDup (pod_UID <$> l) ->
  (forall e, ListCountable sched key (Err e) = Err e) /\
  exists counts, ListCountable sched key (Ok l) = Ok counts /\
    forall uid ref, counts !! uid = Some ref <->
      exists pod, pod ∈ l /\ pod_UID pod = uid /\ spec_SchedulerName (pod_Spec pod) = sched /\
        occupies pod /\ PodRefFor pod sched key = Ok ref.
Proof.
  intros Hnd. split; [done|]. eexists. split; [done|]. setoid_rewrite <- countablePod_spec.
  intros uid ref. by apply ListCountable_lookup.
Qed.

Lemma ListCountable_exact_witness :
  exists counts, ListCountable DefaultManagedSchedulerName "svc" (Ok [ex_bound_pod]) = Ok counts /\
    (counts !! "u" = Some ex_bound_ref <->
     exists pod, pod ∈ [ex_bound_pod] /\ pod_UID pod = "u" /\
       spec_SchedulerName (pod_Spec pod) = DefaultManagedSchedulerName /\ occupies pod /\
       PodRefFor pod DefaultManagedSchedulerName "svc" = Ok ex_bound_ref).
Proof.
  destruct (ListCountable_exact DefaultManagedSchedulerName "svc" [ex_bound_pod]
              (NoDup_singleton "u")) as (_ & counts & Hl & Hc).
  exists counts. split; [exact Hl|exact (Hc "u" ex_bound_ref)].
Defined.

(** The reconciler changes nothing when the event path is complete.  If the
    events of every pod of the list (managed and labelled, without duplicate UIDs)
    have been processed, in any order, and only listed pods were counted before,
    then rebuilding from the list gives exactly the snapshot the events gave. *)
Theorem reconcile_after_events args (l : list (Pod * podRef)) s counts :
  reachable s ->
  Z.of_nat (size (pods (snap s))) + Z.of_nat (length l) < max_int32 ->
  NoDup (pod_UID ∘ fst <$> l) ->
  Forall (fun pr => spec_SchedulerName (pod_Spec pr.1) = ManagedSchedulerName args /\
                    PodRefFor pr.1 (ManagedSchedulerName args) (ServiceLabelKey args) = Ok pr.2) l ->
  (forall uid, is_Some (pods (snap s) !! uid) -> uid ∈ (pod_UID ∘ fst <$> l)) ->
  ListCountable (ManagedSchedulerName args) (ServiceLabelKey args) (Ok l.*1) = Ok counts ->
  let s' := run (concat (onPodEvent args ∘ fst <$> l)) s in
  pods (snap s') = counts /\ reconcile_tick (Ok counts) s' = s'.
Proof.
  intros Hr Hs Hnd Hl Hdom Hcounts s'. destruct (reachable_wf s Hr) as [Hw _].
  assert (Hf : fits (pods (snap s))) by (unfold fits; lia).
  destruct (run_events args l (pods (snap s)) (resv s) Hs Hl) as [rs' Hrun].
  rewrite <- (state_is_with_pods s Hw Hf) in Hrun.
  assert (Hlist : foldl event_pods (pods (snap s)) l = counts).
  { rewrite (event_list_agree l _ ∅ Hnd).
    - injection Hcounts as <-. clear Hrun Hnd Hdom Hs. generalize (∅ : gmap string podRef) as out.
      induction Hl as [|[pod ref] l [Hn Href] _ IH]; intros out; [done|]. cbn [foldl fmap list_fmap].
      rewrite IH. f_equal. unfold list_pods, list_step. simpl in *.
      rewrite decide_False by (intros Hx; by apply Hx). rewrite Href. by destruct (countablePod pod).
    - intros uid Hn. rewrite lookup_empty. destruct (pods (snap s) !! uid) eqn:E; [|done].
      exfalso. apply Hn, Hdom. by eexists.
    - intros uid _. apply lookup_empty. }
  rewrite Hlist in Hrun. fold s' in Hrun. assert (Hfc : fits counts).
  { rewrite <- Hlist. clear -Hs. revert Hs. generalize (pods (snap s)) as ps.
    induction l as [|pr l IH]; intros ps Hs; simpl in *; [unfold fits; lia|].
    apply IH. pose proof (size_event_pods ps pr). lia. }
  rewrite Hrun. split; [by apply with_pods_pods|]. apply rebuild_with_pods.
Qed.

Lemma reconcile_after_events_witness :
  let s' := run (concat (onPodEvent ex_args_l ∘ fst <$> [(ex_bound_pod, ex_bound_ref)])) ex_reserved in
  pods (snap s') = <["u" := ex_bound_ref]> ∅ /\
  reconcile_tick (Ok (<["u" := ex_bound_ref]> ∅)) s' = s'.
Proof.
  refine (reconcile_after_events ex_args_l [(ex_bound_pod, ex_bound_ref)] ex_reserved
           (<["u" := ex_bound_ref]> ∅) ex_reserved_reachable _ (NoDup_singleton "u") _ _ _).
  - vm_compute. reflexivity.
  - apply Forall_singleton. split; [reflexivity|vm_compute; reflexivity].
  - intros uid [r Hr]. unfold ex_reserved in Hr. cbn [snap pods emptySnapshot] in Hr.
    rewrite lookup_empty in Hr. discriminate Hr.
  - vm_compute. reflexivity.
Defined.

(** A countable pod of another scheduler, or one without the service label, is
    counted after its event, under empty keys and at no node, and a reservation it
    holds on a node is not released; the verification source never lists it, so the
    next rebuild drops it from the snapshot. *)
Theorem unmanaged_pod_counted args pod s :
  reachable s -> Z.of_nat (size (pods (snap s))) + 1 < max_int32 -> countablePod pod = true ->
  (spec_SchedulerName (pod_Spec pod) <> ManagedSchedulerName args \/
   pod_Labels pod !! ServiceLabelKey args = None) ->
  let s' := run (onPodEvent args pod) s in
  pods (snap s') !! pod_UID pod = Some zero_ref /\
  row_count (nodeQuota (snap s')) "" "" > 0 /\
  (forall r, resv s !! pod_UID pod = Some r -> rv_NodeName r <> "" ->
     resv s' !! pod_UID pod = Some r) /\
  ListCountable (ManagedSchedulerName args) (ServiceLabelKey args) (Ok [pod]) = Ok ∅.
Proof.
  intros Hr Hs Hc Hun s'. destruct (reachable_wf s Hr) as [Hw _].
  assert (Hf : fits (pods (snap s))) by (unfold fits; lia).
  assert (E : onPodEvent args pod = OnPodAddOrUpdate pod zero_ref).
  { unfold onPodEvent, PodRefFor. case_decide; [|done]. destruct Hun as [?|Hl]; [done|]. by rewrite Hl. }
  pose proof (fits_insert _ (pod_UID pod) zero_ref Hs) as Hf'.
  assert (Es : s' = with_pods (<[pod_UID pod := zero_ref]> (pods (snap s)))
      (release_resv (<[pod_UID pod := zero_ref]> (pods (snap s))) (resv s) (pod_UID pod))).
  { unfold s'. rewrite E, (state_is_with_pods s Hw Hf) at 1.
    rewrite OnPodAddOrUpdate_with_pods by done. by rewrite Hc. }
  rewrite Es. destruct (with_pods_wf _ (release_resv (<[pod_UID pod := zero_ref]> (pods (snap s)))
    (resv s) (pod_UID pod)) Hf') as [[Hq _] _].
  rewrite Hq, with_pods_pods by done. split; [apply lookup_insert_eq|]. split; [|split].
  - apply Z.lt_gt. apply (count_if_pos _ _ (pod_UID pod) zero_ref); [apply lookup_insert_eq|].
    by apply bool_decide_eq_true.
  - intros r Hu Hn. simpl. rewrite lookup_release_resv, Hu, decide_False; [done|].
    intros [_ Ho]. unfold observed in Ho. rewrite lookup_insert_eq in Ho.
    apply bool_decide_eq_true in Ho. simpl in Ho. congruence.
  - simpl. unfold list_step. case_decide as Hn; [done|]. rewrite Hc. simpl.
    unfold PodRefFor. destruct Hun as [?|Hl]; [done|]. by rewrite Hl.
Qed.

Definition ex_foreign_pod : Pod :=
  MkPod "u" "u" "ns" ∅ [] (MkPodSpec "default-scheduler" "n1" None None []) "Running".

Lemma unmanaged_pod_counted_witness :
  let s' := run (onPodEvent ex_args_l ex_foreign_pod) ex_reserved in
  pods (snap s') !! "u" = Some zero_ref /\ resv s' !! "u" = Some ex_reserved_resv.
Proof.
  assert (H1 : Z.of_nat (size (pods (snap ex_reserved))) + 1 < max_int32) by (vm_compute; reflexivity).
  assert (H2 : countablePod ex_foreign_pod = true) by (vm_compute; reflexivity).
  assert (H3 : spec_SchedulerName (pod_Spec ex_foreign_pod) <> ManagedSchedulerName ex_args_l \/
               pod_Labels ex_foreign_pod !! ServiceLabelKey ex_args_l = None) by (left; discriminate).
  pose proof (unmanaged_pod_counted ex_args_l ex_foreign_pod ex_reserved ex_reserved_reachable H1 H2 H3) as H.
  cbv zeta in H. destruct H as (Hp & _ & Hr & _).
  split; [exact Hp|]. apply Hr; [reflexivity|discriminate].
Defined.

(** Whatever durations [StartLifecycleLoops] is given, both tickers get a
    positive period (a ticker panics otherwise), the janitor's period never
    exceeds the larger of the TTL and five seconds, and a positive duration is
    used as it is. *)
Theorem StartLifecycleLoops_ticks ttl period :
  let '(ttl', period') := StartLifecycleLoops ttl period in
  0 < janitorTick ttl' <= Z.max ttl' (5 * Second) /\ 0 < period' /\
  (0 < ttl -> ttl' = ttl) /\ (0 < period -> period' = period) /\
  (5 * Second <= ttl' -> 5 * Second <= janitorTick ttl').
Proof.
  unfold StartLifecycleLoops, janitorTick, DefaultReservationTTL, DefaultReconcilePeriod, Minute, Second.
  assert (Ht : 0 < (if ttl <=? 0 then 5 * (60 * 1000000000) else ttl)).
  { destruct (Z.leb_spec ttl 0); lia. }
  assert (Hp : 0 < (if period <=? 0 then 10 * (60 * 1000000000) else period)).
  { destruct (Z.leb_spec period 0); lia. }
  set (t := if ttl <=? 0 then _ else _) in *.
  assert (Hq : Z.quot t 4 = t / 4) by (apply Z.quot_div_nonneg; lia).
  rewrite Hq. assert (t / 4 <= t) by (apply Z.div_le_upper_bound; lia).
  split_and!.
  - destruct (Z.ltb_spec t (5 * 1000000000)); [lia|]. destruct (Z.ltb_spec (t / 4) (5 * 1000000000)); lia.
  - destruct (Z.ltb_spec t (5 * 1000000000)); [lia|]. destruct (Z.ltb_spec (t / 4) (5 * 1000000000)); lia.
  - done.
  - unfold t. destruct (Z.leb_spec ttl 0); lia.
  - destruct (Z.leb_spec period 0); lia.
  - intros. destruct (Z.ltb_spec t (5 * 1000000000)); [lia|]. destruct (Z.ltb_spec (t / 4) (5 * 1000000000)); lia.
Qed.

(** The lock-free read of [effCount] can undercount.  It loads the snapshot
    before it takes the lock; if a pod's seat is handed over from its reservation
    to the count in between, the read sees the seat in neither place, one below the
    effective counts that hold both before and after. *)
Theorem effCount_torn_read pod ref s r :
  reachable s -> small s -> Z.of_nat (size (pods (snap s))) + 1 < max_int32 ->
  countablePod pod = true -> resv s !! pod_UID pod = Some r -> pods (snap s) !! pod_UID pod = None ->
  ref = PodRef (rv_QuotaKey r) (rv_SchedKey r) (rv_NodeName r) ->
  let s2 := run (OnPodAddOrUpdate pod ref) s in
  let n := rv_NodeName r in let d := rv_SchedKey r in let q := rv_QuotaKey r in
  effCount s n d q = (domain_on s n d, quota_on s n q) /\
  quota_on s2 n q = quota_on s n q /\ domain_on s2 n d = domain_on s n d /\
  overlay (snap s) (resv s2) n d q = (domain_on s n d - 1, quota_on s n q - 1).
Proof.
  intros Hr Hsm Hs Hc Hu Hp Href s2 n d q. destruct (reachable_wf s Hr) as [Hw _].
  split; [by apply effCount_spec|].
  assert (Hf : fits (pods (snap s))) by (unfold fits; lia).
  set (uid := pod_UID pod) in *.
  assert (Hf' : fits (<[uid := ref]> (pods (snap s)))) by (by apply fits_insert).
  assert (E2 : s2 = with_pods (<[uid := ref]> (pods (snap s))) (delete uid (resv s))).
  { unfold s2. rewrite (state_is_with_pods s Hw Hf) at 1. rewrite OnPodAddOrUpdate_with_pods by done.
    rewrite Hc. fold uid. rewrite (release_resv_observed _ _ _ r); [done|done|].
    unfold observed. rewrite lookup_insert_eq. apply bool_decide_eq_true. by rewrite Href. }
  rewrite E2, quota_on_with_pods, domain_on_with_pods by done. rewrite !count_if_insert by done.
  unfold quota_on, domain_on. unfold small in Hsm.
  rewrite overlay_spec; [|done|].
  2: { simpl. rewrite map_size_delete, Hu. lia. }
  simpl resv. rewrite (count_if_delete (resv_at rv_QuotaKey n q) (resv s) uid r Hu).
  rewrite (count_if_delete (resv_at rv_SchedKey n d) (resv s) uid r Hu).
  assert (resv_at rv_QuotaKey n q r = true) as -> by (by apply bool_decide_eq_true).
  assert (resv_at rv_SchedKey n d r = true) as -> by (by apply bool_decide_eq_true).
  assert (ref_at ref_QuotaKey n q ref = true) as -> by (apply bool_decide_eq_true; by rewrite Href).
  assert (ref_at ref_SchedKey n d ref = true) as -> by (apply bool_decide_eq_true; by rewrite Href).
  simpl. split; [lia|]. split; [lia|]. f_equal; lia.
Qed.

Lemma effCount_torn_read_witness :
  let s2 := run (OnPodAddOrUpdate ex_bound_pod ex_bound_ref) ex_reserved in
  quota_on s2 "n1" (ref_QuotaKey ex_bound_ref) = 1 /\
  overlay (snap ex_reserved) (resv s2) "n1" (ref_SchedKey ex_bound_ref) (ref_QuotaKey ex_bound_ref) = (0, 0).
Proof.
  assert (H1 : Z.of_nat (size (pods (snap ex_reserved))) + 1 < max_int32) by (vm_compute; reflexivity).
  assert (H0 : small ex_reserved) by (vm_compute; reflexivity).
  assert (H3 : ex_bound_ref = PodRef (rv_QuotaKey ex_reserved_resv) (rv_SchedKey ex_reserved_resv)
                                     (rv_NodeName ex_reserved_resv)) by (vm_compute; reflexivity).
  pose proof (effCount_torn_read ex_bound_pod ex_bound_ref ex_reserved ex_reserved_resv
                ex_reserved_reachable H0 H1 eq_refl eq_refl eq_refl H3) as (_ & Hq & _ & Ho).
  split; [vm_compute; reflexivity|]. etransitivity; [exact Ho|]. vm_compute. reflexivity.
Defined.
