(* ===== verification/Janitor.v ===== *)
(** * The janitor's pass, one critical section at a time (internal/spread/lifecycle.go)

    [janitorOnce] takes the lock for the scan, then once or more for every expired
    UID; between two critical sections the state belongs to others.  [jstep] is the
    pass from one critical section to the next; run alone it is [janitor_pass]. *)

From S2P Require Import Prelude GoStd Kube Fixtures State Keys Domain Api Lifecycle.

(** Where the pass is: before the scan; before the listing; at the head of the loop
    over the remaining UIDs; after the reservation was read; after the rebuild;
    before the last look at the phase; returned. *)
Inductive jpc :=
| J_scan
| J_list (expired : list string)
| J_look (counts : gmap string podRef) (uids : list string)
| J_verify (counts : gmap string podRef) (uid expectedNode : string) (rest : list string)
| J_release (counts : gmap string podRef) (uid : string) (rest : list string)
| J_phase (counts : gmap string podRef) (uid : string) (rest : list string)
| J_done.

(** The listing names the pod on the node the reservation was seen on. *)
Definition bound_there (counts : gmap string podRef) (uid expectedNode : string) : bool :=
  match counts !! uid with
  | Some ref => bool_decide (ref_NodeName ref = expectedNode)
  | None => false
  end.

(** One step: the next place, the state and the alerts.  [l] is the order in which
    the scan visits the reservations, [src] what the listing answers. *)
Definition jstep (now ttl : Z) (l : list (string * reservation)) (src : res (gmap string podRef))
    (pc : jpc) (s : spreadState) : jpc * spreadState * list string :=
  match pc with
  | J_scan =>
    match expired_uids now ttl l with
    | [] => (J_done, s, [])
    | expired => (J_list expired, s, [])
    end
  | J_list expired =>
    match src with
    | Err _ => (J_done, s, expired)
    | Ok counts => (J_look counts expired, s, [])
    end
  | J_look _ [] => (J_done, s, [])
  | J_look counts (uid :: rest) =>
    match resv s !! uid with
    | None => (J_look counts rest, s, [])
    | Some r => (J_verify counts uid (rv_NodeName r) rest, s, [])
    end
  | J_verify counts uid expectedNode rest =>
    if bound_there counts uid expectedNode then (J_release counts uid rest, rebuild s counts, [])
    else (J_look counts rest, releaseUnverified s uid, [])
  | J_release counts uid rest => (J_phase counts uid rest, releaseIfObserved s uid, [])
  | J_phase counts uid rest =>
    (J_look counts rest, s, match reservationPhase s uid with Some _ => [uid] | None => [] end)
  | J_done => (J_done, s, [])
  end.

(** The pass run alone. *)
Fixpoint run_janitor (fuel : nat) (now ttl : Z) (l : list (string * reservation))
    (src : res (gmap string podRef)) (pc : jpc) (s : spreadState) : jpc * spreadState * list string :=
  match fuel with
  | O => (pc, s, [])
  | S fuel =>
    let '(pc, s, al1) := jstep now ttl l src pc s in
    let '(pc, s, al2) := run_janitor fuel now ttl l src pc s in
    (pc, s, al1 ++ al2)
  end.

Section alone.
Context (now ttl : Z) (l : list (string * reservation)) (src : res (gmap string podRef)).

Lemma run_janitor_done fuel s : run_janitor fuel now ttl l src J_done s = (J_done, s, []).
Proof. induction fuel as [|fuel IH]; simpl; [done|]. by rewrite IH. Qed.

Lemma run_janitor_S fuel pc s :
  run_janitor (S fuel) now ttl l src pc s =
  let '(pc, s, al1) := jstep now ttl l src pc s in
  let '(pc, s, al2) := run_janitor fuel now ttl l src pc s in (pc, s, al1 ++ al2).
Proof. done. Qed.

(** A UID takes at most four steps, which are [janitor_step]. *)
Lemma run_janitor_uid counts uid rest s :
  let '(s', al) := janitor_step counts (s, []) uid in
  exists k, (k <= 4)%nat /\ forall fuel,
    run_janitor (k + fuel) now ttl l src (J_look counts (uid :: rest)) s =
    let '(pc, s2, al2) := run_janitor fuel now ttl l src (J_look counts rest) s' in (pc, s2, al ++ al2).
Proof.
  assert (Hwrap : forall (x : jpc * spreadState * list string), x = let '(pc, s2, al2) := x in (pc, s2, [] ++ al2))
    by (by intros [[? ?] ?]).
  unfold janitor_step. destruct (resv s !! uid) as [r|] eqn:Hr.
  2: { exists 1%nat. split; [lia|]. intros fuel. cbn [Nat.add]. rewrite run_janitor_S. cbn [jstep]. by rewrite Hr. }
  assert (Hfree : bound_there counts uid (rv_NodeName r) = false ->
    forall fuel, run_janitor (S (S fuel)) now ttl l src (J_look counts (uid :: rest)) s =
      run_janitor fuel now ttl l src (J_look counts rest) (releaseUnverified s uid)).
  { intros Hb fuel. rewrite run_janitor_S. cbn [jstep]. rewrite Hr, run_janitor_S. cbn [jstep]. rewrite Hb.
    by destruct (run_janitor fuel now ttl l src _ _) as [[? ?] ?]. }
  unfold bound_there in Hfree. destruct (counts !! uid) as [ref|] eqn:Hc.
  2: { exists 2%nat. split; [lia|]. intros fuel. cbn [Nat.add]. rewrite Hfree by done. apply Hwrap. }
  destruct (decide (ref_NodeName ref <> rv_NodeName r)) as [Hn|Hn].
  { exists 2%nat. split; [lia|]. intros fuel. cbn [Nat.add]. rewrite Hfree by (by apply bool_decide_eq_false). apply Hwrap. }
  apply dec_stable in Hn. cbv zeta. set (s' := releaseIfObserved (rebuild s counts) uid).
  assert (Hrun : forall fuel, run_janitor (S (S (S (S fuel)))) now ttl l src (J_look counts (uid :: rest)) s =
    let '(pc, s2, al2) := run_janitor fuel now ttl l src (J_look counts rest) s' in
    (pc, s2, match reservationPhase s' uid with Some _ => [uid] | None => [] end ++ al2)).
  { intros fuel. rewrite run_janitor_S. cbn [jstep]. rewrite Hr, run_janitor_S. cbn [jstep].
    unfold bound_there. rewrite Hc, bool_decide_eq_true_2 by done.
    rewrite run_janitor_S. cbn [jstep]. rewrite run_janitor_S. cbn [jstep]. fold s'.
    by destruct (run_janitor fuel now ttl l src _ _) as [[? ?] ?]. }
  destruct (reservationPhase s' uid); exists 4%nat; (split; [lia|]); intros fuel; apply Hrun.
Qed.

Lemma janitor_fold_alerts counts us s al :
  foldl (janitor_step counts) (s, al) us =
  let '(s', al') := foldl (janitor_step counts) (s, []) us in (s', al ++ al').
Proof.
  revert s al. induction us as [|u us IH]; intros s al; cbn [foldl]; [by rewrite app_nil_r|].
  assert (Hs : janitor_step counts (s, al) u =
    let '(s', al') := janitor_step counts (s, []) u in (s', al ++ al')).
  { unfold janitor_step. repeat case_match; by rewrite ?app_nil_r. }
  rewrite Hs. destruct (janitor_step counts (s, []) u) as [s1 al1].
  rewrite (IH s1 (al ++ al1)), (IH s1 al1).
  destruct (foldl (janitor_step counts) (s1, []) us) as [s2 al2]. by rewrite app_assoc.
Qed.

Lemma run_janitor_loop counts us s :
  exists k, (k <= 4 * length us + 1)%nat /\ forall fuel,
    run_janitor (k + fuel) now ttl l src (J_look counts us) s =
    let '(s', al) := foldl (janitor_step counts) (s, []) us in (J_done, s', al).
Proof.
  revert s. induction us as [|u us IH]; intros s.
  - exists 1%nat. split; [simpl; lia|]. intros fuel. simpl. by rewrite run_janitor_done.
  - cbn [foldl]. pose proof (run_janitor_uid counts u us s) as Hu.
    destruct (janitor_step counts (s, []) u) as [s1 al1]. destruct Hu as (k1 & Hk1 & Hu).
    destruct (IH s1) as (k2 & Hk2 & Hloop). exists (k1 + k2)%nat. split; [simpl length; lia|].
    intros fuel. rewrite <- Nat.add_assoc, Hu, Hloop, (janitor_fold_alerts counts us s1 al1).
    by destruct (foldl (janitor_step counts) (s1, []) us).
Qed.

End alone.

(** ** Theorem *)

(** C12: a janitor pass run critical section by critical section, with nothing in
    between, is the pass: it returns after at most four steps for each reservation
    and three more, with the state and the alerts of janitor_pass, for every clock,
    TTL, answer of the listing and order of the scan. *)
Theorem janitor_thread_refines_pass now ttl l src s fuel :
  (4 * length l + 3 <= fuel)%nat ->
  run_janitor fuel now ttl l src J_scan s =
  let '(s', alerts) := janitor_pass now ttl src l s in (J_done, s', alerts).
Proof.
  intros Hf. unfold janitor_pass.
  assert (Hlen : (length (expired_uids now ttl l) <= length l)%nat).
  { unfold expired_uids. rewrite length_fmap. apply List.filter_length_le. }
  destruct fuel as [|[|fuel]]; [lia..|]. rewrite run_janitor_S. cbn [jstep].
  destruct (expired_uids now ttl l) as [|u us] eqn:He; [by rewrite run_janitor_done|].
  rewrite run_janitor_S. cbn [jstep]. destruct src as [counts|e].
  - destruct (run_janitor_loop now ttl l (Ok counts) counts (u :: us) s) as (k & Hk & Hrun).
    simpl in Hlen, Hk. replace fuel with (k + (fuel - k))%nat by lia. rewrite Hrun.
    by destruct (foldl (janitor_step counts) (s, []) (u :: us)).
  - rewrite run_janitor_done. by rewrite app_nil_r.
Qed.

Definition jt_resv (uid : string) : reservation := Reservation uid "q" "q/d" "n1" resvBoundObs 0.
Definition jt_state : spreadState :=
  SpreadState emptySnapshot (<["u1" := jt_resv "u1"]> (<["u2" := jt_resv "u2"]> ∅)).

(** One orphan and one pod the snapshot missed. *)
Lemma janitor_thread_refines_pass_witness :
  run_janitor 11 10 5 (map_to_list (resv jt_state)) (Ok {[ "u2" := PodRef "q" "q/d" "n1" ]}) J_scan jt_state =
  (J_done, rebuild newSpreadState {[ "u2" := PodRef "q" "q/d" "n1" ]}, []).
Proof.
  rewrite janitor_thread_refines_pass; [vm_compute; reflexivity|]. vm_compute. repeat constructor.
Defined.
