(* ===== verification/Recovery.v ===== *)
(** * Recovery (internal/spread/lifecycle.go)

    The counting state can drift: events are missed, reservations are orphaned, the
    process starts late.  One pass of the janitor and one tick of the reconciler
    bring it back from wherever it is, without any assumption on how it got there. *)

From S2P Require Import Prelude GoStd Kube Fixtures State Keys Domain Api Lifecycle.

Section recovery.
Context (counts : gmap string podRef) (Hf : fits counts).

(** From any state: the step drops the reservation, and the snapshot is either left
    alone or rebuilt. *)
Lemma janitor_step_any s al uid :
  exists s', janitor_step counts (s, al) uid = (s', al) /\ resv s' = delete uid (resv s).
Proof.
  unfold janitor_step. destruct (resv s !! uid) as [r|] eqn:Hr; [|exists s; by rewrite delete_id].
  assert (Hu : releaseUnverified s uid = SpreadState (snap s) (delete uid (resv s)))
    by (unfold releaseUnverified; by rewrite Hr).
  destruct (counts !! uid) as [ref|] eqn:Hc; [|rewrite Hu; by eexists].
  destruct (decide (ref_NodeName ref <> rv_NodeName r)) as [Hn|Hn]; [rewrite Hu; by eexists|].
  apply dec_stable in Hn. rewrite rebuild_is_with_pods, releaseIfObserved_with_pods by done.
  rewrite (release_resv_observed _ _ _ r)
    by (done || (unfold observed; rewrite Hc; by apply bool_decide_eq_true_2)).
  unfold reservationPhase. simpl resv. rewrite lookup_delete_eq. by eexists.
Qed.

Lemma janitor_fold_any us s al :
  exists s', foldl (janitor_step counts) (s, al) us = (s', al) /\
    forall uid, resv s' !! uid = if decide (uid ∈ us) then None else resv s !! uid.
Proof.
  revert s. induction us as [|u us IH]; intros s.
  - exists s. split; [done|]. intros uid. by rewrite decide_False by (by apply not_elem_of_nil).
  - cbn [foldl]. destruct (janitor_step_any s al u) as (s1 & -> & H1).
    destruct (IH s1) as (s2 & -> & H2). exists s2. split; [done|]. intros uid. rewrite H2, H1.
    destruct (decide (uid = u)) as [->|Hne].
    + rewrite lookup_delete_eq, (decide_True (P := u ∈ u :: us)) by set_solver. by case_decide.
    + rewrite lookup_delete_ne by done. apply decide_ext. set_solver.
Qed.

(** A pass from any state drops exactly the expired reservations. *)
Lemma janitor_pass_any now ttl order s :
  enumerates order (resv s) ->
  exists s', janitor_pass now ttl (Ok counts) order s = (s', []) /\
    resv s' = filter (fun kr => is_expired now ttl kr.2 = false) (resv s).
Proof.
  intros Ho. destruct (janitor_fold_any (expired_uids now ttl order) s []) as (s' & Hs' & Hl).
  exists s'. split; [unfold janitor_pass; rewrite <- Hs'; by destruct (expired_uids now ttl order)|].
  apply map_eq. intros uid. rewrite Hl. apply option_eq. intros r. rewrite map_lookup_filter_Some. simpl.
  case_decide as Hin; rewrite (expired_elem now ttl order (resv s) uid Ho) in Hin; [naive_solver congruence|].
  split; [|by intros [? _]]. intros Hr. split; [done|].
  destruct (is_expired now ttl r) eqn:E; [|done]. exfalso. apply Hin. by exists r.
Qed.

(** The pass and the tick, in either order. *)
Lemma repaired now ttl order s s2 :
  enumerates order (resv s) ->
  s2 = reconcile_tick (Ok counts) (janitor_pass now ttl (Ok counts) order s).1 \/
  s2 = (janitor_pass now ttl (Ok counts) order (reconcile_tick (Ok counts) s)).1 ->
  s2 = with_pods counts (filter (fun kr => is_expired now ttl kr.2 = false) (resv s)).
Proof.
  intros Ho [-> | ->]; unfold reconcile_tick.
  - destruct (janitor_pass_any now ttl order s Ho) as (s' & -> & Hr). simpl.
    by rewrite rebuild_is_with_pods, Hr.
  - rewrite rebuild_is_with_pods, janitor_pass_ok by done. simpl. f_equal. by destruct (existsb _ _).
Qed.

End recovery.

Lemma ListCountable_fits sched key l :
  NoDup (pod_UID <$> l) -> Z.of_nat (length l) < max_int32 -> fits (foldl (list_step sched key) ∅ l).
Proof.
  intros Hnd Hl. unfold fits. rewrite <- size_dom.
  assert (Hsub : dom (foldl (list_step sched key) ∅ l) ⊆ (list_to_set (pod_UID <$> l) : gset string)).
  { intros uid [ref Hu]%elem_of_dom. apply ListCountable_lookup in Hu as (pod & Hin & <- & _); [|done].
    apply elem_of_list_to_set. by apply list_elem_of_fmap_2. }
  apply subseteq_size in Hsub. pose proof (size_list_to_set (C := gset string) (pod_UID <$> l) Hnd) as Hsz.
  rewrite length_fmap in Hsz. lia.
Qed.

(** ** Theorem *)

(** C14: recovery.  From any state whatsoever - counters that are wrong, pods that were
    missed, orphaned reservations - one janitor pass and one reconcile tick that see
    the same pod list leave, in either order and without an alert, only the
    reservations that have not expired; if all had expired, the effective counts of
    every node are exactly the numbers of the list's managed, labelled pods that take
    a seat there. *)
Theorem recovery sched key l now ttl order s :
  NoDup (pod_UID <$> l) -> Z.of_nat (length l) < max_int32 -> enumerates order (resv s) ->
  let src := ListCountable sched key (Ok l) in
  exists counts, src = Ok counts /\
    (forall uid ref, counts !! uid = Some ref <->
       exists pod, pod ∈ l /\ pod_UID pod = uid /\ spec_SchedulerName (pod_Spec pod) = sched /\
         occupies pod /\ PodRefFor pod sched key = Ok ref) /\
    (janitor_pass now ttl src order s).2 = [] /\
    forall s2, s2 = reconcile_tick src (janitor_pass now ttl src order s).1 \/
               s2 = (janitor_pass now ttl src order (reconcile_tick src s)).1 ->
      resv s2 = filter (fun kr => is_expired now ttl kr.2 = false) (resv s) /\
      pods (snap s2) = counts /\ snap_wf (snap s2) /\
      ((forall uid r, resv s !! uid = Some r -> is_expired now ttl r = true) ->
       forall n sk qk, effCount s2 n sk qk =
         (count_if (ref_at ref_SchedKey n sk) counts, count_if (ref_at ref_QuotaKey n qk) counts)).
Proof.
  intros Hnd Hlen Ho src. set (counts := foldl (list_step sched key) ∅ l).
  assert (Hsrc : src = Ok counts) by done. clearbody src. subst src.
  assert (Hf : fits counts) by by apply ListCountable_fits.
  exists counts. split; [done|]. split.
  { setoid_rewrite <- countablePod_spec. intros uid ref. by apply ListCountable_lookup. }
  split; [by destruct (janitor_pass_any counts Hf now ttl order s Ho) as (s' & -> & _)|].
  intros s2 Hs2. apply (repaired counts Hf) in Hs2 as ->; [|done].
  split; [done|]. split; [by apply with_pods_pods|]. split; [by apply with_pods_wf|]. intros Hall n sk qk.
  assert (Hempty : filter (fun kr => is_expired now ttl kr.2 = false) (resv s) = ∅).
  { apply map_empty. intros uid. apply map_lookup_filter_None. right. intros r Hr. simpl. by rewrite (Hall uid r Hr). }
  rewrite Hempty, effCount_spec.
  - rewrite quota_on_with_pods, domain_on_with_pods by done. rewrite !count_if_empty. f_equal; lia.
  - by apply with_pods_wf.
  - unfold small. rewrite with_pods_pods by done. simpl. rewrite map_size_empty. unfold fits in Hf. lia.
Qed.

(** A counted pod that is gone, counters that are wrong, and a bound pod whose event
    was missed and whose reservation has expired. *)
Definition rc_state : spreadState :=
  SpreadState (Snapshot {[ "gone" := ex_bound_ref ]} {[ "n1" := {[ ref_QuotaKey ex_bound_ref := 7 ]} ]} ∅)
              (resv ex_reserved).

Lemma recovery_witness :
  let src := ListCountable DefaultManagedSchedulerName "svc" (Ok [ex_bound_pod]) in
  let s2 := reconcile_tick src (janitorOnce 10 5 src rc_state).1 in
  effCount rc_state "n1" "" (ref_QuotaKey ex_bound_ref) = (0, 8) /\
  (effCount s2 "n1" (ref_SchedKey ex_bound_ref) (ref_QuotaKey ex_bound_ref)).2 = 1.
Proof.
  intros src s2. split; [vm_compute; reflexivity|].
  destruct (recovery DefaultManagedSchedulerName "svc" [ex_bound_pod] 10 5 (map_to_list (resv rc_state)) rc_state)
    as (counts & Hs & _ & _ & Hrec).
  - apply (NoDup_singleton "u").
  - vm_compute. reflexivity.
  - apply enumerates_refl.
  - destruct (Hrec s2 (or_introl eq_refl)) as (_ & _ & _ & He). rewrite He.
    + assert (Hc : Ok counts = Ok {[ "u" := ex_bound_ref ]}) by (rewrite <- Hs; vm_compute; reflexivity).
      injection Hc as ->. vm_compute. reflexivity.
    + intros u r Hu. unfold rc_state, ex_reserved in Hu. cbn [resv] in Hu.
      apply lookup_insert_Some in Hu as [[_ <-]|[_ Hu]]; [vm_compute; reflexivity|].
      rewrite lookup_empty in Hu. discriminate Hu.
Defined.
