(* ===== verification/Protocol.v ===== *)
(** * The scheduling protocol: hard cap across the whole life of a pod

    The counting state together with what the API server knows - which pods are
    bound, which have passed Reserve and are being bound, and which are gone, with
    the reference they were bound under - and with the place of the janitor's pass.
    The steps are the critical sections of the handlers of the other files.  A pod is
    gone when it is deleted, or for good no longer Pending or Running.  The cluster has
    only pods that this scheduler placed.  What a step assumes of its surroundings is
    in [janitor_ok], [list_ok] and [event_ok]; three flags say whether a scan of the
    janitor may find an expired reservation of a pod that is still being bound, whether
    a listing may lack a pod already bound, and whether an event from before a binding
    may be processed after the pod's reservation was released. *)

From S2P Require Import Prelude GoStd Kube Fixtures State Keys Domain Api Plugin Lifecycle Janitor.

Record cluster := Cluster {
  cl_state : spreadState;
  cl_bound : gmap string podRef;
  cl_inflight : gmap string podRef;
  cl_gone : gmap string (option podRef);
  cl_janitor : jpc;
}.

Definition resv_ref (r : reservation) : podRef :=
  PodRef (rv_QuotaKey r) (rv_SchedKey r) (rv_NodeName r).

Definition init_cluster : cluster := Cluster newSpreadState ∅ ∅ ∅ J_done.

Definition with_state (c : cluster) (s : spreadState) : cluster :=
  Cluster s (cl_bound c) (cl_inflight c) (cl_gone c) (cl_janitor c).

(** The pod is bound under [ref], or was when it went away. *)
Definition was_bound (c : cluster) (uid : string) (ref : podRef) : Prop :=
  cl_bound c !! uid = Some ref \/ cl_gone c !! uid = Some (Some ref).

(** The list contains every bound pod, with its ref. *)
Definition complete_list (c : cluster) (counts : gmap string podRef) : Prop :=
  forall uid ref, cl_bound c !! uid = Some ref -> counts !! uid = Some ref.

(** The list contains nothing but pods that are or were bound. *)
Definition sound_list (c : cluster) (counts : gmap string podRef) : Prop :=
  forall uid ref, counts !! uid = Some ref -> was_bound c uid ref.

Definition no_inflight_expired (c : cluster) (now ttl : Z) : Prop :=
  forall uid r, is_Some (cl_inflight c !! uid) -> resv (cl_state c) !! uid = Some r ->
    is_expired now ttl r = false.

(** Room for one more pod without int32 overflow. *)
Definition room (s : spreadState) : Prop := Z.of_nat (size (pods (snap s))) + 1 < max_int32.

Section protocol.
Context `{KubeLib} {C : Type} `{CycleStore C}.

(** [limit q] bounds maxPodsPerNode of every policy the service with quota key [q] has
    had: the policy may change, and a Reserve may still use an older one. *)
Variable limit : string -> Z.

(** Is the janitor patient (its scan meets no in-flight reservation past its TTL)?
    Are the lists complete?  Are events timely (none for an object without a node, of
    a pod that is bound by now, is processed once the pod's reservation is released)? *)
Variables (patient complete timely : bool).

(** What a list is assumed to be when the janitor or the reconciler reads it. *)
Definition list_ok (c : cluster) (counts : gmap string podRef) : Prop :=
  fits counts /\ sound_list c counts /\ (complete = true -> complete_list c counts).

(** What the janitor's next step assumes of its surroundings: patience when it
    scans, and a list that is complete when it is read and when it replaces the
    snapshot.  Nothing is assumed when it drops a reservation. *)
Definition janitor_ok (c : cluster) (now ttl : Z) (src : res (gmap string podRef)) : Prop :=
  match cl_janitor c with
  | J_scan => patient = true -> no_inflight_expired c now ttl
  | J_list _ => forall counts, src = Ok counts -> list_ok c counts
  | J_verify counts uid node _ => complete = true -> bound_there counts uid node = true -> complete_list c counts
  | _ => True
  end.

(** What an Add or Update event carries: an object that has a node shows the pod as it
    is or was bound, labels included; any other may be from before the binding. *)
Definition event_ok (c : cluster) (args : ServiceSpreadArgs) (pod : Pod) : Prop :=
  if countablePod pod then
    spec_SchedulerName (pod_Spec pod) = ManagedSchedulerName args /\
    exists ref, PodRefFor pod (ManagedSchedulerName args) (ServiceLabelKey args) = Ok ref /\
      was_bound c (pod_UID pod) ref
  else timely = true -> cl_bound c !! pod_UID pod = None \/ is_Some (resv (cl_state c) !! pod_UID pod).

(** Everything but a Reserve. *)
Inductive bstep : cluster -> cluster -> Prop :=
| bs_bind uid ref c :
    cl_inflight c !! uid = Some ref ->
    bstep c (Cluster (cl_state c) (<[uid := ref]> (cl_bound c)) (delete uid (cl_inflight c)) (cl_gone c)
                     (cl_janitor c))
| bs_unreserve pod c :
    cl_bound c !! pod_UID pod = None ->
    bstep c (Cluster (pl_Unreserve (cl_state c) pod) (cl_bound c)
                     (delete (pod_UID pod) (cl_inflight c)) (cl_gone c) (cl_janitor c))
| bs_postbind pod c : bstep c (with_state c (PostBind (cl_state c) pod))
| bs_gone uid c :
    cl_gone c !! uid = None ->
    bstep c (Cluster (cl_state c) (delete uid (cl_bound c)) (delete uid (cl_inflight c))
                     (<[uid := cl_bound c !! uid]> (cl_gone c)) (cl_janitor c))
(** The critical sections of the informer's handlers, one at a time. *)
| bs_event args pod count release c :
    onPodEvent args pod = [count; release] -> room (cl_state c) -> event_ok c args pod ->
    bstep c (with_state c (count (cl_state c)))
| bs_event_release args pod count release c :
    onPodEvent args pod = [count; release] -> bstep c (with_state c (release (cl_state c)))
| bs_delete uid act c :
    act ∈ OnPodDelete uid -> room (cl_state c) -> is_Some (cl_gone c !! uid) ->
    bstep c (with_state c (act (cl_state c)))
(** The background loops: the reconciler's rebuild, a tick that starts a pass of the
    janitor, and the pass's critical sections. *)
| bs_reconcile counts c :
    list_ok c counts -> bstep c (with_state c (reconcile_tick (Ok counts) (cl_state c)))
| bs_tick c :
    cl_janitor c = J_done ->
    bstep c (Cluster (cl_state c) (cl_bound c) (cl_inflight c) (cl_gone c) J_scan)
| bs_janitor now ttl l src pc s' alerts c :
    enumerates l (resv (cl_state c)) -> janitor_ok c now ttl src ->
    jstep now ttl l src (cl_janitor c) (cl_state c) = (pc, s', alerts) ->
    bstep c (Cluster s' (cl_bound c) (cl_inflight c) (cl_gone c) pc).

(** A successful Reserve, of a pod that is neither bound nor gone, under the cap of
    the policy its cycle found. *)
Record reserves (now : Z) (pl : ServiceSpread) (cy : C) (pod : Pod) (node : string)
    (state : preFilterState) (policy : ServiceSpreadPolicy) (c : cluster) (s' : spreadState) : Prop := {
  rs_small : small (cl_state c);
  rs_state : getPreFilterState cy = inl state;
  rs_policy : pf_policy state = Some policy;
  rs_limit : MaxPodsPerNode (pol_Spec policy) <= limit (pf_quotaKey state);
  rs_unbound : cl_bound c !! pod_UID pod = None;
  rs_alive : cl_gone c !! pod_UID pod = None;
  rs_run : Reserve now pl (cl_state c) cy pod node = Val (success, s');
}.

Definition placed_ref (state : preFilterState) (node : string) : podRef :=
  PodRef (pf_quotaKey state) (pf_schedKey state) node.

Definition after_reserve (c : cluster) (s' : spreadState) (uid : string) (ref : podRef) : cluster :=
  Cluster s' (cl_bound c) (<[uid := ref]> (cl_inflight c)) (cl_gone c) (cl_janitor c).

Inductive cstep : cluster -> cluster -> Prop :=
| cs_reserve now pl cy pod node state policy s' c :
    reserves now pl cy pod node state policy c s' ->
    cstep c (after_reserve c s' (pod_UID pod) (placed_ref state node))
| cs_background c c' : bstep c c' -> cstep c c'.

Definition creachable : cluster -> Prop := rtc cstep init_cluster.

End protocol.

(** Pods bound to the node for the service. *)
Definition bound_on (c : cluster) (n q : string) : Z :=
  count_if (ref_at ref_QuotaKey n q) (cl_bound c).

(** ** Invariant *)

Definition occupied (c : cluster) : gmap string podRef := cl_bound c ∪ cl_inflight c.

Definition covered (s : spreadState) (uid : string) (ref : podRef) : Prop :=
  pods (snap s) !! uid = Some ref \/ exists r, resv s !! uid = Some r /\ resv_ref r = ref.

Record cinv (limit : string -> Z) (c : cluster) : Prop := {
  ci_wf : snap_wf (snap (cl_state c));
  ci_bound : forall uid ref, cl_bound c !! uid = Some ref ->
    cl_inflight c !! uid = None /\ cl_gone c !! uid = None /\ covered (cl_state c) uid ref;
  ci_seat : forall uid ref r, cl_bound c !! uid = Some ref -> resv (cl_state c) !! uid = Some r -> resv_ref r = ref;
  ci_inflight : forall uid ref, cl_inflight c !! uid = Some ref ->
    cl_gone c !! uid = None /\ exists r, resv (cl_state c) !! uid = Some r /\ resv_ref r = ref;
  ci_pods : forall uid ref, pods (snap (cl_state c)) !! uid = Some ref -> was_bound c uid ref;
  ci_phase : forall uid r, resv (cl_state c) !! uid = Some r ->
    is_Some (cl_inflight c !! uid) \/ is_Some (cl_bound c !! uid) \/ is_Some (cl_gone c !! uid) \/
    rv_Phase r = resvBoundObs;
  ci_cap : forall n q, count_if (ref_at ref_QuotaKey n q) (occupied c) <= limit q;
}.

(** The pod will not pass Reserve again: it is bound, gone, or left behind with a
    reservation that only the janitor can drop. *)
Definition settled (c : cluster) (uid : string) : Prop :=
  cl_inflight c !! uid = None /\
  (is_Some (cl_bound c !! uid) \/ is_Some (cl_gone c !! uid) \/
   exists r, resv (cl_state c) !! uid = Some r /\ rv_Phase r = resvBoundObs).

(** The list the janitor holds, while it works through [uids]. *)
Record jlist (c : cluster) (counts : gmap string podRef) (uids : list string) : Prop := {
  jl_fits : fits counts;
  jl_sound : sound_list c counts;
  jl_nodup : NoDup uids;
  jl_settled : forall uid, uid ∈ uids -> settled c uid;
  jl_bound : forall uid ref, uid ∈ uids -> cl_bound c !! uid = Some ref -> counts !! uid = Some ref;
}.

Definition jinv (c : cluster) : Prop :=
  match cl_janitor c with
  | J_scan | J_done => True
  | J_list expired => NoDup expired /\ forall uid, uid ∈ expired -> settled c uid
  | J_look counts uids => jlist c counts uids
  | J_verify counts uid node rest =>
      jlist c counts (uid :: rest) /\
      forall r, resv (cl_state c) !! uid = Some r -> rv_NodeName r = node
  | J_release counts uid rest | J_phase counts uid rest => jlist c counts rest
  end.

(** ** Lemmas *)

Lemma occupied_count limit c n q :
  cinv limit c -> count_if (ref_at ref_QuotaKey n q) (occupied c) <= quota_on (cl_state c) n q.
Proof.
  intros Hi. unfold quota_on. apply count_if_cover. intros uid ref Hu Hp.
  assert (Hcov : covered (cl_state c) uid ref).
  { unfold occupied in Hu. apply lookup_union_Some_raw in Hu as [Hb|[_ Hf]].
    - by apply (ci_bound _ _ Hi).
    - right. by apply (ci_inflight _ _ Hi). }
  destruct Hcov as [Hc|(r & Hr & <-)]; [left; by exists ref|right; by exists r].
Qed.

(** Every reservation of [s'] was one of [s], with the same keys and no earlier phase. *)
Definition resv_from (s s' : spreadState) : Prop :=
  forall uid r', resv s' !! uid = Some r' -> exists r, resv s !! uid = Some r /\ resv_ref r' = resv_ref r /\
    (rv_Phase r = resvBoundObs -> rv_Phase r' = resvBoundObs).

Lemma resv_from_sub s s' :
  (forall uid r, resv s' !! uid = Some r -> resv s !! uid = Some r) -> resv_from s s'.
Proof. intros Hs uid r Hr. exists r. auto. Qed.

(** A step that leaves the cluster alone keeps the invariant if it keeps every bound
    pod covered, every in-flight reservation, and counts no stranger. *)
Lemma cinv_state limit c s' pc :
  cinv limit c -> snap_wf (snap s') ->
  (forall uid ref, cl_bound c !! uid = Some ref -> covered (cl_state c) uid ref -> covered s' uid ref) ->
  (forall uid r, is_Some (cl_inflight c !! uid) -> resv (cl_state c) !! uid = Some r ->
     exists r', resv s' !! uid = Some r' /\ resv_ref r' = resv_ref r) ->
  (forall uid ref, pods (snap s') !! uid = Some ref -> was_bound c uid ref) ->
  resv_from (cl_state c) s' ->
  cinv limit (Cluster s' (cl_bound c) (cl_inflight c) (cl_gone c) pc).
Proof.
  intros Hi Hw Hb Hf Hp Hr. split; simpl; [done| | | |done| |].
  - intros uid ref Hu. destruct (ci_bound _ _ Hi uid ref Hu) as (? & ? & ?). auto.
  - intros uid ref r' Hu Hr'. destruct (Hr uid r' Hr') as (r & Hr0 & -> & _). by apply (ci_seat _ _ Hi uid).
  - intros uid ref Hu. destruct (ci_inflight _ _ Hi uid ref Hu) as (? & r & Hr' & <-).
    split; [done|]. by apply Hf; [eexists|].
  - intros uid r' Hr'. destruct (Hr uid r' Hr') as (r & Hr0 & _ & Hph).
    destruct (ci_phase _ _ Hi uid r Hr0) as [?|[?|[?|?]]]; auto.
  - apply (ci_cap _ _ Hi).
Qed.

Lemma covered_resv s s' uid ref :
  snap s' = snap s -> resv s' !! uid = resv s !! uid -> covered s uid ref -> covered s' uid ref.
Proof. intros Hs Hr. unfold covered. by rewrite Hs, Hr. Qed.

Lemma Unreserve_lookup s uid u : u <> uid -> resv (Unreserve s uid) !! u = resv s !! u.
Proof.
  intros Hu. unfold Unreserve. repeat case_match; simpl; try done. by rewrite lookup_delete_ne.
Qed.

(** What Unreserve leaves of the pod's reservation was already observed as bound. *)
Lemma Unreserve_left s uid r :
  resv (Unreserve s uid) !! uid = Some r -> resv s !! uid = Some r /\ rv_Phase r = resvBoundObs.
Proof.
  unfold Unreserve. destruct (resv s !! uid) as [r0|] eqn:E; [|congruence]. case_decide as Hp; simpl.
  - by rewrite lookup_delete_eq.
  - rewrite E. intros [= <-]. split; [done|]. by destruct (rv_Phase r0).
Qed.

Lemma Unreserve_keeps s uid u r :
  resv s !! u = Some r -> rv_Phase r = resvBoundObs -> resv (Unreserve s uid) !! u = Some r.
Proof.
  intros Hr Hp. destruct (decide (u = uid)) as [->|Hne]; [|by rewrite Unreserve_lookup].
  unfold Unreserve. rewrite Hr. rewrite decide_False by congruence. done.
Qed.

Lemma Unreserve_snap s uid : snap (Unreserve s uid) = snap s.
Proof. unfold Unreserve. by repeat case_match. Qed.

Lemma MarkBound_snap s uid : snap (MarkBound s uid) = snap s.
Proof. unfold MarkBound. by repeat case_match. Qed.

Lemma MarkBound_resv s uid u r :
  resv s !! u = Some r -> exists r', resv (MarkBound s uid) !! u = Some r' /\ resv_ref r' = resv_ref r.
Proof.
  intros Hr. unfold MarkBound. destruct (resv s !! uid) as [r0|] eqn:E; [|by exists r].
  case_decide; [|by exists r]. simpl. destruct (decide (uid = u)) as [->|Hne].
  - rewrite lookup_insert_eq. eexists. split; [done|]. by simplify_eq.
  - rewrite lookup_insert_ne by done. by exists r.
Qed.

Lemma MarkBound_from s uid : resv_from s (MarkBound s uid).
Proof.
  intros u r' Hr'. unfold MarkBound in Hr'. destruct (resv s !! uid) as [r0|] eqn:E; [|by exists r'].
  case_decide; [|by exists r']. simpl in Hr'. apply lookup_insert_Some in Hr' as [[<- <-]|[Hne Hr']].
  - exists r0. done.
  - by exists r'.
Qed.

Lemma MarkBound_keeps s uid u r :
  resv s !! u = Some r -> rv_Phase r = resvBoundObs -> resv (MarkBound s uid) !! u = Some r.
Proof.
  intros Hr Hp. unfold MarkBound. destruct (resv s !! uid) as [r0|] eqn:E; [|done].
  case_decide; [|done]. simpl. rewrite lookup_insert_ne; [done|]. intros ->. congruence.
Qed.

Lemma MarkBound_covered s uid u ref : covered s u ref -> covered (MarkBound s uid) u ref.
Proof.
  unfold covered. rewrite MarkBound_snap. intros [?|(r & Hr & <-)]; [by left|right].
  by apply MarkBound_resv.
Qed.

Lemma releaseIfObserved_lookup s uid u :
  resv (releaseIfObserved s uid) !! u = resv s !! u \/
  (u = uid /\ resv (releaseIfObserved s uid) !! u = None /\
   exists ref r, pods (snap s) !! u = Some ref /\ resv s !! u = Some r).
Proof.
  unfold releaseIfObserved. destruct (resv s !! uid) as [r|] eqn:E; [|by left].
  destruct (pods (snap s) !! uid) as [ref|] eqn:Ep; [|by left]. case_decide; [|by left]. simpl.
  destruct (decide (u = uid)) as [->|Hne]; [right|left; by rewrite lookup_delete_ne].
  split; [done|]. split; [apply lookup_delete_eq|]. by exists ref, r.
Qed.

Lemma releaseIfObserved_from s uid : resv_from s (releaseIfObserved s uid).
Proof.
  apply resv_from_sub. intros u r Hr. destruct (releaseIfObserved_lookup s uid u) as [<-|(_ & ? & _)]; congruence.
Qed.

Lemma releaseIfObserved_snap s uid : snap (releaseIfObserved s uid) = snap s.
Proof. unfold releaseIfObserved. by repeat case_match. Qed.

Lemma releaseUnverified_eq s uid :
  releaseUnverified s uid = SpreadState (snap s) (delete uid (resv s)).
Proof.
  unfold releaseUnverified. destruct (resv s !! uid) eqn:E; [done|]. destruct s. simpl in *. by rewrite delete_id.
Qed.

Lemma room_fits s : room s -> fits (pods (snap s)).
Proof. unfold room, fits. lia. Qed.

(** ** The invariant is kept: the cluster *)

Section safety.
Context `{KubeLib} {C : Type} `{CycleStore C}.
Variable limit : string -> Z.
Implicit Types (c : cluster).

Lemma cinv_reserve now pl (cy : C) pod node state policy s' c :
  cinv limit c -> reserves limit now pl cy pod node state policy c s' ->
  cinv limit (after_reserve c s' (pod_UID pod) (placed_ref state node)).
Proof.
  intros Hi [Hs Hst Hp Hlim Hb Hg HR]. pose proof (ci_wf _ _ Hi) as Hw.
  destruct (Reserve_cases now pl (cl_state c) cy pod node state policy Hw Hs Hst Hp)
    as [[(_ & Hu & Hq & _) HR']|[_ (st & HR' & Hst')]]; rewrite HR' in HR; [|by injection HR as -> _].
  injection HR as <-. set (uid := pod_UID pod) in *.
  assert (Hfl : cl_inflight c !! uid = None).
  { destruct (cl_inflight c !! uid) eqn:E; [|done]. apply (ci_inflight _ _ Hi) in E as (_ & r & ? & _). congruence. }
  split; simpl; [done| | | |apply (ci_pods _ _ Hi)| |].
  - intros u ref Hbu. destruct (ci_bound _ _ Hi u ref Hbu) as (H1 & H2 & H3).
    assert (Hne : uid <> u) by congruence. rewrite lookup_insert_ne by done.
    split; [done|]. split; [done|]. apply (covered_resv (cl_state c)); [done| |done].
    simpl. by rewrite lookup_insert_ne.
  - intros u ref r Hbu Hr. rewrite lookup_insert_ne in Hr by congruence. by apply (ci_seat _ _ Hi u).
  - intros u ref Hu'. apply lookup_insert_Some in Hu' as [[<- <-]|[Hne Hu']].
    + split; [done|]. eexists. split; [apply lookup_insert_eq|done].
    + destruct (ci_inflight _ _ Hi u ref Hu') as (? & r & Hr & ?). split; [done|].
      exists r. by rewrite lookup_insert_ne.
  - intros u r Hr. destruct (decide (uid = u)) as [->|Hne]; [left; by rewrite lookup_insert_eq|].
    rewrite lookup_insert_ne in Hr by done. rewrite lookup_insert_ne by done. by apply (ci_phase _ _ Hi).
  - intros n q. unfold occupied. simpl. rewrite <- insert_union_r by done.
    fold (occupied c). rewrite count_if_insert.
    2: { apply lookup_union_None. done. }
    pose proof (occupied_count limit c n q Hi). pose proof (ci_cap _ _ Hi n q).
    unfold ref_at at 1, b2z. simpl. case_bool_decide as Hm; [|lia]. destruct Hm as [-> <-]. lia.
Qed.

Lemma bind_occupied c uid ref :
  cl_inflight c !! uid = Some ref -> cl_bound c !! uid = None ->
  <[uid := ref]> (cl_bound c) ∪ delete uid (cl_inflight c) = occupied c.
Proof.
  intros Hf Hb. unfold occupied. rewrite <- insert_union_l. rewrite insert_union_r by done.
  by rewrite insert_delete_eq, insert_id.
Qed.

Lemma inflight_unbound c uid : cinv limit c -> is_Some (cl_inflight c !! uid) -> cl_bound c !! uid = None.
Proof.
  intros Hi [ref Hf]. destruct (cl_bound c !! uid) eqn:E; [|done]. apply (ci_bound _ _ Hi) in E as (? & _). congruence.
Qed.

Lemma gone_unbound c uid : cinv limit c -> is_Some (cl_gone c !! uid) -> cl_bound c !! uid = None.
Proof.
  intros Hi [o Hg]. destruct (cl_bound c !! uid) eqn:E; [|done]. apply (ci_bound _ _ Hi) in E as (_ & ? & _). congruence.
Qed.

Lemma cinv_bind uid ref c :
  cinv limit c -> cl_inflight c !! uid = Some ref ->
  cinv limit (Cluster (cl_state c) (<[uid := ref]> (cl_bound c)) (delete uid (cl_inflight c)) (cl_gone c) (cl_janitor c)).
Proof.
  intros Hi Hf. destruct (ci_inflight _ _ Hi uid ref Hf) as (Hg & Hr).
  assert (Hb : cl_bound c !! uid = None) by (apply inflight_unbound; [done|by exists ref]).
  split; simpl; [apply (ci_wf _ _ Hi)| | | | | |].
  - intros u ref' Hu. apply lookup_insert_Some in Hu as [[<- <-]|[Hne Hu]].
    + split; [apply lookup_delete_eq|]. split; [done|by right].
    + destruct (ci_bound _ _ Hi u ref' Hu) as (? & ? & ?). by rewrite lookup_delete_ne.
  - intros u ref' r' Hu Hr'. apply lookup_insert_Some in Hu as [[<- <-]|[_ Hu]]; [|by apply (ci_seat _ _ Hi u)].
    destruct Hr as (r & Hr & <-). congruence.
  - intros u ref' Hu. apply lookup_delete_Some in Hu as [_ Hu]. by apply (ci_inflight _ _ Hi).
  - intros u ref' Hu. destruct (ci_pods _ _ Hi u ref' Hu) as [Hb'|]; [|by right].
    left. simpl. rewrite lookup_insert_ne; [done|]. intros ->. congruence.
  - intros u r Hu. destruct (decide (uid = u)) as [->|Hne]; [right; left; by rewrite lookup_insert_eq|].
    rewrite lookup_delete_ne, lookup_insert_ne by done. by apply (ci_phase _ _ Hi).
  - intros n q. unfold occupied at 1. simpl. rewrite bind_occupied by done. apply (ci_cap _ _ Hi).
Qed.

(** Steps that only take pods out of the cluster. *)
Lemma cinv_shrink c s' b f g :
  cinv limit c -> snap s' = snap (cl_state c) -> resv_from (cl_state c) s' ->
  (forall uid ref, b !! uid = Some ref -> cl_bound c !! uid = Some ref /\ g !! uid = None /\
     resv s' !! uid = resv (cl_state c) !! uid) ->
  (forall uid ref, f !! uid = Some ref -> cl_inflight c !! uid = Some ref /\ g !! uid = None /\
     resv s' !! uid = resv (cl_state c) !! uid) ->
  (forall uid ref, cl_bound c !! uid = Some ref -> b !! uid = Some ref \/ g !! uid = Some (Some ref)) ->
  (forall uid o, cl_gone c !! uid = Some o -> g !! uid = Some o) ->
  (forall uid r, resv s' !! uid = Some r -> is_Some (cl_inflight c !! uid) ->
     is_Some (f !! uid) \/ is_Some (g !! uid) \/ rv_Phase r = resvBoundObs) ->
  cinv limit (Cluster s' b f g (cl_janitor c)).
Proof.
  intros Hi Hs Hfrom Hb Hf Hb' Hg Hph. split; simpl.
  - rewrite Hs. apply (ci_wf _ _ Hi).
  - intros uid ref Hu. destruct (Hb uid ref Hu) as (Hbu & Hgu & Hr).
    destruct (ci_bound _ _ Hi uid ref Hbu) as (Hfl & _ & Hc).
    split; [|split; [done|by apply (covered_resv (cl_state c))]].
    destruct (f !! uid) as [ref'|] eqn:E; [|done]. apply Hf in E as [E _]. congruence.
  - intros uid ref r' Hu Hr'. destruct (Hb uid ref Hu) as (Hbu & _ & Hr). rewrite Hr in Hr'.
    by apply (ci_seat _ _ Hi uid).
  - intros uid ref Hu. destruct (Hf uid ref Hu) as (Hfu & Hgu & Hr). split; [done|].
    rewrite Hr. by apply (ci_inflight _ _ Hi).
  - intros uid ref Hu. rewrite Hs in Hu. destruct (ci_pods _ _ Hi uid ref Hu) as [Hbu|Hgu].
    + by apply Hb'.
    + right. by apply Hg.
  - intros uid r' Hr'. destruct (Hfrom uid r' Hr') as (r & Hr & _ & Hp).
    destruct (ci_phase _ _ Hi uid r Hr) as [Hfl|[[ref Hbu]|[[o Ho]|?]]]; auto.
    + destruct (Hph uid r' Hr' Hfl) as [?|[?|?]]; auto.
    + destruct (Hb' uid ref Hbu) as [?|?]; [right; left; by exists ref|right; right; left; by eexists].
    + right; right; left. exists o. by apply Hg.
  - intros n q. etransitivity; [|apply (ci_cap _ _ Hi n q)]. apply count_if_subseteq.
    apply map_subseteq_spec. intros uid ref Hu. unfold occupied in *. simpl in Hu.
    apply lookup_union_Some_raw in Hu as [Hu|[Hn Hu]].
    + apply lookup_union_Some_raw. left. by apply Hb.
    + apply lookup_union_Some_raw. right. apply Hf in Hu as (Hfu & Hgu & _). split; [|done].
      apply inflight_unbound; [done|by eexists].
Qed.

Lemma cinv_unreserve pod c :
  cinv limit c -> cl_bound c !! pod_UID pod = None ->
  cinv limit (Cluster (pl_Unreserve (cl_state c) pod) (cl_bound c) (delete (pod_UID pod) (cl_inflight c))
                      (cl_gone c) (cl_janitor c)).
Proof.
  intros Hi Hb. unfold pl_Unreserve. apply cinv_shrink; try done.
  - apply Unreserve_snap.
  - apply resv_from_sub. intros u r Hr. destruct (decide (u = pod_UID pod)) as [->|Hne].
    + by apply Unreserve_left in Hr as [? _].
    + by rewrite Unreserve_lookup in Hr.
  - intros u ref Hu. split; [done|]. split; [by apply (ci_bound _ _ Hi u ref)|].
    apply Unreserve_lookup. congruence.
  - intros u ref Hu. apply lookup_delete_Some in Hu as [Hne Hu].
    split; [done|]. split; [by apply (ci_inflight _ _ Hi u ref)|]. by apply Unreserve_lookup.
  - by left.
  - intros u r Hr Hfl. destruct (decide (pod_UID pod = u)) as [<-|Hne].
    + right; right. by apply Unreserve_left in Hr as [_ ?].
    + left. by rewrite lookup_delete_ne.
Qed.

Lemma cinv_gone uid c :
  cinv limit c -> cl_gone c !! uid = None ->
  cinv limit (Cluster (cl_state c) (delete uid (cl_bound c)) (delete uid (cl_inflight c))
                      (<[uid := cl_bound c !! uid]> (cl_gone c)) (cl_janitor c)).
Proof.
  intros Hi Hg. apply cinv_shrink; try done.
  - by apply resv_from_sub.
  - intros u ref Hu. apply lookup_delete_Some in Hu as [Hne Hu]. split; [done|].
    split; [|done]. rewrite lookup_insert_ne by done. by apply (ci_bound _ _ Hi u ref).
  - intros u ref Hu. apply lookup_delete_Some in Hu as [Hne Hu]. split; [done|].
    split; [|done]. rewrite lookup_insert_ne by done. by apply (ci_inflight _ _ Hi u ref).
  - intros u ref Hu. destruct (decide (uid = u)) as [->|]; [right; by rewrite lookup_insert_eq, Hu|].
    left. by rewrite lookup_delete_ne.
  - intros u o Ho. rewrite lookup_insert_ne; [done|]. congruence.
  - intros u r _ Hfl. destruct (decide (uid = u)) as [->|]; [right; left; by rewrite lookup_insert_eq|].
    left. by rewrite lookup_delete_ne.
Qed.

Lemma cinv_upsert uid ref c :
  cinv limit c -> room (cl_state c) -> was_bound c uid ref ->
  cinv limit (with_state c (upsertCount (cl_state c) uid ref)).
Proof.
  intros Hi Hroom Hb. pose proof (room_fits _ Hroom) as Hf. pose proof (ci_wf _ _ Hi) as Hw.
  assert (Hp : pods (snap (upsertCount (cl_state c) uid ref)) = <[uid := ref]> (pods (snap (cl_state c)))).
  { unfold upsertCount. rewrite clone_id. apply pods_applyCount. }
  apply cinv_state; [done| | | | |by apply resv_from_sub].
  - unfold upsertCount. rewrite clone_id. cbn [snap]. auto with go.
  - intros u ref' Hbu [Hpu|Hr]; [|by right]. left. rewrite Hp.
    destruct (decide (uid = u)) as [->|Hne]; [|by rewrite lookup_insert_ne].
    rewrite lookup_insert_eq. destruct Hb as [Hb|Hg]; [congruence|].
    destruct (ci_bound _ _ Hi u ref' Hbu) as (_ & ? & _). congruence.
  - intros u r _ Hr. by exists r.
  - intros u ref' Hu. rewrite Hp in Hu. apply lookup_insert_Some in Hu as [[<- <-]|[_ Hu]]; [done|].
    by apply (ci_pods _ _ Hi).
Qed.

(** A bound pod may be uncounted while its reservation stands: it keeps the seat. *)
Lemma cinv_remove uid c :
  cinv limit c -> room (cl_state c) -> cl_bound c !! uid = None \/ is_Some (resv (cl_state c) !! uid) ->
  cinv limit (with_state c (removeCount (cl_state c) uid)).
Proof.
  intros Hi Hroom Hb. pose proof (room_fits _ Hroom) as Hf. pose proof (ci_wf _ _ Hi) as Hw.
  assert (Hp : pods (snap (removeCount (cl_state c) uid)) = delete uid (pods (snap (cl_state c)))).
  { unfold removeCount. rewrite clone_id. apply pods_unapplyCount. }
  apply cinv_state; [done| | | | |by apply resv_from_sub].
  - unfold removeCount. rewrite clone_id. cbn [snap]. auto with go.
  - intros u ref' Hbu [Hpu|Hr]; [|by right]. destruct (decide (uid = u)) as [->|Hne].
    + right. destruct Hb as [?|[r Hr]]; [congruence|]. exists r. split; [done|]. by apply (ci_seat _ _ Hi u).
    + left. by rewrite Hp, lookup_delete_ne.
  - intros u r _ Hr. by exists r.
  - intros u ref' Hu. rewrite Hp in Hu. apply lookup_delete_Some in Hu as [_ Hu]. by apply (ci_pods _ _ Hi).
Qed.

Lemma cinv_release uid c pc :
  cinv limit c ->
  cinv limit (Cluster (releaseIfObserved (cl_state c) uid) (cl_bound c) (cl_inflight c) (cl_gone c) pc).
Proof.
  intros Hi. pose proof (releaseIfObserved_snap (cl_state c) uid) as Hs.
  apply cinv_state; [done|rewrite Hs; apply (ci_wf _ _ Hi)| | |rewrite Hs; apply (ci_pods _ _ Hi)|
    apply releaseIfObserved_from].
  - intros u ref Hbu Hc.
    destruct (releaseIfObserved_lookup (cl_state c) uid u) as [Hr|(-> & _ & ref' & r & Hp & _)].
    + by apply (covered_resv (cl_state c)).
    + left. rewrite Hs, Hp. destruct (ci_pods _ _ Hi uid ref' Hp) as [?|Hg]; [congruence|].
      destruct (ci_bound _ _ Hi uid ref Hbu) as (_ & ? & _). congruence.
  - intros u r Hf Hr.
    destruct (releaseIfObserved_lookup (cl_state c) uid u) as [->|(-> & _ & ref' & r' & Hp & _)]; [by exists r|].
    destruct Hf as [ref Hf]. destruct (ci_inflight _ _ Hi uid ref Hf) as (Hg & _).
    destruct (ci_pods _ _ Hi uid ref' Hp) as [Hb|?]; [|congruence].
    destruct (ci_bound _ _ Hi uid ref' Hb) as (? & _). congruence.
Qed.

Lemma cinv_drop uid c :
  cinv limit c -> is_Some (cl_gone c !! uid) -> cinv limit (with_state c (drop_reservation uid (cl_state c))).
Proof.
  intros Hi [o Hg]. apply cinv_shrink; try done.
  - apply resv_from_sub. intros u r Hr. simpl in Hr. by apply lookup_delete_Some in Hr as [_ ?].
  - intros u ref Hu. destruct (ci_bound _ _ Hi u ref Hu) as (_ & ? & _).
    split; [done|]. split; [done|]. simpl. rewrite lookup_delete_ne; [done|]. congruence.
  - intros u ref Hu. destruct (ci_inflight _ _ Hi u ref Hu) as (? & _).
    split; [done|]. split; [done|]. simpl. rewrite lookup_delete_ne; [done|]. congruence.
  - by left.
  - by left.
Qed.

Lemma cinv_rebuild counts c pc :
  cinv limit c -> fits counts -> sound_list c counts -> complete_list c counts ->
  cinv limit (Cluster (rebuild (cl_state c) counts) (cl_bound c) (cl_inflight c) (cl_gone c) pc).
Proof.
  intros Hi Hf Hsound Hcomp. pose proof (rebuild_pods (cl_state c) counts Hf) as Hp.
  apply cinv_state; [done|by apply rebuild_wf| | | |by apply resv_from_sub].
  - intros u ref Hb _. left. rewrite Hp. by apply Hcomp.
  - intros u r _ Hr. by exists r.
  - intros u ref Hu. rewrite Hp in Hu. by apply Hsound.
Qed.

(** The janitor's blind release: the pod is not in flight, and if it is bound the
    reservation the janitor has seen is not the one that covers it. *)
Lemma cinv_janitor_release uid node c pc :
  cinv limit c -> settled c uid ->
  (forall r, resv (cl_state c) !! uid = Some r -> rv_NodeName r = node) ->
  (forall ref, cl_bound c !! uid = Some ref -> ref_NodeName ref <> node) ->
  cinv limit (Cluster (releaseUnverified (cl_state c) uid) (cl_bound c) (cl_inflight c) (cl_gone c) pc).
Proof.
  intros Hi [Hfl _] Hres Hnode. rewrite releaseUnverified_eq.
  apply cinv_state; [done|apply (ci_wf _ _ Hi)| | |apply (ci_pods _ _ Hi)|].
  - intros u ref Hb [Hp|(r & Hr & <-)]; [by left|right]. exists r. split; [|done]. simpl.
    rewrite lookup_delete_ne; [done|]. intros ->. by apply (Hnode _ Hb), Hres.
  - intros u r [ref Hu] Hr. exists r. split; [|done]. simpl.
    rewrite lookup_delete_ne; [done|]. congruence.
  - apply resv_from_sub. intros u r Hr. simpl in Hr. by apply lookup_delete_Some in Hr as [_ ?].
Qed.

(** ** The invariant is kept: what the janitor remembers *)

(** Steps of others keep what the janitor has found out. *)
Record jmono (c c' : cluster) : Prop := {
  jm_pc : cl_janitor c' = cl_janitor c;
  jm_settled : forall uid, settled c uid -> settled c' uid;
  jm_bound : forall uid ref, settled c uid -> cl_bound c' !! uid = Some ref -> cl_bound c !! uid = Some ref;
  jm_was : forall uid ref, was_bound c uid ref -> was_bound c' uid ref;
  jm_resv : forall uid r', settled c uid -> resv (cl_state c') !! uid = Some r' ->
    exists r, resv (cl_state c) !! uid = Some r /\ rv_NodeName r' = rv_NodeName r;
}.

Lemma jlist_mono c c' counts uids : jmono c c' -> jlist c counts uids -> jlist c' counts uids.
Proof.
  intros Hm [Hf Hs Hn Hset Hb]. split; [done| |done| |].
  - intros uid ref Hu. by apply (jm_was _ _ Hm), Hs.
  - intros uid Hu. by apply (jm_settled _ _ Hm), Hset.
  - intros uid ref Hu Hbu. apply Hb; [done|]. apply (jm_bound _ _ Hm); auto.
Qed.

Lemma jinv_mono c c' : jmono c c' -> jinv c -> jinv c'.
Proof.
  intros Hm. unfold jinv. rewrite (jm_pc _ _ Hm). destruct (cl_janitor c); try done.
  - intros [Hn Hs]. split; [done|]. intros uid Hu. by apply (jm_settled _ _ Hm), Hs.
  - by apply jlist_mono.
  - intros [Hl Hr]. split; [by eapply jlist_mono|]. intros r' Hr'.
    destruct (jm_resv _ _ Hm uid r') as (r & Hr0 & ->); [|done|by apply Hr].
    apply (jl_settled _ _ _ Hl). set_solver.
  - by apply jlist_mono.
  - by apply jlist_mono.
Qed.

(** A step on the counting state alone keeps every left-behind reservation. *)
Lemma jmono_state c s' :
  resv_from (cl_state c) s' ->
  (forall uid r, resv (cl_state c) !! uid = Some r -> rv_Phase r = resvBoundObs ->
     is_Some (resv s' !! uid) \/ is_Some (cl_bound c !! uid) \/ is_Some (cl_gone c !! uid)) ->
  jmono c (with_state c s').
Proof.
  intros Hfrom Hkeep. split; try done.
  - intros uid [Hfl [?|[?|(r & Hr & Hp)]]]; (split; [done|]); auto.
    destruct (Hkeep uid r Hr Hp) as [[r' Hr']|[?|?]]; auto. right; right. exists r'. split; [done|].
    destruct (Hfrom uid r' Hr') as (r0 & Hr0 & _ & Hph). simplify_eq. by apply Hph.
  - intros uid r' _ Hr'. destruct (Hfrom uid r' Hr') as (r & Hr & Href & _). exists r. split; [done|].
    by injection Href.
Qed.

Lemma jmono_reserve c s' uid ref :
  cl_bound c !! uid = None -> cl_gone c !! uid = None -> resv (cl_state c) !! uid = None ->
  (forall u, u <> uid -> resv s' !! u = resv (cl_state c) !! u) ->
  jmono c (after_reserve c s' uid ref).
Proof.
  intros Hb Hg Hr Hs'.
  assert (Hne : forall u, settled c u -> u <> uid).
  { intros u [_ [[? ?]|[[? ?]|(r & ? & _)]]] ->; congruence. }
  split; try done.
  - intros u Hu. pose proof (Hne u Hu) as Hne'. destruct Hu as [Hf Hc]. split; simpl.
    + by rewrite lookup_insert_ne.
    + by rewrite Hs'.
  - intros u r' Hu Hr'. rewrite <- Hs' by auto. by exists r'.
Qed.

Lemma jmono_bind c uid ref :
  cinv limit c -> cl_inflight c !! uid = Some ref ->
  jmono c (Cluster (cl_state c) (<[uid := ref]> (cl_bound c)) (delete uid (cl_inflight c)) (cl_gone c) (cl_janitor c)).
Proof.
  intros Hi Hf. assert (Hb : cl_bound c !! uid = None) by (apply inflight_unbound; [done|by exists ref]).
  assert (Hne : forall u, settled c u -> uid <> u) by (intros u [? _] ->; congruence).
  split; try done; simpl.
  - intros u Hu. pose proof (Hne u Hu). destruct Hu as [Hfl Hc]. split; simpl.
    + by rewrite lookup_delete_ne.
    + by rewrite lookup_insert_ne.
  - intros u r Hu. rewrite lookup_insert_ne by auto. done.
  - intros u r [Hb'|?]; [left|by right]. simpl. rewrite lookup_insert_ne by congruence. done.
  - intros u r Hu Hr. by exists r.
Qed.

Lemma jmono_unreserve c pod :
  cl_bound c !! pod_UID pod = None ->
  jmono c (Cluster (pl_Unreserve (cl_state c) pod) (cl_bound c) (delete (pod_UID pod) (cl_inflight c))
                   (cl_gone c) (cl_janitor c)).
Proof.
  intros Hb. unfold pl_Unreserve. split; try done; simpl.
  - intros u [Hf Hc]. split; simpl.
    + destruct (decide (pod_UID pod = u)) as [<-|]; [apply lookup_delete_eq|by rewrite lookup_delete_ne].
    + destruct Hc as [?|[?|(r & Hr & Hp)]]; auto. right; right. exists r. split; [by apply Unreserve_keeps|done].
  - intros u r' _ Hr'. exists r'. split; [|done]. destruct (decide (u = pod_UID pod)) as [->|Hne].
    + by apply Unreserve_left in Hr' as [? _].
    + by rewrite Unreserve_lookup in Hr'.
Qed.

Lemma jmono_gone c uid :
  cinv limit c -> cl_gone c !! uid = None ->
  jmono c (Cluster (cl_state c) (delete uid (cl_bound c)) (delete uid (cl_inflight c))
                   (<[uid := cl_bound c !! uid]> (cl_gone c)) (cl_janitor c)).
Proof.
  intros Hi Hg. split; try done; simpl.
  - intros u [Hf Hc]. split; simpl.
    + destruct (decide (uid = u)) as [<-|]; [apply lookup_delete_eq|by rewrite lookup_delete_ne].
    + destruct (decide (uid = u)) as [<-|]; [right; left; by rewrite lookup_insert_eq|].
      by rewrite lookup_delete_ne, lookup_insert_ne.
  - intros u r _ Hb. by apply lookup_delete_Some in Hb as [_ ?].
  - intros u ref [Hb|Hg']; unfold was_bound; simpl.
    + destruct (decide (uid = u)) as [->|]; [right; by rewrite lookup_insert_eq, Hb|].
      left. by rewrite lookup_delete_ne.
    + right. rewrite lookup_insert_ne; [done|]. congruence.
  - intros u r Hu Hr. by exists r.
Qed.

Lemma jmono_release c uid : cinv limit c -> jmono c (with_state c (releaseIfObserved (cl_state c) uid)).
Proof.
  intros Hi. apply jmono_state; [apply releaseIfObserved_from|]. intros u r Hr _.
  destruct (releaseIfObserved_lookup (cl_state c) uid u) as [E|(_ & _ & ref & _ & Hp & _)].
  - left. exists r. by rewrite E.
  - right. destruct (ci_pods _ _ Hi u ref Hp); [left|right]; by eexists.
Qed.

Lemma jmono_drop c uid : is_Some (cl_gone c !! uid) -> jmono c (with_state c (drop_reservation uid (cl_state c))).
Proof.
  intros Hg. apply jmono_state.
  - apply resv_from_sub. intros u r Hr. simpl in Hr. by apply lookup_delete_Some in Hr as [_ ?].
  - intros u r Hr _. destruct (decide (uid = u)) as [<-|Hne]; [by right; right|]. left. exists r. simpl.
    by rewrite lookup_delete_ne.
Qed.

Lemma jmono_same_resv c s' : resv s' = resv (cl_state c) -> jmono c (with_state c s').
Proof.
  intros E. apply jmono_state; [apply resv_from_sub; by rewrite E|]. intros u r Hr _. left. exists r. by rewrite E.
Qed.

(** ** The janitor's own steps *)

Lemma scan_settled c now ttl l uid :
  cinv limit c -> enumerates l (resv (cl_state c)) -> no_inflight_expired c now ttl ->
  uid ∈ expired_uids now ttl l -> settled c uid.
Proof.
  intros Hi Hl Hpat Hu. apply (expired_elem now ttl l _ uid Hl) in Hu as (r & Hr & He).
  assert (Hfl : cl_inflight c !! uid = None).
  { destruct (cl_inflight c !! uid) eqn:E; [|done]. rewrite (Hpat uid r) in He; [done|by eexists|done]. }
  split; [done|]. destruct (ci_phase _ _ Hi uid r Hr) as [[? ?]|[?|[?|?]]]; [congruence|auto..|].
  right; right. by exists r.
Qed.

Lemma jlist_tail c counts uid rest : jlist c counts (uid :: rest) -> jlist c counts rest.
Proof.
  intros [Hf Hs Hn Hset Hb]. apply NoDup_cons in Hn as [_ Hn].
  split; [done|done|done| |]; intros; [apply Hset|apply Hb]; set_solver.
Qed.

(** Dropping the reservation of one UID changes nothing for the others. *)
Lemma jlist_drop c counts uid rest pc :
  jlist c counts (uid :: rest) ->
  jlist (Cluster (releaseUnverified (cl_state c) uid) (cl_bound c) (cl_inflight c) (cl_gone c) pc) counts rest.
Proof.
  intros Hl. destruct (jlist_tail _ _ _ _ Hl) as [Hf Hs Hn Hset Hb].
  pose proof (jl_nodup _ _ _ Hl) as Hnd. apply NoDup_cons in Hnd as [Hu _].
  split; [done|done|done| |done]. intros u Hin. destruct (Hset u Hin) as [Hfl Hc]. split; [done|]. simpl.
  destruct Hc as [?|[?|(r & Hr & Hp)]]; auto. right; right. exists r. split; [|done].
  rewrite releaseUnverified_eq. simpl. rewrite lookup_delete_ne; [done|]. intros ->. done.
Qed.

(** The list is kept by a step of the janitor that only changes the snapshot or
    releases an observed reservation. *)
Lemma jlist_step c counts uids s' pc :
  jmono c (with_state c s') -> jlist c counts uids ->
  jlist (Cluster s' (cl_bound c) (cl_inflight c) (cl_gone c) pc) counts uids.
Proof. intros Hm Hl. apply (jlist_mono _ _ _ _ Hm) in Hl. by destruct Hl. Qed.

Definition inv (c : cluster) : Prop := cinv limit c /\ jinv c.

Lemma cinv_pc c pc : cinv limit c -> cinv limit (Cluster (cl_state c) (cl_bound c) (cl_inflight c) (cl_gone c) pc).
Proof. by intros []. Qed.

Lemma jlist_pc c counts uids pc :
  jlist c counts uids -> jlist (Cluster (cl_state c) (cl_bound c) (cl_inflight c) (cl_gone c) pc) counts uids.
Proof. by intros []. Qed.

(** The branch that has found the seat free, or the rebuild. *)
Lemma inv_verify c counts uid node rest :
  inv c -> cl_janitor c = J_verify counts uid node rest ->
  (bound_there counts uid node = true -> complete_list c counts) ->
  inv (if bound_there counts uid node
       then Cluster (rebuild (cl_state c) counts) (cl_bound c) (cl_inflight c) (cl_gone c) (J_release counts uid rest)
       else Cluster (releaseUnverified (cl_state c) uid) (cl_bound c) (cl_inflight c) (cl_gone c) (J_look counts rest)).
Proof.
  intros [Hi Hj] Hpc Hcomp. unfold jinv in Hj. rewrite Hpc in Hj. destruct Hj as [Hl Hres].
  destruct (bound_there counts uid node) eqn:Hbt; (split; [|unfold jinv; simpl]).
  - apply cinv_rebuild; [done|apply (jl_fits _ _ _ Hl)|apply (jl_sound _ _ _ Hl)|by apply Hcomp].
  - apply (jlist_step c); [by apply jmono_same_resv|by eapply jlist_tail].
  - apply (cinv_janitor_release uid node); [done| |done|].
    + apply (jl_settled _ _ _ Hl). set_solver.
    + intros ref Hb Hn. unfold bound_there in Hbt.
      rewrite (jl_bound _ _ _ Hl uid ref) in Hbt by (done || set_solver).
      apply bool_decide_eq_false in Hbt. done.
  - by apply jlist_drop.
Qed.

Lemma inv_janitor now ttl l src pc s' al c :
  inv c -> enumerates l (resv (cl_state c)) -> janitor_ok true true c now ttl src ->
  jstep now ttl l src (cl_janitor c) (cl_state c) = (pc, s', al) ->
  inv (Cluster s' (cl_bound c) (cl_inflight c) (cl_gone c) pc).
Proof.
  intros [Hi Hj] Hl Hok Hst. unfold janitor_ok in Hok. pose proof Hj as Hj'. unfold jinv in Hj'.
  destruct (cl_janitor c) as [|ex|counts us|counts uid node rest|counts uid rest|counts uid rest|] eqn:Hpc;
    cbn [jstep] in Hst.
  - destruct (expired_uids now ttl l) as [|u us] eqn:He; injection Hst as <- <- _; (split; [by apply cinv_pc|]); [done|].
    unfold jinv. simpl. rewrite <- He. split; [by eapply NoDup_expired|]. intros uid Hu.
    apply (scan_settled c now ttl l uid); auto.
  - destruct src as [counts|e]; injection Hst as <- <- _; (split; [by apply cinv_pc|]); [|done].
    unfold jinv. simpl. apply jlist_pc. destruct (Hok counts eq_refl) as (Hf & Hs & Hc).
    destruct Hj' as [Hn Hset]. split; [done|done|done|done|]. intros uid ref _ Hb. by apply Hc.
  - destruct us as [|uid rest]; [injection Hst as <- <- _; split; [by apply cinv_pc|done]|].
    destruct (resv (cl_state c) !! uid) as [r|] eqn:Hr; injection Hst as <- <- _; (split; [by apply cinv_pc|]);
      unfold jinv; simpl.
    + split; [by apply jlist_pc|]. intros r' Hr'. congruence.
    + apply jlist_pc. by eapply jlist_tail.
  - pose proof (inv_verify c counts uid node rest (conj Hi Hj) Hpc) as Hv.
    destruct (bound_there counts uid node) eqn:Hbt; injection Hst as <- <- _; apply Hv; auto.
  - injection Hst as <- <- _. split; [by apply cinv_release|]. unfold jinv. simpl.
    apply (jlist_step c); [by apply jmono_release|done].
  - injection Hst as <- <- _. split; [by apply cinv_pc|]. unfold jinv. simpl. by apply jlist_pc.
  - injection Hst as <- <- _. split; [by apply cinv_pc|done].
Qed.

(** ** Events *)

Lemma onPodEvent_sections args pod count release :
  onPodEvent args pod = [count; release] ->
  exists ref, count = (fun s => if countablePod pod then upsertCount s (pod_UID pod) ref
                                else removeCount s (pod_UID pod)) /\
    release = (fun s => releaseIfObserved s (pod_UID pod)) /\
    (spec_SchedulerName (pod_Spec pod) = ManagedSchedulerName args ->
     forall r, PodRefFor pod (ManagedSchedulerName args) (ServiceLabelKey args) = Ok r -> ref = r).
Proof.
  unfold onPodEvent, OnPodAddOrUpdate. intros E.
  case_decide as Hn; [destruct (PodRefFor _ _ _) as [r0|e] eqn:Er|]; injection E as <- <-; eexists;
    (split; [reflexivity|]); (split; [done|]); intros Hn' r Hr; congruence.
Qed.

Lemma onPodEvent_two args pod : exists count release, onPodEvent args pod = [count; release].
Proof. unfold onPodEvent, OnPodAddOrUpdate. repeat case_match; by do 2 eexists. Qed.

(** The counting section either counts a pod that is or was bound, or uncounts one. *)
Lemma event_count timely args pod count release c :
  onPodEvent args pod = [count; release] -> event_ok timely c args pod ->
  (exists ref, count (cl_state c) = upsertCount (cl_state c) (pod_UID pod) ref /\ was_bound c (pod_UID pod) ref) \/
  (count (cl_state c) = removeCount (cl_state c) (pod_UID pod) /\
   (timely = true -> cl_bound c !! pod_UID pod = None \/ is_Some (resv (cl_state c) !! pod_UID pod))).
Proof.
  intros E Hok. destruct (onPodEvent_sections _ _ _ _ E) as (ref & -> & _ & Href). unfold event_ok in Hok.
  destruct (countablePod pod); [left|by right]. destruct Hok as (Hn & r & Hr & Hb).
  exists ref. split; [done|]. by rewrite (Href Hn r Hr).
Qed.

Lemma delete_section uid act s :
  act ∈ OnPodDelete uid -> act s = removeCount s uid \/ act s = drop_reservation uid s.
Proof. intros [-> |[-> |Hx%elem_of_nil]%elem_of_cons]%elem_of_cons; [by left|by right|done]. Qed.

(** ** Every step *)

Lemma bstep_inv c c' : bstep true true true c c' -> inv c -> inv c'.
Proof.
  intros Hst [Hi Hj]. destruct Hst.
  - split; [by apply cinv_bind|]. by eapply jinv_mono; [apply jmono_bind|].
  - split; [by apply cinv_unreserve|]. by eapply jinv_mono; [apply jmono_unreserve|].
  - split.
    + unfold PostBind. apply cinv_state; rewrite ?MarkBound_snap; [done|apply (ci_wf _ _ Hi)| | |
        apply (ci_pods _ _ Hi)|apply MarkBound_from].
      * intros u ref _. apply MarkBound_covered.
      * intros u r _. apply MarkBound_resv.
    + eapply jinv_mono; [|done]. apply jmono_state; [apply MarkBound_from|]. intros u r Hr Hp. left.
      exists r. by apply MarkBound_keeps.
  - split; [by apply cinv_gone|]. by eapply jinv_mono; [apply jmono_gone|].
  - match goal with He : onPodEvent _ _ = _, Hok : event_ok _ _ _ _ |- _ =>
      destruct (event_count _ _ _ _ _ _ He Hok) as [(ref & -> & Hb)|(-> & Hb)] end;
      (split; [|eapply jinv_mono; [by apply jmono_same_resv|done]]); [by apply cinv_upsert|apply cinv_remove; auto].
  - match goal with He : onPodEvent _ _ = _ |- _ => destruct (onPodEvent_sections _ _ _ _ He) as (_ & _ & -> & _) end.
    split; [by apply cinv_release|]. eapply jinv_mono; [|done]. by apply jmono_release.
  - match goal with Ha : _ ∈ OnPodDelete _ |- _ => destruct (delete_section _ _ (cl_state c) Ha) as [-> | ->] end.
    + split; [|eapply jinv_mono; [by apply jmono_same_resv|done]]. apply cinv_remove; [done|done|left].
      by apply gone_unbound.
    + split; [by apply cinv_drop|]. eapply jinv_mono; [|done]. by apply jmono_drop.
  - match goal with Hok : list_ok _ _ _ |- _ => destruct Hok as (Hf & Hs & Hc) end.
    split; [apply cinv_rebuild; auto|]. eapply jinv_mono; [|done]. by apply jmono_same_resv.
  - split; [by apply cinv_pc|done].
  - by eapply inv_janitor.
Qed.

Lemma reserve_resv now pl (cy : C) pod node state policy s' c :
  cinv limit c -> reserves limit now pl cy pod node state policy c s' ->
  s' = SpreadState (snap (cl_state c)) (<[pod_UID pod := new_resv now pod state node]> (resv (cl_state c))) /\
  resv (cl_state c) !! pod_UID pod = None /\
  admissible (cl_state c) policy (pf_quotaKey state) (pf_schedKey state)
    (computeStableDomain (pod_Spec pod) (d_nodes (pl_deps pl))) node.
Proof.
  intros Hi [Hs Hst Hp Hlim Hb Hg HR].
  destruct (Reserve_cases now pl (cl_state c) cy pod node state policy (ci_wf _ _ Hi) Hs Hst Hp)
    as [[(_ & Hu & Hok) HR']|[_ (st & HR' & Hst')]]; rewrite HR' in HR; [|by injection HR as -> _].
  by injection HR as <-.
Qed.

Lemma cstep_inv c c' : cstep (C := C) limit true true true c c' -> inv c -> inv c'.
Proof.
  intros [now pl cy pod node state policy s' c0 Hres|c0 c1 Hst] [Hi Hj]; [|by eapply bstep_inv].
  split; [by eapply cinv_reserve|]. eapply jinv_mono; [|done].
  destruct (reserve_resv _ _ _ _ _ _ _ _ _ Hi Hres) as (-> & Hr & _).
  apply jmono_reserve; [apply Hres|apply Hres|done|]. intros u Hu. simpl. by rewrite lookup_insert_ne.
Qed.

Lemma inv_init : (forall q, 0 <= limit q) -> inv init_cluster.
Proof. intros Hlim. by split; [split|]. Qed.

Lemma creachable_inv c :
  (forall q, 0 <= limit q) -> creachable (C := C) limit true true true c -> inv c.
Proof.
  intros Hlim Hr. pose proof (inv_init Hlim) as Hinit. unfold creachable in Hr. revert Hinit.
  induction Hr as [|c1 c2 c3 Hst _ IH]; [done|]. intros Hi. apply IH. by eapply cstep_inv.
Qed.

End safety.

(** ** Theorems *)

(** C1: the hard cap.  In every state the cluster can reach no node runs more pods of a
    service than [limit], and the effective count is never below the number of bound
    pods, under any interleaving of scheduling cycles, bindings, deletions, the critical
    sections of [onPodEvent] and [OnPodDelete], of the janitor's pass and of the
    reconciler.  The conditions are: every counted pod was
    placed by this scheduler and keeps its labels and UID; no policy of a service ever
    has a maxPodsPerNode above its limit (policies may change, and be stale when a
    Reserve uses them); Reserve is not called for a bound or gone pod, nor Unreserve
    for a bound one; the pods fit an int32;
    no scan of the janitor finds the expired reservation of a pod that is still being
    bound (the first true); a list names only pods that are or were bound, and every pod
    bound when it is read and when it replaces the snapshot (the second); and an event
    for an object that has no node yet, of a pod that is bound by now, is processed
    while the pod's reservation stands, so not after a rebuild that was ahead of the
    handlers has counted the pod and let go of it (the third).  The last three are
    necessary: [janitor_breaks_cap], [stale_rebuild_breaks_cap], [late_event_breaks_cap]. *)
Theorem hard_cap `{KubeLib} {C : Type} `{CycleStore C} limit c :
  (forall q, 0 <= limit q) -> creachable (C := C) limit true true true c ->
  forall n q, bound_on c n q <= limit q /\ bound_on c n q <= quota_on (cl_state c) n q.
Proof.
  intros Hlim Hr n q. destruct (creachable_inv limit c Hlim Hr) as [Hi _].
  assert (Hsub : bound_on c n q <= count_if (ref_at ref_QuotaKey n q) (occupied c)).
  { apply count_if_subseteq, map_union_subseteq_l. }
  pose proof (ci_cap _ _ Hi n q). pose proof (occupied_count limit c n q Hi). lia.
Qed.

(** One service, one pod per node. *)
Definition tr_policy : ServiceSpreadPolicy :=
  Policy "ssp-x" "ns" (PolicySpec DefaultManagedSchedulerName (MkSelector {[ "svc" := "app" ]} []) 1 1).
Definition tr_pf : preFilterState :=
  PreFilterState ex_quotaKey ex_schedKey (Some tr_policy) {["n1"; "n2"]} 0 ∅ ∅.
Definition tr_cycle : gmap string StateData := {[ preFilterStateKey := DPreFilter (Some tr_pf) ]}.
Definition tr_plugin : ServiceSpread := ex_plugin true [tr_policy].
Definition tr_pod (uid : string) : Pod := fx_pod uid "" "app" "Pending".
Definition tr_ref : podRef := PodRef ex_quotaKey ex_schedKey "n1".
Definition tr_resv (uid : string) : reservation :=
  Reservation uid ex_quotaKey ex_schedKey "n1" resvReserved 0.
Definition tr_limit (q : string) : Z := 1.

Lemma tr_reserve patient complete timely uid s b f pc :
  Reserve 0 tr_plugin s tr_cycle (tr_pod uid) "n1"
    = Val (success, SpreadState (snap s) (<[uid := tr_resv uid]> (resv s))) ->
  small s -> b !! uid = None ->
  cstep (C := gmap string StateData) tr_limit patient complete timely (Cluster s b f ∅ pc)
    (Cluster (SpreadState (snap s) (<[uid := tr_resv uid]> (resv s))) b (<[uid := tr_ref]> f) ∅ pc).
Proof.
  intros HR Hs Hb.
  apply (cs_reserve tr_limit patient complete timely 0 tr_plugin tr_cycle (tr_pod uid) "n1" tr_pf tr_policy).
  by split.
Qed.

(** The cluster after the first pod's Reserve. *)
Definition tr_one (rs : gmap string reservation) (b f : gmap string podRef) (pc : jpc) : cluster :=
  Cluster (SpreadState emptySnapshot rs) b f ∅ pc.

Lemma tr_first patient complete timely :
  cstep (C := gmap string StateData) tr_limit patient complete timely init_cluster
    (tr_one (<["u1" := tr_resv "u1"]> ∅) ∅ (<["u1" := tr_ref]> ∅) J_done).
Proof. apply (tr_reserve patient complete timely "u1" newSpreadState); vm_compute; reflexivity. Qed.

(** From an empty counting state the second pod is admitted and bound beside the first. *)
Lemma tr_second patient complete timely b f :
  b !! "u2" = None ->
  rtc (cstep (C := gmap string StateData) tr_limit patient complete timely) (tr_one ∅ b f J_done)
    (tr_one (<["u2" := tr_resv "u2"]> ∅) (<["u2" := tr_ref]> b) (delete "u2" (<["u2" := tr_ref]> f)) J_done).
Proof.
  intros Hb. eapply rtc_l; [|eapply rtc_l; [|apply rtc_refl]].
  - apply (tr_reserve patient complete timely "u2" newSpreadState); [vm_compute; reflexivity..|done].
  - apply cs_background, bs_bind. apply lookup_insert_eq.
Qed.

Lemma tr_janitor patient complete timely now ttl src s s' b f pc pc' al :
  janitor_ok patient complete (Cluster s b f ∅ pc) now ttl src ->
  jstep now ttl (map_to_list (resv s)) src pc s = (pc', s', al) ->
  cstep (C := gmap string StateData) tr_limit patient complete timely (Cluster s b f ∅ pc) (Cluster s' b f ∅ pc').
Proof.
  intros Hok Hst. apply cs_background.
  apply (bs_janitor patient complete timely now ttl (map_to_list (resv s)) src pc' s' al (Cluster s b f ∅ pc));
    [apply enumerates_refl|done|done].
Qed.

(** The two sections of an event. *)
Definition tr_running : Pod := fx_pod "u1" "n1" "app" "Running".

Lemma tr_event patient complete timely pod c :
  room (cl_state c) -> event_ok timely c ex_args_l pod ->
  cstep (C := gmap string StateData) tr_limit patient complete timely c
    (with_state c (run (firstn 1 (onPodEvent ex_args_l pod)) (cl_state c))).
Proof.
  intros Hr Hok. destruct (onPodEvent_two ex_args_l pod) as (count & release & E). rewrite E.
  by apply cs_background, (bs_event patient complete timely ex_args_l pod count release).
Qed.

Lemma tr_event_release patient complete timely pod c :
  cstep (C := gmap string StateData) tr_limit patient complete timely c
    (with_state c (run (skipn 1 (onPodEvent ex_args_l pod)) (cl_state c))).
Proof.
  destruct (onPodEvent_two ex_args_l pod) as (count & release & E). rewrite E.
  by apply cs_background, (bs_event_release patient complete timely ex_args_l pod count release).
Qed.

(** A pass of the impatient janitor drops the reservation of a pod that no listing knows yet. *)
Lemma tr_drop b f :
  b = ∅ -> rtc (cstep (C := gmap string StateData) tr_limit false true true)
    (tr_one (<["u1" := tr_resv "u1"]> ∅) b f J_done) (tr_one ∅ b f J_done).
Proof.
  intros ->. eapply rtc_l; [by apply cs_background, bs_tick|].
  set (s1 := SpreadState emptySnapshot (<["u1" := tr_resv "u1"]> ∅)).
  eapply rtc_l; [apply (tr_janitor _ _ _ (5 * Minute) (5 * Minute) (Ok ∅) s1 s1 _ _ _ (J_list ["u1"]) []);
    [discriminate|vm_compute; reflexivity]|].
  eapply rtc_l; [apply (tr_janitor _ _ _ 0 0 (Ok ∅) s1 s1 _ _ _ (J_look ∅ ["u1"]) []); [|reflexivity]|].
  { intros counts [= <-]. split; [exact fits_empty|]. by split. }
  eapply rtc_l; [apply (tr_janitor _ _ _ 0 0 (Ok ∅) s1 s1 _ _ _ (J_verify ∅ "u1" "n1" []) []);
    [done|vm_compute; reflexivity]|].
  eapply rtc_l; [apply (tr_janitor _ _ _ 0 0 (Ok ∅) s1 newSpreadState _ _ _ (J_look ∅ []) []);
    [by intros _ _ ? ?|vm_compute; reflexivity]|].
  eapply rtc_l; [apply (tr_janitor _ _ _ 0 0 (Ok ∅) newSpreadState newSpreadState _ _ _ J_done []); [done|reflexivity]|].
  apply rtc_refl.
Qed.

(** An impatient janitor breaks the cap.  If a reservation may expire while its
    pod is still being bound (a binding slower than the TTL), then even with
    complete lists a state is reachable in which two pods of a service with
    maxPodsPerNode 1 are bound to the same node: the janitor frees the first pod's
    seat, the second is admitted, and both bindings succeed. *)
Theorem janitor_breaks_cap :
  exists c, creachable (C := gmap string StateData) tr_limit false true true c /\
    bound_on c "n1" ex_quotaKey = 2 /\ tr_limit ex_quotaKey = 1.
Proof.
  exists (tr_one (<["u2" := tr_resv "u2"]> ∅) (<["u1" := tr_ref]> (<["u2" := tr_ref]> ∅))
     (delete "u1" (delete "u2" (<["u2" := tr_ref]> (<["u1" := tr_ref]> ∅)))) J_done).
  split; [|split; [vm_compute; reflexivity|reflexivity]].
  eapply rtc_l; [apply tr_first|]. etransitivity; [by apply tr_drop|].
  etransitivity; [apply (tr_second false true true ∅ (<["u1" := tr_ref]> ∅)); apply lookup_empty|].
  eapply rtc_l; [|apply rtc_refl]. apply cs_background.
  apply (bs_bind false true true "u1" tr_ref (tr_one _ _ _ _)). vm_compute. reflexivity.
Qed.

(** A stale list breaks the cap.  If a rebuild may use a list taken before a
    binding became visible, then even with a patient janitor a state is reachable
    in which two pods of a service with maxPodsPerNode 1 are bound to the same
    node: the pod's event has counted it and released its reservation, the rebuild
    from the older list uncounts it, and the second pod is admitted. *)
Theorem stale_rebuild_breaks_cap :
  exists c, creachable (C := gmap string StateData) tr_limit true false true c /\
    bound_on c "n1" ex_quotaKey = 2 /\ tr_limit ex_quotaKey = 1.
Proof.
  exists (tr_one (<["u2" := tr_resv "u2"]> ∅) (<["u2" := tr_ref]> (<["u1" := tr_ref]> ∅))
     (delete "u2" (<["u2" := tr_ref]> (delete "u1" (<["u1" := tr_ref]> ∅)))) J_done).
  split; [|split; [vm_compute; reflexivity|reflexivity]].
  eapply rtc_l; [apply tr_first|]. eapply rtc_l.
  { apply cs_background, (bs_bind true false true "u1" tr_ref (tr_one _ _ _ _)). apply lookup_insert_eq. }
  eapply rtc_l; [apply (tr_event true false true tr_running); [vm_compute; reflexivity|]|].
  { split; [reflexivity|]. exists tr_ref. split; [vm_compute; reflexivity|]. left. apply lookup_insert_eq. }
  eapply rtc_l; [apply (tr_event_release true false true tr_running)|].
  eapply rtc_l.
  { apply cs_background, (bs_reconcile true false true ∅). split; [exact fits_empty|]. split; [|discriminate].
    intros u ref Hu. by rewrite lookup_empty in Hu. }
  match goal with |- rtc _ ?x _ => assert (E : x = tr_one ∅ (<["u1" := tr_ref]> ∅)
      (delete "u1" (<["u1" := tr_ref]> ∅)) J_done) by (unfold with_state, tr_one; f_equal; vm_compute; reflexivity) end.
  rewrite E. apply (tr_second true false true). vm_compute. reflexivity.
Qed.

(** A late event breaks the cap.  The rebuild reads the lister, which is ahead of the
    handlers.  If it has counted a bound pod whose handlers are still at objects
    without a node, the first of these events releases the reservation and the second
    uncounts the pod: with a patient janitor and complete lists a state is reachable
    in which two pods of a service with maxPodsPerNode 1 are bound to the same node. *)
Theorem late_event_breaks_cap :
  exists c, creachable (C := gmap string StateData) tr_limit true true false c /\
    bound_on c "n1" ex_quotaKey = 2 /\ tr_limit ex_quotaKey = 1.
Proof.
  exists (tr_one (<["u2" := tr_resv "u2"]> ∅) (<["u2" := tr_ref]> (<["u1" := tr_ref]> ∅))
     (delete "u2" (<["u2" := tr_ref]> (delete "u1" (<["u1" := tr_ref]> ∅)))) J_done).
  split; [|split; [vm_compute; reflexivity|reflexivity]].
  eapply rtc_l; [apply tr_first|]. eapply rtc_l.
  { apply cs_background, (bs_bind true true false "u1" tr_ref (tr_one _ _ _ _)). apply lookup_insert_eq. }
  eapply rtc_l; [apply cs_background, (bs_reconcile true true false (<["u1" := tr_ref]> ∅))|].
  { split; [vm_compute; reflexivity|]. split; [by left|by intros _ u ref]. }
  eapply rtc_l; [apply (tr_event_release true true false (tr_pod "u1"))|].
  eapply rtc_l; [apply (tr_event true true false (tr_pod "u1")); [vm_compute; reflexivity|discriminate]|].
  match goal with |- rtc _ ?x _ => assert (E : x = tr_one ∅ (<["u1" := tr_ref]> ∅)
      (delete "u1" (<["u1" := tr_ref]> ∅)) J_done) by (unfold with_state, tr_one; f_equal; vm_compute; reflexivity) end.
  rewrite E. apply (tr_second true true false). vm_compute. reflexivity.
Qed.

Lemma hard_cap_witness :
  let c := tr_one (<["u1" := tr_resv "u1"]> ∅) (<["u1" := tr_ref]> ∅)
             (delete "u1" (<["u1" := tr_ref]> ∅)) J_scan in
  bound_on c "n1" ex_quotaKey = 1 /\ bound_on c "n1" ex_quotaKey <= tr_limit ex_quotaKey.
Proof.
  intros c. split; [vm_compute; reflexivity|].
  assert (Hr : creachable (C := gmap string StateData) tr_limit true true true c).
  { eapply rtc_l; [apply tr_first|]. eapply rtc_l; [|eapply rtc_l; [|apply rtc_refl]].
    - apply cs_background, (bs_bind true true true "u1" tr_ref (tr_one _ _ _ _)). apply lookup_insert_eq.
    - apply cs_background. by apply (bs_tick true true true (tr_one _ _ _ _)). }
  assert (Hl : forall q, 0 <= tr_limit q) by (intros q; unfold tr_limit; lia).
  exact (proj1 (hard_cap tr_limit c Hl Hr "n1" ex_quotaKey)).
Defined.
