(* ===== verification/Restart.v ===== *)
(** * Restarts of the scheduler (internal/spread/plugins_api.go, state.go)

    The counting state lives in the process: [depsFromHandle] builds an empty one.  A
    restart, a failover or the first start therefore meets a cluster whose bound pods
    are not counted until the informer's handlers have delivered them, and forgets
    every reservation.  Here the protocol's steps are joined by restarts; a run also
    says whether the bound pods have been delivered since the last one. *)

From S2P Require Import Prelude GoStd Kube Fixtures State Keys Domain Api Plugin Lifecycle Janitor Protocol.

(** The new process; [late] are the bindings that were sent by the old one and still
    take effect. *)
Definition restarted (c : cluster) (late : gmap string podRef) : cluster :=
  Cluster newSpreadState (cl_bound c ∪ late) ∅ (cl_gone c) J_done.

(** The handlers have counted every bound pod. *)
Definition delivered (c : cluster) : Prop :=
  forall uid ref, cl_bound c !! uid = Some ref -> pods (snap (cl_state c)) !! uid = Some ref.

Section restarts.
Context `{KubeLib} {C : Type} `{CycleStore C}.
Variable limit : string -> Z.

(** Does Reserve wait for the handlers, or only for the informer's cache? *)
Variable waits : bool.

(** Before the delivery lists may be incomplete and events late. *)
Inductive rstep : cluster * bool -> cluster * bool -> Prop :=
| r_reserve now pl cy pod node state policy s' c w :
    (waits = true -> w = true) -> reserves (C := C) limit now pl cy pod node state policy c s' ->
    rstep (c, w) (after_reserve c s' (pod_UID pod) (placed_ref state node), w)
| r_background c c' w : bstep true w w c c' -> rstep (c, w) (c', w)
| r_restart late c w : late ⊆ cl_inflight c -> rstep (c, w) (restarted c late, false)
| r_delivered c w : delivered c -> rstep (c, w) (c, true).

(** ** Invariant *)

(** Before the delivery: nothing is reserved or in flight, what is counted is or was
    bound, and the cap holds although not every bound pod is counted. *)
Record cold (c : cluster) : Prop := {
  co_wf : snap_wf (snap (cl_state c));
  co_resv : resv (cl_state c) = ∅;
  co_inflight : cl_inflight c = ∅;
  co_bound : forall uid ref, cl_bound c !! uid = Some ref -> cl_gone c !! uid = None;
  co_pods : forall uid ref, pods (snap (cl_state c)) !! uid = Some ref -> was_bound c uid ref;
  co_janitor : cl_janitor c = J_done \/ cl_janitor c = J_scan;
  co_cap : forall n q, bound_on c n q <= limit q;
}.

Definition rinv (x : cluster * bool) : Prop := if x.2 then inv limit x.1 else cold x.1.

Lemma bound_on_cap c n q : cinv limit c -> bound_on c n q <= limit q.
Proof.
  intros Hi. etransitivity; [|apply (ci_cap _ _ Hi n q)]. apply count_if_subseteq, map_union_subseteq_l.
Qed.

Lemma cold_restarted c late : cinv limit c -> late ⊆ cl_inflight c -> cold (restarted c late).
Proof.
  intros Hi Hl. split; simpl; [apply emptySnapshot_wf|done|done| | |by left|].
  - intros uid ref Hu. apply lookup_union_Some_raw in Hu as [Hu|[_ Hu]].
    + by apply (ci_bound _ _ Hi uid ref).
    + apply (ci_inflight _ _ Hi uid ref). by eapply lookup_weaken.
  - intros uid ref Hu. by rewrite lookup_empty in Hu.
  - intros n q. etransitivity; [|apply (ci_cap _ _ Hi n q)]. apply count_if_subseteq. by apply map_union_mono_l.
Qed.

Lemma cold_again c late : cold c -> late ⊆ cl_inflight c -> cold (restarted c late).
Proof.
  intros Hc Hl. assert (late = ∅) as ->.
  { apply map_empty. intros u. destruct (late !! u) as [r|] eqn:E; [|done].
    apply (lookup_weaken _ _ _ _ E) in Hl. by rewrite (co_inflight _ Hc), lookup_empty in Hl. }
  split; simpl; [apply emptySnapshot_wf|done|done| | |by left|].
  - intros uid ref Hu. rewrite map_union_empty in Hu. by apply (co_bound _ Hc uid ref).
  - intros uid ref Hu. by rewrite lookup_empty in Hu.
  - intros n q. unfold bound_on. simpl. rewrite map_union_empty. apply (co_cap _ Hc).
Qed.

Lemma cold_delivered c : cold c -> delivered c -> inv limit c.
Proof.
  intros Hc Hd. split.
  - split; [apply (co_wf _ Hc)| | | |apply (co_pods _ Hc)| |].
    + intros uid ref Hu. rewrite (co_inflight _ Hc). split; [apply lookup_empty|].
      split; [by apply (co_bound _ Hc uid ref)|left; by apply Hd].
    + intros uid ref r _ Hu. by rewrite (co_resv _ Hc), lookup_empty in Hu.
    + intros uid ref Hu. by rewrite (co_inflight _ Hc), lookup_empty in Hu.
    + intros uid r Hu. by rewrite (co_resv _ Hc), lookup_empty in Hu.
    + intros n q. unfold occupied. rewrite (co_inflight _ Hc), map_union_empty. apply (co_cap _ Hc).
  - unfold jinv. by destruct (co_janitor _ Hc) as [-> | ->].
Qed.

(** The steps on the counting state. *)
Lemma cold_state c s' pc :
  cold c -> snap_wf (snap s') -> resv s' = ∅ ->
  (forall uid ref, pods (snap s') !! uid = Some ref -> was_bound c uid ref) ->
  pc = J_done \/ pc = J_scan ->
  cold (Cluster s' (cl_bound c) (cl_inflight c) (cl_gone c) pc).
Proof.
  intros Hc Hw Hr Hp Hpc. split; simpl; try done; [apply (co_inflight _ Hc)|apply (co_bound _ Hc)|apply (co_cap _ Hc)].
Qed.

Lemma cold_gone uid c :
  cold c -> cl_gone c !! uid = None ->
  cold (Cluster (cl_state c) (delete uid (cl_bound c)) (delete uid (cl_inflight c))
                (<[uid := cl_bound c !! uid]> (cl_gone c)) (cl_janitor c)).
Proof.
  intros Hc Hg. split; simpl; [apply (co_wf _ Hc)|apply (co_resv _ Hc)| | | |apply (co_janitor _ Hc)|].
  - rewrite (co_inflight _ Hc). apply delete_empty.
  - intros u ref Hu. apply lookup_delete_Some in Hu as [Hne Hu]. rewrite lookup_insert_ne by done.
    by apply (co_bound _ Hc u ref).
  - intros u ref Hu. unfold was_bound. simpl. destruct (co_pods _ Hc u ref Hu) as [Hb|Hgo].
    + destruct (decide (uid = u)) as [->|Hne]; [right; by rewrite lookup_insert_eq, Hb|].
      left. by rewrite lookup_delete_ne.
    + right. rewrite lookup_insert_ne; [done|]. intros ->. congruence.
  - intros n q. etransitivity; [|apply (co_cap _ Hc n q)]. apply count_if_subseteq, delete_subseteq.
Qed.

(** With nothing reserved the janitor's scan finds nothing. *)
Lemma cold_janitor now ttl l src pc s' al c :
  cold c -> enumerates l (resv (cl_state c)) ->
  jstep now ttl l src (cl_janitor c) (cl_state c) = (pc, s', al) -> pc = J_done /\ s' = cl_state c.
Proof.
  intros Hc Hl Hst. assert (Hnil : expired_uids now ttl l = []).
  { destruct (expired_uids now ttl l) as [|u us] eqn:E; [done|]. exfalso.
    destruct (proj1 (expired_elem now ttl l _ u Hl)) as (r & Hr & _); [rewrite E; left|].
    by rewrite (co_resv _ Hc), lookup_empty in Hr. }
  destruct (co_janitor _ Hc) as [Hpc|Hpc]; rewrite Hpc in Hst; cbn [jstep] in Hst; [by injection Hst as <- <- _|].
  rewrite Hnil in Hst. by injection Hst as <- <- _.
Qed.

Lemma no_resv s (f : spreadState -> spreadState) : resv_from s (f s) -> resv s = ∅ -> resv (f s) = ∅.
Proof.
  intros Hfrom Hr. apply map_empty. intros uid. destruct (resv (f s) !! uid) as [r|] eqn:E; [|done].
  destruct (Hfrom uid r E) as (r0 & Hr0 & _). by rewrite Hr, lookup_empty in Hr0.
Qed.

Lemma cold_upsert c uid ref :
  cold c -> room (cl_state c) -> was_bound c uid ref -> cold (with_state c (upsertCount (cl_state c) uid ref)).
Proof.
  intros Hc Hroom Hb. pose proof (room_fits _ Hroom). pose proof (co_wf _ Hc).
  apply cold_state; [done| |apply (co_resv _ Hc)| |apply (co_janitor _ Hc)]; unfold upsertCount; rewrite clone_id; cbn [snap].
  - auto with go.
  - intros u r Hu. rewrite pods_applyCount in Hu.
    apply lookup_insert_Some in Hu as [[<- <-]|[_ Hu]]; [done|by apply (co_pods _ Hc)].
Qed.

Lemma cold_remove c uid : cold c -> room (cl_state c) -> cold (with_state c (removeCount (cl_state c) uid)).
Proof.
  intros Hc Hroom. pose proof (room_fits _ Hroom). pose proof (co_wf _ Hc).
  apply cold_state; [done| |apply (co_resv _ Hc)| |apply (co_janitor _ Hc)]; unfold removeCount; rewrite clone_id; cbn [snap].
  - auto with go.
  - intros u r Hu. rewrite pods_unapplyCount in Hu. apply lookup_delete_Some in Hu as [_ Hu]. by apply (co_pods _ Hc).
Qed.

Lemma cold_bstep patient complete timely c c' : bstep patient complete timely c c' -> cold c -> cold c'.
Proof.
  intros Hst Hc. pose proof (co_janitor _ Hc) as Hj.
  destruct Hst as [uid ref c Hf|pod c Hb|pod c|uid c Hg|args pod count release c He Hroom Hok|args pod count release c He
    |uid act c Ha Hroom Hg|counts c [Hf [Hsound _]]|c Hd|now ttl l src pc s' al c Hl Hok Hst].
  - by rewrite (co_inflight _ Hc), lookup_empty in Hf.
  - pose proof (cold_state c (pl_Unreserve (cl_state c) pod) (cl_janitor c) Hc) as Hs.
    rewrite (co_inflight _ Hc) in *. rewrite delete_empty. unfold pl_Unreserve in *. apply Hs; [| | |done].
    + rewrite Unreserve_snap. apply (co_wf _ Hc).
    + unfold Unreserve. rewrite (co_resv _ Hc), lookup_empty. apply (co_resv _ Hc).
    + rewrite Unreserve_snap. apply (co_pods _ Hc).
  - unfold PostBind. apply cold_state; rewrite ?MarkBound_snap; try done; [apply (co_wf _ Hc)| |apply (co_pods _ Hc)].
    apply (no_resv _ (fun s => MarkBound s (pod_UID pod)) (MarkBound_from _ _)), (co_resv _ Hc).
  - by apply cold_gone.
  - destruct (event_count _ _ _ _ _ _ He Hok) as [(ref & -> & Hb)|(-> & _)]; [by apply cold_upsert|by apply cold_remove].
  - destruct (onPodEvent_sections _ _ _ _ He) as (_ & _ & -> & _).
    apply cold_state; rewrite ?releaseIfObserved_snap; try done; [apply (co_wf _ Hc)| |apply (co_pods _ Hc)].
    apply (no_resv _ (fun s => releaseIfObserved s (pod_UID pod)) (releaseIfObserved_from _ _)), (co_resv _ Hc).
  - destruct (delete_section _ _ (cl_state c) Ha) as [-> | ->]; [by apply cold_remove|].
    apply cold_state; try done; [apply (co_wf _ Hc)| |apply (co_pods _ Hc)].
    simpl. rewrite (co_resv _ Hc). apply delete_empty.
  - apply cold_state; try done; [by apply rebuild_wf|apply (co_resv _ Hc)|].
    intros u r Hu. unfold reconcile_tick in Hu. rewrite rebuild_pods in Hu by done. auto.
  - apply cold_state; auto; [apply (co_wf _ Hc)|apply (co_resv _ Hc)|apply (co_pods _ Hc)].
  - destruct (cold_janitor _ _ _ _ _ _ _ _ Hc Hl Hst) as [-> ->].
    apply cold_state; auto; [apply (co_wf _ Hc)|apply (co_resv _ Hc)|apply (co_pods _ Hc)].
Qed.

Lemma rstep_rinv x y : waits = true -> rstep x y -> rinv x -> rinv y.
Proof.
  intros Hw Hst. destruct Hst as [now pl cy pod node state policy s' c w Hgate Hres|c c' w Hst|late c w Hl|c w Hd];
    unfold rinv; simpl.
  - rewrite (Hgate Hw). intros Hi. eapply (cstep_inv limit); [by eapply cs_reserve|done].
  - destruct w; [by eapply bstep_inv|by eapply cold_bstep].
  - destruct w; [intros [Hi _]; by apply cold_restarted|intros Hc; by apply cold_again].
  - destruct w; [done|intros Hc; by apply cold_delivered].
Qed.

Lemma rreachable_inv x :
  waits = true -> (forall q, 0 <= limit q) -> rtc rstep (init_cluster, true) x -> rinv x.
Proof.
  intros Hw Hlim Hr. assert (Hinit : rinv (init_cluster, true)) by by apply inv_init.
  revert Hinit. induction Hr as [|x y z Hst _ IH]; [done|]. intros Hi. apply IH. by eapply rstep_rinv.
Qed.

Lemma bstep_loose c c' w : bstep true true true c c' -> bstep true w w c c'.
Proof.
  assert (Hlist : forall c0 counts, list_ok true c0 counts -> list_ok w c0 counts).
  { intros c0 counts (? & ? & Hc). split; [done|]. split; [done|auto]. }
  destruct 1; try by econstructor.
  - eapply bs_event; [done|done|]. unfold event_ok in *. destruct (countablePod pod); auto.
  - apply bs_reconcile; auto.
  - eapply bs_janitor; [done| |done]. unfold janitor_ok in *. destruct (cl_janitor _); auto.
Qed.

(** The protocol between two restarts. *)
Lemma rsteps_protocol c c' w :
  (waits = true -> w = true) -> rtc (cstep (C := C) limit true true true) c c' -> rtc rstep (c, w) (c', w).
Proof.
  intros Hw Hr. induction Hr as [|c1 c2 c3 Hst _ IH]; [done|]. eapply rtc_l; [|exact IH].
  destruct Hst as [now pl cy pod node state policy s' c1 Hres|c1 c2 Hst]; [|by apply r_background, bstep_loose].
  eapply r_reserve; [done|exact Hres].
Qed.

End restarts.

(** ** Theorems *)

(** C2: the hard cap across restarts.  Let the scheduler restart or fail over at any
    moments, forgetting its counts and reservations.  Then no node ever runs more pods
    of a service than the limit, also in the window in which nothing is counted yet,
    and once the bound pods are delivered the effective counts again cover all of them.
    The conditions: after each restart no Reserve succeeds before the informer's
    handlers have counted the bound pods; bindings the old process has sent, and that
    still take effect, do so by the time of the restart; and from a delivery to the
    next restart the conditions of [hard_cap] hold, the patient janitor, the sound and
    complete lists, the timely events and the others named there.  In the window
    itself lists may be incomplete and events as late as they like.  Without the first
    condition [restart_breaks_cap], without timely events [late_event_breaks_cap]. *)
Theorem hard_cap_restarts `{KubeLib} {C : Type} `{CycleStore C} limit c w :
  (forall q, 0 <= limit q) -> rtc (rstep (C := C) limit true) (init_cluster, true) (c, w) ->
  forall n q, bound_on c n q <= limit q /\ (w = true -> bound_on c n q <= quota_on (cl_state c) n q).
Proof.
  intros Hlim Hr n q. pose proof (rreachable_inv limit true (c, w) eq_refl Hlim Hr) as Hi.
  assert (Hinv : inv limit c -> bound_on c n q <= limit q /\ (w = true -> bound_on c n q <= quota_on (cl_state c) n q)).
  { intros [Hc _]. split; [by apply bound_on_cap|]. intros _.
    etransitivity; [|by apply (occupied_count limit)]. apply count_if_subseteq, map_union_subseteq_l. }
  unfold rinv in Hi. simpl in Hi. destruct w; [by apply Hinv|].
  split; [apply (co_cap _ _ Hi)|done].
Qed.

(** The first pod is reserved and bound. *)
Lemma tr_bound :
  rtc (cstep (C := gmap string StateData) tr_limit true true true) init_cluster
    (tr_one (<["u1" := tr_resv "u1"]> ∅) (<["u1" := tr_ref]> ∅) (delete "u1" (<["u1" := tr_ref]> ∅)) J_done).
Proof.
  eapply rtc_l; [apply tr_first|]. apply rtc_once, cs_background, (bs_bind true true true "u1" tr_ref (tr_one _ _ _ _)).
  apply lookup_insert_eq.
Qed.

(** A gate on the informer's cache alone breaks the cap.  The plugin discards the
    handle that AddEventHandler returns, and PreFilter waits for the informer's
    HasSynced only, which does not say that the handlers have run.  If a Reserve may
    come in that window, a restart lets a second pod onto a node whose cap is one. *)
Theorem restart_breaks_cap :
  exists c w, rtc (rstep (C := gmap string StateData) tr_limit false) (init_cluster, true) (c, w) /\
    bound_on c "n1" ex_quotaKey = 2 /\ tr_limit ex_quotaKey = 1.
Proof.
  do 2 eexists. split; [|split; [|reflexivity]].
  - etransitivity; [by apply rsteps_protocol, tr_bound|].
    eapply rtc_l; [apply (r_restart tr_limit false ∅); apply map_empty_subseteq|].
    apply (rsteps_protocol tr_limit false (tr_one ∅ ((<["u1" := tr_ref]> ∅) ∪ ∅) ∅ J_done)); [done|].
    apply (tr_second true true true). vm_compute. reflexivity.
  - vm_compute. reflexivity.
Qed.

(** The first pod is bound; the process restarts and its handler counts the pod again. *)
Lemma hard_cap_restarts_witness :
  let c := Cluster (upsertCount newSpreadState "u1" tr_ref) (<["u1" := tr_ref]> ∅ ∪ ∅) ∅ ∅ J_done in
  bound_on c "n1" ex_quotaKey <= 1 /\ quota_on (cl_state c) "n1" ex_quotaKey = 1.
Proof.
  intros c. split; [|vm_compute; reflexivity].
  refine (proj1 (hard_cap_restarts (C := gmap string StateData) tr_limit c true _ _ "n1" ex_quotaKey)).
  - intros q. unfold tr_limit. lia.
  - etransitivity; [apply rsteps_protocol; [reflexivity|apply tr_bound]|].
    eapply rtc_l; [apply (r_restart tr_limit true ∅); apply map_empty_subseteq|].
    eapply rtc_l; [apply r_background, (bs_event true false false ex_args_l tr_running
        (fun s => upsertCount s "u1" tr_ref) (fun s => releaseIfObserved s "u1"))|apply rtc_once, r_delivered].
    + reflexivity.
    + vm_compute. reflexivity.
    + split; [reflexivity|]. exists tr_ref. split; [vm_compute; reflexivity|]. left. vm_compute. reflexivity.
    + intros uid ref Hu. change (cl_bound _) with ((<["u1" := tr_ref]> ∅ : gmap string podRef) ∪ ∅) in Hu.
      rewrite map_union_empty in Hu. apply lookup_insert_Some in Hu as [[<- <-]|[_ Hu]]; [vm_compute; reflexivity|].
      rewrite lookup_empty in Hu. discriminate Hu.
Defined.
