(* ===== verification/Skew.v ===== *)
(** * The skew bound along a run (internal/spread/plugin.go, state.go)

    [hard_cap] bounds a node on its own; maxSkew compares nodes, and only Reserve
    looks at it.  Here a run of the protocol keeps a ghost log of its Reserves, and
    the theorem bounds how far two nodes can drift apart afterwards, from any moment
    of any run. *)

From S2P Require Import Prelude GoStd Kube Fixtures State Keys Domain Api Plugin Lifecycle Janitor Protocol.

(** The UID and reference of every successful Reserve, newest first. *)
Abbreviation placements := (list (string * podRef)).

(** Pods bound to the node, or being bound, under a scheduling key. *)
Definition occ (c : cluster) (n d : string) : Z := count_if (ref_at ref_SchedKey n d) (occupied c).

Definition at_key (n d : string) (e : string * podRef) : bool := ref_at ref_SchedKey n d e.2.
Definition placed (lg : placements) (n d : string) : Z := Z.of_nat (length (List.filter (at_key n d) lg)).

(** Placements that no longer take a seat: deleted, evicted or not bound after all. *)
Definition departed (c : cluster) (lg : placements) (n d : string) : Z := placed lg n d - occ c n d.

(** Pods between the two halves of their event: counted, and still reserved. *)
Definition handover (s : spreadState) (n d : string) : Z :=
  count_both (ref_at ref_SchedKey n d) (resv_at rv_SchedKey n d) (pods (snap s)) (resv s).

Section skew.
Context `{KubeLib} {C : Type} `{CycleStore C}.

(** maxSkew and the nodes that stay in the stable domain, by scheduling key; [h]
    bounds the pods of a node in handover while a Reserve looks at it. *)
Variables (limit maxSkew : string -> Z) (domain : string -> gset string) (h : Z).

(** How far the nodes may have drifted apart before. *)
Variable excess : string -> Z.

Definition slack (d : string) : Z := Z.max (maxSkew d + h) (excess d).

Inductive pstep : cluster * placements -> cluster * placements -> Prop :=
| ps_reserve now pl cy pod node state policy s' c lg :
    reserves (C := C) limit now pl cy pod node state policy c s' ->
    MaxSkew (pol_Spec policy) <= maxSkew (pf_schedKey state) ->
    domain (pf_schedKey state) ⊆ computeStableDomain (pod_Spec pod) (d_nodes (pl_deps pl)) ->
    (forall m, m ∈ domain (pf_schedKey state) -> handover (cl_state c) m (pf_schedKey state) <= h) ->
    pstep (c, lg) (after_reserve c s' (pod_UID pod) (placed_ref state node),
                   (pod_UID pod, placed_ref state node) :: lg)
| ps_background c c' lg : bstep true true true c c' -> pstep (c, lg) (c', lg).

(** ** Invariant *)

Record linv (c : cluster) (lg : placements) : Prop := {
  li_bound : forall uid ref, cl_bound c !! uid = Some ref -> (uid, ref) ∈ lg;
  li_inflight : forall uid ref, cl_inflight c !! uid = Some ref -> (uid, ref) ∈ lg;
  li_gone : forall uid ref, cl_gone c !! uid = Some (Some ref) -> (uid, ref) ∈ lg;
  li_resv : forall uid r, resv (cl_state c) !! uid = Some r -> (uid, resv_ref r) ∈ lg;
  li_skew : forall d n m, m ∈ domain d -> occ c n d <= placed lg m d + slack d;
}.

(** What a step of the background does to the cluster and the reservations. *)
Record fades (c c' : cluster) : Prop := {
  fd_bound : forall uid ref, cl_bound c' !! uid = Some ref ->
    cl_bound c !! uid = Some ref \/ cl_inflight c !! uid = Some ref;
  fd_inflight : forall uid ref, cl_inflight c' !! uid = Some ref -> cl_inflight c !! uid = Some ref;
  fd_gone : forall uid ref, cl_gone c' !! uid = Some (Some ref) -> was_bound c uid ref;
  fd_resv : resv_from (cl_state c) (cl_state c');
  fd_occ : forall p, count_if p (occupied c') <= count_if p (occupied c);
}.

Lemma fades_state c s' pc :
  resv_from (cl_state c) s' -> fades c (Cluster s' (cl_bound c) (cl_inflight c) (cl_gone c) pc).
Proof. intros Hr. split; simpl; auto; [by right|intros p; done]. Qed.

Lemma jstep_from now ttl l src pc s pc' s' al : jstep now ttl l src pc s = (pc', s', al) -> resv_from s s'.
Proof.
  assert (Hrefl : resv_from s s) by by apply resv_from_sub.
  destruct pc; cbn [jstep]; intros E; repeat case_match; simplify_eq; try done.
  - apply resv_from_sub. intros u r Hr. rewrite releaseUnverified_eq in Hr. simpl in Hr.
    by apply lookup_delete_Some in Hr as [_ ?].
  - apply releaseIfObserved_from.
Qed.

Lemma Unreserve_from s uid : resv_from s (Unreserve s uid).
Proof.
  apply resv_from_sub. intros u r Hr. destruct (decide (u = uid)) as [->|Hne].
  - by apply Unreserve_left in Hr as [? _].
  - by rewrite Unreserve_lookup in Hr.
Qed.

Lemma union_shrinks {K} `{Countable K} {V} p (b b' f f' : gmap K V) :
  b' ⊆ b -> f' ⊆ f -> (forall k, is_Some (f !! k) -> b !! k = None) -> count_if p (b' ∪ f') <= count_if p (b ∪ f).
Proof.
  intros Hb Hf Hd. apply count_if_subseteq, map_subseteq_spec. intros k v Hk.
  apply lookup_union_Some_raw in Hk as [Hk|[_ Hk]]; apply lookup_union_Some_raw.
  - left. by eapply lookup_weaken.
  - right. assert (f !! k = Some v) by by eapply lookup_weaken. split; [|done]. apply Hd. by exists v.
Qed.

Lemma bstep_fades c c' : inv limit c -> bstep true true true c c' -> fades c c'.
Proof.
  intros [Hi _] Hst.
  assert (Hd : forall k, is_Some (cl_inflight c !! k) -> cl_bound c !! k = None)
    by (intros k; by apply (inflight_unbound limit)).
  assert (Hrefl : forall s : spreadState, resv_from s s) by (intros s; by apply resv_from_sub).
  destruct Hst.
  - split; simpl; auto; [| | |intros p].
    + intros u r Hu. apply lookup_insert_Some in Hu as [[<- <-]|[_ ?]]; auto.
    + intros u r Hu. by apply lookup_delete_Some in Hu as [_ ?].
    + by right.
    + unfold occupied at 1. simpl. rewrite bind_occupied; [done|done|]. apply Hd. by exists ref.
  - split; simpl; [by left| |by right|apply Unreserve_from|intros p].
    + intros u r Hu. by apply lookup_delete_Some in Hu as [_ ?].
    + apply union_shrinks; [done|apply delete_subseteq|done].
  - apply fades_state, MarkBound_from.
  - split; simpl; auto; [| | |intros p].
    + intros u r Hu. apply lookup_delete_Some in Hu as [_ ?]. by left.
    + intros u r Hu. by apply lookup_delete_Some in Hu as [_ ?].
    + intros u r Hu. apply lookup_insert_Some in Hu as [[<- ?]|[_ ?]]; [by left|by right].
    + apply union_shrinks; [apply delete_subseteq|apply delete_subseteq|done].
  - match goal with He : onPodEvent _ _ = _, Hok : event_ok _ _ _ _ |- _ =>
      destruct (event_count _ _ _ _ _ _ He Hok) as [(ref & -> & _)|(-> & _)] end; by apply fades_state, resv_from_sub.
  - match goal with He : onPodEvent _ _ = _ |- _ => destruct (onPodEvent_sections _ _ _ _ He) as (_ & _ & -> & _) end.
    apply fades_state, releaseIfObserved_from.
  - match goal with Ha : _ ∈ OnPodDelete _ |- _ => destruct (delete_section _ _ (cl_state c) Ha) as [-> | ->] end;
      apply fades_state, resv_from_sub; [done|].
    intros u r Hr. simpl in Hr. by apply lookup_delete_Some in Hr as [_ ?].
  - by apply fades_state, resv_from_sub.
  - by apply fades_state.
  - eapply fades_state, jstep_from. done.
Qed.

Lemma linv_fades c c' lg : fades c c' -> linv c lg -> linv c' lg.
Proof.
  intros [Fb Ff Fg Fr Fo] [Lb Lf Lg Lr Ls]. split.
  - intros uid ref Hu. destruct (Fb uid ref Hu); auto.
  - intros uid ref Hu. auto.
  - intros uid ref Hu. destruct (Fg uid ref Hu); auto.
  - intros uid r' Hr'. destruct (Fr uid r' Hr') as (r & Hr & -> & _). auto.
  - intros d n m Hm. etransitivity; [apply Fo|by apply Ls].
Qed.

(** ** What the log bounds *)

Lemma at_key_log lg n d uid ref :
  (uid, ref) ∈ lg -> ref_at ref_SchedKey n d ref = true -> uid ∈ (List.filter (at_key n d) lg).*1.
Proof.
  intros Hin Hat. apply list_elem_of_fmap. exists (uid, ref). split; [done|].
  apply list_elem_of_In, List.filter_In. split; [by apply list_elem_of_In|done].
Qed.

Lemma linv_counted c lg uid ref : inv limit c -> linv c lg -> pods (snap (cl_state c)) !! uid = Some ref -> (uid, ref) ∈ lg.
Proof.
  intros [Hi _] Hl Hp. destruct (ci_pods _ _ Hi uid ref Hp); [by apply (li_bound _ _ Hl)|by apply (li_gone _ _ Hl)].
Qed.

(** The effective count of a node is at most its placements and its handovers. *)
Lemma domain_on_placed c lg m d :
  inv limit c -> linv c lg -> domain_on (cl_state c) m d <= placed lg m d + handover (cl_state c) m d.
Proof.
  intros Hi Hl. unfold domain_on, placed, handover. rewrite <- (length_fmap fst).
  apply count_both_log; intros uid x Hx Hat.
  - by eapply at_key_log; [eapply linv_counted|].
  - eapply (at_key_log _ _ _ _ (resv_ref x)); [by apply (li_resv _ _ Hl)|done].
Qed.

Lemma occ_domain_on c n d : inv limit c -> occ c n d <= domain_on (cl_state c) n d.
Proof.
  intros [Hi _]. unfold occ, domain_on. apply count_if_cover. intros uid ref Hu Hp.
  assert (Hcov : covered (cl_state c) uid ref).
  { unfold occupied in Hu. apply lookup_union_Some_raw in Hu as [Hb|[_ Hf]].
    - by apply (ci_bound _ _ Hi).
    - right. by apply (ci_inflight _ _ Hi). }
  destruct Hcov as [Hc|(r & Hr & <-)]; [left; by exists ref|right; by exists r].
Qed.

Lemma occ_placed c lg n d : linv c lg -> occ c n d <= placed lg n d.
Proof.
  intros Hl. unfold occ, placed. rewrite <- (length_fmap fst).
  pose proof (count_both_log (ref_at ref_SchedKey n d) (fun _ : podRef => false)
                ((List.filter (at_key n d) lg).*1) (occupied c) ∅) as Hc.
  unfold count_both in Hc. rewrite (count_if_zero _ (map_zip _ _)), count_if_empty in Hc.
  - assert (Hin : forall k x, occupied c !! k = Some x -> ref_at ref_SchedKey n d x = true ->
      k ∈ (List.filter (at_key n d) lg).*1); [|specialize (Hc Hin); cut (count_if (ref_at ref_SchedKey n d) (occupied c) + 0 <= Z.of_nat (length (List.filter (at_key n d) lg).*1) + 0); [lia|by apply Hc]].
    intros uid ref Hu Hat. eapply at_key_log; [|done]. unfold occupied in Hu.
    apply lookup_union_Some_raw in Hu as [?|[_ ?]]; [by apply (li_bound _ _ Hl)|by apply (li_inflight _ _ Hl)].
  - intros k [x y] Hk. by apply andb_false_r.
Qed.

Lemma placed_cons e lg n d : placed (e :: lg) n d = b2z (at_key n d e) + placed lg n d.
Proof. unfold placed. simpl. destruct (at_key n d e); simpl; lia. Qed.

Lemma occ_reserve c s' uid ref n d :
  cl_bound c !! uid = None -> cl_inflight c !! uid = None ->
  occ (after_reserve c s' uid ref) n d = b2z (ref_at ref_SchedKey n d ref) + occ c n d.
Proof.
  intros Hb Hf. unfold occ, occupied. simpl. rewrite <- insert_union_r by done.
  by apply count_if_insert, lookup_union_None.
Qed.

Lemma linv_reserve now pl (cy : C) pod node state policy s' c lg :
  inv limit c -> linv c lg -> reserves limit now pl cy pod node state policy c s' ->
  MaxSkew (pol_Spec policy) <= maxSkew (pf_schedKey state) ->
  domain (pf_schedKey state) ⊆ computeStableDomain (pod_Spec pod) (d_nodes (pl_deps pl)) ->
  (forall m, m ∈ domain (pf_schedKey state) -> handover (cl_state c) m (pf_schedKey state) <= h) ->
  linv (after_reserve c s' (pod_UID pod) (placed_ref state node)) ((pod_UID pod, placed_ref state node) :: lg).
Proof.
  intros Hi Hl Hres Hsk Hdom Hh. set (uid := pod_UID pod). set (ref := placed_ref state node).
  destruct (reserve_resv limit _ _ _ _ _ _ _ _ _ (proj1 Hi) Hres) as (-> & Hnone & Hadm).
  assert (Hfl : cl_inflight c !! uid = None).
  { destruct (cl_inflight c !! uid) eqn:E; [|done]. apply (ci_inflight _ _ (proj1 Hi)) in E as (_ & r & Hr & _).
    unfold uid in Hr. congruence. }
  split.
  - intros u r Hu. right. by apply (li_bound _ _ Hl).
  - intros u r Hu. simpl in Hu. apply lookup_insert_Some in Hu as [[<- <-]|[_ Hu]]; [by left|right; by apply (li_inflight _ _ Hl)].
  - intros u r Hu. right. by apply (li_gone _ _ Hl).
  - intros u r Hu. simpl in Hu. apply lookup_insert_Some in Hu as [[<- <-]|[_ Hu]]; [by left|right; by apply (li_resv _ _ Hl)].
  - intros d n m Hm. rewrite placed_cons, occ_reserve by (done || apply Hres).
    pose proof (li_skew _ _ Hl d n m Hm) as Hold.
    assert (Hpos : 0 <= b2z (at_key m d (uid, ref))) by (destruct (at_key m d _); simpl; lia).
    destruct (ref_at ref_SchedKey n d ref) eqn:Hat; cbn [b2z]; [|lia].
    apply bool_decide_eq_true in Hat as [<- <-]. unfold ref in Hm |- *. cbn [ref_NodeName ref_SchedKey placed_ref] in *.
    pose proof (proj2 Hadm m (Hdom m Hm)) as Hskew.
    pose proof (occ_domain_on c node (pf_schedKey state) Hi).
    pose proof (domain_on_placed c lg m (pf_schedKey state) Hi Hl). specialize (Hh m Hm).
    change (ref_SchedKey ref) with (pf_schedKey state) in Hpos. unfold ref in Hpos. unfold slack. lia.
Qed.

Lemma pstep_inv x y : pstep x y -> inv limit x.1 /\ linv x.1 x.2 -> inv limit y.1 /\ linv y.1 y.2.
Proof.
  intros Hst [Hi Hl]. destruct Hst as [now pl cy pod node state policy s' c lg Hres Hsk Hdom Hh|c c' lg Hst]; simpl in *.
  - split; [|by eapply linv_reserve]. eapply (cstep_inv limit); [by eapply cs_reserve|done].
  - split; [by eapply (bstep_inv limit)|]. eapply linv_fades; [by apply bstep_fades|done].
Qed.

Lemma psteps_inv x y : rtc pstep x y -> inv limit x.1 /\ linv x.1 x.2 -> inv limit y.1 /\ linv y.1 y.2.
Proof. induction 1 as [|x y z Hst _ IH]; [done|]. intros Hi. apply IH. by eapply pstep_inv. Qed.

End skew.

(** Any history: no node is compared, and maxSkew may be anything. *)
Definition history `{KubeLib} {C : Type} `{CycleStore C} (limit : string -> Z) : relation (cluster * placements) :=
  fun x y => exists anySkew, pstep (C := C) limit anySkew (fun _ => ∅) 0 x y.

Lemma pstep_history `{KubeLib} {C : Type} `{CycleStore C} limit maxSkew domain h x y :
  pstep (C := C) limit maxSkew domain h x y -> history (C := C) limit x y.
Proof.
  intros Hst. exists maxSkew. destruct Hst as [now pl cy pod node state policy s' c lg Hres Hsk _ _|c c' lg Hst].
  - eapply ps_reserve; [done|done|apply empty_subseteq|set_solver].
  - by apply ps_background.
Qed.

Lemma history_inv `{KubeLib} {C : Type} `{CycleStore C} limit maxSkew domain h excess c lg :
  (forall q, 0 <= limit q) -> rtc (history (C := C) limit) (init_cluster, []) (c, lg) ->
  (forall d n m, m ∈ domain d -> occ c n d <= occ c m d + excess d) ->
  inv limit c /\ linv maxSkew domain h excess c lg.
Proof.
  intros Hlim Hr Hex. set (none := fun _ : string => ∅ : gset string).
  assert (Hany : forall sk, linv sk none 0 excess c lg -> linv maxSkew domain h excess c lg).
  { intros sk Hl. split; [apply (li_bound _ _ _ _ _ _ Hl)|apply (li_inflight _ _ _ _ _ _ Hl)|
      apply (li_gone _ _ _ _ _ _ Hl)|apply (li_resv _ _ _ _ _ _ Hl)|].
    intros d n m Hm. specialize (Hex d n m Hm). pose proof (occ_placed _ _ _ _ c lg m d Hl). unfold slack. lia. }
  cut (inv limit c /\ linv (fun _ => 0) none 0 excess c lg); [intros [? Hl]; split; [done|by eapply Hany]|].
  clear Hany Hex. change (inv limit (c, lg).1 /\ linv (fun _ => 0) none 0 excess (c, lg).1 (c, lg).2).
  assert (Hinit : inv limit (init_cluster, [] : placements).1 /\
                  linv (fun _ => 0) none 0 excess (init_cluster, [] : placements).1 (init_cluster, [] : placements).2).
  { split; [by apply inv_init|]. by split. }
  revert Hinit. induction Hr as [|x y z [sk Hst] _ IH]; [done|]. intros [Hi Hl]. apply IH.
  destruct (pstep_inv limit sk none 0 excess x y Hst) as [Hi' [? ? ? ? _]]; [|by split].
  split; [done|]. destruct Hl as [? ? ? ? _]. by split.
Qed.

(** ** Theorems *)

(** C3: the skew bound.  Take any moment of any run under the conditions of [hard_cap] -
    the patient janitor, the sound and complete lists, the timely events and the others
    named there -, with whatever differences between the nodes it has left, and call
    excess those to the nodes of [domain].  If from then on every Reserve uses a maxSkew
    no larger than [maxSkew] and a stable domain that contains those nodes, then no node
    ever has more pods of a scheduling key, bound or being bound, than a node of that
    domain has, plus the pods that have left that node since they were placed, plus
    the larger of the excess and of maxSkew with the handovers in progress there
    while a Reserve looked.  So on nodes that are there from the start (excess 0),
    without departures and handovers two nodes never differ by more than maxSkew, and
    a node that joins later, or a smaller maxSkew, never makes the difference grow
    beyond the larger of what it was at that moment and maxSkew.  Without handovers in
    the bound [handover_breaks_skew], without timely events [late_event_breaks_skew]. *)
Theorem skew_bound `{KubeLib} {C : Type} `{CycleStore C} limit maxSkew domain h excess c0 lg0 c lg :
  (forall q, 0 <= limit q) ->
  rtc (history (C := C) limit) (init_cluster, []) (c0, lg0) ->
  (forall d n m, m ∈ domain d -> occ c0 n d <= occ c0 m d + excess d) ->
  rtc (pstep (C := C) limit maxSkew domain h) (c0, lg0) (c, lg) ->
  forall d n m, m ∈ domain d ->
    occ c n d <= occ c m d + departed c lg m d + Z.max (maxSkew d + h) (excess d) /\ 0 <= departed c lg m d.
Proof.
  intros Hlim Hr0 Hex Hr d n m Hm.
  pose proof (history_inv limit maxSkew domain h excess c0 lg0 Hlim Hr0 Hex) as Hi0.
  destruct (psteps_inv limit maxSkew domain h excess _ _ Hr Hi0) as [_ Hl]. simpl in Hl.
  pose proof (li_skew _ _ _ _ _ _ Hl d n m Hm) as Hs. pose proof (occ_placed _ _ _ _ c lg m d Hl).
  unfold departed, slack in *. lia.
Qed.

(** Two nodes, maxSkew 1, at most three pods of the service on a node. *)
Definition sk_policy : ServiceSpreadPolicy :=
  Policy "ssp-x" "ns" (PolicySpec DefaultManagedSchedulerName (MkSelector {[ "svc" := "app" ]} []) 1 3).
Definition sk_pf : preFilterState :=
  PreFilterState ex_quotaKey ex_schedKey (Some sk_policy) {["n1"; "n2"]} 0 ∅ ∅.
Definition sk_cycle : gmap string StateData := {[ preFilterStateKey := DPreFilter (Some sk_pf) ]}.
Definition sk_resv (uid node : string) : reservation := Reservation uid ex_quotaKey ex_schedKey node resvReserved 0.
Definition sk_ref (node : string) : podRef := PodRef ex_quotaKey ex_schedKey node.
Definition sk_limit (q : string) : Z := 3.
Definition sk_maxSkew (d : string) : Z := 1.
Definition sk_domain (d : string) : gset string := {["n1"; "n2"]}.

Abbreviation sk_step h := (pstep (C := gmap string StateData) sk_limit sk_maxSkew sk_domain h).

Definition sk_add (uid node : string) (x : cluster * placements) : cluster * placements :=
  let s := cl_state x.1 in
  (after_reserve x.1 (SpreadState (snap s) (<[uid := sk_resv uid node]> (resv s))) uid (sk_ref node),
   (uid, sk_ref node) :: x.2).

(** The Reserve is computed, and so are the handovers it meets. *)
Lemma sk_reserve h uid node x :
  Reserve 0 tr_plugin (cl_state x.1) sk_cycle (tr_pod uid) node =
    Val (success, SpreadState (snap (cl_state x.1)) (<[uid := sk_resv uid node]> (resv (cl_state x.1)))) ->
  small (cl_state x.1) -> cl_bound x.1 !! uid = None -> cl_gone x.1 !! uid = None ->
  handover (cl_state x.1) "n1" ex_schedKey <= h -> handover (cl_state x.1) "n2" ex_schedKey <= h ->
  bool_decide (sk_domain ex_schedKey ⊆ computeStableDomain (pod_Spec (tr_pod uid)) (d_nodes (pl_deps tr_plugin))) = true ->
  sk_step h x (sk_add uid node x).
Proof.
  destruct x as [c lg]. simpl. intros HR Hs Hb Hg H1 H2 Hd.
  apply (ps_reserve sk_limit sk_maxSkew sk_domain h 0 tr_plugin sk_cycle (tr_pod uid) node sk_pf sk_policy).
  - by split.
  - done.
  - by apply bool_decide_eq_true in Hd.
  - intros m Hm. apply elem_of_union in Hm as [->%elem_of_singleton| ->%elem_of_singleton]; done.
Qed.

(** The second pod is bound and counted, but its reservation is not released yet. *)
Definition sk_mid : cluster * placements :=
  let x := sk_add "u2" "n2" (sk_add "u1" "n1" (init_cluster, [])) in
  (Cluster (upsertCount (cl_state x.1) "u2" (sk_ref "n2")) (<["u2" := sk_ref "n2"]> ∅)
           (delete "u2" (cl_inflight x.1)) ∅ J_done, x.2).

Lemma sk_first h : 0 <= h -> sk_step h (init_cluster, []) (sk_add "u1" "n1" (init_cluster, [])).
Proof. intros Hh. apply (sk_reserve h "u1" "n1"); try (vm_compute; reflexivity); exact Hh. Qed.

Lemma sk_rest h : 0 <= h -> rtc (sk_step h) (sk_add "u1" "n1" (init_cluster, [])) sk_mid.
Proof.
  intros Hh. eapply rtc_l; [|eapply rtc_l; [|eapply rtc_l; [|apply rtc_refl]]].
  - apply (sk_reserve h "u2" "n2"); try (vm_compute; reflexivity); exact Hh.
  - apply ps_background, (bs_bind true true true "u2" (sk_ref "n2")). vm_compute. reflexivity.
  - apply ps_background, (bs_event true true true ex_args_l (fx_pod "u2" "n2" "app" "Running")
      (fun s => upsertCount s "u2" (sk_ref "n2")) (fun s => releaseIfObserved s "u2")); [reflexivity|vm_compute; reflexivity|].
    split; [reflexivity|]. exists (sk_ref "n2"). split; [vm_compute; reflexivity|]. left. vm_compute. reflexivity.
Qed.

(** A handover breaks the skew.  While a bound pod's event has counted it and not yet
    released its reservation, the pod's node looks fuller than it is; when that node
    holds the minimum, Reserve admits one pod too many elsewhere.  With maxSkew 1, no
    pod ever leaving and one pod in handover, a state is reachable in which one node
    has three pods and the other one: the bound of the skew theorem is attained. *)
Theorem handover_breaks_skew :
  exists c lg, rtc (sk_step 1) (init_cluster, []) (c, lg) /\
    occ c "n1" ex_schedKey = 3 /\ occ c "n2" ex_schedKey = 1 /\
    departed c lg "n2" ex_schedKey = 0 /\ sk_maxSkew ex_schedKey = 1.
Proof.
  set (x := sk_add "u4" "n1" (sk_add "u3" "n1" sk_mid)). exists x.1, x.2.
  split; [|split_and!; vm_compute; reflexivity].
  eapply rtc_l; [apply sk_first; lia|]. etransitivity; [apply sk_rest; lia|].
  eapply rtc_l; [|eapply rtc_l; [|apply rtc_refl]].
  - apply (sk_reserve 1 "u3" "n1"); vm_compute; first [reflexivity|discriminate].
  - apply (sk_reserve 1 "u4" "n1"); vm_compute; first [reflexivity|discriminate].
Qed.

(** A late event breaks the skew.  The first pod is bound, counted by a rebuild and no
    longer reserved; then one event for its object without a node uncounts it, and a
    second pod joins it on the node, two ahead of the other although maxSkew is 1. *)
Theorem late_event_breaks_skew :
  exists x c y, rtc (sk_step 0) (init_cluster, []) x /\ bstep true true false x.1 c /\
    sk_step 0 (c, x.2) y /\
    occ y.1 "n1" ex_schedKey = 2 /\ occ y.1 "n2" ex_schedKey = 0 /\
    departed y.1 y.2 "n2" ex_schedKey = 0 /\ sk_maxSkew ex_schedKey = 1.
Proof.
  set (x1 := sk_add "u1" "n1" (init_cluster, [])).
  set (ps := <["u1" := sk_ref "n1"]> ∅ : gmap string podRef).
  set (c2 := Cluster (cl_state x1.1) ps (delete "u1" (cl_inflight x1.1)) ∅ J_done).
  set (c3 := with_state c2 (reconcile_tick (Ok ps) (cl_state c2))).
  set (c4 := with_state c3 (releaseIfObserved (cl_state c3) "u1")).
  set (c5 := with_state c4 (removeCount (cl_state c4) "u1")).
  exists (c4, x1.2), c5, (sk_add "u2" "n1" (c5, x1.2)).
  split; [|split; [|split; [|split_and!; vm_compute; reflexivity]]].
  - eapply rtc_l; [apply sk_first; lia|]. eapply rtc_l.
    { apply ps_background, (bs_bind true true true "u1" (sk_ref "n1")). vm_compute. reflexivity. }
    eapply rtc_l; [apply ps_background, (bs_reconcile true true true ps c2)|].
    { split; [vm_compute; reflexivity|]. split; [by left|by intros _ u ref]. }
    apply rtc_once, ps_background, (bs_event_release true true true ex_args_l (tr_pod "u1")
      (fun s => removeCount s "u1") (fun s => releaseIfObserved s "u1") c3). reflexivity.
  - apply (bs_event true true false ex_args_l (tr_pod "u1")
      (fun s => removeCount s "u1") (fun s => releaseIfObserved s "u1") c4);
      [reflexivity|vm_compute; reflexivity|discriminate].
  - apply (sk_reserve 0 "u2" "n1"); vm_compute; first [reflexivity|discriminate].
Qed.

(** The first pod is history - it leaves n1 one pod ahead -, the second Reserve evens it out. *)
Lemma skew_bound_witness :
  occ sk_mid.1 "n1" ex_schedKey <=
  occ sk_mid.1 "n2" ex_schedKey + departed sk_mid.1 sk_mid.2 "n2" ex_schedKey + Z.max (1 + 0) 1.
Proof.
  set (x := sk_add "u1" "n1" (init_cluster, [])).
  refine (proj1 (skew_bound (C := gmap string StateData) sk_limit sk_maxSkew sk_domain 0 (fun _ => 1)
    x.1 x.2 sk_mid.1 sk_mid.2 _ _ _ _ ex_schedKey "n1" "n2" _)).
  - intros q. unfold sk_limit. lia.
  - apply rtc_once, (pstep_history sk_limit sk_maxSkew sk_domain 0). apply sk_first. lia.
  - intros d n m _. pose proof (count_if_size (ref_at ref_SchedKey n d) (occupied x.1)) as Ho.
    change (Z.of_nat (size (occupied x.1))) with 1 in Ho.
    pose proof (count_if_nonneg (ref_at ref_SchedKey m d) (occupied x.1)). unfold occ in *. lia.
  - apply sk_rest. lia.
  - unfold sk_domain. set_solver.
Defined.
