(* ===== verification/Enqueue.v ===== *)
(** * Queueing hints (internal/spread/enqueue.go)

    Which cluster events put a rejected pod back into the scheduling queue.  The
    access to unstructured objects is the interface [UnstructuredLib]. *)

From S2P Require Import Prelude GoStd Kube Fixtures State Keys Domain Api Plugin Lifecycle.

(** What the hints read of [unstructured.Unstructured]. *)
Class UnstructuredLib (U : Type) := {
  GetNamespace : U -> string;
  (** [Object["spec"]] when it is a map. *)
  Spec : Type;
  SpecMap : U -> option Spec;
  (** [NestedString] and [NestedStringMap] without their error: the value or the
      zero value; a missing map is [None]. *)
  NestedString : Spec -> list string -> string;
  NestedStringMap : Spec -> list string -> option string_map;
}.

Section hints.
Context {U : Type} `{UnstructuredLib U}.

(** The [interface{}] of an event: nil, a pod pointer (which may be nil), an
    unstructured object, another API object with metadata (its namespace), or
    anything else, with or without being a [runtime.Object]. *)
Inductive hint_obj :=
| HNil
| HPod (p : option Pod)
| HUnstructured (u : U)
| HMeta (namespace : string)
| HRuntime
| HOther.

Definition objPod (obj : hint_obj) : option Pod :=
  match obj with HPod o => o | _ => None end.

Definition podHint (args : ServiceSpreadArgs) (pod : option Pod) (oldObj newObj : hint_obj)
    : QueueingHint :=
  let evtPod := match objPod newObj with Some p => Some p | None => objPod oldObj end in
  match evtPod, pod with
  | Some evtPod, Some pod =>
    if decide (spec_SchedulerName (pod_Spec evtPod) <> ManagedSchedulerName args) then QueueSkip
    else
      match PodRefFor evtPod (ManagedSchedulerName args) (ServiceLabelKey args) with
      | Err _ => QueueSkip
      | Ok ref =>
        match PodRefFor pod (ManagedSchedulerName args) (ServiceLabelKey args) with
        | Err _ => QueueSkip
        | Ok podRef =>
          if decide (ref_SchedKey ref = ref_SchedKey podRef \/ ref_QuotaKey ref = ref_QuotaKey podRef)
          then QueueAfterBackoff else QueueSkip
        end
      end
  | _, _ => QueueAfterBackoff
  end.

Definition policySpec (u : U) : string * option string_map :=
  match SpecMap u with
  | None => ("", None)
  | Some spec => (NestedString spec ["schedulerName"],
                  NestedStringMap spec ["serviceSelector"; "matchLabels"])
  end.

Definition policyHint (args : ServiceSpreadArgs) (pod : option Pod) (oldObj newObj : hint_obj)
    : QueueingHint :=
  let obj := match newObj with HNil => oldObj | _ => newObj end in
  match obj, pod with
  | HUnstructured u, Some pod =>
    if decide (GetNamespace u <> pod_Namespace pod) then QueueSkip
    else
      let '(schedName, sel) := policySpec u in
      match sel with
      | None => QueueAfterBackoff
      | Some sel =>
        if decide (schedName = "") then QueueAfterBackoff
        else if decide (schedName <> ManagedSchedulerName args) then QueueSkip
        else
          match pod_Labels pod !! ServiceLabelKey args with
          | None => QueueSkip
          | Some labelValue =>
            if decide (size sel = 1%nat /\ map_get "" sel (ServiceLabelKey args) = labelValue)
            then QueueAfterBackoff else QueueSkip
          end
      end
  | _, _ => QueueAfterBackoff
  end.

(** [GetNamespace] on a nil pod pointer panics. *)
Definition sameNamespaceHint (pod : option Pod) (oldObj newObj : hint_obj) : go QueueingHint :=
  let obj := match newObj with HNil => oldObj | _ => newObj end in
  let check (ns : string) :=
    match pod with
    | None => QueueAfterBackoff
    | Some pod =>
      if decide (ns = "") then QueueAfterBackoff
      else if decide (ns = pod_Namespace pod) then QueueAfterBackoff
      else QueueSkip
    end in
  match obj with
  | HUnstructured u => Val (check (GetNamespace u))
  | HPod (Some p) => Val (check (pod_Namespace p))
  | HPod None => Panic
  | HMeta ns => Val (check ns)
  | HRuntime => Val (check "")
  | HNil | HOther => Val QueueAfterBackoff
  end.

End hints.
Arguments hint_obj U : clear implicits.

(** ** Theorems *)

(** The pod hint wakes exactly the pods of the event pod's service.  For a pod
    event of a managed, labelled pod and a labelled pending pod (namespaces without
    a slash), the pending pod is queued if and only if both are in the same
    namespace with the same service label value; an event pod of another scheduler
    or without the label is skipped, and an event without a pod is queued. *)
Theorem podHint_exact {U : Type} args pending old (e : Pod) (r rp : podRef) :
  PodRefFor pending (ManagedSchedulerName args) (ServiceLabelKey args) = Ok rp ->
  no_char slash (pod_Namespace e) -> no_char slash (pod_Namespace pending) ->
  PodRefFor e (ManagedSchedulerName args) (ServiceLabelKey args) = Ok r ->
  spec_SchedulerName (pod_Spec e) = ManagedSchedulerName args ->
  (podHint (U := U) args (Some pending) old (HPod (Some e)) = QueueAfterBackoff <->
   pod_Namespace e = pod_Namespace pending /\
   pod_Labels e !! ServiceLabelKey args = pod_Labels pending !! ServiceLabelKey args) /\
  podHint (U := U) args (Some pending) (HPod (Some e)) HNil =
    podHint (U := U) args (Some pending) old (HPod (Some e)) /\
  podHint (U := U) args (Some pending) HNil HNil = QueueAfterBackoff.
Proof.
  intros Hp Hne Hnp He Hs. split; [|split; [done|done]].
  assert (Hq : ref_QuotaKey r = ref_QuotaKey rp <->
    pod_Namespace e = pod_Namespace pending /\
    pod_Labels e !! ServiceLabelKey args = pod_Labels pending !! ServiceLabelKey args).
  { by apply (PodRefFor_quota e pending (ManagedSchedulerName args) (ServiceLabelKey args)). }
  rewrite <- Hq. unfold podHint. simpl.
  rewrite decide_False by (intros Hx; by apply Hx). rewrite He, Hp.
  assert (Hsk : ref_SchedKey r = ref_SchedKey rp -> ref_QuotaKey r = ref_QuotaKey rp).
  { intros H. by apply (PodRefFor_sched e pending (ManagedSchedulerName args) (ServiceLabelKey args)). }
  destruct (decide (ref_SchedKey r = ref_SchedKey rp \/ ref_QuotaKey r = ref_QuotaKey rp)); naive_solver.
Qed.

Definition eq_pod (uid node value : string) : Pod := fx_pod uid node value "Running".
Definition eq_args : ServiceSpreadArgs := ex_args_l.
Definition eq_ref (p : Pod) : podRef :=
  match PodRefFor p DefaultManagedSchedulerName "svc" with Ok r => r | Err _ => zero_ref end.

Lemma podHint_exact_witness :
  podHint (U := unit) eq_args (Some (eq_pod "p" "" "app")) HNil (HPod (Some (eq_pod "e" "n1" "app")))
    = QueueAfterBackoff.
Proof.
  refine (proj2 (proj1 (podHint_exact (U := unit) eq_args (eq_pod "p" "" "app") HNil
            (eq_pod "e" "n1" "app") (eq_ref (eq_pod "e" "n1" "app")) (eq_ref (eq_pod "p" "" "app"))
            _ _ _ _ _)) _).
  - vm_compute. reflexivity.
  - exact I.
  - exact I.
  - vm_compute. reflexivity.
  - reflexivity.
  - split; reflexivity.
Defined.

(** Relabelling misses the pods it helps.  When a counted pod is moved to
    another service by a label change, the seat it held for the old service becomes
    free (its effective count falls by one), but the hint only looks at the new
    object and skips every pending pod of the old service. *)
Theorem podHint_misses_relabel {U : Type} args s old new pending ro rn rp :
  reachable s -> Z.of_nat (size (pods (snap s))) + 1 < max_int32 ->
  spec_SchedulerName (pod_Spec new) = ManagedSchedulerName args ->
  PodRefFor new (ManagedSchedulerName args) (ServiceLabelKey args) = Ok rn ->
  PodRefFor pending (ManagedSchedulerName args) (ServiceLabelKey args) = Ok rp ->
  ref_QuotaKey rp = ref_QuotaKey ro -> ref_QuotaKey rn <> ref_QuotaKey rp ->
  ref_SchedKey rn <> ref_SchedKey rp -> countablePod new = true ->
  pods (snap s) !! pod_UID new = Some ro -> resv s !! pod_UID new = None ->
  let s' := run (onPodEvent args new) s in
  quota_on s' (ref_NodeName ro) (ref_QuotaKey rp) = quota_on s (ref_NodeName ro) (ref_QuotaKey rp) - 1 /\
  podHint (U := U) args (Some pending) (HPod (Some old)) (HPod (Some new)) = QueueSkip.
Proof.
  intros Hr Hs Hn Hrn Hrp Hq Hne Hnd Hc Hp Hu s'. split.
  - destruct (reachable_wf s Hr) as [Hw _]. assert (Hf : fits (pods (snap s))) by (unfold fits; lia).
    assert (Es : s' = with_pods (<[pod_UID new := rn]> (pods (snap s))) (resv s)).
    { unfold s'. rewrite (onPodEvent_managed args new rn) by done.
      rewrite (state_is_with_pods s Hw Hf) at 1. rewrite OnPodAddOrUpdate_with_pods;
        [|done|by apply fits_insert]. by rewrite Hc, release_resv_none. }
    rewrite Es, quota_on_with_pods by (by apply fits_insert). unfold quota_on.
    rewrite (count_if_replace _ _ (pod_UID new) ro rn Hp).
    assert (ref_at ref_QuotaKey (ref_NodeName ro) (ref_QuotaKey rp) ro = true) as ->
      by (by apply bool_decide_eq_true).
    assert (ref_at ref_QuotaKey (ref_NodeName ro) (ref_QuotaKey rp) rn = false) as ->
      by (apply bool_decide_eq_false; naive_solver).
    simpl. lia.
  - unfold podHint. simpl. rewrite decide_False by (intros Hx; by apply Hx).
    rewrite Hrn, Hrp, decide_False; [done|]. intros [H|H]; congruence.
Qed.

Definition eq_counted : spreadState := upsertCount newSpreadState "e" (eq_ref (eq_pod "e" "n1" "app")).

Lemma eq_counted_reachable : reachable eq_counted.
Proof. eapply rtc_l; [|apply rtc_refl]. apply ss_upsert. vm_compute. reflexivity. Qed.

Lemma podHint_misses_relabel_witness :
  podHint (U := unit) eq_args (Some (eq_pod "p" "" "app"))
    (HPod (Some (eq_pod "e" "n1" "app"))) (HPod (Some (eq_pod "e" "n1" "web"))) = QueueSkip.
Proof.
  apply (podHint_misses_relabel (U := unit) eq_args eq_counted (eq_pod "e" "n1" "app")
           (eq_pod "e" "n1" "web") (eq_pod "p" "" "app") (eq_ref (eq_pod "e" "n1" "app"))
           (eq_ref (eq_pod "e" "n1" "web")) (eq_ref (eq_pod "p" "" "app")));
    try (vm_compute; reflexivity); try (vm_compute; discriminate).
  exact eq_counted_reachable.
Defined.

(** The policy hint wakes every pod the policy can help: a pod of the policy's
    namespace whose service the new object selects is queued whatever the old
    object was, a pod of another namespace or service is skipped, and an object
    that cannot be read is queued. *)
Theorem policyHint_exact {U : Type} `{UnstructuredLib U} args pod old (u : U) sched sel v :
  policySpec u = (sched, Some sel) -> sched <> "" -> v <> "" ->
  pod_Labels pod !! ServiceLabelKey args = Some v ->
  (policyHint args (Some pod) old (HUnstructured u) = QueueAfterBackoff <->
   GetNamespace u = pod_Namespace pod /\ sched = ManagedSchedulerName args /\
   sel = {[ ServiceLabelKey args := v ]}) /\
  policyHint (U := U) args (Some pod) old HOther = QueueAfterBackoff.
Proof.
  intros Hspec Hsched Hv Hl. split; [|done]. unfold policyHint.
  assert (Hsel : size sel = 1%nat /\ map_get "" sel (ServiceLabelKey args) = v <->
                 sel = {[ ServiceLabelKey args := v ]}).
  { rewrite <- singleton_map_spec. unfold map_get.
    destruct (sel !! ServiceLabelKey args); simpl; naive_solver. }
  rewrite <- Hsel, Hspec, Hl.
  destruct (decide (GetNamespace u <> pod_Namespace pod)) as [Hns|Hns]; [naive_solver|].
  apply dec_stable in Hns. rewrite decide_False by done.
  destruct (decide (sched <> ManagedSchedulerName args)) as [Hm|Hm]; [naive_solver|].
  apply dec_stable in Hm.
  destruct (decide (size sel = 1%nat /\ map_get "" sel (ServiceLabelKey args) = v)); naive_solver.
Qed.

(** An unstructured object for the witness: its namespace, scheduler and labels. *)
Definition fx_unstructured : Type := string * string * string_map.

#[export] Instance fx_unstructured_lib : UnstructuredLib fx_unstructured := {|
  GetNamespace u := u.1.1;
  Spec := fx_unstructured;
  SpecMap u := Some u;
  NestedString u path := if decide (path = ["schedulerName"]) then u.1.2 else "";
  NestedStringMap u path :=
    if decide (path = ["serviceSelector"; "matchLabels"]) then Some u.2 else None;
|}.

Lemma policyHint_exact_witness :
  policyHint (U := fx_unstructured) eq_args (Some (eq_pod "p" "" "app")) HNil
    (HUnstructured ("ns", DefaultManagedSchedulerName, {[ "svc" := "app" ]})) = QueueAfterBackoff.
Proof.
  refine (proj2 (proj1 (policyHint_exact eq_args (eq_pod "p" "" "app") HNil
    (("ns", DefaultManagedSchedulerName, {[ "svc" := "app" ]}) : fx_unstructured)
    DefaultManagedSchedulerName {[ "svc" := "app" ]} "app" _ _ _ _)) _);
    try reflexivity; try discriminate.
  split; [reflexivity|split; reflexivity].
Defined.
