(* ===== verification/Webhook.v ===== *)
(** * The validating webhook (internal/webhook)

    The deterministic policy name (naming.go), the shared configuration and its
    source (config.go), the static validation of a policy (validation.go) and the
    admission handler with its overlap check (policy_webhook.go). *)

From S2P Require Import Prelude GoStd Kube Fixtures State Keys Domain Api Plugin.
From Stdlib Require Import Ascii.

(** ** Naming *)

Definition canonical_identity (namespace schedulerName labelKey labelValue : string) : string :=
  json_array (json_string <$> [namespace; schedulerName; labelKey; labelValue]).

(** The error branch of [json.Marshal] is unreachable for strings. *)
Definition ExpectedPolicyName (namespace schedulerName labelKey labelValue : string) : string :=
  PolicyNamePrefix +:+ sha12 (canonical_identity namespace schedulerName labelKey labelValue).

(** ** Shared configuration *)

Record PluginConfig := MkConfig {
  cfg_ServiceLabelKey : string;
  cfg_ManagedSchedulerName : string;
}.

#[export] Instance PluginConfig_eq_dec : EqDecision PluginConfig.
Proof. solve_decision. Defined.

Record ConfigMap := MkConfigMap {
  cm_Namespace : string;
  cm_Name : string;
  cm_Data : string_map;
}.

Section config.
Context `{KubeLib}.

Definition ParseConfigMap (cm : option ConfigMap) : res PluginConfig :=
  match cm with
  | None => Err "shared config ConfigMap is nil"
  | Some cm =>
    let labelKey := strings_TrimSpace (map_get "" (cm_Data cm) "serviceLabelKey") in
    let where_ := cm_Namespace cm +:+ "/" +:+ cm_Name cm in
    if decide (labelKey = "")
    then Err (where_ +:+ ": data.serviceLabelKey is required (fail closed)")
    else
      match IsQualifiedName labelKey with
      | (_ :: _) as msgs =>
        Err (where_ +:+ ": data.serviceLabelKey " +:+ fmt_q labelKey +:+ " invalid: " +:+
             strings_Join msgs ", ")
      | [] =>
        let schedulerName := strings_TrimSpace (map_get "" (cm_Data cm) "managedSchedulerName") in
        let schedulerName := if decide (schedulerName = "")
                             then DefaultManagedSchedulerName else schedulerName in
        match IsQualifiedName schedulerName with
        | (_ :: _) as msgs =>
          Err (where_ +:+ ": data.managedSchedulerName " +:+ fmt_q schedulerName +:+ " invalid: " +:+
               strings_Join msgs ", ")
        | [] => Ok (MkConfig labelKey schedulerName)
        end
      end
  end.

(** [ConfigMapSource]: the atomically published state, [None] before the first
    event. *)
Record ConfigMapSource := MkSource {
  src_namespace : string;
  src_name : string;
  src_state : option (res PluginConfig);
}.

(** The informer callbacks: an object (a ConfigMap, possibly nil, or something
    else) was added or updated, or the object was deleted. *)
Inductive cm_event :=
| CmStore (obj : option (option ConfigMap))
| CmDelete.

Definition store (src : ConfigMapSource) (obj : option (option ConfigMap)) : ConfigMapSource :=
  match obj with
  | None => src
  | Some cm => MkSource (src_namespace src) (src_name src) (Some (ParseConfigMap cm))
  end.

Definition on_delete (src : ConfigMapSource) : ConfigMapSource :=
  MkSource (src_namespace src) (src_name src)
    (Some (Err ("shared config ConfigMap " +:+ src_namespace src +:+ "/" +:+ src_name src +:+
                " was deleted (fail closed)"))).

Definition cm_step (src : ConfigMapSource) (e : cm_event) : ConfigMapSource :=
  match e with CmStore obj => store src obj | CmDelete => on_delete src end.

Definition NewConfigMapSource (namespace name : string) : ConfigMapSource := MkSource namespace name None.

(** [StaticConfigSource.Get] *)
Definition static_Get (cfg : PluginConfig) : res PluginConfig := Ok cfg.

Definition Get (src : ConfigMapSource) : res PluginConfig :=
  match src_state src with
  | None => Err ("shared config ConfigMap " +:+ src_namespace src +:+ "/" +:+ src_name src +:+
                 " not observed yet (fail closed)")
  | Some st => st
  end.

End config.

(** ** Static validation *)

(** [field.Error]: its kind, the path and the detail. *)
Inductive ErrorType := FieldForbidden | FieldInvalid | FieldRequired | FieldInternal.

Record FieldError := MkFieldError {
  fe_Type : ErrorType;
  fe_Field : list string;
  fe_Detail : string;
}.

Definition one_entry_msg (cfg : PluginConfig) : string :=
  "must contain exactly one entry with key " +:+ fmt_q (cfg_ServiceLabelKey cfg).

Definition serviceSelectorValue (sel : LabelSelector) (cfg : PluginConfig) (basePath : list string)
    : string * list FieldError :=
  let allErrs :=
    match sel_MatchExpressions sel with
    | [] => []
    | _ => [MkFieldError FieldForbidden (basePath ++ ["matchExpressions"])
              "matchExpressions are not supported; the service selector must be a single exact label match"]
    end in
  let at_labels := basePath ++ ["matchLabels"] in
  let n := size (sel_MatchLabels sel) in
  if decide (n = 1%nat) then
    match sel_MatchLabels sel !! cfg_ServiceLabelKey cfg with
    | Some value => (value, allErrs)
    | None => ("", allErrs ++ [MkFieldError FieldInvalid at_labels
                 (one_entry_msg cfg +:+ " (the cluster-wide serviceLabelKey)")])
    end
  else if decide (n = 0%nat) then
    ("", allErrs ++ [MkFieldError FieldRequired at_labels
           (one_entry_msg cfg +:+ " (the cluster-wide serviceLabelKey)")])
  else
    ("", allErrs ++ [MkFieldError FieldInvalid at_labels
           (one_entry_msg cfg +:+ "; multi-label selectors are ambiguous with the service identity")]).

Definition scheduler_errors (policy : ServiceSpreadPolicy) (cfg : PluginConfig) : list FieldError :=
  let name := SchedulerName (pol_Spec policy) in
  if decide (name = "")
  then [MkFieldError FieldRequired ["spec"; "schedulerName"] "must not be empty"]
  else if decide (name <> cfg_ManagedSchedulerName cfg)
  then [MkFieldError FieldInvalid ["spec"; "schedulerName"]
          ("must exactly equal the managed scheduler name " +:+ fmt_q (cfg_ManagedSchedulerName cfg) +:+
           " (design doc 4.2)")]
  else [].

Definition minimum_errors (field : string) (v : Z) : list FieldError :=
  if v <? 1 then [MkFieldError FieldInvalid ["spec"; field] "must be an integer >= 1"] else [].

Definition name_check (policy : ServiceSpreadPolicy) (cfg : PluginConfig) (labelValue : string)
    : list FieldError :=
  let sched := SchedulerName (pol_Spec policy) in
  if decide (sched <> "" /\ labelValue <> "") then
    let expected := ExpectedPolicyName (pol_Namespace policy) sched (cfg_ServiceLabelKey cfg) labelValue in
    if decide (pol_Name policy <> expected)
    then [MkFieldError FieldInvalid ["metadata"; "name"]
            ("must equal the deterministic name " +:+ fmt_q expected +:+
             " (ssp- + first 12 hex of SHA-256 over the JSON encoding of [namespace, schedulerName, serviceLabelKey, serviceLabelValue])")]
    else []
  else [].

Definition ValidatePolicy (policy : ServiceSpreadPolicy) (cfg : PluginConfig) : list FieldError :=
  let '(labelValue, selectorErrs) :=
    serviceSelectorValue (ServiceSelector (pol_Spec policy)) cfg ["spec"; "serviceSelector"] in
  scheduler_errors policy cfg ++ selectorErrs ++
  minimum_errors "maxSkew" (MaxSkew (pol_Spec policy)) ++
  minimum_errors "maxPodsPerNode" (MaxPodsPerNode (pol_Spec policy)) ++
  name_check policy cfg labelValue.

(** ** Admission *)

Definition selectsSameService (existing incoming : ServiceSpreadPolicy) (cfg : PluginConfig) : bool :=
  let se := ServiceSelector (pol_Spec existing) in
  let si := ServiceSelector (pol_Spec incoming) in
  if decide (pol_Name existing = pol_Name incoming) then false
  else if decide (SchedulerName (pol_Spec existing) <> SchedulerName (pol_Spec incoming)) then false
  else if decide (size (sel_MatchLabels se) <> 1%nat \/ sel_MatchExpressions se <> []) then false
  else
    match sel_MatchLabels se !! cfg_ServiceLabelKey cfg with
    | None => false
    | Some existingValue =>
      match sel_MatchLabels si !! cfg_ServiceLabelKey cfg with
      | None => false
      | Some incomingValue => bool_decide (existingValue = incomingValue)
      end
    end.

(** [reader] lists the policies of a namespace from the API; [None] is a nil
    reader. *)
Definition checkOverlap (reader : option (string -> res (list ServiceSpreadPolicy)))
    (policy : ServiceSpreadPolicy) (cfg : PluginConfig) : list FieldError :=
  match reader with
  | None => []
  | Some list =>
    match list (pol_Namespace policy) with
    | Err e => [MkFieldError FieldInternal ["metadata"; "name"]
                  ("overlap pre-check failed (failing closed): " +:+ e)]
    | Ok items =>
      match List.find (fun existing => selectsSameService existing policy cfg) items with
      | None => []
      | Some existing =>
        [MkFieldError FieldInvalid ["metadata"; "name"]
           ("policy " +:+ fmt_q (pol_Name existing) +:+ " already selects the same service (namespace " +:+
            fmt_q (pol_Namespace policy) +:+ ", schedulerName " +:+
            fmt_q (SchedulerName (pol_Spec policy)) +:+ ", " +:+ cfg_ServiceLabelKey cfg +:+ "=" +:+
            map_get "" (sel_MatchLabels (ServiceSelector (pol_Spec policy))) (cfg_ServiceLabelKey cfg) +:+
            "); delete it first")]
      end
    end
  end.

(** The object of a request: a policy, or another type (its [%T]). *)
Inductive request_object :=
| ReqPolicy (p : ServiceSpreadPolicy)
| ReqOther (type_name : string).

Inductive admission :=
| Accepted
| DeniedError (msg : string)
| DeniedInvalid (name : string) (errs : list FieldError).

Definition validate (cfg_get : res PluginConfig)
    (reader : option (string -> res (list ServiceSpreadPolicy))) (obj : request_object) : admission :=
  match obj with
  | ReqOther ty => DeniedError ("expected a ServiceSpreadPolicy, got " +:+ ty)
  | ReqPolicy policy =>
    match cfg_get with
    | Err e => DeniedError ("webhook configuration not usable, failing closed: " +:+ e)
    | Ok cfg =>
      let errs := ValidatePolicy policy cfg in
      let errs := match errs with [] => checkOverlap reader policy cfg | _ => errs end in
      match errs with
      | [] => Accepted
      | _ => DeniedInvalid (pol_Name policy) errs
      end
    end
  end.

Definition ValidateCreate := validate.
Definition ValidateUpdate (cfg_get : res PluginConfig)
    (reader : option (string -> res (list ServiceSpreadPolicy))) (oldObj newObj : request_object)
    : admission := validate cfg_get reader newObj.
Definition ValidateDelete (obj : request_object) : admission := Accepted.

(** ** Specifications *)

(** The policy is valid and selects the service value [v]. *)
Record valid_policy (cfg : PluginConfig) (p : ServiceSpreadPolicy) (v : string) : Prop := {
  vp_sched : SchedulerName (pol_Spec p) = cfg_ManagedSchedulerName cfg /\ cfg_ManagedSchedulerName cfg <> "";
  vp_exprs : sel_MatchExpressions (ServiceSelector (pol_Spec p)) = [];
  vp_labels : sel_MatchLabels (ServiceSelector (pol_Spec p)) = {[ cfg_ServiceLabelKey cfg := v ]};
  vp_skew : 1 <= MaxSkew (pol_Spec p);
  vp_max : 1 <= MaxPodsPerNode (pol_Spec p);
  vp_name : v <> "" -> pol_Name p = ExpectedPolicyName (pol_Namespace p) (cfg_ManagedSchedulerName cfg)
                                      (cfg_ServiceLabelKey cfg) v;
}.

(** ** Lemmas *)

Lemma serviceSelectorValue_nil sel cfg base v :
  serviceSelectorValue sel cfg base = (v, []) <->
  sel_MatchExpressions sel = [] /\ sel_MatchLabels sel = {[ cfg_ServiceLabelKey cfg := v ]}.
Proof.
  unfold serviceSelectorValue. rewrite <- singleton_map_spec.
  destruct (sel_MatchExpressions sel) as [|e es].
  2: { repeat case_match; naive_solver. }
  destruct (decide (size (sel_MatchLabels sel) = 1%nat)) as [Hs|Hs].
  - destruct (sel_MatchLabels sel !! cfg_ServiceLabelKey cfg); naive_solver.
  - destruct (decide (size (sel_MatchLabels sel) = 0%nat)); naive_solver.
Qed.

Lemma scheduler_errors_nil p cfg :
  scheduler_errors p cfg = [] <->
  SchedulerName (pol_Spec p) = cfg_ManagedSchedulerName cfg /\ cfg_ManagedSchedulerName cfg <> "".
Proof.
  unfold scheduler_errors. destruct (decide (SchedulerName (pol_Spec p) = "")) as [He|He].
  - split; [done|]. intros [H1 H2]. congruence.
  - destruct (decide (SchedulerName (pol_Spec p) <> cfg_ManagedSchedulerName cfg)) as [Hn|Hn].
    + split; [done|]. by intros [? _].
    + apply dec_stable in Hn. split; [|done]. intros _. split; congruence.
Qed.

Lemma minimum_errors_nil f v : minimum_errors f v = [] <-> 1 <= v.
Proof. unfold minimum_errors. destruct (Z.ltb_spec v 1); split; (done || lia). Qed.

Lemma name_check_nil p cfg v :
  name_check p cfg v = [] <->
  (SchedulerName (pol_Spec p) <> "" -> v <> "" ->
   pol_Name p = ExpectedPolicyName (pol_Namespace p) (SchedulerName (pol_Spec p)) (cfg_ServiceLabelKey cfg) v).
Proof.
  unfold name_check.
  destruct (decide (SchedulerName (pol_Spec p) <> "" /\ v <> "")) as [[H1 H2]|Hn]; [|naive_solver].
  set (e := ExpectedPolicyName _ _ _ _).
  destruct (decide (pol_Name p <> e)) as [Hne|Hne]; [naive_solver|]. apply dec_stable in Hne. naive_solver.
Qed.

Lemma ValidatePolicy_nil p cfg : ValidatePolicy p cfg = [] <-> exists v, valid_policy cfg p v.
Proof.
  unfold ValidatePolicy.
  destruct (serviceSelectorValue _ cfg _) as [v errs] eqn:Hsel.
  transitivity (scheduler_errors p cfg = [] /\ errs = [] /\ minimum_errors "maxSkew" (MaxSkew (pol_Spec p)) = [] /\
    minimum_errors "maxPodsPerNode" (MaxPodsPerNode (pol_Spec p)) = [] /\ name_check p cfg v = []).
  { split; [|by intros (-> & -> & -> & -> & ->)]. intros H.
    apply app_eq_nil in H as [-> H]. apply app_eq_nil in H as [-> H].
    apply app_eq_nil in H as [-> H]. by apply app_eq_nil in H as [-> ->]. }
  rewrite scheduler_errors_nil, !minimum_errors_nil, name_check_nil. split.
  - intros ((Hs & Hne) & -> & H1 & H2 & Hname). apply serviceSelectorValue_nil in Hsel as [He Hl].
    exists v. split; try done. intros Hv. rewrite <- Hs. apply Hname; congruence.
  - intros (v' & [Hs He Hl H1 H2 Hname]).
    assert (Hsel' : serviceSelectorValue (ServiceSelector (pol_Spec p)) cfg ["spec"; "serviceSelector"] = (v', []))
      by (by apply serviceSelectorValue_nil).
    rewrite Hsel in Hsel'. injection Hsel' as -> ->. split; [done|]. split; [done|]. split; [done|].
    split; [done|]. destruct Hs as [-> _]. auto.
Qed.

Lemma valid_policy_selects cfg p v args v' :
  valid_policy cfg p v ->
  ServiceLabelKey args = cfg_ServiceLabelKey cfg -> ManagedSchedulerName args = cfg_ManagedSchedulerName cfg ->
  selects_service args v' p -> v' = v.
Proof.
  intros Hp Hk Hm (_ & _ & Hl). rewrite (vp_labels _ _ _ Hp), Hk in Hl.
  assert (H : ({[ cfg_ServiceLabelKey cfg := v ]} : string_map) !! cfg_ServiceLabelKey cfg = Some v')
    by (rewrite Hl; apply lookup_singleton_eq).
  rewrite lookup_singleton_eq in H. congruence.
Qed.

(** Another object, for the managed scheduler, that selects exactly the pods whose
    service label is [v]. *)
Definition competes (cfg : PluginConfig) (v : string) (e p : ServiceSpreadPolicy) : Prop :=
  pol_Name e <> pol_Name p /\ SchedulerName (pol_Spec e) = cfg_ManagedSchedulerName cfg /\
  sel_MatchExpressions (ServiceSelector (pol_Spec e)) = [] /\
  sel_MatchLabels (ServiceSelector (pol_Spec e)) = {[ cfg_ServiceLabelKey cfg := v ]}.

Lemma selectsSameService_spec e p cfg v :
  valid_policy cfg p v -> selectsSameService e p cfg = true <-> competes cfg v e p.
Proof.
  unfold competes. intros Hp. rewrite <- singleton_map_spec. unfold selectsSameService.
  rewrite (vp_labels _ _ _ Hp), lookup_singleton_eq. destruct (vp_sched _ _ _ Hp) as [-> _].
  set (se := ServiceSelector (pol_Spec e)).
  destruct (decide (pol_Name e = pol_Name p)) as [Hn|Hn]; [naive_solver|].
  destruct (decide (SchedulerName (pol_Spec e) <> cfg_ManagedSchedulerName cfg)) as [Hs|Hs]; [naive_solver|].
  apply dec_stable in Hs.
  destruct (decide (size (sel_MatchLabels se) <> 1%nat \/ sel_MatchExpressions se <> [])) as [Hd|Hd];
    [naive_solver|].
  assert (size (sel_MatchLabels se) = 1%nat /\ sel_MatchExpressions se = []) as [H1 H2].
  { split; apply dec_stable; naive_solver. }
  destruct (sel_MatchLabels se !! cfg_ServiceLabelKey cfg) as [v'|]; [|naive_solver].
  rewrite bool_decide_eq_true. naive_solver.
Qed.

Lemma valid_policy_value cfg p v v' : valid_policy cfg p v -> valid_policy cfg p v' -> v = v'.
Proof.
  intros H1 H2. pose proof (vp_labels _ _ _ H1) as E. rewrite (vp_labels _ _ _ H2) in E.
  apply (f_equal (lookup (cfg_ServiceLabelKey cfg))) in E. rewrite !lookup_singleton_eq in E. congruence.
Qed.

Lemma checkOverlap_nil reader p cfg v :
  valid_policy cfg p v ->
  checkOverlap reader p cfg = [] <->
  (reader = None \/ exists list items, reader = Some list /\ list (pol_Namespace p) = Ok items /\
     forall e, e ∈ items -> selectsSameService e p cfg = false).
Proof.
  intros Hp. unfold checkOverlap. destruct reader as [list|]; [|split; [by left|done]].
  destruct (list (pol_Namespace p)) as [items|] eqn:Hl.
  2: { split; [done|]. intros [?|(l & it & [= <-] & Hi & _)]; congruence. }
  destruct (List.find _ items) as [e|] eqn:Hf.
  - apply List.find_some in Hf as [Hin He]. split; [done|]. intros [?|(l & it & [= <-] & Hi & Hno)]; [done|].
    rewrite Hl in Hi. injection Hi as <-. apply list_elem_of_In in Hin. apply Hno in Hin. congruence.
  - split; [|done]. intros _. right. exists list, items. split; [done|]. split; [done|].
    intros e Hin. apply list_elem_of_In in Hin. exact (List.find_none _ _ Hf e Hin).
Qed.

Lemma checkOverlap_competes reader p cfg v :
  valid_policy cfg p v ->
  checkOverlap reader p cfg = [] <->
  reader = None \/ exists list items, reader = Some list /\ list (pol_Namespace p) = Ok items /\
    forall e, e ∈ items -> ~ competes cfg v e p.
Proof.
  intros Hp. rewrite (checkOverlap_nil reader p cfg v Hp).
  by setoid_rewrite <- (fun e => selectsSameService_spec e p cfg v Hp); setoid_rewrite not_true_iff_false.
Qed.

(** ** Theorems *)

(** The static validation accepts exactly the valid policies: the managed
    scheduler, one exact label on the configured key and no expressions, both
    limits at least 1 and, unless the selected value is empty, the deterministic
    name; otherwise it reports at least one error. *)
Theorem ValidatePolicy_exact p cfg :
  (ValidatePolicy p cfg = [] <-> exists v, valid_policy cfg p v) /\
  (forall v1 v2, valid_policy cfg p v1 -> valid_policy cfg p v2 -> v1 = v2).
Proof.
  split; [apply ValidatePolicy_nil|]. intros v1 v2 H1 H2.
  pose proof (vp_labels _ _ _ H1) as E. rewrite (vp_labels _ _ _ H2) in E.
  assert (H : ({[ cfg_ServiceLabelKey cfg := v2 ]} : string_map) !! cfg_ServiceLabelKey cfg = Some v1)
    by (rewrite E; apply lookup_singleton_eq).
  rewrite lookup_singleton_eq in H. congruence.
Qed.

Definition ex_cfg : PluginConfig := MkConfig "svc" DefaultManagedSchedulerName.
Definition ex_named (name value : string) : ServiceSpreadPolicy :=
  Policy name "ns" (PolicySpec DefaultManagedSchedulerName (MkSelector {[ "svc" := value ]} []) 1 1).
Definition ex_good : ServiceSpreadPolicy :=
  ex_named (ExpectedPolicyName "ns" DefaultManagedSchedulerName "svc" "app") "app".

Lemma ex_good_valid : valid_policy ex_cfg ex_good "app".
Proof. split; simpl; try done. Qed.

Lemma ValidatePolicy_exact_witness :
  ValidatePolicy ex_good ex_cfg = [] /\ (exists v, valid_policy ex_cfg ex_good v) /\ "app" = "app".
Proof.
  assert (H : ValidatePolicy ex_good ex_cfg = []) by (vm_compute; reflexivity).
  split; [exact H|]. split.
  - exact (proj1 (proj1 (ValidatePolicy_exact ex_good ex_cfg)) H).
  - exact (proj2 (ValidatePolicy_exact ex_good ex_cfg) "app" "app" ex_good_valid ex_good_valid).
Defined.

(** C29: the webhook and the plugin fit together.  If every policy of a namespace
    passed the webhook's validation under the shared configuration and the
    namespace's objects have distinct names, the plugin never finds an ambiguous
    policy for a pod with a non-empty service value. *)
Theorem admitted_policies_unambiguous pl cfg ns v ps p st log :
  ServiceLabelKey (pl_args pl) = cfg_ServiceLabelKey cfg ->
  ManagedSchedulerName (pl_args pl) = cfg_ManagedSchedulerName cfg ->
  d_policies (pl_deps pl) ns = Ok ps -> NoDup (pol_Name <$> ps) ->
  (forall q, q ∈ ps -> pol_Namespace q = ns /\ ValidatePolicy q cfg = []) ->
  v <> "" ->
  resolvePolicy pl ns v = (p, st, log) ->
  log = [] \/ log = [policyResolutionFailures "ServiceSpreadPolicyNotFound"].
Proof.
  intros Hk Hm Hps Hnd Hall Hv Hres. unfold resolvePolicy in Hres. rewrite Hps in Hres.
  destruct (List.filter (policy_matches (pl_args pl) v) ps) as [|p1 [|p2 l]] eqn:Hf.
  - destruct (default true (RequirePolicy (pl_args pl))); injection Hres as <- <- <-; auto.
  - injection Hres as <- <- <-. auto.
  - exfalso. destruct (filter_two _ _ _ _ _ _ Hf) as (i & j & Hij & Hi & Hj & H1 & H2).
    assert (Hname : forall q k, ps !! k = Some q -> selects_service (pl_args pl) v q ->
      pol_Name q = ExpectedPolicyName ns (cfg_ManagedSchedulerName cfg) (cfg_ServiceLabelKey cfg) v).
    { intros q k Hq Hs. destruct (Hall q) as [Hns Hval]; [by eapply list_elem_of_lookup_2|].
      apply ValidatePolicy_nil in Hval as [v' Hval].
      pose proof (valid_policy_selects _ _ _ _ _ Hval Hk Hm Hs) as <-.
      rewrite <- Hns. by apply (vp_name _ _ _ Hval). }
    apply Hij. apply (NoDup_lookup (pol_Name <$> ps) i j (pol_Name p1) Hnd).
    + by rewrite list_lookup_fmap, Hi.
    + rewrite list_lookup_fmap, Hj. simpl. f_equal. rewrite (Hname p1 i), (Hname p2 j); done.
Qed.

Lemma admitted_policies_unambiguous_witness :
  snd (resolvePolicy (ex_plugin true [ex_good]) "ns" "app") = [] \/
  snd (resolvePolicy (ex_plugin true [ex_good]) "ns" "app")
    = [policyResolutionFailures "ServiceSpreadPolicyNotFound"].
Proof.
  refine (admitted_policies_unambiguous (ex_plugin true [ex_good]) ex_cfg "ns" "app" [ex_good]
            (Some ex_good) None _ eq_refl eq_refl eq_refl (NoDup_singleton _) _ _ _).
  - intros q Hq. apply list_elem_of_singleton in Hq as ->. split; [reflexivity|vm_compute; reflexivity].
  - discriminate.
  - vm_compute. reflexivity.
Defined.

(** The empty service value escapes the naming rule: two policies with any two
    different names that select the empty value of the configured label both pass
    the validation, and the plugin then rejects the pods of that service as
    ambiguous. *)
Theorem empty_value_ambiguous n1 n2 :
  ValidatePolicy (ex_named n1 "") ex_cfg = [] /\ ValidatePolicy (ex_named n2 "") ex_cfg = [] /\
  snd (resolvePolicy (ex_plugin true [ex_named n1 ""; ex_named n2 ""]) "ns" "")
    = [policyResolutionFailures "AmbiguousServiceSpreadPolicy"].
Proof.
  assert (H : forall n, ValidatePolicy (ex_named n "") ex_cfg = []).
  { intros n. apply ValidatePolicy_nil. exists "". split; simpl; try done. }
  split; [apply H|]. split; [apply H|].
  assert (Hm : forall n, policy_matches (ex_cargs true) "" (ex_named n "") = true).
  { intros n. by apply policy_matches_spec. }
  unfold resolvePolicy. cbn [d_policies pl_deps ex_plugin ex_deps pl_args List.filter].
  rewrite !Hm. reflexivity.
Qed.

(** C30: the handler is exact and fails closed.  A create or update is accepted if
    and only if the object is a policy, the shared configuration is available, the
    policy is valid and the overlap check could be made (or there is no reader) and
    found no other object of the namespace that competes with it: one of another name
    with the managed scheduler whose selector is exactly the service label with the
    same value.  Where the existing policies are valid themselves and the value is not
    empty, the check never stops a valid policy. *)
Theorem validate_exact cfg_get reader obj :
  (validate cfg_get reader obj = Accepted <->
   exists p cfg v, obj = ReqPolicy p /\ cfg_get = Ok cfg /\ valid_policy cfg p v /\
     (reader = None \/ exists list items, reader = Some list /\ list (pol_Namespace p) = Ok items /\
        forall e, e ∈ items -> ~ competes cfg v e p)) /\
  (forall cfg p v list items, cfg_get = Ok cfg -> reader = Some list -> obj = ReqPolicy p ->
     valid_policy cfg p v -> v <> "" -> list (pol_Namespace p) = Ok items ->
     (forall e, e ∈ items -> pol_Namespace e = pol_Namespace p /\ exists v', valid_policy cfg e v') ->
     validate cfg_get reader obj = Accepted).
Proof.
  assert (Hexact : validate cfg_get reader obj = Accepted <->
   exists p cfg v, obj = ReqPolicy p /\ cfg_get = Ok cfg /\ valid_policy cfg p v /\
     (reader = None \/ exists list items, reader = Some list /\ list (pol_Namespace p) = Ok items /\
        forall e, e ∈ items -> ~ competes cfg v e p)).
  { destruct obj as [p|ty]; [|split; [done|naive_solver]]. unfold validate.
    destruct cfg_get as [cfg|e]; [|split; [done|naive_solver]].
    destruct (ValidatePolicy p cfg) as [|er ers] eqn:Hval.
    - apply ValidatePolicy_nil in Hval as [v Hv].
      transitivity (checkOverlap reader p cfg = []); [by destruct (checkOverlap reader p cfg)|].
      rewrite (checkOverlap_competes reader p cfg v Hv). split.
      + intros Ho. by exists p, cfg, v.
      + intros (? & ? & v' & [= <-] & [= <-] & Hv' & Ho). by rewrite (valid_policy_value _ _ _ _ Hv Hv').
    - split; [done|]. intros (p' & cfg' & v & [= <-] & [= <-] & Hv & _).
      assert (ValidatePolicy p cfg = []) by (apply ValidatePolicy_nil; by exists v). congruence. }
  split; [done|]. intros cfg p v list items -> -> -> Hp Hne Hl Hall. apply Hexact.
  exists p, cfg, v. do 3 (split; [done|]). right. exists list, items. split; [done|]. split; [done|].
  intros e He (Hn & _ & _ & Hlab). destruct (Hall e He) as [Hns [v' Hv']]. apply Hn.
  rewrite (vp_labels _ _ _ Hv') in Hlab. assert (v' = v) as ->.
  { apply (f_equal (lookup (cfg_ServiceLabelKey cfg))) in Hlab. rewrite !lookup_singleton_eq in Hlab. congruence. }
  by rewrite (vp_name _ _ _ Hp Hne), (vp_name _ _ _ Hv' Hne), Hns.
Qed.

Lemma validate_exact_witness :
  validate (Ok ex_cfg) (Some (fun _ => Ok [ex_good])) (ReqPolicy ex_good) = Accepted.
Proof.
  refine (proj2 (validate_exact (Ok ex_cfg) (Some (fun _ => Ok [ex_good])) (ReqPolicy ex_good)) ex_cfg ex_good "app"
    (fun _ => Ok [ex_good]) [ex_good] eq_refl eq_refl eq_refl ex_good_valid ltac:(discriminate) eq_refl _).
  intros e He. apply list_elem_of_singleton in He as ->. split; [reflexivity|]. exists "app". exact ex_good_valid.
Defined.

Lemma ParseConfigMap_ok `{KubeLib} cm cfg :
  ParseConfigMap cm = Ok cfg ->
  exists c, cm = Some c /\
    cfg_ServiceLabelKey cfg = strings_TrimSpace (map_get "" (cm_Data c) "serviceLabelKey") /\
    cfg_ServiceLabelKey cfg <> "" /\ IsQualifiedName (cfg_ServiceLabelKey cfg) = [] /\
    cfg_ManagedSchedulerName cfg <> "" /\ IsQualifiedName (cfg_ManagedSchedulerName cfg) = [] /\
    (let m := strings_TrimSpace (map_get "" (cm_Data c) "managedSchedulerName") in
     cfg_ManagedSchedulerName cfg = if decide (m = "") then DefaultManagedSchedulerName else m).
Proof.
  unfold ParseConfigMap. destruct cm as [c|]; [|done].
  set (k := strings_TrimSpace (map_get "" (cm_Data c) "serviceLabelKey")).
  set (m := strings_TrimSpace (map_get "" (cm_Data c) "managedSchedulerName")).
  destruct (decide (k = "")) as [|Hk]; [done|]. destruct (IsQualifiedName k) eqn:Ek; [|done].
  destruct (decide (m = "")) as [Hm|Hm].
  - destruct (IsQualifiedName DefaultManagedSchedulerName) eqn:Em; [|done]. intros [= <-].
    exists c. fold k m. rewrite decide_True by done. done.
  - destruct (IsQualifiedName m) eqn:Em; [|done]. intros [= <-].
    exists c. fold k m. rewrite decide_False by done. done.
Qed.

(** C31: the configuration source fails closed.  After any sequence of informer
    events [Get] returns a configuration if and only if the last event about a
    ConfigMap (events of other objects are ignored) stored one that parses to it;
    so it fails before the first event, after a deletion and after an invalid
    update, and a configuration it returns has a non-empty qualified label key and
    scheduler name. *)
Theorem ConfigMapSource_fail_closed `{KubeLib} ns name es cfg :
  let src := foldl cm_step (NewConfigMapSource ns name) es in
  (Get src = Ok cfg <->
   exists pre cm post, es = pre ++ CmStore (Some cm) :: post /\ ParseConfigMap cm = Ok cfg /\
     forall e, e ∈ post -> e = CmStore None) /\
  (Get src = Ok cfg ->
     cfg_ServiceLabelKey cfg <> "" /\ IsQualifiedName (cfg_ServiceLabelKey cfg) = [] /\
     cfg_ManagedSchedulerName cfg <> "" /\ IsQualifiedName (cfg_ManagedSchedulerName cfg) = []).
Proof.
  intros src.
  assert (Hiff : Get src = Ok cfg <->
   exists pre cm post, es = pre ++ CmStore (Some cm) :: post /\ ParseConfigMap cm = Ok cfg /\
     forall e, e ∈ post -> e = CmStore None).
  { unfold src. clear src. induction es as [|e es IH] using rev_ind.
    - split; [done|]. intros (pre & cm & post & Hes & _). by destruct pre.
    - rewrite foldl_app. cbn [foldl]. set (s := foldl _ _ _) in *. destruct e as [[cm|]|]; cbn [cm_step store].
      + unfold Get at 1. cbn [src_state]. split.
        * intros Hp. exists es, cm, []. split; [done|]. split; [done|].
          intros e He. by apply not_elem_of_nil in He.
        * intros (pre & cm' & post & Hes & Hp & Hpost). destruct post as [|e post] using rev_ind.
          -- apply app_inj_tail in Hes as [_ [= ->]]. done.
          -- clear IHpost. rewrite app_comm_cons, app_assoc in Hes. apply app_inj_tail in Hes as [_ <-].
             specialize (Hpost (CmStore (Some cm)) ltac:(set_solver)). done.
      + rewrite IH. split.
        * intros (pre & cm & post & -> & Hp & Hpost). exists pre, cm, (post ++ [CmStore None]).
          split; [by rewrite <- app_assoc|]. split; [done|]. set_solver.
        * intros (pre & cm & post & Hes & Hp & Hpost). destruct post as [|e post] using rev_ind.
          -- apply app_inj_tail in Hes as [_ ?]. done.
          -- clear IHpost. rewrite app_comm_cons, app_assoc in Hes. apply app_inj_tail in Hes as [-> _].
             exists pre, cm, post. split; [done|]. split; [done|]. set_solver.
      + split; [done|]. intros (pre & cm & post & Hes & Hp & Hpost).
        destruct post as [|e post] using rev_ind.
        * apply app_inj_tail in Hes as [_ ?]. done.
        * clear IHpost. rewrite app_comm_cons, app_assoc in Hes. apply app_inj_tail in Hes as [_ <-].
          specialize (Hpost CmDelete ltac:(set_solver)). done. }
  split; [exact Hiff|]. intros HG. apply Hiff in HG as (pre & cm & post & _ & Hp & _).
  apply ParseConfigMap_ok in Hp as (c & _ & _ & H1 & H2 & H3 & H4 & _). done.
Qed.

Definition ex_cm : ConfigMap :=
  MkConfigMap "kube-system" "service-spread-scheduler-config" {[ "serviceLabelKey" := " svc " ]}.

Lemma ConfigMapSource_fail_closed_witness :
  Get (foldl cm_step (NewConfigMapSource "kube-system" "c") [CmDelete; CmStore (Some (Some ex_cm))])
    = Ok ex_cfg /\ cfg_ServiceLabelKey ex_cfg <> "".
Proof.
  assert (H : Get (foldl cm_step (NewConfigMapSource "kube-system" "c")
                     [CmDelete; CmStore (Some (Some ex_cm))]) = Ok ex_cfg) by (vm_compute; reflexivity).
  split; [exact H|].
  exact (proj1 (proj2 (ConfigMapSource_fail_closed "kube-system" "c"
    [CmDelete; CmStore (Some (Some ex_cm))] ex_cfg) H)).
Defined.

(** C32: every policy name is [ssp-] and twelve characters, the first six bytes of the
    SHA-256 hash of the identity's JSON in hexadecimal.  On ASCII fields that JSON is
    injective: two identities have the same one exactly when all four fields agree.
    So two identities share a name exactly when those six bytes agree, which for
    different identities is a collision of the truncated hash. *)
Theorem ExpectedPolicyName_identifies n1 s1 k1 v1 n2 s2 k2 v2 :
  Forall is_ascii [n1; s1; k1; v1] -> Forall is_ascii [n2; s2; k2; v2] ->
  let hash n s k v := take 6 (Sha256.Sum256 (to_bytes (canonical_identity n s k v))) in
  ExpectedPolicyName n1 s1 k1 v1 = "ssp-" +:+ hex_EncodeToString (hash n1 s1 k1 v1) /\
  String.length (hex_EncodeToString (hash n1 s1 k1 v1)) = 12%nat /\
  (canonical_identity n1 s1 k1 v1 = canonical_identity n2 s2 k2 v2 <->
   n1 = n2 /\ s1 = s2 /\ k1 = k2 /\ v1 = v2) /\
  (ExpectedPolicyName n1 s1 k1 v1 = ExpectedPolicyName n2 s2 k2 v2 <-> hash n1 s1 k1 v1 = hash n2 s2 k2 v2).
Proof.
  intros H1 H2 hash. split; [|split; [|split]].
  - unfold ExpectedPolicyName, hash. by rewrite <- sha12_bytes.
  - unfold hash. rewrite <- sha12_bytes. apply sha12_length.
  - split; [|by intros (-> & -> & -> & ->)]. intros H.
    apply json_array_inj in H; [|done..]. by injection H as -> -> -> ->.
  - unfold ExpectedPolicyName, hash. rewrite !sha12_bytes. split; [|by intros ->].
    intros H%(inj (String.append PolicyNamePrefix)). by apply hex_inj in H; [|apply Forall_take, Sum256_bytes..].
Qed.

Lemma ExpectedPolicyName_identifies_witness :
  canonical_identity "a" "s" "k" "b,c" <> canonical_identity "a" "s" "k,b" "c".
Proof.
  intros H.
  assert (H1 : Forall is_ascii ["a"; "s"; "k"; "b,c"]) by (repeat constructor).
  assert (H2 : Forall is_ascii ["a"; "s"; "k,b"; "c"]) by (repeat constructor).
  destruct (ExpectedPolicyName_identifies "a" "s" "k" "b,c" "a" "s" "k,b" "c" H1 H2) as (_ & _ & Hid & _).
  destruct (proj1 Hid H) as (_ & _ & Hk & _).
  discriminate Hk.
Defined.

(** The encoding is not injective for every field value: bytes that are not
    valid UTF-8 are all written as the replacement character, so different label
    values get the same policy name. *)
Theorem ExpectedPolicyName_invalid_utf8 ns sched key :
  ExpectedPolicyName ns sched key (String "255" "") = ExpectedPolicyName ns sched key (String "254" "") /\
  String "255" "" <> String "254" "".
Proof. split; [reflexivity|discriminate]. Qed.
