(* ===== verification/Observer.v ===== *)
(** * Replica-target observer (internal/spread/replicatarget.go)

    Metrics only: the target of a deployment, the aggregation per service, the
    capacity deficit and the export to the gauges.  The readings of HPAs and
    ScaledObjects are arguments, one per call; the gauges are the log of the values
    set. *)

From S2P Require Import Prelude GoStd Kube Fixtures State Keys Domain Api Plugin.
From Stdlib Require Import Ascii.

(** ** Data *)

Inductive targetSource :=
| targetSourceHPA
| targetSourceKEDAFallback
| targetSourceDeployment
| targetSourceLastGood
| targetSourceFallback.

#[export] Instance targetSource_eq_dec : EqDecision targetSource.
Proof. solve_decision. Defined.

Definition source_string (s : targetSource) : string :=
  match s with
  | targetSourceHPA => "hpa"
  | targetSourceKEDAFallback => "kedaFallback"
  | targetSourceDeployment => "deployment"
  | targetSourceLastGood => "lastGood"
  | targetSourceFallback => "ReplicaTargetFallback"
  end.

Record deploymentTarget := DeploymentTarget { dt_value : Z; dt_source : targetSource }.

Record HPA := MkHPA {
  hpa_RefKind : string;
  hpa_RefName : string;
  hpa_MaxReplicas : Z;
  hpa_DesiredReplicas : Z;
}.

Record Deployment := MkDeployment {
  dep_Namespace : string;
  dep_Name : string;
  dep_Replicas : option Z;
  dep_TemplateLabels : string_map;
  dep_TemplateSpec : PodSpec;
}.

Record DeploymentDetail := MkDetail { dd_Deployment : string; dd_Source : string; dd_Value : Z }.

Record DomainSeries := MkSeries {
  ds_Namespace : string;
  ds_Service : string;
  ds_Domain : string;
  ds_ReplicaTarget : Z;
  ds_ObservedPods : Z;
  ds_BoundPods : Z;
  ds_FallbackActive : bool;
  ds_CapacityDeficit : Z;
  ds_NodePods : gmap string Z;
  ds_TargetDetail : list DeploymentDetail;
}.

(** ** Target of one deployment *)

Definition dep_key (dep : Deployment) : string := dep_Namespace dep +:+ "/" +:+ dep_Name dep.

(** [maxDesired] of the loop over the HPAs. *)
Definition max_desired (hpas : list HPA) : Z :=
  foldl (fun m h => max_step m (hpa_DesiredReplicas h)) (-1) hpas.

(** [lastGood] is [None] for the nil map; [hpas] and [so] are what
    [HPAsFor] and [ScaledObjectMinReplicas] return. *)
Definition set_lastGood (lastGood : option (gmap string deploymentTarget)) (key : string)
    (t : deploymentTarget) : option (gmap string deploymentTarget) :=
  (fun m => <[key := t]> m) <$> lastGood.

Definition resolveDeploymentTarget (dep : Deployment) (hpas : res (list HPA)) (so : res (Z * bool))
    (lastGood : option (gmap string deploymentTarget))
    : Z * targetSource * option (gmap string deploymentTarget) :=
  let key := dep_key dep in
  let replicas := default 0 (dep_Replicas dep) in
  let after_hpa :=
    match so with
    | Ok (min, true) =>
      let v := if min >? replicas then min else replicas in
      (v, targetSourceKEDAFallback, set_lastGood lastGood key (DeploymentTarget v targetSourceKEDAFallback))
    | _ =>
      let fall_through :=
        (replicas, targetSourceDeployment,
         set_lastGood lastGood key (DeploymentTarget replicas targetSourceDeployment)) in
      match hpas with
      | Err _ =>
        match default ∅ lastGood !! key with
        | Some lg => (dt_value lg, targetSourceLastGood, lastGood)
        | None => fall_through
        end
      | Ok _ => fall_through
      end
    end in
  match hpas with
  | Ok ((_ :: _) as l) =>
    let maxDesired := max_desired l in
    if maxDesired >=? 0 then
      let src := if (1 <? Z.of_nat (length l)) then targetSourceFallback else targetSourceHPA in
      (maxDesired, src, set_lastGood lastGood key (DeploymentTarget maxDesired src))
    else after_hpa
  | _ => after_hpa
  end.

(** ** Aggregation *)

Definition aggregateDomain (domainDesired observedPods : Z) : Z :=
  if domainDesired >? observedPods then domainDesired else observedPods.

Definition capacityDeficit (hpaMax eligibleNodes maxPodsPerNode : Z) : Z :=
  let d := hpaMax ⊟ wrap32 (eligibleNodes * maxPodsPerNode) in
  if d <? 0 then 0 else d.

Record svcAgg := MkAgg {
  ag_desired : Z;
  ag_observed : Z;
  ag_bound : Z;
  ag_fallback : bool;
  ag_hpaMax : Z;
  ag_deps : list Deployment;
  ag_detail : list DeploymentDetail;
  ag_nodePods : gmap string Z;
}.

Definition emptyAgg : svcAgg := MkAgg 0 0 0 false 0 [] [] ∅.

Section observer.
Context `{KubeLib}.

(** The observer's dependencies; a nil reader is [None]. *)
Record ObserverDeps := MkObserverDeps {
  od_ServiceLabelKey : string;
  od_Nodes : option (res (list (option Node)));
  od_Policies : option (string -> res (list ServiceSpreadPolicy));
  od_ManagedSchedulerName : string;
  od_ExportNodePods : bool;
  od_ExportDetail : bool;
}.

(** The three readings made for one deployment. *)
Record readings := MkReadings {
  rd_hpas : res (list HPA);
  rd_scaledObject : res (Z * bool);
  rd_hpas_again : res (list HPA);
}.

(** The state of [Compute]'s loops. *)
Record compute_state := MkCompute {
  cs_aggs : gmap string svcAgg;
  cs_nsOf : gmap string string;
  cs_lastGood : gmap string deploymentTarget;
}.

Definition add_deployment (od : ObserverDeps) (dep : Deployment) (rd : readings) (v : Z)
    (src : targetSource) (a : svcAgg) : svcAgg :=
  MkAgg (ag_desired a ⊞ v) (ag_observed a) (ag_bound a)
    (bool_decide (src = targetSourceFallback \/ src = targetSourceLastGood) || ag_fallback a)
    (match rd_hpas_again rd with
     | Ok hpas => foldl (fun m h => max_step m (hpa_MaxReplicas h)) (ag_hpaMax a) hpas
     | Err _ => ag_hpaMax a
     end)
    (ag_deps a ++ [dep])
    (if od_ExportDetail od then ag_detail a ++ [MkDetail (dep_Name dep) (source_string src) v]
     else ag_detail a)
    (ag_nodePods a).

Definition deployment_step (od : ObserverDeps) (svcOf : string_map)
    (st : compute_state) (dr : Deployment * readings) : compute_state :=
  let '(dep, rd) := dr in
  match svcOf !! dep_key dep with
  | None => st
  | Some svc =>
    let key := dep_Namespace dep +:+ "/" +:+ svc in
    let nsOf := match cs_aggs st !! key with
                | None => <[key := dep_Namespace dep]> (cs_nsOf st)
                | Some _ => cs_nsOf st
                end in
    let a := default emptyAgg (cs_aggs st !! key) in
    let '(v, src, lastGood) :=
      resolveDeploymentTarget dep (rd_hpas rd) (rd_scaledObject rd) (Some (cs_lastGood st)) in
    MkCompute (<[key := add_deployment od dep rd v src a]> (cs_aggs st)) nsOf
              (default (cs_lastGood st) lastGood)
  end.

Definition add_pod (od : ObserverDeps) (p : Pod) (a : svcAgg) : svcAgg :=
  let node := spec_NodeName (pod_Spec p) in
  let has_node := negb (bool_decide (node = "")) in
  MkAgg (ag_desired a) (ag_observed a ⊞ 1)
    (if has_node then ag_bound a ⊞ 1 else ag_bound a)
    (ag_fallback a) (ag_hpaMax a) (ag_deps a) (ag_detail a)
    (if has_node && od_ExportNodePods od
     then <[node := map_get 0 (ag_nodePods a) node ⊞ 1]> (ag_nodePods a) else ag_nodePods a).

Definition active (p : Pod) : bool :=
  bool_decide (pod_Phase p = PodPending) || bool_decide (pod_Phase p = PodRunning).

Definition pod_step (od : ObserverDeps) (aggs : gmap string svcAgg) (p : Pod) : gmap string svcAgg :=
  if negb (active p) then aggs
  else match pod_Labels p !! od_ServiceLabelKey od with
       | None => aggs
       | Some svc =>
         let key := pod_Namespace p +:+ "/" +:+ svc in
         match aggs !! key with
         | None => aggs
         | Some a => <[key := add_pod od p a]> aggs
         end
       end.

(** The policies loop: [None] when none or more than one selects the service. *)
Fixpoint unique_match (sched serviceLabelKey service : string) (ps : list ServiceSpreadPolicy)
    (found : option ServiceSpreadPolicy) : option ServiceSpreadPolicy :=
  match ps with
  | [] => found
  | p :: ps' =>
    if decide (SchedulerName (pol_Spec p) <> sched) then unique_match sched serviceLabelKey service ps' found
    else if selectorMatchesService (ServiceSelector (pol_Spec p)) serviceLabelKey service then
      match found with
      | Some _ => None
      | None => unique_match sched serviceLabelKey service ps' (Some p)
      end
    else unique_match sched serviceLabelKey service ps' found
  end.

Definition node_union (nodes : list (option Node)) (deps : list Deployment) : gset string :=
  foldl (fun u dep => foldl (domain_step (dep_TemplateSpec dep)) u nodes) ∅ deps.

Definition capacityDeficitFor (od : ObserverDeps) (namespace service : string) (a : svcAgg)
    (policies : string -> res (list ServiceSpreadPolicy)) (nodes : res (list (option Node))) : Z :=
  if ag_hpaMax a <=? 0 then 0
  else
    match policies namespace with
    | Err _ => 0
    | Ok ps =>
      match unique_match (od_ManagedSchedulerName od) (od_ServiceLabelKey od) service ps None with
      | None => 0
      | Some policy =>
        match nodes with
        | Err _ => 0
        | Ok l => capacityDeficit (ag_hpaMax a) (wrap32 (Z.of_nat (size (node_union l (ag_deps a)))))
                                  (MaxPodsPerNode (pol_Spec policy))
        end
      end
    end.

Definition series_of (od : ObserverDeps) (nsOf : string_map) (ka : string * svcAgg) : DomainSeries :=
  let '(key, a) := ka in
  let ns := map_get "" nsOf key in
  let svc := slice_from key (str_len ns + 1) in
  let deficit := match od_Nodes od, od_Policies od with
                 | Some nodes, Some policies => capacityDeficitFor od ns svc a policies nodes
                 | _, _ => 0
                 end in
  MkSeries ns svc "default" (aggregateDomain (ag_desired a) (ag_observed a)) (ag_observed a)
           (ag_bound a) (ag_fallback a) deficit (ag_nodePods a) (ag_detail a).

(** The series, in an enumeration of the services, and the new [lastGood]. *)
Definition Compute (od : ObserverDeps) (lastGood : gmap string deploymentTarget)
    (deployments : list (Deployment * readings)) (svcOf : string_map) (pods : list Pod)
    : list DomainSeries * gmap string deploymentTarget :=
  let st := foldl (deployment_step od svcOf) (MkCompute ∅ ∅ lastGood) deployments in
  let aggs := foldl (pod_step od) (cs_aggs st) pods in
  (series_of od (cs_nsOf st) <$> map_to_list aggs, cs_lastGood st).

End observer.

(** ** Export *)

(** One [Set]: the gauge, its label values and the value. *)
Record gauge_set := GaugeSet { gs_gauge : string; gs_labels : list string; gs_value : Z }.

Definition parse_quotaKey (qk : string) : option (string * string) :=
  let eq := strings_LastIndex qk equals in
  let slash := strings_Index qk slash in
  if (eq <? 0) || (slash <? 0) || (slash >? eq) then None
  else Some (slice_to qk slash, slice_from qk (eq + 1)).

Definition by_service (counts : list (string * Z)) : gmap (string * string) Z :=
  foldl (fun m '(qk, n) => match parse_quotaKey qk with None => m | Some k => <[k := n]> m end) ∅ counts.

(** [counts] is the range over [ReservationCounts()]; a nil counter exports nothing. *)
Definition ExportReservations (counts : option (list (string * Z))) (series : list DomainSeries)
    : list gauge_set :=
  match counts with
  | None => []
  | Some counts =>
    let bySvc := by_service counts in
    (fun s => GaugeSet "service_spread_reservations" [ds_Namespace s; ds_Service s; ds_Domain s]
                (default 0 (bySvc !! (ds_Namespace s, ds_Service s)))) <$> series
  end.

(** The debug gauges at the end of the loop body. *)
Definition export_debug (s : DomainSeries) : list gauge_set :=
  let lbls := [ds_Namespace s; ds_Service s; ds_Domain s] in
  ((fun '(node, n) => GaugeSet "service_spread_node_pods" (lbls ++ [node]) n) <$> map_to_list (ds_NodePods s)) ++
  ((fun d => GaugeSet "service_spread_replica_target_detail" (lbls ++ [dd_Deployment d; dd_Source d])
               (dd_Value d)) <$> ds_TargetDetail s).

Definition export_one (s : DomainSeries) : list gauge_set :=
  let lbls := [ds_Namespace s; ds_Service s; ds_Domain s] in
  [GaugeSet "service_spread_replica_target" lbls (ds_ReplicaTarget s);
   GaugeSet "service_spread_observed_pods" lbls (ds_ObservedPods s);
   GaugeSet "service_spread_bound_pods" lbls (ds_BoundPods s);
   GaugeSet "service_spread_fallback_active" lbls (if ds_FallbackActive s then 1 else 0)] ++
  (if ds_CapacityDeficit s >? 0
   then [GaugeSet "service_spread_capacity_deficit" [ds_Namespace s; ds_Service s] (ds_CapacityDeficit s)]
   else []) ++ export_debug s.

Definition ExportSeries (series : list DomainSeries) : list gauge_set := concat (export_one <$> series).

(** The value a gauge shows after a log of sets, from an earlier value. *)
Definition gauge_after (v : option Z) (log : list gauge_set) (gauge : string) (lbls : list string) : option Z :=
  foldl (fun v g => if decide (gs_gauge g = gauge /\ gs_labels g = lbls) then Some (gs_value g) else v) v log.

Definition gauge_value (log : list gauge_set) (gauge : string) (lbls : list string) : option Z :=
  gauge_after None log gauge lbls.

(** ** The informer-backed source *)

Definition HPAsFor (all : res (list HPA)) (deployment : string) : res (list HPA) :=
  l ← all;
  Ok (List.filter (fun h => bool_decide (hpa_RefKind h = "Deployment") &&
                            bool_decide (hpa_RefName h = deployment)) l).

(** A cached object: not an unstructured object, or what the nested reads return
    (the int64 field is absent when it is missing or of another type). *)
Inductive so_object :=
| SoOther
| SoObject (kind name : string) (minReplicaCount : option Z).

Fixpoint scaled_min (objs : list so_object) (deployment : string) : Z * bool :=
  match objs with
  | [] => (0, false)
  | SoOther :: objs' => scaled_min objs' deployment
  | SoObject kind name min :: objs' =>
    if decide (kind <> "Deployment" \/ name <> deployment) then scaled_min objs' deployment
    else match min with
         | None => (0, true)
         | Some min => (wrap32 (if min <? 0 then 0 else min), true)
         end
  end.

(** [soSynced] is [None] when the function is nil. *)
Definition ScaledObjectMinReplicas (kedaKnown : bool) (soSynced : option bool)
    (objs : res (list so_object)) (namespace deployment : string) : res (Z * bool) :=
  if negb kedaKnown then Ok (0, false)
  else if bool_decide (soSynced = Some false)
  then Err "scaledobject informer not synced (degraded)"
  else match objs with
       | Err e => Err ("scaledobject list " +:+ namespace +:+ ": " +:+ e)
       | Ok l => Ok (scaled_min l deployment)
       end.

(** ** Lemmas *)

Lemma max_step_max m d : max_step m d = Z.max m d.
Proof. unfold max_step. rewrite Z.gtb_ltb. destruct (Z.ltb_spec m d); lia. Qed.

Lemma max_fold {A} (f : A -> Z) l b :
  let r := foldl (fun m x => max_step m (f x)) b l in
  b <= r /\ (forall x, x ∈ l -> f x <= r) /\ (r = b \/ exists x, x ∈ l /\ f x = r).
Proof.
  revert b. induction l as [|y l IH]; intros b; cbn [foldl].
  - split; [lia|]. split; [|by left]. intros x Hx. by apply not_elem_of_nil in Hx.
  - destruct (IH (max_step b (f y))) as (Hb & Hl & Hex). rewrite max_step_max in *.
    split; [lia|]. split.
    + intros x Hx. apply elem_of_cons in Hx as [->|Hx]; [lia|auto].
    + destruct Hex as [Hr|(x & Hx & Hr)].
      * destruct (Z.max_spec b (f y)) as [[_ E]|[_ E]]; [right|left; lia].
        exists y. split; [by apply elem_of_cons; left|lia].
      * right. exists x. split; [by apply elem_of_cons; right|done].
Qed.

Lemma max_desired_spec l :
  (exists h, h ∈ l /\ 0 <= hpa_DesiredReplicas h) ->
  0 <= max_desired l /\ is_max hpa_DesiredReplicas l (max_desired l).
Proof.
  intros (h & Hh & Hpos). destruct (max_fold hpa_DesiredReplicas l (-1)) as (_ & Hl & Hex).
  fold (max_desired l) in Hl, Hex. pose proof (Hl h Hh). split; [lia|]. split; [|done].
  destruct Hex as [?|Hex]; [lia|done].
Qed.

Lemma max_desired_neg l :
  (forall h, h ∈ l -> hpa_DesiredReplicas h < 0) -> max_desired l < 0.
Proof.
  intros Hneg. destruct (max_fold hpa_DesiredReplicas l (-1)) as (_ & _ & Hex).
  fold (max_desired l) in Hex. destruct Hex as [?|(h & Hh & <-)]; [lia|auto].
Qed.

Lemma gauge_after_app v l1 l2 g lb :
  gauge_after v (l1 ++ l2) g lb = gauge_after (gauge_after v l1 g lb) l2 g lb.
Proof. unfold gauge_after. apply foldl_app. Qed.

Lemma gauge_after_skip v log g lb :
  (forall x, x ∈ log -> gs_gauge x <> g) -> gauge_after v log g lb = v.
Proof.
  unfold gauge_after. induction log as [|x log IH]; intros Hno; [done|]. cbn [foldl].
  rewrite decide_False; [|intros [Hx _]; by apply (Hno x); [apply elem_of_cons; left|]].
  apply IH. intros y Hy. apply Hno. apply elem_of_cons. by right.
Qed.

Lemma gauge_after_debug v s g lb :
  (g = "service_spread_capacity_deficit" \/ g = "service_spread_replica_target") ->
  gauge_after v (export_debug s) g lb = v.
Proof.
  intros Hg. apply gauge_after_skip. intros x Hx. unfold export_debug in Hx.
  apply elem_of_app in Hx as [Hx|Hx]; apply list_elem_of_fmap in Hx as (y & -> & _);
    [destruct y|]; simpl; by destruct Hg as [->| ->].
Qed.

(** *** Counting pods of a service *)

Definition of_service (lk key : string) (p : Pod) : bool :=
  active p && match pod_Labels p !! lk with
              | Some svc => bool_decide (pod_Namespace p +:+ "/" +:+ svc = key)
              | None => false
              end.

Definition has_node (p : Pod) : bool := negb (bool_decide (spec_NodeName (pod_Spec p) = "")).

Definition pods_of (lk key : string) (f : Pod -> bool) (pods : list Pod) : Z :=
  Z.of_nat (length (List.filter (fun p => of_service lk key p && f p) pods)).

Lemma pods_of_cons lk key f p ps :
  pods_of lk key f (p :: ps) = b2z (of_service lk key p && f p) + pods_of lk key f ps.
Proof.
  unfold pods_of. cbn [List.filter]. destruct (of_service lk key p && f p); unfold b2z; [|lia].
  rewrite length_cons. lia.
Qed.

Lemma pod_step_lookup od aggs p key a :
  aggs !! key = Some a ->
  pod_step od aggs p !! key =
    Some (if of_service (od_ServiceLabelKey od) key p then add_pod od p a else a).
Proof.
  intros Ha. unfold pod_step, of_service. destruct (active p); simpl; [|done].
  destruct (pod_Labels p !! od_ServiceLabelKey od) as [svc|]; [|done].
  destruct (decide (pod_Namespace p +:+ "/" +:+ svc = key)) as [<-|Hne].
  - rewrite Ha, lookup_insert_eq, bool_decide_eq_true_2 by done. done.
  - rewrite bool_decide_eq_false_2 by done. cbn [andb].
    destruct (aggs !! (pod_Namespace p +:+ "/" +:+ svc)) as [a'|]; [|done].
    by rewrite lookup_insert_ne.
Qed.

Lemma pod_step_none od aggs p key : aggs !! key = None -> pod_step od aggs p !! key = None.
Proof.
  intros Ha. unfold pod_step. destruct (active p); simpl; [|done].
  destruct (pod_Labels p !! od_ServiceLabelKey od) as [svc|]; [|done].
  destruct (aggs !! (pod_Namespace p +:+ "/" +:+ svc)) as [a'|] eqn:E; [|done].
  rewrite lookup_insert_ne; [done|]. intros Heq. congruence.
Qed.

Lemma pod_fold_lookup od key pods aggs a :
  aggs !! key = Some a -> 0 <= ag_observed a -> 0 <= ag_bound a <= ag_observed a ->
  ag_observed a + Z.of_nat (length pods) < max_int32 ->
  exists a', foldl (pod_step od) aggs pods !! key = Some a' /\
    ag_desired a' = ag_desired a /\ ag_fallback a' = ag_fallback a /\
    ag_observed a' = ag_observed a + pods_of (od_ServiceLabelKey od) key (fun _ => true) pods /\
    ag_bound a' = ag_bound a + pods_of (od_ServiceLabelKey od) key has_node pods.
Proof.
  revert aggs a. induction pods as [|p pods IH]; intros aggs a Ha Ho Hb Hs.
  - exists a. unfold pods_of. simpl. split; [done|]. split; [done|]. split; [done|]. lia.
  - rewrite length_cons in Hs. cbn [foldl]. rewrite !pods_of_cons, andb_true_r.
    pose proof (pod_step_lookup od aggs p key a Ha) as Hp.
    destruct (of_service (od_ServiceLabelKey od) key p) eqn:Ef.
    + assert (E1 : ag_observed (add_pod od p a) = ag_observed a + 1) by (simpl; int_small; lia).
      assert (E2 : ag_bound (add_pod od p a) = ag_bound a + b2z (has_node p)).
      { simpl. fold (has_node p). destruct (has_node p); simpl; [int_small|]; lia. }
      destruct (IH _ _ Hp) as (a' & Hl & Hd & Hf & Ho' & Hb');
        [rewrite E1; lia|rewrite E1, E2; unfold b2z; destruct (has_node p); lia|rewrite E1; lia|].
      exists a'. split; [done|]. split; [done|]. split; [done|]. rewrite Ho', Hb', E1, E2. simpl. lia.
    + destruct (IH _ _ Hp) as (a' & Hl & Hd & Hf & Ho' & Hb'); [done|done|lia|].
      exists a'. split; [done|]. split; [done|]. split; [done|]. rewrite Ho', Hb'. simpl. lia.
Qed.

Lemma pod_fold_none od key pods aggs :
  aggs !! key = None -> foldl (pod_step od) aggs pods !! key = None.
Proof.
  revert aggs. induction pods as [|p pods IH]; intros aggs Ha; [done|]. apply IH. by apply pod_step_none.
Qed.

(** After the deployments loop: nothing observed yet, and every key is a namespace
    and a service of some deployment. *)
Definition fresh_aggs (deployments : list Deployment) (svcOf : string_map) (st : compute_state) : Prop :=
  forall key a, cs_aggs st !! key = Some a ->
    ag_observed a = 0 /\ ag_bound a = 0 /\
    exists dep svc, dep ∈ deployments /\ svcOf !! dep_key dep = Some svc /\
      key = dep_Namespace dep +:+ "/" +:+ svc /\ cs_nsOf st !! key = Some (dep_Namespace dep).

Lemma deployments_fresh od svcOf l st0 done_ :
  (forall d1 d2 s1 s2, dep_Namespace d1 +:+ "/" +:+ s1 = dep_Namespace d2 +:+ "/" +:+ s2 ->
     d1 ∈ done_ ++ l.*1 -> d2 ∈ done_ ++ l.*1 -> dep_Namespace d1 = dep_Namespace d2) ->
  fresh_aggs done_ svcOf st0 ->
  fresh_aggs (done_ ++ l.*1) svcOf (foldl (deployment_step od svcOf) st0 l).
Proof.
  revert st0 done_. induction l as [|[dep rd] l IH]; intros st0 done_ Hns Hst; [by rewrite app_nil_r|].
  cbn [foldl fmap list_fmap fst]. rewrite cons_middle, app_assoc. apply IH.
  { intros d1 d2 s1 s2 He H1 H2. apply (Hns d1 d2 s1 s2 He);
      rewrite fmap_cons, cons_middle, app_assoc; done. }
  unfold deployment_step. destruct (svcOf !! dep_key dep) as [svc|] eqn:Hsvc.
  2: { intros key a Hk. destruct (Hst key a Hk) as (H1 & H2 & d & s & Hd & Hx). split; [done|]. split; [done|].
       exists d, s. split; [by apply elem_of_app; left|done]. }
  destruct (resolveDeploymentTarget _ _ _ _) as [[v src] lg]. set (key0 := dep_Namespace dep +:+ "/" +:+ svc).
  intros key a Hk. cbn [cs_aggs cs_nsOf] in *. apply lookup_insert_Some in Hk as [[<- <-]|[Hne Hk]].
  - simpl. destruct (cs_aggs st0 !! key0) as [a0|] eqn:E; simpl.
    + destruct (Hst key0 a0 E) as (H1 & H2 & d & s & Hd & Hs & Hkey & Hn). split; [done|]. split; [done|].
      exists dep, svc. split; [set_solver|]. split; [done|]. split; [done|].
      rewrite Hn. f_equal. symmetry. apply (Hns dep d svc s); [done|set_solver|set_solver].
    + split; [done|]. split; [done|]. exists dep, svc. split; [set_solver|]. split; [done|].
      split; [done|]. apply lookup_insert_eq.
  - destruct (Hst key a Hk) as (H1 & H2 & d & s & Hd & Hs & Hkey & Hn). split; [done|]. split; [done|].
    exists d, s. split; [set_solver|]. split; [done|]. split; [done|].
    destruct (cs_aggs st0 !! key0); [done|]. by rewrite lookup_insert_ne.
Qed.

Lemma pods_of_le lk key pods : 0 <= pods_of lk key has_node pods <= pods_of lk key (fun _ => true) pods.
Proof.
  induction pods as [|p pods IH]; [done|]. rewrite !pods_of_cons, andb_true_r.
  destruct (of_service lk key p), (has_node p); simpl; lia.
Qed.

Lemma slice_service ns svc : slice_from (ns +:+ "/" +:+ svc) (str_len ns + 1) = svc.
Proof.
  rewrite <- str_app_assoc. assert (str_len ns + 1 = str_len (ns +:+ "/")) as ->.
  { unfold str_len. rewrite str_length_app. simpl. lia. }
  apply slice_from_app.
Qed.

(** The loop keeps the services it has seen and adds those of the deployments. *)
Lemma deployments_seen od svcOf l st key :
  is_Some (cs_aggs st !! key) \/
    (exists dep svc, dep ∈ l.*1 /\ svcOf !! dep_key dep = Some svc /\ key = dep_Namespace dep +:+ "/" +:+ svc) ->
  is_Some (cs_aggs (foldl (deployment_step od svcOf) st l) !! key).
Proof.
  revert st. induction l as [|[dep rd] l IH]; intros st Hk.
  - destruct Hk as [?|(dep & svc & Hin & _)]; [done|]. by apply not_elem_of_nil in Hin.
  - cbn [foldl]. apply IH. unfold deployment_step.
    destruct (svcOf !! dep_key dep) as [svc|] eqn:Hsvc.
    + destruct (resolveDeploymentTarget _ _ _ _) as [[v src] lg]. cbn [cs_aggs].
      destruct Hk as [Hk|(d & s & Hin & Hs & ->)].
      * left. rewrite lookup_insert_is_Some'. by right.
      * simpl in Hin. apply elem_of_cons in Hin as [->|Hin]; [left|by right; exists d, s].
        assert (s = svc) as -> by congruence. rewrite lookup_insert_eq. by eexists.
    + destruct Hk as [Hk|(d & s & Hin & Hs & ->)]; [by left|right].
      simpl in Hin. apply elem_of_cons in Hin as [->|Hin]; [congruence|by exists d, s].
Qed.

Section compute.
Context `{KubeLib} (od : ObserverDeps) (lastGood : gmap string deploymentTarget).
Context (deployments : list (Deployment * readings)) (svcOf : string_map) (ps : list Pod).
Hypothesis Hlen : Z.of_nat (length ps) < max_int32.
Hypothesis Hns : forall dep, dep ∈ deployments.*1 -> no_char slash (dep_Namespace dep).

Let st := foldl (deployment_step od svcOf) (MkCompute ∅ ∅ lastGood) deployments.
Let aggs := foldl (pod_step od) (cs_aggs st) ps.

Lemma compute_fresh : fresh_aggs deployments.*1 svcOf st.
Proof.
  apply (deployments_fresh od svcOf deployments _ []).
  - intros d1 d2 s1 s2 He H1 H2. apply (str_split_first slash) in He as [He _]; [done|by apply Hns..].
  - intros key a Hk. simpl in Hk. by rewrite lookup_empty in Hk.
Qed.

(** One entry of the aggregation, after both loops. *)
Lemma compute_entry key a :
  aggs !! key = Some a ->
  exists dep svc, dep ∈ deployments.*1 /\ svcOf !! dep_key dep = Some svc /\
    key = dep_Namespace dep +:+ "/" +:+ svc /\ map_get "" (cs_nsOf st) key = dep_Namespace dep /\
    ag_observed a = pods_of (od_ServiceLabelKey od) key (fun _ => true) ps /\
    ag_bound a = pods_of (od_ServiceLabelKey od) key has_node ps.
Proof.
  unfold aggs. intros Hin. destruct (cs_aggs st !! key) as [a0|] eqn:Ha0.
  2: { rewrite pod_fold_none in Hin by done. done. }
  destruct (compute_fresh key a0 Ha0) as (Ho & Hb & dep & svc & Hdep & Hsvc & Hkey & Hn).
  destruct (pod_fold_lookup od key ps _ a0 Ha0) as (a' & Hl & _ & _ & Ho' & Hb'); [lia|lia|lia|].
  rewrite Hin in Hl. injection Hl as <-. exists dep, svc. unfold map_get. rewrite Hn.
  do 4 (split; [done|]). lia.
Qed.

(** The series of an entry names its key. *)
Lemma series_names key a :
  aggs !! key = Some a ->
  let s := series_of od (cs_nsOf st) (key, a) in
  exists dep, dep ∈ deployments.*1 /\ dep_Namespace dep = ds_Namespace s /\
    svcOf !! dep_key dep = Some (ds_Service s) /\ ds_Namespace s +:+ "/" +:+ ds_Service s = key.
Proof.
  intros Hin s. destruct (compute_entry key a Hin) as (dep & svc & Hdep & Hsvc & -> & Hn & _).
  exists dep. unfold s, series_of. cbn [ds_Namespace ds_Service]. rewrite Hn, slice_service. done.
Qed.

(** Every mapped deployment's service has an entry. *)
Lemma compute_complete dep svc :
  dep ∈ deployments.*1 -> svcOf !! dep_key dep = Some svc ->
  is_Some (aggs !! (dep_Namespace dep +:+ "/" +:+ svc)).
Proof.
  intros Hdep Hsvc. unfold aggs.
  destruct (deployments_seen od svcOf deployments (MkCompute ∅ ∅ lastGood) (dep_Namespace dep +:+ "/" +:+ svc))
    as [a0 Ha0]; [right; by exists dep, svc|].
  destruct (compute_fresh _ a0 Ha0) as (Ho & Hb & _).
  destruct (pod_fold_lookup od _ ps _ a0 Ha0) as (a' & Hl & _); [lia|lia|lia|]. by exists a'.
Qed.

End compute.

(** *** The gauges of a list of series *)

Definition series_labels (s : DomainSeries) : list string := [ds_Namespace s; ds_Service s; ds_Domain s].

(** [g] is set once per series, to [f] of it. *)
Definition sets_gauge (g : string) (f : DomainSeries -> Z) : Prop :=
  forall s v lb, gauge_after v (export_one s) g lb = if decide (series_labels s = lb) then Some (f s) else v.

Lemma export_debug_skip v s g lb :
  g <> "service_spread_node_pods" -> g <> "service_spread_replica_target_detail" ->
  gauge_after v (export_debug s) g lb = v.
Proof.
  intros H1 H2. apply gauge_after_skip. intros x Hx. unfold export_debug in Hx.
  apply elem_of_app in Hx as [Hx|Hx]; apply list_elem_of_fmap in Hx as (y & -> & _);
    [destruct y|]; simpl; congruence.
Qed.

Lemma sets_series_gauges :
  sets_gauge "service_spread_replica_target" ds_ReplicaTarget /\
  sets_gauge "service_spread_observed_pods" ds_ObservedPods /\
  sets_gauge "service_spread_bound_pods" ds_BoundPods.
Proof.
  repeat split; intros s v lb; unfold export_one; rewrite !gauge_after_app, export_debug_skip by done;
    destruct (ds_CapacityDeficit s >? 0); unfold gauge_after; cbn [foldl gs_gauge gs_labels gs_value];
    fold (series_labels s); destruct (decide (series_labels s = lb)) as [<-|Hne];
    repeat (first [rewrite decide_False by (intros [? ?]; first [discriminate|congruence])
                  |rewrite decide_True by done]); done.
Qed.

Lemma gauge_series g f series v s :
  sets_gauge g f -> NoDup (series_labels <$> series) -> s ∈ series ->
  gauge_after v (ExportSeries series) g (series_labels s) = Some (f s).
Proof.
  intros Hg. unfold ExportSeries. induction series as [|x series IH] using rev_ind; intros Hnd Hin;
    [by apply not_elem_of_nil in Hin|].
  rewrite fmap_app in Hnd. apply NoDup_app in Hnd as (Hnd & Hdis & _).
  rewrite fmap_app, concat_app, gauge_after_app. cbn [fmap list_fmap concat]. rewrite app_nil_r, Hg.
  apply elem_of_app in Hin as [Hin|Hin].
  - rewrite decide_False; [by apply IH|]. intros Heq. apply (Hdis (series_labels s)).
    + by apply list_elem_of_fmap_2.
    + apply list_elem_of_singleton. by symmetry.
  - apply list_elem_of_singleton in Hin as ->. by rewrite decide_True.
Qed.

Lemma gauge_series_none g f series v lb :
  sets_gauge g f -> (forall s, s ∈ series -> series_labels s <> lb) ->
  gauge_after v (ExportSeries series) g lb = v.
Proof.
  intros Hg. unfold ExportSeries. induction series as [|x series IH] using rev_ind; intros Hno; [done|].
  rewrite fmap_app, concat_app, gauge_after_app. cbn [fmap list_fmap concat]. rewrite app_nil_r, Hg.
  rewrite decide_False by (apply Hno, elem_of_app; right; by apply list_elem_of_singleton).
  apply IH. intros s Hs. apply Hno, elem_of_app. by left.
Qed.

Lemma ExportReservations_skip v counts series g lb :
  g <> "service_spread_reservations" -> gauge_after v (ExportReservations counts series) g lb = v.
Proof.
  intros Hg. apply gauge_after_skip. intros x Hx. destruct counts as [counts|]; simpl in Hx.
  - apply list_elem_of_fmap in Hx as (s & -> & _). simpl. congruence.
  - by apply not_elem_of_nil in Hx.
Qed.

(** ** Theorems *)

(** C34: the priority chain of a deployment's target.  If the HPA reading succeeds and
    some HPA reports a non-negative desired count, the target is the largest of them,
    marked as a fallback when there are several HPAs; if both readings succeed and no
    HPA does, a managed ScaledObject gives the larger of its minimum and the
    deployment's replicas, and without one the replicas are the target; each of these
    becomes the last good value.  If the HPA reading fails and no ScaledObject is known
    to manage the deployment, the last good value is used and kept, and the replicas if
    there is none.  Two failures are left out, because the comments and the dev-design
    say that they use the last good value and the code does not: a failed ScaledObject
    reading without a usable HPA, and a failed HPA reading beside a managed ScaledObject
    ([read_error_overwrites_lastGood]). *)
Theorem resolveDeploymentTarget_priority dep hpas so m v src lg :
  resolveDeploymentTarget dep hpas so (Some m) = (v, src, lg) ->
  let replicas := default 0 (dep_Replicas dep) in
  let refreshed := lg = Some (<[dep_key dep := DeploymentTarget v src]> m) in
  (forall l, hpas = Ok l -> (exists h, h ∈ l /\ 0 <= hpa_DesiredReplicas h) ->
     is_max hpa_DesiredReplicas l v /\ refreshed /\
     src = (if decide (length l = 1%nat) then targetSourceHPA else targetSourceFallback)) /\
  (forall l min managed, hpas = Ok l -> (forall h, h ∈ l -> hpa_DesiredReplicas h < 0) -> so = Ok (min, managed) ->
     refreshed /\
     if managed then v = Z.max min replicas /\ src = targetSourceKEDAFallback
     else v = replicas /\ src = targetSourceDeployment) /\
  (forall e, hpas = Err e -> (forall min, so <> Ok (min, true)) ->
     match m !! dep_key dep with
     | Some t => v = dt_value t /\ src = targetSourceLastGood /\ lg = Some m
     | None => v = replicas /\ src = targetSourceDeployment
     end).
Proof.
  intros Hres replicas refreshed. unfold resolveDeploymentTarget in Hres. fold replicas in Hres.
  set (after := match so with Ok (min, true) => _ | _ => _ end) in Hres.
  assert (Hafter : forall l min managed, hpas = Ok l -> so = Ok (min, managed) -> after = (v, src, lg) ->
    refreshed /\ if managed then v = Z.max min replicas /\ src = targetSourceKEDAFallback
                  else v = replicas /\ src = targetSourceDeployment).
  { unfold after, refreshed. intros l min [] -> -> [= <- <- <-]; (split; [done|]); split; try done.
    rewrite Z.gtb_ltb. destruct (Z.ltb_spec replicas min); lia. }
  destruct hpas as [l|e].
  - split; [|split; [|done]].
    + intros l' [= <-] Hex. pose proof (max_desired_spec l Hex) as Hmax. destruct l as [|h0 l].
      { by destruct Hex as (h & Hh%elem_of_nil & _). }
      destruct (Z.geb_spec (max_desired (h0 :: l)) 0) as [Hge|Hlt]; [|destruct Hmax; lia].
      injection Hres as <- <- <-. split; [apply Hmax|]. split; [done|]. destruct l; [done|].
      rewrite decide_False by done. simpl length. destruct (Z.ltb_spec 1 (Z.of_nat (S (S (length l))))); [done|lia].
    + intros l' min managed [= <-] Hneg Hso. apply (Hafter l min managed); [done|done|].
      destruct l as [|h0 l]; [done|]. pose proof (max_desired_neg (h0 :: l) Hneg).
      destruct (Z.geb_spec (max_desired (h0 :: l)) 0); [lia|done].
  - split; [done|]. split; [done|]. intros e' _ Hso. unfold after in Hres. simpl default in Hres.
    destruct so as [[min []]|]; [by destruct (Hso min)|..]; destruct (m !! dep_key dep); by injection Hres as <- <- <-.
Qed.

Definition ex_dep : Deployment :=
  MkDeployment "ns" "web" (Some 3) {[ "svc" := "app" ]} (fx_spec "").

Lemma resolveDeploymentTarget_priority_witness :
  is_max hpa_DesiredReplicas [MkHPA "Deployment" "web" 9 4; MkHPA "Deployment" "web" 9 7] 7.
Proof.
  pose proof (resolveDeploymentTarget_priority ex_dep
    (Ok [MkHPA "Deployment" "web" 9 4; MkHPA "Deployment" "web" 9 7]) (Ok (0, false)) ∅ 7
    targetSourceFallback _ eq_refl) as (Hm & _).
  refine (proj1 (Hm _ eq_refl _)). exists (MkHPA "Deployment" "web" 9 4).
  split; [apply elem_of_cons; left; reflexivity|discriminate].
Defined.

(** A failed reading can overwrite the last good value.  When the ScaledObject
    reading fails and there is no HPA, the deployment's replicas are reported and
    stored as last good, whatever was stored before; when the HPA reading fails but a
    ScaledObject manages the deployment, the stored value is not preferred either; and
    when the HPA reading fails and nothing is stored, the replicas become the last good
    value without any successful reading. *)
Theorem read_error_overwrites_lastGood dep e m min :
  resolveDeploymentTarget dep (Ok []) (Err e) (Some m) =
    (default 0 (dep_Replicas dep), targetSourceDeployment,
     Some (<[dep_key dep := DeploymentTarget (default 0 (dep_Replicas dep)) targetSourceDeployment]> m)) /\
  (exists v, resolveDeploymentTarget dep (Err e) (Ok (min, true)) (Some m) =
    (v, targetSourceKEDAFallback, Some (<[dep_key dep := DeploymentTarget v targetSourceKEDAFallback]> m))) /\
  resolveDeploymentTarget dep (Err e) (Err e) (Some ∅) =
    (default 0 (dep_Replicas dep), targetSourceDeployment,
     Some (<[dep_key dep := DeploymentTarget (default 0 (dep_Replicas dep)) targetSourceDeployment]> ∅)).
Proof. split; [done|]. split; [by eexists|]. unfold resolveDeploymentTarget. simpl default. by rewrite lookup_empty. Qed.

(** The capacity deficit is the part of the HPA maximum that the nodes cannot
    hold, floored at 0, as long as no product or difference leaves int32; beyond
    that it wraps: 50000 nodes of 50000 pods report a deficit of 1794967306 for a
    maximum of 10. *)
Theorem capacityDeficit_exact hpaMax nodes perNode :
  in_int32 hpaMax -> in_int32 (nodes * perNode) -> in_int32 (hpaMax - nodes * perNode) ->
  capacityDeficit hpaMax nodes perNode = Z.max 0 (hpaMax - nodes * perNode) /\
  capacityDeficit 10 50000 50000 = 1794967306.
Proof.
  intros H1 H2 H3. split; [|reflexivity]. unfold capacityDeficit.
  rewrite (wrap32_id (nodes * perNode)), wrap32_id by done.
  destruct (Z.ltb_spec (hpaMax - nodes * perNode) 0); lia.
Qed.

Lemma capacityDeficit_exact_witness : capacityDeficit 100 3 30 = Z.max 0 (100 - 3 * 30).
Proof.
  refine (proj1 (capacityDeficit_exact 100 3 30 _ _ _)); unfold in_int32, max_int32; lia.
Defined.

(** A deficit that is gone is still shown.  A series with a positive capacity
    deficit sets the gauge; a later export of the same service with deficit 0 does
    not touch it, so the gauge keeps the old value although the replica target is
    refreshed. *)
Theorem capacity_deficit_gauge_stale s1 s2 :
  0 < ds_CapacityDeficit s1 -> ds_CapacityDeficit s2 = 0 ->
  ds_Namespace s2 = ds_Namespace s1 -> ds_Service s2 = ds_Service s1 -> ds_Domain s2 = ds_Domain s1 ->
  let log := ExportSeries [s1] ++ ExportSeries [s2] in
  gauge_value log "service_spread_capacity_deficit" [ds_Namespace s1; ds_Service s1]
    = Some (ds_CapacityDeficit s1) /\
  gauge_value log "service_spread_replica_target" [ds_Namespace s1; ds_Service s1; ds_Domain s1]
    = Some (ds_ReplicaTarget s2).
Proof.
  intros Hd1 Hd2 Hns Hsvc Hdom log. unfold log, gauge_value, ExportSeries.
  cbn [fmap list_fmap concat]. rewrite !app_nil_r. unfold export_one.
  rewrite Hd2, Hns, Hsvc, Hdom. assert (ds_CapacityDeficit s1 >? 0 = true) as -> by (rewrite Z.gtb_lt; lia).
  rewrite !gauge_after_app. change (0 >? 0) with false. cbv iota.
  split; rewrite !gauge_after_debug by auto; unfold gauge_after; cbn [foldl gs_gauge gs_labels gs_value].
  - repeat (rewrite decide_False by (intros [Hx _]; discriminate Hx)). by rewrite decide_True.
  - repeat (rewrite decide_False by (intros [Hx _]; discriminate Hx)). by rewrite decide_True.
Qed.

Definition ex_series (deficit : Z) : DomainSeries :=
  MkSeries "ns" "app" "default" 7 3 2 false deficit ∅ [].

Lemma capacity_deficit_gauge_stale_witness :
  gauge_value (ExportSeries [ex_series 5] ++ ExportSeries [ex_series 0])
    "service_spread_capacity_deficit" ["ns"; "app"] = Some 5.
Proof.
  exact (proj1 (capacity_deficit_gauge_stale (ex_series 5) (ex_series 0)
           ltac:(reflexivity) eq_refl eq_refl eq_refl eq_refl)).
Defined.

(** One [Compute] round counts every service once and right.  For namespaces
    without a slash and fewer than 2^31 - 1 pods, there is a series for the service
    of every mapped deployment, at most one per namespace and service, and none
    besides; its observed count is the number of Pending and Running pods of the
    namespace with that service label, its bound count the number of those with a
    node, and the reported target is never below the observed count. *)
Lemma Compute_exact `{KubeLib} od lastGood deployments svcOf ps series lg :
  Compute od lastGood deployments svcOf ps = (series, lg) ->
  Z.of_nat (length ps) < max_int32 ->
  (forall dep, dep ∈ deployments.*1 -> no_char slash (dep_Namespace dep)) ->
  (forall ns svc, (exists s, s ∈ series /\ ds_Namespace s = ns /\ ds_Service s = svc) <->
     exists dep, dep ∈ deployments.*1 /\ dep_Namespace dep = ns /\ svcOf !! dep_key dep = Some svc) /\
  NoDup ((fun s => (ds_Namespace s, ds_Service s)) <$> series) /\
  (forall s, s ∈ series ->
     let key := ds_Namespace s +:+ "/" +:+ ds_Service s in
     ds_ObservedPods s = pods_of (od_ServiceLabelKey od) key (fun _ => true) ps /\
     ds_BoundPods s = pods_of (od_ServiceLabelKey od) key has_node ps /\
     0 <= ds_BoundPods s <= ds_ObservedPods s /\ ds_ObservedPods s <= ds_ReplicaTarget s /\
     ds_Domain s = "default").
Proof.
  intros HC Hlen Hns. unfold Compute in HC. injection HC as <- _.
  set (st := foldl (deployment_step od svcOf) _ deployments) in *. set (aggs := foldl _ _ ps).
  split; [|split].
  - intros ns svc. split.
    + intros (s & Hin & <- & <-). apply list_elem_of_fmap in Hin as ([key a] & -> & Hin).
      apply elem_of_map_to_list in Hin.
      destruct (series_names od lastGood deployments svcOf ps Hlen Hns key a Hin) as (dep & H1 & H2 & H3 & _).
      by exists dep.
    + intros (dep & Hdep & <- & Hsvc).
      destruct (compute_complete od lastGood deployments svcOf ps Hlen Hns dep svc Hdep Hsvc) as [a Ha].
      exists (series_of od (cs_nsOf st) (dep_Namespace dep +:+ "/" +:+ svc, a)).
      split; [by apply list_elem_of_fmap_2, elem_of_map_to_list|].
      destruct (series_names od lastGood deployments svcOf ps Hlen Hns _ a Ha) as (dep' & Hd' & Hn' & _ & Hk).
      apply (str_split_first slash) in Hk as [Hk1 Hk2]; [done|rewrite <- Hn'; by apply Hns|by apply Hns].
  - apply (NoDup_fmap_1 (fun x : string * string => x.1 +:+ "/" +:+ x.2)).
    rewrite <- !list_fmap_compose. rewrite (list_fmap_ext _ fst); [apply NoDup_fst_map_to_list|].
    intros i [key a] Hi. apply list_elem_of_lookup_2, elem_of_map_to_list in Hi. simpl.
    by destruct (series_names od lastGood deployments svcOf ps Hlen Hns key a Hi) as (_ & _ & _ & _ & Hk).
  - intros s Hin. apply list_elem_of_fmap in Hin as ([key a] & -> & Hin). apply elem_of_map_to_list in Hin.
    destruct (series_names od lastGood deployments svcOf ps Hlen Hns key a Hin) as (_ & _ & _ & _ & Hk).
    fold st in Hk. cbn zeta. rewrite Hk. destruct (compute_entry od lastGood deployments svcOf ps Hlen Hns key a Hin)
      as (_ & _ & _ & _ & _ & _ & Ho & Hb).
    cbn [ds_ObservedPods ds_BoundPods ds_ReplicaTarget series_of].
    pose proof (pods_of_le (od_ServiceLabelKey od) key ps).
    unfold aggregateDomain. rewrite Z.gtb_ltb.
    destruct (Z.ltb_spec (ag_observed a) (ag_desired a)); (split; [lia|]); (split; [lia|]); (split; [lia|]);
      (split; [lia|done]).
Qed.

Definition ex_od : ObserverDeps := MkObserverDeps "svc" None None "s" false false.
Definition ex_readings : readings := MkReadings (Ok []) (Ok (0, false)) (Ok []).
Definition ex_pods2 : list Pod := [fx_pod "u1" "n1" "app" "Running"; fx_pod "u2" "" "app" "Pending"].
Definition ex_series2 : DomainSeries := MkSeries "ns" "app" "default" 3 2 1 false 0 ∅ [].

Lemma Compute_exact_witness :
  ds_ObservedPods ex_series2 = pods_of "svc" "ns/app" (fun _ => true) ex_pods2 /\
  fst (Compute ex_od ∅ [(ex_dep, ex_readings)] {[ "ns/web" := "app" ]} ex_pods2) = [ex_series2].
Proof.
  assert (Hc : Compute ex_od ∅ [(ex_dep, ex_readings)] {[ "ns/web" := "app" ]} ex_pods2 =
    ([ex_series2], <["ns/web" := DeploymentTarget 3 targetSourceDeployment]> ∅)) by (vm_compute; reflexivity).
  split; [|by rewrite Hc].
  assert (Hd : forall dep, dep ∈ [(ex_dep, ex_readings)].*1 -> no_char slash (dep_Namespace dep)).
  { intros dep Hd. apply list_elem_of_singleton in Hd as ->. exact I. }
  assert (Hi : ex_series2 ∈ [ex_series2]) by (apply list_elem_of_singleton; reflexivity).
  assert (Hl : Z.of_nat (length ex_pods2) < max_int32) by reflexivity.
  destruct (Compute_exact ex_od ∅ [(ex_dep, ex_readings)] {[ "ns/web" := "app" ]} ex_pods2
              [ex_series2] _ Hc Hl Hd) as (_ & _ & Hs).
  exact (proj1 (Hs ex_series2 Hi)).
Defined.

Lemma parse_QuotaKey ns sched key v :
  no_char slash ns -> no_char equals v -> parse_quotaKey (QuotaKey ns sched key v) = Some (ns, v).
Proof.
  intros Hn Hv. unfold QuotaKey.
  set (mid := sched +:+ "/" +:+ key).
  assert (E : ns +:+ "/" +:+ sched +:+ "/" +:+ key +:+ "=" +:+ v = (ns +:+ "/" +:+ mid) +:+ String equals v).
  { unfold mid. by rewrite !str_app_assoc. }
  rewrite E. unfold parse_quotaKey. rewrite LastIndex_app_char by done.
  assert (Hi : strings_Index ((ns +:+ "/" +:+ mid) +:+ String equals v) slash = str_len ns).
  { rewrite str_app_assoc. by apply Index_app_char. }
  rewrite Hi. unfold str_len at 1 2 3 4. rewrite !str_length_app. simpl String.length.
  rewrite (proj2 (Z.ltb_ge _ _)), (proj2 (Z.ltb_ge _ _)) by lia. rewrite Z.gtb_ltb, (proj2 (Z.ltb_ge _ _)) by lia.
  cbn [orb]. f_equal. f_equal.
  - rewrite str_app_assoc. apply slice_to_app.
  - assert (Hlen : str_len (ns +:+ "/" +:+ mid) + 1 = str_len ((ns +:+ "/" +:+ mid) +:+ "=")).
    { unfold str_len. rewrite !str_length_app. simpl. lia. }
    rewrite Hlen. change (String equals v) with ("=" +:+ v). rewrite <- str_app_assoc. apply slice_from_app.
Qed.

(** C35: a quota key parses back to its namespace and service exactly when the namespace has no slash and the service
    no equals sign, which Kubernetes guarantees for both; the label key in the middle may contain slashes. *)
Theorem quotaKey_roundtrip ns sched key v :
  parse_quotaKey (QuotaKey ns sched key v) = Some (ns, v) <-> no_char slash ns /\ no_char equals v.
Proof.
  split; [|intros [Hn Hv]; by apply parse_QuotaKey].
  assert (E1 : QuotaKey ns sched key v = ns +:+ ("/" +:+ sched +:+ "/" +:+ key +:+ "=" +:+ v)) by done.
  assert (E2 : QuotaKey ns sched key v = (ns +:+ "/" +:+ sched +:+ "/" +:+ key +:+ "=") +:+ v)
    by (rewrite E1, !str_app_assoc; reflexivity).
  unfold parse_quotaKey. cbv zeta. destruct (_ || _ || _); [intros [=]|]. intros [= Hns Hv]. split.
  - destruct (no_char slash ns) eqn:Hn; [done|exfalso].
    assert (Hi : ~ no_char slash ns) by (rewrite Hn; intros []).
    pose proof (Index_in_prefix slash ns ("/" +:+ sched +:+ "/" +:+ key +:+ "=" +:+ v) Hi) as Hlt. rewrite <- E1 in Hlt.
    apply (f_equal String.length) in Hns. unfold slice_to in Hns.
    match type of Hns with String.length (String.substring ?n ?m ?s) = _ => pose proof (substring_le n m s) as [Hl _] end.
    unfold str_len in Hlt. lia.
  - destruct (no_char equals v) eqn:Hn; [done|exfalso].
    assert (Hi : ~ no_char equals v) by (rewrite Hn; intros []).
    pose proof (LastIndex_in_suffix equals (ns +:+ "/" +:+ sched +:+ "/" +:+ key +:+ "=") v Hi) as Hle. rewrite <- E2 in Hle.
    apply (f_equal String.length) in Hv. unfold slice_from in Hv.
    match type of Hv with String.length (String.substring ?n ?m ?s) = _ => pose proof (substring_le n m s) as [_ Hl] end.
    assert (0 < String.length v)%nat by (destruct v; [by destruct Hi|simpl; lia]).
    assert (Hlen := f_equal String.length E2). rewrite str_length_app in Hlen. unfold str_len in *. lia.
Qed.

Definition valid_key (sched key qk : string) : Prop :=
  exists ns v, qk = QuotaKey ns sched key v /\ no_char slash ns /\ no_char equals v.

Lemma by_service_lookup sched key (m : gmap string Z) l ns v :
  enumerates l m -> (forall qk n, m !! qk = Some n -> valid_key sched key qk) ->
  no_char slash ns -> no_char equals v ->
  by_service l !! (ns, v) = m !! QuotaKey ns sched key v.
Proof.
  intros Hl Hm Hns Hv. revert Hm.
  apply (enumerates_ind
    (fun (acc : gmap (string * string) Z) '(qk, n) =>
       match parse_quotaKey qk with None => acc | Some k => <[k := n]> acc end)
    (fun m acc => (forall qk n, m !! qk = Some n -> valid_key sched key qk) ->
       acc !! (ns, v) = m !! QuotaKey ns sched key v) ∅); [done| |done].
  intros m' qk n acc Hk IH Hm.
  destruct (Hm qk n (lookup_insert_eq _ _ _)) as (ns' & v' & -> & Hns' & Hv').
  rewrite parse_QuotaKey by done.
  assert (IH' : acc !! (ns, v) = m' !! QuotaKey ns sched key v).
  { apply IH. intros qk' n' Hq. apply (Hm qk' n'). rewrite lookup_insert_ne; [done|]. intros Heq. congruence. }
  destruct (decide ((ns', v') = (ns, v))) as [[= -> ->]|Hne]; [by rewrite !lookup_insert_eq|].
  rewrite !lookup_insert_ne; [done| |done]. intros Heq. apply Hne.
  by apply QuotaKey_inj in Heq as [-> ->].
Qed.

Lemma ReservationCounts_key s q n :
  ReservationCounts s !! q = Some n -> exists uid r, resv s !! uid = Some r /\ rv_QuotaKey r = q.
Proof.
  unfold ReservationCounts. revert n.
  apply (enumerates_ind (fun (out : gmap string Z) '(_, r) =>
      <[rv_QuotaKey r := map_get 0 out (rv_QuotaKey r) ⊞ 1]> out)
    (fun m out => forall n, out !! q = Some n -> exists uid r, m !! uid = Some r /\ rv_QuotaKey r = q) ∅);
    [by intros n; rewrite lookup_empty| |apply enumerates_refl].
  intros m uid r acc Hk IH n Hn. apply lookup_insert_Some in Hn as [[Heq _]|[_ Hn]].
  - exists uid, r. split; [apply lookup_insert_eq|done].
  - destruct (IH n Hn) as (uid' & r' & Hr & Hq). exists uid', r'. split; [|done].
    rewrite lookup_insert_ne; [done|]. intros Heq. congruence.
Qed.

(** The reservation gauge shows the reservations of the service.  When all
    reservations carry quota keys built for one scheduler and label key (namespaces
    without a slash, values without an equals sign), the value exported for a
    series is the number of reservations held by its namespace and service, in any
    order of the range over the counts, and 0 when there are none. *)
Theorem ExportReservations_exact s sched key l series ser :
  fits (resv s) -> (forall uid r, resv s !! uid = Some r -> valid_key sched key (rv_QuotaKey r)) ->
  enumerates l (ReservationCounts s) ->
  no_char slash (ds_Namespace ser) -> no_char equals (ds_Service ser) -> ser ∈ series ->
  GaugeSet "service_spread_reservations" [ds_Namespace ser; ds_Service ser; ds_Domain ser]
    (count_if (fun r => bool_decide (rv_QuotaKey r = QuotaKey (ds_Namespace ser) sched key (ds_Service ser)))
              (resv s))
    ∈ ExportReservations (Some l) series.
Proof.
  intros Hf Hkeys Hl Hns Hv Hin. unfold ExportReservations. apply list_elem_of_fmap.
  exists ser. split; [|done]. f_equal.
  rewrite (by_service_lookup sched key (ReservationCounts s) l) by
    (try done; intros qk n Hq; apply ReservationCounts_key in Hq as (uid & r & Hr & <-); eauto).
  symmetry. apply (ReservationCounts_loop (resv s) (map_to_list (resv s))); auto with go.
Qed.

Definition ex_resv_state : spreadState :=
  SpreadState emptySnapshot
    (<["u1" := Reservation "u1" (QuotaKey "ns" "s" "app.kubernetes.io/name" "app") "d" "n1" resvReserved 0]>
    (<["u2" := Reservation "u2" (QuotaKey "ns" "s" "app.kubernetes.io/name" "app") "d" "n2" resvBoundObs 0]> ∅)).

Lemma ExportReservations_exact_witness :
  GaugeSet "service_spread_reservations" ["ns"; "app"; "default"] 2
    ∈ ExportReservations (Some (map_to_list (ReservationCounts ex_resv_state))) [ex_series2].
Proof.
  refine (ExportReservations_exact ex_resv_state "s" "app.kubernetes.io/name" _ [ex_series2] ex_series2
            _ _ (enumerates_refl _) I I _).
  - vm_compute. reflexivity.
  - intros uid r Hr. exists "ns", "app". split; [|split; exact I].
    unfold ex_resv_state in Hr. cbn [resv] in Hr.
    apply lookup_insert_Some in Hr as [[_ <-]|[_ Hr]]; [reflexivity|].
    apply lookup_insert_Some in Hr as [[_ <-]|[_ Hr]]; [reflexivity|].
    rewrite lookup_empty in Hr. discriminate Hr.
  - apply list_elem_of_singleton. reflexivity.
Defined.
