(* ===== verification/Wiring.v ===== *)
(** * Wiring: what the informers feed into the components

    The pod event handlers and the policy reader of plugins_api.go, one cycle of
    the observer loop of replicatarget.go and the event registrations of enqueue.go.
    The informers themselves are not modelled: an informer is the sequence of the
    events it delivers. *)

From S2P Require Import Prelude GoStd Kube Fixtures State Keys Domain Api Plugin Lifecycle Enqueue Observer.

(** ** The pod informer's handlers (depsFromHandle) *)

(** The object of an event: a pod, the tombstone of a missed deletion with the last
    known object (when it is a pod), or anything else. *)
Inductive informer_obj :=
| OPod (p : Pod)
| OTombstone (last : option Pod)
| OOther.

Inductive informer_event :=
| EvAdd (obj : informer_obj)
| EvUpdate (oldObj newObj : informer_obj)
| EvDelete (obj : informer_obj).

Definition on_informer_event (args : ServiceSpreadArgs) (e : informer_event) : list action :=
  match e with
  | EvAdd (OPod pod) | EvUpdate _ (OPod pod) => onPodEvent args pod
  | EvDelete (OPod p) => OnPodDelete (pod_UID p)
  | EvDelete (OTombstone (Some p)) => OnPodDelete (pod_UID p)
  | _ => []
  end.

(** ** The policy reader *)

(** [inf] is the informer, nil when there was no client; its index gives the
    namespace's cached objects, each converted ([None]: not unstructured). *)
Definition policy_List (inf : option (string -> res (list (option (res ServiceSpreadPolicy)))))
    (namespace : string) : res (list ServiceSpreadPolicy) :=
  match inf with
  | None => Err "policy informer unavailable"
  | Some index =>
    objs ← index namespace;
    Ok (omap (fun o : option (res ServiceSpreadPolicy) =>
                match o with Some (Ok pol) => Some pol | _ => None end) (objs : list _))
  end.

Definition policy_HasSynced (synced : option bool) : bool := default false synced.

(** ** One cycle of the observer loop *)

Definition svcOf_step (labelKey : string) (m : string_map) (dep : Deployment) : string_map :=
  match dep_TemplateLabels dep !! labelKey with
  | Some v => <[dep_key dep := v]> m
  | None => m
  end.

Section cycle.
Context `{KubeLib}.

(** The gauges set, and the targets to remember.  A failed listing exports nothing. *)
Definition export_cycle (od : ObserverDeps) (lastGood : gmap string deploymentTarget)
    (deps : res (list (Deployment * readings))) (pods : res (list Pod))
    (counts : option (list (string * Z))) : list gauge_set * gmap string deploymentTarget :=
  match deps with
  | Err _ => ([], lastGood)
  | Ok deps =>
    let svcOf := foldl (svcOf_step (od_ServiceLabelKey od)) ∅ deps.*1 in
    match pods with
    | Err _ => ([], lastGood)
    | Ok pods =>
      let '(series, lastGood) := Compute od lastGood deps svcOf pods in
      (ExportSeries series ++ ExportReservations counts series, lastGood)
    end
  end.

End cycle.

Definition observer_interval (interval : Z) : Z := if interval <=? 0 then 30 * Second else interval.

(** ** The registered events *)

Inductive hint_fn := hint_pod | hint_policy | hint_sameNamespace.

Record ClusterEventWithHint := MkClusterEvent {
  ev_Resource : string;
  ev_ActionType : list string;
  ev_QueueingHintFn : option hint_fn;
}.

Definition EventsToRegister : list ClusterEventWithHint :=
  let all := ["Add"; "Update"; "Delete"] in
  [MkClusterEvent "Pod" all (Some hint_pod);
   MkClusterEvent "Node" all None;
   MkClusterEvent "servicespreadpolicies.v1alpha1.scheduling.soyup.top" all (Some hint_policy);
   MkClusterEvent "replicasets.v1.apps" all (Some hint_sameNamespace);
   MkClusterEvent "deployments.v1.apps" all (Some hint_sameNamespace)].

(** ** The informer's cache, and what is counted of it *)

Definition cache_step (cache : gmap string Pod) (e : informer_event) : gmap string Pod :=
  match e with
  | EvAdd (OPod pod) | EvUpdate _ (OPod pod) => <[pod_UID pod := pod]> cache
  | EvDelete (OPod p) => delete (pod_UID p) cache
  | EvDelete (OTombstone (Some p)) => delete (pod_UID p) cache
  | _ => cache
  end.

Section events.
Context (args : ServiceSpreadArgs).

(** The pod is the plugin's business and its keys are known. *)
Definition managed (pod : Pod) : Prop :=
  spec_SchedulerName (pod_Spec pod) = ManagedSchedulerName args /\
  is_Some (pod_Labels pod !! ServiceLabelKey args).

(** The reference under which the event path counts a pod. *)
Definition event_ref (pod : Pod) : podRef :=
  if decide (spec_SchedulerName (pod_Spec pod) = ManagedSchedulerName args) then
    match PodRefFor pod (ManagedSchedulerName args) (ServiceLabelKey args) with
    | Ok ref => ref
    | Err _ => zero_ref
    end
  else zero_ref.

Lemma onPodEvent_ref pod : onPodEvent args pod = OnPodAddOrUpdate pod (event_ref pod).
Proof. unfold onPodEvent, event_ref. destruct (decide _); [|done]. by destruct (PodRefFor _ _ _). Qed.

Lemma event_ref_managed pod :
  managed pod -> PodRefFor pod (ManagedSchedulerName args) (ServiceLabelKey args) = Ok (event_ref pod).
Proof.
  intros [Hn [v Hv]]. unfold event_ref. rewrite decide_True by done. unfold PodRefFor. by rewrite Hv.
Qed.

Definition count_event (ps : gmap string podRef) (e : informer_event) : gmap string podRef :=
  match e with
  | EvAdd (OPod pod) | EvUpdate _ (OPod pod) => event_pods ps (pod, event_ref pod)
  | EvDelete (OPod p) => delete (pod_UID p) ps
  | EvDelete (OTombstone (Some p)) => delete (pod_UID p) ps
  | _ => ps
  end.

Lemma count_event_size ps e : (size (count_event ps e) <= S (size ps))%nat.
Proof.
  destruct e as [[]|? []|[? |[]|]]; simpl; try apply size_event_pods; try lia;
    rewrite map_size_delete; destruct (ps !! _); simpl; lia.
Qed.

Lemma run_pod_event pod ps rs :
  Z.of_nat (size ps) + 1 < max_int32 ->
  exists rs', run (onPodEvent args pod) (with_pods ps rs) = with_pods (event_pods ps (pod, event_ref pod)) rs'.
Proof.
  intros Hs. rewrite onPodEvent_ref, OnPodAddOrUpdate_with_pods; [|unfold fits; lia|by apply fits_insert].
  by eexists.
Qed.

Lemma run_delete uid ps rs :
  fits ps -> run (OnPodDelete uid) (with_pods ps rs) = with_pods (delete uid ps) (delete uid rs).
Proof. intros Hf. unfold run, OnPodDelete. cbn [foldl]. by rewrite removeCount_with_pods. Qed.

Lemma run_event e ps rs :
  Z.of_nat (size ps) + 1 < max_int32 ->
  exists rs', run (on_informer_event args e) (with_pods ps rs) = with_pods (count_event ps e) rs'.
Proof.
  intros Hs. assert (Hf : fits ps) by (unfold fits; lia).
  destruct e as [[]|? []|[? |[]|]]; simpl; try (by eexists); try by apply run_pod_event.
  all: eexists; by apply run_delete.
Qed.

Lemma run_event_reachable e s :
  reachable s -> Z.of_nat (size (pods (snap s))) + 1 < max_int32 ->
  reachable (run (on_informer_event args e) s).
Proof.
  intros Hr Hs.
  assert (Hd : forall uid, reachable (run (OnPodDelete uid) s)).
  { intros uid. unfold run, OnPodDelete. cbn [foldl]. eapply rtc_r; [|apply ss_drop].
    eapply rtc_r; [exact Hr|]. apply ss_remove. unfold fits. lia. }
  destruct e as [[]|? []|[? |[]|]]; simpl; try done; try apply Hd;
    rewrite onPodEvent_ref; by apply run_steps_reachable.
Qed.

Lemma run_history evs ps rs :
  Z.of_nat (size ps) + Z.of_nat (length evs) < max_int32 -> reachable (with_pods ps rs) ->
  exists rs', let s' := run (concat (on_informer_event args <$> evs)) (with_pods ps rs) in
    s' = with_pods (foldl count_event ps evs) rs' /\ reachable s'.
Proof.
  revert ps rs. induction evs as [|e evs IH]; intros ps rs Hs Hr; [by exists rs|].
  rewrite fmap_cons. cbn [concat foldl]. rewrite run_app. simpl length in Hs.
  destruct (run_event e ps rs) as [rs1 E]; [lia|].
  pose proof (run_event_reachable e (with_pods ps rs) Hr) as Hr1.
  rewrite with_pods_pods in Hr1 by (unfold fits; lia). rewrite E in *.
  pose proof (count_event_size ps e) as Hz. apply IH; [lia|apply Hr1; lia].
Qed.

(** Counting commutes with the cache, UID by UID. *)
Definition counted_as (pod : Pod) : option podRef :=
  if countablePod pod then Some (event_ref pod) else None.

Lemma count_cache evs ps cache :
  (forall uid, ps !! uid = cache !! uid ≫= counted_as) ->
  forall uid, foldl count_event ps evs !! uid = foldl cache_step cache evs !! uid ≫= counted_as.
Proof.
  revert ps cache. induction evs as [|e evs IH]; intros ps cache Hp; [done|]. cbn [foldl]. apply IH.
  assert (Hset : forall pod uid, event_pods ps (pod, event_ref pod) !! uid =
                   <[pod_UID pod := pod]> cache !! uid ≫= counted_as).
  { intros pod uid. unfold event_pods, counted_as. simpl. destruct (decide (pod_UID pod = uid)) as [<-|Hne].
    - rewrite lookup_insert_eq. simpl. destruct (countablePod pod); [apply lookup_insert_eq|apply lookup_delete_eq].
    - rewrite lookup_insert_ne by done. rewrite <- Hp.
      destruct (countablePod pod); [by apply lookup_insert_ne|by apply lookup_delete_ne]. }
  assert (Hdel : forall u uid, delete u ps !! uid = delete u cache !! uid ≫= counted_as).
  { intros u uid. destruct (decide (u = uid)) as [->|Hne]; [by rewrite !lookup_delete_eq|].
    by rewrite !lookup_delete_ne. }
  intros uid. destruct e as [[]|? []|[? |[]|]]; simpl; auto.
Qed.

Lemma cache_uid evs cache :
  (forall uid pod, cache !! uid = Some pod -> pod_UID pod = uid) ->
  forall uid pod, foldl cache_step cache evs !! uid = Some pod -> pod_UID pod = uid.
Proof.
  revert cache. induction evs as [|e evs IH]; intros cache Hc; [done|]. cbn [foldl]. apply IH.
  intros uid pod Hp. destruct e as [[]|? []|[? |[]|]]; simpl in Hp; eauto.
  1,2: apply lookup_insert_Some in Hp as [[<- <-]|[_ Hp]]; eauto.
  all: apply lookup_delete_Some in Hp as [_ Hp]; eauto.
Qed.

Lemma count_event_fits evs ps :
  Z.of_nat (size ps) + Z.of_nat (length evs) < max_int32 -> fits (foldl count_event ps evs).
Proof.
  revert ps. induction evs as [|e evs IH]; intros ps Hs; cbn [foldl]; simpl length in Hs; [unfold fits; lia|].
  apply IH. pose proof (count_event_size ps e). lia.
Qed.

End events.

(** What the verification source makes of the cache, listed in any order. *)
Lemma listed_cache args evs l :
  let cache := foldl cache_step ∅ evs in
  l ≡ₚ (map_to_list cache).*2 -> forall uid ref,
  foldl (list_step (ManagedSchedulerName args) (ServiceLabelKey args)) ∅ l !! uid = Some ref <->
  exists pod, cache !! uid = Some pod /\ spec_SchedulerName (pod_Spec pod) = ManagedSchedulerName args /\
    countablePod pod = true /\ PodRefFor pod (ManagedSchedulerName args) (ServiceLabelKey args) = Ok ref.
Proof.
  intros cache Hl uid ref.
  assert (Hu : forall u pod, cache !! u = Some pod -> pod_UID pod = u) by (intros u pod; by apply cache_uid).
  assert (Hl1 : pod_UID <$> l ≡ₚ (map_to_list cache).*1).
  { rewrite Hl, <- list_fmap_compose. erewrite list_fmap_ext; [done|]. intros i [u pod] Hi. simpl.
    apply list_elem_of_lookup_2, elem_of_map_to_list in Hi. by apply Hu. }
  rewrite ListCountable_lookup by (rewrite Hl1; apply NoDup_fst_map_to_list). split.
  - intros (pod & Hin & <- & Hrest). rewrite Hl in Hin. apply list_elem_of_fmap in Hin as ([u pod'] & Heq & Hin).
    simpl in Heq. subst pod'. apply elem_of_map_to_list in Hin. exists pod. by rewrite (Hu _ _ Hin).
  - intros (pod & Hc & Hrest). exists pod. split; [|split; [by apply Hu|done]].
    rewrite Hl. apply list_elem_of_fmap. exists (uid, pod). split; [done|]. by apply elem_of_map_to_list.
Qed.

(** ** The labels of the deployments *)

Lemma svcOf_lookup k deps dep :
  NoDup (dep_key <$> deps) -> dep ∈ deps ->
  foldl (svcOf_step k) ∅ deps !! dep_key dep = dep_TemplateLabels dep !! k.
Proof.
  assert (Hout : forall m l, (forall d, d ∈ l -> dep_key d <> dep_key dep) ->
            foldl (svcOf_step k) m l !! dep_key dep = m !! dep_key dep).
  { intros m l. revert m. induction l as [|d l IH]; intros m Hd; [done|]. cbn [foldl].
    rewrite IH by (intros; apply Hd, elem_of_cons; by right). unfold svcOf_step.
    destruct (dep_TemplateLabels d !! k); [|done]. apply lookup_insert_ne, Hd, elem_of_cons. by left. }
  intros Hnd Hin. apply list_elem_of_split in Hin as (l1 & l2 & ->).
  rewrite fmap_app, fmap_cons in Hnd. apply NoDup_app in Hnd as (_ & Hdis & Hnd).
  apply NoDup_cons in Hnd as [Hn2 _]. rewrite foldl_app. cbn [foldl].
  rewrite Hout by (intros d Hd Heq; apply Hn2; rewrite <- Heq; by apply list_elem_of_fmap_2).
  unfold svcOf_step at 1. destruct (dep_TemplateLabels dep !! k); [apply lookup_insert_eq|].
  rewrite Hout; [apply lookup_empty|]. intros d Hd Heq.
  apply (Hdis (dep_key d)); [by apply list_elem_of_fmap_2|]. rewrite Heq. apply elem_of_cons. by left.
Qed.

(** ** Theorems *)


Definition ex_history : list informer_event :=
  [EvAdd (OPod (fx_pod "u1" "" "app" "Pending")); EvAdd (OPod (fx_pod "u2" "n1" "app" "Running"));
   EvUpdate (OPod (fx_pod "u1" "" "app" "Pending")) (OPod (fx_pod "u1" "n2" "app" "Pending"));
   EvDelete (OTombstone (Some (fx_pod "u2" "n1" "app" "Running"))); EvDelete OOther].



