(* ===== verification/Wakeup.v ===== *)
(** * No lost wake-ups (internal/spread/enqueue.go with plugin.go and plugins_api.go)

    A rejected pod waits until an event's hint queues it.  Here the hints meet what
    they are about: an event changes what PreFilter reads - the counts, the
    policies, the owner chain, the nodes - and when the hint registered for it skips
    a pending pod, PreFilter would answer that pod as before. *)

From S2P Require Import Prelude GoStd Kube Fixtures State Keys Domain Api Plugin Lifecycle Enqueue Wiring.

(** What PreFilter reads, with all caches synced. *)
Record world := World {
  w_state : spreadState;
  w_policies : string -> res (list ServiceSpreadPolicy);
  w_owners : rsOwnerReader;
  w_nodes : res (list (option Node));
}.

Definition plugin_at (args : ServiceSpreadArgs) (w : world) : ServiceSpread :=
  MkPlugin args (MkDeps (w_policies w) (OwnedByDeployment (w_owners w)) (w_nodes w) (Some true)).

(** The events: resource, old and new object. *)
Definition policy_resource : string := "servicespreadpolicies.v1alpha1.scheduling.soyup.top".

Section wakeup.
Context `{KubeLib} {U : Type} `{UnstructuredLib U}.
Context (args : ServiceSpreadArgs).

(** The hint registered for the resource; without one the scheduler queues. *)
Definition event_hint (pending : Pod) (resource : string) (oldObj newObj : hint_obj U) : go QueueingHint :=
  match find (fun ev => bool_decide (ev_Resource ev = resource)) EventsToRegister with
  | None => Val QueueSkip
  | Some ev =>
    match ev_QueueingHintFn ev with
    | None => Val QueueAfterBackoff
    | Some hint_pod => Val (podHint args (Some pending) oldObj newObj)
    | Some hint_policy => Val (policyHint args (Some pending) oldObj newObj)
    | Some hint_sameNamespace => sameNamespaceHint (Some pending) oldObj newObj
    end
  end.

(** The unstructured object of a policy event shows the policy's namespace, scheduler
    and, if they can be read, its match labels. *)
Definition shows (u : U) (p : ServiceSpreadPolicy) : Prop :=
  GetNamespace u = pol_Namespace p /\ (policySpec u).1 = SchedulerName (pol_Spec p) /\
  forall m, (policySpec u).2 = Some m -> m = sel_MatchLabels (ServiceSelector (pol_Spec p)).

(** The policies of one namespace change; the others keep theirs. *)
Definition policies_change (ns : string) (l l' : list ServiceSpreadPolicy)
    (f f' : string -> res (list ServiceSpreadPolicy)) : Prop :=
  f ns = Ok l /\ f' ns = Ok l' /\ forall ns', ns' <> ns -> f' ns' = f ns'.

(** The pod is counted and reserved, if at all, under the keys of its object: it
    has not been relabelled. *)
Definition same_keys (a b : podRef) : Prop := ref_QuotaKey a = ref_QuotaKey b /\ ref_SchedKey a = ref_SchedKey b.
Definition counted_under_its_keys (s : spreadState) (e : Pod) : Prop :=
  (forall r, pods (snap s) !! pod_UID e = Some r -> same_keys r (event_ref args e)) /\
  (forall r, resv s !! pod_UID e = Some r ->
     rv_QuotaKey r = ref_QuotaKey (event_ref args e) /\ rv_SchedKey r = ref_SchedKey (event_ref args e)).

Definition roomy (s : spreadState) : Prop :=
  snap_wf (snap s) /\ Z.of_nat (size (pods (snap s))) + Z.of_nat (size (resv s)) + 1 < max_int32.

(** What the events do to the world. *)
Inductive changes : world -> string -> hint_obj U -> hint_obj U -> world -> Prop :=
| ch_pod old e w :
    roomy (w_state w) -> counted_under_its_keys (w_state w) e ->
    changes w "Pod" old (HPod (Some e))
      (World (run (onPodEvent args e) (w_state w)) (w_policies w) (w_owners w) (w_nodes w))
| ch_pod_delete e w :
    roomy (w_state w) -> counted_under_its_keys (w_state w) e ->
    changes w "Pod" (HPod (Some e)) HNil
      (World (run (OnPodDelete (pod_UID e)) (w_state w)) (w_policies w) (w_owners w) (w_nodes w))
| ch_policy_add u p l l' f w :
    shows u p -> l' ≡ₚ p :: l -> policies_change (pol_Namespace p) l l' (w_policies w) f ->
    changes w policy_resource HNil (HUnstructured u) (World (w_state w) f (w_owners w) (w_nodes w))
| ch_policy_delete u p l l' f w :
    shows u p -> l ≡ₚ p :: l' -> policies_change (pol_Namespace p) l l' (w_policies w) f ->
    changes w policy_resource (HUnstructured u) HNil (World (w_state w) f (w_owners w) (w_nodes w))
(** An update that does not take the policy away from a service. *)
| ch_policy_update old u p0 p r l l' f w :
    shows u p -> pol_Namespace p0 = pol_Namespace p -> l ≡ₚ p0 :: r -> l' ≡ₚ p :: r ->
    (forall v, policy_matches args v p0 = true -> policy_matches args v p = true) ->
    policies_change (pol_Namespace p) l l' (w_policies w) f ->
    changes w policy_resource old (HUnstructured u) (World (w_state w) f (w_owners w) (w_nodes w))
(** A ReplicaSet or Deployment of the object's namespace appears, changes or goes. *)
| ch_owner res old new u r w :
    (res = "replicasets.v1.apps" \/ res = "deployments.v1.apps") ->
    (new = HUnstructured u \/ (new = HNil /\ old = HUnstructured u)) ->
    (forall ns name, ns <> GetNamespace u ->
       rs_Get r ns name = rs_Get (w_owners w) ns name /\ dep_Get r ns name = dep_Get (w_owners w) ns name) ->
    changes w res old new (World (w_state w) (w_policies w) r (w_nodes w))
| ch_node old new nodes w :
    changes w "Node" old new (World (w_state w) (w_policies w) (w_owners w) nodes).

(** ** Lemmas: counts of other services *)

Lemma count_if_insert_other {V} (p : V -> bool) (m : gmap string V) k v :
  p v = false -> (forall x, m !! k = Some x -> p x = false) -> count_if p (<[k := v]> m) = count_if p m.
Proof.
  intros Hv Hm. destruct (m !! k) as [x|] eqn:E.
  - rewrite (count_if_replace _ _ _ x) by done. rewrite Hv, (Hm x) by done. simpl. lia.
  - rewrite count_if_insert, Hv by done. done.
Qed.

Lemma count_if_delete_other {V} (p : V -> bool) (m : gmap string V) k :
  (forall x, m !! k = Some x -> p x = false) -> count_if p (delete k m) = count_if p m.
Proof.
  intros Hm. destruct (m !! k) as [x|] eqn:E; [|by apply count_if_delete_None].
  rewrite (count_if_delete p m k x E), (Hm x) by done. done.
Qed.

Lemma release_resv_cases ps rs uid : release_resv ps rs uid = rs \/ release_resv ps rs uid = delete uid rs.
Proof. unfold release_resv. destruct (rs !! uid); [|by left]. destruct (observed _ _ _); [by right|by left]. Qed.

(** Neither key of the pending pod is a key of the event's pod. *)
Definition other_keys (e : Pod) (qk sk : string) : Prop :=
  ref_QuotaKey (event_ref args e) <> qk /\ ref_SchedKey (event_ref args e) <> sk.

(** The maps after an event about the pod [uid]: entries of that pod may change. *)
Lemma counts_unchanged ps rs ps' rs' e qk sk n :
  other_keys e qk sk -> counted_under_its_keys (with_pods ps rs) e -> fits ps ->
  (ps' = <[pod_UID e := event_ref args e]> ps \/ ps' = delete (pod_UID e) ps) ->
  (rs' = rs \/ rs' = delete (pod_UID e) rs) -> fits ps' ->
  quota_on (with_pods ps' rs') n qk = quota_on (with_pods ps rs) n qk /\
  domain_on (with_pods ps' rs') n sk = domain_on (with_pods ps rs) n sk.
Proof.
  intros [Hq Hd] [Hp Hr] Hf Hps Hrs Hf'. rewrite with_pods_pods in Hp by done. simpl in Hr.
  assert (Hpq : forall r, pods (snap (with_pods ps rs)) !! pod_UID e = Some r ->
            ref_at ref_QuotaKey n qk r = false /\ ref_at ref_SchedKey n sk r = false).
  { intros r. rewrite with_pods_pods by done. intros Hx. destruct (Hp r Hx) as [E1 E2].
    split; apply bool_decide_eq_false; intros [_ E]; congruence. }
  rewrite with_pods_pods in Hpq by done.
  assert (Hrq : forall r, rs !! pod_UID e = Some r ->
            resv_at rv_QuotaKey n qk r = false /\ resv_at rv_SchedKey n sk r = false).
  { intros r Hx. destruct (Hr r Hx) as [E1 E2]. split; apply bool_decide_eq_false; intros [_ E]; congruence. }
  assert (He : ref_at ref_QuotaKey n qk (event_ref args e) = false /\ ref_at ref_SchedKey n sk (event_ref args e) = false)
    by (split; apply bool_decide_eq_false; intros [_ E]; congruence).
  assert (Hins : forall p, p (event_ref args e) = false -> (forall x, ps !! pod_UID e = Some x -> p x = false) ->
            count_if p ps' = count_if p ps).
  { intros p Hpe Hx. destruct Hps as [-> | ->]; [by apply count_if_insert_other|by apply count_if_delete_other]. }
  assert (Hdel : forall p, (forall x, rs !! pod_UID e = Some x -> p x = false) -> count_if p rs' = count_if p rs).
  { intros p Hx. destruct Hrs as [-> | ->]; [done|by apply count_if_delete_other]. }
  rewrite !quota_on_with_pods, !domain_on_with_pods by done. split; f_equal; [apply Hins|apply Hdel|apply Hins|apply Hdel];
    try apply He; intros x Hx; (apply Hpq in Hx as [? ?] || apply Hrq in Hx as [? ?]); done.
Qed.

Lemma roomy_small s : roomy s -> small s.
Proof. unfold roomy, small. intros [_ Hs]. lia. Qed.

Lemma roomy_with_pods s : roomy s -> s = with_pods (pods (snap s)) (resv s).
Proof. intros [Hw Hs]. apply state_is_with_pods; [done|]. unfold fits. lia. Qed.

(** Reading through [effCount] below the int32 limit. *)
Lemma eff_unchanged s ps' rs' e qk sk n :
  roomy s -> other_keys e qk sk -> counted_under_its_keys s e ->
  (ps' = <[pod_UID e := event_ref args e]> (pods (snap s)) \/ ps' = delete (pod_UID e) (pods (snap s))) ->
  (rs' = resv s \/ rs' = delete (pod_UID e) (resv s)) ->
  effCount (with_pods ps' rs') n sk qk = effCount s n sk qk.
Proof.
  intros Hroom Ho Hc Hps Hrs. pose proof Hroom as [Hw Hs].
  assert (Hf : fits (pods (snap s))) by (unfold fits; lia).
  assert (Hsz : (size ps' <= S (size (pods (snap s))))%nat /\ (size rs' <= size (resv s))%nat).
  { split.
    - destruct Hps as [-> | ->]; [rewrite map_size_insert|rewrite map_size_delete]; destruct (_ !! _); simpl; lia.
    - destruct Hrs as [-> | ->]; [lia|]. rewrite map_size_delete. destruct (_ !! _); simpl; lia. }
  assert (Hf' : fits ps') by (unfold fits; lia).
  rewrite (roomy_with_pods s Hroom) in Hc. destruct (counts_unchanged _ _ ps' rs' e qk sk n Ho Hc Hf Hps Hrs Hf') as [Eq Ed].
  rewrite <- (roomy_with_pods s Hroom) in Eq, Ed.
  rewrite !effCount_spec, Eq, Ed; [done|done|by apply roomy_small|by apply with_pods_wf|].
  unfold small. rewrite with_pods_pods by done. simpl. lia.
Qed.

Lemma eff_pod_event s e qk sk n :
  roomy s -> other_keys e qk sk -> counted_under_its_keys s e ->
  effCount (run (onPodEvent args e) s) n sk qk = effCount s n sk qk.
Proof.
  intros Hroom Ho Hc. pose proof Hroom as [Hw Hs]. rewrite onPodEvent_ref.
  rewrite (roomy_with_pods s Hroom) at 1.
  rewrite OnPodAddOrUpdate_with_pods; [|unfold fits; lia|apply fits_insert; lia].
  apply (eff_unchanged s _ _ e); [done..| |apply release_resv_cases].
  destruct (countablePod e); auto.
Qed.

Lemma eff_pod_delete s e qk sk n :
  roomy s -> other_keys e qk sk -> counted_under_its_keys s e ->
  effCount (run (OnPodDelete (pod_UID e)) s) n sk qk = effCount s n sk qk.
Proof.
  intros Hroom Ho Hc. pose proof Hroom as [Hw Hs]. rewrite (roomy_with_pods s Hroom) at 1.
  rewrite run_delete by (unfold fits; lia). apply (eff_unchanged s _ _ e); auto.
Qed.

(** A skipped pod event is about other keys. *)
Lemma podHint_skip pending old new e rp :
  PodRefFor pending (ManagedSchedulerName args) (ServiceLabelKey args) = Ok rp ->
  (match objPod new with Some p => Some p | None => objPod old end) = Some e ->
  podHint (U := U) args (Some pending) old new = QueueSkip ->
  other_keys e (ref_QuotaKey rp) (ref_SchedKey rp).
Proof.
  intros Hp He. unfold podHint. rewrite He, Hp.
  assert (Hz : ref_QuotaKey rp <> "" /\ ref_SchedKey rp <> "").
  { unfold PodRefFor in Hp. destruct (pod_Labels pending !! _); [|done]. injection Hp as <-. simpl.
    unfold SchedKey, QuotaKey. destruct (pod_Namespace pending); done. }
  unfold other_keys, event_ref. destruct (decide (spec_SchedulerName _ <> _)) as [Hn|Hn].
  - intros _. rewrite decide_False by done. unfold zero_ref. simpl. destruct Hz. auto.
  - apply dec_stable in Hn. rewrite decide_True by done.
    destruct (PodRefFor e _ _) as [r|]; [|intros _; unfold zero_ref; simpl; destruct Hz; auto].
    destruct (decide _) as [|Hd]; [done|]. intros _. tauto.
Qed.

(** ** Lemmas: policies *)

Lemma filter_perm {A} (f : A -> bool) l l' : l ≡ₚ l' -> List.filter f l ≡ₚ List.filter f l'.
Proof.
  induction 1 as [|x l l' _ IH|x y l|l1 l2 l3 _ IH1 _ IH2]; simpl; [done| | |by trans (List.filter f l2)].
  - destruct (f x); by rewrite IH.
  - destruct (f x), (f y); try done. apply perm_swap.
Qed.

Lemma filter_one_more {A} (f : A -> bool) x l l' :
  l' ≡ₚ x :: l -> f x = false -> List.filter f l' ≡ₚ List.filter f l.
Proof. intros Hl Hx. rewrite (filter_perm f _ _ Hl). simpl. by rewrite Hx. Qed.

(** The answer depends on the matching policies only up to their order. *)
Lemma resolvePolicy_perm pl pl' ns v l l' :
  pl_args pl' = pl_args pl -> d_policies (pl_deps pl) ns = Ok l -> d_policies (pl_deps pl') ns = Ok l' ->
  List.filter (policy_matches (pl_args pl) v) l' ≡ₚ List.filter (policy_matches (pl_args pl) v) l ->
  resolvePolicy pl' ns v = resolvePolicy pl ns v.
Proof.
  intros Ha Hl Hl' Hp. unfold resolvePolicy. rewrite Ha, Hl, Hl'.
  destruct (List.filter _ l) as [|x [|y m]].
  - apply Permutation_nil_r in Hp. by rewrite Hp.
  - apply Permutation_singleton_r in Hp. by rewrite Hp.
  - pose proof (Permutation_length Hp) as Hlen. destruct (List.filter _ l') as [|x' [|y' m']]; try done.
    by rewrite Hlen.
Qed.

Lemma policy_skip pending old new u p v :
  shows u p -> (match new with HNil => old | _ => new end) = HUnstructured u ->
  pod_Labels pending !! ServiceLabelKey args = Some v ->
  policyHint args (Some pending) old new = QueueSkip ->
  pol_Namespace p <> pod_Namespace pending \/ policy_matches args v p = false.
Proof.
  intros (Hns & Hs & Hm) Hobj Hv. unfold policyHint. rewrite Hobj, Hv, Hns.
  destruct (decide (pol_Namespace p <> pod_Namespace pending)) as [?|Hn]; [by left|]. intros Hh. right.
  unfold policy_matches. destruct (policySpec u) as [sched [sel|]]; [|done]. simpl in Hs, Hm. subst sched.
  destruct (decide (SchedulerName (pol_Spec p) = "")); [done|].
  destruct (decide (SchedulerName (pol_Spec p) <> ManagedSchedulerName args)); [done|].
  specialize (Hm sel eq_refl). subst sel. unfold selectorMatchesService.
  destruct (negb _ || negb _) eqn:Hor; [done|]. apply orb_false_iff in Hor as [_ Hsz].
  apply negb_false_iff, bool_decide_eq_true in Hsz. apply bool_decide_eq_false. intros Hk.
  rewrite decide_True in Hh; [done|]. split; [done|]. unfold map_get. by rewrite Hk.
Qed.

(** ** PreFilter reads nothing else *)

Lemma count_loop_ext (f g : string -> Z * Z) l : (forall n, f n = g n) -> count_loop f l = count_loop g l.
Proof.
  intros Hfg. unfold count_loop. generalize (-1, ∅ : gmap string Z, ∅ : gmap string Z).
  induction l as [|x l IH]; intros acc; [done|]. cbn [foldl]. unfold count_step at 2 4. rewrite Hfg. apply IH.
Qed.

Lemma PreFilter_ext `{CycleStore C} w w' (c : C) pending :
  w_nodes w' = w_nodes w ->
  OwnedByDeployment (w_owners w') (pod_UID pending) (pod_Namespace pending) (pod_OwnerReferences pending) =
    OwnedByDeployment (w_owners w) (pod_UID pending) (pod_Namespace pending) (pod_OwnerReferences pending) ->
  (forall v, pod_Labels pending !! ServiceLabelKey args = Some v ->
     resolvePolicy (plugin_at args w') (pod_Namespace pending) v = resolvePolicy (plugin_at args w) (pod_Namespace pending) v) ->
  (forall r n, PodRefFor pending (ManagedSchedulerName args) (ServiceLabelKey args) = Ok r ->
     effCount (w_state w') n (ref_SchedKey r) (ref_QuotaKey r) = effCount (w_state w) n (ref_SchedKey r) (ref_QuotaKey r)) ->
  PreFilter (plugin_at args w') (effCount (w_state w')) c pending =
  PreFilter (plugin_at args w) (effCount (w_state w)) c pending.
Proof.
  intros Hn Ho Hp He. unfold PreFilter. simpl. rewrite Hn, Ho. f_equal.
  destruct (decide _); [done|]. unfold PodRefFor in He.
  destruct (pod_Labels pending !! ServiceLabelKey args) as [v|]; [|done].
  destruct (negb _); [done|]. rewrite Hp by done.
  destruct (resolvePolicy _ _ _) as [[policy [st|]] lg]; [done|]. case_decide; [done|].
  rewrite (count_loop_ext _ (fun node => effCount (w_state w) node
    (SchedKey (QuotaKey (pod_Namespace pending) (ManagedSchedulerName args) (ServiceLabelKey args) v) (DomainHash pending))
    (QuotaKey (pod_Namespace pending) (ManagedSchedulerName args) (ServiceLabelKey args) v))); [done|].
  intros node. by apply (He _ node eq_refl).
Qed.

(** ** The hints, one resource at a time *)

Lemma skip_policy pending old new u p l l' w f v :
  shows u p -> (match new with HNil => old | _ => new end) = HUnstructured u ->
  policies_change (pol_Namespace p) l l' (w_policies w) f ->
  pod_Labels pending !! ServiceLabelKey args = Some v ->
  policyHint args (Some pending) old new = QueueSkip ->
  (policy_matches args v p = false ->
     List.filter (policy_matches args v) l' ≡ₚ List.filter (policy_matches args v) l) ->
  resolvePolicy (plugin_at args (World (w_state w) f (w_owners w) (w_nodes w))) (pod_Namespace pending) v =
  resolvePolicy (plugin_at args w) (pod_Namespace pending) v.
Proof.
  intros Hs Hobj (Hl & Hl' & Hrest) Hv Hh Hfil.
  destruct (decide (pol_Namespace p = pod_Namespace pending)) as [Hn|Hn].
  - rewrite Hn in Hl, Hl'. apply (resolvePolicy_perm _ _ _ _ l l'); [done..|]. apply Hfil.
    by destruct (policy_skip pending old new u p v Hs Hobj Hv Hh).
  - unfold resolvePolicy. simpl. by rewrite Hrest by congruence.
Qed.

Lemma skip_owner pending old new u :
  (new = HUnstructured u \/ (new = HNil /\ old = HUnstructured u)) ->
  sameNamespaceHint (Some pending) old new = Val QueueSkip -> GetNamespace u <> pod_Namespace pending.
Proof.
  intros Hobj. unfold sameNamespaceHint.
  destruct Hobj as [-> | [-> ->]]; intros E; injection E; repeat (destruct (decide _)); done.
Qed.

Lemma owners_elsewhere r r' ns uid refs :
  (forall name, rs_Get r' ns name = rs_Get r ns name /\ dep_Get r' ns name = dep_Get r ns name) ->
  OwnedByDeployment r' uid ns refs = OwnedByDeployment r uid ns refs.
Proof.
  intros Hr. unfold OwnedByDeployment. destruct (controllerRef refs "ReplicaSet") as [o|]; [|done].
  rewrite (proj1 (Hr _)). destruct (rs_Get r ns (owner_Name o)) as [os|]; [|done].
  destruct (controllerRef os "Deployment"); [|done]. apply Hr.
Qed.

End wakeup.

(** ** Theorems *)

(** C13: no wake-up is lost.  Whatever event reaches the scheduler - a pod that was not
    relabelled is added, changed or deleted, a policy is added, deleted or updated
    without being taken away from a service, a ReplicaSet, a Deployment or a node
    changes - if the hint registered for it skips a pending pod, then PreFilter
    answers that pod after the event exactly as before, with the same status, cycle
    state and counters, so that neither it nor Filter would let the pod through now. *)
Theorem skipped_events_are_irrelevant `{KubeLib} {U : Type} `{UnstructuredLib U} {C : Type} `{CycleStore C}
    args w resource (old new : hint_obj U) w' (c : C) pending :
  changes args w resource old new w' ->
  event_hint args pending resource old new = Val QueueSkip ->
  PreFilter (plugin_at args w') (effCount (w_state w')) c pending =
  PreFilter (plugin_at args w) (effCount (w_state w)) c pending.
Proof.
  intros Hch Hh. destruct Hch as [old e w Hroom Hc|e w Hroom Hc|u p l l' f w Hs Hl Hf|u p l l' f w Hs Hl Hf|
    old u p0 p r l l' f w Hs Hns Hl Hl' Hsel Hf|res old new u r w Hres Hobj Hr|old new nodes w];
    [| | | | | |by vm_compute in Hh].
  - apply PreFilter_ext; [done..|]. intros rp n Hp. simpl. apply eff_pod_event; [done| |done].
    apply (podHint_skip args pending old (HPod (Some e)) e rp Hp eq_refl). by injection Hh.
  - apply PreFilter_ext; [done..|]. intros rp n Hp. simpl. apply (eff_pod_delete args); [done| |done].
    apply (podHint_skip (U := U) args pending (HPod (Some e)) HNil e rp Hp eq_refl). by injection Hh.
  - apply PreFilter_ext; [done..| |done]. intros v Hv.
    apply (skip_policy args pending HNil (HUnstructured u) u p l l'); [done..|by injection Hh|].
    intros Hm. by eapply filter_one_more.
  - apply PreFilter_ext; [done..| |done]. intros v Hv.
    apply (skip_policy args pending (HUnstructured u) HNil u p l l'); [done..|by injection Hh|].
    intros Hm. symmetry. by eapply filter_one_more.
  - apply PreFilter_ext; [done..| |done]. intros v Hv.
    apply (skip_policy args pending old (HUnstructured u) u p l l'); [done..|by injection Hh|].
    intros Hm. assert (Hm0 : policy_matches args v p0 = false)
      by (destruct (policy_matches args v p0) eqn:E; [by rewrite Hsel in Hm|done]).
    rewrite (filter_one_more _ _ _ _ Hl' Hm), (filter_one_more _ _ _ _ Hl Hm0). done.
  - apply PreFilter_ext; [done| |done..].
    assert (Hsk : sameNamespaceHint (Some pending) old new = Val QueueSkip) by by destruct Hres as [-> | ->].
    pose proof (skip_owner pending old new u Hobj Hsk) as Hne. apply owners_elsewhere. intros name. by apply Hr.
Qed.

(** The pending pod of service app, and a policy of another service that is deleted. *)
Definition wk_policy (name value : string) : ServiceSpreadPolicy :=
  Policy name "ns" (PolicySpec DefaultManagedSchedulerName (MkSelector {[ "svc" := value ]} []) 1 1).
Definition wk_object (value : string) : fx_unstructured := ("ns", DefaultManagedSchedulerName, {[ "svc" := value ]}).
Definition wk_list (ps : list ServiceSpreadPolicy) (ns : string) : res (list ServiceSpreadPolicy) :=
  Ok (if decide (ns = "ns") then ps else []).
Definition wk_world (ps : list ServiceSpreadPolicy) : world :=
  World newSpreadState (wk_list ps)
    (RSOwnerReader (fun _ _ => Some [MkOwnerReference "Deployment" "d" (Some true)]) (fun _ _ => true))
    (Ok [Some (fx_node "n1" ∅)]).
Definition wk_code (ps : list ServiceSpreadPolicy) : option Code :=
  match PreFilter (plugin_at eq_args (wk_world ps)) (effCount newSpreadState) (∅ : gmap string StateData)
          (eq_pod "p" "" "app") with
  | Val (st, _, _) => Some (st_Code st)
  | Panic => None
  end.

Lemma skipped_events_are_irrelevant_witness :
  let before := wk_world [wk_policy "a" "web"; wk_policy "b" "app"] in
  let after := wk_world [wk_policy "b" "app"] in
  let pending := eq_pod "p" "" "app" in
  event_hint eq_args pending policy_resource (HUnstructured (wk_object "web")) HNil = Val QueueSkip /\
  PreFilter (plugin_at eq_args after) (effCount (w_state after)) (∅ : gmap string StateData) pending =
  PreFilter (plugin_at eq_args before) (effCount (w_state before)) ∅ pending.
Proof.
  intros before after pending.
  assert (Hh : event_hint eq_args pending policy_resource (HUnstructured (wk_object "web")) HNil = Val QueueSkip)
    by (vm_compute; reflexivity).
  split; [exact Hh|].
  apply (skipped_events_are_irrelevant eq_args before policy_resource (HUnstructured (wk_object "web")) HNil after).
  - apply (ch_policy_delete eq_args (wk_object "web") (wk_policy "a" "web")
      [wk_policy "a" "web"; wk_policy "b" "app"] [wk_policy "b" "app"] (wk_list [wk_policy "b" "app"]) before).
    + split; [reflexivity|]. split; [reflexivity|]. intros m Hm. by injection Hm.
    + reflexivity.
    + split; [reflexivity|]. split; [reflexivity|]. intros ns' Hns. unfold before, wk_world, wk_list. simpl w_policies.
      change (pol_Namespace (wk_policy "a" "web")) with "ns" in Hns. by rewrite !decide_False.
  - exact Hh.
Defined.

(** A policy update that ends an ambiguity is missed: of two policies that select the
    pod's service one is moved to another service, the pod that was rejected as
    ambiguous could be scheduled now, and the hint, which looks at the new object
    alone, skips it. *)
Theorem policyHint_misses_deselection :
  let before := [wk_policy "a" "app"; wk_policy "b" "app"] in
  let after := [wk_policy "a" "web"; wk_policy "b" "app"] in
  wk_code before = Some UnschedulableAndUnresolvable /\ wk_code after = Some Success /\
  event_hint (U := fx_unstructured) eq_args (eq_pod "p" "" "app") policy_resource
    (HUnstructured (wk_object "app")) (HUnstructured (wk_object "web")) = Val QueueSkip.
Proof. split_and!; vm_compute; reflexivity. Qed.
