(* ===== verification/SelfCert.v ===== *)
(** * Serving-certificate lifecycle (internal/webhook/selfcert.go)

    The rotator that issues the webhook's certificate, stores it in a Secret and
    publishes the CA.  Certificates (crypto/x509, crypto/rsa, encoding/pem) are the
    interface [Crypto], the Kubernetes API the interface [CertAPI]; what the
    theorems rely on about them are [CryptoLaws] and [CertAPILaws], and the toy
    instances at the end satisfy both.  The clock is read once per pass. *)

From S2P Require Import Prelude GoStd Kube Fixtures Api.
From Stdlib Require Import Ascii.

Definition ServingCertSecretName : string := "service-spread-webhook-serving-cert".
Definition caCertKey : string := "ca.crt".
Definition tlsCertKey : string := "tls.crt".
Definition tlsKeyKey : string := "tls.key".
Definition caLifeTime : Z := 10 * 365 * 24 * Hour.
Definition leafLifeTime : Z := 90 * 24 * Hour.
Definition refreshWhenLeft : Z := 30 * 24 * Hour.
Definition SecretTypeTLS : string := "kubernetes.io/tls".
Definition WebhookDeploymentName : string := "service-spread-webhook".

(** ** Cryptography *)

(** The fields of an [x509.Certificate] template that the source sets. *)
Record template := MkTemplate {
  t_Serial : Z;
  t_CommonName : string;
  t_DNSNames : list string;
  t_NotBefore : Z;
  t_NotAfter : Z;
  t_KeyUsage : list string;
  t_ServerAuth : bool;
  t_IsCA : bool;
}.

Class Crypto := {
  key : Type;
  der : Type;
  cert : Type;
  (** [pem.Decode] (the first block's bytes), [pem.EncodeToMemory]. *)
  pem_Decode : string -> option der;
  pem_Encode : string -> der -> string;
  MarshalPKCS1 : key -> der;
  ParsePKCS1 : der -> res key;
  ParseCertificate : der -> res cert;
  NotAfter : cert -> Z;
  (** [x509.CreateCertificate]: the parent is the template itself or a parsed
      certificate. *)
  CreateCertificate : template -> option cert -> key -> key -> res der;
  (** [leaf.Verify] at a time against one root: no error. *)
  Verify : Z -> cert -> cert -> bool;
}.

(** The documented behaviour: PEM and PKCS#1 round-trip; what [CreateCertificate]
    returns parses, with its times truncated to seconds; a server certificate
    signed by a self-signed CA's key verifies against that CA while both are valid. *)
Class CryptoLaws `{Crypto} : Prop := {
  pem_roundtrip ty d : pem_Decode (pem_Encode ty d) = Some d;
  pem_empty : pem_Decode "" = None;
  pkcs1_roundtrip k : ParsePKCS1 (MarshalPKCS1 k) = Ok k;
  CreateCertificate_parses t p pub priv d :
    CreateCertificate t p pub priv = Ok d ->
    exists c, ParseCertificate d = Ok c /\ t_NotAfter t - Second < NotAfter c <= t_NotAfter t;
  Verify_issued ct ck cd ca lt lk ld leaf now :
    CreateCertificate ct None ck ck = Ok cd -> ParseCertificate cd = Ok ca ->
    t_IsCA ct = true -> "CertSign" ∈ t_KeyUsage ct ->
    CreateCertificate lt (Some ca) lk ck = Ok ld -> ParseCertificate ld = Ok leaf ->
    t_ServerAuth lt = true ->
    t_NotBefore ct <= now <= t_NotAfter ct - Second ->
    t_NotBefore lt <= now <= t_NotAfter lt - Second ->
    Verify now leaf ca = true;
}.

Section crypto.
Context `{Crypto}.

Record CA := MkCA { ca_CertPEM : string; ca_KeyPEM : string }.
Record Leaf := MkLeaf { leaf_CertPEM : string; leaf_KeyPEM : string }.

(** The random readings of one call: [rsaKey()] and [serial()]. *)
Record entropy := MkEntropy { e_key : res key; e_serial : res Z }.

Definition ca_template (ser now ttl : Z) : template :=
  MkTemplate ser "service-spread-webhook-ca" [] (now - Hour) (now + ttl)
             ["CertSign"; "DigitalSignature"] false true.

Definition GenerateCA (e : entropy) (now ttl : Z) : res CA :=
  key ← e_key e;
  ser ← e_serial e;
  der ← CreateCertificate (ca_template ser now ttl) None key key;
  Ok (MkCA (pem_Encode "CERTIFICATE" der) (pem_Encode "RSA PRIVATE KEY" (MarshalPKCS1 key))).

Definition leaf_template (ser : Z) (name : string) (dnsNames : list string) (now ttl : Z) : template :=
  MkTemplate ser name dnsNames (now - Hour) (now + ttl) ["DigitalSignature"; "KeyEncipherment"] true false.

Definition GenerateLeaf (c : CA) (e : entropy) (dnsNames : list string) (now ttl : Z) : res Leaf :=
  match dnsNames with
  | [] => Err "dnsNames required"
  | name :: _ =>
    match pem_Decode (ca_CertPEM c) with
    | None => Err "CA PEM undecodable"
    | Some caBlock =>
      caParsed ← ParseCertificate caBlock;
      match pem_Decode (ca_KeyPEM c) with
      | None => Err "CA key PEM undecodable"
      | Some caKeyBlock =>
        caPriv ← ParsePKCS1 caKeyBlock;
        key ← e_key e;
        ser ← e_serial e;
        der ← CreateCertificate (leaf_template ser name dnsNames now ttl) (Some caParsed) key caPriv;
        Ok (MkLeaf (pem_Encode "CERTIFICATE" der) (pem_Encode "RSA PRIVATE KEY" (MarshalPKCS1 key)))
      end
    end
  end.

Definition LeafNeedsRotation (now : Z) (certPEM : string) (threshold : Z) : bool :=
  match pem_Decode certPEM with
  | None => true
  | Some block =>
    match ParseCertificate block with
    | Err _ => true
    | Ok crt => NotAfter crt - now <? threshold
    end
  end.

Definition leafSignedBy (now : Z) (leafPEM caPEM : string) : bool :=
  match pem_Decode leafPEM, pem_Decode caPEM with
  | Some lb, Some cb =>
    match ParseCertificate lb, ParseCertificate cb with
    | Ok leaf, Ok ca => Verify now leaf ca
    | _, _ => false
    end
  | _, _ => false
  end.

(** ** The Secret *)

Record Secret := MkSecret {
  sec_Name : string;
  sec_Namespace : string;
  sec_ResourceVersion : string;
  sec_Type : string;
  sec_Data : gmap string string;
}.

(** [env] is [os.Getenv("WEBHOOK_NAMESPACE")]. *)
Definition WebhookNamespace (env : string) : string :=
  if decide (env <> "") then env else "service-spread-system".

Definition SecretFromCerts (env : string) (ca : CA) (leaf : Leaf) : Secret :=
  MkSecret ServingCertSecretName (WebhookNamespace env) "" SecretTypeTLS
    (<[caCertKey := ca_CertPEM ca]>
       (<[tlsCertKey := leaf_CertPEM leaf]> (<[tlsKeyKey := leaf_KeyPEM leaf]> ∅))).

Definition CertsFromSecret (sec : Secret) : res Leaf :=
  match sec_Data sec !! tlsCertKey, sec_Data sec !! tlsKeyKey with
  | Some cert, Some key => Ok (MkLeaf cert key)
  | _, _ => Err ("secret " +:+ sec_Namespace sec +:+ "/" +:+ sec_Name sec +:+ " lacks " +:+
                 tlsCertKey +:+ "/" +:+ tlsKeyKey)
  end.

Definition CaBundlePatch (webhookConfigName : string) (caPEM : string) : string :=
  json_array [json_object [("op", json_string "replace");
                           ("path", json_string "/webhooks/0/clientConfig/caBundle");
                           ("value", json_string (base64_EncodeToString caPEM))]].

Definition ServingCertDNSNames (ns : string) : list string :=
  ["service-spread-webhook-service." +:+ ns +:+ ".svc";
   "service-spread-webhook-service." +:+ ns +:+ ".svc.cluster.local"].

End crypto.

(** ** The Kubernetes API *)

(** Every call returns the new state of the cluster; [None] is a nil error, and a
    failed [Get] may still return an object.  The first [string] is the namespace
    or, for the cluster-scoped webhook configuration, its name. *)
Class CertAPI `{Crypto} (W : Type) := {
  GetSecret : W -> string -> string -> option Secret * option string;
  UpdateSecret : W -> string -> Secret -> W * option string;
  CreateSecret : W -> string -> Secret -> W * option string;
  PatchWebhook : W -> string -> string -> W * option string;
  (** The pod template annotations of a Deployment, and their update. *)
  GetAnnotations : W -> string -> string -> res (option string_map);
  UpdateAnnotations : W -> string -> string -> string_map -> W * option string;
  (** [time.Now().UTC().Format(time.RFC3339)] *)
  RFC3339 : Z -> string;
  (** The base64 text of [webhooks[0].clientConfig.caBundle] in a configuration. *)
  caBundle : W -> string -> string;
}.

(** The documented behaviour: a written Secret is read back with its data; the
    other calls leave Secrets alone; a JSON patch that succeeds replaces the field
    it names, and a rollout does not touch the webhook configuration. *)
Class CertAPILaws `{Crypto} (W : Type) `{!CertAPI W} : Prop := {
  UpdateSecret_read w ns s w' :
    UpdateSecret w ns s = (w', None) ->
    exists s', GetSecret w' ns (sec_Name s) = (Some s', None) /\ sec_Data s' = sec_Data s;
  CreateSecret_read w ns s w' :
    CreateSecret w ns s = (w', None) ->
    exists s', GetSecret w' ns (sec_Name s) = (Some s', None) /\ sec_Data s' = sec_Data s;
  PatchWebhook_secret w cfg patch ns name :
    GetSecret (PatchWebhook w cfg patch).1 ns name = GetSecret w ns name;
  UpdateAnnotations_secret w ns dep ann ns' name :
    GetSecret (UpdateAnnotations w ns dep ann).1 ns' name = GetSecret w ns' name;
  UpdateAnnotations_bundle w ns dep ann cfg :
    caBundle (UpdateAnnotations w ns dep ann).1 cfg = caBundle w cfg;
  PatchWebhook_bundle w cfg v w' :
    is_ascii v ->
    PatchWebhook w cfg (json_array [json_object [("op", json_string "replace");
                          ("path", json_string "/webhooks/0/clientConfig/caBundle");
                          ("value", json_string v)]]) = (w', None) ->
    caBundle w' cfg = v;
}.

Section rotator.
Context `{Crypto} {W : Type} `{!CertAPI W}.

Record CertRotator := MkRotator {
  rot_secretNamespace : string;
  rot_webhookCfgName : string;
  rot_dnsNames : list string;
}.

(** [len(sec.Data[k]) == 0] *)
Definition data_empty (sec : Secret) (k : string) : bool :=
  match sec_Data sec !! k with None => true | Some b => str_len b =? 0 end.

Definition needs_issue (now : Z) (sec : Secret) : bool :=
  data_empty sec tlsCertKey || data_empty sec caCertKey ||
  match sec_Data sec !! tlsCertKey, sec_Data sec !! caCertKey with
  | Some leaf, Some ca => LeafNeedsRotation now leaf refreshWhenLeft || negb (leafSignedBy now leaf ca)
  | _, _ => true
  end.

Definition rollWebhookDeployment (r : CertRotator) (now : Z) (w : W) : W * option string :=
  match GetAnnotations w (rot_secretNamespace r) WebhookDeploymentName with
  | Err e => (w, Some e)
  | Ok ann =>
    UpdateAnnotations w (rot_secretNamespace r) WebhookDeploymentName
      (<["service-spread.io/cert-issued-at" := RFC3339 now]> (default ∅ ann))
  end.

(** The Secret to write: it takes over the type and the version of the object
    [Get] returned (its error is no longer looked at: [err] holds the nil error of
    [GenerateLeaf] here). *)
Definition new_secret (env : string) (sec : option Secret) (ca : CA) (leaf : Leaf) : Secret :=
  let s := SecretFromCerts env ca leaf in
  match sec with
  | Some old => MkSecret (sec_Name s) (sec_Namespace s) (sec_ResourceVersion old) (sec_Type old) (sec_Data s)
  | None => s
  end.

Definition write_secret (r : CertRotator) (w : W) (s : Secret) : W * option string :=
  match UpdateSecret w (rot_secretNamespace r) s with
  | (w, None) => (w, None)
  | (w, Some err) =>
    match CreateSecret w (rot_secretNamespace r) s with
    | (w, None) => (w, None)
    | (w, Some cerr) => (w, Some ("write serving-cert secret: update: " +:+ err +:+ ", create: " +:+ cerr))
    end
  end.

(** Publishing: the caBundle patch and, when asked, the roll. *)
Definition publish (r : CertRotator) (roll : bool) (now : Z) (ca : CA) (w : W) : W * bool * option string :=
  match PatchWebhook w (rot_webhookCfgName r) (CaBundlePatch (rot_webhookCfgName r) (ca_CertPEM ca)) with
  | (w, Some err) => (w, true, Some ("patch caBundle on " +:+ rot_webhookCfgName r +:+ ": " +:+ err))
  | (w, None) =>
    if roll then
      match rollWebhookDeployment r now w with
      | (w, Some err) => (w, true, Some ("roll webhook pods after issuance: " +:+ err))
      | (w, None) => (w, true, None)
      end
    else (w, true, None)
  end.

Definition issue (r : CertRotator) (roll : bool) (env : string) (now : Z) (e1 e2 : entropy)
    (sec : option Secret) (w : W) : W * bool * option string :=
  match GenerateCA e1 now caLifeTime with
  | Err e => (w, false, Some ("generate CA: " +:+ e))
  | Ok ca =>
    match GenerateLeaf ca e2 (rot_dnsNames r) now leafLifeTime with
    | Err e => (w, false, Some ("generate leaf: " +:+ e))
    | Ok leaf =>
      match write_secret r w (new_secret env sec ca leaf) with
      | (w, Some e) => (w, false, Some e)
      | (w, None) => publish r roll now ca w
      end
    end
  end.

(** [(world, issued, error)]; reading a nil Secret after a nil error panics. *)
Definition ensure (r : CertRotator) (roll : bool) (env : string) (now : Z) (e1 e2 : entropy) (w : W)
    : go (W * bool * option string) :=
  let '(sec, err) := GetSecret w (rot_secretNamespace r) ServingCertSecretName in
  match err, sec with
  | Some _, _ => Val (issue r roll env now e1 e2 sec w)
  | None, None => Panic
  | None, Some s => if needs_issue now s then Val (issue r roll env now e1 e2 sec w)
                    else Val (w, false, None)
  end.

Definition Ensure r := ensure r true.
Definition EnsureBootstrap r := ensure r false.

End rotator.

(** ** Correctness *)

Section correctness.
Context `{CryptoLaws} {W : Type} `{!CertAPI W}.

(** A Secret the rotator leaves alone: its leaf parses, has at least the refresh
    threshold left, and chains to its own CA. *)
Definition healthy (now : Z) (sec : Secret) : Prop :=
  exists leafPEM caPEM lb cb leaf ca,
    sec_Data sec !! tlsCertKey = Some leafPEM /\ sec_Data sec !! caCertKey = Some caPEM /\
    pem_Decode leafPEM = Some lb /\ pem_Decode caPEM = Some cb /\
    ParseCertificate lb = Ok leaf /\ ParseCertificate cb = Ok ca /\
    refreshWhenLeft <= NotAfter leaf - now /\ Verify now leaf ca = true.

Lemma str_len_zero s : (str_len s =? 0) = true -> s = "".
Proof. unfold str_len. destruct s; [done|]. simpl. lia. Qed.

Lemma decoded_nonempty s d : pem_Decode s = Some d -> (str_len s =? 0) = false.
Proof.
  intros Hd. destruct (str_len s =? 0) eqn:E; [|done]. apply str_len_zero in E as ->.
  by rewrite pem_empty in Hd.
Qed.

Lemma needs_issue_healthy now sec : needs_issue now sec = false <-> healthy now sec.
Proof.
  unfold needs_issue, healthy, data_empty, LeafNeedsRotation, leafSignedBy. split.
  - intros Hn. apply orb_false_iff in Hn as [_ Hn].
    destruct (sec_Data sec !! tlsCertKey) as [leafPEM|], (sec_Data sec !! caCertKey) as [caPEM|]; try done.
    apply orb_false_iff in Hn as [Hlt Hv]. repeat case_go. apply Z.ltb_ge in Hlt. apply negb_false_iff in Hv.
    eauto 20.
  - intros (leafPEM & caPEM & lb & cb & leaf & ca & Hl & Hc & Hdl & Hdc & Hpl & Hpc & Hleft & Hv).
    rewrite Hl, Hc, Hdl, Hdc, Hpl, Hpc, Hv, (decoded_nonempty _ _ Hdl), (decoded_nonempty _ _ Hdc).
    simpl. rewrite orb_false_r. apply Z.ltb_ge. lia.
Qed.

Lemma publish_issued r roll now ca w w' b err : publish r roll now ca w = (w', b, err) -> b = true.
Proof. unfold publish. intros Hp. repeat case_go; done. Qed.

(** An issue that stores nothing reports why. *)
Lemma issue_error r roll env now e1 e2 sec w w' err :
  issue r roll env now e1 e2 sec w = (w', false, err) -> err <> None.
Proof.
  unfold issue. intros Hi. repeat case_go; try done.
  all: match goal with Hp : publish _ _ _ _ _ = _ |- _ => by apply publish_issued in Hp end.
Qed.

(** A pass reports success without issuing exactly when the stored Secret is
    healthy - its leaf parses, has thirty days left and chains to the stored CA -
    and then it writes nothing; an unreadable Secret never passes for healthy. *)
Theorem ensure_exact r roll env now e1 e2 w sec err :
  GetSecret w (rot_secretNamespace r) ServingCertSecretName = (Some sec, err) ->
  ((exists w', ensure r roll env now e1 e2 w = Val (w', false, None)) <-> err = None /\ healthy now sec) /\
  (err = None -> healthy now sec -> ensure r roll env now e1 e2 w = Val (w, false, None)) /\
  (~ (err = None /\ healthy now sec) ->
   ensure r roll env now e1 e2 w = Val (issue r roll env now e1 e2 (Some sec) w)).
Proof.
  intros Hget. rewrite <- needs_issue_healthy. unfold ensure. rewrite Hget.
  assert (Hno : forall w', Val (issue r roll env now e1 e2 (Some sec) w) <> Val (w', false, None)).
  { intros w' Heq. injection Heq as Heq. by apply issue_error in Heq. }
  destruct err as [e|]; [|destruct (needs_issue now sec) eqn:En].
  - split; [|done]. split; [intros [w' Hw]; by apply Hno in Hw|by intros []].
  - split; [|by split]. split; [intros [w' Hw]; by apply Hno in Hw|by intros []].
  - split; [|split; [done|by intros []]]. split; [done|]. intros _. by exists w.
Qed.

Lemma GenerateCA_ok e now ttl ca :
  GenerateCA e now ttl = Ok ca ->
  exists k ser d c, CreateCertificate (ca_template ser now ttl) None k k = Ok d /\
    pem_Decode (ca_CertPEM ca) = Some d /\ ParseCertificate d = Ok c /\
    pem_Decode (ca_KeyPEM ca) = Some (MarshalPKCS1 k).
Proof.
  unfold GenerateCA, mbind, res_mbind. intros Hg. repeat case_go.
  edestruct CreateCertificate_parses as (c & Hc & _); [eassumption|].
  eexists _, _, _, c. rewrite !pem_roundtrip. eauto.
Qed.

(** The leaf issued from a fresh CA is healthy beside that CA from an hour before to
    sixty days after. *)
Lemma issued_pair_healthy r e1 e2 now now' ca leaf sec :
  GenerateCA e1 now caLifeTime = Ok ca ->
  GenerateLeaf ca e2 (rot_dnsNames r) now leafLifeTime = Ok leaf ->
  now - Hour <= now' <= now + (leafLifeTime - refreshWhenLeft) - Second ->
  sec_Data sec !! tlsCertKey = Some (leaf_CertPEM leaf) ->
  sec_Data sec !! caCertKey = Some (ca_CertPEM ca) ->
  healthy now' sec.
Proof.
  intros Hca Hleaf Hnow Hl Hc. destruct (GenerateCA_ok _ _ _ _ Hca) as (k & ser & cd & cc & Hcc & Hdc & Hpc & Hdk).
  unfold GenerateLeaf in Hleaf. rewrite Hdc, Hdk in Hleaf. unfold mbind, res_mbind in Hleaf.
  rewrite Hpc, pkcs1_roundtrip in Hleaf. repeat case_go.
  match goal with Hcr : CreateCertificate (leaf_template _ _ _ _ _) _ _ _ = Ok _ |- _ =>
    destruct (CreateCertificate_parses _ _ _ _ _ Hcr) as (lc & Hpl & Hna); rename Hcr into Hcl end.
  eexists _, _, _, _, lc, cc. rewrite pem_roundtrip. split_and!; try done.
  - unfold leaf_template, refreshWhenLeft, leafLifeTime, Second in *. simpl in Hna. lia.
  - eapply Verify_issued; try eassumption; try done; [simpl; set_solver|..];
      unfold ca_template, leaf_template, caLifeTime, refreshWhenLeft, leafLifeTime, Hour, Minute, Second in *;
      simpl; lia.
Qed.

Context `{!CertAPILaws W}.

Definition stored (w : W) (r : CertRotator) : option Secret :=
  match GetSecret w (rot_secretNamespace r) ServingCertSecretName with
  | (Some s, None) => Some s
  | _ => None
  end.

Lemma write_secret_stored r w s w' :
  write_secret r w s = (w', None) -> sec_Name s = ServingCertSecretName ->
  exists s', stored w' r = Some s' /\ sec_Data s' = sec_Data s.
Proof.
  unfold write_secret, stored. intros Hw Hname.
  assert (Hread : exists s', GetSecret w' (rot_secretNamespace r) (sec_Name s) = (Some s', None) /\
                             sec_Data s' = sec_Data s).
  { repeat case_go; eauto using UpdateSecret_read, CreateSecret_read. }
  destruct Hread as (s' & Hs' & Hd). rewrite Hname in Hs'. rewrite Hs'. eauto.
Qed.

Lemma rollWebhookDeployment_frame r now w :
  stored (rollWebhookDeployment r now w).1 r = stored w r /\
  caBundle (rollWebhookDeployment r now w).1 (rot_webhookCfgName r) = caBundle w (rot_webhookCfgName r).
Proof.
  unfold rollWebhookDeployment, stored. destruct (GetAnnotations _ _ _); [|done].
  by rewrite UpdateAnnotations_secret, UpdateAnnotations_bundle.
Qed.

Lemma publish_spec r roll now ca w w' err :
  publish r roll now ca w = (w', true, err) ->
  stored w' r = stored w r /\
  (err = None -> caBundle w' (rot_webhookCfgName r) = base64_EncodeToString (ca_CertPEM ca)).
Proof.
  unfold publish. intros Hp.
  destruct (PatchWebhook w _ _) as [w1 err1] eqn:Epatch.
  assert (Hs1 : stored w1 r = stored w r).
  { unfold stored. change w1 with (w1, err1).1. by rewrite <- Epatch, PatchWebhook_secret. }
  destruct err1; [by simplify_eq|]. unfold CaBundlePatch in Epatch.
  apply PatchWebhook_bundle in Epatch; [|apply base64_ascii].
  destruct roll; [|by simplify_eq].
  destruct (rollWebhookDeployment_frame r now w1) as [Hs2 Hb2].
  destruct (rollWebhookDeployment r now w1) as [w2 err2]. simpl in Hs2, Hb2.
  rewrite <- Hs1, <- Hs2, <- Epatch, <- Hb2. by destruct err2; simplify_eq.
Qed.

Lemma issue_spec r roll env now e1 e2 sec w w' err :
  issue r roll env now e1 e2 sec w = (w', true, err) ->
  exists ca leaf s', GenerateCA e1 now caLifeTime = Ok ca /\
    GenerateLeaf ca e2 (rot_dnsNames r) now leafLifeTime = Ok leaf /\
    stored w' r = Some s' /\ sec_Data s' = sec_Data (SecretFromCerts env ca leaf) /\
    (err = None -> caBundle w' (rot_webhookCfgName r) = base64_EncodeToString (ca_CertPEM ca)).
Proof.
  unfold issue. destruct (GenerateCA _ _ _) as [ca|] eqn:Eca; [|done].
  destruct (GenerateLeaf _ _ _ _ _) as [leaf|] eqn:Eleaf; [|done].
  destruct (write_secret _ _ _) as [w1 [e|]] eqn:Ew; [done|]. intros Hp.
  apply write_secret_stored in Ew as (s' & Hs' & Hd); [|by destruct sec].
  apply publish_spec in Hp as [Hst Hb]. exists ca, leaf, s'. rewrite Hst.
  replace (sec_Data (SecretFromCerts env ca leaf)) with (sec_Data (new_secret env sec ca leaf))
    by (by destruct sec). done.
Qed.

(** A pass that issued leaves a Secret that is healthy for the next sixty days. *)
Lemma ensure_issued r roll env now e1 e2 w w' err :
  ensure r roll env now e1 e2 w = Val (w', true, err) ->
  exists s ca, stored w' r = Some s /\ sec_Data s !! caCertKey = Some ca /\
    (forall now', now <= now' <= now + (leafLifeTime - refreshWhenLeft) - Second -> healthy now' s) /\
    (err = None -> caBundle w' (rot_webhookCfgName r) = base64_EncodeToString ca).
Proof.
  unfold ensure. intros He.
  assert (Hi : exists sec, issue r roll env now e1 e2 sec w = (w', true, err)) by (repeat case_go; eauto).
  destruct Hi as [sec Hi]. apply issue_spec in Hi as (ca & leaf & s & Hca & Hleaf & Hs & Hd & Hb).
  assert (Hdc : sec_Data s !! caCertKey = Some (ca_CertPEM ca)) by (by rewrite Hd).
  exists s, (ca_CertPEM ca). split_and!; try done. intros now' Hnow.
  eapply issued_pair_healthy; try eassumption; [unfold Hour, Minute, Second in *; lia|by rewrite Hd].
Qed.

Lemma stored_noop r roll env now e1 e2 w s :
  stored w r = Some s -> healthy now s -> ensure r roll env now e1 e2 w = Val (w, false, None).
Proof.
  unfold stored, ensure. rewrite <- needs_issue_healthy. intros Hs Hh.
  destruct (GetSecret _ _ _) as [[s'|] [e|]]; simplify_eq. by rewrite Hh.
Qed.

(** After a pass that issued, whatever became of the caBundle patch and of the
    roll, no pass of the next sixty days issues, patches or rolls anything: the
    rotator does not churn, and it does not retry a failed patch either. *)
Theorem ensure_settles r roll env now e1 e2 w w' err :
  ensure r roll env now e1 e2 w = Val (w', true, err) ->
  forall roll' env' now' e1' e2',
    now <= now' <= now + (leafLifeTime - refreshWhenLeft) - Second ->
    ensure r roll' env' now' e1' e2' w' = Val (w', false, None).
Proof.
  intros He roll' env' now' e1' e2' Hnow. apply ensure_issued in He as (s & ca & Hs & _ & Hh & _).
  eapply stored_noop; [done|]. by apply Hh.
Qed.

(** A lost answer is not made good.  If the update of the Secret takes effect but its
    answer is lost, the Create that follows fails because the Secret exists, the
    pass ends with an error and without a patch, and no pass of the next sixty days
    patches the caBundle: the stored Secret is healthy. *)
Theorem lost_answer_strands_bundle r roll env now e1 e2 w old ca leaf w1 uerr cerr s :
  GetSecret w (rot_secretNamespace r) ServingCertSecretName = (Some old, None) -> needs_issue now old = true ->
  GenerateCA e1 now caLifeTime = Ok ca ->
  GenerateLeaf ca e2 (rot_dnsNames r) now leafLifeTime = Ok leaf ->
  let new := new_secret env (Some old) ca leaf in
  UpdateSecret w (rot_secretNamespace r) new = (w1, Some uerr) ->
  CreateSecret w1 (rot_secretNamespace r) new = (w1, Some cerr) ->
  stored w1 r = Some s -> sec_Data s = sec_Data new ->
  (exists msg, ensure r roll env now e1 e2 w = Val (w1, false, Some msg)) /\
  forall roll' env' now' e1' e2',
    now <= now' <= now + (leafLifeTime - refreshWhenLeft) - Second ->
    ensure r roll' env' now' e1' e2' w1 = Val (w1, false, None).
Proof.
  intros Hg Hn Hca Hleaf new Hu Hc Hs Hd. split.
  - unfold ensure, issue, write_secret. rewrite Hg, Hn, Hca, Hleaf. fold new. rewrite Hu, Hc. by eexists.
  - intros roll' env' now' e1' e2' Hnow. eapply stored_noop; [exact Hs|].
    eapply issued_pair_healthy; try eassumption; [unfold Hour, Minute, Second in *; lia|by rewrite Hd..].
Qed.

(** C36: after a pass that issued without an error, the webhook configuration's
    caBundle decodes to a CA certificate that the stored Secret carries and that
    the stored leaf chains to: it is the only text with that encoding. *)
Theorem ensure_publishes r roll env now e1 e2 w w' :
  ensure r roll env now e1 e2 w = Val (w', true, None) ->
  exists s, stored w' r = Some s /\ healthy now s /\
    forall ca, caBundle w' (rot_webhookCfgName r) = base64_EncodeToString ca <->
               sec_Data s !! caCertKey = Some ca.
Proof.
  intros He. apply ensure_issued in He as (s & ca & Hs & Hd & Hh & Hb). exists s. split; [done|].
  split; [apply Hh; unfold leafLifeTime, refreshWhenLeft, Hour, Minute, Second; lia|].
  intros ca'. rewrite Hb by done. rewrite Hd. split; [|by intros [= ->]].
  intros Heq. apply base64_inj in Heq. by subst.
Qed.

End correctness.

(** ** A concrete instance

    Keys are integers, a certificate is its window, its flags, the public key it
    certifies and the key that signed it, and a PEM text is the binary numeral of
    an encoding. *)

Fixpoint toy_text (p : positive) : string :=
  match p with xH => "." | xO q => "0" +:+ toy_text q | xI q => "1" +:+ toy_text q end.

Fixpoint toy_parse (s : string) : option positive :=
  match s with
  | String c t =>
    if decide (c = "."%char) then Some xH
    else if decide (c = "0"%char) then xO <$> toy_parse t
    else xI <$> toy_parse t
  | EmptyString => None
  end.

Lemma toy_text_parse p : toy_parse (toy_text p) = Some p.
Proof.
  induction p as [p IH|p IH|]; [| |done].
  - change (xI <$> toy_parse (toy_text p) = Some (xI p)). by rewrite IH.
  - change (xO <$> toy_parse (toy_text p) = Some (xO p)). by rewrite IH.
Qed.

(** Window, CA and server flags, public key, signing key. *)
Abbreviation toy_cert := (Z * Z * bool * bool * Z * Z)%type.

Definition toy_cert_of (t : template) (pub priv : Z) : toy_cert :=
  (t_NotBefore t, t_NotAfter t, t_IsCA t && bool_decide ("CertSign" ∈ t_KeyUsage t), t_ServerAuth t, pub, priv).

Definition toy_verify (now : Z) (leaf ca : toy_cert) : bool :=
  let '(lb, la, _, srv, _, signer) := leaf in
  let '(cb, ca', isca, _, pub, _) := ca in
  isca && srv && bool_decide (signer = pub) && (lb <=? now) && (now <=? la) && (cb <=? now) && (now <=? ca').

Definition toy_decode {A} `{Countable A} (d : positive) : res A :=
  match decode d with Some a => Ok a | None => Err "bad encoding" end.
#[global] Arguments toy_decode : simpl never.

Lemma toy_decode_encode {A} `{Countable A} (a : A) : toy_decode (encode a) = Ok a.
Proof. unfold toy_decode. by rewrite decode_encode. Qed.

#[export] Instance toy_crypto : Crypto := {|
  key := Z; der := positive; cert := toy_cert;
  pem_Decode := toy_parse;
  pem_Encode _ d := toy_text d;
  MarshalPKCS1 k := encode k;
  ParsePKCS1 := toy_decode;
  ParseCertificate := toy_decode;
  NotAfter c := let '(_, na, _, _, _, _) := c in na;
  CreateCertificate t _ pub priv := Ok (encode (toy_cert_of t pub priv));
  Verify := toy_verify;
|}.

#[export] Instance toy_crypto_laws : CryptoLaws.
Proof.
  split; simpl.
  - intros _ d. apply toy_text_parse.
  - done.
  - intros k. apply (toy_decode_encode (A := Z)).
  - intros t p pub priv d [= <-]. exists (toy_cert_of t pub priv). split; [apply toy_decode_encode|].
    simpl. unfold Second. lia.
  - intros ct ck cd ca lt lk ld leaf now [= <-] Hca Hisca Hcs [= <-] Hleaf Hsrv Hc Hl.
    rewrite toy_decode_encode in Hca, Hleaf. injection Hca as <-. injection Hleaf as <-.
    unfold toy_verify, toy_cert_of. rewrite Hisca, Hsrv, !bool_decide_eq_true_2 by done. simpl.
    unfold Second in *. repeat (apply andb_true_iff; split); apply Z.leb_le; lia.
Qed.

(** A cluster: its Secrets, the caBundle of each configuration, and whether
    patches are accepted. *)
Record toy_world := MkToy {
  tw_secrets : gmap (string * string) Secret;
  tw_bundle : gmap string string;
  tw_patchable : bool;
  tw_rolled : list string_map;
}.

Definition toy_prefix : string :=
  "[{" +:+ json_string "op" +:+ ":" +:+ json_string "replace" +:+ "," +:+ json_string "path" +:+ ":" +:+
  json_string "/webhooks/0/clientConfig/caBundle" +:+ "," +:+ json_string "value" +:+ ":" +:+ String dquote "".

Fixpoint toy_unescape (n : nat) (s : string) : string :=
  match n with
  | O => ""
  | S n => match unescape_one s with Some (c, t) => String c (toy_unescape n t) | None => "" end
  end.

(** The value of a caBundle patch. *)
Definition toy_value (patch : string) : string :=
  toy_unescape (String.length patch) (slice_from patch (str_len toy_prefix)).

Lemma toy_unescape_escape s t n :
  is_ascii s -> (String.length s < n)%nat -> toy_unescape n (json_escape s +:+ String dquote t) = s.
Proof.
  revert n. induction s as [|c s IH]; intros [|n] Ha Hn; simpl in Hn; try lia; [done|].
  apply andb_prop_elim in Ha as [Hc Ha]. apply Is_true_true, N.ltb_lt in Hc.
  rewrite json_escape_cons, str_app_assoc by done. cbn [toy_unescape].
  rewrite unescape_esc by done. rewrite IH; [done|done|lia].
Qed.

Lemma json_escape_length s : is_ascii s -> (String.length s <= String.length (json_escape s))%nat.
Proof.
  induction s as [|c s IH]; intros Ha; [simpl; lia|].
  apply andb_prop_elim in Ha as [Hc Ha]. apply Is_true_true, N.ltb_lt in Hc.
  rewrite json_escape_cons, str_length_app by done. simpl. specialize (IH Ha).
  assert (0 < String.length (esc_ascii c))%nat; [|lia].
  pose proof (unescape_esc c "" Hc) as Hu. rewrite str_app_nil_r in Hu. destruct (esc_ascii c); [done|simpl; lia].
Qed.

Lemma toy_value_patch v :
  is_ascii v ->
  toy_value (json_array [json_object [("op", json_string "replace");
               ("path", json_string "/webhooks/0/clientConfig/caBundle"); ("value", json_string v)]]) = v.
Proof.
  intros Hv. unfold toy_value.
  replace (json_array _) with (toy_prefix +:+ (json_escape v +:+ String dquote "}]")).
  - rewrite slice_from_app. apply toy_unescape_escape; [done|].
    rewrite !str_length_app. pose proof (json_escape_length v Hv). simpl. lia.
  - transitivity (toy_prefix +:+ (((json_escape v +:+ String dquote "") +:+ "}") +:+ "]")).
    + by rewrite !str_app_assoc.
    + reflexivity.
Qed.

Definition toy_get (w : toy_world) (ns name : string) : option Secret * option string :=
  match tw_secrets w !! (ns, name) with
  | Some s => (Some s, None)
  | None => (Some (MkSecret "" "" "" "" ∅), Some "not found")
  end.

(** A write gives the Secret a new version. *)
Definition toy_version (old : option Secret) : string :=
  match old with Some s => sec_ResourceVersion s +:+ "1" | None => "1" end.

Definition toy_put (w : toy_world) (ns : string) (s : Secret) : toy_world :=
  MkToy (<[(ns, sec_Name s) := MkSecret (sec_Name s) ns (toy_version (tw_secrets w !! (ns, sec_Name s)))
                                 (sec_Type s) (sec_Data s)]> (tw_secrets w))
    (tw_bundle w) (tw_patchable w) (tw_rolled w).

Lemma toy_get_put w ns s :
  toy_get (toy_put w ns s) ns (sec_Name s) =
  (Some (MkSecret (sec_Name s) ns (toy_version (tw_secrets w !! (ns, sec_Name s))) (sec_Type s) (sec_Data s)), None).
Proof. unfold toy_get, toy_put. cbn [tw_secrets]. by rewrite lookup_insert_eq. Qed.

#[export] Instance toy_api : CertAPI toy_world := {|
  GetSecret := toy_get;
  UpdateSecret w ns s :=
    match tw_secrets w !! (ns, sec_Name s) with
    | None => (w, Some "not found")
    | Some old =>
      if decide (sec_ResourceVersion s = "" \/ sec_ResourceVersion s = sec_ResourceVersion old)
      then (toy_put w ns s, None) else (w, Some "conflict")
    end;
  CreateSecret w ns s :=
    if decide (is_Some (tw_secrets w !! (ns, sec_Name s)))
    then (w, Some "already exists") else (toy_put w ns s, None);
  PatchWebhook w cfg patch :=
    if tw_patchable w
    then (MkToy (tw_secrets w) (<[cfg := toy_value patch]> (tw_bundle w)) (tw_patchable w) (tw_rolled w), None)
    else (w, Some "connection refused");
  GetAnnotations w _ _ := Ok (last (tw_rolled w));
  UpdateAnnotations w _ _ ann :=
    (MkToy (tw_secrets w) (tw_bundle w) (tw_patchable w) (tw_rolled w ++ [ann]), None);
  RFC3339 t := fmt_d t;
  caBundle w cfg := map_get "" (tw_bundle w) cfg;
|}.

#[export] Instance toy_api_laws : CertAPILaws toy_world.
Proof.
  split; simpl; try done.
  - intros w ns s w' Hu. destruct (tw_secrets w !! _); [|done]. destruct (decide _); [|done].
    injection Hu as <-. eexists. by rewrite toy_get_put.
  - intros w ns s w' Hu. destruct (decide _); [done|]. injection Hu as <-. eexists. by rewrite toy_get_put.
  - intros w cfg patch ns name. by destruct (tw_patchable w).
  - intros w cfg v w' Hv Hp. destruct (tw_patchable w); [|done]. injection Hp as <-. simpl.
    unfold map_get. rewrite lookup_insert_eq. simpl. by apply toy_value_patch.
Qed.

Definition toy_rotator : CertRotator := MkRotator "ns" "cfg" (ServingCertDNSNames "ns").
Definition toy_entropy (k : Z) : entropy := MkEntropy (Ok k) (Ok 1).

(** An empty cluster, with patches accepted or refused. *)
Definition toy_start (patchable : bool) : toy_world := MkToy ∅ ∅ patchable [].
Definition toy_pass (now : Z) (w : toy_world) : go (toy_world * bool * option string) :=
  Ensure toy_rotator "ns" now (toy_entropy 1) (toy_entropy 2) w.

Definition world_of (o : go (toy_world * bool * option string)) : toy_world :=
  match o with Val (w, _, _) => w | Panic => toy_start false end.
Definition toy_issued (patchable : bool) : toy_world := world_of (toy_pass 0 (toy_start patchable)).

Lemma ensure_exact_witness :
  toy_pass Hour (toy_issued true) = Val (toy_issued true, false, None).
Proof.
  assert (Hget : GetSecret (toy_issued true) (rot_secretNamespace toy_rotator) ServingCertSecretName =
                 (stored (toy_issued true) toy_rotator, None)) by (vm_compute; reflexivity).
  destruct (stored (toy_issued true) toy_rotator) as [sec|] eqn:Es; [|discriminate].
  assert (Hh : healthy Hour sec).
  { apply needs_issue_healthy.
    assert (Hn : needs_issue Hour <$> stored (toy_issued true) toy_rotator = Some false)
      by (vm_compute; reflexivity).
    rewrite Es in Hn. by injection Hn as ->. }
  destruct (ensure_exact toy_rotator true "ns" Hour (toy_entropy 1) (toy_entropy 2)
              (toy_issued true) sec None Hget) as (_ & Hok & _).
  unfold toy_pass, Ensure. exact (Hok eq_refl Hh).
Defined.

Lemma ensure_settles_witness :
  toy_pass 0 (toy_start false) =
    Val (toy_issued false, true, Some ("patch caBundle on cfg: connection refused")) /\
  toy_pass (59 * 24 * Hour) (toy_issued false) = Val (toy_issued false, false, None).
Proof.
  assert (Hp : toy_pass 0 (toy_start false) =
    Val (toy_issued false, true, Some ("patch caBundle on cfg: connection refused"))) by (vm_compute; reflexivity).
  split; [exact Hp|].
  unfold toy_pass, Ensure in *.
  refine (ensure_settles toy_rotator true "ns" 0 (toy_entropy 1) (toy_entropy 2) (toy_start false)
           (toy_issued false) _ Hp _ _ _ _ _ _).
  vm_compute. split; discriminate.
Defined.

Lemma ensure_publishes_witness :
  exists s, stored (toy_issued true) toy_rotator = Some s /\ healthy 0 s /\
    forall ca, caBundle (toy_issued true) "cfg" = base64_EncodeToString ca <-> sec_Data s !! caCertKey = Some ca.
Proof.
  assert (Hp : toy_pass 0 (toy_start true) = Val (toy_issued true, true, None)) by (vm_compute; reflexivity).
  unfold toy_pass, Ensure in Hp.
  exact (ensure_publishes toy_rotator true "ns" 0 (toy_entropy 1) (toy_entropy 2) (toy_start true)
           (toy_issued true) Hp).
Defined.

(** The toy API with an update whose answer never arrives, and an empty Secret that
    someone created for the rotator to fill. *)
Definition lossy_api : CertAPI toy_world := {|
  GetSecret := toy_get;
  UpdateSecret w ns s := (toy_put w ns s, Some "timeout");
  CreateSecret := CreateSecret;
  PatchWebhook := PatchWebhook;
  GetAnnotations := GetAnnotations;
  UpdateAnnotations := UpdateAnnotations;
  RFC3339 := RFC3339;
  caBundle := caBundle;
|}.
Definition toy_empty : toy_world := toy_put (toy_start true) "ns" (MkSecret ServingCertSecretName "ns" "" "Opaque" ∅).
Definition lossy_issued : toy_world :=
  world_of (Ensure (CertAPI0 := lossy_api) toy_rotator "ns" 0 (toy_entropy 1) (toy_entropy 2) toy_empty).
Definition toy_stored (w : toy_world) : Secret := default (MkSecret "" "" "" "" ∅) (stored w toy_rotator).
Definition lossy_ca : CA := match GenerateCA (toy_entropy 1) 0 caLifeTime with Ok ca => ca | Err _ => MkCA "" "" end.
Definition lossy_leaf : Leaf :=
  match GenerateLeaf lossy_ca (toy_entropy 2) (rot_dnsNames toy_rotator) 0 leafLifeTime with
  | Ok leaf => leaf
  | Err _ => MkLeaf "" ""
  end.

Lemma lost_answer_strands_bundle_witness :
  caBundle lossy_issued "cfg" = "" /\
  Ensure (CertAPI0 := lossy_api) toy_rotator "ns" (59 * 24 * Hour) (toy_entropy 3) (toy_entropy 4) lossy_issued
    = Val (lossy_issued, false, None).
Proof.
  split; [vm_compute; reflexivity|].
  refine (proj2 (lost_answer_strands_bundle (CertAPI0 := lossy_api) toy_rotator true "ns" 0 (toy_entropy 1) (toy_entropy 2)
    toy_empty (toy_stored toy_empty) lossy_ca lossy_leaf lossy_issued "timeout" "already exists" (toy_stored lossy_issued)
    _ _ _ _ _ _ _ _) true "ns" _ _ _ _); vm_compute; first [reflexivity|split; discriminate].
Defined.
