(* ===== verification/Rotation.v ===== *)
(** * Concurrent passes of the certificate rotator (internal/webhook/selfcert.go, cmd/webhook/main.go)

    [SelfCert.ensure] is a pass that runs alone.  Here a pass is the sequence of its
    API calls, so that the passes of several replicas can interleave: at start-up
    every replica runs [EnsureBootstrap] before leader election.  A schedule says which
    pass makes the next call and what becomes of it, [answer].  [pass_refines_ensure]
    ties the two views together. *)

From S2P Require Import Prelude GoStd Kube Fixtures Api SelfCert.

Section steps.
Context `{Crypto} {W : Type} `{!CertAPI W}.

(** What a pass is given: rotator, roll flag, environment, clock and randomness. *)
Record pass := MkPass {
  pa_rot : CertRotator;
  pa_roll : bool;
  pa_env : string;
  pa_now : Z;
  pa_e1 : entropy;
  pa_e2 : entropy;
}.

(** The next API call of a pass, with what it has computed so far. *)
Inductive pc :=
| at_Get
| at_Update (ca : CA) (s : Secret)
| at_Create (ca : CA) (s : Secret) (uerr : string)
| at_Patch (ca : CA)
| at_GetDeployment
| at_UpdateDeployment (ann : option string_map)
| Finished (issued : bool) (err : option string)
| Crashed.

(** What comes back from a call: the API server's answer; an error, the request having
    changed nothing; or an error although the request was carried out. *)
Inductive answer :=
| Answered
| Failed (err : string)
| Lost (err : string).

(** The client returns the zero object beside an error. *)
Definition zero_Secret : Secret := MkSecret "" "" "" "" ∅.

Definition read_Secret (a : answer) (w : W) (ns : string) : option Secret * option string :=
  match a with
  | Answered => GetSecret w ns ServingCertSecretName
  | Failed e | Lost e => (Some zero_Secret, Some e)
  end.

Definition read_Annotations (a : answer) (w : W) (ns : string) : res (option string_map) :=
  match a with
  | Answered => GetAnnotations w ns WebhookDeploymentName
  | Failed e | Lost e => Err e
  end.

Definition called (a : answer) (w : W) (out : W * option string) : W * option string :=
  match a with
  | Answered => out
  | Failed e => (w, Some e)
  | Lost e => (out.1, Some e)
  end.

Definition took_effect (a : answer) (out : W * option string) : bool :=
  match a, out.2 with
  | Failed _, _ | _, Some _ => false
  | _, None => true
  end.

(** From the Secret read to the Secret to write. *)
Definition after_Get (p : pass) (sec : option Secret) : pc :=
  match GenerateCA (pa_e1 p) (pa_now p) caLifeTime with
  | Err e => Finished false (Some ("generate CA: " +:+ e))
  | Ok ca =>
    match GenerateLeaf ca (pa_e2 p) (rot_dnsNames (pa_rot p)) (pa_now p) leafLifeTime with
    | Err e => Finished false (Some ("generate leaf: " +:+ e))
    | Ok leaf => at_Update ca (new_secret (pa_env p) sec ca leaf)
    end
  end.

Definition after_roll (err : option string) : pc :=
  Finished true (match err with Some e => Some ("roll webhook pods after issuance: " +:+ e) | None => None end).

(** One API call and what follows it up to the next one. *)
Definition pass_step (p : pass) (a : answer) (c : pc) (w : W) : pc * W :=
  let r := pa_rot p in
  let ns := rot_secretNamespace r in
  match c with
  | at_Get =>
    match read_Secret a w ns with
    | (sec, Some _) => (after_Get p sec, w)
    | (Some s, None) => (if needs_issue (pa_now p) s then after_Get p (Some s) else Finished false None, w)
    | (None, None) => (Crashed, w)
    end
  | at_Update ca s =>
    match called a w (UpdateSecret w ns s) with
    | (w, None) => (at_Patch ca, w)
    | (w, Some err) => (at_Create ca s err, w)
    end
  | at_Create ca s err =>
    match called a w (CreateSecret w ns s) with
    | (w, None) => (at_Patch ca, w)
    | (w, Some cerr) =>
      (Finished false (Some ("write serving-cert secret: update: " +:+ err +:+ ", create: " +:+ cerr)), w)
    end
  | at_Patch ca =>
    match called a w (PatchWebhook w (rot_webhookCfgName r) (CaBundlePatch (rot_webhookCfgName r) (ca_CertPEM ca))) with
    | (w, Some err) => (Finished true (Some ("patch caBundle on " +:+ rot_webhookCfgName r +:+ ": " +:+ err)), w)
    | (w, None) => (if pa_roll p then at_GetDeployment else Finished true None, w)
    end
  | at_GetDeployment =>
    match read_Annotations a w ns with
    | Err e => (after_roll (Some e), w)
    | Ok ann => (at_UpdateDeployment ann, w)
    end
  | at_UpdateDeployment ann =>
    let '(w, err) := called a w (UpdateAnnotations w ns WebhookDeploymentName
                       (<["service-spread.io/cert-issued-at" := RFC3339 (pa_now p)]> (default ∅ ann))) in
    (after_roll err, w)
  | Finished _ _ | Crashed => (c, w)
  end.

(** A pass whose calls are all answered. *)
Fixpoint run_pass (n : nat) (p : pass) (c : pc) (w : W) : pc * W :=
  match n with
  | O => (c, w)
  | S n => let '(c, w) := pass_step p Answered c w in run_pass n p c w
  end.

(** ** Several passes *)

(** The effects that other passes can see, and the reads that failed. *)
Inductive event :=
| Wrote (i : nat) (s : Secret) (ca : CA)
| Patched (i : nat) (ca : CA)
| Read_failed (i : nat).

Definition event_of (i : nat) (p : pass) (a : answer) (c : pc) (w : W) : list event :=
  let r := pa_rot p in
  let ns := rot_secretNamespace r in
  match c with
  | at_Get => match a with Answered => [] | _ => [Read_failed i] end
  | at_Update ca s => if took_effect a (UpdateSecret w ns s) then [Wrote i s ca] else []
  | at_Create ca s _ => if took_effect a (CreateSecret w ns s) then [Wrote i s ca] else []
  | at_Patch ca =>
    if took_effect a (PatchWebhook w (rot_webhookCfgName r) (CaBundlePatch (rot_webhookCfgName r) (ca_CertPEM ca)))
    then [Patched i ca] else []
  | _ => []
  end.

(** The schedule names the pass that takes the next step, and what comes back. *)
Fixpoint run_sched (sched : list (nat * answer)) (ts : list (pass * pc)) (w : W) : list (pass * pc) * W * list event :=
  match sched with
  | [] => (ts, w, [])
  | (i, a) :: sched =>
    match ts !! i with
    | None => run_sched sched ts w
    | Some (p, c) =>
      let '(c', w') := pass_step p a c w in
      let '(ts, w', log) := run_sched sched (<[i := (p, c')]> ts) w' in
      (ts, w', event_of i p a c w ++ log)
    end
  end.

(** The last write and the last patch of a log, when it has one. *)
Fixpoint last_Wrote (log : list event) : option (Secret * CA) :=
  match log with
  | [] => None
  | e :: log => match last_Wrote log, e with
                | None, Wrote _ s ca => Some (s, ca)
                | last, _ => last
                end
  end.
Fixpoint last_Patched (log : list event) : option CA :=
  match log with
  | [] => None
  | e :: log => match last_Patched log, e with
                | None, Patched _ ca => Some ca
                | last, _ => last
                end
  end.

(** The API server trusts the CA that the stored leaf chains to. *)
Definition consistent (w : W) (r : CertRotator) : Prop :=
  exists s ca, stored w r = Some s /\ sec_Data s !! caCertKey = Some ca /\
    caBundle w (rot_webhookCfgName r) = base64_EncodeToString ca.

(** ** One pass alone *)

Lemma run_pass_stable n p c w :
  (exists b e, c = Finished b e) \/ c = Crashed -> run_pass n p c w = (c, w).
Proof. intros Hc. induction n as [|n IH]; [done|]. simpl. by destruct Hc as [(b & e & ->)| ->]. Qed.

Lemma run_pass_S n p c w :
  run_pass (S n) p c w = (let '(c, w) := pass_step p Answered c w in run_pass n p c w).
Proof. done. Qed.

Lemma run_pass_publish n p ca w :
  (3 <= n)%nat ->
  run_pass n p (at_Patch ca) w =
  (let '(w', b, e) := publish (pa_rot p) (pa_roll p) (pa_now p) ca w in (Finished b e, w')).
Proof.
  intros Hn. destruct n as [|[|[|n]]]; try lia. rewrite run_pass_S. unfold publish, pass_step at 1.
  cbn [called]. destruct (PatchWebhook _ _ _) as [w1 [e1|]]; [by rewrite run_pass_stable by eauto|].
  destruct (pa_roll p); [|by rewrite run_pass_stable by eauto].
  rewrite run_pass_S. unfold rollWebhookDeployment, pass_step at 1. cbn [read_Annotations].
  destruct (GetAnnotations _ _ _) as [ann|e]; [|by rewrite run_pass_stable by (left; unfold after_roll; eauto)].
  rewrite run_pass_S. unfold pass_step. cbn [called].
  destruct (UpdateAnnotations _ _ _ _) as [w2 [e2|]]; by rewrite run_pass_stable by (left; unfold after_roll; eauto).
Qed.

Lemma run_pass_issue n p sec w :
  (5 <= n)%nat ->
  run_pass n p (after_Get p sec) w =
  (let '(w', b, e) := issue (pa_rot p) (pa_roll p) (pa_env p) (pa_now p) (pa_e1 p) (pa_e2 p) sec w in
   (Finished b e, w')).
Proof.
  intros Hn. unfold after_Get, issue.
  destruct (GenerateCA _ _ _) as [ca|e]; [|by rewrite run_pass_stable by eauto].
  destruct (GenerateLeaf _ _ _ _ _) as [leaf|e]; [|by rewrite run_pass_stable by eauto].
  destruct n as [|[|n]]; try lia. rewrite run_pass_S. unfold write_secret, pass_step at 1. cbn [called].
  destruct (UpdateSecret _ _ _) as [w1 [e1|]].
  - rewrite run_pass_S. unfold pass_step at 1. cbn [called]. destruct (CreateSecret _ _ _) as [w2 [e2|]]; [by rewrite run_pass_stable by eauto|].
    apply run_pass_publish. lia.
  - apply (run_pass_publish (S n)). lia.
Qed.

(** C18: a pass run call by call terminates: it makes at most six API calls, and after them its result and the
    state of the cluster are those of ensure, on every branch: healthy Secret, failed generation, failed update and
    create, failed patch or roll, and the panic on a nil Secret. *)
Theorem pass_refines_ensure p w n :
  run_pass (6 + n) p at_Get w =
  match ensure (pa_rot p) (pa_roll p) (pa_env p) (pa_now p) (pa_e1 p) (pa_e2 p) w with
  | Panic => (Crashed, w)
  | Val (w', issued, err) => (Finished issued err, w')
  end.
Proof.
  change (6 + n)%nat with (S (5 + n)). rewrite run_pass_S. unfold ensure, pass_step at 1. cbn [read_Secret].
  destruct (GetSecret _ _ _) as [[s|] [e|]].
  - by rewrite run_pass_issue by lia.
  - destruct (needs_issue _ _); [by rewrite run_pass_issue by lia|by rewrite run_pass_stable by eauto].
  - by rewrite run_pass_issue by lia.
  - by rewrite run_pass_stable by eauto.
Qed.

End steps.

(** A call that the API server rejects changes nothing, and Secret writes leave the
    webhook configuration alone.  (Answers that are lost are in [answer].) *)
Class CertAPIFrame `{Crypto} (W : Type) `{!CertAPI W} : Prop := {
  UpdateSecret_rejected w ns s w' e : UpdateSecret w ns s = (w', Some e) -> w' = w;
  CreateSecret_rejected w ns s w' e : CreateSecret w ns s = (w', Some e) -> w' = w;
  PatchWebhook_rejected w cfg patch w' e : PatchWebhook w cfg patch = (w', Some e) -> w' = w;
  UpdateSecret_bundle w ns s cfg : caBundle (UpdateSecret w ns s).1 cfg = caBundle w cfg;
  CreateSecret_bundle w ns s cfg : caBundle (CreateSecret w ns s).1 cfg = caBundle w cfg;
}.

(** Optimistic concurrency: an update that names a version succeeds only on that
    version, a successful update changes it, and a Secret is created only once. *)
Class CertAPIVersions `{Crypto} (W : Type) `{!CertAPI W} : Prop := {
  UpdateSecret_conflict w ns s old :
    GetSecret w ns (sec_Name s) = (Some old, None) ->
    sec_ResourceVersion s <> "" -> sec_ResourceVersion s <> sec_ResourceVersion old ->
    exists e, UpdateSecret w ns s = (w, Some e);
  UpdateSecret_version w ns s w' old :
    GetSecret w ns (sec_Name s) = (Some old, None) -> UpdateSecret w ns s = (w', None) ->
    exists new, GetSecret w' ns (sec_Name s) = (Some new, None) /\
      sec_ResourceVersion new <> sec_ResourceVersion old;
  CreateSecret_exists w ns s old :
    GetSecret w ns (sec_Name s) = (Some old, None) -> exists e, CreateSecret w ns s = (w, Some e);
}.

Section interleaving.
Context `{CryptoLaws} {W : Type} `{!CertAPI W, !CertAPILaws W, !CertAPIFrame W}.
Context (r : CertRotator).

(** A Secret on its way to the API server carries the CA generated with it. *)
Definition pc_ok (c : pc) : Prop :=
  match c with
  | at_Update ca s | at_Create ca s _ =>
    sec_Name s = ServingCertSecretName /\ sec_Data s !! caCertKey = Some (ca_CertPEM ca)
  | _ => True
  end.

Lemma new_secret_ok env sec ca leaf :
  sec_Name (new_secret env sec ca leaf) = ServingCertSecretName /\
  sec_Data (new_secret env sec ca leaf) = sec_Data (SecretFromCerts env ca leaf) /\
  sec_Data (new_secret env sec ca leaf) !! caCertKey = Some (ca_CertPEM ca).
Proof. by destruct sec. Qed.

Lemma after_Get_ok p sec : pc_ok (after_Get p sec).
Proof.
  unfold after_Get. repeat case_match; try done. simpl.
  match goal with |- context [new_secret ?e ?o ?a ?l] => by destruct (new_secret_ok e o a l) as (? & _ & ?) end.
Qed.

(** What one step does to the stored Secret and the published bundle. *)
Definition event_effect (w w' : W) (log : list event) : Prop :=
  match log with
  | [Wrote _ s ca] =>
    (exists s', stored w' r = Some s' /\ sec_Data s' = sec_Data s) /\
    sec_Data s !! caCertKey = Some (ca_CertPEM ca) /\
    caBundle w' (rot_webhookCfgName r) = caBundle w (rot_webhookCfgName r)
  | [Patched _ ca] =>
    stored w' r = stored w r /\ caBundle w' (rot_webhookCfgName r) = base64_EncodeToString (ca_CertPEM ca)
  | _ => stored w' r = stored w r /\ caBundle w' (rot_webhookCfgName r) = caBundle w (rot_webhookCfgName r)
  end.

Lemma write_effect w s w' ns :
  sec_Name s = ServingCertSecretName -> ns = rot_secretNamespace r ->
  UpdateSecret w ns s = (w', None) \/ CreateSecret w ns s = (w', None) ->
  (exists s', stored w' r = Some s' /\ sec_Data s' = sec_Data s) /\
  caBundle w' (rot_webhookCfgName r) = caBundle w (rot_webhookCfgName r).
Proof.
  intros Hn -> Hw.
  assert (Hread : exists s', GetSecret w' (rot_secretNamespace r) (sec_Name s) = (Some s', None) /\
                             sec_Data s' = sec_Data s)
    by (destruct Hw; eauto using UpdateSecret_read, CreateSecret_read).
  destruct Hread as (s' & Hs' & Hd). rewrite Hn in Hs'. split.
  - exists s'. unfold stored. by rewrite Hs'.
  - destruct Hw as [Hw|Hw]; apply (f_equal fst) in Hw; simpl in Hw; subst w';
      [apply UpdateSecret_bundle|apply CreateSecret_bundle].
Qed.

Lemma patch_effect w pem w' err :
  PatchWebhook w (rot_webhookCfgName r) (CaBundlePatch (rot_webhookCfgName r) pem) = (w', err) ->
  stored w' r = stored w r /\
  match err with
  | None => caBundle w' (rot_webhookCfgName r) = base64_EncodeToString pem
  | Some _ => w' = w
  end.
Proof.
  intros Hp. split.
  - unfold stored. apply (f_equal fst) in Hp. simpl in Hp. subst w'. by rewrite PatchWebhook_secret.
  - destruct err as [e|]; [by eapply PatchWebhook_rejected|].
    eapply PatchWebhook_bundle; [apply base64_ascii|done].
Qed.

Lemma roll_effect w ann w' err :
  UpdateAnnotations w (rot_secretNamespace r) WebhookDeploymentName ann = (w', err) ->
  stored w' r = stored w r /\ caBundle w' (rot_webhookCfgName r) = caBundle w (rot_webhookCfgName r).
Proof.
  intros Hu. apply (f_equal fst) in Hu. simpl in Hu. subst w'. unfold stored.
  by rewrite UpdateAnnotations_secret, UpdateAnnotations_bundle.
Qed.

Lemma roll_called_effect a w ann w' err :
  called a w (UpdateAnnotations w (rot_secretNamespace r) WebhookDeploymentName ann) = (w', err) ->
  stored w' r = stored w r /\ caBundle w' (rot_webhookCfgName r) = caBundle w (rot_webhookCfgName r).
Proof.
  destruct (UpdateAnnotations _ _ _ _) as [w1 e1] eqn:E. apply roll_effect in E.
  destruct a; simpl; by intros [= <- <-].
Qed.

(** A call either took effect, whatever comes back, or changed nothing and reports an error. *)
Lemma called_cases (a : answer) (w : W) (out : W * option string) w' err :
  (forall e, out = (out.1, Some e) -> out.1 = w) -> called a w out = (w', err) ->
  took_effect a out = true /\ out = (w', None) \/ took_effect a out = false /\ w' = w /\ err <> None.
Proof.
  intros Hrej. destruct out as [w1 [e1|]], a; simpl in *; intros [= <- <-]; auto; right; split_and!; eauto.
Qed.

Ltac call_cases E :=
  apply called_cases in E; [|by intros ? ?; eauto using UpdateSecret_rejected, CreateSecret_rejected, PatchWebhook_rejected];
  destruct E as [[Eff E]|(Eff & E & Herr)].

Lemma step_effect i p a c w c' w' :
  pa_rot p = r -> pc_ok c -> pass_step p a c w = (c', w') ->
  pc_ok c' /\ event_effect w w' (event_of i p a c w).
Proof.
  intros Hr Hok Hs. unfold pass_step in Hs. unfold event_of. rewrite Hr in *. destruct c.
  - assert (w' = w /\ pc_ok c') as [-> ?].
    { destruct (read_Secret _ _ _) as [[s|] [e|]]; simplify_eq; (split; [done|]); try apply after_Get_ok; [|done].
      destruct (needs_issue _ _); [apply after_Get_ok|done]. }
    by destruct a.
  - destruct Hok as [Hn Hca]. destruct (called _ _ _) as [w1 err] eqn:E. call_cases E; rewrite Eff.
    + destruct (write_effect w s w1 _ Hn eq_refl (or_introl E)) as [He Hb].
      by destruct err; injection Hs as <- <-.
    + by destruct err; injection Hs as <- <-; subst.
  - destruct Hok as [Hn Hca]. destruct (called _ _ _) as [w1 err] eqn:E. call_cases E; rewrite Eff.
    + destruct (write_effect w s w1 _ Hn eq_refl (or_intror E)) as [He Hb].
      by destruct err; injection Hs as <- <-.
    + by destruct err; injection Hs as <- <-; subst.
  - destruct (called _ _ _) as [w1 err] eqn:E. call_cases E; rewrite Eff.
    + apply patch_effect in E as [Hst Hb]. destruct err; [by injection Hs as <- <-|].
      by destruct (pa_roll p); injection Hs as <- <-.
    + by destruct err; [injection Hs as <- <-; subst|].
  - by destruct (read_Annotations _ _ _); injection Hs as <- <-.
  - destruct (called _ _ _) as [w1 err] eqn:E. injection Hs as <- <-. split; [done|].
    by eapply roll_called_effect.
  - by injection Hs as <- <-.
  - by injection Hs as <- <-.
Qed.

Definition ts_ok (ts : list (pass * pc)) : Prop := Forall (fun pc => pa_rot pc.1 = r /\ pc_ok pc.2) ts.

Lemma ts_ok_insert ts i p c c' : ts_ok ts -> ts !! i = Some (p, c) -> pc_ok c' -> ts_ok (<[i := (p, c')]> ts).
Proof.
  intros Hts Hi Hc. apply Forall_insert; [done|]. split; [|done].
  pose proof (Forall_lookup_1 _ _ _ _ Hts Hi) as [? _]. done.
Qed.

(** The world after a log, compared with the world before it. *)
Definition log_effect (w w' : W) (log : list event) : Prop :=
  match last_Wrote log with
  | Some (s, ca) => (exists s', stored w' r = Some s' /\ sec_Data s' = sec_Data s) /\
                    sec_Data s !! caCertKey = Some (ca_CertPEM ca)
  | None => stored w' r = stored w r
  end /\
  caBundle w' (rot_webhookCfgName r) =
    match last_Patched log with
    | Some ca => base64_EncodeToString (ca_CertPEM ca)
    | None => caBundle w (rot_webhookCfgName r)
    end.

Lemma log_effect_step w w1 w2 es log :
  event_effect w w1 es -> (length es <= 1)%nat -> log_effect w1 w2 log -> log_effect w w2 (es ++ log).
Proof.
  intros He Hlen [Hl1 Hl2]. unfold log_effect. destruct es as [|[i s ca|i ca|i] [|e es]]; simpl in *; try lia.
  - destruct He as [Hs Hb]. rewrite <- Hs, <- Hb. done.
  - destruct He as (Hs & Hca & Hb). rewrite <- Hb.
    destruct (last_Wrote log) as [[s' ca']|]; [by destruct (last_Patched log)|].
    rewrite Hl1. by destruct (last_Patched log).
  - destruct He as [Hs Hb]. rewrite <- Hs. destruct (last_Wrote log) as [[s' ca']|], (last_Patched log);
      split; try done; by rewrite Hl2.
  - destruct He as [Hs Hb]. rewrite <- Hs, <- Hb.
    by destruct (last_Wrote log) as [[s' ca']|], (last_Patched log).
Qed.

Lemma event_of_length i p a c w : (length (event_of i p a c w) <= 1)%nat.
Proof. unfold event_of. repeat case_match; simpl; lia. Qed.

Lemma run_sched_effect sched : forall ts w ts' w' log,
  ts_ok ts -> run_sched sched ts w = (ts', w', log) -> log_effect w w' log.
Proof.
  induction sched as [|[i a] sched IH]; intros ts w ts' w' log Hts Hrun; simpl in Hrun.
  - injection Hrun as <- <- <-. by split.
  - destruct (ts !! i) as [[p c]|] eqn:Hi; [|by eapply IH].
    destruct (pass_step p a c w) as [c' w1] eqn:Hs.
    destruct (run_sched sched _ w1) as [[ts2 w2] log2] eqn:Hr. injection Hrun as <- <- <-.
    pose proof (Forall_lookup_1 _ _ _ _ Hts Hi) as [Hpr Hok].
    destruct (step_effect i p a c w c' w1 Hpr Hok Hs) as [Hc' He].
    eapply log_effect_step; [done|apply event_of_length|]. eapply IH; [|done]. by eapply ts_ok_insert.
Qed.

(** Whatever the interleaving of any number of passes, the stored Secret is the one of the last successful
    write and the published caBundle is the CA of the last successful patch; so once both happened the API server
    trusts the stored leaf's CA exactly when the last writer and the last patcher issued the same CA. *)
Theorem last_writer_last_patcher sched ts w ts' w' log :
  Forall (fun pc => pa_rot pc.1 = r /\ pc.2 = at_Get) ts ->
  run_sched sched ts w = (ts', w', log) ->
  log_effect w w' log /\
  (forall s ca ca', last_Wrote log = Some (s, ca) -> last_Patched log = Some ca' ->
     (consistent w' r <-> ca_CertPEM ca = ca_CertPEM ca')).
Proof.
  intros Hts Hrun.
  assert (He : log_effect w w' log).
  { eapply run_sched_effect; [|done]. eapply Forall_impl; [done|]. intros [p c] [? ->]. done. }
  split; [done|]. intros s ca ca' Hl Hp. destruct He as [Hw Hb]. rewrite Hl in Hw. rewrite Hp in Hb.
  destruct Hw as ((s' & Hs' & Hd) & Hca). unfold consistent. rewrite Hs', Hb. split.
  - intros (s1 & pem & [= <-] & Hpem & Heq). rewrite Hd, Hca in Hpem. injection Hpem as ->.
    by apply base64_inj in Heq.
  - intros Heq. exists s', (ca_CertPEM ca'). by rewrite Hd, Hca, Heq.
Qed.

(** ** With a Secret in place: optimistic concurrency *)

Context `{!CertAPIVersions W}.
Variable s0 : Secret.

(** The passes read their clocks within an hour of each other. *)
Definition clocks_close (ts : list (pass * pc)) : Prop :=
  forall p q, p ∈ ts.*1 -> q ∈ ts.*1 -> pa_now p <= pa_now q + Hour.

(** So each finds healthy what another one has issued. *)
Lemma clocks_close_window ts p q :
  clocks_close ts -> p ∈ ts.*1 -> q ∈ ts.*1 ->
  pa_now p - Hour <= pa_now q <= pa_now p + (leafLifeTime - refreshWhenLeft) - Second.
Proof.
  intros Hc Hp Hq. pose proof (Hc p q Hp Hq). pose proof (Hc q p Hq Hp).
  assert (Hour <= leafLifeTime - refreshWhenLeft - Second) by (vm_compute; discriminate). lia.
Qed.

(** No pass failed to read the Secret. *)
Definition reads_ok (log : list event) : Prop := forall i, Read_failed i ∉ log.

Lemma reads_ok_app l1 l2 : reads_ok (l1 ++ l2) <-> reads_ok l1 /\ reads_ok l2.
Proof. unfold reads_ok. setoid_rewrite elem_of_app. naive_solver. Qed.

(** A pass that has not written; what it may still write names the version of [s0]. *)
Definition early (p : pass) (c : pc) : Prop :=
  match c with
  | at_Get | Finished false _ => True
  | at_Update ca s | at_Create ca s _ =>
    sec_Name s = ServingCertSecretName /\ sec_ResourceVersion s = sec_ResourceVersion s0 /\
    exists leaf, GenerateCA (pa_e1 p) (pa_now p) caLifeTime = Ok ca /\
      GenerateLeaf ca (pa_e2 p) (rot_dnsNames (pa_rot p)) (pa_now p) leafLifeTime = Ok leaf /\
      sec_Data s = sec_Data (SecretFromCerts (pa_env p) ca leaf)
  | _ => False
  end.

(** The pass that wrote, after its patch or its failure. *)
Definition late (c : pc) : Prop :=
  match c with
  | at_GetDeployment | at_UpdateDeployment _ | Finished true _ => True
  | _ => False
  end.

(** The phase of the pass that wrote the Secret, and what has been logged. *)
Definition writer_phase (w : W) (i : nat) (s : Secret) (ca : CA) (c : pc) (log : list event) : Prop :=
  log = [Wrote i s ca] /\
    (c = at_Patch ca \/ (exists b e, c = Finished b (Some e)) \/
     exists e, c = at_Create ca s e /\ sec_Name s = ServingCertSecretName) \/
  log = [Wrote i s ca; Patched i ca] /\ late c /\
    caBundle w (rot_webhookCfgName r) = base64_EncodeToString (ca_CertPEM ca).

Definition one_writer (ts : list (pass * pc)) (w : W) (log : list event) : Prop :=
  log = [] /\ stored w r = Some s0 /\ (forall j p c, ts !! j = Some (p, c) -> early p c) \/
  exists i p c ca s s1, ts !! i = Some (p, c) /\ stored w r = Some s1 /\
    sec_ResourceVersion s1 <> sec_ResourceVersion s0 /\
    sec_Data s1 !! caCertKey = Some (ca_CertPEM ca) /\
    (forall q, q ∈ ts.*1 -> healthy (pa_now q) s1) /\
    (forall j q c', j <> i -> ts !! j = Some (q, c') -> early q c') /\
    writer_phase w i s ca c log.

Lemma stored_Get w s : stored w r = Some s -> GetSecret w (rot_secretNamespace r) ServingCertSecretName = (Some s, None).
Proof. unfold stored. intros Hs. by destruct (GetSecret _ _ _) as [[s'|] [e|]]; simplify_eq. Qed.

Lemma after_Get_early p : pa_rot p = r -> early p (after_Get p (Some s0)).
Proof.
  intros Hr. unfold after_Get. destruct (GenerateCA _ _ _) as [ca|] eqn:Eca; [|done].
  destruct (GenerateLeaf _ _ _ _ _) as [leaf|] eqn:El; [|done]. simpl. split; [done|]. split; [done|]. by exists leaf.
Qed.

(** With a Secret stored, a create takes no effect, whatever comes back. *)
Lemma create_fails a w s ns old :
  GetSecret w ns (sec_Name s) = (Some old, None) ->
  took_effect a (CreateSecret w ns s) = false /\ exists e, called a w (CreateSecret w ns s) = (w, Some e).
Proof. intros Hget. destruct (CreateSecret_exists _ _ _ _ Hget) as [e ->]. destruct a; simpl; eauto. Qed.

(** A step of a pass that has not written, with [s] stored. *)
Lemma early_step i p a c w s c' w' :
  pa_rot p = r -> early p c -> stored w r = Some s -> sec_ResourceVersion s0 <> "" ->
  s = s0 \/ sec_ResourceVersion s <> sec_ResourceVersion s0 /\ healthy (pa_now p) s ->
  reads_ok (event_of i p a c w) -> pass_step p a c w = (c', w') ->
  (w' = w /\ early p c' /\ event_of i p a c w = []) \/
  (s = s0 /\ exists ca s', c = at_Update ca s' /\ event_of i p a c w = [Wrote i s' ca] /\
     (c' = at_Patch ca \/ exists e, c' = at_Create ca s' e) /\
     UpdateSecret w (rot_secretNamespace r) s' = (w', None)).
Proof.
  intros Hr He Hst Hv Hs Hread Hstep. pose proof (stored_Get _ _ Hst) as Hget.
  unfold pass_step in Hstep. unfold event_of in *. rewrite Hr in *. destruct c; try done.
  - left. destruct a; [|by destruct (Hread i); left|by destruct (Hread i); left].
    cbn [read_Secret] in Hstep. rewrite Hget in Hstep. destruct Hs as [->|[Hne Hh]].
    + destruct (needs_issue _ _); injection Hstep as <- <-; split_and!; try done. by apply after_Get_early.
    + apply needs_issue_healthy in Hh. rewrite Hh in Hstep. by injection Hstep as <- <-.
  - destruct (called _ _ _) as [w1 err] eqn:E. call_cases E; rewrite Eff.
    + destruct He as (Hn & Hver & Hgen). rewrite <- Hn in Hget. destruct Hs as [->|[Hne Hh]].
      * right. split; [done|]. exists ca, s1. destruct err; injection Hstep as <- <-; eauto 6.
      * destruct (UpdateSecret_conflict _ _ _ _ Hget) as [e Hc]; congruence.
    + subst w1. left. by destruct err; injection Hstep as <- <-.
  - left. destruct He as (Hn & _). rewrite <- Hn in Hget. destruct (create_fails a _ _ _ _ Hget) as [-> [e Hc]].
    rewrite Hc in Hstep. by injection Hstep as <- <-.
  - destruct issued; [done|]. left. by injection Hstep as <- <-.
Qed.

(** A step of the pass that wrote. *)
Lemma writer_step p a c w i s s1 ca c' w' log :
  pa_rot p = r -> stored w r = Some s1 -> writer_phase w i s ca c log ->
  reads_ok (event_of i p a c w) -> pass_step p a c w = (c', w') ->
  stored w' r = stored w r /\ writer_phase w' i s ca c' (log ++ event_of i p a c w).
Proof.
  intros Hr Hs1 Hph Hread Hstep. unfold pass_step in Hstep. unfold event_of in *. rewrite Hr in *.
  destruct Hph as [[-> [-> |[(b & e & ->)|(e & -> & Hn)]]]|(-> & Hl & Hb)].
  - destruct (called _ _ _) as [w1 err] eqn:E. call_cases E; rewrite Eff.
    + apply patch_effect in E as [Hst Hp]. destruct err; injection Hstep as <- <-; (split; [done|]); right; [done|].
      by destruct (pa_roll p).
    + destruct err; [|done]. injection Hstep as <- <-. subst. split; [done|]. left. split; [done|]. eauto.
  - injection Hstep as <- <-. split; [done|]. left. split; [done|]. eauto.
  - pose proof (stored_Get _ _ Hs1) as Hget. rewrite <- Hn in Hget.
    destruct (create_fails a _ _ _ _ Hget) as [-> [e' Hc]]. rewrite Hc in Hstep. injection Hstep as <- <-.
    split; [done|]. left. split; [done|]. eauto.
  - destruct c as [| | | | | |[] ?|]; try done.
    + destruct (read_Annotations _ _ _); injection Hstep as <- <-; split; try done; by right.
    + destruct (called _ _ _) as [w1 err] eqn:E. injection Hstep as <- <-.
      apply roll_called_effect in E as [Hst Hb']. split; [done|]. right. by rewrite Hb'.
    + injection Hstep as <- <-. split; [done|]. by right.
Qed.

Lemma fst_insert (ts : list (pass * pc)) i p c c' : ts !! i = Some (p, c) -> (<[i := (p, c')]> ts).*1 = ts.*1.
Proof.
  intros Hi. rewrite list_fmap_insert. apply list_insert_id. rewrite list_lookup_fmap, Hi. done.
Qed.

Lemma fst_elem (ts : list (pass * pc)) i p c : ts !! i = Some (p, c) -> p ∈ ts.*1.
Proof. intros Hi. apply (list_elem_of_lookup_2 _ i). by rewrite list_lookup_fmap, Hi. Qed.

Lemma early_insert (ts : list (pass * pc)) (i : nat) p c' (P : nat -> Prop) :
  early p c' -> (forall j q c, P j -> ts !! j = Some (q, c) -> early q c) ->
  forall j q c, P j -> <[i := (p, c')]> ts !! j = Some (q, c) -> early q c.
Proof.
  intros He Hts j q c Hj [(-> & [= <- <-] & _)|[_ Hl]]%list_lookup_insert_Some; [done|by eapply Hts].
Qed.

Lemma one_writer_step i p a c c' ts w w1 log :
  ts !! i = Some (p, c) -> pa_rot p = r -> clocks_close ts -> sec_ResourceVersion s0 <> "" ->
  one_writer ts w log -> reads_ok (event_of i p a c w) -> pass_step p a c w = (c', w1) ->
  one_writer (<[i := (p, c')]> ts) w1 (log ++ event_of i p a c w).
Proof.
  intros Hi Hr Hclk Hv Hinv Hread Hstep. pose proof (lookup_lt_Some _ _ _ Hi) as Hlt.
  destruct Hinv as [(-> & Hst & Hearly)|(k & q & cq & ca & s & s1 & Hk & Hst & Hne & Hca & Hh & Hearly & Hph)].
  - destruct (early_step i p a c w s0 c' w1 Hr (Hearly _ _ _ Hi) Hst Hv (or_introl eq_refl) Hread Hstep)
      as [(-> & He' & Hev)|(_ & ca & s & -> & Hev & Hc' & Hup)].
    + left. rewrite Hev. split_and!; [done..|]. intros j q cq. 
      apply (early_insert ts i p c' (fun _ => True)); [done|eauto|done].
    + right. pose proof (Hearly _ _ _ Hi) as (Hn & Hver & leaf & Hg & Hl & Hd).
      pose proof (stored_Get _ _ Hst) as Hget. rewrite <- Hn in Hget.
      destruct (UpdateSecret_version _ _ _ _ _ Hget Hup) as (s1 & Hget1 & Hne).
      destruct (write_effect w s w1 _ Hn eq_refl (or_introl Hup)) as [(s1' & Hst1 & Hd1) _].
      pose proof (stored_Get _ _ Hst1) as Hget1'. rewrite <- Hn, Hget1 in Hget1'. injection Hget1' as <-.
      exists i, p, c', ca, s, s1. rewrite Hev.
      split_and!; [by apply list_lookup_insert_eq|done|done|by rewrite Hd1, Hd| | |left; naive_solver].
      * intros q Hq. rewrite (fst_insert _ _ _ _ _ Hi) in Hq.
        eapply (issued_pair_healthy (pa_rot p)); [done|done| |by rewrite Hd1, Hd|by rewrite Hd1, Hd].
        eapply clocks_close_window; [done|by eapply fst_elem|done].
      * intros j q cq Hj. rewrite list_lookup_insert_ne by done. eauto.
  - right. destruct (decide (i = k)) as [->|Hik].
    + rewrite Hi in Hk. injection Hk as <- <-.
      destruct (writer_step p a c w k s s1 ca c' w1 log Hr Hst Hph Hread Hstep) as [Hst' Hph'].
      exists k, p, c', ca, s, s1. split_and!; try done; [by apply list_lookup_insert_eq|congruence| |].
      * intros q Hq. rewrite (fst_insert _ _ _ _ _ Hi) in Hq. by apply Hh.
      * intros j q c'' Hj. rewrite list_lookup_insert_ne by done. by apply Hearly.
    + destruct (early_step i p a c w s1 c' w1 Hr (Hearly _ _ _ Hik Hi) Hst Hv
        (or_intror (conj Hne (Hh _ (fst_elem _ _ _ _ Hi)))) Hread Hstep) as [(-> & He' & Hev)|(-> & _)]; [|done].
      rewrite Hev, app_nil_r. exists k, q, cq, ca, s, s1.
      split_and!; try done; [by rewrite list_lookup_insert_ne by done| |].
      * intros q' Hq. rewrite (fst_insert _ _ _ _ _ Hi) in Hq. by apply Hh.
      * apply (early_insert ts i p c' (fun j => j <> k)); done.
Qed.

Lemma run_sched_one_writer sched : forall ts w pre ts' w' log,
  Forall (fun p => pa_rot p = r) ts.*1 -> clocks_close ts -> sec_ResourceVersion s0 <> "" ->
  one_writer ts w pre -> run_sched sched ts w = (ts', w', log) -> reads_ok log -> one_writer ts' w' (pre ++ log).
Proof.
  induction sched as [|[i a] sched IH]; intros ts w pre ts' w' log Hr Hclk Hv Hinv Hrun Hread; simpl in Hrun.
  - injection Hrun as <- <- <-. by rewrite app_nil_r.
  - destruct (ts !! i) as [[p c]|] eqn:Hi; [|by eapply IH].
    destruct (pass_step p a c w) as [c' w1] eqn:Hs.
    destruct (run_sched sched _ w1) as [[ts2 w2] log2] eqn:Hrec. injection Hrun as <- <- <-.
    apply reads_ok_app in Hread as [Hread1 Hread2].
    assert (Hpr : pa_rot p = r) by (eapply Forall_forall in Hr; [done|by eapply fst_elem]).
    rewrite app_assoc. eapply (IH (<[i := (p, c')]> ts)); [| |done| |done|done].
    + by rewrite (fst_insert _ _ _ _ _ Hi).
    + intros x y. rewrite (fst_insert _ _ _ _ _ Hi). apply Hclk.
    + by eapply one_writer_step.
Qed.

(** C17: when a Secret is already stored, any number of passes may overlap in any way, any call may be rejected, fail
    on the way, or be carried out with its answer lost.  If the clocks the passes read lie within an hour of each
    other and no pass fails to read the Secret, then at most one of them writes it, because the version it read
    protects the Secret, only that one patches the caBundle, and once every pass has ended without an error either
    nothing was written or the API server trusts the CA of the stored Secret.  A read that fails is taken for a
    missing Secret, and the update that follows names no version: [failed_reads_race]. *)
Theorem rotation_single_writer sched ts w ts' w' log :
  stored w r = Some s0 -> sec_ResourceVersion s0 <> "" -> clocks_close ts ->
  Forall (fun pc => pa_rot pc.1 = r /\ pc.2 = at_Get) ts ->
  run_sched sched ts w = (ts', w', log) -> reads_ok log ->
  (log = [] \/ exists i s ca, log = [Wrote i s ca] \/ log = [Wrote i s ca; Patched i ca]) /\
  ((forall p c, (p, c) ∈ ts' -> exists b, c = Finished b None) -> log = [] /\ stored w' r = Some s0 \/ consistent w' r).
Proof.
  intros Hst Hv Hclk Hts Hrun Hread.
  assert (Hinv : one_writer ts' w' ([] ++ log)).
  { eapply run_sched_one_writer; [|done|done| |done|done].
    - apply Forall_fmap. eapply Forall_impl; [done|]. by intros [p c] [? _].
    - left. split_and!; [done..|]. intros j p c Hj. pose proof (Forall_lookup_1 _ _ _ _ Hts Hj) as [_ Hc].
      simpl in Hc. by subst c. }
  destruct Hinv as [(Hl & Hst' & _)|(i & p & c & ca & s & s1 & Hi & Hst' & _ & Hca & _ & _ & Hph)]; simpl in *.
  - split; [by left|]. intros _. by left.
  - split; [right; exists i, s, ca; unfold writer_phase in Hph; naive_solver|].
    intros Hfin. right. destruct (Hfin p c) as [b ->]; [by eapply list_elem_of_lookup_2|].
    destruct Hph as [[_ [[=]|[(? & e & [=])|(e & [=] & _)]]]|(_ & _ & Hb)]. by exists s1, (ca_CertPEM ca).
Qed.

End interleaving.

(** ** On the toy cluster *)

#[export] Instance toy_frame : CertAPIFrame toy_world.
Proof.
  split; simpl.
  - intros w ns s w' e. destruct (tw_secrets w !! _); [destruct (decide _)|]; by intros [=].
  - intros w ns s w' e. destruct (decide _); by intros [=].
  - intros w cfg patch w' e. destruct (tw_patchable w); by intros [=].
  - intros w ns s cfg. destruct (tw_secrets w !! _); [destruct (decide _)|]; done.
  - intros w ns s cfg. by destruct (decide _).
Qed.

Lemma toy_get_inv w ns name old : toy_get w ns name = (Some old, None) -> tw_secrets w !! (ns, name) = Some old.
Proof. unfold toy_get. destruct (tw_secrets w !! _); [by intros [= ->]|done]. Qed.

Lemma toy_version_new s : toy_version (Some s) <> sec_ResourceVersion s.
Proof.
  simpl. intros Heq. apply (f_equal String.length) in Heq. rewrite str_length_app in Heq. simpl in Heq. lia.
Qed.

#[export] Instance toy_versions : CertAPIVersions toy_world.
Proof.
  split; simpl.
  - intros w ns s old Hget%toy_get_inv Hne Hv. rewrite Hget. rewrite decide_False by (intros [?|?]; done). eauto.
  - intros w ns s w' old Hget%toy_get_inv Hup. rewrite Hget in Hup. destruct (decide _); [|done].
    injection Hup as <-. eexists. rewrite toy_get_put. split; [done|]. simpl. rewrite Hget. apply toy_version_new.
  - intros w ns s old Hget%toy_get_inv. rewrite Hget. rewrite decide_True by eauto. eauto.
Qed.

(** A start-up pass with its own randomness; a first pass that ran alone. *)
Definition toy_boot (k now : Z) : pass := MkPass toy_rotator false "ns" now (toy_entropy k) (toy_entropy (k + 1)).
Definition toy_boots (now : Z) : list (pass * pc) := [(toy_boot 1 now, at_Get); (toy_boot 3 now, at_Get)].
Definition toy_pair (k : Z) : res (CA * Leaf) :=
  ca ← GenerateCA (toy_entropy k) 0 caLifeTime;
  leaf ← GenerateLeaf ca (toy_entropy (k + 1)) (rot_dnsNames toy_rotator) 0 leafLifeTime;
  Ok (ca, leaf).
Definition toy_ca (k : Z) : string := match toy_pair k with Ok (ca, _) => ca_CertPEM ca | Err _ => "" end.
Definition toy_leaf (k : Z) : string := match toy_pair k with Ok (_, leaf) => leaf_CertPEM leaf | Err _ => "" end.

(** Both replicas find no Secret; the first creates it, the second - whose object has no version - overwrites it
    and publishes; then the first publishes. *)
Definition answered (sched : list nat) : list (nat * answer) := (fun i => (i, Answered)) <$> sched.
Definition race_sched : list (nat * answer) := answered [0; 1; 0; 0; 1; 1; 0]%nat.
Definition race_run := run_sched race_sched (toy_boots 0) (toy_start true).

Lemma race_stored :
  (s ← stored race_run.1.2 toy_rotator; sec_Data s !! caCertKey) = Some (toy_ca 3) /\
  (s ← stored race_run.1.2 toy_rotator; sec_Data s !! tlsCertKey) = Some (toy_leaf 3) /\
  caBundle race_run.1.2 "cfg" = base64_EncodeToString (toy_ca 1) /\
  toy_ca 1 <> toy_ca 3.
Proof. split_and!; vm_compute; [reflexivity|reflexivity|reflexivity|discriminate]. Qed.

Lemma toy_pair_inv k ca leaf :
  toy_pair k = Ok (ca, leaf) ->
  GenerateCA (toy_entropy k) 0 caLifeTime = Ok ca /\
  GenerateLeaf ca (toy_entropy (k + 1)) (rot_dnsNames toy_rotator) 0 leafLifeTime = Ok leaf.
Proof.
  unfold toy_pair, mbind, res_mbind. generalize (toy_entropy k), (toy_entropy (k + 1)), (rot_dnsNames toy_rotator).
  intros e1 e2 names. destruct (GenerateCA e1 0 caLifeTime) as [ca'|] eqn:Eca; [|discriminate].
  destruct (GenerateLeaf ca' e2 names 0 leafLifeTime) as [leaf'|] eqn:El; [|discriminate].
  intros [= <- <-]. done.
Qed.

Lemma toy_pair_ok : match toy_pair 3 with Ok _ => true | Err _ => false end = true.
Proof. vm_compute. reflexivity. Qed.

(** A world that carries the pair of one pass and the caBundle of another. *)
Lemma mixed_world (w : toy_world) (k1 k3 : Z) :
  match toy_pair k3 with Ok _ => true | Err _ => false end = true ->
  (s ← stored w toy_rotator; sec_Data s !! caCertKey) = Some (toy_ca k3) ->
  (s ← stored w toy_rotator; sec_Data s !! tlsCertKey) = Some (toy_leaf k3) ->
  caBundle w "cfg" = base64_EncodeToString (toy_ca k1) -> toy_ca k1 <> toy_ca k3 ->
  ~ consistent w toy_rotator /\
  forall roll env now e1 e2,
    0 <= now <= (leafLifeTime - refreshWhenLeft) - Second ->
    ensure toy_rotator roll env now e1 e2 w = Val (w, false, None).
Proof.
  intros Hp Hca Hleaf Hb Hne. destruct (stored w toy_rotator) as [s|] eqn:Hs; [|discriminate Hca].
  simpl in Hca, Hleaf. split.
  - intros (s' & ca & Hs' & Hsca & Hbundle). rewrite Hs in Hs'. injection Hs' as <-.
    rewrite Hca in Hsca. injection Hsca as <-. apply Hne, base64_inj. by rewrite <- Hb.
  - intros roll env now e1 e2 Hnow. unfold toy_ca in Hca. unfold toy_leaf in Hleaf.
    destruct (toy_pair k3) as [[ca leaf]|] eqn:Epair; [|discriminate Hp].
    destruct (toy_pair_inv k3 ca leaf Epair) as [Eca El].
    apply (stored_noop _ _ _ _ _ _ _ _ Hs).
    refine (issued_pair_healthy toy_rotator _ _ 0 now ca leaf s Eca El _ Hleaf Hca).
    unfold Hour, Minute, Second in *. lia.
Qed.

(** The start-up passes of two replicas on a fresh cluster can both report success and leave the caBundle of
    the one beside the certificate of the other: the API server cannot verify the webhook, and no pass of the
    next sixty days repairs it, because the stored Secret is healthy. *)
Theorem bootstrap_race :
  snd <$> race_run.1.1 = [Finished true None; Finished true None] /\
  ~ consistent race_run.1.2 toy_rotator /\
  forall roll env now e1 e2,
    0 <= now <= (leafLifeTime - refreshWhenLeft) - Second ->
    ensure toy_rotator roll env now e1 e2 race_run.1.2 = Val (race_run.1.2, false, None).
Proof.
  split; [vm_compute; reflexivity|].
  destruct race_stored as (Hca & Hleaf & Hb & Hne).
  exact (mixed_world race_run.1.2 1 3 toy_pair_ok Hca Hleaf Hb Hne).
Qed.

(** Two reads of a Secret that is there and healthy fail on the way.  Both passes issue, their updates name no
    version and both succeed; again the caBundle of the one ends beside the certificate of the other, both passes
    report success, and no pass of the next sixty days repairs it. *)
Definition failed_sched : list (nat * answer) :=
  [(0%nat, Failed "timeout"); (1%nat, Failed "timeout")] ++ answered [0; 1; 1; 0]%nat.
Definition failed_run := run_sched failed_sched (toy_boots 0) (toy_issued true).

Lemma failed_stored :
  (s ← stored failed_run.1.2 toy_rotator; sec_Data s !! caCertKey) = Some (toy_ca 3) /\
  (s ← stored failed_run.1.2 toy_rotator; sec_Data s !! tlsCertKey) = Some (toy_leaf 3) /\
  caBundle failed_run.1.2 "cfg" = base64_EncodeToString (toy_ca 1).
Proof. split_and!; vm_compute; reflexivity. Qed.

Theorem failed_reads_race :
  (negb ∘ needs_issue 0 <$> stored (toy_issued true) toy_rotator) = Some true /\
  snd <$> failed_run.1.1 = [Finished true None; Finished true None] /\
  ~ consistent failed_run.1.2 toy_rotator /\
  forall roll env now e1 e2,
    0 <= now <= (leafLifeTime - refreshWhenLeft) - Second ->
    ensure toy_rotator roll env now e1 e2 failed_run.1.2 = Val (failed_run.1.2, false, None).
Proof.
  split; [vm_compute; reflexivity|]. split; [vm_compute; reflexivity|].
  destruct failed_stored as (Hca & Hleaf & Hb). destruct race_stored as (_ & _ & _ & Hne).
  exact (mixed_world failed_run.1.2 1 3 toy_pair_ok Hca Hleaf Hb Hne).
Qed.

Lemma last_writer_last_patcher_witness :
  log_effect toy_rotator (toy_start true) race_run.1.2 race_run.2.
Proof.
  apply (last_writer_last_patcher toy_rotator race_sched (toy_boots 0) (toy_start true)
           race_run.1.1 race_run.1.2 race_run.2); [by repeat constructor|].
  unfold race_run. by destruct (run_sched _ _ _) as [[ts w] log].
Defined.

(** Two passes that overlap in the renewal window of a stored pair: the second one's update conflicts. *)
Definition renew_sched : list (nat * answer) := answered [0; 1; 0; 1; 1; 0]%nat.
Definition renew_now : Z := 70 * 24 * Hour.
Definition renew_run := run_sched renew_sched (toy_boots renew_now) (toy_issued true).

Definition is_failed_read (e : event) : bool := match e with Read_failed _ => true | _ => false end.

Lemma reads_ok_check log : existsb is_failed_read log = false -> reads_ok log.
Proof.
  intros Hf i Hi. assert (Ht : existsb is_failed_read log = true); [|congruence].
  apply existsb_exists. exists (Read_failed i). by rewrite <- list_elem_of_In.
Qed.

Lemma renew_reads : existsb is_failed_read renew_run.2 = false.
Proof. vm_compute. reflexivity. Qed.

Lemma rotation_single_writer_witness :
  let log := renew_run.2 in
  log = [] \/ exists i s ca, log = [Wrote i s ca] \/ log = [Wrote i s ca; Patched i ca].
Proof.
  assert (Hv : sec_ResourceVersion <$> stored (toy_issued true) toy_rotator = Some "1") by (vm_compute; reflexivity).
  destruct (stored (toy_issued true) toy_rotator) as [s0|] eqn:Hs; [|discriminate Hv].
  assert (Hne : sec_ResourceVersion s0 <> "") by (injection Hv as ->; discriminate).
  assert (Hclk : clocks_close (toy_boots renew_now)).
  { intros p q Hp Hq. assert (Hnow : forall x, x ∈ (toy_boots renew_now).*1 -> pa_now x = renew_now).
    { intros x. simpl. rewrite !elem_of_cons. by intros [->|[->|?%elem_of_nil]]. }
    rewrite (Hnow p Hp), (Hnow q Hq). vm_compute. discriminate. }
  apply (rotation_single_writer toy_rotator s0 renew_sched (toy_boots renew_now) (toy_issued true)
           renew_run.1.1 renew_run.1.2 renew_run.2 Hs Hne Hclk); [by repeat constructor| |].
  - unfold renew_run. by destruct (run_sched _ _ _) as [[ts w] log].
  - exact (reads_ok_check _ renew_reads).
Defined.

Lemma renew_run_log :
  (fun e => match e with Wrote i _ _ => (i, "wrote") | Patched i _ => (i, "patched") | Read_failed i => (i, "failed") end)
    <$> renew_run.2 = [(0%nat, "wrote"); (0%nat, "patched")].
Proof. vm_compute. reflexivity. Qed.
