(* ===== verification/Loops.v ===== *)
(** * The background loops (lifecycle.go, replicatarget.go, selfcert.go)

    Each is a ticker and [for { select { case <-ctx.Done(): return; case <-tick.C: ... } }].
    A run of one is the sequence of the cases its [select] takes; where both are ready
    Go picks either, so every sequence is possible. *)

From S2P Require Import Prelude GoStd Kube Fixtures Api State Plugin Lifecycle Observer Wiring SelfCert.

(** ** Ticker and select *)

(** What happens next to a loop that shares the state [S]: a tick, with what its body
    reads, a step of the rest of the program, or the end of the context. *)
Inductive wake (X S : Type) :=
| Tick (x : X)
| Between (f : S -> S)
| Cancelled.
Arguments Tick {X S} x.
Arguments Between {X S} f.
Arguments Cancelled {X S}.

(** State, outputs of the passes so far, and whether the function returned. *)
Record loop_end (S A : Type) := LoopEnd { le_state : S; le_out : list A; le_returned : bool }.
Arguments LoopEnd {S A}.
Arguments le_state {S A}.
Arguments le_out {S A}.
Arguments le_returned {S A}.

(** [time.NewTicker] panics unless the period is positive. *)
Definition NewTicker (d : Z) : go () := if d <=? 0 then Panic else Val tt.

Section select.
Context {X S A : Type} (body : X -> S -> go (S * A)).

Fixpoint select_loop (ws : list (wake X S)) (s : S) : go (loop_end S A) :=
  match ws with
  | [] => Val (LoopEnd s [] false)
  | Cancelled :: _ => Val (LoopEnd s [] true)
  | Between f :: ws => select_loop ws (f s)
  | Tick x :: ws =>
    sa ← body x s;
    e ← select_loop ws sa.1;
    Val (LoopEnd (le_state e) (sa.2 :: le_out e) (le_returned e))
  end.

(** A pass made at once, before the first tick. *)
Definition first_then_loop (x : X) (ws : list (wake X S)) (s : S) : go (loop_end S A) :=
  select_loop (Tick x :: ws) s.
End select.

(** ** The loops of the program *)

(** [RunJanitor]; a tick reads the clock and the verification source. *)
Definition RunJanitor (ttl : Z) (ws : list (wake (Z * res (gmap string podRef)) spreadState))
    (s : spreadState) : go (loop_end spreadState (list string)) :=
  _ ← NewTicker (janitorTick ttl);
  select_loop (fun '(now, src) s => Val (janitorOnce now ttl src s)) ws s.

Definition RunReconciler (period : Z) (ws : list (wake (res (gmap string podRef)) spreadState))
    (s : spreadState) : go (loop_end spreadState ()) :=
  _ ← NewTicker period;
  select_loop (fun src s => Val (reconcile_tick src s, tt)) ws s.

(** The two goroutines [StartLifecycleLoops] starts, each with its own view of the run. *)
Definition lifecycle_goroutines (ttl period : Z)
    (jw : list (wake (Z * res (gmap string podRef)) spreadState))
    (rw : list (wake (res (gmap string podRef)) spreadState)) (s : spreadState) :=
  let '(ttl, period) := StartLifecycleLoops ttl period in
  (RunJanitor ttl jw s, RunReconciler period rw s).

Section observer_loop.
Context `{KubeLib}.

(** The settings of [ObserverLoopDeps]; its readers are in [cycle_input]. *)
Record ObserverLoopDeps := MkLoopDeps {
  ld_ServiceLabelKey : string;
  ld_ExportInterval : Z;
  ld_ExportNodePods : bool;
  ld_ExportTargetDetail : bool;
  ld_ManagedSchedulerName : string;
}.

(** What the readers return in one export: the deployments with their targets, the
    pods, the nodes, the policies, the reservation counts; a nil reader is [None]. *)
Record cycle_input := MkCycle {
  in_deployments : res (list (Deployment * readings));
  in_pods : res (list Pod);
  in_nodes : option (res (list (option Node)));
  in_policies : option (string -> res (list ServiceSpreadPolicy));
  in_reservations : option (list (string * Z));
}.

(** The [ObserverDeps] the loop builds, as its readers answer in one cycle. *)
Definition observer_deps (d : ObserverLoopDeps) (x : cycle_input) : ObserverDeps :=
  MkObserverDeps (ld_ServiceLabelKey d) (in_nodes x) (in_policies x) (ld_ManagedSchedulerName d)
    (ld_ExportNodePods d) (ld_ExportTargetDetail d).

(** The state of the observer is its memory of good targets, which starts empty. *)
Definition NewReplicaTargetObserver : gmap string deploymentTarget := ∅.

Definition export (d : ObserverLoopDeps) (x : cycle_input) (lastGood : gmap string deploymentTarget)
    : go (gmap string deploymentTarget * list gauge_set) :=
  let '(log, lastGood) := export_cycle (observer_deps d x) lastGood (in_deployments x) (in_pods x) (in_reservations x) in
  Val (lastGood, log).

Definition RunObserverLoop (d : ObserverLoopDeps) (first : cycle_input)
    (ws : list (wake cycle_input (gmap string deploymentTarget)))
    : go (loop_end (gmap string deploymentTarget) (list gauge_set)) :=
  _ ← NewTicker (observer_interval (ld_ExportInterval d));
  first_then_loop (export d) first ws NewReplicaTargetObserver.
End observer_loop.

Section rotator_loop.
Context `{Crypto} {W : Type} `{!CertAPI W}.

(** What one pass reads: environment, clock, randomness. *)
Definition pass_input : Type := string * Z * entropy * entropy.

Definition rotator_pass (r : CertRotator) (x : pass_input) (w : W) : go (W * option string) :=
  let '(env, now, e1, e2) := x in
  o ← Ensure r env now e1 e2 w;
  let '(w, _, err) := o in Val (w, err).

(** [CertRotator.Run]: errors are logged and the loop goes on. *)
Definition Run (r : CertRotator) (checkInterval : Z) (first : pass_input) (ws : list (wake pass_input W)) (w : W)
    : go (loop_end W (option string)) :=
  p ← rotator_pass r first w;
  _ ← NewTicker checkInterval;
  e ← select_loop (rotator_pass r) ws p.1;
  Val (LoopEnd (le_state e) (p.2 :: le_out e) (le_returned e)).
End rotator_loop.

(** ** The select loop *)

Definition is_cancelled {X S} (w : wake X S) : bool := match w with Cancelled => true | _ => false end.
Definition is_tick {X S} (w : wake X S) : bool := match w with Tick _ => true | _ => false end.

(** What happens before the context ends. *)
Fixpoint alive {X S} (ws : list (wake X S)) : list (wake X S) :=
  match ws with
  | [] | Cancelled :: _ => []
  | w :: ws => w :: alive ws
  end.

Definition ticks {X S} (ws : list (wake X S)) : list X := omap (fun w => match w with Tick x => Some x | _ => None end) ws.

Section select_lemmas.
Context {X S A : Type} (body : X -> S -> go (S * A)).

Lemma select_loop_app ws1 ws2 s :
  existsb is_cancelled ws1 = false ->
  select_loop body (ws1 ++ ws2) s =
  (e1 ← select_loop body ws1 s;
   e2 ← select_loop body ws2 (le_state e1);
   Val (LoopEnd (le_state e2) (le_out e1 ++ le_out e2) (le_returned e2))).
Proof.
  revert s. induction ws1 as [|[x|f|] ws1 IH]; intros s Hc; simpl in *; try done.
  - unfold mbind, go_mbind. simpl. by destruct (select_loop body ws2 s) as [[]|].
  - unfold mbind, go_mbind in *. destruct (body x s) as [[s' a]|]; [|done]. rewrite IH by done. simpl.
    destruct (select_loop body ws1 s') as [e1|]; [|done]. simpl.
    by destruct (select_loop body ws2 _) as [e2|].
  - by apply IH.
Qed.

Lemma select_loop_alive ws s :
  select_loop body ws s =
  (e ← select_loop body (alive ws) s; Val (LoopEnd (le_state e) (le_out e) (existsb is_cancelled ws))).
Proof.
  revert s. induction ws as [|[x|f|] ws IH]; intros s; simpl; [done| |apply IH|done].
  unfold mbind, go_mbind in *. destruct (body x s) as [[s' a]|]; [|done]. simpl. rewrite IH.
  by destruct (select_loop body (alive ws) s') as [e|].
Qed.

(** A loop whose body does not panic comes to the end of what happens. *)
Lemma select_loop_total ws s :
  (forall x s, body x s <> Panic) ->
  exists e, select_loop body ws s = Val e /\ le_returned e = existsb is_cancelled ws /\
    length (le_out e) = length (ticks (alive ws)).
Proof.
  intros Hb. revert s. induction ws as [|[x|f|] ws IH]; intros s; simpl.
  - by eexists.
  - destruct (body x s) as [[s' a]|] eqn:E; [|by destruct (Hb x s)].
    destruct (IH s') as (e & He & Hr & Hl). unfold mbind, go_mbind. simpl. rewrite He.
    eexists. split; [done|]. split; [done|]. simpl. by rewrite Hl.
  - apply IH.
  - by eexists.
Qed.
End select_lemmas.

(** ** Termination *)

Lemma NewTicker_pos d : 0 < d -> NewTicker d = Val tt.
Proof. intros Hd. unfold NewTicker. destruct (Z.leb_spec d 0); [lia|done]. Qed.

Lemma NewTicker_panics d : NewTicker d = Panic <-> d <= 0.
Proof. unfold NewTicker. destruct (Z.leb_spec d 0); split; (done || lia). Qed.

Lemma janitorTick_pos ttl : 0 < janitorTick ttl <-> 0 < ttl.
Proof.
  unfold janitorTick, Second. destruct (Z.ltb_spec ttl (5 * 1000000000)); [done|].
  destruct (Z.ltb_spec (Z.quot ttl 4) (5 * 1000000000)); lia.
Qed.

(** The end of a loop: it does not panic, returns exactly when the context ended, one pass per tick before that. *)
Definition ends {X S A} (o : go (loop_end S A)) (ws : list (wake X S)) (first : nat) : Prop :=
  exists e, o = Val e /\ le_returned e = existsb is_cancelled ws /\
    length (le_out e) = (first + length (ticks (alive ws)))%nat.

Lemma RunJanitor_ends ttl ws s : 0 < ttl -> ends (RunJanitor ttl ws s) ws 0.
Proof.
  intros Ht. unfold RunJanitor. rewrite NewTicker_pos by (by apply janitorTick_pos).
  by apply select_loop_total; intros [].
Qed.

Lemma RunReconciler_ends period ws s : 0 < period -> ends (RunReconciler period ws s) ws 0.
Proof. intros Ht. unfold RunReconciler. rewrite NewTicker_pos by done. by apply select_loop_total. Qed.

(** C16: the background loops terminate: whatever durations they are configured with, and whatever happens
    between the ticks, the janitor, the reconciler and the observer never panic, return exactly when their context
    ends, and make one pass for each tick before that - the observer one more, at once; called directly, janitor and
    reconciler panic exactly on a duration that is not positive. *)
Theorem background_loops_terminate `{KubeLib} ttl period jw rw s d first ow :
  let '(janitor, reconciler) := lifecycle_goroutines ttl period jw rw s in
  ends janitor jw 0 /\ ends reconciler rw 0 /\
  ends (RunObserverLoop d first ow) ow 1 /\
  (RunJanitor ttl jw s = Panic <-> ttl <= 0) /\ (RunReconciler period rw s = Panic <-> period <= 0).
Proof.
  unfold lifecycle_goroutines. pose proof (StartLifecycleLoops_ticks ttl period) as Hst.
  destruct (StartLifecycleLoops ttl period) as [ttl' period'].
  destruct Hst as ((Ht & _) & Hp & _). apply (proj1 (janitorTick_pos _)) in Ht.
  split; [by apply RunJanitor_ends|]. split; [by apply RunReconciler_ends|]. split; [|split].
  - unfold RunObserverLoop, first_then_loop.
    assert (Hi : 0 < observer_interval (ld_ExportInterval d)).
    { unfold observer_interval, Second. destruct (Z.leb_spec (ld_ExportInterval d) 0); lia. }
    rewrite NewTicker_pos by done.
    destruct (select_loop_total (export d) (Tick first :: ow) NewReplicaTargetObserver) as (e & He & Hr & Hl).
    { intros x lg. unfold export. by destruct (export_cycle _ _ _ _ _). }
    exists e. split; [exact He|]. split; [exact Hr|]. rewrite Hl. done.
  - split; [|intros Hle; unfold RunJanitor; rewrite (proj2 (NewTicker_panics _)); [done|]].
    + intros Hpan. destruct (Z.le_gt_cases ttl 0); [done|].
      destruct (RunJanitor_ends ttl jw s) as (e & He & _); [lia|congruence].
    + pose proof (janitorTick_pos ttl). lia.
  - split; [|intros Hle; unfold RunReconciler; by rewrite (proj2 (NewTicker_panics _))].
    intros Hpan. destruct (Z.le_gt_cases period 0); [done|].
    destruct (RunReconciler_ends period rw s) as (e & He & _); [lia|congruence].
Qed.

(** ** The janitor bounds the life of a dead reservation *)

Lemma resv_releaseIfObserved s uid u r : resv (releaseIfObserved s uid) !! u = Some r -> resv s !! u = Some r.
Proof.
  unfold releaseIfObserved. repeat case_match; try done. simpl. intros Hl. by apply lookup_delete_Some in Hl as [_ ?].
Qed.

Lemma resv_releaseUnverified s uid u : resv (releaseUnverified s uid) !! u = if decide (u = uid) then None else resv s !! u.
Proof.
  unfold releaseUnverified. destruct (decide (u = uid)) as [->|Hne].
  - destruct (resv s !! uid) eqn:E; [simpl; apply lookup_delete_eq|done].
  - destruct (resv s !! uid); [simpl; by rewrite lookup_delete_ne|done].
Qed.

Lemma janitor_step_sub counts s al uid u r :
  resv (janitor_step counts (s, al) uid).1 !! u = Some r -> resv s !! u = Some r.
Proof.
  unfold janitor_step. destruct (resv s !! uid) as [r0|]; [|done].
  assert (Hun : resv (releaseUnverified s uid) !! u = Some r -> resv s !! u = Some r)
    by (rewrite resv_releaseUnverified; by destruct (decide _)).
  destruct (counts !! uid) as [ref|]; [|done]. destruct (decide _); [done|].
  destruct (reservationPhase _ _); simpl; by intros Hr%resv_releaseIfObserved.
Qed.

Lemma janitor_fold_sub counts l s al u r :
  resv (foldl (janitor_step counts) (s, al) l).1 !! u = Some r -> resv s !! u = Some r.
Proof.
  revert s al. induction l as [|uid l IH]; intros s al; [done|]. cbn [foldl].
  destruct (janitor_step counts (s, al) uid) as [s' al'] eqn:E. intros Hr%IH.
  apply (janitor_step_sub counts s al uid). by rewrite E.
Qed.

Lemma janitorOnce_sub now ttl src s u r :
  resv (janitorOnce now ttl src s).1 !! u = Some r -> resv s !! u = Some r.
Proof.
  unfold janitorOnce, janitor_pass. destruct (expired_uids _ _ _); [done|]. destruct src; [|done].
  apply janitor_fold_sub.
Qed.

Lemma janitor_fold_removes counts l s al u :
  u ∈ l -> counts !! u = None -> resv (foldl (janitor_step counts) (s, al) l).1 !! u = None.
Proof.
  intros Hu Hc. revert s al. induction Hu as [u l|u v l Hu IH]; intros s al; cbn [foldl].
  - destruct (janitor_step counts (s, al) u) as [s' al'] eqn:E. apply eq_None_not_Some. intros [r Hr%janitor_fold_sub].
    unfold janitor_step in E. rewrite Hc in E. destruct (resv s !! u) eqn:Eu; injection E as <- <-; [|congruence].
    rewrite resv_releaseUnverified, decide_True in Hr by done. done.
  - destruct (janitor_step counts (s, al) v) as [s' al']. by apply IH.
Qed.

Lemma janitorOnce_removes now ttl counts s u r :
  resv s !! u = Some r -> is_expired now ttl r = true -> counts !! u = None ->
  resv (janitorOnce now ttl (Ok counts) s).1 !! u = None.
Proof.
  intros Hr He Hc. unfold janitorOnce, janitor_pass.
  assert (Hin : u ∈ expired_uids now ttl (map_to_list (resv s)))
    by (apply (expired_elem now ttl _ (resv s)); [apply enumerates_refl|by exists r]).
  destruct (expired_uids _ _ _) as [|v l] eqn:E; [by apply elem_of_nil in Hin|].
  by apply janitor_fold_removes.
Qed.

Lemma is_expired_at now ttl r : 0 < ttl <= max_int64 -> rv_Since r + ttl <= now -> is_expired now ttl r = true.
Proof. unfold is_expired, time_Sub, max_int64. intros Ht Hn. apply Z.geb_le. lia. Qed.

(** Consecutive readings of a clock, [d] apart at most. *)
Fixpoint gaps (d t0 : Z) (ts : list Z) : Prop :=
  match ts with
  | [] => True
  | t :: ts => t <= t0 + d /\ gaps d t ts
  end.

(** Nothing but the janitor decides about [uid]: a reservation of it is at most since [since]. *)
Definition no_newer (uid : string) (since : Z) (s : spreadState) : Prop :=
  forall r, resv s !! uid = Some r -> rv_Since r = since.

Abbreviation janitor_wake := (wake (Z * res (gmap string podRef)) spreadState).
Abbreviation janitor_loop ttl :=
  (select_loop (fun '(now, src) s => Val (janitorOnce now ttl src s)) : list janitor_wake -> _ -> _).

(** The pod is gone and nobody reserves for it again. *)
Definition dead_pod (uid : string) (since : Z) (w : janitor_wake) : Prop :=
  match w with
  | Tick (_, src) => exists counts, src = Ok counts /\ counts !! uid = None
  | Between f => forall s, no_newer uid since s -> no_newer uid since (f s)
  | Cancelled => False
  end.

Lemma janitor_loop_leak ttl ws : forall s uid since t0,
  0 < ttl <= max_int64 -> no_newer uid since s ->
  t0 < since + ttl -> gaps (janitorTick ttl) t0 (ticks ws).*1 ->
  Forall (dead_pod uid since) ws ->
  (exists t, t ∈ (ticks ws).*1 /\ since + ttl <= t) ->
  exists pre now src post e, ws = pre ++ Tick (now, src) :: post /\ now < since + ttl + janitorTick ttl /\
    janitor_loop ttl (pre ++ [Tick (now, src)]) s = Val e /\ resv (le_state e) !! uid = None.
Proof.
  induction ws as [|w ws IH]; intros s uid since t0 Ht Hs Ht0 Hg Hdead (t & Hin & Hle); [by apply elem_of_nil in Hin|].
  apply Forall_cons in Hdead as [Hw Hdead]. destruct w as [[now src]|f|]; [| |done].
  - destruct Hw as (counts & -> & Hc). change (ticks (Tick (now, Ok counts) :: ws)) with ((now, Ok counts) :: ticks ws) in *.
    destruct Hg as [Hnow Hg]. cbn [fst] in Hnow, Hg. destruct (Z.le_gt_cases (since + ttl) now) as [Hexp|Hexp].
    + exists [], now, (Ok counts), ws. simpl. eexists. split; [done|]. split; [lia|]. split; [done|]. simpl.
      destruct (resv s !! uid) as [r|] eqn:Hr.
      * apply (janitorOnce_removes _ _ _ _ _ r Hr); [|done]. apply is_expired_at; [done|]. by rewrite (Hs r Hr).
      * apply eq_None_not_Some. intros [r Hr'%janitorOnce_sub]. congruence.
    + destruct (IH (janitorOnce now ttl (Ok counts) s).1 uid since now) as (pre & now' & src & post & e & -> & Hb & He & Hn); try done.
      * intros r Hr%janitorOnce_sub. by apply Hs.
      * exists t. split; [|done]. simpl in Hin. apply elem_of_cons in Hin as [->|Hin]; [lia|done].
      * exists (Tick (now, Ok counts) :: pre), now', src, post. simpl. unfold mbind, go_mbind. rewrite He.
        eexists. split; [done|]. split; [done|]. split; [done|]. done.
  - destruct (IH (f s) uid since t0) as (pre & now' & src & post & e & -> & Hb & He & Hn); try done.
    + by apply Hw.
    + by exists t.
    + exists (Between f :: pre), now', src, post, e. by split_and!.
Qed.

(** C15: a reservation whose pod is gone cannot leak: while the janitor ticks on time and its source can be read, the
    reservation is dropped at the latest one tick after its TTL, whatever else happens to the state in between
    short of a new reservation for the same pod. *)
Theorem janitor_leak_bound ttl ws s uid r t0 :
  0 < ttl <= max_int64 -> resv s !! uid = Some r ->
  t0 < rv_Since r + ttl -> gaps (janitorTick ttl) t0 (ticks ws).*1 ->
  Forall (dead_pod uid (rv_Since r)) ws ->
  (exists t, t ∈ (ticks ws).*1 /\ rv_Since r + ttl <= t) ->
  exists pre now src post e, ws = pre ++ Tick (now, src) :: post /\
    now < rv_Since r + ttl + janitorTick ttl /\
    RunJanitor ttl (pre ++ [Tick (now, src)]) s = Val e /\ resv (le_state e) !! uid = None.
Proof.
  intros Ht Hr Ht0 Hg Hdead Hlate. unfold RunJanitor. rewrite NewTicker_pos by (apply janitorTick_pos; lia).
  eapply janitor_loop_leak; try done. intros r' Hr'. congruence.
Qed.

Lemma janitor_leak_bound_witness :
  let m := Minute in
  let ws := [Tick (2 * m, Ok ∅); Between (fun s => run (OnPodDelete "other") s); Tick (3 * m, Ok ∅);
             Tick (4 * m, Ok ∅); Tick (5 * m, Ok ∅)] in
  exists pre now src post e, ws = pre ++ Tick (now, src) :: post /\ now < 5 * m + janitorTick (5 * m) /\
    RunJanitor (5 * m) (pre ++ [Tick (now, src)]) ex_reserved = Val e /\ resv (le_state e) !! "u" = None.
Proof.
  cbv zeta.
  refine (janitor_leak_bound (5 * Minute) _ ex_reserved "u" ex_reserved_resv Minute _ _ _ _ _ _).
  - vm_compute. by split.
  - reflexivity.
  - vm_compute. reflexivity.
  - vm_compute. repeat split; discriminate.
  - repeat (apply Forall_cons; split); try (eexists; split; [reflexivity|apply lookup_empty]); [|constructor].
    intros s Hs r Hr. apply Hs. simpl in Hr. apply lookup_delete_Some in Hr as [_ Hr]. exact Hr.
  - exists (5 * Minute). split; [simpl; set_solver|vm_compute; discriminate].
Defined.

(** ** The rotator keeps a usable certificate *)

Section rotator_theorems.
Context `{CryptoLaws} {W : Type} `{!CertAPI W, !CertAPILaws W}.

Lemma ensure_ok_healthy r roll env now e1 e2 w w' b :
  ensure r roll env now e1 e2 w = Val (w', b, None) -> exists s, stored w' r = Some s /\ healthy now s.
Proof.
  intros He. destruct b.
  - destruct (ensure_issued _ _ _ _ _ _ _ _ _ He) as (s & ca & Hs & _ & Hh & _). exists s. split; [done|].
    apply Hh. unfold leafLifeTime, refreshWhenLeft, Hour, Minute, Second. lia.
  - unfold ensure in He. destruct (GetSecret _ _ _) as [[s|] [e|]] eqn:Eg; try done;
      try (injection He as He; by apply issue_error in He).
    destruct (needs_issue now s) eqn:En; [injection He as He; by apply issue_error in He|].
    injection He as <-. exists s. split; [unfold stored; by rewrite Eg|by apply needs_issue_healthy].
Qed.

Definition input_now (x : pass_input) : Z := let '(_, now, _, _) := x in now.

Lemma rotator_pass_healthy r x w w' :
  rotator_pass r x w = Val (w', None) -> exists s, stored w' r = Some s /\ healthy (input_now x) s.
Proof.
  destruct x as [[[env now] e1] e2]. unfold rotator_pass, mbind, go_mbind, Ensure.
  destruct (ensure _ _ _ _ _ _ _) as [[[w1 b] err]|] eqn:E; [|done]. intros [= -> ->].
  by eapply ensure_ok_healthy.
Qed.

(** The time of the last pass of a run, [now0] when there was none. *)
Definition last_pass (now0 : Z) {S} (ws : list (wake pass_input S)) : Z :=
  default now0 (last (input_now <$> ticks (alive ws))).

Definition no_outside {S} (w : wake pass_input S) : Prop := match w with Between _ => False | _ => True end.

Lemma rotator_loop_healthy r ws : forall w e now0,
  Forall no_outside ws -> (exists s, stored w r = Some s /\ healthy now0 s) ->
  select_loop (rotator_pass r) ws w = Val e -> Forall (fun err => err = None) (le_out e) ->
  exists s, stored (le_state e) r = Some s /\ healthy (last_pass now0 ws) s.
Proof.
  induction ws as [|x ws IH]; intros w e now0 Hno Hs He Hok; [by injection He as <-|].
  apply Forall_cons in Hno as [Hx Hno]. destruct x as [x|f|]; [|done|by injection He as <-].
  simpl in He. unfold mbind, go_mbind in He. destruct (rotator_pass r x w) as [[w1 err]|] eqn:Ep; [|done]. simpl in He.
  destruct (select_loop _ ws w1) as [e1|] eqn:El; [|done]. injection He as <-. simpl in *.
  apply Forall_cons in Hok as [-> Hok].
  destruct (IH w1 e1 (input_now x) Hno (rotator_pass_healthy _ _ _ _ Ep) El Hok) as (s & Hst & Hh).
  exists s. split; [done|]. replace (last_pass now0 (Tick x :: ws)) with (last_pass (input_now x) ws); [done|].
  unfold last_pass. simpl. rewrite last_cons. by destruct (last _).
Qed.

(** The stored leaf parses and has at least [left] left at [t]. *)
Definition leaf_lasts (s : Secret) (left t : Z) : Prop :=
  exists leafPEM lb leaf, sec_Data s !! tlsCertKey = Some leafPEM /\ pem_Decode leafPEM = Some lb /\
    ParseCertificate lb = Ok leaf /\ left <= NotAfter leaf - t.

Lemma healthy_lasts now s d t : healthy now s -> t <= now + d -> leaf_lasts s (refreshWhenLeft - d) t.
Proof.
  intros (leafPEM & caPEM & lb & cb & leaf & ca & Hl & _ & Hd & _ & Hp & _ & Hleft & _) Ht.
  exists leafPEM, lb, leaf. do 3 (split; [done|]). lia.
Qed.

(** C37: the rotator keeps the webhook serving: if every pass of Run - the one at the start and the one of each tick,
    whenever the ticks come - reported no error and nothing else writes the Secret, then after the last pass a Secret
    is stored whose leaf parses, chains to the CA stored with it and has at least thirty days left at that pass; and
    until the next pass is due, an interval later, it still has thirty days less the interval left, which for the
    twelve hours that leaderOnly passes to Run is more than twenty-nine days.  Run returns exactly when the context
    ends. *)
Theorem Run_keeps_healthy r interval first ws w e :
  0 < interval -> Forall no_outside ws ->
  Run r interval first ws w = Val e -> Forall (fun err => err = None) (le_out e) ->
  le_returned e = existsb is_cancelled ws /\
  exists s, stored (le_state e) r = Some s /\ healthy (last_pass (input_now first) ws) s /\
    (forall t, t <= last_pass (input_now first) ws + interval -> leaf_lasts s (refreshWhenLeft - interval) t) /\
    (interval = 12 * Hour -> forall t, t <= last_pass (input_now first) ws + interval -> leaf_lasts s (29 * 24 * Hour) t).
Proof.
  intros Hi Hno Hrun Hok. unfold Run, mbind, go_mbind in Hrun. rewrite NewTicker_pos in Hrun by done.
  destruct (rotator_pass r first w) as [[w1 err]|] eqn:Ep; [|done]. simpl in Hrun.
  destruct (select_loop _ ws w1) as [e1|] eqn:El; [|done]. injection Hrun as <-. simpl in *.
  apply Forall_cons in Hok as [-> Hok]. split.
  - rewrite select_loop_alive in El. unfold mbind, go_mbind in El. destruct (select_loop _ _ _); [|done]. by injection El as <-.
  - assert (Hh : exists s, stored (le_state e1) r = Some s /\ healthy (last_pass (input_now first) ws) s)
      by (eapply rotator_loop_healthy; try done; by eapply rotator_pass_healthy).
    destruct Hh as (s & Hs & Hh). exists s. split; [done|]. split; [done|]. split; [intros t; by apply healthy_lasts|].
    intros -> t Ht. destruct (healthy_lasts _ s (12 * Hour) t Hh Ht) as (leafPEM & lb & leaf & ? & ? & ? & Hl).
    exists leafPEM, lb, leaf. do 3 (split; [done|]). etransitivity; [|exact Hl]. vm_compute. discriminate.
Qed.
End rotator_theorems.

(** Half a year of daily passes on the toy cluster; the pair is renewed twice on the way. *)
Definition toy_input (k day : Z) : pass_input := ("ns", day * 24 * Hour, toy_entropy k, toy_entropy (k + 1)).
Definition toy_days : list (wake pass_input toy_world) :=
  (fun n => Tick (toy_input (Z.of_nat n) (Z.of_nat n * 20))) <$> seq 1 8.
Definition toy_run := Run toy_rotator (12 * Hour) (toy_input 0 0) toy_days (toy_start true).

Lemma Run_keeps_healthy_witness :
  exists e s, toy_run = Val e /\ stored (le_state e) toy_rotator = Some s /\ healthy (160 * 24 * Hour) s.
Proof.
  assert (Hok : match toy_run with
                | Val e => bool_decide (Forall (fun err => err = None) (le_out e))
                | Panic => false
                end = true) by (vm_compute; reflexivity).
  destruct toy_run as [e|] eqn:Erun; [|discriminate Hok]. apply bool_decide_eq_true in Hok.
  unfold toy_run in Erun.
  assert (Hno : Forall no_outside toy_days) by (repeat constructor).
  destruct (Run_keeps_healthy toy_rotator (12 * Hour) (toy_input 0 0) toy_days (toy_start true) e
              eq_refl Hno Erun Hok) as (_ & s & Hs & Hh & _).
  exists e, s. split; [reflexivity|]. split; [exact Hs|exact Hh].
Defined.
