(* ===== verification/Factory.v ===== *)
(** * The plugin factory (internal/spread/plugins_api.go)

    [New], the dependencies it builds from the framework handle and the goroutines it
    starts.  The clients and informers are client-go's: a [Handle] says whether they
    can be built, [caches] is what their listers return when they are read. *)

From S2P Require Import Prelude GoStd Kube Fixtures State Keys Domain Api Plugin Lifecycle Observer Wiring Loops.

(** ** What the factory is given *)

(** [dynamic.NewForConfig(h.KubeConfig())], and the probe
    [dyn.Resource(scaledObjectGVR).List(Limit: 1)] of the KEDA group. *)
Record Handle := MkHandle {
  h_dynamic : res ();
  h_listScaledObjects : res ();
}.

(** The informer caches and their [HasSynced] at one moment. *)
Record caches := MkCaches {
  c_nodes : res (list (option Node));
  c_nodesSynced : bool;
  c_podsSynced : bool;
  c_pods : res (list Pod);
  c_policies : string -> res (list (option (res ServiceSpreadPolicy)));
  c_policiesSynced : bool;
  c_replicaSets : string -> string -> option (list OwnerReference);
  c_deployments : string -> string -> bool;
  c_scaledObjects : string -> res (list so_object);
  c_scaledObjectsSynced : bool;
}.

(** The goroutines and callbacks the factory installs, with their parameters. *)
Inductive effect :=
| RunPolicyInformer
| RunScaledObjectInformer
| AddPodEventHandler (args : ServiceSpreadArgs)
| GoRunObserverLoop (d : ObserverLoopDeps)
| GoRunJanitor (ttl : Z)
| GoRunReconciler (period : Z).

(** The resources of the two dynamic informers: group, version, resource. *)
Definition policyGVR : string * string * string := ("scheduling.soyup.top", "v1alpha1", "servicespreadpolicies").
Definition scaledObjectGVR : string * string * string := ("keda.sh", "v1alpha1", "scaledobjects").

(** The name the framework uses for a resource in an event registration. *)
Definition event_resource (gvr : string * string * string) : string :=
  let '(group, version, resource) := gvr in resource +:+ "." +:+ version +:+ "." +:+ group.

(** ** Readers *)

(** [policyInformer]: nil informer and nil [synced] when there is no client. *)
Record policyInformer := MkPolicyInformer { pi_inf : bool; pi_synced : bool }.

Definition newPolicyInformer (h : Handle) : policyInformer * list effect :=
  match h_dynamic h with
  | Err _ => (MkPolicyInformer false false, [])
  | Ok _ => (MkPolicyInformer true true, [RunPolicyInformer])
  end.

Definition policies_of (p : policyInformer) (c : caches) : string -> res (list ServiceSpreadPolicy) :=
  policy_List (if pi_inf p then Some (c_policies c) else None).

Definition policies_synced (p : policyInformer) (c : caches) : bool :=
  policy_HasSynced (if pi_synced p then Some (c_policiesSynced c) else None).

(** [newKEDAIndexer]: whether the indexer is known. *)
Definition newKEDAIndexer (h : Handle) : bool * list effect :=
  match h_dynamic h with
  | Err _ => (false, [])
  | Ok _ =>
    match h_listScaledObjects h with
    | Err _ => (false, [])
    | Ok _ => (true, [RunScaledObjectInformer])
    end
  end.

(** [informerTargetSource]: the indexer and its [HasSynced] are set together. *)
Record informerTargetSource := MkTargetSource { ts_soIndexer : bool; ts_kedaKnown : bool }.

Definition newInformerTargetSource (kedaLister : bool * list effect) : informerTargetSource * list effect :=
  let '(ok, eff) := kedaLister in
  (if ok then MkTargetSource true true else MkTargetSource false false, eff).

Definition target_ScaledObject (t : informerTargetSource) (c : caches) (namespace deployment : string) : res (Z * bool) :=
  ScaledObjectMinReplicas (ts_kedaKnown t)
    (if ts_soIndexer t then Some (c_scaledObjectsSynced c) else None) (c_scaledObjects c namespace) namespace deployment.

Definition newRSOwnerReader (c : caches) : rsOwnerReader := RSOwnerReader (c_replicaSets c) (c_deployments c).

(** [listerPodSource] over the pod cache. *)
Definition newListerPodSource (c : caches) (managedScheduler serviceLabelKey : string) : res (gmap string podRef) :=
  ListCountable managedScheduler serviceLabelKey (c_pods c).

(** ** The factory *)

(** The objects behind [pluginDeps], each shared with the loops. *)
Record objects := MkObjects { ob_policies : policyInformer; ob_targets : informerTargetSource; ob_state : spreadState }.

Definition started_loops (ttl period : Z) : list effect :=
  let '(ttl, period) := StartLifecycleLoops ttl period in [GoRunJanitor ttl; GoRunReconciler period].

(** The settings of the observer loop: [30 * time.Second], and the debug switches that
    are on when they are set. *)
Definition observer_loop_deps (args : ServiceSpreadArgs) : ObserverLoopDeps :=
  MkLoopDeps (ServiceLabelKey args) (30 * Second) (bool_decide (ExportNodePods args = Some true))
    (bool_decide (ExportTargetDetail args = Some true)) (ManagedSchedulerName args).

Definition depsFromHandle (args : ServiceSpreadArgs) (h : Handle) : objects * list effect :=
  let '(policies, eff1) := newPolicyInformer h in
  let st := newSpreadState in
  let '(targets, eff2) := newInformerTargetSource (newKEDAIndexer h) in
  (MkObjects policies targets st,
   eff1 ++ [AddPodEventHandler args] ++ eff2 ++
   [GoRunObserverLoop (observer_loop_deps args)] ++
   started_loops (ReservationTTL args) (ReconcilePeriod args)).

(** [pluginDeps] as they read the caches; [synced] closes over the three informers. *)
Definition deps_at (ob : objects) (c : caches) : pluginDeps :=
  MkDeps (policies_of (ob_policies ob) c) (OwnedByDeployment (newRSOwnerReader c)) (c_nodes c)
    (Some (policies_synced (ob_policies ob) c && c_podsSynced c && c_nodesSynced c)).

Section factory.
Context `{KubeLib}.

(** [New]: the plugin as it reads the caches [c], and what was started. *)
Definition New (Decode : string -> res ServiceSpreadArgs) (configuration : config_object) (h : Handle) (c : caches)
    : res ServiceSpread * list effect :=
  match DecodeServiceSpreadArgs Decode configuration with
  | Err e => (Err ("decode " +:+ Name +:+ " args: " +:+ e), [])
  | Ok args =>
    let '(ob, eff) := depsFromHandle args h in
    (NewWithDeps args (deps_at ob c), eff)
  end.

End factory.

(** ** Theorems *)

Section theorems.
Context `{KubeLib}.

Lemma NewWithDeps_valid a deps :
  valid_args a -> d_synced deps <> None -> NewWithDeps a deps = Ok (MkPlugin a deps).
Proof.
  intros [[Hk _] [Hs _] _] Hsy. unfold NewWithDeps. rewrite !decide_False by done.
  by destruct deps as [p o n [b|]].
Qed.

(** Decoded arguments are valid and their durations positive. *)
Lemma decoded_args dec cfg a :
  DecodeServiceSpreadArgs dec cfg = Ok a -> valid_args a /\ 0 < ReservationTTL a /\ 0 < ReconcilePeriod a.
Proof.
  intros (raw & _ & _ & -> & Hv)%Decode_ok. split; [done|]. destruct Hv as [_ _ (_ & H1 & H2)].
  unfold duration_ok in *. simpl in *. split; [clear H2|clear H1]; case_decide; unfold DefaultReservationTTL, DefaultReconcilePeriod, Minute, Second; lia.
Qed.

Lemma started_loops_pos ttl period : 0 < ttl -> 0 < period -> started_loops ttl period = [GoRunJanitor ttl; GoRunReconciler period].
Proof.
  intros Ht Hp. unfold started_loops, StartLifecycleLoops.
  destruct (Z.leb_spec ttl 0); [lia|]. by destruct (Z.leb_spec period 0); [lia|].
Qed.

(** C27: the factory.  New builds a plugin exactly when its configuration decodes, from the defaulted arguments and
    the dependencies of the handle - the later checks of NewWithDeps never fail then - and on an error nothing has
    been started.  On success what has been started is, each once and nothing else: the policy informer when there is
    a client, the pod handler with the arguments, the ScaledObject informer when the probe of its group succeeded,
    the observer with the arguments' settings, the janitor with the configured TTL and the reconciler with the
    configured period; and these two loops do not panic. *)
Theorem New_exact dec cfg h c :
  match DecodeServiceSpreadArgs dec cfg with
  | Err e => New dec cfg h c = (Err ("decode " +:+ Name +:+ " args: " +:+ e), [])
  | Ok a =>
    let '(ob, eff) := depsFromHandle a h in
    New dec cfg h c = (Ok (MkPlugin a (deps_at ob c)), eff) /\ ob_state ob = newSpreadState /\
    eff = match h_dynamic h with Ok _ => [RunPolicyInformer] | Err _ => [] end ++
          [AddPodEventHandler a] ++
          match h_dynamic h, h_listScaledObjects h with Ok _, Ok _ => [RunScaledObjectInformer] | _, _ => [] end ++
          [GoRunObserverLoop (observer_loop_deps a); GoRunJanitor (ReservationTTL a); GoRunReconciler (ReconcilePeriod a)] /\
    NoDup eff /\
    (forall jw s, RunJanitor (ReservationTTL a) jw s <> Panic) /\
    (forall rw s, RunReconciler (ReconcilePeriod a) rw s <> Panic)
  end.
Proof.
  unfold New. destruct (DecodeServiceSpreadArgs dec cfg) as [a|e] eqn:Ed; [|done].
  apply decoded_args in Ed as (Hv & Ht & Hp). destruct (depsFromHandle a h) as [ob eff] eqn:Edeps.
  rewrite NewWithDeps_valid by (done || by unfold deps_at). split; [done|].
  unfold depsFromHandle, newPolicyInformer, newKEDAIndexer in Edeps. rewrite started_loops_pos in Edeps by done.
  split; [|split; [|split; [|split]]].
  - by destruct (h_dynamic h); [destruct (h_listScaledObjects h)|]; injection Edeps as <- <-.
  - by destruct (h_dynamic h); [destruct (h_listScaledObjects h)|]; injection Edeps as <- <-.
  - destruct (h_dynamic h); [destruct (h_listScaledObjects h)|]; injection Edeps as <- <-; simpl;
      repeat (constructor; [set_solver|]); constructor.
  - intros jw s. destruct (RunJanitor_ends (ReservationTTL a) jw s Ht) as (e & -> & _). done.
  - intros rw s. destruct (RunReconciler_ends (ReconcilePeriod a) rw s Hp) as (e & -> & _). done.
Qed.

(** C28: a kubeconfig from which no client can be built does not stop the factory: with a configuration that decodes
    New still returns a plugin with its arguments, and starts everything but the two dynamic informers.  But the plugin
    fails closed: every PreFilter on it, for every pod and whatever the other caches hold, rejects with CacheNotSynced
    and leaves the cycle state alone. *)
Theorem broken_client_fails_closed `{CycleStore C} dec cfg h c a e :
  h_dynamic h = Err e -> DecodeServiceSpreadArgs dec cfg = Ok a ->
  exists pl, New dec cfg h c =
      (Ok pl, [AddPodEventHandler a; GoRunObserverLoop (observer_loop_deps a);
               GoRunJanitor (ReservationTTL a); GoRunReconciler (ReconcilePeriod a)]) /\
    pl_args pl = a /\
    forall counts cs pod, PreFilter (C := C) pl counts cs pod = Val (NewStatus Unschedulable "CacheNotSynced", cs, []).
Proof.
  intros He Ed. unfold New. rewrite Ed.
  apply decoded_args in Ed as (Hv & Ht & Hp). destruct (depsFromHandle a h) as [ob eff] eqn:Edeps.
  rewrite NewWithDeps_valid by (done || by unfold deps_at).
  unfold depsFromHandle, newPolicyInformer, newKEDAIndexer in Edeps. rewrite He, started_loops_pos in Edeps by done.
  injection Edeps as <- <-. by eexists.
Qed.

(** KEDA: any failure of the start-up probe, not only an unregistered group, makes every deployment
    "not managed" for the life of the process; it never surfaces as an error. *)
Theorem failed_probe_is_absence args h c e :
  h_listScaledObjects h = Err e ->
  forall ns dep, target_ScaledObject (ob_targets (depsFromHandle args h).1) c ns dep = Ok (0, false).
Proof.
  intros He ns dep. unfold depsFromHandle, newKEDAIndexer, newPolicyInformer. rewrite He.
  by destruct (h_dynamic h).
Qed.

End theorems.

(** The policy events that wake pods up are those of the resource the plugin watches. *)
Lemma policy_events_registered : event_resource policyGVR ∈ ev_Resource <$> EventsToRegister.
Proof. simpl. set_solver. Qed.

(** ** Witnesses *)

Definition ex_caches : caches :=
  MkCaches (Ok []) true true (Ok []) (fun _ => Ok []) true (fun _ _ => None) (fun _ _ => true) (fun _ => Ok []) true.
Definition ex_broken : Handle := MkHandle (Err "no host") (Err "unreachable").

Lemma broken_client_fails_closed_witness :
  exists pl, (New ex_args_decoder (ObjUnknown "{}") ex_broken ex_caches).1 = Ok pl /\
    PreFilter pl (fun _ _ _ => (0, 0)) (∅ : gmap string StateData) (fx_pod "u" "" "app" "Pending") =
      Val (NewStatus Unschedulable "CacheNotSynced", ∅, []).
Proof.
  destruct (DecodeServiceSpreadArgs ex_args_decoder (ObjUnknown "{}")) as [a|e] eqn:Ed;
    [|exfalso; vm_compute in Ed; discriminate Ed].
  destruct (broken_client_fails_closed (C := gmap string StateData) ex_args_decoder (ObjUnknown "{}") ex_broken ex_caches a
              "no host" eq_refl Ed) as (pl & Hnew & _ & Hp).
  exists pl. split; [exact (f_equal fst Hnew)|]. apply Hp.
Defined.

Lemma failed_probe_is_absence_witness :
  target_ScaledObject (ob_targets (depsFromHandle ex_args (MkHandle (Ok ()) (Err "forbidden"))).1) ex_caches "ns" "d" = Ok (0, false).
Proof. apply (failed_probe_is_absence ex_args (MkHandle (Ok ()) (Err "forbidden")) ex_caches "forbidden" eq_refl). Defined.
