(* ===== verification/Startup.v ===== *)
(** * The binaries (cmd/webhook/main.go, cmd/scheduler/main.go, internal/webhook/wire.go)

    The start-up sequence of the webhook as a computation that calls the libraries in
    order, stops the process at the first fatal error and runs the certificate
    bootstrap on the cluster on its way.  Flag parsing, TLS and HTTP serving are the
    libraries'; which of their calls fail is an argument. *)

From S2P Require Import Prelude GoStd Kube Fixtures Api Plugin Webhook SelfCert Rotation Loops Factory.

(** ** What the process is given *)

(** The flags after [flag.Parse]. *)
Record flags := MkFlags {
  metricsAddr : string;
  probeAddr : string;
  webhookCertDir : string;
  webhookCertName : string;
  webhookKeyName : string;
  configMapNamespace : string;
  configMapName : string;
  leaderElect : bool;
  selfSignCerts : bool;
}.

Definition SharedConfigMapName : string := "service-spread-scheduler-config".

(** The values of the flags that are not given. *)
Definition default_flags : flags := MkFlags ":8080" ":8081" "" "tls.crt" "tls.key" "" SharedConfigMapName false false.

Inductive runnable := R_certWatcher | R_configSource | R_rotator (checkInterval : Z).

(** [leaderOnly(rotator)] *)
Definition leaderOnly : runnable := R_rotator (12 * Hour).

(** A runnable that does not say otherwise waits for leadership. *)
Definition NeedLeaderElection (r : runnable) : bool :=
  match r with R_configSource | R_certWatcher => false | R_rotator _ => true end.

(** Whether the manager runs it on this replica. *)
Definition started_on (leaderElection leader : bool) (r : runnable) : bool :=
  negb (NeedLeaderElection r) || negb leaderElection || leader.

Definition PolicyWebhookPath : string := "/validate-scheduling-soyup-top-v1alpha1-servicespreadpolicy".
Definition webhookConfigName : string := "service-spread-policy-validator".

(** ** Schemes *)

(** Group, version and kind. *)
Abbreviation gvk := (string * string * string)%type.

(** [GroupVersion], and what each package's [init] registers with its [SchemeBuilder]. *)
Definition policy_GroupVersion : string * string := ("scheduling.soyup.top", "v1alpha1").
Definition policy_SchemeBuilder : list string := ["ServiceSpreadPolicy"; "ServiceSpreadPolicyList"].
Definition args_GroupVersion : string * string := ("config.scheduling.soyup.top", "v1alpha1").
Definition args_SchemeBuilder : list string := [ArgsKind].

Definition AddToScheme (gv : string * string) (kinds : list string) (scheme : gset gvk) : gset gvk :=
  list_to_set ((fun k => (gv.1, gv.2, k)) <$> kinds) ∪ scheme.

(** The webhook's [init]; [clientgo] is what client-go's own scheme registers. *)
Definition webhook_scheme (clientgo : gset gvk) : gset gvk :=
  AddToScheme policy_GroupVersion policy_SchemeBuilder clientgo.

(** The calls whose order and failure matter; a path is its joined elements. *)
Inductive call :=
| c_GetConfig
| c_certwatcher (certPath keyPath : list string)
| c_NewCertRotator
| c_EnsureBootstrap
| c_NewManager (f : flags)
| c_Add (r : runnable)
| c_NewConfigMapSource (namespace name : string)
| c_Register (path : string)
| c_AddReadyzCheck (name : string)
| c_AddHealthzCheck (name : string)
| c_Start.

(** ** A process *)

Section process.
Context `{Crypto} {W : Type} `{!CertAPI W}.

(** The calls made, then a value to go on with or the exit code, and the cluster. *)
Definition proc (A : Type) : Type := W -> list call * (A + Z) * W.

#[export] Instance proc_ret : MRet proc := fun A a w => ([], inl a, w).
#[export] Instance proc_bind : MBind proc := fun A B f m w =>
  match m w with
  | (l, inr code, w) => (l, inr code, w)
  | (l, inl a, w) => let '(l', r, w) := f a w in (l ++ l', r, w)
  end.

(** [os.Exit] *)
Definition exit {A} (code : Z) : proc A := fun w => ([], inr code, w).

Context (fails : call -> option string).

(** A call whose error the caller looks at, and one whose error ends the process. *)
Definition attempt (c : call) : proc (option string) := fun w => ([c], inl (fails c), w).
Definition must (c : call) : proc () :=
  err ← attempt c;
  match err with Some _ => exit 1 | None => mret tt end.

(** What the bootstrap reads: the [WEBHOOK_NAMESPACE] variable, the clock, randomness. *)
Context (env : string) (now : Z) (e1 e2 : entropy).

(** [NewCertRotator]; [None] when no client can be built. *)
Definition NewCertRotator (webhookCfgName : string) (dnsNames : list string) : proc (option CertRotator) :=
  err ← attempt c_NewCertRotator;
  mret (match err with
        | Some _ => None
        | None => Some (MkRotator (WebhookNamespace env) webhookCfgName dnsNames)
        end).

(** [rotator.EnsureBootstrap]: its error is only logged; a panic ends the process. *)
Definition bootstrap (r : CertRotator) : proc () := fun w =>
  match EnsureBootstrap r env now e1 e2 w with
  | Panic => ([c_EnsureBootstrap], inr 2, w)
  | Val (w, _, _) => ([c_EnsureBootstrap], inl tt, w)
  end.

(** The certificate watcher, or the cold start that ends the process. *)
Definition cert_watcher (f : flags) : proc bool :=
  if decide (webhookCertDir f = "") then mret false
  else
    err ← attempt (c_certwatcher [webhookCertDir f; webhookCertName f] [webhookCertDir f; webhookKeyName f]);
    match err with
    | None => mret true
    | Some _ =>
      if selfSignCerts f then
        rot ← NewCertRotator webhookConfigName (ServingCertDNSNames (configMapNamespace f));
        _ ← (match rot with Some r => bootstrap r | None => mret tt end : proc ());
        exit 1
      else exit 1
    end.

Definition add_rotator (f : flags) : proc () :=
  if selfSignCerts f then
    if negb (leaderElect f) then exit 1
    else
      rot ← NewCertRotator webhookConfigName (ServingCertDNSNames (configMapNamespace f));
      match rot with
      | None => exit 1
      | Some r => _ ← bootstrap r; must (c_Add leaderOnly)
      end
  else mret tt.

(** [RegisterPolicyWebhook] cannot fail. *)
Definition RegisterPolicyWebhook : proc () :=
  _ ← attempt (c_Register PolicyWebhookPath); mret tt.

(** [main]; 0 is the exit after [mgr.Start] returned without an error. *)
Definition webhook_main (f : flags) : proc Z :=
  if decide (configMapNamespace f = "") then exit 1
  else
    _ ← must c_GetConfig;
    watcher ← cert_watcher f;
    _ ← must (c_NewManager f);
    _ ← (if watcher : bool then must (c_Add R_certWatcher) else mret tt);
    _ ← must (c_NewConfigMapSource (configMapNamespace f) (configMapName f));
    _ ← must (c_Add R_configSource);
    _ ← add_rotator f;
    _ ← RegisterPolicyWebhook;
    _ ← must (c_AddReadyzCheck "shared-config");
    _ ← must (c_AddHealthzCheck "healthz");
    _ ← must c_Start;
    mret 0.

Definition exit_code (r : Z + Z) : Z := match r with inl z | inr z => z end.
End process.

(** The readiness probe: the error of [configSrc.Get]. *)
Definition shared_config_ready (src : ConfigMapSource) : option string :=
  match Get src with Ok _ => None | Err e => Some e end.

(** ** The scheduler binary *)

(** The goroutine of [main]: a server for the patterns of its mux.  When it fails,
    its error is logged and the scheduler goes on. *)
Definition metrics_server (ListenAndServe : string -> list string -> option string) : list string :=
  match ListenAndServe ":9100" ["/metrics"] with Some err => [err] | None => [] end.

(** What the goroutine logs while the process lives, and the exit code.  [run] is
    [cli.Run] of the command built from the registered plugins. *)
Definition scheduler_main `{KubeLib} (Decode : string -> res ServiceSpreadArgs)
    (ListenAndServe : string -> list string -> option string)
    (run : (string -> option (config_object -> Handle -> caches -> res ServiceSpread * list effect)) -> Z)
    : list string * Z :=
  (metrics_server ListenAndServe, run (fun name => if decide (name = Name) then Some (New Decode) else None)).

(** ** Theorems *)

Section theorems.
Context `{CryptoLaws} {W : Type} `{!CertAPI W, !CertAPILaws W}.
Context (fails : call -> option string) (env : string) (now : Z) (e1 e2 : entropy).

Abbreviation main := (webhook_main (W := W) fails env now e1 e2).

(** The calls of a process that comes to serve, in order. *)
Definition serving_log (f : flags) : list call :=
  [c_GetConfig] ++
  (if decide (webhookCertDir f = "") then []
   else [c_certwatcher [webhookCertDir f; webhookCertName f] [webhookCertDir f; webhookKeyName f]]) ++
  [c_NewManager f] ++
  (if decide (webhookCertDir f = "") then [] else [c_Add R_certWatcher]) ++
  [c_NewConfigMapSource (configMapNamespace f) (configMapName f); c_Add R_configSource] ++
  (if selfSignCerts f then [c_NewCertRotator; c_EnsureBootstrap; c_Add leaderOnly] else []) ++
  [c_Register PolicyWebhookPath; c_AddReadyzCheck "shared-config"; c_AddHealthzCheck "healthz"; c_Start].

Definition is_start (c : call) : bool := match c with c_Start => true | _ => false end.

Lemma bind_inv {A B} (m : proc (W := W) A) (k : A -> proc B) w l r w' :
  (m ≫= k) w = (l, r, w') ->
  (exists code, m w = (l, inr code, w') /\ r = inr code) \/
  (exists a l1 l2 w1, m w = (l1, inl a, w1) /\ k a w1 = (l2, r, w') /\ l = l1 ++ l2).
Proof.
  unfold mbind, proc_bind. destruct (m w) as [[l1 [a|code]] w1].
  - destruct (k a w1) as [[l2 r2] w2] eqn:Ek. intros [= <- <- <-]. right. eauto 10.
  - intros [= <- <- <-]. left. eauto.
Qed.

Lemma must_inv c (w : W) l r w' :
  must fails c w = (l, r, w') ->
  l = [c] /\ w' = w /\ (fails c = None /\ r = inl tt \/ fails c <> None /\ r = inr 1).
Proof.
  unfold must, attempt, exit, mbind, proc_bind, mret, proc_ret. destruct (fails c); intros [= <- <- <-]; eauto.
Qed.

(** The stages, as one lemma each: what the log and the result can be. *)
Definition good_calls (l : list call) : Prop :=
  forall c, c ∈ l -> (forall p, c <> c_Register p) -> c <> c_EnsureBootstrap -> c <> c_Start -> fails c = None.

Lemma good_calls_app l1 l2 : good_calls l1 -> good_calls l2 -> good_calls (l1 ++ l2).
Proof. intros H1 H2 c [Hc|Hc]%elem_of_app; [by apply H1|by apply H2]. Qed.

Lemma good_calls_one c : fails c = None -> good_calls [c].
Proof. by intros Hc c' ->%list_elem_of_singleton. Qed.

Lemma good_calls_nil : good_calls [].
Proof. by intros c Hc%elem_of_nil. Qed.

Definition stage (l : list call) (r : unit + Z) (full : list call) : Prop :=
  existsb is_start l = false /\ match r with inl _ => l = full /\ good_calls l | inr code => code = 1 \/ code = 2 end.

(** Close a stage whose log is concrete. *)
Ltac stage_done Hr :=
  injection Hr as <- <- <-; simpl; repeat split; try naive_solver; auto using good_calls_nil, good_calls_one.

Lemma cert_watcher_stage f (w : W) l r w' :
  cert_watcher fails env now e1 e2 f w = (l, r, w') ->
  stage l (match r with inl _ => inl tt | inr c => inr c end)
    (if decide (webhookCertDir f = "") then []
     else [c_certwatcher [webhookCertDir f; webhookCertName f] [webhookCertDir f; webhookKeyName f]]) /\
  forall b, r = inl b -> b = bool_decide (webhookCertDir f <> "").
Proof.
  unfold cert_watcher, NewCertRotator, attempt, bootstrap, exit, mbind, proc_bind, mret, proc_ret, stage. intros Hr.
  destruct (decide (webhookCertDir f = "")) as [Hd|Hd].
  - rewrite bool_decide_eq_false_2 by naive_solver. stage_done Hr.
  - rewrite bool_decide_eq_true_2 by done. destruct (fails (c_certwatcher _ _)) eqn:Ef; [|stage_done Hr].
    destruct (selfSignCerts f); [|stage_done Hr].
    destruct (fails c_NewCertRotator); simpl in Hr; [stage_done Hr|].
    destruct (EnsureBootstrap _ _ _ _ _ w) as [[[w1 b] err]|]; stage_done Hr.
Qed.

Lemma add_rotator_stage f (w : W) l r w' :
  add_rotator fails env now e1 e2 f w = (l, r, w') ->
  stage l r (if selfSignCerts f then [c_NewCertRotator; c_EnsureBootstrap; c_Add leaderOnly] else []) /\
  (r = inl tt -> selfSignCerts f = true -> leaderElect f = true).
Proof.
  unfold add_rotator, NewCertRotator, must, attempt, bootstrap, exit, mbind, proc_bind, mret, proc_ret, stage. intros Hr.
  destruct (selfSignCerts f); [|stage_done Hr].
  destruct (leaderElect f); simpl in Hr; [|stage_done Hr].
  destruct (fails c_NewCertRotator) eqn:E1; simpl in Hr; [stage_done Hr|].
  destruct (EnsureBootstrap _ _ _ _ _ w) as [[[w1 b] err]|]; [|stage_done Hr].
  destruct (fails (c_Add leaderOnly)) eqn:E2; stage_done Hr.
  intros c Hc _ ? _. rewrite !elem_of_cons in Hc. by destruct Hc as [->|[->|[->|Hc%elem_of_nil]]].
Qed.

(** The end of a process that has not come to [mgr.Start]. *)
Definition stopped (l : list call) (r : Z + Z) : Prop :=
  existsb is_start l = false /\ (r = inr 1 \/ r = inr 2).

Lemma must_then {B} c (k : proc (W := W) B) w l r w' :
  (_ ← must fails c; k) w = (l, r, w') ->
  l = [c] /\ r = inr 1 \/ fails c = None /\ exists l', l = c :: l' /\ k w = (l', r, w').
Proof.
  intros [(code & Hm & ->)|([] & l1 & l2 & w1 & Hm & Hk & ->)]%bind_inv; apply must_inv in Hm as (-> & -> & Hr).
  - left. naive_solver.
  - right. split; [naive_solver|]. exists l2. naive_solver.
Qed.

(** The last calls, from the registration of the webhook on. *)
Lemma main_tail_spec (w : W) l r w' :
  (_ ← RegisterPolicyWebhook fails; _ ← must fails (c_AddReadyzCheck "shared-config");
   _ ← must fails (c_AddHealthzCheck "healthz"); _ ← must fails c_Start; mret 0) w = (l, r, w') ->
  stopped l r \/
  l = [c_Register PolicyWebhookPath; c_AddReadyzCheck "shared-config"; c_AddHealthzCheck "healthz"; c_Start] /\
  good_calls l /\ exit_code r = (match fails c_Start with Some _ => 1 | None => 0 end).
Proof.
  unfold RegisterPolicyWebhook, must, attempt, exit, mbind, proc_bind, mret, proc_ret, stopped.
  destruct (fails (c_AddReadyzCheck _)) eqn:E1; [intros [= <- <- <-]; left; auto|].
  destruct (fails (c_AddHealthzCheck _)) eqn:E2; [intros [= <- <- <-]; left; auto|].
  destruct (fails c_Start); intros [= <- <- <-]; right; (split; [done|]); (split; [|done]);
    intros c Hc Hreg _ Hst; rewrite !elem_of_cons in Hc;
    destruct Hc as [->|[->|[->|[->|Hc%elem_of_nil]]]]; try done; by destruct (Hreg PolicyWebhookPath).
Qed.

Lemma stopped_cons c l r : is_start c = false -> stopped l r -> stopped (c :: l) r.
Proof. intros Hc [Hl Hr]. split; [|done]. simpl. by rewrite Hc. Qed.

Lemma stopped_app l1 l2 r : existsb is_start l1 = false -> stopped l2 r -> stopped (l1 ++ l2) r.
Proof. intros Hc [Hl Hr]. split; [|done]. by rewrite existsb_app, Hc. Qed.

Lemma good_calls_cons c l : fails c = None -> good_calls l -> good_calls (c :: l).
Proof. intros Hc Hl. by apply (good_calls_app [c]); [apply good_calls_one|]. Qed.

Lemma main_result f w l r w' :
  main f w = (l, r, w') ->
  stopped l r \/
  configMapNamespace f <> "" /\ (selfSignCerts f = true -> leaderElect f = true) /\
  l = serving_log f /\ good_calls l /\ exit_code r = (match fails c_Start with Some _ => 1 | None => 0 end).
Proof.
  unfold webhook_main, serving_log. intros Hr. destruct (decide (configMapNamespace f = "")) as [_|Hns].
  { injection Hr as <- <- <-. left. by split; [|left]. }
  apply must_then in Hr as [[-> ->]|(G1 & l1 & -> & Hr)]; [left; by split; [|left]|].
  apply bind_inv in Hr as [(code & Hw & ->)|(b & lw & l2 & w1 & Hw & Hr & ->)];
    apply cert_watcher_stage in Hw as ((Hns1 & Hw) & Hb); [left; split; [done|naive_solver]|].
  destruct Hw as [-> Hgw]. specialize (Hb b eq_refl).
  apply must_then in Hr as [[-> ->]|(G2 & l3 & -> & Hr)]; [left; apply stopped_cons, stopped_app; [done..|]; by split; [|left]|].
  apply bind_inv in Hr as [(code & Hc & ->)|([] & lc & l4 & w2 & Hc & Hr & ->)].
  { destruct b; [|done]. apply must_inv in Hc as (-> & -> & Hc). left.
    apply stopped_cons, stopped_app; [done..|]. split; [done|naive_solver]. }
  assert (Hlc : lc = (if decide (webhookCertDir f = "") then [] else [c_Add R_certWatcher]) /\ good_calls lc /\ w2 = w1).
  { destruct (decide (webhookCertDir f = "")) as [Hd|Hd].
    - rewrite bool_decide_eq_false_2 in Hb by naive_solver. subst b. injection Hc as <- <-.
      by split_and!; [|apply good_calls_nil|].
    - rewrite bool_decide_eq_true_2 in Hb by done. subst b. apply must_inv in Hc as (-> & -> & Hc).
      split_and!; [done| |done]. apply good_calls_one. naive_solver. }
  destruct Hlc as (-> & Hgc & ->).
  assert (Hsc : existsb is_start (if decide (webhookCertDir f = "") then [] else [c_Add R_certWatcher]) = false)
    by by destruct (decide _).
  apply must_then in Hr as [[-> ->]|(G3 & l5 & -> & Hr)].
  { left. apply stopped_cons, stopped_app, stopped_cons, stopped_app; [done..|]. by split; [|left]. }
  apply must_then in Hr as [[-> ->]|(G4 & l6 & -> & Hr)].
  { left. apply stopped_cons, stopped_app, stopped_cons, stopped_app, stopped_cons; [done..|]. by split; [|left]. }
  apply bind_inv in Hr as [(code & Ha & ->)|([] & la & l7 & w3 & Ha & Hr & ->)];
    apply add_rotator_stage in Ha as ((Hsa & Ha) & Hle).
  { left. apply stopped_cons, stopped_app, stopped_cons, stopped_app, stopped_cons, stopped_cons; [done..|].
    split; [done|naive_solver]. }
  destruct Ha as [-> Hga]. apply main_tail_spec in Hr as [Hst|(-> & Hgt & Hex)]; [|right].
  { left. apply stopped_cons, stopped_app, stopped_cons, stopped_app, stopped_cons, stopped_cons, stopped_app; done. }
  split_and!; [done|by apply Hle|done| |done].
  apply good_calls_cons, good_calls_app, good_calls_cons, good_calls_app, good_calls_cons, good_calls_cons, good_calls_app; done.
Qed.

(** C38: the webhook binary comes to serve only after these calls, in this order, each of which has succeeded except
    the bootstrap: configuration, certificate watcher, manager, config source on every replica, - with
    -self-sign-certs, which is refused without -leader-elect - the rotator's client, the bootstrap, and the rotator
    for the leader only, then the webhook's path, readiness and health.  The bootstrap is attempted on every replica
    and may fail: its error is only logged.  A process that does not come to serve exits with code 1, or 2 for a
    panic, without ever starting the manager.  If no other call fails and the bootstrap does not panic, the process
    does come to serve, whether the bootstrap reported an error or not. *)
Theorem webhook_main_exact f w l r w' :
  main f w = (l, r, w') ->
  (if existsb is_start l
   then configMapNamespace f <> "" /\ (selfSignCerts f = true -> leaderElect f = true) /\
        l = serving_log f /\ good_calls l /\
        (forall leader, c_Add leaderOnly ∈ l -> started_on (leaderElect f) leader leaderOnly = leader) /\
        (forall leader, started_on (leaderElect f) leader R_configSource = true) /\
        exit_code r = match fails c_Start with Some _ => 1 | None => 0 end
   else exit_code r = 1 \/ exit_code r = 2) /\
  (configMapNamespace f <> "" -> (selfSignCerts f = true -> leaderElect f = true) ->
   (forall c, c <> c_Start -> fails c = None) ->
   (forall names, EnsureBootstrap (MkRotator (WebhookNamespace env) webhookConfigName names) env now e1 e2 w <> Panic) ->
   existsb is_start l = true).
Proof.
  intros Hr. split.
  - pose proof (main_result _ _ _ _ _ Hr) as [[Hs Hex]|(Hns & Hse & Hl & Hg & Hex)].
    + rewrite Hs. destruct Hex as [-> | ->]; [by left|by right].
    + assert (Hst : existsb is_start l = true).
      { rewrite Hl. unfold serving_log. rewrite !existsb_app. by rewrite !orb_true_r. }
      rewrite Hst. split_and!; try done. intros leader Hin. rewrite Hl in Hin. unfold serving_log in Hin.
      destruct (selfSignCerts f); [by rewrite Hse|]. exfalso. destruct (decide (webhookCertDir f = "")); set_solver.
  - intros Hns Hse Hf Hb. destruct (existsb is_start l) eqn:Hst; [done|exfalso].
    revert Hr. unfold webhook_main, cert_watcher, add_rotator, NewCertRotator, RegisterPolicyWebhook, must, attempt, bootstrap,
      exit, mbind, proc_bind, mret, proc_ret.
    rewrite decide_False by done. rewrite !Hf by done.
    destruct (decide (webhookCertDir f = "")); simpl;
      (destruct (selfSignCerts f); [rewrite Hse by done; simpl|]);
      try (match goal with |- context [EnsureBootstrap ?x ?a ?b ?c ?d ?y] => destruct (EnsureBootstrap x a b c d y) as [[[w1 ?] ?]|] eqn:Ee;
        [|by apply Hb in Ee] end; simpl);
      rewrite ?Hf by done; simpl; destruct (fails c_Start); intros [= <- <- <-]; simpl in Hst; done.
Qed.

(** The cold start: when the certificate pair is not mounted yet, the process exits with code 1 before there is
    a manager; with -self-sign-certs it has first run one bootstrap pass - without leader election, whatever
    -leader-elect says - and if that pass reported no error the Secret that the restarted pod mounts is stored and
    healthy; without -self-sign-certs the cluster is untouched. *)
Theorem cold_start f w l r w' e :
  let rot := MkRotator (WebhookNamespace env) webhookConfigName (ServingCertDNSNames (configMapNamespace f)) in
  configMapNamespace f <> "" -> webhookCertDir f <> "" ->
  fails c_GetConfig = None -> fails c_NewCertRotator = None ->
  fails (c_certwatcher [webhookCertDir f; webhookCertName f] [webhookCertDir f; webhookKeyName f]) = Some e ->
  main f w = (l, r, w') ->
  (forall fl, c_NewManager fl ∉ l) /\
  (if selfSignCerts f
   then c_EnsureBootstrap ∈ l /\
        match EnsureBootstrap rot env now e1 e2 w with
        | Panic => r = inr 2
        | Val (w1, _, err) =>
          r = inr 1 /\ w' = w1 /\ (err = None -> exists s, stored w' rot = Some s /\ healthy now s)
        end
   else r = inr 1 /\ w' = w).
Proof.
  intros rot Hns Hd Hg Hn Hc. unfold webhook_main, cert_watcher, NewCertRotator, bootstrap, must, attempt, exit, mbind, proc_bind, mret, proc_ret.
  rewrite !decide_False by done. rewrite Hg, Hc, Hn. destruct (selfSignCerts f); simpl; [|intros [= <- <- <-]; split; [set_solver|done]].
  fold rot. destruct (EnsureBootstrap rot env now e1 e2 w) as [[[w1 b] err]|] eqn:Ee; intros [= <- <- <-]; (split; [set_solver|]).
  - split; [set_solver|]. split; [done|]. split; [done|]. intros ->. by eapply ensure_ok_healthy.
  - split; [set_solver|done].
Qed.
End theorems.

(** The readiness probe passes exactly when the webhook has a configuration to validate with; while it does not,
    every policy is rejected. *)
Theorem readiness_is_usability src :
  match shared_config_ready src with
  | None => exists cfg, Get src = Ok cfg
  | Some e => forall reader p,
      validate (Get src) reader (ReqPolicy p) = DeniedError ("webhook configuration not usable, failing closed: " +:+ e)
  end.
Proof. unfold shared_config_ready, validate. destruct (Get src) as [cfg|e]; [by exists cfg|done]. Qed.

(** The validator's type is in the manager's scheme, and the version string that the arguments' decoder compares
    with is the registered one. *)
Lemma webhook_scheme_policy clientgo :
  (policy_GroupVersion.1, policy_GroupVersion.2, "ServiceSpreadPolicy") ∈ webhook_scheme clientgo.
Proof. unfold webhook_scheme, AddToScheme. set_solver. Qed.

Lemma args_version_registered : args_GroupVersion.1 +:+ "/" +:+ args_GroupVersion.2 = ArgsGroupVersion.
Proof. reflexivity. Qed.

(** ** The names of the certificate *)

(** The name under which the API server calls the webhook's Service. *)
Definition service_host (ns : string) : string := "service-spread-webhook-service." +:+ ns +:+ ".svc".

(** The names of the issued certificate come from -config-map-namespace, the Service the API server calls is in the
    namespace of WEBHOOK_NAMESPACE: the certificate covers the Service exactly when the two are the same. *)
Theorem certificate_covers_service f env :
  service_host (WebhookNamespace env) ∈ ServingCertDNSNames (configMapNamespace f) <->
  configMapNamespace f = WebhookNamespace env.
Proof.
  unfold ServingCertDNSNames, service_host. rewrite !elem_of_cons. split; [|intros ->; by left].
  intros [Heq|[Heq|Heq%elem_of_nil]]; [| |done]; apply str_app_inj_l in Heq as [_ Heq]; try done.
  - by apply str_app_inj_r in Heq as [? _].
  - exfalso. change ".svc.cluster.local" with (".svc.cluster.l" +:+ "ocal") in Heq. rewrite <- str_app_assoc in Heq.
    by apply str_app_inj_r in Heq as [_ ?].
Qed.

(** ** Witnesses *)

Definition ex_flags : flags := MkFlags ":8080" ":8081" "/certs" "tls.crt" "tls.key" "ns" SharedConfigMapName true true.
Definition ex_unmounted (c : call) : option string :=
  match c with c_certwatcher _ _ => Some "no such file" | _ => None end.
Definition ex_main (fails : call -> option string) := webhook_main fails "ns" 0 (toy_entropy 1) (toy_entropy 2) ex_flags (toy_start true).

Lemma webhook_main_exact_witness : (ex_main (fun _ => None)).1.1 = serving_log ex_flags.
Proof.
  destruct (ex_main (fun _ => None)) as [[l r] w'] eqn:Hr. unfold ex_main in Hr.
  assert (Hb : forall names, EnsureBootstrap (MkRotator (WebhookNamespace "ns") webhookConfigName names) "ns" 0
                 (toy_entropy 1) (toy_entropy 2) (toy_start true) <> Panic) by (intros names; discriminate).
  destruct (webhook_main_exact (fun _ => None) "ns" 0 (toy_entropy 1) (toy_entropy 2) ex_flags (toy_start true) l r w' Hr)
    as [Hs Hst].
  rewrite Hst in Hs; [|discriminate|reflexivity|reflexivity|exact Hb].
  destruct Hs as (_ & _ & Hl & _). exact Hl.
Defined.

Lemma cold_start_witness : c_EnsureBootstrap ∈ (ex_main ex_unmounted).1.1 /\ forall fl, c_NewManager fl ∉ (ex_main ex_unmounted).1.1.
Proof.
  destruct (ex_main ex_unmounted) as [[l r] w'] eqn:Hr. unfold ex_main in Hr.
  destruct (cold_start ex_unmounted "ns" 0 (toy_entropy 1) (toy_entropy 2) ex_flags (toy_start true) l r w' "no such file"
              ltac:(discriminate) ltac:(discriminate) eq_refl eq_refl eq_refl Hr) as (Hm & Hb & _).
  split; [exact Hb|exact Hm].
Defined.
